(* ===== verification/_CoqProject ===== *)
-Q . S2P
Prelude.v
GoFile.v
Arena.v
Bloom.v
Crc32.v
Wal.v
SSTable.v
SSTReader.v
SSTIterator.v
SSTClean.v
GoDir.v
GoText.v
GoUrl.v
Metrics.v
Compact.v
Levels.v
MemTable.v
KvStore.v
KvCompact.v
KvGet.v
KvRecovery.v
RaftWal.v
RaftSync.v
Raft.v
RaftNode.v
RaftApi.v
RaftCluster.v
RaftElection.v
RaftLog.v
RaftRestart.v
RaftLeader.v
RaftHistory.v
RaftSteps.v
RaftSafety.v
Replica.v
KvClient.v
KvLive.v
Server.v
Http.v
CliTools.v
Cli.v
WalFiles.v
Session.v
ServerMain.v
