(* ===== verification/Prelude.v ===== *)
(** * SisyphusDB: a verification development

    SisyphusDB is a replicated key-value store written in Go: every node keeps
    an LSM tree (an in-memory table on an arena, sorted table files with Bloom
    filters, a background flush and a compaction) and agrees with the other
    nodes on the sequence of commands by an implementation of Raft.

    ** How the parts interact

    A client's command goes through the HTTP handlers to [Store.Put], which
    marshals it and hands it to [Raft.Start].  The leader's replicator and
    ticker send the log to the peers over gRPC ([RaftApi]); the replies move
    the commit index, the applier sends committed entries to
    [Store.readAppliedLogs], and [applyInternal] writes them into the active
    table.  A full table is frozen and written to an SSTable by the flush
    worker; [CheckAndCompact] merges the files of a level.  [Get] looks in the
    active table, the frozen table and then the files.

    ** Files

    - Prelude: bytes, machine integers, little-endian codecs, outcomes (value,
      error or panic), Go slices and string order, and the shared lemmas.
    - GoFile, GoDir: files and directories as the operating system presents
      them ([io.ReadFull], [os.ReadDir], write faults as scripts, names with
      [fmt.Sprintf]).  GoText: strings and scanning (strings, [fmt.Sscanf]).
      Metrics: pkg/metrics/metrics.go.
    - Arena: pkg/arena/arena.go.  Bloom: pkg/bloom/bloom.go, over any 64-bit
      hash (murmur3 is third-party).  Crc32: the IEEE checksum of the standard
      library.  Wal: pkg/wal/wal.go.
    - SSTable: sstable/builder.go.  SSTReader: sstable/reader.go.
      SSTIterator: sstable/iterator.go.  SSTClean: exactness of lookups in
      tables below a size bound.
    - Compact: kv/compact.go.  Levels: its level metrics.  MemTable: kv/lib.go (tables and their flush).
      KvStore: kv/store.go and the flush worker as a transition system.
      KvCompact: the same with compactions running beside.  KvGet: the parts of
      [Get] between these steps.  KvRecovery: restart,
      stale reads, divergence.
    - RaftWal: raft/raft_wal.go.  RaftSync: its background syncer.  Raft: raft/raft.go, requestVotes.go,
      appendEntries.go, persist.go, one node and all its handlers.  RaftNode:
      properties of single handlers and of restart.
    - RaftApi: api/raft_server.go and the two send functions.  RaftCluster:
      all nodes of a cluster with their goroutines.  RaftElection: election
      safety, RaftLog: log matching, RaftLeader: what a node says about the
      leader, by invariants over reachable clusters.  RaftRestart: clusters
      whose nodes stop and start again.
    - RaftHistory: ghost history of a cluster (what every leader's log was and
      who held which part of it).  RaftSteps: every step keeps the history and
      the invariant about it.  RaftSafety: state machine safety, leader
      completeness, absence of panics.  Replica: Raft composed with the
      storage engine.
    - KvClient: the calls of [Store.Put] and [readAppliedLogs] with their
      channels, over one Raft node and one storage engine.  KvLive: the same
      with flushes and compactions, a whole node.
    - GoUrl: query strings and request lines (net/url, net/http).  Server:
      cmd/server/handlers.go and proxy.go, the requests and the settings of
      cmd/cli.  Http: middleware.go and the routes and peers of main.go.
      CliTools: the metrics output of cmd/cli and its other texts.  Cli: the
      commands of cmd/cli as a program (flags, requests, files, programs it
      starts, exit status).  WalFiles: [FindActiveFile] and the start of a
      store.
    - Session: sicli, routes, handlers and a whole node in one.  ServerMain:
      cmd/server/main.go, the start of a node.

    Operations keep the names of the source ([arena_Put] is [Arena.Put], and
    so on where a name would be ambiguous); a struct is a Record, a Go map a
    [gmap], an error return an [Err], a run-time panic a [Panic].

    ** What the theorems show

    Storage: what is written is read back, for the arena, the log, the table
    files (stored keys always; absent keys exactly under the size condition
    [file_clean]) and the iterator; a changed byte of a log record is noticed;
    the Bloom filter denies no added key and is exactly the filter of its
    positions; reading terminates on any file.  The store refines a finite map
    under every interleaving of commands, rotations and flushes; a compaction
    keeps the newest entry of every key; no wakeup of the flush worker is
    lost.  With compactions, each in three parts between which the others run,
    and with the parts of [Get] as steps of their own, every [Get] answers with
    the map of a moment during the call ([compaction_refines_map]), as long as
    no table is flushed with a key that a level above 0 or the input of the
    running compaction holds ([unshared]; otherwise reads can be stale,
    [compaction_makes_reads_stale]) and no input of a compaction is removed
    while the call reads the directory (otherwise a stored key can be missed,
    [get_misses_stored_key]).

    Raft: one vote per term for runs of vote requests, at most one leader of a
    term in runs in which no node granted a vote of the term after it had
    handled an AppendEntries call of it that it did not refuse as stale
    ([no_late]), also when nodes restart from their WAL files at any time
    ([election_safety_restarts]), the exact effect of
    AppendEntries on a log, the commit rule, the applier; the gRPC bridge is
    transparent below 2^31.  Log matching and the shape of every log hold in
    all reachable clusters in which no term had two leaders and terms and
    positions fit in 32 bits ([reach_small]); both conditions are needed as
    the code stands, and without late votes the first one holds
    ([reach_unique]).  In runs in which, in addition, the goroutines of
    [sendHeartBeats] act only in the term in which they were started
    ([reach_fresh]; the code does not check this, and
    [stale_reply_breaks_agreement] shows what happens otherwise), all nodes
    give the same entries to their stores in the same order, committed
    entries are in the log of every later leader, applied entries stay, and no
    handler panics.  With the storage engine on top: replicas that applied
    equally many entries answer every read alike.  The node named by
    [GetLeader] won an election.  The background syncer misses no write.

    Clients: a call that reports success had an entry applied at its index;
    the apply loop never blocks on a client; the command line client delivers
    any key and value, and a follower forwards plain ones faithfully, and only
    to a node that was elected; the status that is logged and counted is the
    one the client gets.  A user of sicli is shown what one finite map of the applied
    commands would show ([session_refines_map], for a node that leads); every
    invocation of sicli sends, changes and reports what it should
    ([cli_ends]).  A node that starts again answers reads from its log and
    tables, and refuses writes, without passing them on, until a leader calls
    or it leads itself ([node_starts]).  The level gauges are what the compaction sees, and the
    formatted metrics are the samples of the node.

    Several theorems state what the code does where this is not what it means
    to do: two leaders of one term, stale replies that commit on a minority,
    acknowledgements for another command, lost entries after a restart, stale
    reads after a compaction, requests changed by forwarding.  Each is a
    concrete run or an exact description of the effect.

    ** Bounds and fuel

    Loops over file contents get the length of the file plus one as fuel: each
    round consumes at least one byte ([sstable_get_total], [wal_recover_total],
    [iterator_terminates]).  The merge of a compaction gets one plus the sum of
    what its iterators can still read ([compaction_total]).  [itoa] prints up
    to 20 digits, enough for a 64-bit time.  Loops over a Raft log get its
    length.  Theorems that need lengths below the width of a length field say
    so.

    ** Assumptions of the model

    Writing a table, for a flush or for the merge of a compaction, is one step
    with respect to the directory, and so is the removal of a compaction's
    inputs: readers do not see half a file.  [Get] is in parts in KvGet, KvLive
    and Session ([get_step]: the two tables under the lock, the listing, each
    file); elsewhere [store_Get] is the parts without other steps in between
    ([get_iter_atomic]), which is how a state answers.  The refinement theorems of the
    store are about runs without disk faults; faults are scripts in the
    theorems about errors.  The clock, random timeouts, the result of
    [os.Create] and of [json.Unmarshal], and the state of a request's context
    are arguments.  In RaftCluster a goroutine advances by one critical section
    at a time; a call is delivered at most once and can be lost.

    The Prometheus client is a sequence of calls; [http.ResponseWriter] is
    modelled as documented (first header wins, a write sends 200).  The text
    functions of CliTools are those of ASCII text.  The order in which a Go map
    is walked is an argument.

    A restart is one of the process: what was handed to the operating system
    survives.  Requests sent before it are still handled, and replies to them
    may still be counted.

    An address is taken to be one that net/http accepts: [send_url] does not
    refuse a missing scheme or invalid escapes before the query.  The logger
    and the metrics wrapper measure their own times.  Programs that sicli
    starts may change files.

    Sessions are about a node that leads: no
    entry of its log is replaced ([keeps_log]) and it knows of no other
    leader; without this, a call can be told success for another command
    ([put_acknowledges_other_command]).  Their commands survive json, which
    replaces bytes that are not UTF-8.  cobra
    parses the command line, and its [ExactArgs] compares the number of
    arguments.

    ** Not modelled

    The generated code of proto/, the libraries below the two servers
    (net/http, grpc) and the parsing of flags, what the programs sicli starts
    do, tests/chaos and the deployment files.  A panic of a handler ends the
    node and is not continued.  Logs do not survive a restart
    ([restart_shifts_log], [acknowledged_entry_lost]), so the cluster theorems
    about logs are about runs between restarts. *)

From stdpp Require Import base list gmap sorting.
From Stdlib Require Import Strings.Byte ZArith Lia.

#[global] Open Scope Z_scope.

(** ** Bytes

    A Go [byte] is [Byte.byte]; a Go [string] or [[]byte] is a [list byte]
    (Go strings are immutable byte sequences, so both have the same model). *)

Abbreviation byte := Byte.byte.
Abbreviation bytes := (list Byte.byte).

#[export] Instance byte_eq_decision : EqDecision byte := Byte.byte_eq_dec.

#[export] Instance byte_countable : Countable byte :=
  inj_countable Byte.to_N Byte.of_N Byte.of_to_N.

Definition byte_to_Z (b : byte) : Z := Z.of_N (Byte.to_N b).

(** The Go conversion [byte(z)]: truncation to eight bits. *)
Definition byte_of_Z (z : Z) : byte :=
  match Byte.of_N (Z.to_N (z mod 256)) with
  | Some b => b
  | None => Byte.x00
  end.

(** ** Machine-width integers

    An integer of width [w] is a [Z] in range; the conversions of the source
    ([uint16(x)], [uint32(x)], [int32(x)], ...) are the wrap-arounds below.
    [int] is the 64-bit [int] of the supported targets. *)

Definition uwrap (w z : Z) : Z := z mod 2 ^ w.
Definition swrap (w z : Z) : Z := (z + 2 ^ (w - 1)) mod 2 ^ w - 2 ^ (w - 1).

Abbreviation u8 := (uwrap 8).
Abbreviation u16 := (uwrap 16).
Abbreviation u32 := (uwrap 32).
Abbreviation u64 := (uwrap 64).
Abbreviation s32 := (swrap 32).
Abbreviation s64 := (swrap 64).

(** [len(x)] of a Go slice, string or array. *)
Definition len {A} (l : list A) : Z := Z.of_nat (length l).

(** ** Little-endian codecs: [encoding/binary.LittleEndian]

    [le_put n z] is the [n] bytes [PutUint(8n)] writes, [le_get] what
    [Uint(8n)] reads back. *)

Fixpoint le_put (n : nat) (z : Z) : bytes :=
  match n with
  | O => []
  | S n' => byte_of_Z z :: le_put n' (z / 256)
  end.

Fixpoint le_get (bs : bytes) : Z :=
  match bs with
  | [] => 0
  | b :: bs' => byte_to_Z b + 256 * le_get bs'
  end.

(** ** Outcomes

    A Go call returns a value, returns a non-nil [error], or panics. *)

Inductive error :=
| ErrArenaFull
| ErrOffsetOutOfRange
| ErrEOF
| ErrUnexpectedEOF
| ErrChecksum (lsn : Z)
| ErrTooSmall
| ErrInvalidSeek
| ErrIO
| ErrNotExist
| ErrPutFailed (key : bytes) (cause : error)
| ErrWriteStall
| ErrNotLeader
| ErrTimeout
| ErrAddFailed (cause : error)
| ErrCloseFailed (cause : error)
| ErrCreateFailed (cause : error).

#[export] Instance error_eq_decision : EqDecision error.
Proof. intros x y. unfold Decision. decide equality; apply _ || apply (decide (_ = _)). Defined.

Inductive outcome (A : Type) :=
| Ok (x : A)
| Err (e : error)
| Panic.
Arguments Ok {_} _.
Arguments Err {_} _.
Arguments Panic {_}.

#[export] Instance outcome_eq_dec {A} `{EqDecision A} : EqDecision (outcome A).
Proof. solve_decision. Defined.
#[export] Instance outcome_ret : MRet outcome := @Ok.
#[export] Instance outcome_bind : MBind outcome := λ A B f m,
  match m with
  | Ok x => f x
  | Err e => Err e
  | Panic => Panic
  end.

(** ** Slicing

    [slice l i j] is [l[i:j]] for a value whose capacity is its length (a
    string, or a slice made with its full length); an out-of-range bound is a
    run-time panic. *)

Definition slice {A} (l : list A) (i j : Z) : outcome (list A) :=
  if (0 <=? i) && (i <=? j) && (j <=? len l)
  then Ok (take (Z.to_nat (j - i)) (drop (Z.to_nat i) l))
  else Panic.

(** [l[i]]: an out-of-range index panics. *)
Definition index {A} (l : list A) (i : Z) : outcome A :=
  if 0 <=? i
  then match l !! Z.to_nat i with Some x => Ok x | None => Panic end
  else Panic.

Definition zeros (n : nat) : bytes := replicate n Byte.x00.

(** ** Go string comparison

    [<], [>] and [==] on strings compare bytes lexicographically. *)

Fixpoint str_cmp (a b : bytes) : comparison :=
  match a, b with
  | [], [] => Eq
  | [], _ :: _ => Lt
  | _ :: _, [] => Gt
  | x :: a', y :: b' =>
      match byte_to_Z x ?= byte_to_Z y with
      | Eq => str_cmp a' b'
      | c => c
      end
  end.

Definition str_ltb (a b : bytes) : bool :=
  match str_cmp a b with Lt => true | _ => false end.

Definition str_eqb (a b : bytes) : bool := bool_decide (a = b).

Definition str_lt (a b : bytes) : Prop := str_ltb a b = true.
Definition str_le (a b : bytes) : Prop := str_ltb b a = false.

(** * Tactics and lemmas *)

(** Closes a closed goal by evaluation: equations, decidable (in)equalities. *)
Ltac by_compute := first [ reflexivity | lia | vm_compute; first [ reflexivity | discriminate | congruence ] ].

(** ** Bytes and machine integers *)

Lemma byte_to_Z_range b : 0 <= byte_to_Z b < 256.
Proof.
  unfold byte_to_Z. pose proof (Byte.to_N_bounded b). lia.
Qed.

Lemma byte_to_of_Z z : byte_to_Z (byte_of_Z z) = z mod 256.
Proof.
  unfold byte_to_Z, byte_of_Z.
  pose proof (Z.mod_pos_bound z 256 ltac:(lia)) as Hb.
  destruct (Byte.of_N (Z.to_N (z mod 256))) as [b|] eqn:E.
  - apply Byte.to_of_N in E. rewrite E. lia.
  - apply Byte.of_N_None_iff in E. lia.
Qed.

Lemma byte_to_Z_inj a b : byte_to_Z a = byte_to_Z b → a = b.
Proof.
  unfold byte_to_Z. intros H%N2Z.inj.
  pose proof (Byte.of_to_N a) as Ha. rewrite H, Byte.of_to_N in Ha. by simplify_eq.
Qed.

Lemma byte_of_to_Z b : byte_of_Z (byte_to_Z b) = b.
Proof.
  apply byte_to_Z_inj. rewrite byte_to_of_Z.
  apply Z.mod_small, byte_to_Z_range.
Qed.

(** A computation that goes through, by its result only. *)
Lemma default_Some {A} (d : A) (o : option A) :
  match o with Some _ => true | None => false end = true → o = Some (default d o).
Proof. by destruct o. Qed.

Lemma uwrap_range w z : 0 <= w → 0 <= uwrap w z < 2 ^ w.
Proof. intros. apply Z.mod_pos_bound. lia. Qed.

Lemma uwrap_small w z : 0 <= z < 2 ^ w → uwrap w z = z.
Proof. apply Z.mod_small. Qed.

Lemma uwrap_idemp w z : uwrap w (uwrap w z) = uwrap w z.
Proof. unfold uwrap. apply Zmod_mod. Qed.

Lemma swrap_small w z :
  0 < w → - 2 ^ (w - 1) <= z < 2 ^ (w - 1) → swrap w z = z.
Proof.
  intros Hw Hz. unfold swrap.
  assert (2 ^ w = 2 * 2 ^ (w - 1)) as ->.
  { rewrite <-Z.pow_succ_r by lia. f_equal. lia. }
  rewrite Z.mod_small; lia.
Qed.

(** Reading an unsigned 64-bit offset back as [int64] is the identity on
    the offsets a file can have. *)
Lemma s64_u64_small z : 0 <= z < 2 ^ 63 → s64 (u64 z) = z.
Proof. intros. rewrite uwrap_small, swrap_small; lia. Qed.

(** ** Lengths *)

Create Rewrite HintDb len.

Lemma len_nil {A} : len (@nil A) = 0.
Proof. done. Qed.
Lemma len_cons {A} (x : A) l : len (x :: l) = 1 + len l.
Proof. unfold len. simpl. lia. Qed.
Lemma len_app {A} (l k : list A) : len (l ++ k) = len l + len k.
Proof. unfold len. rewrite length_app. lia. Qed.
Lemma len_nonneg {A} (l : list A) : 0 <= len l.
Proof. unfold len. lia. Qed.
Lemma len_map {A B} (f : A → B) l : len (map f l) = len l.
Proof. unfold len. by rewrite length_map. Qed.
Lemma len_zeros n : len (zeros n) = Z.of_nat n.
Proof. unfold len, zeros. by rewrite length_replicate. Qed.
Lemma len_take {A} n (l : list A) : len (take n l) = Z.min (Z.of_nat n) (len l).
Proof. unfold len. rewrite length_take. lia. Qed.
Lemma len_drop {A} n (l : list A) : len (drop n l) = Z.max 0 (len l - Z.of_nat n).
Proof. unfold len. rewrite length_drop. lia. Qed.

Lemma of_nat_length {A} (l : list A) : Z.of_nat (length l) = len l.
Proof. done. Qed.

Lemma length_le_put n z : length (le_put n z) = n.
Proof. revert z. induction n as [|n IH]; intros z; simpl; [done|]. by rewrite IH. Qed.
Lemma len_le_put n z : len (le_put n z) = Z.of_nat n.
Proof. unfold len. by rewrite length_le_put. Qed.

#[export] Hint Rewrite @len_nil @len_cons @len_app @len_map len_zeros
  @len_take @len_drop len_le_put @length_app @length_map @length_cons
  length_le_put @length_take @length_drop @length_replicate
  @of_nat_length : len.

(** Arithmetic over lengths: normalise [len] and [length], add
    non-negativity of the remaining ones, then [lia]. *)
Ltac len_pose :=
  repeat match goal with
  | |- context [len ?l] =>
      lazymatch goal with H : 0 <= len l |- _ => fail | _ => pose proof (len_nonneg l) end
  | _ : context [len ?l] |- _ =>
      lazymatch goal with H : 0 <= len l |- _ => fail | _ => pose proof (len_nonneg l) end
  end.
Ltac len_lia := autorewrite with len in *; len_pose; lia.

Lemma to_nat_len {A} (l : list A) : Z.to_nat (len l) = length l.
Proof. unfold len. lia. Qed.

(** ** Codecs *)

Lemma le_get_put n z : le_get (le_put n z) = z mod 2 ^ (8 * Z.of_nat n).
Proof.
  revert z. induction n as [|n IH]; intros z; cbn [le_put le_get].
  - change (2 ^ (8 * Z.of_nat 0)) with 1. by rewrite Z.mod_1_r.
  - rewrite IH, byte_to_of_Z.
    replace (8 * Z.of_nat (S n)) with (8 + 8 * Z.of_nat n) by lia.
    rewrite Z.pow_add_r by lia. change (2 ^ 8) with 256.
    rewrite Z.rem_mul_r by lia. lia.
Qed.

Lemma le_get_nil : le_get [] = 0.
Proof. done. Qed.
Lemma le_get_cons b bs : le_get (b :: bs) = byte_to_Z b + 256 * le_get bs.
Proof. done. Qed.
Lemma le_put_2 z : le_put 2 z = [byte_of_Z z; byte_of_Z (z / 256)].
Proof. done. Qed.
Lemma le_get_put2 z : le_get (le_put 2 z) = u16 z.
Proof. exact (le_get_put 2 z). Qed.
Lemma le_get_put4 z : le_get (le_put 4 z) = u32 z.
Proof. exact (le_get_put 4 z). Qed.
Lemma le_get_put8 z : le_get (le_put 8 z) = u64 z.
Proof. exact (le_get_put 8 z). Qed.

Lemma le_get_range bs : 0 <= le_get bs < 256 ^ len bs.
Proof.
  induction bs as [|b bs IH]; [done|].
  rewrite len_cons, Z.pow_add_r by (try apply len_nonneg; lia).
  cbn [le_get]. pose proof (byte_to_Z_range b). lia.
Qed.

Lemma le_put_get bs : le_put (length bs) (le_get bs) = bs.
Proof.
  induction bs as [|b bs IH]; [done|].
  cbn [length le_put le_get]. pose proof (byte_to_Z_range b) as Hb. f_equal.
  - apply byte_to_Z_inj. rewrite byte_to_of_Z, Z.mul_comm, Z.mod_add by lia.
    by apply Z.mod_small.
  - rewrite Z.mul_comm, Z.div_add, Z.div_small by lia. exact IH.
Qed.

Lemma le_get_inj a b : length a = length b → le_get a = le_get b → a = b.
Proof. intros Hl H. by rewrite <-(le_put_get a), <-(le_put_get b), Hl, H. Qed.

Lemma le_put_app_get n z rest : le_get (take n (le_put n z ++ rest)) = z mod 2 ^ (8 * Z.of_nat n).
Proof. rewrite take_app_length' by (by rewrite length_le_put). apply le_get_put. Qed.

(** Encoded integers stay folded; evaluation by [vm_compute] is unaffected. *)
#[global] Opaque le_put le_get.
#[global] Arguments uwrap : simpl never.
#[global] Arguments swrap : simpl never.

(** ** String order: a decidable strict total order *)

Lemma str_cmp_refl a : str_cmp a a = Eq.
Proof. induction a as [|x a IH]; simpl; [done|]. by rewrite Z.compare_refl. Qed.

Lemma str_cmp_eq a b : str_cmp a b = Eq ↔ a = b.
Proof.
  split; [|intros ->; apply str_cmp_refl].
  revert b. induction a as [|x a IH]; intros [|y b]; simpl; try done.
  destruct (Z.compare_spec (byte_to_Z x) (byte_to_Z y)) as [H|H|H]; try done.
  apply byte_to_Z_inj in H as ->. intros ?%IH. by subst.
Qed.

Lemma str_cmp_antisym a b : str_cmp b a = CompOpp (str_cmp a b).
Proof.
  revert b. induction a as [|x a IH]; intros [|y b]; simpl; try done.
  rewrite (Z.compare_antisym (byte_to_Z x)).
  destruct (byte_to_Z x ?= byte_to_Z y); simpl; auto.
Qed.

Lemma str_cmp_trans c a b d : str_cmp a b = c → str_cmp b d = c → str_cmp a d = c.
Proof.
  revert b d. induction a as [|x a IH]; intros [|y b] [|z d]; simpl; try congruence.
  destruct (Z.compare_spec (byte_to_Z x) (byte_to_Z y)),
    (Z.compare_spec (byte_to_Z y) (byte_to_Z z)),
    (Z.compare_spec (byte_to_Z x) (byte_to_Z z)); intros; try lia; try congruence; eauto.
Qed.

#[export] Instance str_lt_dec a b : Decision (str_lt a b).
Proof. unfold str_lt. apply _. Defined.
#[export] Instance str_le_dec a b : Decision (str_le a b).
Proof. unfold str_le. apply _. Defined.

Lemma str_lt_cmp a b : str_lt a b ↔ str_cmp a b = Lt.
Proof. unfold str_lt, str_ltb. by destruct (str_cmp a b). Qed.

#[export] Instance str_lt_strict : StrictOrder str_lt.
Proof.
  split.
  - intros a. red. by rewrite str_lt_cmp, str_cmp_refl.
  - intros a b c. rewrite !str_lt_cmp. apply str_cmp_trans.
Qed.

#[export] Instance str_lt_trichotomy : TrichotomyT str_lt.
Proof.
  intros a b. destruct (str_cmp a b) eqn:E.
  - left. right. by apply str_cmp_eq.
  - left. left. by apply str_lt_cmp.
  - right. apply str_lt_cmp. rewrite str_cmp_antisym, E. done.
Defined.

Lemma str_le_lt_eq a b : str_le a b ↔ str_lt a b ∨ a = b.
Proof.
  unfold str_le, str_ltb. rewrite str_cmp_antisym, str_lt_cmp, <-str_cmp_eq.
  destruct (str_cmp a b); simpl; intuition congruence.
Qed.

Lemma str_ltb_false a b : str_ltb a b = false ↔ str_le b a.
Proof. done. Qed.

Lemma str_lt_le a b : str_lt a b → str_le a b.
Proof. rewrite str_le_lt_eq. auto. Qed.

Lemma str_le_lt_trans a b c : str_le a b → str_lt b c → str_lt a c.
Proof. rewrite str_le_lt_eq. intros [H| ->] ?; [by transitivity b|done]. Qed.

Lemma str_lt_le_trans a b c : str_lt a b → str_le b c → str_lt a c.
Proof. rewrite str_le_lt_eq. intros ? [H|H]; [by transitivity b|by subst]. Qed.

#[export] Instance str_le_preorder : PreOrder str_le.
Proof.
  split.
  - intros a. rewrite str_le_lt_eq. by right.
  - intros a b c Hab. rewrite !str_le_lt_eq. intros [H| ->].
    + left. by eapply str_le_lt_trans.
    + by rewrite <-str_le_lt_eq.
Qed.

#[export] Instance str_le_total : Total str_le.
Proof. intros a b. rewrite !str_le_lt_eq. destruct (trichotomyT str_lt a b) as [[]|]; auto. Qed.

#[export] Instance str_le_antisym : AntiSymm (=) str_le.
Proof.
  intros a b. rewrite !str_le_lt_eq. intros [H1|H1] [H2|H2]; try done.
  exfalso. apply (irreflexivity str_lt a). by transitivity b.
Qed.
#[export] Instance str_ge_antisym : AntiSymm (=) (flip str_le).
Proof. intros a b H1 H2. by apply (anti_symm str_le). Qed.

Lemma str_eqb_eq a b : str_eqb a b = true ↔ a = b.
Proof. apply bool_decide_eq_true. Qed.
Lemma str_eqb_refl a : str_eqb a a = true.
Proof. by apply bool_decide_eq_true. Qed.

(** Sorted lists of strings. *)
Lemma StronglySorted_sublist {A} (R : relation A) l k :
  l `sublist_of` k → StronglySorted R k → StronglySorted R l.
Proof.
  induction 1 as [|x l k Hs IH|x l k Hs IH]; [done|..]; rewrite ?StronglySorted_cons; [|naive_solver].
  intros [Hx Hk]. split; [|auto]. apply Forall_forall. intros y Hy.
  rewrite Forall_forall in Hx. apply Hx. by eapply elem_of_submseteq, sublist_submseteq.
Qed.

Lemma StronglySorted_lookup {A} (R : relation A) l i j x y :
  StronglySorted R l → (i < j)%nat → l !! i = Some x → l !! j = Some y → R x y.
Proof.
  intros Hs Hij Hi Hj. rewrite <-(take_drop j l) in Hs.
  apply StronglySorted_app in Hs as (H & _ & _). apply H.
  - apply list_elem_of_lookup. exists i. by rewrite lookup_take_lt.
  - apply list_elem_of_lookup. exists 0%nat. by rewrite lookup_drop, Nat.add_0_r.
Qed.

(** ** Slices *)

Lemma slice_ok {A} (l : list A) i j :
  0 <= i → i <= j → j <= len l →
  slice l i j = Ok (take (Z.to_nat (j - i)) (drop (Z.to_nat i) l)).
Proof.
  intros. unfold slice.
  by rewrite !(proj2 (Z.leb_le _ _)) by lia.
Qed.

Lemma slice_mid {A} (a b c : list A) i j :
  i = len a → j = len a + len b → slice (a ++ b ++ c) i j = Ok b.
Proof.
  intros -> ->. rewrite slice_ok by len_lia.
  rewrite to_nat_len, drop_app_length.
  replace (Z.to_nat _) with (length b) by (unfold len; lia).
  by rewrite take_app_length.
Qed.

Lemma index_lookup {A} (l : list A) i x :
  0 <= i → index l i = Ok x ↔ l !! Z.to_nat i = Some x.
Proof.
  intros Hi. unfold index. rewrite (proj2 (Z.leb_le _ _)) by done.
  destruct (l !! Z.to_nat i); naive_solver.
Qed.

(** ** Prefixes *)

Lemma prefix_take_length {A} (l k : list A) : l `prefix_of` k → take (length l) k = l.
Proof. intros [r ->]. apply take_app_length. Qed.

Lemma prefix_of_take {A} (l k : list A) n : l `prefix_of` k → (length l <= n)%nat → l `prefix_of` take n k.
Proof. intros [r ->] Hn. exists (take (n - length l) r). by rewrite take_app, take_ge. Qed.

Lemma take_prefix_le {A} (l : list A) n m : (n <= m)%nat → take n l `prefix_of` take m l.
Proof. intros H. replace (take n l) with (take n (take m l)); [apply prefix_take|]. rewrite take_take. f_equal. lia. Qed.

(** Two lists with a common prefix agree below its length. *)
Lemma prefix_take_same {A} (p l k : list A) n :
  p `prefix_of` l → p `prefix_of` k → (n <= length p)%nat → take n l = take n k.
Proof. intros [r ->] [r' ->] Hn. by rewrite !take_app_le. Qed.

Lemma last_take_S {A} (l : list A) m x : l !! m = Some x → last (take (S m) l) = Some x.
Proof. intros H. by rewrite (take_S_r l m x H), last_snoc. Qed.

(** Prefixes of one list agree where both are defined. *)
Definition agree {A} (l k : list A) : Prop := l `prefix_of` k ∨ k `prefix_of` l.

Lemma agree_lookup {A} (l k : list A) i x y : agree l k → l !! i = Some x → k !! i = Some y → x = y.
Proof. intros [H|H] Hx Hy; [pose proof (prefix_lookup_Some _ _ _ _ Hx H)|pose proof (prefix_lookup_Some _ _ _ _ Hy H)]; congruence. Qed.

Lemma agree_prefix_l {A} (p l k : list A) : p `prefix_of` l → agree l k → agree p k.
Proof.
  intros Hp [H|H]; [left; by transitivity l|]. destruct (prefix_weak_total p k l Hp H) as [?|?]; [by left|by right].
Qed.

Lemma prefix_last {A} (l k : list A) x : l `prefix_of` k → last l = Some x → k !! (length l - 1)%nat = Some x.
Proof.
  rewrite last_lookup. intros H Hx. replace (length l - 1)%nat with (pred (length l)) by lia.
  by eapply prefix_lookup_Some.
Qed.
