(* ===== verification/GoFile.v ===== *)
(** * Files, readers and searching: what the source uses of Go's library

    [os.File] (contents, cursor, and a script of write faults), [io.ReadFull],
    [make] and [sort.Search].  Nothing here maps to a line of the repository:
    these are the operations of the language's library the components call. *)

From stdpp Require Import base list gmap.
From Stdlib Require Import ZArith Lia.
From S2P Require Import Prelude.

(** ** [os.File]

    An open regular file: its bytes, the cursor, and the outcomes of the
    coming [Write] and [Sync] calls.  The head of [f_faults] decides the next
    such call: [None] lets it succeed, [Some n] makes it fail after [n] bytes
    reached the file; an empty script means success.  Reads of a regular file
    fail only with [io.EOF]. *)
Record File := mkFile {
  f_data : bytes;
  f_pos : Z;
  f_faults : list (option nat)
}.

Definition open_at_start (data : bytes) (faults : list (option nat)) : File :=
  mkFile data 0 faults.

(** [Read(buf)] with [len(buf) = n], on a zeroed buffer: an empty buffer reads
    nothing, end of file is [io.EOF], and a short read leaves the tail of the
    buffer zero without an error. *)
Definition Read (f : File) (n : Z) : File * outcome bytes :=
  if n <=? 0 then (f, Ok [])
  else
    let rest := drop (Z.to_nat (f_pos f)) (f_data f) in
    match rest with
    | [] => (f, Err ErrEOF)
    | _ :: _ =>
        let got := take (Z.to_nat n) rest in
        (mkFile (f_data f) (f_pos f + len got) (f_faults f),
         Ok (got ++ zeros (Z.to_nat n - length got)))
    end.

(** [io.ReadFull(f, buf)] with [len(buf) = n]: [io.EOF] when no byte was read,
    [io.ErrUnexpectedEOF] when some but not all were. *)
Definition ReadFull (f : File) (n : Z) : File * outcome bytes :=
  if n <=? 0 then (f, Ok [])
  else
    let rest := drop (Z.to_nat (f_pos f)) (f_data f) in
    let got := take (Z.to_nat n) rest in
    (mkFile (f_data f) (f_pos f + len got) (f_faults f),
     match rest with
     | [] => Err ErrEOF
     | _ :: _ => if len got <? n then Err ErrUnexpectedEOF else Ok got
     end).

(** [Seek(off, io.SeekStart)], [Seek(off, io.SeekCurrent)] and
    [Seek(off, io.SeekEnd)]: a negative target is refused, a target past the
    end is not. *)
Definition seek_to (f : File) (p : Z) : File * outcome unit :=
  if p <? 0 then (f, Err ErrInvalidSeek)
  else (mkFile (f_data f) p (f_faults f), Ok tt).

Definition SeekStart (f : File) (off : Z) : File * outcome unit := seek_to f off.
Definition SeekCurrent (f : File) (off : Z) : File * outcome unit := seek_to f (f_pos f + off).
Definition SeekEnd (f : File) (off : Z) : File * outcome unit := seek_to f (len (f_data f) + off).

(** The bytes [bs] written over [data] from position [p]; a gap past the end
    is filled with zero bytes. *)
Definition write_at (data : bytes) (p : nat) (bs : bytes) : bytes :=
  take p data ++ zeros (p - length data) ++ bs ++ drop (p + length bs) data.

(** [Write(bs)] at the cursor. *)
Definition Write (f : File) (bs : bytes) : File * outcome unit :=
  let put n rest :=
    let w := take n bs in
    mkFile (write_at (f_data f) (Z.to_nat (f_pos f)) w) (f_pos f + len w) rest in
  match f_faults f with
  | [] => (put (length bs) [], Ok tt)
  | None :: fs => (put (length bs) fs, Ok tt)
  | Some n :: fs => (put n fs, Err ErrIO)
  end.

(** [Sync()]. *)
Definition Sync (f : File) : File * outcome unit :=
  match f_faults f with
  | [] => (f, Ok tt)
  | None :: fs => (mkFile (f_data f) (f_pos f) fs, Ok tt)
  | Some _ :: fs => (mkFile (f_data f) (f_pos f) fs, Err ErrIO)
  end.

(** ** [make([]byte, n)]: panics on a negative or unaddressable length. *)
Definition maxAlloc : Z := 2 ^ 48.
Definition go_make (n : Z) : outcome unit :=
  if (n <? 0) || (maxAlloc <? n) then Panic else Ok tt.

(** ** [sort.Search(n, f)]: the bisection of the library, [i, j := 0, n]. *)
Fixpoint search_loop (fuel : nat) (f : Z → bool) (i j : Z) : Z :=
  match fuel with
  | O => i
  | S fuel' =>
      if i <? j then
        let h := (i + j) / 2 in
        if f h then search_loop fuel' f i h else search_loop fuel' f (h + 1) j
      else i
  end.

Definition Search (n : Z) (f : Z → bool) : Z := search_loop (Z.to_nat n) f 0 n.

(** * Lemmas *)

Lemma write_at_end data bs : write_at data (length data) bs = data ++ bs.
Proof.
  unfold write_at. rewrite take_ge by lia. rewrite Nat.sub_diag. simpl.
  rewrite drop_ge by lia. by rewrite app_nil_r.
Qed.

(** A file whose cursor is at its end, with no fault ahead: the state of a
    log or table under construction. *)
Definition appending (f : File) : Prop := f_pos f = len (f_data f) ∧ f_faults f = [].

Lemma Write_appending f bs :
  appending f →
  Write f bs = (mkFile (f_data f ++ bs) (len (f_data f ++ bs)) [], Ok tt).
Proof.
  destruct f as [d p fs]; intros [Hp Hf]; simpl in *. subst. unfold Write. simpl.
  rewrite take_ge by lia. rewrite to_nat_len, write_at_end. f_equal. f_equal. len_lia.
Qed.

Lemma Read_mid pre bs post fs n :
  n = len bs →
  Read (mkFile (pre ++ bs ++ post) (len pre) fs) n =
    (mkFile (pre ++ bs ++ post) (len pre + len bs) fs, Ok bs).
Proof.
  intros ->. unfold Read; simpl. destruct (Z.leb_spec (len bs) 0) as [H|H].
  - destruct bs as [|b bs]; [|len_lia]. by rewrite len_nil, Z.add_0_r.
  - rewrite !to_nat_len, drop_app_length, take_app_length, Nat.sub_diag.
    destruct bs as [|b bs]; [len_lia|]. simpl. by rewrite app_nil_r.
Qed.

Lemma Read_eof d p fs n :
  0 < n → len d <= p → Read (mkFile d p fs) n = (mkFile d p fs, Err ErrEOF).
Proof.
  intros Hn Hp. unfold Read; simpl. rewrite (proj2 (Z.leb_gt _ _)) by lia.
  rewrite drop_ge; [done|]. unfold len in *. lia.
Qed.

(** A successful non-empty read moves the cursor forward, inside the file. *)
Lemma Read_progress f n f' bs :
  0 < n → 0 <= f_pos f → Read f n = (f', Ok bs) →
  f_pos f < f_pos f' <= len (f_data f) ∧ f_data f' = f_data f ∧
  f_faults f' = f_faults f ∧ len bs = n.
Proof.
  intros Hn Hp. unfold Read. rewrite (proj2 (Z.leb_gt _ _)) by lia.
  destruct (drop _ _) as [|b rest] eqn:E; [done|]. intros [= <- <-]. simpl.
  apply (f_equal length) in E. rewrite length_drop in E.
  unfold zeros, len in *. rewrite !length_app, !length_replicate, !length_take.
  cbn [length] in *. repeat split; lia.
Qed.

Lemma Read_frame f n :
  f_data (fst (Read f n)) = f_data f ∧ f_faults (fst (Read f n)) = f_faults f ∧
  (0 <= f_pos f → f_pos f <= f_pos (fst (Read f n))).
Proof.
  unfold Read. destruct (n <=? 0); [done|]. destruct (drop _ _); simpl; len_pose; auto with lia.
Qed.

Lemma ReadFull_mid pre bs post fs n :
  n = len bs →
  ReadFull (mkFile (pre ++ bs ++ post) (len pre) fs) n =
    (mkFile (pre ++ bs ++ post) (len pre + len bs) fs, Ok bs).
Proof.
  intros ->. unfold ReadFull; simpl. destruct (Z.leb_spec (len bs) 0) as [H|H].
  - destruct bs as [|b bs]; [|len_lia]. by rewrite len_nil, Z.add_0_r.
  - rewrite !to_nat_len, drop_app_length, take_app_length.
    rewrite Z.ltb_irrefl. destruct bs as [|b bs]; [len_lia|]. done.
Qed.

Lemma ReadFull_eof d fs n :
  0 < n → ReadFull (mkFile d (len d) fs) n = (mkFile d (len d) fs, Err ErrEOF).
Proof.
  intros Hn. unfold ReadFull; simpl. rewrite (proj2 (Z.leb_gt _ _)) by lia.
  rewrite to_nat_len, drop_all, take_nil. by rewrite len_nil, Z.add_0_r.
Qed.

(** Fewer bytes left than asked for, but some: [io.ErrUnexpectedEOF]. *)
Lemma ReadFull_short pre rest fs n :
  rest ≠ [] → len rest < n →
  snd (ReadFull (mkFile (pre ++ rest) (len pre) fs) n) = Err ErrUnexpectedEOF.
Proof.
  intros Hr Hn. unfold ReadFull; simpl. len_pose.
  rewrite (proj2 (Z.leb_gt _ _)) by lia. rewrite to_nat_len, drop_app_length.
  rewrite take_ge by (unfold len in *; lia). rewrite (proj2 (Z.ltb_lt _ _)) by lia.
  destruct rest; [done|]. done.
Qed.

Lemma ReadFull_no_panic f n : snd (ReadFull f n) ≠ Panic.
Proof.
  unfold ReadFull. destruct (n <=? 0); [done|]. destruct (drop _ _); simpl; [done|].
  by destruct (_ <? _).
Qed.

Lemma ReadFull_progress f n f' bs :
  0 < n → 0 <= f_pos f → ReadFull f n = (f', Ok bs) →
  f_pos f' = f_pos f + n ∧ f_data f' = f_data f ∧ len bs = n ∧ f_pos f' <= len (f_data f).
Proof.
  intros Hn Hp. unfold ReadFull. rewrite (proj2 (Z.leb_gt _ _)) by lia.
  destruct (drop _ _) as [|b rest] eqn:E; [done|].
  apply (f_equal length) in E. rewrite length_drop in E.
  destruct (Z.ltb_spec (len (take (Z.to_nat n) (b :: rest))) n) as [|Hl]; [done|].
  intros [= <- <-]. simpl f_pos. simpl f_data. revert Hl.
  unfold len. rewrite length_take. intros Hl. repeat split; done || lia.
Qed.

Lemma ReadFull_frame f n :
  f_data (fst (ReadFull f n)) = f_data f ∧ f_pos f <= f_pos (fst (ReadFull f n)).
Proof. unfold ReadFull. destruct (n <=? 0); simpl; [done|]. len_pose. auto with lia. Qed.

(** [Search] returns the boundary of a monotone predicate. *)
Lemma search_loop_spec fuel f lo hi n :
  0 <= lo <= hi → hi <= n → (Z.to_nat (hi - lo) <= fuel)%nat →
  (∀ x, 0 <= x < lo → f x = false) → (∀ x, hi <= x < n → f x = true) →
  (∀ x y, 0 <= x <= y → y < n → f x = true → f y = true) →
  let r := search_loop fuel f lo hi in
  0 <= r <= n ∧ (∀ x, 0 <= x < r → f x = false) ∧ (∀ x, r <= x < n → f x = true).
Proof.
  revert lo hi. induction fuel as [|fuel IH]; intros lo hi Hlo Hhi Hfuel Hf Ht Hm; simpl.
  - assert (lo = hi) as -> by lia. auto with lia.
  - destruct (Z.ltb_spec lo hi) as [Hlt|Hge]; [|assert (lo = hi) as -> by lia; auto with lia].
    assert (lo <= (lo + hi) / 2 < hi) as Hh
      by (split; [apply Z.div_le_lower_bound|apply Z.div_lt_upper_bound]; lia).
    destruct (f ((lo + hi) / 2)) eqn:E; apply IH; try lia; try done.
    + intros x Hx. apply (Hm ((lo + hi) / 2) x); try lia. done.
    + intros x Hx. destruct (f x) eqn:Ex; [|done].
      rewrite (Hm x ((lo + hi) / 2)) in E; [done|lia|lia|done].
Qed.

Lemma Search_spec n f :
  0 <= n → (∀ x y, 0 <= x <= y → y < n → f x = true → f y = true) →
  0 <= Search n f <= n ∧
  (∀ x, 0 <= x < Search n f → f x = false) ∧ (∀ x, Search n f <= x < n → f x = true).
Proof. intros Hn Hm. apply search_loop_spec; try lia; done. Qed.

(** Without monotonicity the result is still in range and, when positive,
    lies just after an element where [f] is false. *)
Lemma search_loop_left fuel f lo hi :
  0 <= lo <= hi → (lo = 0 ∨ f (lo - 1) = false) →
  let r := search_loop fuel f lo hi in
  0 <= r <= hi ∧ (r = 0 ∨ f (r - 1) = false).
Proof.
  revert lo hi. induction fuel as [|fuel IH]; intros lo hi Hlo Hf; simpl; [split; [lia|done]|].
  destruct (Z.ltb_spec lo hi) as [Hlt|Hge]; [|split; [lia|done]].
  assert (lo <= (lo + hi) / 2 < hi) as Hh
    by (split; [apply Z.div_le_lower_bound|apply Z.div_lt_upper_bound]; lia).
  destruct (f ((lo + hi) / 2)) eqn:E.
  - destruct (IH lo ((lo + hi) / 2)) as [? ?]; [lia|done|]. split; [lia|done].
  - apply IH; [lia|]. right. by replace ((lo + hi) / 2 + 1 - 1) with ((lo + hi) / 2) by lia.
Qed.
