(* ===== verification/Arena.v ===== *)
(** * pkg/arena: the bump allocator under a MemTable

    [Arena] is one byte slice of fixed capacity; [Put] appends an encoded
    entry and returns its offset, [Get] decodes the entry at an offset.  The
    theorems give the round trip through any later writes, the exact error
    and space behaviour, and what happens to keys whose length does not fit
    the 16-bit length field. *)

From stdpp Require Import base list gmap.
From Stdlib Require Import ZArith Lia.
From S2P Require Import Prelude.

Definition typeVal : Z := 0.
Definition typeTombStone : Z := 1.

(** [a_cap] is [cap(a.data)]: the backing array never moves, because [Put]
    refuses what does not fit. *)
Record Arena := mkArena { a_data : bytes; a_cap : Z; a_offset : Z }.

(** [make([]byte, 0, size)] for the constant, positive sizes of its callers. *)
Definition NewArena (size : Z) : Arena := mkArena [] size 0.

Definition arena_Put (a : Arena) (key val : bytes) (isDelete : bool) : Arena * outcome Z :=
  let entrySize := if isDelete then 1 + 2 + 4 + len key else 1 + 2 + 4 + len key + len val in
  let header := byte_of_Z (if isDelete then typeTombStone else typeVal) in
  if a_offset a + entrySize >? a_cap a then (a, Err ErrArenaFull)
  else
    let startOffset := a_offset a in
    let lenBuff := le_put 2 (u16 (len key)) ++ le_put 4 (u32 (len val)) in
    let data := ((a_data a ++ [header]) ++ lenBuff) ++ key in
    let data := if isDelete then data else data ++ val in
    (mkArena data (a_cap a) (a_offset a + entrySize), Ok startOffset).

(** [data[i:j]] of a slice with spare capacity: Go bounds [j] by the capacity,
    and the bytes between length and capacity of the arena are still zero. *)
Definition slice_cap (l : bytes) (cap i j : Z) : outcome bytes :=
  if (0 <=? i) && (i <=? j) && (j <=? cap)
  then let got := take (Z.to_nat (j - i)) (drop (Z.to_nat i) l) in
       Ok (got ++ zeros (Z.to_nat (j - i) - length got))
  else Panic.

(** The value bytes and the tombstone flag. *)
Definition arena_Get (a : Arena) (offset : Z) : outcome (bytes * bool) :=
  if offset >=? len (a_data a) then Err ErrOffsetOutOfRange
  else
    header ← index (a_data a) offset;
    if negb (Z.land (byte_to_Z header) typeTombStone =? 0) then Ok ([], true)
    else
      let cursor := offset + 1 in
      kb ← slice_cap (a_data a) (a_cap a) cursor (cursor + 2);
      vb ← slice_cap (a_data a) (a_cap a) (cursor + 2) (cursor + 6);
      let keyLen := le_get kb in
      let valLen := le_get vb in
      let cursor := cursor + 6 in
      let cursor := cursor + keyLen in
      val ← slice_cap (a_data a) (a_cap a) cursor (cursor + valLen);
      Ok (val, false).

(** A run of [Put]s, failed ones included. *)
Definition puts (a : Arena) (ops : list (bytes * bytes * bool)) : Arena :=
  foldl (λ a '(k, v, d), fst (arena_Put a k v d)) a ops.

(** * Invariant and lemmas *)

(** The write position is the length of the data and within capacity. *)
Definition arena_wf (a : Arena) : Prop :=
  a_offset a = len (a_data a) ∧ a_offset a <= a_cap a.

(** [b] holds [a]'s bytes, possibly followed by more. *)
Definition arena_extends (a b : Arena) : Prop :=
  a_cap b = a_cap a ∧ a_data a `prefix_of` a_data b.

Definition arena_entry (key val : bytes) (isDelete : bool) : bytes :=
  [byte_of_Z (if isDelete then typeTombStone else typeVal)] ++
  le_put 2 (u16 (len key)) ++ le_put 4 (u32 (len val)) ++
  key ++ (if isDelete then [] else val).

Definition entry_size (key val : bytes) (isDelete : bool) : Z :=
  if isDelete then 1 + 2 + 4 + len key else 1 + 2 + 4 + len key + len val.

Lemma len_arena_entry k v d : len (arena_entry k v d) = entry_size k v d.
Proof. unfold arena_entry, entry_size. destruct d; len_lia. Qed.

Lemma arena_Put_eq a k v d :
  arena_Put a k v d =
    if a_offset a + entry_size k v d >? a_cap a then (a, Err ErrArenaFull)
    else (mkArena (a_data a ++ arena_entry k v d) (a_cap a) (a_offset a + entry_size k v d),
          Ok (a_offset a)).
Proof.
  unfold arena_Put, arena_entry, entry_size.
  destruct d; rewrite ?app_nil_r, <-!app_assoc; done.
Qed.

Lemma arena_new_wf size : 0 <= size → arena_wf (NewArena size).
Proof. done. Qed.

Lemma arena_Put_wf a k v d : arena_wf a → arena_wf (fst (arena_Put a k v d)).
Proof.
  intros [H1 H2]. rewrite arena_Put_eq. unfold arena_wf.
  destruct (Z.gtb_spec (a_offset a + entry_size k v d) (a_cap a)); [done|].
  simpl. rewrite len_app, len_arena_entry. lia.
Qed.

Lemma arena_Put_extends a k v d : arena_extends a (fst (arena_Put a k v d)).
Proof.
  rewrite arena_Put_eq. unfold arena_extends.
  destruct (_ >? _); simpl; [done|]. split; [done|]. by apply prefix_app_r.
Qed.

#[export] Instance arena_extends_preorder : PreOrder arena_extends.
Proof.
  split.
  - intros a. by split.
  - intros a b c [H1 H2] [H3 H4]. split; [congruence|]. by transitivity (a_data b).
Qed.

Lemma puts_wf a ops : arena_wf a → arena_wf (puts a ops).
Proof.
  revert a. unfold puts. induction ops as [|[[k v] d] ops IH]; intros a Ha; [done|].
  by apply IH, arena_Put_wf.
Qed.

Lemma puts_extends a ops : arena_extends a (puts a ops).
Proof.
  revert a. unfold puts. induction ops as [|[[k v] d] ops IH]; intros a; [done|].
  simpl. etransitivity; [apply (arena_Put_extends a k v d)|apply IH].
Qed.

Lemma slice_cap_mid pre bs post cap i j :
  i = len pre → j = len pre + len bs → len (pre ++ bs) <= cap →
  slice_cap (pre ++ bs ++ post) cap i j = Ok bs.
Proof.
  intros -> -> Hc. unfold slice_cap. rewrite len_app in Hc. len_pose.
  rewrite !(proj2 (Z.leb_le _ _)) by lia. simpl.
  replace (len pre + len bs - len pre) with (len bs) by lia.
  rewrite !to_nat_len, drop_app_length, take_app_length, Nat.sub_diag.
  by rewrite app_nil_r.
Qed.

Lemma arena_entry_split k v d rest :
  arena_entry k v d ++ rest =
    byte_of_Z (if d then 1 else 0) ::
    le_put 2 (u16 (len k)) ++ le_put 4 (u32 (len v)) ++ (k ++ (if d then [] else v)) ++ rest.
Proof. unfold arena_entry. by rewrite <-!app_assoc. Qed.

(** Decoding an entry in place: the value is read [u16 (len k)] bytes after
    the length fields, whatever the key's length. *)
Lemma arena_Get_at a k v d pre post :
  a_data a = pre ++ arena_entry k v d ++ post → len (a_data a) <= a_cap a →
  arena_Get a (len pre) =
    if d then Ok ([], true)
    else
      let c := len pre + 7 + u16 (len k) in
      val ← slice_cap (a_data a) (a_cap a) c (c + u32 (len v));
      Ok (val, false).
Proof.
  intros Hd Hcap. unfold arena_Get. rewrite Hd in *.
  pose proof (len_arena_entry k v d) as Hl. unfold entry_size in Hl.
  autorewrite with len in Hcap. len_pose.
  rewrite Z.geb_leb, (proj2 (Z.leb_gt _ _)) by (rewrite !len_app; destruct d; lia).
  rewrite arena_entry_split in *.
  assert (index (pre ++ byte_of_Z (if d then 1 else 0) ::
    le_put 2 (u16 (len k)) ++ le_put 4 (u32 (len v)) ++ (k ++ (if d then [] else v)) ++ post)
    (len pre) = Ok (byte_of_Z (if d then 1 else 0))) as ->.
  { apply index_lookup; [lia|]. rewrite to_nat_len. by apply list_lookup_middle. }
  destruct d; [done|]. cbn -[le_put u16 u32 slice_cap].
  rewrite (cons_middle _ pre), app_assoc.
  rewrite (slice_cap_mid (pre ++ [byte_of_Z 0]) (le_put 2 _) _ _
    (len pre + 1) (len pre + 1 + 2)) by len_lia.
  rewrite (app_assoc (pre ++ [byte_of_Z 0])).
  rewrite (slice_cap_mid ((pre ++ [byte_of_Z 0]) ++ le_put 2 _) (le_put 4 _) _ _
    (len pre + 1 + 2) (len pre + 1 + 6)) by len_lia.
  cbn -[le_put u16 u32 slice_cap].
  rewrite le_get_put2, le_get_put4, !uwrap_idemp.
  by replace (len pre + 1 + 6 + u16 (len k)) with (len pre + 7 + u16 (len k)) by lia.
Qed.

Lemma arena_Get_entry a k v d pre post :
  a_data a = pre ++ arena_entry k v d ++ post → len (a_data a) <= a_cap a →
  len k < 2 ^ 16 → len v < 2 ^ 32 →
  arena_Get a (len pre) = Ok (if d then ([], true) else (v, false)).
Proof.
  intros Hd Hcap Hk Hv. erewrite arena_Get_at by done. destruct d; [done|].
  len_pose. rewrite !uwrap_small by lia.
  rewrite Hd in Hcap |- *. rewrite arena_entry_split.
  rewrite (cons_middle _ pre), !app_assoc, <-(app_assoc _ v post).
  cbv zeta. rewrite slice_cap_mid; [done|len_lia..|].
  rewrite !len_app, len_arena_entry in Hcap. unfold entry_size in Hcap. len_lia.
Qed.

(** * Properties *)

(** An entry lies in the data of [a] at offset [off]. *)
Definition stored_at (a : Arena) (off : Z) (k v : bytes) (d : bool) : Prop :=
  ∃ pre post, a_data a = pre ++ arena_entry k v d ++ post ∧ off = len pre.

Lemma arena_Put_stored a k v d a' off :
  arena_wf a → arena_Put a k v d = (a', Ok off) → stored_at a' off k v d.
Proof.
  intros [H1 H2]. rewrite arena_Put_eq. destruct (_ >? _); [done|]. intros [= <- <-].
  exists (a_data a), []. simpl. by rewrite app_nil_r.
Qed.

Lemma stored_at_extends a b off k v d :
  arena_extends a b → stored_at a off k v d → stored_at b off k v d.
Proof.
  intros [_ [w Hw]] (pre & post & Hd & ->). exists pre, (post ++ w).
  by rewrite Hw, Hd, <-!app_assoc.
Qed.

Lemma arena_Get_stored a off k v d :
  arena_wf a → stored_at a off k v d → len k < 2 ^ 16 → len v < 2 ^ 32 →
  arena_Get a off = Ok (if d then ([], true) else (v, false)).
Proof.
  intros [H1 H2] (pre & post & Hd & ->). apply (arena_Get_entry a k v d pre post Hd). lia.
Qed.

(** C12. Round trip: on an arena reached from [NewArena] by any writes, once
    [Put(key, val, isDelete)] of a key below 64 KiB and a value below 4 GiB
    returned [off], [Get(off)] returns that value (or the tombstone), however
    many [Put]s follow. *)
Theorem arena_roundtrip size before k v d a off after :
  0 <= size → len k < 2 ^ 16 → len v < 2 ^ 32 →
  arena_Put (puts (NewArena size) before) k v d = (a, Ok off) →
  arena_Get (puts a after) off = Ok (if d then ([], true) else (v, false)).
Proof.
  intros Hs Hk Hv HP.
  assert (arena_wf (puts (NewArena size) before)) as Hwf by (by apply puts_wf).
  pose proof (arena_Put_wf _ k v d Hwf) as Hwf'. rewrite HP in Hwf'.
  apply arena_Get_stored with k; try done; [by apply puts_wf|].
  eapply stored_at_extends; [apply puts_extends|]. exact (arena_Put_stored _ _ _ _ _ _ Hwf HP).
Qed.

Lemma arena_roundtrip_witness :
  arena_Get (puts (fst (arena_Put (NewArena 64) [Byte.x61] [Byte.x62; Byte.x63] false))
               [([Byte.x61], [], true)]) 0 = Ok ([Byte.x62; Byte.x63], false).
Proof.
  apply (arena_roundtrip 64 [] [Byte.x61] [Byte.x62; Byte.x63] false
           (fst (arena_Put (NewArena 64) [Byte.x61] [Byte.x62; Byte.x63] false)) 0
           [([Byte.x61], [], true)]); by_compute.
Defined.

(** Space and error behaviour: the invariant that the write position is
    the length of the data and never passes the capacity holds after any
    writes, and from such a state [Put] fails, leaving the arena unchanged,
    exactly when the encoded entry (seven bytes of header, the key, and the
    value unless it is a delete) does not fit in what is left. *)
Theorem arena_put_space size before k v d :
  0 <= size →
  let a := puts (NewArena size) before in
  arena_wf a ∧ a_cap a = size ∧
  (arena_Put a k v d = (a, Err ErrArenaFull) ↔ size - len (a_data a) < entry_size k v d) ∧
  (entry_size k v d <= size - len (a_data a) →
   ∃ a', arena_Put a k v d = (a', Ok (len (a_data a))) ∧
         len (a_data a') = len (a_data a) + entry_size k v d).
Proof.
  intros Hs a. assert (arena_wf a) as [H1 H2] by (by apply puts_wf).
  destruct (puts_extends (NewArena size) before) as [Hc _]. fold a in Hc. simpl in Hc.
  repeat split; try done.
  - rewrite arena_Put_eq. destruct (Z.gtb_spec (a_offset a + entry_size k v d) (a_cap a)).
    + lia.
    + intros [= ?].
  - rewrite arena_Put_eq. rewrite Z.gtb_ltb. intros. rewrite (proj2 (Z.ltb_lt _ _)); [done|lia].
  - intros. rewrite arena_Put_eq. rewrite Z.gtb_ltb, (proj2 (Z.ltb_ge _ _)) by lia.
    eexists. split; [by rewrite H1|]. simpl. by rewrite len_app, len_arena_entry.
Qed.

Lemma arena_put_space_witness :
  arena_Put (NewArena 8) [Byte.x61] [Byte.x62] false = (NewArena 8, Err ErrArenaFull).
Proof.
  destruct (arena_put_space 8 [] [Byte.x61] [Byte.x62] false) as (_ & _ & H & _); [lia|].
  apply H. by_compute.
Defined.

(** Keys of 64 KiB and more: the 16-bit length field wraps, so [Get] does
    not return the stored value but the bytes of key and value that follow
    the first [len(key) mod 65536] bytes of the key. *)
Theorem arena_long_key_misread size before k v a off :
  0 <= size → 2 ^ 16 <= len k → len v < 2 ^ 32 →
  arena_Put (puts (NewArena size) before) k v false = (a, Ok off) →
  arena_Get a off =
    Ok (take (length v) (drop (Z.to_nat (len k mod 65536)) (k ++ v)), false).
Proof.
  intros Hs Hk Hv HP.
  assert (arena_wf (puts (NewArena size) before)) as Hwf by (by apply puts_wf).
  pose proof (arena_Put_wf _ k v false Hwf) as [H1 H2]. rewrite HP in H1, H2. simpl in H1, H2.
  destruct (arena_Put_stored _ _ _ _ _ _ Hwf HP) as (pre & post & Hd & ->).
  erewrite arena_Get_at by (done || lia).
  len_pose. rewrite (uwrap_small 32) by lia. cbv zeta.
  unfold uwrap. change (2 ^ 16) with 65536.
  pose proof (Z.mod_pos_bound (len k) 65536 ltac:(lia)) as Hm.
  set (m := len k mod 65536) in *.
  rewrite H1, Hd in H2. rewrite Hd, arena_entry_split.
  assert (pre ++ byte_of_Z 0 :: le_put 2 (u16 (len k)) ++ le_put 4 (u32 (len v)) ++ (k ++ v) ++ post
    = ((pre ++ [byte_of_Z 0]) ++ le_put 2 (u16 (len k)) ++ le_put 4 (u32 (len v)) ++
        take (Z.to_nat m) (k ++ v)) ++ take (length v) (drop (Z.to_nat m) (k ++ v))
      ++ drop (length v) (drop (Z.to_nat m) (k ++ v)) ++ post) as ->.
  { rewrite (app_assoc (take (length v) _)), take_drop, <-!app_assoc.
    rewrite (app_assoc (take (Z.to_nat m) _)), take_drop. by rewrite <-!app_assoc. }
  rewrite slice_cap_mid; [done|len_lia..|].
  rewrite !len_app, len_arena_entry in H2. unfold entry_size in H2. len_lia.
Qed.

Definition long_key : bytes := zeros (Z.to_nat 65536).

Lemma arena_long_key_misread_witness :
  arena_Get (fst (arena_Put (NewArena 70000) long_key [Byte.x62] false)) 0 =
    Ok ([Byte.x00], false).
Proof.
  rewrite (arena_long_key_misread 70000 [] long_key [Byte.x62]
             (fst (arena_Put (NewArena 70000) long_key [Byte.x62] false)) 0); by_compute.
Defined.
