(* ===== verification/Bloom.v ===== *)
(** * pkg/bloom: the Bloom filter of an SSTable

    The 64-bit hash is [github.com/spaolacci/murmur3], which is not part of
    the repository: it is the parameter [Sum64] of every operation.  No law of
    the hash is needed.  The theorems characterise [MaybeContains] exactly,
    and derive from it that a key which was added is never denied, also after
    the round trip through a file ([Bytes] / [Load]). *)

From stdpp Require Import base list gmap list_numbers.
From Stdlib Require Import ZArith Lia.
From S2P Require Import Prelude.

Record BloomFilter := mkBloom { bitset : bytes; bf_k : Z; bf_m : Z }.

(** [New(n)]: ten bits per key, rounded up to whole bytes. *)
Definition bloom_New (n : Z) : BloomFilter :=
  let n := if n <? 1 then 1 else n in
  let neededBits := u64 (n * 10) in
  let bytesNeeded := u64 (neededBits + 7) / 8 in
  let m := u64 (bytesNeeded * 8) in
  mkBloom (zeros (Z.to_nat bytesNeeded)) 7 m.

(** [bf.bitset[byteIndex] |= 1 << bitIndex] *)
Definition set_bit (bs : bytes) (byteIndex bitIndex : Z) : outcome bytes :=
  b ← index bs byteIndex;
  Ok (<[Z.to_nat byteIndex :=
         byte_of_Z (Z.lor (byte_to_Z b) (u8 (Z.shiftl 1 bitIndex)))]> bs).

(** [bf.bitset[byteIndex] & (1 << bitIndex)] is non-zero. *)
Definition test_bit (bs : bytes) (byteIndex bitIndex : Z) : outcome bool :=
  b ← index bs byteIndex;
  Ok (negb (Z.land (byte_to_Z b) (u8 (Z.shiftl 1 bitIndex)) =? 0)).

(** [uint(combinedHash) % bf.m]: division by zero panics. *)
Definition go_mod (a m : Z) : outcome Z := if m =? 0 then Panic else Ok (a mod m).

Section bloom.
Variable Sum64 : bytes → Z.

Definition hash1 (key : bytes) : Z := u32 (Sum64 key).
Definition hash2 (key : bytes) : Z := u32 (Z.shiftr (Sum64 key) 32).

Definition combinedHash (key : bytes) (i : Z) : Z :=
  u32 (hash1 key + u32 (u32 i * hash2 key)).

(** The loop [for i := uint(0); i < bf.k; i++] with [n] rounds left. *)
Fixpoint add_loop (bf : BloomFilter) (key : bytes) (n : nat) (i : Z) : outcome BloomFilter :=
  match n with
  | O => Ok bf
  | S n' =>
      bitPos ← go_mod (combinedHash key i) (bf_m bf);
      bs ← set_bit (bitset bf) (bitPos / 8) (bitPos mod 8);
      add_loop (mkBloom bs (bf_k bf) (bf_m bf)) key n' (i + 1)
  end.

Definition bloom_Add (bf : BloomFilter) (key : bytes) : outcome BloomFilter :=
  add_loop bf key (Z.to_nat (bf_k bf)) 0.

Fixpoint contains_loop (bf : BloomFilter) (key : bytes) (n : nat) (i : Z) : outcome bool :=
  match n with
  | O => Ok true
  | S n' =>
      bitPos ← go_mod (combinedHash key i) (bf_m bf);
      hit ← test_bit (bitset bf) (bitPos / 8) (bitPos mod 8);
      if negb hit then Ok false else contains_loop bf key n' (i + 1)
  end.

Definition MaybeContains (bf : BloomFilter) (key : bytes) : outcome bool :=
  contains_loop bf key (Z.to_nat (bf_k bf)) 0.

Definition bloom_Bytes (bf : BloomFilter) : bytes := bitset bf.

Definition bloom_Load (data : bytes) : BloomFilter := mkBloom data 7 (u64 (len data * 8)).

(** Adding a list of keys, in order. *)
Fixpoint bloom_adds (bf : BloomFilter) (keys : list bytes) : outcome BloomFilter :=
  match keys with
  | [] => Ok bf
  | k :: ks => bf' ← bloom_Add bf k; bloom_adds bf' ks
  end.

(** * Invariant and lemmas *)

(** What [New] establishes and [Load] recovers: [m] is eight times the number
    of bytes, and there is at least one byte. *)
Definition bloom_wf (bf : BloomFilter) : Prop :=
  bf_m bf = 8 * len (bitset bf) ∧ bf_k bf = 7 ∧ 0 < bf_m bf < 2 ^ 64.

(** The bit at an absolute position. *)
Definition bit_at (bs : bytes) (p : Z) : bool :=
  match bs !! Z.to_nat (p / 8) with
  | Some b => Z.testbit (byte_to_Z b) (p mod 8)
  | None => false
  end.

(** The positions a key probes in a filter of [m] bits. *)
Definition probe (m : Z) (key : bytes) (i : Z) : Z := combinedHash key i mod m.
Definition probes (m : Z) (key : bytes) : list Z := probe m key <$> seqZ 0 7.

Lemma bit_mask i : 0 <= i < 8 → u8 (Z.shiftl 1 i) = 2 ^ i.
Proof.
  intros Hi. rewrite Z.shiftl_1_l. apply uwrap_small. split; [lia|].
  apply Z.pow_lt_mono_r; lia.
Qed.

Lemma byte_lor b i :
  0 <= i < 8 → byte_to_Z (byte_of_Z (Z.lor (byte_to_Z b) (2 ^ i))) = Z.lor (byte_to_Z b) (2 ^ i).
Proof.
  intros Hi. rewrite byte_to_of_Z. apply Z.mod_small.
  pose proof (byte_to_Z_range b) as Hb. split; [apply Z.lor_nonneg; lia|].
  change 256 with (2 ^ 8). destruct (Z.eq_dec (Z.lor (byte_to_Z b) (2 ^ i)) 0) as [->|Hn]; [lia|].
  assert (0 <= Z.lor (byte_to_Z b) (2 ^ i)) by (apply Z.lor_nonneg; lia).
  apply Z.log2_lt_pow2; [lia|]. rewrite Z.log2_lor by lia.
  rewrite Z.log2_pow2 by lia. apply Z.max_lub_lt; [|lia].
  destruct (Z.eq_dec (byte_to_Z b) 0) as [->|]; [done|]. apply Z.log2_lt_pow2; lia.
Qed.

Lemma land_pow2_testbit a i : 0 <= i → negb (Z.land a (2 ^ i) =? 0) = Z.testbit a i.
Proof.
  intros Hi. destruct (Z.testbit a i) eqn:E.
  - apply negb_true_iff, Z.eqb_neq. intros H.
    apply (f_equal (λ z, Z.testbit z i)) in H.
    rewrite Z.land_spec, E, Z.pow2_bits_true, Z.bits_0 in H; done.
  - apply negb_false_iff, Z.eqb_eq, Z.bits_inj_iff'. intros n Hn.
    rewrite Z.land_spec, Z.bits_0, Z.pow2_bits_eqb by done.
    destruct (Z.eqb_spec i n); [subst; by rewrite E|by rewrite andb_false_r].
Qed.

Lemma bit_pos_index {A} (l : list A) p :
  0 <= p < 8 * len l → is_Some (l !! Z.to_nat (p / 8)).
Proof.
  intros Hp. apply lookup_lt_is_Some.
  assert (0 <= p / 8 < len l) by (split; [apply Z.div_pos|apply Z.div_lt_upper_bound]; lia).
  unfold len in *. lia.
Qed.

Lemma set_bit_spec bs p :
  0 <= p < 8 * len bs →
  ∃ bs', set_bit bs (p / 8) (p mod 8) = Ok bs' ∧ length bs' = length bs ∧
         ∀ q, 0 <= q → bit_at bs' q = (q =? p) || bit_at bs q.
Proof.
  intros Hp. destruct (bit_pos_index bs p Hp) as [b Hb].
  assert (0 <= p / 8) by (apply Z.div_pos; lia).
  pose proof (Z.mod_pos_bound p 8 ltac:(lia)) as Hm.
  unfold set_bit. rewrite (proj2 (index_lookup bs (p / 8) b ltac:(lia)) Hb). cbn -[u8].
  rewrite bit_mask by lia. eexists. split; [done|]. split; [apply length_insert|].
  intros q Hq. unfold bit_at.
  assert (0 <= q / 8) by (apply Z.div_pos; lia).
  pose proof (Z.mod_pos_bound q 8 ltac:(lia)) as Hmq.
  destruct (decide (q / 8 = p / 8)) as [Heq|Hne].
  - rewrite Heq, list_lookup_insert_eq by (by eapply lookup_lt_Some). rewrite Hb, byte_lor by lia.
    rewrite Z.lor_spec, Z.pow2_bits_eqb by lia.
    rewrite orb_comm. f_equal.
    pose proof (Z.div_mod q 8 ltac:(lia)). pose proof (Z.div_mod p 8 ltac:(lia)).
    destruct (Z.eqb_spec (p mod 8) (q mod 8)), (Z.eqb_spec q p); subst; done || lia.
  - rewrite list_lookup_insert_ne by lia.
    destruct (Z.eqb_spec q p) as [->|]; [done|]. done.
Qed.

Lemma test_bit_spec bs p :
  0 <= p < 8 * len bs → test_bit bs (p / 8) (p mod 8) = Ok (bit_at bs p).
Proof.
  intros Hp. destruct (bit_pos_index bs p Hp) as [b Hb].
  assert (0 <= p / 8) by (apply Z.div_pos; lia).
  pose proof (Z.mod_pos_bound p 8 ltac:(lia)) as Hm.
  unfold test_bit, bit_at. rewrite (proj2 (index_lookup bs (p / 8) b ltac:(lia)) Hb), Hb.
  cbn -[u8]. rewrite bit_mask by lia. f_equal. apply land_pow2_testbit. lia.
Qed.

Lemma probe_range bf key i : bloom_wf bf → 0 <= probe (bf_m bf) key i < 8 * len (bitset bf).
Proof. intros (H1 & H2 & H3). rewrite <-H1. apply Z.mod_pos_bound. lia. Qed.

Lemma go_mod_probe bf key i :
  bloom_wf bf → go_mod (combinedHash key i) (bf_m bf) = Ok (probe (bf_m bf) key i).
Proof.
  intros (H1 & H2 & H3). unfold go_mod. destruct (Z.eqb_spec (bf_m bf) 0); [lia|done].
Qed.

Lemma add_loop_spec bf key n i :
  bloom_wf bf →
  ∃ bf', add_loop bf key n i = Ok bf' ∧ bloom_wf bf' ∧ bf_m bf' = bf_m bf ∧
    ∀ q, 0 <= q → bit_at (bitset bf') q = true ↔
      bit_at (bitset bf) q = true ∨ ∃ j, i <= j < i + Z.of_nat n ∧ q = probe (bf_m bf) key j.
Proof.
  revert bf i. induction n as [|n IH]; intros bf i Hwf; cbn [add_loop].
  - exists bf. repeat split; try apply Hwf; [naive_solver|]. intros [?|(j & ? & ?)]; [done|lia].
  - rewrite go_mod_probe by done. cbn -[set_bit add_loop].
    destruct (set_bit_spec _ _ (probe_range bf key i Hwf)) as (bs & -> & Hlen & Hbits).
    cbn -[add_loop]. destruct Hwf as (H1 & H2 & H3).
    destruct (IH (mkBloom bs (bf_k bf) (bf_m bf)) (i + 1)) as (bf' & -> & Hwf' & Hm' & Hq);
      [repeat split; simpl; try lia; unfold len in *; lia|].
    exists bf'. split; [done|]. split; [done|]. split; [done|].
    intros q Hq0. rewrite (Hq q Hq0). simpl. rewrite (Hbits q Hq0), orb_true_iff, Z.eqb_eq.
    split.
    + intros [[->|?]|(j & Hj & ->)]; [right; exists i; split; [lia|done]|by left|].
      right. exists j. split; [lia|done].
    + intros [?|(j & Hj & ->)]; [by left; right|]. destruct (decide (j = i)) as [->|].
      * by left; left.
      * right. exists j. split; [lia|done].
Qed.

Lemma elem_of_probes m key q :
  q ∈ probes m key ↔ ∃ j, 0 <= j < 7 ∧ q = probe m key j.
Proof.
  unfold probes. rewrite list_elem_of_fmap. split.
  - intros (j & -> & Hj%elem_of_seqZ). exists j. split; [lia|done].
  - intros (j & Hj & ->). exists j. split; [done|]. apply elem_of_seqZ. lia.
Qed.

Lemma bloom_Add_spec bf key :
  bloom_wf bf →
  ∃ bf', bloom_Add bf key = Ok bf' ∧ bloom_wf bf' ∧ bf_m bf' = bf_m bf ∧
    ∀ q, 0 <= q → bit_at (bitset bf') q = true ↔
      bit_at (bitset bf) q = true ∨ q ∈ probes (bf_m bf) key.
Proof.
  intros Hwf. unfold bloom_Add. pose proof Hwf as (_ & -> & _).
  destruct (add_loop_spec bf key (Z.to_nat 7) 0 Hwf) as (bf' & E & Hwf' & Hm & Hq).
  exists bf'. repeat split; try done; try apply Hwf'.
  - intros [?|(j & ? & ?)]%Hq; [by left|right; apply elem_of_probes; exists j; lia|done].
  - intros H'. apply Hq; [done|]. destruct H' as [?|(j & ? & ->)%elem_of_probes]; [by left|].
    right. exists j. split; [lia|done].
Qed.

Lemma contains_loop_spec bf key n i :
  bloom_wf bf →
  ∃ b, contains_loop bf key n i = Ok b ∧
    (b = true ↔ ∀ j, i <= j < i + Z.of_nat n → bit_at (bitset bf) (probe (bf_m bf) key j) = true).
Proof.
  intros Hwf. revert i. induction n as [|n IH]; intros i; cbn [contains_loop].
  - exists true. split; [done|]. split; [intros _ j ?; lia|done].
  - rewrite go_mod_probe by done. cbn -[test_bit contains_loop].
    rewrite test_bit_spec by (by apply probe_range). cbn -[contains_loop].
    destruct (bit_at (bitset bf) (probe (bf_m bf) key i)) eqn:E; simpl.
    + destruct (IH (i + 1)) as (b & -> & Hb). exists b. split; [done|]. rewrite Hb. split.
      * intros H j Hj. destruct (decide (j = i)) as [->|]; [done|]. apply H. lia.
      * intros H j Hj. apply H. lia.
    + exists false. split; [done|]. split; [done|]. intros H. rewrite H in E; [done|lia].
Qed.

Lemma MaybeContains_spec bf key :
  bloom_wf bf →
  ∃ b, MaybeContains bf key = Ok b ∧
    (b = true ↔ Forall (λ q, bit_at (bitset bf) q = true) (probes (bf_m bf) key)).
Proof.
  intros Hwf. unfold MaybeContains. pose proof Hwf as (_ & -> & _).
  destruct (contains_loop_spec bf key (Z.to_nat 7) 0 Hwf) as (b & E & Hb).
  exists b. split; [done|]. rewrite Hb, Forall_forall. split.
  - intros H q (j & Hj & ->)%elem_of_probes. apply H. lia.
  - intros H j Hj. apply H, elem_of_probes. exists j. split; [lia|done].
Qed.

Lemma bloom_adds_spec bf keys :
  bloom_wf bf →
  ∃ bf', bloom_adds bf keys = Ok bf' ∧ bloom_wf bf' ∧ bf_m bf' = bf_m bf ∧
    ∀ q, 0 <= q → bit_at (bitset bf') q = true ↔
      bit_at (bitset bf) q = true ∨ ∃ k, k ∈ keys ∧ q ∈ probes (bf_m bf) k.
Proof.
  revert bf. induction keys as [|k ks IH]; intros bf Hwf; cbn [bloom_adds].
  - exists bf. repeat split; try apply Hwf; [by left|]. intros [?|(k & Hk & _)]; [done|].
    by apply not_elem_of_nil in Hk.
  - destruct (bloom_Add_spec bf k Hwf) as (bf1 & -> & Hwf1 & Hm1 & Hq1). cbn -[bloom_adds].
    destruct (IH bf1 Hwf1) as (bf2 & -> & Hwf2 & Hm2 & Hq2).
    exists bf2. split; [done|]. split; [done|]. split; [congruence|].
    intros q Hq. rewrite (Hq2 q Hq), (Hq1 q Hq), Hm1.
    setoid_rewrite elem_of_cons. split.
    + intros [[?|?]|(k' & ? & ?)]; eauto.
    + intros [?|(k' & [->|?] & ?)]; eauto.
Qed.

Lemma bloom_New_wf n : n < 2 ^ 60 → bloom_wf (bloom_New n).
Proof.
  intros Hn. unfold bloom_New.
  set (n' := if n <? 1 then 1 else n).
  assert (1 <= n' < 2 ^ 60) as Hn' by (unfold n'; destruct (Z.ltb_spec n 1); lia).
  rewrite (uwrap_small 64 (n' * 10)), (uwrap_small 64 (n' * 10 + 7)) by lia.
  assert (1 <= (n' * 10 + 7) / 8 < 2 ^ 61) as Hb
    by (split; [apply Z.div_le_lower_bound|apply Z.div_lt_upper_bound]; lia).
  rewrite uwrap_small by lia. unfold bloom_wf. simpl. rewrite len_zeros. lia.
Qed.

Lemma bloom_New_bits n q : bit_at (bitset (bloom_New n)) q = false.
Proof.
  unfold bloom_New, bit_at; simpl. unfold zeros.
  destruct (replicate _ _ !! _) as [b|] eqn:E; [|done].
  apply lookup_replicate in E as [-> _]. apply Z.testbit_0_l.
Qed.

Lemma bloom_Load_Bytes bf : bloom_wf bf → bloom_Load (bloom_Bytes bf) = bf.
Proof.
  destruct bf as [bs k m]. intros (H1 & H2 & H3); simpl in *. unfold bloom_Load, bloom_Bytes. simpl.
  rewrite uwrap_small by lia. f_equal; lia.
Qed.

(** * Properties *)

(** What a table builder and a table reader rely on: [filter_holds bf ks] says
    that [bf] is a filter the keys [ks] were added to. *)
Class KeyFilter := {
  filter_holds : BloomFilter → list bytes → Prop;
  filter_new n : n < 2 ^ 60 → filter_holds (bloom_New n) [];
  filter_add bf ks k : filter_holds bf ks →
    ∃ bf', bloom_Add bf k = Ok bf' ∧ filter_holds bf' (ks ++ [k]);
  filter_load bf ks : filter_holds bf ks → bloom_Load (bloom_Bytes bf) = bf;
  filter_size bf ks : filter_holds bf ks → 0 < len (bloom_Bytes bf) < 2 ^ 61;
  filter_total bf ks k : filter_holds bf ks → ∃ b, MaybeContains bf k = Ok b;
  filter_member bf ks k : filter_holds bf ks → k ∈ ks → MaybeContains bf k = Ok true
}.

(** The filter of the package satisfies it: every probe of an added key is set. *)
#[local] Program Instance bloom_KeyFilter : KeyFilter := {
  filter_holds bf ks := bloom_wf bf ∧
    ∀ k q, k ∈ ks → q ∈ probes (bf_m bf) k → bit_at (bitset bf) q = true
}.
Next Obligation.
  intros n Hn. split; [by apply bloom_New_wf|]. by intros k q ?%not_elem_of_nil.
Qed.
Next Obligation.
  intros bf ks k [Hwf Hks]. destruct (bloom_Add_spec bf k Hwf) as (bf' & -> & Hwf' & Hm & Hq).
  exists bf'. split; [done|]. split; [done|]. rewrite Hm. intros k' q Hk' Hp.
  assert (0 <= q) as Hq0.
  { apply elem_of_probes in Hp as (j & _ & ->). by apply (probe_range bf). }
  apply Hq; [done|]. apply elem_of_app in Hk' as [?| ->%list_elem_of_singleton]; eauto.
Qed.
Next Obligation. intros bf ks [Hwf _]. by apply bloom_Load_Bytes. Qed.
Next Obligation. intros bf ks [(? & ? & ?) _]. unfold bloom_Bytes. lia. Qed.
Next Obligation.
  intros bf ks k [Hwf _]. destruct (MaybeContains_spec bf k Hwf) as (b & ? & _). by exists b.
Qed.
Next Obligation.
  intros bf ks k [Hwf Hks] Hk. destruct (MaybeContains_spec bf k Hwf) as (b & -> & Hb).
  f_equal. apply Hb, Forall_forall. intros q. by apply Hks.
Qed.

(** C20. No false negatives: after any keys were added to [New(n)], writing the
    filter out with [Bytes()] and reading it back with [Load] gives a filter
    that answers [true] for every one of them. *)
Theorem bloom_no_false_negative n keys k :
  n < 2 ^ 60 → k ∈ keys →
  ∃ bf, bloom_adds (bloom_New n) keys = Ok bf ∧
        MaybeContains (bloom_Load (bloom_Bytes bf)) k = Ok true.
Proof.
  intros Hn Hk. pose proof (bloom_New_wf n Hn) as Hwf.
  destruct (bloom_adds_spec _ keys Hwf) as (bf & -> & Hwf' & Hm & Hq).
  exists bf. split; [done|]. rewrite bloom_Load_Bytes by done.
  destruct (MaybeContains_spec bf k Hwf') as (b & -> & Hb). f_equal.
  apply Hb, Forall_forall. rewrite Hm. intros q Hp. apply Hq; [|eauto].
  apply elem_of_probes in Hp as (j & _ & ->). by apply (probe_range (bloom_New n)).
Qed.

(** C21. Exact answer: [MaybeContains(key)] is [true] exactly when each of the
    seven positions the key probes is a position some added key probes; in
    particular a filter no key was added to answers [false]. *)
Theorem bloom_exact n keys key :
  n < 2 ^ 60 →
  ∃ bf b, bloom_adds (bloom_New n) keys = Ok bf ∧
    MaybeContains (bloom_Load (bloom_Bytes bf)) key = Ok b ∧
    (b = true ↔ ∀ q, q ∈ probes (bf_m bf) key → ∃ k, k ∈ keys ∧ q ∈ probes (bf_m bf) k).
Proof.
  intros Hn. pose proof (bloom_New_wf n Hn) as Hwf.
  destruct (bloom_adds_spec _ keys Hwf) as (bf & -> & Hwf' & Hm & Hq).
  destruct (MaybeContains_spec bf key Hwf') as (b & Hb1 & Hb2).
  exists bf, b. rewrite bloom_Load_Bytes by done. split; [done|]. split; [done|].
  rewrite Hb2, Forall_forall, Hm. apply forall_proper. intros q.
  split; intros H Hp; specialize (H Hp).
  all: assert (0 <= q) as Hq0
    by (apply elem_of_probes in Hp as (j & _ & ->); by apply (probe_range (bloom_New n))).
  - apply Hq in H as [H|H]; [by rewrite bloom_New_bits in H|done|done].
  - apply Hq; [done|]. by right.
Qed.
End bloom.

#[export] Existing Instance bloom_KeyFilter.

(** A concrete hash for the evaluated examples: the little-endian value of
    the key. *)
Definition demo_hash (key : bytes) : Z := u64 (le_get key * 2654435761).

Lemma bloom_no_false_negative_witness :
  ∃ bf, bloom_adds demo_hash (bloom_New 2) [[Byte.x61]; [Byte.x62]] = Ok bf ∧
        MaybeContains demo_hash (bloom_Load (bloom_Bytes bf)) [Byte.x62] = Ok true.
Proof.
  apply (bloom_no_false_negative demo_hash 2 [[Byte.x61]; [Byte.x62]] [Byte.x62]);
    [lia|]. apply (bool_decide_unpack _). vm_compute. exact I.
Defined.

Lemma bloom_exact_witness :
  ∃ bf b, bloom_adds demo_hash (bloom_New 2) [[Byte.x61]] = Ok bf ∧
    MaybeContains demo_hash (bloom_Load (bloom_Bytes bf)) [Byte.x62] = Ok b ∧
    (b = true ↔ ∀ q, q ∈ probes demo_hash (bf_m bf) [Byte.x62] →
       ∃ k, k ∈ [[Byte.x61]] ∧ q ∈ probes demo_hash (bf_m bf) k).
Proof. apply (bloom_exact demo_hash 2 [[Byte.x61]] [Byte.x62]). lia. Defined.

(** Evaluated: a key that was not added is denied here. *)
Example bloom_denies :
  (bf ← bloom_adds demo_hash (bloom_New 2) [[Byte.x61]];
   MaybeContains demo_hash bf [Byte.x62]) = Ok false.
Proof. reflexivity. Qed.
