(* ===== verification/Crc32.v ===== *)
(** * hash/crc32: the IEEE checksum of Go's library, as the WAL uses it

    The reflected CRC-32 (polynomial 0xEDB88320), computed bit by bit: the
    function the library's table-driven code computes.  The register update is
    injective, so a change of one byte always changes the checksum. *)

From stdpp Require Import base list.
From Stdlib Require Import ZArith Lia.
From S2P Require Import Prelude.

Definition IEEE : Z := 0xEDB88320.
Definition mask32 : Z := 0xFFFFFFFF.

Definition crc_bit (c : Z) : Z :=
  if Z.testbit c 0 then Z.lxor (Z.shiftr c 1) IEEE else Z.shiftr c 1.

Definition crc_byte (c : Z) (b : byte) : Z :=
  Nat.iter 8 crc_bit (Z.lxor c (byte_to_Z b)).

(** [crc32.Update(crc, IEEETable, p)], what [digest.Write(p)] does to the digest. *)
Definition crc_update (crc : Z) (p : bytes) : Z :=
  Z.lxor (foldl crc_byte (Z.lxor crc mask32) p) mask32.

Definition ChecksumIEEE (p : bytes) : Z := crc_update 0 p.

(** The check value of the standard: CRC-32 of the digits 123456789. *)
Example crc_check :
  ChecksumIEEE [Byte.x31; Byte.x32; Byte.x33; Byte.x34; Byte.x35; Byte.x36; Byte.x37; Byte.x38; Byte.x39]
  = 0xCBF43926.
Proof. reflexivity. Qed.

(** * Lemmas *)

Lemma testbit_high z n i : 0 <= z < 2 ^ n → n <= i → Z.testbit z i = false.
Proof.
  intros Hz Hi. destruct (decide (0 <= n)).
  - rewrite <-(Z.mod_small z (2 ^ n)) by done. by apply Z.mod_pow2_bits_high.
  - rewrite Z.pow_neg_r in Hz by lia. lia.
Qed.

Lemma range_testbit z n : 0 <= n → 0 <= z → (∀ i, n <= i → Z.testbit z i = false) → z < 2 ^ n.
Proof.
  intros Hn Hz Hi. destruct (decide (z = 0)) as [->|]; [lia|].
  apply Z.log2_lt_pow2; [lia|]. destruct (decide (Z.log2 z < n)) as [|Hl]; [done|].
  pose proof (Z.bit_log2 z ltac:(lia)) as Hb. rewrite Hi in Hb; [done|lia].
Qed.

Lemma lxor_range a b n :
  0 <= n → 0 <= a < 2 ^ n → 0 <= b < 2 ^ n → 0 <= Z.lxor a b < 2 ^ n.
Proof.
  intros Hn Ha Hb. assert (0 <= Z.lxor a b) by (apply Z.lxor_nonneg; lia).
  split; [done|]. apply range_testbit; [done..|]. intros i Hi.
  by rewrite Z.lxor_spec, !(testbit_high _ n).
Qed.

Lemma lxor_inj_r a b c : Z.lxor a c = Z.lxor b c → a = b.
Proof.
  intros H. apply (f_equal (λ z, Z.lxor z c)) in H.
  by rewrite !Z.lxor_assoc, !Z.lxor_nilpotent, !Z.lxor_0_r in H.
Qed.

Lemma lxor_inj_l a b c : Z.lxor c a = Z.lxor c b → a = b.
Proof. rewrite !(Z.lxor_comm c). apply lxor_inj_r. Qed.

Lemma shiftr1_range c : 0 <= c < 2 ^ 32 → 0 <= Z.shiftr c 1 < 2 ^ 31.
Proof.
  intros Hc. rewrite Z.shiftr_div_pow2 by lia. change (2 ^ 1) with 2.
  split; [apply Z.div_pos|apply Z.div_lt_upper_bound]; lia.
Qed.

Lemma crc_bit_range c : 0 <= c < 2 ^ 32 → 0 <= crc_bit c < 2 ^ 32.
Proof.
  intros Hc. pose proof (shiftr1_range c Hc). unfold crc_bit.
  destruct (Z.testbit c 0); [|lia]. apply lxor_range; unfold IEEE; lia.
Qed.

Lemma crc_bit_top c : 0 <= c < 2 ^ 32 → Z.testbit (crc_bit c) 31 = Z.testbit c 0.
Proof.
  intros Hc. pose proof (shiftr1_range c Hc) as Hs. unfold crc_bit.
  destruct (Z.testbit c 0) eqn:E.
  - rewrite Z.lxor_spec, (testbit_high _ 31) by lia. done.
  - apply (testbit_high _ 31); lia.
Qed.

Lemma crc_bit_inj c d :
  0 <= c < 2 ^ 32 → 0 <= d < 2 ^ 32 → crc_bit c = crc_bit d → c = d.
Proof.
  intros Hc Hd H.
  assert (Z.testbit c 0 = Z.testbit d 0) as H0 by (by rewrite <-!crc_bit_top, H).
  assert (Z.shiftr c 1 = Z.shiftr d 1) as H1.
  { revert H. unfold crc_bit. rewrite H0. destruct (Z.testbit d 0); [apply lxor_inj_r|done]. }
  apply Z.bits_inj_iff'. intros i Hi. destruct (decide (i = 0)) as [->|]; [done|].
  apply (f_equal (λ z, Z.testbit z (i - 1))) in H1. rewrite !Z.shiftr_spec in H1 by lia.
  by replace (i - 1 + 1) with i in H1 by lia.
Qed.

Lemma crc_iter_range n c : 0 <= c < 2 ^ 32 → 0 <= Nat.iter n crc_bit c < 2 ^ 32.
Proof. intros Hc. induction n; [done|]. by apply crc_bit_range. Qed.

Lemma crc_iter_inj n c d :
  0 <= c < 2 ^ 32 → 0 <= d < 2 ^ 32 → Nat.iter n crc_bit c = Nat.iter n crc_bit d → c = d.
Proof.
  intros Hc Hd. induction n as [|n IH]; [done|].
  intros H. apply IH, crc_bit_inj; auto using crc_iter_range.
Qed.

Lemma crc_in_range c b : 0 <= c < 2 ^ 32 → 0 <= Z.lxor c (byte_to_Z b) < 2 ^ 32.
Proof. intros. pose proof (byte_to_Z_range b). apply lxor_range; lia. Qed.

Lemma crc_byte_range c b : 0 <= c < 2 ^ 32 → 0 <= crc_byte c b < 2 ^ 32.
Proof. intros. by apply crc_iter_range, crc_in_range. Qed.

Lemma crc_fold_range c p : 0 <= c < 2 ^ 32 → 0 <= foldl crc_byte c p < 2 ^ 32.
Proof. revert c. induction p as [|b p IH]; intros c Hc; [done|]. by apply IH, crc_byte_range. Qed.

Lemma crc_fold_inj c d p :
  0 <= c < 2 ^ 32 → 0 <= d < 2 ^ 32 → foldl crc_byte c p = foldl crc_byte d p → c = d.
Proof.
  revert c d. induction p as [|b p IH]; intros c d Hc Hd; [done|].
  intros H. apply IH in H; auto using crc_byte_range.
  apply crc_iter_inj in H; auto using crc_in_range. by apply lxor_inj_r in H.
Qed.

Lemma crc_update_range c p : 0 <= c < 2 ^ 32 → 0 <= crc_update c p < 2 ^ 32.
Proof.
  intros. unfold crc_update. apply lxor_range; [lia| |unfold mask32; lia].
  apply crc_fold_range, lxor_range; unfold mask32; lia.
Qed.

Lemma ChecksumIEEE_range p : 0 <= ChecksumIEEE p < 2 ^ 32.
Proof. apply crc_update_range. lia. Qed.

(** Feeding a digest in pieces is feeding it the concatenation. *)
Lemma crc_update_app c p q : crc_update (crc_update c p) q = crc_update c (p ++ q).
Proof.
  unfold crc_update. by rewrite Z.lxor_assoc, Z.lxor_nilpotent, Z.lxor_0_r, foldl_app.
Qed.

(** Changing exactly one byte changes the checksum. *)
Lemma checksum_detects_byte p x y q :
  x ≠ y → ChecksumIEEE (p ++ x :: q) ≠ ChecksumIEEE (p ++ y :: q).
Proof.
  intros Hxy H. apply Hxy. unfold ChecksumIEEE, crc_update in H. apply lxor_inj_r in H.
  rewrite !foldl_app in H. simpl in H.
  set (c := foldl crc_byte (Z.lxor 0 mask32) p) in H.
  assert (0 <= c < 2 ^ 32) as Hc by (apply crc_fold_range; vm_compute; split; congruence).
  apply crc_fold_inj in H; auto using crc_byte_range.
  apply crc_iter_inj in H; auto using crc_in_range.
  by apply lxor_inj_l, byte_to_Z_inj in H.
Qed.
