(* ===== verification/Wal.v ===== *)
(** * pkg/wal: the write-ahead log of a MemTable

    [Write] appends one checksummed record, [Recover] reads the file from the
    start and returns its entries or the first error.  The theorems give the
    round trip of any sequence of writes, that a change of one payload byte is
    always reported, that a torn last record makes recovery fail, and that
    recovery terminates on every file. *)

From stdpp Require Import base list.
From Stdlib Require Import ZArith Lia.
From S2P Require Import Prelude GoFile Crc32.

Definition CmdPut : byte := Byte.x01.
Definition CmdDelete : byte := Byte.x02.

Definition headerSize : Z := 29.

Record Entry := mkEntry {
  e_CRC : Z;
  e_LSN : Z;
  e_TimeStamp : Z;
  e_Cmd : byte;
  e_Key : bytes;
  e_Value : bytes
}.

Record WAL := mkWAL { w_file : File; w_currentLSN : Z }.

(** [OpenWAL] on a file with contents [data]: the cursor starts at 0, the LSN
    at the size. *)
Definition OpenWAL (data : bytes) (faults : list (option nat)) : WAL :=
  mkWAL (open_at_start data faults) (u64 (len data)).

(** [buf[4:]] of a record: LSN, time stamp, command, sizes, key, value. *)
Definition record_body (lsn ts : Z) (cmd : byte) (key val : bytes) : bytes :=
  le_put 8 lsn ++ le_put 8 ts ++ [cmd] ++
  le_put 4 (u32 (len key)) ++ le_put 4 (u32 (len val)) ++ key ++ val.

(** [now] is [time.Now().UnixNano()]. *)
Definition wal_Write (w : WAL) (now : Z) (key val : bytes) (cmd : byte) : WAL * outcome unit :=
  let totalSize := headerSize + len key + len val in
  let timestamp := u64 now in
  let body := record_body (w_currentLSN w) timestamp cmd key val in
  let buf := le_put 4 (ChecksumIEEE body) ++ body in
  let '(f1, r1) := Write (w_file w) buf in
  match r1 with
  | Ok _ =>
      let '(f2, r2) := Sync f1 in
      match r2 with
      | Ok _ => (mkWAL f2 (u64 (w_currentLSN w + u64 totalSize)), Ok tt)
      | Err e => (mkWAL f2 (w_currentLSN w), Err e)
      | Panic => (mkWAL f2 (w_currentLSN w), Panic)
      end
  | Err e => (mkWAL f1 (w_currentLSN w), Err e)
  | Panic => (mkWAL f1 (w_currentLSN w), Panic)
  end.

(** [header[i:j]] of the 29-byte header. *)
Definition field (h : bytes) (i j : nat) : bytes := take (j - i) (drop i h).

(** The loop of [Recover]; running out of fuel would show as [Panic]. *)
Fixpoint recover_loop (fuel : nat) (w : WAL) (entries : list Entry) : WAL * outcome (list Entry) :=
  match fuel with
  | O => (w, Panic)
  | S fuel' =>
      let '(f1, h) := ReadFull (w_file w) headerSize in
      let w1 := mkWAL f1 (w_currentLSN w) in
      match h with
      | Err ErrEOF => (w1, Ok entries)
      | Err e => (w1, Err e)
      | Panic => (w1, Panic)
      | Ok header =>
          let crc := le_get (field header 0 4) in
          let lsn := le_get (field header 4 12) in
          let timestamp := le_get (field header 12 20) in
          match header !! 20%nat with
          | None => (w1, Panic)
          | Some cmd =>
              let keySize := le_get (field header 21 25) in
              let valSize := le_get (field header 25 29) in
              let '(f2, d) := ReadFull f1 (valSize + keySize) in
              let w2 := mkWAL f2 (w_currentLSN w) in
              match d with
              | Err _ => (w2, Err ErrUnexpectedEOF)
              | Panic => (w2, Panic)
              | Ok data =>
                  let digest := crc_update (crc_update 0 (drop 4 header)) data in
                  if negb (digest =? crc) then (w2, Err (ErrChecksum lsn))
                  else
                    let e := mkEntry crc lsn timestamp cmd
                               (take (Z.to_nat keySize) data) (drop (Z.to_nat keySize) data) in
                    recover_loop fuel'
                      (mkWAL f2 (u64 (lsn + headerSize + u64 keySize + u64 valSize)))
                      (entries ++ [e])
              end
          end
      end
  end.

(** [Recover()]; one round per record, so the file's length in rounds is enough. *)
Definition wal_Recover (w : WAL) : WAL * outcome (list Entry) :=
  let '(f, r) := SeekStart (w_file w) 0 in
  match r with
  | Ok _ => recover_loop (S (length (f_data f))) (mkWAL f (w_currentLSN w)) []
  | Err e => (mkWAL f (w_currentLSN w), Err e)
  | Panic => (mkWAL f (w_currentLSN w), Panic)
  end.

(** A run of writes: time, key, value, command of each. *)
Definition write_op : Type := Z * bytes * bytes * byte.

Definition wal_writes (w : WAL) (ops : list write_op) : WAL :=
  foldl (λ w '(now, k, v, c), fst (wal_Write w now k v c)) w ops.

(** * Records *)

(** The bytes [Write] appends at log offset [lsn]. *)
Definition record (lsn : Z) (op : write_op) : bytes :=
  let '(now, k, v, c) := op in
  let body := record_body lsn (u64 now) c k v in
  le_put 4 (ChecksumIEEE body) ++ body.

(** The entry [Recover] is expected to return for it. *)
Definition expected (lsn : Z) (op : write_op) : Entry :=
  let '(now, k, v, c) := op in
  mkEntry (ChecksumIEEE (record_body lsn (u64 now) c k v)) lsn (u64 now) c k v.

(** The file a run of writes produces from log offset [lsn], and the entries. *)
Fixpoint log_bytes (lsn : Z) (ops : list write_op) : bytes :=
  match ops with
  | [] => []
  | op :: ops' => record lsn op ++ log_bytes (lsn + len (record lsn op)) ops'
  end.

Fixpoint log_entries (lsn : Z) (ops : list write_op) : list Entry :=
  match ops with
  | [] => []
  | op :: ops' => expected lsn op :: log_entries (lsn + len (record lsn op)) ops'
  end.

(** Keys and values whose lengths fit the 32-bit size fields. *)
Definition op_fits (op : write_op) : Prop :=
  let '(_, k, v, _) := op in len k < 2 ^ 32 ∧ len v < 2 ^ 32.

#[global] Arguments ChecksumIEEE : simpl never.

(** * Lemmas *)

Lemma len_record lsn now k v c : len (record lsn (now, k, v, c)) = headerSize + len k + len v.
Proof. unfold record, record_body, headerSize. len_lia. Qed.

Lemma record_split lsn now k v c :
  record lsn (now, k, v, c) =
    (le_put 4 (ChecksumIEEE (record_body lsn (u64 now) c k v)) ++ le_put 8 lsn ++
     le_put 8 (u64 now) ++ [c] ++ le_put 4 (u32 (len k)) ++ le_put 4 (u32 (len v))) ++ (k ++ v).
Proof. unfold record, record_body. by rewrite <-!app_assoc. Qed.

Lemma field_mid a b c i j :
  i = length a → j = (length a + length b)%nat → field (a ++ b ++ c) i j = b.
Proof.
  intros -> ->. unfold field. rewrite drop_app_length.
  replace (_ - _)%nat with (length b) by lia. by rewrite take_app_length.
Qed.

(** The five fields of a 29-byte header. *)
Definition header_of (crc lsn ts : Z) (cmd : byte) (ks vs : Z) : bytes :=
  le_put 4 crc ++ le_put 8 lsn ++ le_put 8 ts ++ [cmd] ++ le_put 4 ks ++ le_put 4 vs.

Lemma header_fields crc lsn ts cmd ks vs :
  let h := header_of crc lsn ts cmd ks vs in
  field h 0 4 = le_put 4 crc ∧ field h 4 12 = le_put 8 lsn ∧ field h 12 20 = le_put 8 ts ∧
  h !! 20%nat = Some cmd ∧ field h 21 25 = le_put 4 ks ∧ field h 25 29 = le_put 4 vs ∧
  length h = 29%nat ∧
  drop 4 h = le_put 8 lsn ++ le_put 8 ts ++ [cmd] ++ le_put 4 ks ++ le_put 4 vs.
Proof.
  by repeat split.
Qed.

Lemma record_header lsn now k v c :
  record lsn (now, k, v, c) =
    header_of (ChecksumIEEE (record_body lsn (u64 now) c k v)) lsn (u64 now) c
              (u32 (len k)) (u32 (len v)) ++ (k ++ v).
Proof. apply record_split. Qed.

Lemma record_eq lsn now k v c :
  record lsn (now, k, v, c) =
    le_put 4 (ChecksumIEEE (record_body lsn (u64 now) c k v)) ++ record_body lsn (u64 now) c k v.
Proof. done. Qed.

#[local] Opaque record.

(** One round of recovery on a file that has a header and [data] bytes of
    payload at the cursor. *)
Lemma recover_step fuel pre crc lsn ts cmd ks vs data post cur entries :
  0 <= crc < 2 ^ 32 → 0 <= lsn < 2 ^ 64 → 0 <= ts < 2 ^ 64 →
  0 <= ks < 2 ^ 32 → 0 <= vs < 2 ^ 32 → len data = vs + ks →
  let h := header_of crc lsn ts cmd ks vs in
  let file p := mkFile (pre ++ (h ++ data) ++ post) p [] in
  recover_loop (S fuel) (mkWAL (file (len pre)) cur) entries =
    if ChecksumIEEE (drop 4 h ++ data) =? crc then
      recover_loop fuel
        (mkWAL (file (len (pre ++ h ++ data))) (u64 (lsn + headerSize + ks + vs)))
        (entries ++ [mkEntry crc lsn ts cmd (take (Z.to_nat ks) data) (drop (Z.to_nat ks) data)])
    else (mkWAL (file (len (pre ++ h ++ data))) cur, Err (ErrChecksum lsn)).
Proof.
  intros Hcrc Hlsn Hts Hks Hvs Hdata h file.
  destruct (header_fields crc lsn ts cmd ks vs) as (F1 & F2 & F3 & F4 & F5 & F6 & F7 & F8).
  fold h in F1, F2, F3, F4, F5, F6, F7, F8.
  assert (len h = 29) as Hh by (unfold len; lia).
  cbn [recover_loop w_file w_currentLSN]. unfold file.
  rewrite <-(app_assoc h data post), (ReadFull_mid pre h) by done.
  rewrite F1, F2, F3, F4, F5, F6, !le_get_put4, !le_get_put8, !uwrap_small by lia.
  rewrite (app_assoc pre h), <-len_app, (ReadFull_mid (pre ++ h) data) by lia.
  rewrite crc_update_app. unfold ChecksumIEEE.
  rewrite <-len_app, <-!(app_assoc pre).
  rewrite (uwrap_small 64 ks), (uwrap_small 64 vs), (uwrap_small 64 ts) by lia.
  by destruct (crc_update 0 (drop 4 h ++ data) =? crc).
Qed.

Lemma wal_Write_appending w now k v c :
  appending (w_file w) →
  wal_Write w now k v c =
    (mkWAL (mkFile (f_data (w_file w) ++ record (w_currentLSN w) (now, k, v, c))
              (len (f_data (w_file w) ++ record (w_currentLSN w) (now, k, v, c))) [])
       (u64 (w_currentLSN w + u64 (headerSize + len k + len v))), Ok tt).
Proof.
  intros Ha. unfold wal_Write. rewrite Write_appending by done. done.
Qed.

Lemma op_record_pos lsn op : 29 <= len (record lsn op).
Proof. destruct op as [[[now k] v] c]. rewrite len_record. unfold headerSize. len_pose. lia. Qed.

Lemma log_bytes_app lsn ops1 ops2 :
  log_bytes lsn (ops1 ++ ops2) =
    log_bytes lsn ops1 ++ log_bytes (lsn + len (log_bytes lsn ops1)) ops2.
Proof.
  revert lsn. induction ops1 as [|op ops1 IH]; intros lsn; simpl.
  - by rewrite len_nil, Z.add_0_r.
  - rewrite IH, <-app_assoc, len_app. do 3 f_equal. lia.
Qed.

Lemma log_bytes_count lsn ops : (length ops <= length (log_bytes lsn ops))%nat.
Proof.
  revert lsn. induction ops as [|op ops IH]; intros lsn; simpl; [done|].
  pose proof (op_record_pos lsn op). specialize (IH (lsn + len (record lsn op))).
  rewrite length_app. unfold len in *. lia.
Qed.

Lemma recover_one fuel pre lsn op post cur entries :
  op_fits op → 0 <= lsn → lsn + len (record lsn op) < 2 ^ 64 →
  recover_loop (S fuel) (mkWAL (mkFile (pre ++ record lsn op ++ post) (len pre) []) cur) entries =
  recover_loop fuel
    (mkWAL (mkFile (pre ++ record lsn op ++ post) (len (pre ++ record lsn op)) [])
       (lsn + len (record lsn op)))
    (entries ++ [expected lsn op]).
Proof.
  destruct op as [[[now k] v] c]. intros [Hk Hv] Hlsn Hend. rewrite len_record in *.
  unfold headerSize in *. len_pose.
  pose proof (uwrap_range 64 now ltac:(lia)).
  pose proof (ChecksumIEEE_range (record_body lsn (u64 now) c k v)).
  rewrite record_header, (uwrap_small 32 (len k)), (uwrap_small 32 (len v)) by lia.
  rewrite recover_step by (unfold headerSize in *; len_lia).
  destruct (header_fields (ChecksumIEEE (record_body lsn (u64 now) c k v)) lsn (u64 now) c
              (len k) (len v)) as (_ & _ & _ & _ & _ & _ & _ & ->).
  replace ((le_put 8 lsn ++ _) ++ k ++ v) with (record_body lsn (u64 now) c k v).
  2: { unfold record_body. rewrite !(uwrap_small 32) by lia. by rewrite <-!app_assoc. }
  rewrite Z.eqb_refl. rewrite to_nat_len, take_app_length, drop_app_length.
  f_equal. f_equal. unfold headerSize. rewrite uwrap_small by lia. lia.
Qed.

Lemma recover_log fuel pre lsn ops post cur entries :
  Forall op_fits ops → 0 <= lsn → lsn + len (log_bytes lsn ops) < 2 ^ 64 →
  (length ops <= fuel)%nat →
  recover_loop fuel (mkWAL (mkFile (pre ++ log_bytes lsn ops ++ post) (len pre) []) cur) entries =
  recover_loop (fuel - length ops)
    (mkWAL (mkFile (pre ++ log_bytes lsn ops ++ post) (len (pre ++ log_bytes lsn ops)) [])
       (match ops with [] => cur | _ => lsn + len (log_bytes lsn ops) end))
    (entries ++ log_entries lsn ops).
Proof.
  revert fuel pre lsn cur entries.
  induction ops as [|op ops IH]; intros fuel pre lsn cur entries Hfit Hlsn Hend Hfuel.
  { simpl. by rewrite !app_nil_r, Nat.sub_0_r. }
  apply Forall_cons in Hfit as [Hop Hops]. cbn [log_bytes log_entries length] in *.
  pose proof (op_record_pos lsn op). rewrite len_app in Hend. len_pose.
  destruct fuel as [|fuel]; [lia|]. rewrite <-app_assoc, recover_one by (done || lia).
  rewrite (app_assoc pre), IH by (done || lia).
  rewrite <-(app_assoc entries), <-!(app_assoc pre). simpl. do 2 f_equal.
  destruct ops as [|op' ops]; simpl; len_lia.
Qed.

(** ** Raw headers: every 29 bytes are the header of some field values. *)

Lemma le_put_get_n n bs : length bs = n → le_put n (le_get bs) = bs.
Proof. intros <-. apply le_put_get. Qed.

Lemma le_get_range_n bs n : length bs = n → 0 <= le_get bs < 256 ^ Z.of_nat n.
Proof. intros <-. apply le_get_range. Qed.

Lemma field_length h i j : (j <= length h)%nat → length (field h i j) = (j - i)%nat.
Proof. intros. unfold field. rewrite length_take, length_drop. lia. Qed.

Lemma header_decompose h :
  length h = 29%nat →
  ∃ crc lsn ts cmd ks vs, h = header_of crc lsn ts cmd ks vs ∧
    0 <= crc < 2 ^ 32 ∧ 0 <= lsn < 2 ^ 64 ∧ 0 <= ts < 2 ^ 64 ∧
    0 <= ks < 2 ^ 32 ∧ 0 <= vs < 2 ^ 32 ∧
    crc = le_get (field h 0 4) ∧ ks = le_get (field h 21 25) ∧ vs = le_get (field h 25 29).
Proof.
  intros Hl. destruct (lookup_lt_is_Some_2 h 20) as [cmd Hcmd]; [lia|].
  exists (le_get (field h 0 4)), (le_get (field h 4 12)), (le_get (field h 12 20)), cmd,
    (le_get (field h 21 25)), (le_get (field h 25 29)).
  pose proof (le_get_range_n (field h 0 4) 4 ltac:(rewrite field_length; lia)).
  pose proof (le_get_range_n (field h 4 12) 8 ltac:(rewrite field_length; lia)).
  pose proof (le_get_range_n (field h 12 20) 8 ltac:(rewrite field_length; lia)).
  pose proof (le_get_range_n (field h 21 25) 4 ltac:(rewrite field_length; lia)).
  pose proof (le_get_range_n (field h 25 29) 4 ltac:(rewrite field_length; lia)).
  split; [|repeat split; lia].
  unfold header_of. rewrite !le_put_get_n by (rewrite field_length; lia).
  do 29 (destruct h as [|? h]; [done|]). destruct h; [|done]. simpl in Hcmd. by simplify_eq.
Qed.

(** ** Runs of writes *)

Lemma wal_writes_data w ops :
  appending (w_file w) → 0 <= w_currentLSN w →
  w_currentLSN w + len (log_bytes (w_currentLSN w) ops) < 2 ^ 64 →
  let d := f_data (w_file w) ++ log_bytes (w_currentLSN w) ops in
  wal_writes w ops =
    mkWAL (mkFile d (len d) []) (w_currentLSN w + len (log_bytes (w_currentLSN w) ops)).
Proof.
  revert w. induction ops as [|[[[now k] v] c] ops IH]; intros w Ha Hlsn Hend; simpl.
  - destruct w as [[d p fs] l]. destruct Ha as [Hp Hf]; simpl in *. subst.
    by rewrite app_nil_r, len_nil, Z.add_0_r.
  - cbn [log_bytes] in Hend. rewrite len_app in Hend. rewrite len_record in *.
    unfold headerSize in *. len_pose.
    rewrite wal_Write_appending by done. unfold headerSize.
    rewrite (uwrap_small 64 (29 + len k + len v)), (uwrap_small 64 (w_currentLSN w + _)) by lia. simpl.
    rewrite IH by (simpl; done || lia). simpl.
    rewrite <-app_assoc. f_equal. rewrite (len_app (record _ _)), len_record. unfold headerSize. lia.
Qed.

Lemma log_entries_fields lsn ops :
  map (λ e, (e_TimeStamp e, e_Key e, e_Value e, e_Cmd e)) (log_entries lsn ops) =
  map (λ '(now, k, v, c), (u64 now, k, v, c)) ops.
Proof.
  revert lsn. induction ops as [|[[[now k] v] c] ops IH]; intros lsn; simpl; [done|]. by rewrite IH.
Qed.

Lemma recover_open data faults :
  wal_Recover (OpenWAL data faults) =
    recover_loop (S (length data)) (mkWAL (mkFile data 0 faults) (u64 (len data))) [].
Proof. done. Qed.

(** Recovery of a file that starts with a log: the log is read, then the loop
    goes on behind it. *)
Lemma recover_prefix ops rest :
  Forall op_fits ops → len (log_bytes 0 ops) < 2 ^ 64 →
  ∃ fuel cur,
    wal_Recover (OpenWAL (log_bytes 0 ops ++ rest) []) =
      recover_loop (S (length rest + fuel))
        (mkWAL (mkFile (log_bytes 0 ops ++ rest) (len (log_bytes 0 ops)) []) cur)
        (log_entries 0 ops) ∧
    cur = match ops with [] => u64 (len rest) | _ => len (log_bytes 0 ops) end.
Proof.
  intros Hfit Hlen. rewrite recover_open. pose proof (log_bytes_count 0 ops) as Hc.
  exists (length (log_bytes 0 ops) - length ops)%nat. eexists. split; [|done].
  change (mkFile ?d 0 []) with (mkFile ([] ++ d) (len (@nil byte)) []).
  rewrite recover_log by (done || lia || (rewrite length_app; lia)).
  rewrite !app_nil_l. f_equal.
  - rewrite length_app. lia.
  - by destruct ops.
Qed.

Lemma wal_recover_writes ops :
  Forall op_fits ops → len (log_bytes 0 ops) < 2 ^ 63 →
  let w := wal_writes (OpenWAL [] []) ops in
  wal_Recover (OpenWAL (f_data (w_file w)) []) = (w, Ok (log_entries 0 ops)).
Proof.
  intros Hfit Hlen w. unfold w. change (OpenWAL [] []) with (mkWAL (mkFile [] 0 []) 0).
  rewrite wal_writes_data by (simpl; done || lia). simpl.
  destruct (recover_prefix ops [] Hfit ltac:(lia)) as (fuel & cur & E & Hcur).
  rewrite app_nil_r in E. rewrite E. cbn [recover_loop w_file].
  rewrite ReadFull_eof by done. subst cur.
  by destruct ops.
Qed.

(** C13. Round trip: after any sequence of writes to a new log, reopening the
    file and recovering returns, in order, exactly the time stamps, keys,
    values and commands written, and leaves the handle as it was before the
    restart (same bytes, cursor at the end, same next LSN). *)
Theorem wal_roundtrip ops :
  Forall op_fits ops →
  len (log_bytes 0 ops) < 2 ^ 63 →
  let w := wal_writes (OpenWAL [] []) ops in
  ∃ es, wal_Recover (OpenWAL (f_data (w_file w)) []) = (w, Ok es) ∧
    map (λ e, (e_TimeStamp e, e_Key e, e_Value e, e_Cmd e)) es =
    map (λ '(now, k, v, c), (u64 now, k, v, c)) ops.
Proof.
  intros Hfit Hlen w. exists (log_entries 0 ops).
  split; [by apply wal_recover_writes|apply log_entries_fields].
Qed.

Definition demo_ops : list write_op :=
  [(5, [Byte.x61], [Byte.x62; Byte.x63], CmdPut); (6, [Byte.x61], [], CmdDelete)].

Lemma wal_roundtrip_witness :
  ∃ es, wal_Recover (OpenWAL (f_data (w_file (wal_writes (OpenWAL [] []) demo_ops))) []) =
      (wal_writes (OpenWAL [] []) demo_ops, Ok es) ∧
    map (λ e, (e_TimeStamp e, e_Key e, e_Value e, e_Cmd e)) es =
    [(5, [Byte.x61], [Byte.x62; Byte.x63], CmdPut); (6, [Byte.x61], [], CmdDelete)].
Proof.
  apply (wal_roundtrip demo_ops); [|by_compute].
  repeat constructor; by_compute.
Defined.

(** ** One changed byte *)

Lemma field_replace a x y b i j :
  (i < j)%nat → (j <= length a ∨ length a < i)%nat →
  field (a ++ y :: b) i j = field (a ++ x :: b) i j.
Proof.
  intros Hij [Hj|Hi]; unfold field.
  - rewrite !(drop_app_le a) by lia. by rewrite !take_app_le by (rewrite length_drop; lia).
  - rewrite !drop_app_ge by lia. by destruct (i - length a)%nat as [|n] eqn:?; [lia|].
Qed.

Lemma field_take h n i j : (j <= n)%nat → field (take n h) i j = field h i j.
Proof. intros Hj. unfold field. rewrite skipn_firstn_comm, take_take. f_equal. lia. Qed.

(** A checksummed record with one byte changed no longer matches its own
    checksum field. *)
Lemma corrupt_checksum body a x y b :
  le_put 4 (ChecksumIEEE body) ++ body = a ++ x :: b → x ≠ y →
  ChecksumIEEE (drop 4 (a ++ y :: b)) ≠ le_get (field (a ++ y :: b) 0 4).
Proof.
  intros Hrec Hxy Heq.
  assert (drop 4 (a ++ x :: b) = body) as Hbody.
  { rewrite <-Hrec. by rewrite drop_app_length' by (by rewrite length_le_put). }
  assert (le_get (field (a ++ x :: b) 0 4) = ChecksumIEEE body) as Hck.
  { rewrite <-Hrec. unfold field. rewrite drop_0, take_app_length' by done.
    rewrite le_get_put4. rewrite uwrap_small; [done|]. apply ChecksumIEEE_range. }
  assert (4 <= length (a ++ x :: b))%nat as H4
    by (rewrite <-Hrec, length_app, length_le_put; lia).
  destruct (decide (length a < 4)%nat) as [Ha|Ha].
  - assert (drop 4 (a ++ y :: b) = body) as Hb.
    { rewrite <-Hbody. rewrite !drop_app_ge by lia.
      by destruct (4 - length a)%nat as [|n] eqn:?; [lia|]. }
    rewrite Hb, <-Hck in Heq. apply le_get_inj in Heq.
    2: { rewrite !length_app in *. rewrite !field_length; rewrite ?length_app; simpl in *; lia. }
    unfold field in Heq. rewrite !drop_0 in Heq. apply (f_equal (lookup (length a))) in Heq.
    rewrite !lookup_take_lt, !list_lookup_middle in Heq by lia. congruence.
  - rewrite (field_replace a x), Hck, <-Hbody in Heq by lia.
    rewrite !(drop_app_le a) in Heq by lia. by apply checksum_detects_byte in Heq.
Qed.

(** Recovery at a record-sized block whose size fields are those of [k] and
    [v] but whose checksum does not match. *)
Lemma recover_mismatch fuel pre rec rest cur entries (k v : bytes) :
  len k < 2 ^ 32 → len v < 2 ^ 32 → len rec = 29 + len k + len v →
  field rec 21 25 = le_put 4 (len k) → field rec 25 29 = le_put 4 (len v) →
  ChecksumIEEE (drop 4 rec) ≠ le_get (field rec 0 4) →
  ∃ lsn, snd (recover_loop (S fuel) (mkWAL (mkFile (pre ++ rec ++ rest) (len pre) []) cur) entries)
           = Err (ErrChecksum lsn).
Proof.
  intros Hk Hv Hlen Hfk Hfv Hne. len_pose.
  destruct (header_decompose (take 29 rec)) as
    (crc & lsn & ts & cmd & ks & vs & Hh & R1 & R2 & R3 & R4 & R5 & Hcrc & Hks & Hvs).
  { rewrite length_take. unfold len in *. lia. }
  rewrite !field_take in Hcrc, Hks, Hvs by lia. rewrite Hfk in Hks. rewrite Hfv in Hvs.
  rewrite le_get_put4, uwrap_small in Hks, Hvs by lia.
  assert (rec = header_of crc lsn ts cmd ks vs ++ drop 29 rec) as Hsplit
    by (rewrite <-Hh; by rewrite take_drop).
  exists lsn. rewrite Hsplit. rewrite recover_step; try done.
  2: { rewrite len_drop. lia. }
  rewrite <-Hh. replace (drop 4 (take 29 rec) ++ drop 29 rec) with (drop 4 rec).
  2: { rewrite <-(take_drop 29 rec) at 1. rewrite drop_app_le; [done|].
       rewrite length_take. unfold len in *. lia. }
  rewrite (proj2 (Z.eqb_neq _ _)); [done|congruence].
Qed.

(** C19. Corruption: when one byte of a record outside its two size fields
    differs from what was written, recovery returns a checksum error,
    whatever precedes the record (whole records) and whatever follows it. *)
Theorem wal_detects_corruption ops op a x y b rest :
  Forall op_fits (ops ++ [op]) → len (log_bytes 0 (ops ++ [op])) < 2 ^ 63 →
  record (len (log_bytes 0 ops)) op = a ++ x :: b →
  (length a < 21 ∨ 29 <= length a)%nat → x ≠ y →
  ∃ lsn, snd (wal_Recover (OpenWAL (log_bytes 0 ops ++ (a ++ y :: b) ++ rest) [])) =
           Err (ErrChecksum lsn).
Proof.
  intros [Hops Hop]%Forall_app Hlen Hrec Hpos Hxy. apply Forall_inv in Hop.
  rewrite log_bytes_app, len_app in Hlen. len_pose.
  destruct (recover_prefix ops ((a ++ y :: b) ++ rest) Hops ltac:(lia)) as (fuel & cur & -> & _).
  destruct op as [[[now k] v] c]. destruct Hop as [Hk Hv].
  len_pose. assert (∀ i j, (i < j)%nat → (j <= length a ∨ length a < i)%nat →
    field (a ++ y :: b) i j = field (record (len (log_bytes 0 ops)) (now, k, v, c)) i j) as Hfield
    by (intros i j ? ?; rewrite Hrec; by apply field_replace).
  apply recover_mismatch with k v; try done.
  - transitivity (len (a ++ x :: b)); [len_lia|]. rewrite <-Hrec. apply len_record.
  - rewrite Hfield, record_header, !(uwrap_small 32) by lia. done.
  - rewrite Hfield, record_header, !(uwrap_small 32) by lia. done.
  - rewrite record_eq in Hrec. by eapply corrupt_checksum.
Qed.

Lemma wal_detects_corruption_witness :
  ∃ lsn, snd (wal_Recover (OpenWAL (log_bytes 0 [] ++
      (take 29 (record 0 (5, [Byte.x61], [], CmdPut)) ++ Byte.x7a :: []) ++ []) [])) =
    Err (ErrChecksum lsn).
Proof.
  apply (wal_detects_corruption [] (5, [Byte.x61], [], CmdPut)
           (take 29 (record 0 (5, [Byte.x61], [], CmdPut))) Byte.x61 Byte.x7a [] []).
  - repeat constructor; by_compute.
  - by_compute.
  - by_compute.
  - right. by_compute.
  - by_compute.
Defined.

(** ** Torn writes and termination *)

Lemma recover_torn fuel pre lsn op p q cur entries :
  op_fits op → record lsn op = p ++ q → p ≠ [] → q ≠ [] →
  snd (recover_loop (S fuel) (mkWAL (mkFile (pre ++ p) (len pre) []) cur) entries)
    = Err ErrUnexpectedEOF.
Proof.
  destruct op as [[[now k] v] c]. intros [Hk Hv] Hrec Hp Hq. len_pose.
  cbn [recover_loop w_file w_currentLSN].
  destruct (decide (len p < 29)) as [Hs|Hs].
  { pose proof (ReadFull_short pre p [] 29 Hp Hs) as E. unfold headerSize.
    destruct (ReadFull _ 29) as [f r]. simpl in E. by subst. }
  assert (take 29 p = header_of (ChecksumIEEE (record_body lsn (u64 now) c k v)) lsn (u64 now) c
                        (len k) (len v)) as Hh.
  { transitivity (take 29 (p ++ q)); [by rewrite take_app_le by (unfold len in *; lia)|].
    rewrite <-Hrec, record_header, !(uwrap_small 32) by lia. by rewrite take_app_length'. }
  destruct (header_fields (ChecksumIEEE (record_body lsn (u64 now) c k v)) lsn (u64 now) c
              (len k) (len v)) as (F1 & F2 & F3 & F4 & F5 & F6 & F7 & F8).
  rewrite <-Hh in *. set (h := take 29 p) in *.
  assert (p = h ++ drop 29 p) as Hpd by (symmetry; apply take_drop).
  rewrite Hpd at 1. rewrite (ReadFull_mid pre h) by (unfold len; by rewrite F7).
  rewrite F4, F5, F6, !le_get_put4, !uwrap_small by lia.
  assert (len (p ++ q) = 29 + len k + len v) as Hl by (rewrite <-Hrec; apply len_record).
  assert (0 < len q) by (destruct q; [done|len_lia]). rewrite len_app in Hl.
  assert (len (drop 29 p) < len v + len k) as Hshort by (rewrite len_drop; lia).
  rewrite (app_assoc pre h), <-len_app. destruct (decide (drop 29 p = [])) as [Hn|Hn].
  - rewrite Hn, app_nil_r, ReadFull_eof by len_lia. done.
  - pose proof (ReadFull_short (pre ++ h) (drop 29 p) [] _ Hn Hshort) as E.
    destruct (ReadFull _ (len v + len k)) as [f r]. simpl in E. by subst.
Qed.

(** Torn tail: when the file ends in a proper, non-empty part of a record
    (a crash in the middle of a write), recovery fails with
    [ErrUnexpectedEOF] and returns none of the complete records before it. *)
Theorem wal_torn_tail_fails ops op p q :
  Forall op_fits (ops ++ [op]) → len (log_bytes 0 ops) < 2 ^ 63 →
  record (len (log_bytes 0 ops)) op = p ++ q → p ≠ [] → q ≠ [] →
  snd (wal_Recover (OpenWAL (log_bytes 0 ops ++ p) [])) = Err ErrUnexpectedEOF.
Proof.
  intros [Hops Hop%Forall_inv]%Forall_app Hlen Hrec Hp Hq.
  destruct (recover_prefix ops p Hops ltac:(lia)) as (fuel & cur & -> & _).
  by eapply recover_torn.
Qed.

Lemma wal_torn_tail_fails_witness :
  snd (wal_Recover (OpenWAL (log_bytes 0 [(5, [Byte.x61], [], CmdPut)] ++
        take 3 (record 30 (6, [Byte.x62], [], CmdPut))) [])) = Err ErrUnexpectedEOF.
Proof.
  apply (wal_torn_tail_fails [(5, [Byte.x61], [], CmdPut)] (6, [Byte.x62], [], CmdPut)
           (take 3 (record 30 (6, [Byte.x62], [], CmdPut)))
           (drop 3 (record 30 (6, [Byte.x62], [], CmdPut)))).
  - repeat constructor; by_compute.
  - by_compute.
  - by_compute.
  - by_compute.
  - by_compute.
Defined.

Lemma recover_loop_total fuel w entries :
  0 <= f_pos (w_file w) → len (f_data (w_file w)) - f_pos (w_file w) < Z.of_nat fuel →
  (0 < fuel)%nat →
  snd (recover_loop fuel w entries) ≠ Panic.
Proof.
  revert w entries. induction fuel as [|fuel IH]; intros w entries Hp Hf H0; [lia|].
  cbn [recover_loop]. destruct (ReadFull (w_file w) headerSize) as [f1 h] eqn:E1.
  unfold headerSize in E1.
  destruct h as [header|e|]; [|by destruct e|by destruct (ReadFull_no_panic (w_file w) 29); rewrite E1].
  apply ReadFull_progress in E1 as (Hp1 & Hd1 & Hl1); [|lia..].
  destruct (lookup_lt_is_Some_2 header 20) as [cmd ->]; [unfold len in *; lia|].
  destruct (ReadFull f1 _) as [f2 d] eqn:E2.
  destruct d as [data|e|]; [|done|].
  2: { by destruct (ReadFull_no_panic f1 (le_get (field header 25 29) + le_get (field header 21 25)));
       rewrite E2. }
  destruct (negb _); [done|].
  pose proof (ReadFull_frame f1 (le_get (field header 25 29) + le_get (field header 21 25)))
    as (Hd2 & Hp2). rewrite E2 in Hd2, Hp2. simpl in Hd2, Hp2.
  apply IH; simpl; [lia|rewrite Hd2, Hd1; lia|lia].
Qed.

(** Termination: on every file, whatever its bytes, [Recover] returns a
    list of entries or an error: the loop ends within one round per byte and
    no slice expression or index of it panics. *)
Theorem wal_recover_total data faults :
  ∃ w r, wal_Recover (OpenWAL data faults) = (w, r) ∧
    ((∃ es, r = Ok es) ∨ (∃ e, r = Err e)).
Proof.
  rewrite recover_open.
  pose proof (recover_loop_total (S (length data)) (mkWAL (mkFile data 0 faults) (u64 (len data))) []
    ltac:(simpl; lia) ltac:(simpl; unfold len; lia) ltac:(lia)) as H.
  destruct (recover_loop _ _ _) as [w r]. exists w, r. split; [done|].
  destruct r; [by left; eexists|by right; eexists|done].
Qed.
