(* ===== verification/SSTable.v ===== *)
(** * sstable/builder.go: writing a sorted string table

    [Builder] appends entries to a file, keeps a sparse index (one entry per
    block of about 4 KiB) and a Bloom filter, and [Close] appends the index,
    the filter and a 16-byte footer.  The lemmas give the exact bytes of the
    finished file and the invariant of the index that the reader relies on.
    The Bloom filter enters through the interface [KeyFilter] only. *)

From stdpp Require Import base list.
From Stdlib Require Import ZArith Lia.
From S2P Require Import Prelude GoFile Bloom.

Definition blockSize : Z := 4 * 1024.

Record IndexEntry := mkIndexEntry { ie_key : bytes; ie_Offset : Z }.

Record Builder := mkBuilder {
  b_File : File;
  b_index : list IndexEntry;
  b_filter : BloomFilter;
  b_currentOffset : Z;
  b_blockStart : Z
}.

(** A key, its value and the tombstone flag: what one [Add] writes. *)
Definition sst_entry : Type := bytes * bytes * bool.

(** [created] is the outcome of [os.Create(filename)]. *)
Definition NewBuilder (created : outcome File) (keyCount : Z) : outcome Builder :=
  f ← created;
  Ok (mkBuilder f [] (bloom_New keyCount) 0 0).

(** The writes of one call, each followed by its error check. *)
Fixpoint file_writes (f : File) (bss : list bytes) : File * outcome unit :=
  match bss with
  | [] => (f, Ok tt)
  | bs :: bss' =>
      let '(f1, r) := Write f bs in
      match r with
      | Ok _ => file_writes f1 bss'
      | _ => (f1, r)
      end
  end.

Definition set_file (b : Builder) (f : File) : Builder :=
  mkBuilder f (b_index b) (b_filter b) (b_currentOffset b) (b_blockStart b).

Definition add_offset (b : Builder) (n : Z) : Builder :=
  mkBuilder (b_File b) (b_index b) (b_filter b) (b_currentOffset b + n) (b_blockStart b).

Section builder.
Variable Sum64 : bytes → Z.

(** The sparse-index step at the start of [Add]. *)
Definition index_step (b : Builder) (bf : BloomFilter) (key : bytes) : Builder :=
  if (b_currentOffset b =? 0) || (b_currentOffset b - b_blockStart b >? blockSize)
  then mkBuilder (b_File b) (b_index b ++ [mkIndexEntry key (b_currentOffset b)]) bf
         (b_currentOffset b) (b_currentOffset b)
  else mkBuilder (b_File b) (b_index b) bf (b_currentOffset b) (b_blockStart b).

Definition builder_Add (b : Builder) (key val : bytes) (isTombstone : bool) : Builder * outcome unit :=
  match bloom_Add Sum64 (b_filter b) key with
  | Ok bf =>
      let b1 := index_step b bf key in
      let header := byte_of_Z (if isTombstone then 1 else 0) in
      let valLen := if isTombstone then 0 else len val in
      let lenBuf := le_put 2 (u16 (len key)) ++ le_put 4 (u32 valLen) in
      let '(f, r) := file_writes (b_File b1)
        ([[header]; lenBuf; key] ++ (if isTombstone then [] else [val])) in
      match r with
      | Ok _ => (add_offset (set_file b1 f) (1 + 2 + 4 + len key + valLen), Ok tt)
      | _ => (set_file b1 f, r)
      end
  | Err e => (b, Err e)
  | Panic => (b, Panic)
  end.

(** The loop of [Close] over the index entries. *)
Fixpoint close_index (b : Builder) (entries : list IndexEntry) : Builder * outcome unit :=
  match entries with
  | [] => (b, Ok tt)
  | e :: es =>
      let '(f, r) := file_writes (b_File b)
        [le_put 2 (u16 (len (ie_key e))); ie_key e; le_put 8 (u64 (ie_Offset e))] in
      match r with
      | Ok _ => close_index (add_offset (set_file b f) (2 + len (ie_key e) + 8)) es
      | _ => (set_file b f, r)
      end
  end.

(** [Close()]; closing the descriptor itself does not fail. *)
Definition builder_Close (b : Builder) : Builder * outcome unit :=
  let indexStartOffset := b_currentOffset b in
  let '(b1, r1) := close_index b (b_index b) in
  match r1 with
  | Ok _ =>
      let filterStartOffset := b_currentOffset b1 in
      let filterBytes := bloom_Bytes (b_filter b1) in
      let '(f2, r2) := file_writes (b_File b1) [filterBytes] in
      match r2 with
      | Ok _ =>
          let b2 := add_offset (set_file b1 f2) (len filterBytes) in
          let footer := le_put 8 (u64 indexStartOffset) ++ le_put 8 (u64 filterStartOffset) in
          let '(f3, r3) := file_writes (b_File b2) [footer] in
          match r3 with
          | Ok _ => let '(f4, r4) := Sync f3 in (set_file b2 f4, r4)
          | _ => (set_file b2 f3, r3)
          end
      | _ => (set_file b1 f2, r2)
      end
  | _ => (b1, r1)
  end.

(** [Add] for each entry in turn, stopping at the first error, as the flush
    and the merge loop do. *)
Fixpoint builder_adds (b : Builder) (es : list sst_entry) : Builder * outcome unit :=
  match es with
  | [] => (b, Ok tt)
  | (k, v, t) :: es' =>
      let '(b1, r) := builder_Add b k v t in
      match r with
      | Ok _ => builder_adds b1 es'
      | _ => (b1, r)
      end
  end.
End builder.

(** * The format *)

Definition entry_key (e : sst_entry) : bytes := let '(k, _, _) := e in k.

(** What a lookup of the entry gives: a tombstone carries no value. *)
Definition entry_value (e : sst_entry) : bytes := let '(_, v, t) := e in if t : bool then [] else v.
Definition entry_tomb (e : sst_entry) : bool := let '(_, _, t) := e in t.

Definition entry_bytes (e : sst_entry) : bytes :=
  [byte_of_Z (if entry_tomb e then 1 else 0)] ++
  le_put 2 (u16 (len (entry_key e))) ++ le_put 4 (u32 (len (entry_value e))) ++
  entry_key e ++ entry_value e.

Definition data_bytes (es : list sst_entry) : bytes := concat (map entry_bytes es).

Definition index_entry_bytes (e : IndexEntry) : bytes :=
  le_put 2 (u16 (len (ie_key e))) ++ ie_key e ++ le_put 8 (u64 (ie_Offset e)).

Definition index_bytes (ix : list IndexEntry) : bytes := concat (map index_entry_bytes ix).

Definition footer_bytes (indexOffset filterOffset : Z) : bytes :=
  le_put 8 (u64 indexOffset) ++ le_put 8 (u64 filterOffset).

(** A finished table: data, index, filter, footer. *)
Definition table_bytes (data : bytes) (ix : list IndexEntry) (filter : bytes) : bytes :=
  data ++ index_bytes ix ++ filter ++
  footer_bytes (len data) (len data + len (index_bytes ix)).

(** * Lemmas *)

Lemma len_entry_bytes e : len (entry_bytes e) = 7 + len (entry_key e) + len (entry_value e).
Proof. unfold entry_bytes. len_lia. Qed.

Lemma data_bytes_app es1 es2 : data_bytes (es1 ++ es2) = data_bytes es1 ++ data_bytes es2.
Proof. unfold data_bytes. by rewrite map_app, concat_app. Qed.
Lemma data_bytes_cons e es : data_bytes (e :: es) = entry_bytes e ++ data_bytes es.
Proof. done. Qed.
Lemma data_bytes_nil : data_bytes [] = [].
Proof. done. Qed.

Lemma data_bytes_snoc es e : data_bytes (es ++ [e]) = data_bytes es ++ entry_bytes e.
Proof. rewrite data_bytes_app. unfold data_bytes at 2. simpl. by rewrite app_nil_r. Qed.

Lemma data_bytes_pos e es : 7 <= len (data_bytes (es ++ [e])).
Proof.
  rewrite data_bytes_snoc, len_app, len_entry_bytes. len_pose. lia.
Qed.

Lemma len_index_entry_bytes e : len (index_entry_bytes e) = 10 + len (ie_key e).
Proof. unfold index_entry_bytes. len_lia. Qed.

Lemma file_writes_appending f bss :
  appending f →
  file_writes f bss = (mkFile (f_data f ++ concat bss) (len (f_data f ++ concat bss)) [], Ok tt).
Proof.
  revert f. induction bss as [|bs bss IH]; intros f Ha; simpl.
  - destruct f as [d p fs], Ha as [Hp Hf]; simpl in *. subst. by rewrite app_nil_r.
  - rewrite Write_appending by done. rewrite IH by done. simpl. by rewrite <-app_assoc.
Qed.

Section spec.
Context (Sum64 : bytes → Z) `{!KeyFilter Sum64}.

(** An index entry that points at the entry of its key. *)
Definition points_into (es : list sst_entry) (ie : IndexEntry) : Prop :=
  ∃ pre e post, es = pre ++ e :: post ∧ ie_key ie = entry_key e ∧ ie_Offset ie = len (data_bytes pre).

(** The state of a builder after the entries [es] were added. *)
Record builder_inv (b : Builder) (es : list sst_entry) : Prop := {
  bi_append : appending (b_File b);
  bi_data : f_data (b_File b) = data_bytes es;
  bi_offset : b_currentOffset b = len (data_bytes es);
  bi_filter : filter_holds Sum64 (b_filter b) (map entry_key es);
  bi_points : Forall (points_into es) (b_index b);
  bi_sub : map ie_key (b_index b) `sublist_of` map entry_key es;
  bi_first : ∀ e es', es = e :: es' →
    ∃ ix, b_index b = mkIndexEntry (entry_key e) 0 :: ix
}.

Lemma points_into_app es es' ie : points_into es ie → points_into (es ++ es') ie.
Proof.
  intros (pre & e & post & -> & ? & ?). exists pre, e, (post ++ es').
  by rewrite <-app_assoc.
Qed.

Lemma NewBuilder_inv f keyCount :
  keyCount < 2 ^ 60 → f = mkFile [] 0 [] →
  ∃ b, NewBuilder (Ok f) keyCount = Ok b ∧ builder_inv b [].
Proof.
  intros Hk ->. eexists. split; [done|]. split; try done. by apply filter_new.
Qed.

(** The index after one more entry: extended exactly at a block boundary. *)
Lemma index_step_inv b bf es k v t :
  builder_inv b es →
  let b1 := index_step b bf k in
  b_File b1 = b_File b ∧ b_filter b1 = bf ∧ b_currentOffset b1 = b_currentOffset b ∧
  Forall (points_into (es ++ [(k, v, t)])) (b_index b1) ∧
  map ie_key (b_index b1) `sublist_of` map entry_key (es ++ [(k, v, t)]) ∧
  (∀ e es', es ++ [(k, v, t)] = e :: es' → ∃ ix, b_index b1 = mkIndexEntry (entry_key e) 0 :: ix).
Proof.
  intros [Ha Hd Ho Hf Hp Hs Hfst] b1.
  assert (Forall (points_into (es ++ [(k, v, t)])) (b_index b)) as Hp'
    by (eapply Forall_impl; [done|]; intros; by apply points_into_app).
  assert (points_into (es ++ [(k, v, t)]) (mkIndexEntry k (b_currentOffset b))) as Hnew
    by (exists es, (k, v, t), []; by rewrite <-Ho).
  unfold b1, index_step. rewrite map_app.
  destruct ((b_currentOffset b =? 0) || _) eqn:E; simpl; repeat split; try done.
  - apply Forall_app. by split; [|constructor].
  - rewrite map_app. by apply sublist_app.
  - intros e es' H. destruct es as [|e0 es0]; simplify_eq/=.
    + destruct (b_index b) as [|i ix]; [|by apply Forall_inv in Hp as ([|] & ? & ? & ? & _)].
      rewrite Ho. by eexists.
    + destruct (Hfst e es0 eq_refl) as [ix ->]. by eexists.
  - by apply sublist_inserts_r.
  - intros e es' H. destruct es as [|e0 es0]; simplify_eq/=.
    + by rewrite Ho in E.
    + by apply (Hfst e es0).
Qed.

Lemma builder_Add_inv b es k v t :
  builder_inv b es →
  ∃ b', builder_Add Sum64 b k v t = (b', Ok tt) ∧ builder_inv b' (es ++ [(k, v, t)]).
Proof.
  intros Hinv. pose proof Hinv as [Ha Hd Ho Hf _ _ _].
  destruct (filter_add Sum64 _ _ k Hf) as (bf & Hbf & Hf').
  destruct (index_step_inv b bf es k v t Hinv) as (H1 & H2 & H3 & H4 & H5 & H6).
  unfold builder_Add. rewrite Hbf. cbv zeta. rewrite file_writes_appending by (by rewrite H1).
  eexists. split; [done|].
  assert (f_data (b_File b) ++ concat
    ([[byte_of_Z (if t then 1 else 0)]; le_put 2 (u16 (len k)) ++ le_put 4 (u32 (if t then 0 else len v)); k]
       ++ (if t then [] else [v])) = data_bytes (es ++ [(k, v, t)])) as Hdata.
  { rewrite Hd, data_bytes_snoc. f_equal.
    unfold entry_bytes. destruct t; simpl; by rewrite ?app_nil_r, <-?app_assoc. }
  split; simpl; rewrite ?H1, ?H2, ?H3; try done; simpl in Hdata; rewrite ?Hdata; try done.
  - rewrite Ho, data_bytes_snoc, len_app, len_entry_bytes.
    simpl. destruct t; len_lia.
  - by rewrite map_app.
Qed.

Lemma builder_adds_inv b es0 es :
  builder_inv b es0 →
  ∃ b', builder_adds Sum64 b es = (b', Ok tt) ∧ builder_inv b' (es0 ++ es).
Proof.
  revert b es0. induction es as [|[[k v] t] es IH]; intros b es0 Hinv; simpl.
  - exists b. by rewrite app_nil_r.
  - destruct (builder_Add_inv b es0 k v t Hinv) as (b1 & -> & H1).
    destruct (IH b1 _ H1) as (b2 & -> & H2). exists b2. split; [done|].
    by rewrite <-app_assoc in H2.
Qed.

Lemma close_index_spec b ix :
  appending (b_File b) →
  ∃ b', close_index b ix = (b', Ok tt) ∧ appending (b_File b') ∧
    f_data (b_File b') = f_data (b_File b) ++ index_bytes ix ∧
    b_currentOffset b' = b_currentOffset b + len (index_bytes ix) ∧
    b_filter b' = b_filter b.
Proof.
  revert b. induction ix as [|e ix IH]; intros b Ha; cbn [close_index].
  - exists b. unfold index_bytes. simpl. by rewrite app_nil_r, len_nil, Z.add_0_r.
  - rewrite file_writes_appending by done.
    edestruct IH as (b' & -> & H1 & H2 & H3 & H4); [|exists b'; split; [done|]]; [done|].
    simpl in *. rewrite H2, H3, H4, app_nil_r. unfold index_bytes. simpl.
    rewrite <-!app_assoc, len_app, len_index_entry_bytes. unfold index_entry_bytes.
    rewrite <-!app_assoc. repeat split; try done; try apply H1. lia.
Qed.

(** The bytes of the finished file. *)
Lemma builder_Close_spec b es :
  builder_inv b es →
  ∃ b', builder_Close b = (b', Ok tt) ∧
    f_data (b_File b') = table_bytes (data_bytes es) (b_index b) (bloom_Bytes (b_filter b)).
Proof.
  intros [Ha Hd Ho Hf _ _ _]. unfold builder_Close.
  destruct (close_index_spec b (b_index b) Ha) as (b1 & -> & H1 & H2 & H3 & H4).
  rewrite file_writes_appending by done. rewrite file_writes_appending by done.
  eexists. split; [done|]. simpl. rewrite H2, H3, H4, Hd, Ho, !app_nil_r, <-!app_assoc. done.
Qed.
(** No write fault makes a builder panic. *)
Lemma file_writes_no_panic f bss : snd (file_writes f bss) ≠ Panic.
Proof.
  revert f. induction bss as [|bs bss IH]; intros f; simpl; [done|].
  assert (snd (Write f bs) ≠ Panic) as Hw.
  { unfold Write. destruct (f_faults f) as [|[n|] fs]; done. }
  destruct (Write f bs) as [f1 [[]|e|]]; simpl in *; [apply IH|done|done].
Qed.

Lemma builder_adds_no_panic b es ks :
  filter_holds Sum64 (b_filter b) ks → snd (builder_adds Sum64 b es) ≠ Panic.
Proof.
  revert b ks. induction es as [|[[k v] t] es IH]; intros b ks Hf; [done|]. cbn [builder_adds].
  unfold builder_Add. destruct (filter_add Sum64 _ _ k Hf) as (bf & -> & Hf'). cbv zeta.
  destruct (file_writes _ _) as [f r] eqn:E. pose proof (f_equal snd E) as Er.
  pose proof (file_writes_no_panic (b_File (index_step b bf k))
    ([[byte_of_Z (if t then 1 else 0)];
      le_put 2 (u16 (len k)) ++ le_put 4 (u32 (if t then 0 else len v)); k] ++ (if t then [] else [v]))) as Hn.
  rewrite Er in Hn. simpl in Hn. destruct r as [[]|e|]; [|done|done].
  eapply IH. simpl. unfold index_step. by destruct (_ || _).
Qed.
End spec.
