(* ===== verification/SSTReader.v ===== *)
(** * sstable/reader.go: looking a key up in a table file

    [OpenSSTable] reads footer, sparse index and Bloom filter; [Get] consults
    the filter, bisects the index and scans the block.  The theorems show that
    a table written by [Builder] is opened successfully and that [Get] returns
    exactly the entry stored for a key, for every key in the table. *)

From stdpp Require Import base list sorting.
From Stdlib Require Import ZArith Lia.
From S2P Require Import Prelude GoFile Bloom SSTable.

Record Reader := mkReader {
  r_file : File;
  r_index : list IndexEntry;
  r_filter : BloomFilter
}.

(** ** The index parser

    [buf] is a [bytes.Reader]: its remaining bytes.  [binary.Read] fills its
    target completely or fails; [buf.Read] fails only when nothing is left (also
    for an empty target) and may fill the target partly. *)

Definition br_Read (buf : bytes) (n : nat) : option (bytes * bytes) :=
  match buf with
  | [] => None
  | _ => let got := take n buf in Some (got ++ zeros (n - length got), drop n buf)
  end.

Definition br_ReadFull (buf : bytes) (n : nat) : option (bytes * bytes) :=
  if (length buf <? n)%nat then None else Some (take n buf, drop n buf).

(** The loop [for buf.Len() > 0]: a failed read breaks out of it. *)
Fixpoint parse_index (fuel : nat) (buf : bytes) (index : list IndexEntry) : list IndexEntry :=
  match fuel with
  | O => index
  | S fuel' =>
      match buf with
      | [] => index
      | _ =>
          match br_ReadFull buf 2 with
          | None => index
          | Some (kb, buf1) =>
              match br_Read buf1 (Z.to_nat (le_get kb)) with
              | None => index
              | Some (keyBytes, buf2) =>
                  match br_ReadFull buf2 8 with
                  | None => index
                  | Some (ob, buf3) =>
                      parse_index fuel' buf3
                        (index ++ [mkIndexEntry keyBytes (s64 (le_get ob))])
                  end
              end
          end
      end
  end.

(** [OpenSSTable] of a file with contents [data]; every round of the parser
    consumes at least ten bytes. *)
Definition OpenSSTable (data : bytes) : outcome Reader :=
  let f0 := open_at_start data [] in
  if len data <? 16 then Err ErrTooSmall
  else
    let '(f1, s1) := SeekEnd f0 (-16) in
    _ ← s1;
    let '(f2, footer) := Read f1 16 in
    footer ← footer;
    let indexOffset := s64 (le_get (take 8 footer)) in
    let filterOffset := s64 (le_get (take 8 (drop 8 footer))) in
    let '(f3, s3) := SeekStart f2 indexOffset in
    _ ← s3;
    let indexSize := s64 (filterOffset - indexOffset) in
    _ ← go_make indexSize;
    let '(f4, indexBytes) := Read f3 indexSize in
    indexBytes ← indexBytes;
    let index := parse_index (S (length indexBytes)) indexBytes [] in
    let filterSize := s64 (len data - filterOffset - 16) in
    _ ← go_make filterSize;
    let '(f5, s5) := SeekStart f4 filterOffset in
    _ ← s5;
    let '(f6, filterBytes) := Read f5 filterSize in
    filterBytes ← filterBytes;
    Ok (mkReader f6 index (bloom_Load filterBytes)).

(** ** The block scan

    One round per entry; out of fuel would show as [Panic]. *)
Fixpoint scan (fuel : nat) (f : File) (targetKey : bytes) : outcome (bytes * bool * bool) :=
  match fuel with
  | O => Panic
  | S fuel' =>
      let '(f1, header) := Read f 1 in
      match header with
      | Err ErrEOF => Ok ([], false, false)
      | Err e => Err e
      | Panic => Panic
      | Ok header =>
          let isTombstone := bool_decide (header = [Byte.x01]) in
          let '(f2, lenBuf) := Read f1 6 in
          lenBuf ← lenBuf;
          let kLen := le_get (take 2 lenBuf) in
          let vLen := le_get (take 4 (drop 2 lenBuf)) in
          let '(f3, keyBytes) := Read f2 kLen in
          currentKey ← keyBytes;
          if str_eqb currentKey targetKey then
            if isTombstone then Ok ([], true, true)
            else
              let '(f4, valBytes) := Read f3 vLen in
              valBytes ← valBytes;
              Ok (valBytes, false, true)
          else if str_ltb targetKey currentKey then Ok ([], false, false)
          else if isTombstone then scan fuel' f3 targetKey
          else
            let '(f4, s) := SeekCurrent f3 vLen in
            _ ← s;
            scan fuel' f4 targetKey
      end
  end.

(** [sort.Search(len(r.index), func(i) r.index[i].key > targetKey)] *)
Definition index_gt (ix : list IndexEntry) (targetKey : bytes) (i : Z) : bool :=
  match ix !! Z.to_nat i with
  | Some e => str_ltb targetKey (ie_key e)
  | None => false
  end.

(** Value, tombstone flag, found flag. *)
Definition reader_Get (Sum64 : bytes → Z) (r : Reader) (targetKey : bytes)
  : outcome (bytes * bool * bool) :=
  maybe ← MaybeContains Sum64 (r_filter r) targetKey;
  if negb maybe then Ok ([], false, false)
  else
    let idx := Search (len (r_index r)) (index_gt (r_index r) targetKey) in
    if idx =? 0 then Ok ([], false, false)
    else
      e ← index (r_index r) (idx - 1);
      let '(f, s) := SeekStart (r_file r) (ie_Offset e) in
      _ ← s;
      scan (S (length (f_data f))) f targetKey.

(** * Lemmas *)

(** ** The index parser reads back what [Close] wrote *)

Definition index_fits (ie : IndexEntry) : Prop :=
  len (ie_key ie) < 2 ^ 16 ∧ 0 <= ie_Offset ie < 2 ^ 63.

Lemma br_ReadFull_app n a rest : length a = n → br_ReadFull (a ++ rest) n = Some (a, rest).
Proof.
  intros <-. unfold br_ReadFull. rewrite length_app.
  destruct (Nat.ltb_spec (length a + length rest) (length a)); [lia|].
  by rewrite take_app_length, drop_app_length.
Qed.

Lemma br_Read_app n a rest : length a = n → rest ≠ [] → br_Read (a ++ rest) n = Some (a, rest).
Proof.
  intros <- Hr. unfold br_Read. destruct (a ++ rest) eqn:E.
  - by apply app_eq_nil in E as [_ ->].
  - rewrite <-E, take_app_length, drop_app_length, Nat.sub_diag. simpl. by rewrite app_nil_r.
Qed.

Lemma parse_index_round fuel ie rest acc :
  index_fits ie →
  parse_index (S fuel) (index_entry_bytes ie ++ rest) acc = parse_index fuel rest (acc ++ [ie]).
Proof.
  intros [Hk Ho]. len_pose. unfold index_entry_bytes. cbn [parse_index].
  rewrite <-!app_assoc. destruct (le_put 2 _ ++ _) eqn:E.
  { apply (f_equal length) in E. rewrite length_app, length_le_put in E. done. }
  rewrite <-E. rewrite br_ReadFull_app by apply length_le_put.
  rewrite le_get_put2, uwrap_idemp, (uwrap_small 16) by lia. rewrite to_nat_len.
  rewrite br_Read_app; [|done|].
  2: { intros He. apply (f_equal length) in He. rewrite length_app, length_le_put in He. done. }
  rewrite br_ReadFull_app by apply length_le_put.
  rewrite le_get_put8, uwrap_idemp, s64_u64_small by done. by destruct ie.
Qed.

Lemma parse_index_bytes fuel ix acc :
  Forall index_fits ix → (length ix < fuel)%nat → parse_index fuel (index_bytes ix) acc = acc ++ ix.
Proof.
  revert fuel acc. induction ix as [|ie ix IH]; intros fuel acc Hfit Hfuel.
  - destruct fuel; simpl; by rewrite app_nil_r.
  - apply Forall_cons in Hfit as [H1 H2]. destruct fuel as [|fuel]; [simpl in *; lia|].
    unfold index_bytes. cbn [map concat]. rewrite parse_index_round by done.
    unfold index_bytes in IH. rewrite IH by (done || simpl in *; lia). by rewrite <-app_assoc.
Qed.

Lemma index_bytes_count ix : (length ix <= length (index_bytes ix))%nat.
Proof.
  induction ix as [|ie ix IH]; [done|]. unfold index_bytes in *. simpl.
  pose proof (len_index_entry_bytes ie). rewrite length_app. len_pose. unfold len in *. lia.
Qed.

(** ** Opening a finished table *)

Lemma table_bytes_len data ix filter :
  len (table_bytes data ix filter) = len data + len (index_bytes ix) + len filter + 16.
Proof. unfold table_bytes, footer_bytes. len_lia. Qed.

Lemma go_make_ok n : 0 <= n <= maxAlloc → go_make n = Ok tt.
Proof.
  intros. unfold go_make. by rewrite (proj2 (Z.ltb_ge _ _)), (proj2 (Z.ltb_ge _ _)) by lia.
Qed.

Lemma SeekStart_ok f p : 0 <= p → SeekStart f p = (mkFile (f_data f) p (f_faults f), Ok tt).
Proof. intros. unfold SeekStart, seek_to. by rewrite (proj2 (Z.ltb_ge _ _)) by lia. Qed.

Lemma OpenSSTable_table data ix filter :
  Forall index_fits ix →
  len (table_bytes data ix filter) < maxAlloc →
  ∃ p, OpenSSTable (table_bytes data ix filter) =
    Ok (mkReader (mkFile (table_bytes data ix filter) p []) ix (bloom_Load filter)).
Proof.
  intros Hfit Hlen. pose proof (table_bytes_len data ix filter) as Hl.
  remember (table_bytes data ix filter) as T eqn:ET. len_pose. unfold maxAlloc in Hlen.
  assert (T = (data ++ index_bytes ix ++ filter) ++
              footer_bytes (len data) (len data + len (index_bytes ix)) ++ []) as HT
    by (rewrite ET; unfold table_bytes; by rewrite app_nil_r, <-!app_assoc).
  assert (Read (mkFile T (len data) []) (len (index_bytes ix)) =
    (mkFile T (len data + len (index_bytes ix)) [], Ok (index_bytes ix))) as Rindex.
  { rewrite ET. unfold table_bytes. by rewrite Read_mid. }
  assert (Read (mkFile T (len data + len (index_bytes ix)) []) (len filter) =
    (mkFile T (len data + len (index_bytes ix) + len filter) [], Ok filter)) as Rfilter.
  { rewrite ET. unfold table_bytes. by rewrite app_assoc, <-len_app, Read_mid. }
  assert (Read (mkFile T (len T + -16) []) 16 =
    (mkFile T (len T) [], Ok (footer_bytes (len data) (len data + len (index_bytes ix))))) as Rfooter.
  { replace (len T + -16) with (len (data ++ index_bytes ix ++ filter)) by len_lia.
    rewrite HT at 1. rewrite Read_mid by (unfold footer_bytes; len_lia).
    rewrite <-HT. do 2 f_equal. unfold footer_bytes. len_lia. }
  unfold OpenSSTable, SeekEnd, seek_to, open_at_start. cbn [f_data f_faults f_pos].
  rewrite (proj2 (Z.ltb_ge _ _)), (proj2 (Z.ltb_ge _ _)) by lia.
  cbn [mbind outcome_bind]. rewrite Rfooter. cbn [mbind outcome_bind]. unfold footer_bytes.
  rewrite take_app_length', drop_app_length', take_ge by (rewrite length_le_put; done).
  rewrite !le_get_put8, !uwrap_idemp, !s64_u64_small by lia.
  rewrite SeekStart_ok by lia. cbn [mbind outcome_bind f_data f_faults].
  replace (len data + len (index_bytes ix) - len data) with (len (index_bytes ix)) by lia.
  rewrite (swrap_small 64 (len (index_bytes ix))), (go_make_ok (len (index_bytes ix))) by (unfold maxAlloc; lia). cbn [mbind outcome_bind].
  rewrite Rindex. cbn [mbind outcome_bind].
  rewrite parse_index_bytes by (done || (pose proof (index_bytes_count ix); lia)). cbn [app].
  replace (len T - (len data + len (index_bytes ix)) - 16) with (len filter) by lia.
  rewrite (swrap_small 64 (len filter)), go_make_ok by (unfold maxAlloc; lia). cbn [mbind outcome_bind].
  rewrite SeekStart_ok by lia. cbn [mbind outcome_bind f_data f_faults].
  rewrite Rfilter. by eexists.
Qed.

(** ** The scan *)

(** Key and value lengths fit their fields. *)
Definition entry_fits (e : sst_entry) : Prop :=
  len (entry_key e) < 2 ^ 16 ∧ len (entry_value e) < 2 ^ 32.

Definition sorted_entries (es : list sst_entry) : Prop := StronglySorted str_lt (map entry_key es).

(** The header byte and the length fields of an entry. *)
Definition entry_header (e : sst_entry) : byte := byte_of_Z (if entry_tomb e then 1 else 0).
Definition entry_lens (e : sst_entry) : bytes :=
  le_put 2 (u16 (len (entry_key e))) ++ le_put 4 (u32 (len (entry_value e))).

Lemma entry_header_tomb e : bool_decide ([entry_header e] = [Byte.x01]) = entry_tomb e.
Proof. unfold entry_header. by destruct (entry_tomb e). Qed.

Lemma entry_lens_get e :
  entry_fits e →
  le_get (take 2 (entry_lens e)) = len (entry_key e) ∧
  le_get (take 4 (drop 2 (entry_lens e))) = len (entry_value e).
Proof.
  intros [Hk Hv]. len_pose. unfold entry_lens.
  rewrite take_app_length', drop_app_length', take_ge by (by rewrite length_le_put).
  by rewrite le_get_put2, le_get_put4, !uwrap_idemp, (uwrap_small 16), (uwrap_small 32) by lia.
Qed.

(** The four reads over a stored entry. *)
Lemma read_entry pre e post :
  let f p := mkFile (pre ++ entry_bytes e ++ post) p [] in
  let p1 := len pre + 1 in
  let p3 := p1 + 6 + len (entry_key e) in
  Read (f (len pre)) 1 = (f p1, Ok [entry_header e]) ∧
  Read (f p1) 6 = (f (p1 + 6), Ok (entry_lens e)) ∧
  Read (f (p1 + 6)) (len (entry_key e)) = (f p3, Ok (entry_key e)) ∧
  Read (f p3) (len (entry_value e)) = (f (p3 + len (entry_value e)), Ok (entry_value e)) ∧
  p3 + len (entry_value e) = len (pre ++ entry_bytes e).
Proof.
  intros f p1 p3. set (h := entry_header e). set (lens := entry_lens e).
  assert (len lens = 6) as Hl by (unfold lens, entry_lens; len_lia).
  assert (pre ++ entry_bytes e ++ post =
    pre ++ [h] ++ lens ++ entry_key e ++ entry_value e ++ post) as HD
    by (unfold entry_bytes, lens, entry_lens; by rewrite <-!app_assoc).
  unfold f, p3, p1. rewrite HD. split_and!.
  - by rewrite Read_mid.
  - rewrite (app_assoc pre). replace (len pre + 1) with (len (pre ++ [h])) by len_lia.
    rewrite Read_mid by lia. by rewrite Hl.
  - rewrite (app_assoc pre), (app_assoc (pre ++ [h])).
    replace (len pre + 1 + 6) with (len ((pre ++ [h]) ++ lens)) by len_lia. by rewrite Read_mid.
  - rewrite (app_assoc pre), (app_assoc (pre ++ [h])), (app_assoc ((pre ++ [h]) ++ lens)).
    replace (len pre + 1 + 6 + len (entry_key e)) with (len (((pre ++ [h]) ++ lens) ++ entry_key e))
      by len_lia. by rewrite Read_mid.
  - rewrite len_app, len_entry_bytes. lia.
Qed.

(** One round of the scan on a stored entry. *)
Lemma scan_entry fuel pre e post k :
  entry_fits e →
  let f p := mkFile (pre ++ entry_bytes e ++ post) p [] in
  scan (S fuel) (f (len pre)) k =
    if str_eqb (entry_key e) k then Ok (entry_value e, entry_tomb e, true)
    else if str_ltb k (entry_key e) then Ok ([], false, false)
    else scan fuel (f (len (pre ++ entry_bytes e))) k.
Proof.
  intros Hfit f. destruct (read_entry pre e post) as (R1 & R2 & R3 & R4 & Hend).
  destruct (entry_lens_get e Hfit) as [Lk Lv]. unfold f.
  cbn [scan]. rewrite R1, R2. cbn [mbind outcome_bind].
  rewrite Lk, Lv, R3, entry_header_tomb. cbn [mbind outcome_bind].
  destruct (str_eqb (entry_key e) k).
  - destruct (entry_tomb e) eqn:Et; [|by rewrite R4].
    by destruct e as [[k' v'] []].
  - destruct (str_ltb k (entry_key e)); [done|]. destruct (entry_tomb e) eqn:Et.
    + by destruct e as [[k' v'] []]; rewrite <-Hend; simpl; rewrite ?len_nil, ?Z.add_0_r.
    + unfold SeekCurrent, seek_to. cbn [f_pos f_data f_faults]. len_pose.
      rewrite (proj2 (Z.ltb_ge _ _)) by lia. cbn [mbind outcome_bind]. by rewrite Hend.
Qed.

Lemma scan_present fuel pre es post e :
  Forall entry_fits es → sorted_entries es → e ∈ es → (length es <= fuel)%nat →
  scan fuel (mkFile (pre ++ data_bytes es ++ post) (len pre) []) (entry_key e)
    = Ok (entry_value e, entry_tomb e, true).
Proof.
  revert fuel pre. induction es as [|e0 es IH]; intros fuel pre Hfit Hs He Hfuel.
  { by apply not_elem_of_nil in He. }
  apply Forall_cons in Hfit as [Hf Hfit]. apply StronglySorted_cons in Hs as [Hlt Hs].
  destruct fuel as [|fuel]; [simpl in Hfuel; lia|].
  rewrite data_bytes_cons, <-app_assoc, scan_entry by done.
  apply elem_of_cons in He as [->|He]; [by rewrite str_eqb_refl|].
  rewrite Forall_forall in Hlt.
  assert (str_lt (entry_key e0) (entry_key e)) as Hlt' by (apply Hlt, list_elem_of_fmap; eauto).
  assert (str_eqb (entry_key e0) (entry_key e) = false) as ->.
  { apply bool_decide_eq_false. intros Heq. rewrite Heq in Hlt'.
    by apply (irreflexivity str_lt) in Hlt'. }
  rewrite (str_lt_le _ _ Hlt'), (app_assoc pre). apply IH; try done. simpl in Hfuel. lia.
Qed.

Lemma scan_absent fuel pre es post k :
  Forall entry_fits es → k ∉ map entry_key es →
  (∃ e, e ∈ es ∧ str_lt k (entry_key e)) → (length es <= fuel)%nat →
  scan fuel (mkFile (pre ++ data_bytes es ++ post) (len pre) []) k = Ok ([], false, false).
Proof.
  revert fuel pre. induction es as [|e0 es IH]; intros fuel pre Hfit Hk (e & He & Hlt) Hfuel.
  { by apply not_elem_of_nil in He. }
  apply Forall_cons in Hfit as [Hf Hfit]. simpl in Hk. apply not_elem_of_cons in Hk as [Hk0 Hk].
  destruct fuel as [|fuel]; [simpl in Hfuel; lia|].
  rewrite data_bytes_cons, <-app_assoc, scan_entry by done.
  assert (str_eqb (entry_key e0) k = false) as -> by (apply bool_decide_eq_false; congruence).
  destruct (str_ltb k (entry_key e0)) eqn:E; [done|].
  rewrite (app_assoc pre). apply IH; try done; [|simpl in Hfuel; lia].
  exists e. split; [|done]. apply elem_of_cons in He as [->|He]; [|done].
  unfold str_lt in Hlt. congruence.
Qed.

(** ** Build, open, look up *)

(** A table of the entries [es], written to a fresh file without faults: the
    contents of the finished file. *)
Definition build_table (Sum64 : bytes → Z) (keyCount : Z) (es : list sst_entry) : outcome bytes :=
  b ← NewBuilder (Ok (mkFile [] 0 [])) keyCount;
  let '(b1, r1) := builder_adds Sum64 b es in
  _ ← r1;
  let '(b2, r2) := builder_Close b1 in
  _ ← r2;
  Ok (f_data (b_File b2)).

Section lookup.
Context (Sum64 : bytes → Z) `{!KeyFilter Sum64}.

(** A reader over a finished table of [es]. *)
Record reader_inv (r : Reader) (es : list sst_entry) : Prop := {
  ri_data : ∃ rest, f_data (r_file r) = data_bytes es ++ rest ∧ f_faults (r_file r) = [];
  ri_filter : filter_holds Sum64 (r_filter r) (map entry_key es);
  ri_points : Forall (points_into es) (r_index r);
  ri_sub : map ie_key (r_index r) `sublist_of` map entry_key es;
  ri_first : ∀ e es', es = e :: es' → ∃ ix, r_index r = mkIndexEntry (entry_key e) 0 :: ix
}.

Lemma points_into_fits es ie :
  Forall entry_fits es → len (data_bytes es) < 2 ^ 63 → points_into es ie → index_fits ie.
Proof.
  intros Hfit Hlen (pre & e & post & -> & Hk & Ho).
  apply Forall_app in Hfit as [_ Hfit]. apply Forall_cons in Hfit as [[Hf _] _].
  rewrite data_bytes_app, len_app in Hlen. len_pose.
  split; [by rewrite Hk|]. rewrite Ho. split; [apply len_nonneg|].
  pose proof (len_nonneg (data_bytes (e :: post))). lia.
Qed.

(** Building always succeeds on a file without faults. *)
Lemma build_spec keyCount es :
  keyCount < 2 ^ 60 →
  ∃ b, builder_inv Sum64 b es ∧
    build_table Sum64 keyCount es =
      Ok (table_bytes (data_bytes es) (b_index b) (bloom_Bytes (b_filter b))).
Proof.
  intros Hc. unfold build_table.
  destruct (NewBuilder_inv Sum64 (mkFile [] 0 []) keyCount Hc eq_refl) as (b & -> & Hb).
  cbn [mbind outcome_bind].
  destruct (builder_adds_inv Sum64 b [] es Hb) as (b1 & -> & Hb1). simpl in Hb1.
  cbn [mbind outcome_bind].
  destruct (builder_Close_spec Sum64 b1 es Hb1) as (b2 & -> & Hd). cbn [mbind outcome_bind].
  exists b1. by rewrite Hd.
Qed.

Lemma build_open keyCount es :
  keyCount < 2 ^ 60 → Forall entry_fits es →
  ∃ T, build_table Sum64 keyCount es = Ok T ∧
    (len T < maxAlloc → ∃ r, OpenSSTable T = Ok r ∧ f_data (r_file r) = T ∧ reader_inv r es).
Proof.
  intros Hc Hfit. destruct (build_spec keyCount es Hc) as (b1 & Hb1 & ->).
  eexists. split; [done|]. intros Hlen.
  destruct Hb1 as [Ha Hdata Ho Hf Hp Hs Hfst].
  assert (Forall index_fits (b_index b1)) as Hix.
  { eapply Forall_impl; [done|]. intros ie. apply points_into_fits; [done|].
    rewrite table_bytes_len in Hlen. unfold maxAlloc in Hlen. len_pose. lia. }
  destruct (OpenSSTable_table _ _ _ Hix Hlen) as (p & ->). eexists. split; [done|].
  split; [done|]. split; simpl; try done.
  - unfold table_bytes. by eexists.
  - by rewrite (filter_load Sum64 _ _ Hf).
Qed.

Lemma data_bytes_count es : (length es <= length (data_bytes es))%nat.
Proof.
  induction es as [|e es IH]; [done|]. rewrite data_bytes_cons, length_app. simpl.
  pose proof (len_entry_bytes e). len_pose. unfold len in *. lia.
Qed.

Lemma index_gt_mono r es k x y :
  reader_inv r es → sorted_entries es → 0 <= x <= y → y < len (r_index r) →
  index_gt (r_index r) k x = true → index_gt (r_index r) k y = true.
Proof.
  intros [_ _ _ Hsub _] Hs Hxy Hy. unfold index_gt.
  destruct (r_index r !! Z.to_nat x) as [ex|] eqn:Ex; [|done].
  destruct (lookup_lt_is_Some_2 (r_index r) (Z.to_nat y)) as [ey Ey]; [unfold len in *; lia|].
  rewrite Ey. destruct (decide (x = y)) as [->|Hne]; [congruence|]. intros Hk.
  assert (str_lt (ie_key ex) (ie_key ey)) as Hlt.
  { eapply (StronglySorted_lookup str_lt (map ie_key (r_index r)) (Z.to_nat x) (Z.to_nat y)).
    - by eapply StronglySorted_sublist.
    - lia.
    - by rewrite list_lookup_fmap, Ex.
    - by rewrite list_lookup_fmap, Ey. }
  change (str_lt k (ie_key ey)). by transitivity (ie_key ex).
Qed.

(** The bisection lands on an index entry at or before any key that is not
    smaller than the first one. *)
Lemma search_block r es e0 es' k :
  reader_inv r es → sorted_entries es → es = e0 :: es' → str_le (entry_key e0) k →
  let idx := Search (len (r_index r)) (index_gt (r_index r) k) in
  idx ≠ 0 ∧ ∃ ie, index (r_index r) (idx - 1) = Ok ie ∧ str_le (ie_key ie) k ∧ points_into es ie.
Proof.
  intros Hinv Hs Hes Hle idx. pose proof Hinv as [_ _ Hp _ Hfst].
  destruct (Hfst e0 es' Hes) as [ix Hix].
  destruct (Search_spec (len (r_index r)) (index_gt (r_index r) k)) as (Hr & Hfalse & Htrue).
  { apply len_nonneg. }
  { intros x y. by apply (index_gt_mono r es). }
  fold idx in Hr, Hfalse, Htrue.
  assert (idx ≠ 0) as Hn.
  { intros H0. assert (index_gt (r_index r) k 0 = true) as Ht
      by (apply Htrue; rewrite Hix; len_lia).
    unfold index_gt in Ht. rewrite Hix in Ht. simpl in Ht.
    unfold str_le in Hle. congruence. }
  split; [done|]. clearbody idx.
  destruct (lookup_lt_is_Some_2 (r_index r) (Z.to_nat (idx - 1))) as [ie Hie]; [unfold len in *; lia|].
  exists ie. split; [by apply index_lookup; [lia|]|]. split.
  - specialize (Hfalse (idx - 1) ltac:(lia)). unfold index_gt in Hfalse. by rewrite Hie in Hfalse.
  - rewrite Forall_forall in Hp. apply Hp. by eapply list_elem_of_lookup_2.
Qed.

(** A lookup that passes the filter and is not below the first key is a scan
    of a tail of the entries that starts at or before the key. *)
Lemma reader_Get_scan r es e0 es' k :
  reader_inv r es → sorted_entries es → es = e0 :: es' → str_le (entry_key e0) k →
  MaybeContains Sum64 (r_filter r) k = Ok true →
  ∃ pre e post rest, es = pre ++ e :: post ∧ str_le (entry_key e) k ∧
    f_data (r_file r) = data_bytes es ++ rest ∧
    reader_Get Sum64 r k =
      scan (S (length (data_bytes es) + length rest))
        (mkFile (data_bytes pre ++ data_bytes (e :: post) ++ rest) (len (data_bytes pre)) []) k.
Proof.
  intros Hinv Hs Hes Hle Hm. unfold reader_Get. rewrite Hm. cbn [mbind outcome_bind negb].
  destruct (search_block r es e0 es' k Hinv Hs Hes Hle)
    as (Hn & ie & Hie & Hiek & (pre & e & post & Hsplit & Hkey & Hoff)).
  rewrite (proj2 (Z.eqb_neq _ _) Hn), Hie. cbn [mbind outcome_bind].
  rewrite SeekStart_ok by (rewrite Hoff; apply len_nonneg). cbn [mbind outcome_bind f_data].
  destruct Hinv as [(rest & Hdata & Hfaults) _ _ _ _].
  exists pre, e, post, rest. split; [done|]. split; [by rewrite <-Hkey|]. split; [done|].
  rewrite Hdata, Hfaults, Hoff, length_app.
  by rewrite Hsplit at 2; rewrite data_bytes_app, <-app_assoc.
Qed.

(** The fuel of [Get] is enough for the entries of a suffix. *)
Lemma scan_fuel es pre (e : sst_entry) post :
  es = pre ++ e :: post → (length (e :: post) <= length (data_bytes es))%nat.
Proof.
  intros ->. pose proof (data_bytes_count (pre ++ e :: post)) as H.
  rewrite length_app in H. simpl in *. lia.
Qed.

Lemma reader_Get_present r es e :
  reader_inv r es → sorted_entries es → Forall entry_fits es → e ∈ es →
  reader_Get Sum64 r (entry_key e) = Ok (entry_value e, entry_tomb e, true).
Proof.
  intros Hinv Hs Hfit He.
  assert (MaybeContains Sum64 (r_filter r) (entry_key e) = Ok true) as Hm.
  { destruct Hinv. eapply filter_member; [done|]. apply list_elem_of_fmap. eauto. }
  destruct es as [|e0 es'] eqn:Hes; [by apply not_elem_of_nil in He|].
  assert (∀ x l, sorted_entries (x :: l) → e ∈ x :: l → str_le (entry_key x) (entry_key e)) as Hle.
  { intros x l [Hx _]%StronglySorted_cons [->|Hl]%elem_of_cons; [reflexivity|].
    rewrite Forall_forall in Hx. apply str_lt_le, Hx, list_elem_of_fmap. eauto. }
  rewrite <-Hes in *.
  destruct (reader_Get_scan r es e0 es' (entry_key e) Hinv Hs Hes)
    as (pre & x & post & rest & Hsplit & Hx & _ & ->); [|done|].
  { apply (Hle e0 es'); by rewrite <-Hes. }
  pose proof (scan_fuel _ _ _ _ Hsplit) as Hfuel. clear Hes. rewrite Hsplit in Hfit, Hs, He. apply Forall_app in Hfit as [_ Hfit].
  unfold sorted_entries in Hs. rewrite map_app in Hs.
  apply StronglySorted_app in Hs as (Hcross & _ & Hs).
  apply scan_present; [done..| |lia]. apply elem_of_app in He as [He|He]; [|done].
  exfalso. assert (str_lt (entry_key e) (entry_key x)) as Hlt.
  { apply Hcross; [apply list_elem_of_fmap; eauto|simpl; apply elem_of_cons; auto]. }
  eapply (irreflexivity str_lt), str_le_lt_trans; done.
Qed.

Lemma reader_Get_absent r es k :
  reader_inv r es → sorted_entries es → Forall entry_fits es → k ∉ map entry_key es →
  es = [] ∨ (∃ e, e ∈ es ∧ str_lt k (entry_key e)) ∨ MaybeContains Sum64 (r_filter r) k = Ok false →
  reader_Get Sum64 r k = Ok ([], false, false).
Proof.
  intros Hinv Hs Hfit Hk Hcase. unfold reader_Get.
  destruct (filter_total Sum64 (r_filter r) (map entry_key es) k (ri_filter _ _ Hinv)) as [[] Hm];
    [|by rewrite Hm].
  destruct Hcase as [->|[(e & He & Hlt)|H]]; [| |congruence].
  { rewrite Hm. cbn [mbind outcome_bind negb]. destruct Hinv as [_ _ _ Hsub _].
    apply sublist_nil_r in Hsub. destruct (r_index r); [done|discriminate]. }
  destruct es as [|e0 es'] eqn:Hes; [by apply not_elem_of_nil in He|]. rewrite <-Hes in *.
  destruct (decide (str_le (entry_key e0) k)) as [Hle|Hgt].
  - destruct (reader_Get_scan r es e0 es' k Hinv Hs Hes Hle Hm)
      as (pre & x & post & rest & Hsplit & Hx & _ & Hget).
    unfold reader_Get in Hget. rewrite Hget. clear Hget.
    pose proof (scan_fuel _ _ _ _ Hsplit) as Hfuel. clear Hes. rewrite Hsplit in Hfit, Hs, He, Hk. apply Forall_app in Hfit as [_ Hfit].
    rewrite map_app, not_elem_of_app in Hk. destruct Hk as [_ Hk].
    apply scan_absent; [done|done| |lia]. exists e. split; [|done].
    apply elem_of_app in He as [He|He]; [|done].
    unfold sorted_entries in Hs. rewrite map_app in Hs.
    apply StronglySorted_app in Hs as (Hcross & _ & _).
    exfalso. assert (str_lt (entry_key e) (entry_key x)) as Hlt'.
    { apply Hcross; [apply list_elem_of_fmap; eauto|simpl; apply elem_of_cons; auto]. }
    eapply (irreflexivity str_lt), str_le_lt_trans; [done|]. by transitivity (entry_key e).
  - rewrite Hm. cbn [mbind outcome_bind negb].
    destruct (Search_spec (len (r_index r)) (index_gt (r_index r) k)) as (Hr & Hfalse & _).
    { apply len_nonneg. }
    { intros x y. by apply (index_gt_mono r es). }
    destruct (ri_first _ _ Hinv e0 es' Hes) as [ix Hix].
    destruct (Z.eqb_spec (Search (len (r_index r)) (index_gt (r_index r) k)) 0) as [|Hn]; [done|].
    specialize (Hfalse 0 ltac:(lia)). unfold index_gt in Hfalse. by rewrite Hix in Hfalse.
Qed.
End lookup.

(** ** Totality on arbitrary files *)

Lemma Read_no_panic f n : snd (Read f n) ≠ Panic.
Proof. unfold Read. destruct (n <=? 0); [done|]. by destruct (drop _ _). Qed.

Lemma Read_mono f n f' r :
  Read f n = (f', r) → 0 <= f_pos f → f_data f' = f_data f ∧ f_pos f <= f_pos f' ∧ r ≠ Panic.
Proof.
  intros E Hp. pose proof (Read_frame f n) as (H1 & _ & H3). pose proof (Read_no_panic f n).
  rewrite E in *. simpl in *. auto.
Qed.

Lemma scan_total fuel f k :
  0 <= f_pos f → len (f_data f) - f_pos f < Z.of_nat fuel → (0 < fuel)%nat → scan fuel f k ≠ Panic.
Proof.
  revert f. induction fuel as [|fuel IH]; intros f Hp Hf H0; [lia|]. cbn [scan].
  destruct (Read f 1) as [f1 h] eqn:E1.
  destruct h as [header|e|]; [|by destruct e|by apply Read_mono in E1 as (_ & _ & ?)].
  apply Read_progress in E1 as (Hp1 & Hd1 & _ & _); [|lia..].
  destruct (Read f1 6) as [f2 l] eqn:E2. apply Read_mono in E2 as (Hd2 & Hp2 & Hn2); [|lia].
  destruct l as [lb|e|]; cbn [mbind outcome_bind]; [|done..].
  destruct (Read f2 (le_get (take 2 lb))) as [f3 kb] eqn:E3.
  apply Read_mono in E3 as (Hd3 & Hp3 & Hn3); [|lia].
  destruct kb as [kb|e|]; cbn [mbind outcome_bind]; [|done..].
  assert (len (f_data f3) - f_pos f3 < Z.of_nat fuel) as Hfuel by (rewrite Hd3, Hd2, Hd1; lia).
  destruct (str_eqb kb k).
  - destruct (bool_decide _); [done|].
    destruct (Read f3 _) as [f4 vb] eqn:E4. apply Read_mono in E4 as (_ & _ & Hn4); [|lia].
    by destruct vb.
  - destruct (str_ltb k kb); [done|]. destruct (bool_decide _); [apply IH; lia|].
    pose proof (le_get_range (take 4 (drop 2 lb))).
    unfold SeekCurrent, seek_to. rewrite (proj2 (Z.ltb_ge _ _)) by lia. cbn [mbind outcome_bind].
    apply IH; simpl; lia.
Qed.

Lemma bloom_Load_wf data : data ≠ [] → len data < 2 ^ 60 → bloom_wf (bloom_Load data).
Proof.
  intros Hne Hlen. assert (0 < len data) by (destruct data; [done|len_lia]).
  unfold bloom_Load, bloom_wf; simpl. rewrite uwrap_small; lia.
Qed.

Lemma reader_Get_no_panic Sum64 r k :
  bloom_wf (r_filter r) → reader_Get Sum64 r k ≠ Panic.
Proof.
  intros Hwf. unfold reader_Get.
  destruct (MaybeContains_spec Sum64 (r_filter r) k Hwf) as (b & -> & _).
  cbn [mbind outcome_bind]. destruct b; [|done]. cbn [negb].
  unfold Search. set (g := index_gt (r_index r) k).
  destruct (search_loop_left (Z.to_nat (len (r_index r))) g 0 (len (r_index r))) as [Hr _];
    [split; [lia|apply len_nonneg]|by left|].
  cbv zeta in Hr |- *.
  generalize dependent (search_loop (Z.to_nat (len (r_index r))) g 0 (len (r_index r))).
  intros idx Hr. destruct (Z.eqb_spec idx 0) as [|Hn]; [done|].
  destruct (lookup_lt_is_Some_2 (r_index r) (Z.to_nat (idx - 1))) as [ie Hie];
    [unfold len in *; lia|].
  rewrite (proj2 (index_lookup _ (idx - 1) ie ltac:(lia)) Hie). cbn [mbind outcome_bind].
  unfold SeekStart, seek_to. destruct (Z.ltb_spec (ie_Offset ie) 0); [done|].
  cbn [mbind outcome_bind f_data]. apply scan_total; simpl; [done|unfold len; lia|lia].
Qed.

(** * Properties *)

(** C8. Write, open, look up: for entries in strictly increasing key order
    whose lengths fit their fields, building a table succeeds, opening the
    file succeeds, and [Get] of every stored key returns that key's value (or
    its tombstone), found. *)
Theorem sstable_get_present Sum64 keyCount es :
  keyCount < 2 ^ 60 → sorted_entries es → Forall entry_fits es →
  ∃ T, build_table Sum64 keyCount es = Ok T ∧
    (len T < maxAlloc →
     ∃ r, OpenSSTable T = Ok r ∧
       ∀ e, e ∈ es →
         reader_Get Sum64 r (entry_key e) = Ok (entry_value e, entry_tomb e, true)).
Proof.
  intros Hc Hs Hfit. destruct (build_open Sum64 keyCount es Hc Hfit) as (T & HT & Hopen).
  exists T. split; [done|]. intros Hlen. destruct (Hopen Hlen) as (r & Hr & _ & Hinv).
  exists r. split; [done|]. intros e. by eapply reader_Get_present.
Qed.

Definition demo_table : list sst_entry :=
  [([Byte.x61], [Byte.x31], false); ([Byte.x62], [], true); ([Byte.x63; Byte.x00], [Byte.x32], false)].

Lemma sstable_get_present_witness :
  ∃ T, build_table demo_hash 3 demo_table = Ok T ∧
    (len T < maxAlloc →
     ∃ r, OpenSSTable T = Ok r ∧
       ∀ e, e ∈ demo_table →
         reader_Get demo_hash r (entry_key e) = Ok (entry_value e, entry_tomb e, true)).
Proof.
  apply (sstable_get_present demo_hash 3 demo_table).
  - lia.
  - apply (bool_decide_unpack _). vm_compute. exact I.
  - repeat constructor.
Defined.

(** Keys that are not in the table: when the filter denies the key, or
    some stored key is greater, or the table is empty, [Get] answers "not
    found" without an error. *)
Theorem sstable_get_absent Sum64 keyCount es k :
  keyCount < 2 ^ 60 → sorted_entries es → Forall entry_fits es → k ∉ map entry_key es →
  ∃ T, build_table Sum64 keyCount es = Ok T ∧
    (len T < maxAlloc →
     ∃ r, OpenSSTable T = Ok r ∧
       (es = [] ∨ (∃ e, e ∈ es ∧ str_lt k (entry_key e)) ∨
          MaybeContains Sum64 (r_filter r) k = Ok false →
        reader_Get Sum64 r k = Ok ([], false, false))).
Proof.
  intros Hc Hs Hfit Hk. destruct (build_open Sum64 keyCount es Hc Hfit) as (T & HT & Hopen).
  exists T. split; [done|]. intros Hlen. destruct (Hopen Hlen) as (r & Hr & _ & Hinv).
  exists r. split; [done|]. by eapply reader_Get_absent.
Qed.

Lemma sstable_get_absent_witness :
  ∃ T, build_table demo_hash 3 demo_table = Ok T ∧
    (len T < maxAlloc →
     ∃ r, OpenSSTable T = Ok r ∧
       (demo_table = [] ∨ (∃ e, e ∈ demo_table ∧ str_lt [Byte.x62; Byte.x61] (entry_key e)) ∨
          MaybeContains demo_hash (r_filter r) [Byte.x62; Byte.x61] = Ok false →
        reader_Get demo_hash r [Byte.x62; Byte.x61] = Ok ([], false, false))).
Proof.
  apply (sstable_get_absent demo_hash 3 demo_table [Byte.x62; Byte.x61]).
  - lia.
  - apply (bool_decide_unpack _). vm_compute. exact I.
  - repeat constructor.
  - apply (bool_decide_unpack _). vm_compute. exact I.
Defined.

(** C36. Termination on any file: whatever bytes a table file holds, if it
    opens with a non-empty filter then [Get] of any key returns a result or
    an error: the scan ends and no index or allocation panics. *)
Theorem sstable_get_total Sum64 T r k :
  OpenSSTable T = Ok r → bitset (r_filter r) ≠ [] → len (bitset (r_filter r)) < 2 ^ 60 →
  (∃ x, reader_Get Sum64 r k = Ok x) ∨ (∃ e, reader_Get Sum64 r k = Err e).
Proof.
  intros Hopen Hne Hlen.
  assert (bloom_wf (r_filter r)) as Hwf.
  { assert (r_filter r = bloom_Load (bitset (r_filter r))) as ->; [|by apply bloom_Load_wf].
    revert Hopen. unfold OpenSSTable. destruct (_ <? _); [done|]. unfold mbind, outcome_bind.
    repeat case_match; by intros [= <-]. }
  pose proof (reader_Get_no_panic Sum64 r k Hwf). destruct (reader_Get Sum64 r k); eauto. done.
Qed.

Lemma sstable_get_total_witness :
  ∃ r, OpenSSTable (zeros 17) = Ok r ∧
    ((∃ x, reader_Get demo_hash r [] = Ok x) ∨ (∃ e, reader_Get demo_hash r [] = Err e)).
Proof.
  exists (mkReader (mkFile (zeros 17) 1 []) [] (bloom_Load (zeros 1))). split; [by_compute|].
  apply (sstable_get_total demo_hash (zeros 17)); by_compute.
Defined.

(** A file of 16 zero bytes passes all checks of [OpenSSTable], with an
    empty filter, and every [Get] on it panics (division by the filter's zero
    bit count). *)
Theorem sstable_empty_filter_panics Sum64 k :
  ∃ r, OpenSSTable (zeros 16) = Ok r ∧ reader_Get Sum64 r k = Panic.
Proof. eexists. split; [vm_compute; reflexivity|]. done. Qed.
