(* ===== verification/SSTIterator.v ===== *)
(** * sstable/iterator.go: reading a table from start to end

    [SSTableIterator] presents one entry at a time; [Next] decodes the next
    one from the file.  The theorems show that every entry written by a
    [Builder] is presented, in order, before anything else, that iteration
    ends on every file, and that it does not end with the data: the bytes of
    the index, filter and footer are decoded as further entries. *)

From stdpp Require Import base list sorting.
From Stdlib Require Import ZArith Lia.
From S2P Require Import Prelude GoFile Bloom SSTable SSTReader.

Record SSTableIterator := mkIterator {
  it_file : File;
  it_fileSize : Z;
  it_Key : bytes;
  it_Value : bytes;
  it_IsTombstone : bool;
  it_Valid : bool;
  it_err : option error
}.

Definition set_it_file (it : SSTableIterator) (f : File) : SSTableIterator :=
  mkIterator f (it_fileSize it) (it_Key it) (it_Value it) (it_IsTombstone it) (it_Valid it) (it_err it).
Definition set_it_Key (it : SSTableIterator) (k : bytes) : SSTableIterator :=
  mkIterator (it_file it) (it_fileSize it) k (it_Value it) (it_IsTombstone it) (it_Valid it) (it_err it).
Definition set_it_Value (it : SSTableIterator) (v : bytes) : SSTableIterator :=
  mkIterator (it_file it) (it_fileSize it) (it_Key it) v (it_IsTombstone it) (it_Valid it) (it_err it).
Definition set_it_Tomb (it : SSTableIterator) (t : bool) : SSTableIterator :=
  mkIterator (it_file it) (it_fileSize it) (it_Key it) (it_Value it) t (it_Valid it) (it_err it).
Definition invalidate (it : SSTableIterator) (e : option error) : SSTableIterator :=
  mkIterator (it_file it) (it_fileSize it) (it_Key it) (it_Value it) (it_IsTombstone it) false e.

(** [Next()]: the fields are assigned as the reads succeed, so a failing read
    leaves the earlier ones changed. *)
Definition Next (it : SSTableIterator) : SSTableIterator :=
  if negb (it_Valid it) then it
  else
    let '(f1, h) := Read (it_file it) 1 in
    let it := set_it_file it f1 in
    match h with
    | Err ErrEOF => invalidate it (it_err it)
    | Err e => invalidate it (Some e)
    | Panic => invalidate it (it_err it)
    | Ok header =>
        let it := set_it_Tomb it (bool_decide (header = [Byte.x01])) in
        let '(f2, l) := Read (it_file it) 6 in
        let it := set_it_file it f2 in
        match l with
        | Ok lenBuf =>
            let kLen := le_get (take 2 lenBuf) in
            let vLen := le_get (take 4 (drop 2 lenBuf)) in
            let '(f3, k) := Read (it_file it) kLen in
            let it := set_it_file it f3 in
            match k with
            | Ok keyBytes =>
                let it := set_it_Key it keyBytes in
                if it_IsTombstone it then set_it_Value it []
                else
                  let '(f4, v) := Read (it_file it) vLen in
                  let it := set_it_file it f4 in
                  match v with
                  | Ok valBytes => set_it_Value it valBytes
                  | _ => invalidate it (it_err it)
                  end
            | _ => invalidate it (it_err it)
            end
        | _ => invalidate it (it_err it)
        end
    end.

(** [opened] is the outcome of [os.Open(filename)]: the file's contents. *)
Definition NewIterator (opened : outcome bytes) : outcome SSTableIterator :=
  data ← opened;
  Ok (Next (mkIterator (open_at_start data []) (len data) [] [] false true None)).

(** The entry an iterator presents. *)
Definition it_entry (it : SSTableIterator) : sst_entry := (it_Key it, it_Value it, it_IsTombstone it).

(** The entries presented from now on, at most [fuel] of them. *)
Fixpoint drain (fuel : nat) (it : SSTableIterator) : list sst_entry :=
  match fuel with
  | O => []
  | S fuel' => if it_Valid it then it_entry it :: drain fuel' (Next it) else []
  end.

(** * Lemmas *)

(** The cursor is inside the file. *)
Definition it_wf (it : SSTableIterator) : Prop :=
  0 <= f_pos (it_file it) <= len (f_data (it_file it)).

(** Rounds left: an upper bound on the entries still to come. *)
Definition it_measure (it : SSTableIterator) : nat :=
  if it_Valid it
  then S (Z.to_nat (len (f_data (it_file it)) - f_pos (it_file it)))
  else 0.

Lemma Read_wf f n f' r :
  Read f n = (f', r) → 0 <= f_pos f <= len (f_data f) →
  f_data f' = f_data f ∧ f_pos f <= f_pos f' <= len (f_data f).
Proof.
  unfold Read. intros E Hp. destruct (n <=? 0); [simplify_eq; split; [done|lia]|].
  destruct (drop _ _) as [|b rest] eqn:Ed; simplify_eq/=; [split; [done|lia]|]. split; [done|].
  apply (f_equal length) in Ed. rewrite length_drop in Ed.
  unfold len in *. rewrite length_take. simpl length in *. lia.
Qed.

(** [Next] keeps the invariant, and each round that stays valid moves on. *)
Lemma Next_spec it :
  it_wf it → it_wf (Next it) ∧ f_data (it_file (Next it)) = f_data (it_file it) ∧
  (it_Valid it = true → (it_measure (Next it) < it_measure it)%nat).
Proof.
  intros Hwf. unfold Next. destruct (it_Valid it) eqn:Hv; [|done]. cbn [negb].
  destruct (Read (it_file it) 1) as [f1 h] eqn:E1.
  pose proof (Read_wf _ _ _ _ E1 Hwf) as [Hd1 Hp1]. unfold it_wf in *.
  destruct h as [header|e|].
  2: { destruct e; unfold it_measure; simpl; rewrite Hd1, Hv; repeat split; intros; done || lia. }
  2: { unfold it_measure; simpl; rewrite Hd1, Hv; repeat split; intros; done || lia. }
  apply Read_progress in E1 as (Hpr & _ & _); [|lia..]. cbn [it_file set_it_Tomb set_it_file].
  destruct (Read f1 6) as [f2 l] eqn:E2. apply Read_wf in E2 as [Hd2 Hp2]; [|rewrite Hd1; lia].
  rewrite Hd1 in Hd2, Hp2.
  destruct l as [lb|e|]; [|unfold it_measure; simpl; rewrite Hd2, Hv; repeat split; intros; done || lia..].
  cbn [it_file set_it_file].
  destruct (Read f2 _) as [f3 k] eqn:E3. apply Read_wf in E3 as [Hd3 Hp3]; [|rewrite Hd2; lia].
  rewrite Hd2 in Hd3, Hp3.
  destruct k as [kb|e|]; [|unfold it_measure; simpl; rewrite Hd3, Hv; repeat split; intros; done || lia..].
  cbn [it_file set_it_file set_it_Key it_IsTombstone set_it_Tomb].
  destruct (bool_decide _); [unfold it_measure; simpl; rewrite Hd3, Hv; repeat split; intros; done || lia|].
  destruct (Read f3 _) as [f4 v] eqn:E4. apply Read_wf in E4 as [Hd4 Hp4]; [|rewrite Hd3; lia].
  rewrite Hd3 in Hd4, Hp4.
  destruct v as [vb|e|]; unfold it_measure; simpl; rewrite Hd4, Hv; repeat split; intros; done || lia.
Qed.

(** All entries to come: the fuel of [drain] is enough. *)
Definition stream (it : SSTableIterator) : list sst_entry := drain (it_measure it) it.

Lemma drain_stream fuel it : it_wf it → (it_measure it <= fuel)%nat → drain fuel it = stream it.
Proof.
  unfold stream. intros Hwf Hm.
  assert (∀ n m it, it_wf it → (it_measure it <= n)%nat → (it_measure it <= m)%nat →
            drain n it = drain m it) as H; [|by apply H].
  clear. induction n as [|n IH]; intros m it Hwf Hn Hm; [|destruct m as [|m]]; simpl.
  - destruct m; [done|]. simpl. unfold it_measure in Hn. by destruct (it_Valid it); [lia|].
  - unfold it_measure in Hm. by destruct (it_Valid it); [lia|].
  - destruct (it_Valid it) eqn:Hv; [|done]. f_equal.
    destruct (Next_spec it Hwf) as (Hwf' & _ & Hlt). specialize (Hlt Hv).
    apply IH; [done|lia..].
Qed.

Lemma stream_valid it :
  it_wf it → it_Valid it = true → stream it = it_entry it :: stream (Next it).
Proof.
  intros Hwf Hv. destruct (Next_spec it Hwf) as (Hwf' & _ & Hlt). specialize (Hlt Hv).
  unfold stream at 1. destruct (it_measure it) as [|m] eqn:Hm; [lia|].
  simpl. rewrite Hv. f_equal. apply drain_stream; [done|lia].
Qed.

Lemma stream_invalid it : it_Valid it = false → stream it = [].
Proof. intros Hv. unfold stream, it_measure. by rewrite Hv. Qed.

(** What the iterator presents for an entry: a tombstone has no value. *)
Definition presented (e : sst_entry) : sst_entry := (entry_key e, entry_value e, entry_tomb e).

(** One round over a stored entry. *)
Lemma Next_entry it pre e post :
  entry_fits e → it_Valid it = true →
  it_file it = mkFile (pre ++ entry_bytes e ++ post) (len pre) [] →
  Next it = mkIterator (mkFile (pre ++ entry_bytes e ++ post) (len (pre ++ entry_bytes e)) [])
    (it_fileSize it) (entry_key e) (entry_value e) (entry_tomb e) true (it_err it).
Proof.
  intros Hfit Hv Hf. destruct (read_entry pre e post) as (R1 & R2 & R3 & R4 & Hend).
  destruct (entry_lens_get e Hfit) as [Lk Lv].
  unfold Next. rewrite Hv, Hf, R1. cbn [negb it_file set_it_file set_it_Tomb].
  rewrite R2. cbn [it_file set_it_file]. rewrite Lk, Lv, R3, entry_header_tomb.
  cbn [it_file set_it_file set_it_Key set_it_Tomb it_IsTombstone it_Valid]. rewrite <-Hend.
  destruct (entry_tomb e) eqn:Et.
  - assert (entry_value e = []) as -> by (by destruct e as [[k v] []]).
    rewrite len_nil, Z.add_0_r. unfold set_it_Value, set_it_Key, set_it_file, set_it_Tomb.
    cbn. by rewrite Hv.
  - rewrite R4. unfold set_it_Value, set_it_Key, set_it_file, set_it_Tomb. cbn. by rewrite Hv.
Qed.

(** From a cursor in front of stored entries, [Next] leads through all of
    them, then on from the first byte after them. *)
Lemma stream_entries it pre es post :
  Forall entry_fits es → it_Valid it = true →
  it_file it = mkFile (pre ++ data_bytes es ++ post) (len pre) [] →
  ∃ it', it_Valid it' = true ∧
    it_file it' = mkFile (pre ++ data_bytes es ++ post) (len (pre ++ data_bytes es)) [] ∧
    stream (Next it) = map presented es ++ stream (Next it').
Proof.
  revert it pre. induction es as [|e es IH]; intros it pre Hfit Hv Hf.
  - exists it. rewrite data_bytes_nil, app_nil_r in *. done.
  - apply Forall_cons in Hfit as [He Hfit]. rewrite data_bytes_cons, <-app_assoc in *.
    rewrite (Next_entry it pre e (data_bytes es ++ post)) by done.
    destruct (IH (mkIterator (mkFile (pre ++ entry_bytes e ++ data_bytes es ++ post)
      (len (pre ++ entry_bytes e)) []) (it_fileSize it) (entry_key e) (entry_value e)
      (entry_tomb e) true (it_err it)) (pre ++ entry_bytes e)) as (it' & H1 & H2 & H3);
      [done..|by rewrite <-app_assoc|].
    exists it'. rewrite <-!app_assoc in *. split; [done|]. split; [done|].
    rewrite stream_valid; [|unfold it_wf; cbn [f_pos f_data it_file]; len_lia|done].
    rewrite H3. done.
Qed.

Lemma NewIterator_stream es rest :
  Forall entry_fits es →
  ∃ it extra, NewIterator (Ok (data_bytes es ++ rest)) = Ok it ∧ it_wf it ∧
    stream it = map presented es ++ extra.
Proof.
  intros Hfit. unfold NewIterator. cbn [mbind outcome_bind].
  set (it0 := mkIterator _ _ _ _ _ _ _).
  destruct (stream_entries it0 [] es rest) as (it' & _ & _ & Hs); [done..|].
  exists (Next it0), (stream (Next it')). split; [done|]. split; [|done].
  apply Next_spec. unfold it_wf, it0; simpl. len_lia.
Qed.

(** What follows the data stops the iterator: decoded as an entry it has a
    header other than the tombstone's, a key at least as long as the rest of
    the file, and a non-empty value. *)
Definition ends_at (rest : bytes) : bool :=
  negb (bool_decide (take 1 rest = [Byte.x01])) &&
  (len rest - 7 <=? le_get (take 2 (drop 1 rest))) && (0 <? le_get (take 4 (drop 3 rest))).

Lemma Read_rest pre rest fs n :
  rest ≠ [] → 0 < n →
  ∃ bs, Read (mkFile (pre ++ rest) (len pre) fs) n =
    (mkFile (pre ++ rest) (len pre + Z.min n (len rest)) fs, Ok bs).
Proof.
  intros Hr Hn. unfold Read. cbn [f_pos f_data f_faults].
  rewrite (proj2 (Z.leb_gt _ _)), to_nat_len, drop_app_length by lia.
  destruct rest as [|b rest]; [done|]. eexists. do 2 f_equal. f_equal. rewrite len_take. lia.
Qed.

Lemma ends_at_split h lens tail :
  length lens = 6%nat →
  ends_at (h :: lens ++ tail) =
    negb (bool_decide ([h] = [Byte.x01])) && (len tail <=? le_get (take 2 lens)) &&
    (0 <? le_get (take 4 (drop 2 lens))).
Proof.
  intros Hl. unfold ends_at. change (take 1 (h :: lens ++ tail)) with [h].
  change (drop 1 (h :: lens ++ tail)) with (lens ++ tail).
  change (drop 3 (h :: lens ++ tail)) with (drop 2 (lens ++ tail)).
  rewrite take_app_le, drop_app_le, take_app_le by (rewrite ?length_drop; lia).
  replace (len (h :: lens ++ tail) - 7) with (len tail); [done|].
  rewrite len_cons, len_app. unfold len. lia.
Qed.

(** The round after the data. *)
Lemma Next_tail it pre rest :
  8 <= len rest → it_Valid it = true → it_file it = mkFile (pre ++ rest) (len pre) [] →
  it_Valid (Next it) = negb (ends_at rest).
Proof.
  intros Hlen Hv Hf.
  destruct rest as [|h rest]; [by vm_compute in Hlen|]. rewrite len_cons in Hlen.
  rewrite <-(take_drop 6 rest). set (lens := take 6 rest). set (tail := drop 6 rest).
  assert (length lens = 6%nat) as Hl by (unfold lens; rewrite length_take; unfold len in *; lia).
  assert (tail ≠ []) as Ht.
  { intros Ht. apply (f_equal length) in Ht. unfold tail in Ht. rewrite length_drop in Ht.
    unfold len in *. simpl in Ht. lia. }
  rewrite ends_at_split by done. unfold Next. rewrite Hv, Hf. cbn [negb].
  rewrite <-(take_drop 6 rest). fold lens tail.
  rewrite (Read_mid pre [h] (lens ++ tail)) by done. cbn [it_file set_it_file set_it_Tomb].
  rewrite (app_assoc pre), <-len_app.
  rewrite Read_mid by (unfold len; lia). cbn [it_file set_it_file].
  rewrite (app_assoc _ lens), <-len_app. set (P := (pre ++ [h]) ++ lens).
  pose proof (le_get_range (take 2 lens)) as [Hk _]. pose proof (le_get_range (take 4 (drop 2 lens))) as [Hvl _].
  destruct (Z.eq_dec (le_get (take 2 lens)) 0) as [H0|H0].
  - assert (Read (mkFile (P ++ tail) (len P) []) (le_get (take 2 lens)) = (mkFile (P ++ tail) (len P) [], Ok []))
      as -> by (by rewrite H0).
    rewrite H0. rewrite (proj2 (Z.leb_gt (len tail) 0)) by (destruct tail; [done|len_lia]).
    rewrite andb_false_r. cbn [andb negb set_it_Key it_IsTombstone set_it_file set_it_Tomb it_file].
    destruct (bool_decide _); [done|].
    destruct (Z.eq_dec (le_get (take 4 (drop 2 lens))) 0) as [->|Hv0]; [done|].
    destruct (Read_rest P tail [] (le_get (take 4 (drop 2 lens)))) as [bs ->]; [done|lia|]. done.
  - destruct (Read_rest P tail [] (le_get (take 2 lens))) as [kb ->]; [done|lia|].
    cbn [negb set_it_Key it_IsTombstone set_it_file set_it_Tomb it_file].
    destruct (bool_decide _); [done|]. cbn [negb andb].
    destruct (Z.eq_dec (le_get (take 4 (drop 2 lens))) 0) as [->|Hv0].
    { rewrite andb_false_r. done. }
    rewrite (proj2 (Z.ltb_lt 0 (le_get (take 4 (drop 2 lens))))) by lia. rewrite andb_true_r.
    destruct (Z.leb_spec (len tail) (le_get (take 2 lens))) as [Hle|Hgt].
    + rewrite Z.min_r, Read_eof by len_lia. done.
    + rewrite Z.min_l by lia. unfold Read. rewrite (proj2 (Z.leb_gt _ _)) by lia.
      destruct (drop (Z.to_nat _) _) eqn:E; [|done]. apply (f_equal length) in E.
      rewrite length_drop in E. cbn [f_pos f_data length] in E. rewrite length_app in E.
      unfold len in *. lia.
Qed.

(** A file whose iteration presents exactly the entries [es]. *)
Definition clean_table (T : bytes) (es : list sst_entry) : Prop :=
  ∃ rest, T = data_bytes es ++ rest ∧ 8 <= len rest ∧ ends_at rest = true.

Lemma NewIterator_tail es rest :
  Forall entry_fits es → 8 <= len rest →
  ∃ it, NewIterator (Ok (data_bytes es ++ rest)) = Ok it ∧ it_wf it ∧
    if ends_at rest then stream it = map presented es
    else ∃ e extra, stream it = map presented es ++ e :: extra.
Proof.
  intros Hfit Hr. unfold NewIterator. cbn [mbind outcome_bind].
  set (it0 := mkIterator _ _ _ _ _ _ _).
  destruct (stream_entries it0 [] es rest) as (it' & Hv & Hf & Hs); [done..|].
  exists (Next it0). split; [done|].
  split; [apply Next_spec; unfold it_wf, it0; simpl; len_lia|].
  assert (it_wf it') as Hwf by (unfold it_wf; rewrite Hf; simpl; len_lia).
  pose proof (Next_tail it' (data_bytes es) rest Hr Hv Hf) as Hn.
  rewrite Hs. destruct (ends_at rest).
  - by rewrite stream_invalid, app_nil_r.
  - rewrite (stream_valid (Next it')); [eauto| |done]. by apply Next_spec.
Qed.

Lemma clean_table_iterator T es :
  clean_table T es → Forall entry_fits es →
  ∃ it, NewIterator (Ok T) = Ok it ∧ it_wf it ∧ stream it = map presented es.
Proof.
  intros (rest & -> & Hr & He) Hfit.
  destruct (NewIterator_tail es rest Hfit Hr) as (it & ? & ? & Hs). rewrite He in Hs. eauto.
Qed.

(** * Properties *)

(** C23. Completeness and order: iterating over a table written by a
    [Builder] from entries with keys below 64 KiB and values below 4 GiB
    ([entry_fits]; longer ones are truncated in the length fields) presents
    every entry that was added, in the order they were added, values and
    tombstones intact.  What comes after them is decided by the bytes behind
    the data: nothing when they satisfy [ends_at], and otherwise at least one
    further entry decoded from the index, the filter and the footer. *)
Theorem iterator_presents_table Sum64 keyCount es :
  keyCount < 2 ^ 60 → Forall entry_fits es →
  ∃ T rest it, build_table Sum64 keyCount es = Ok T ∧ T = data_bytes es ++ rest ∧
    NewIterator (Ok T) = Ok it ∧
    if ends_at rest then stream it = map presented es
    else ∃ e extra, stream it = map presented es ++ e :: extra.
Proof.
  intros Hc Hfit. destruct (build_spec Sum64 keyCount es Hc) as (b & _ & ->).
  set (rest := index_bytes (b_index b) ++ bloom_Bytes (b_filter b) ++
    footer_bytes (len (data_bytes es)) (len (data_bytes es) + len (index_bytes (b_index b)))).
  destruct (NewIterator_tail es rest Hfit) as (it & Hit & _ & Hs).
  { unfold rest, footer_bytes. len_lia. }
  by exists (table_bytes (data_bytes es) (b_index b) (bloom_Bytes (b_filter b))), rest, it.
Qed.

Lemma iterator_presents_table_witness :
  ∃ T rest it, build_table demo_hash 3 demo_table = Ok T ∧ T = data_bytes demo_table ++ rest ∧
    NewIterator (Ok T) = Ok it ∧
    if ends_at rest then stream it = map presented demo_table
    else ∃ e extra, stream it = map presented demo_table ++ e :: extra.
Proof.
  apply (iterator_presents_table demo_hash 3 demo_table); [lia|repeat constructor].
Defined.

(** Termination: on a file with any contents, iteration presents at most
    one entry per byte and one more, so [for it.Valid { it.Next() }] ends:
    after [fuel] rounds, for any [fuel] above the file size, nothing new is
    presented. *)
Theorem iterator_terminates data it fuel :
  NewIterator (Ok data) = Ok it → (length data < fuel)%nat →
  drain fuel it = stream it ∧ (length (stream it) <= S (length data))%nat.
Proof.
  intros Hit Hfuel. unfold NewIterator in Hit. cbn [mbind outcome_bind] in Hit. simplify_eq.
  set (it0 := mkIterator _ _ _ _ _ _ _).
  destruct (Next_spec it0) as (Hwf & Hd & Hlt); [unfold it_wf, it0; simpl; len_lia|].
  specialize (Hlt eq_refl). unfold it_measure at 2 in Hlt. simpl in Hlt.
  rewrite Z.sub_0_r, to_nat_len in Hlt.
  split; [apply drain_stream; [done|lia]|]. unfold stream.
  assert (∀ n i, (length (drain n i) <= n)%nat) as Hl.
  { induction n as [|n IH]; intros i; simpl; [lia|]. destruct (it_Valid i); simpl; [|lia].
    specialize (IH (Next i)). lia. }
  specialize (Hl (it_measure (Next it0)) (Next it0)). lia.
Qed.

Lemma iterator_terminates_witness :
  ∃ it, NewIterator (Ok (zeros 20)) = Ok it ∧
    drain 100 it = stream it ∧ (length (stream it) <= 21)%nat.
Proof.
  eexists. split; [reflexivity|]. apply (iterator_terminates (zeros 20)); [reflexivity|vm_compute; lia].
Defined.

(** The iterator does not know where the data ends: after the last entry
    of a well-formed table it decodes the index, filter and footer as further
    entries, so a table holding three entries presents more than three. *)
Theorem iterator_overruns_data :
  ∃ T it e extra, build_table demo_hash 3 demo_table = Ok T ∧ NewIterator (Ok T) = Ok it ∧
    stream it = map presented demo_table ++ e :: extra.
Proof.
  set (n := match build_table demo_hash 3 demo_table ≫= (λ T, NewIterator (Ok T)) with
            | Ok it => length (stream it) | _ => 0%nat end).
  assert (n = 4%nat) as Hn by (vm_compute; reflexivity).
  destruct (build_spec demo_hash 3 demo_table ltac:(lia)) as (b & _ & HT).
  edestruct (NewIterator_stream demo_table) as (it & extra & Hit & _ & Hs);
    [repeat constructor|]. unfold table_bytes in HT.
  unfold n in Hn. rewrite HT in Hn. cbn [mbind outcome_bind] in Hn. rewrite Hit, Hs in Hn.
  destruct extra as [|e extra]; [rewrite app_nil_r, length_map in Hn; discriminate Hn|].
  clear n Hn. eexists _, it, e, extra. split; [exact HT|]. split; [exact Hit|exact Hs].
Qed.
