(* ===== verification/SSTClean.v ===== *)
(** * Tables whose data is recognisably finite

    Neither the iterator nor the reader of package sstable knows where the
    data of a table ends.  [clean_table] (SSTIterator.v) says that the bytes
    behind the data stop both of them.  This file shows that lookups in a
    clean table are exact for every key shorter than the key those bytes
    decode to, and gives a size condition under which a table is clean. *)

From stdpp Require Import base list sorting.
From Stdlib Require Import ZArith Lia.
From S2P Require Import Prelude GoFile Bloom SSTable SSTReader SSTIterator.

(** The key length the bytes behind the data decode to. *)
Definition tail_klen (rest : bytes) : Z := le_get (take 2 (drop 1 rest)).

Definition find_entry (s : list sst_entry) (k : bytes) : option sst_entry :=
  snd <$> list_find (λ e, entry_key e = k) s.

(** What [Get] should return for a key of a table of [es]. *)
Definition answer (es : list sst_entry) (k : bytes) : bytes * bool * bool :=
  match find_entry es k with
  | Some e => (entry_value e, entry_tomb e, true)
  | None => ([], false, false)
  end.

Lemma tail_split rest :
  8 <= len rest →
  ∃ h lens tail, rest = h :: lens ++ tail ∧ length lens = 6%nat ∧ tail ≠ [] ∧
    tail_klen rest = le_get (take 2 lens).
Proof.
  intros Hlen. destruct rest as [|h rest]; [by vm_compute in Hlen|]. rewrite len_cons in Hlen.
  assert (length (take 6 rest) = 6%nat) as Hl by (rewrite length_take; unfold len in *; lia).
  exists h, (take 6 rest), (drop 6 rest). rewrite take_drop. split_and!; [done|done| |].
  - intros Ht. apply (f_equal length) in Ht. rewrite length_drop in Ht. unfold len in *. simpl in Ht. lia.
  - unfold tail_klen. change (drop 1 (h :: rest)) with rest. by rewrite take_take.
Qed.

(** The scan of a block that runs into the bytes behind the data. *)
Lemma scan_tail fuel pre rest k :
  8 <= len rest → ends_at rest = true → len k < tail_klen rest →
  scan (S (S fuel)) (mkFile (pre ++ rest) (len pre) []) k = Ok ([], false, false).
Proof.
  intros Hlen Hend Hk. destruct (tail_split rest Hlen) as (h & lens & tail & -> & Hl & Ht & Hkl).
  rewrite Hkl in Hk. rewrite ends_at_split in Hend by done.
  apply andb_true_iff in Hend as [[Hh Hkb%Z.leb_le]%andb_true_iff Hv%Z.ltb_lt].
  apply negb_true_iff in Hh. len_pose.
  change (h :: lens ++ tail) with ([h] ++ lens ++ tail). cbn [scan].
  rewrite (Read_mid pre [h]) by done. rewrite (app_assoc pre), <-len_app.
  rewrite (Read_mid (pre ++ [h]) lens) by (unfold len; lia). rewrite (app_assoc _ lens), <-len_app.
  cbn [mbind outcome_bind]. set (P := (pre ++ [h]) ++ lens).
  assert (0 < len tail) as Htl by (destruct tail; [done|len_lia]).
  destruct (Read (mkFile (P ++ tail) (len P) []) (le_get (take 2 lens))) as [f3 kb] eqn:E3.
  destruct (Read_rest P tail [] (le_get (take 2 lens)) Ht ltac:(lia)) as [bs Hbs].
  rewrite Hbs in E3. injection E3 as <- <-.
  apply Read_progress in Hbs as (_ & _ & _ & Hlb); [|lia|simpl; len_lia].
  cbn [mbind outcome_bind]. rewrite Z.min_r by lia.
  assert (str_eqb bs k = false) as ->.
  { apply bool_decide_eq_false. intros ->. lia. }
  destruct (str_ltb k bs); [done|]. rewrite Hh.
  unfold SeekCurrent, seek_to. cbn [f_pos f_data f_faults].
  rewrite (proj2 (Z.ltb_ge _ _)) by (len_pose; lia). cbn [mbind outcome_bind].
  by rewrite Read_eof by len_lia.
Qed.

Lemma scan_absent_clean fuel pre es rest k :
  Forall entry_fits es → k ∉ map entry_key es → (length es + 2 <= fuel)%nat →
  8 <= len rest → ends_at rest = true → len k < tail_klen rest →
  scan fuel (mkFile (pre ++ data_bytes es ++ rest) (len pre) []) k = Ok ([], false, false).
Proof.
  intros Hfit Hk Hfuel Hlen Hend Hkl. revert fuel pre Hfuel.
  induction es as [|e es IH]; intros fuel pre Hfuel.
  - destruct fuel as [|[|fuel]]; [simpl in Hfuel; lia..|]. by apply scan_tail.
  - destruct fuel as [|fuel]; [simpl in Hfuel; lia|]. apply Forall_cons in Hfit as [He Hfit].
    simpl in Hk. apply not_elem_of_cons in Hk as [Hne Hk].
    rewrite data_bytes_cons, <-app_assoc, scan_entry by done.
    assert (str_eqb (entry_key e) k = false) as -> by (by apply bool_decide_eq_false).
    destruct (str_ltb k (entry_key e)); [done|]. rewrite app_assoc.
    apply IH; [done|done|simpl in *; lia].
Qed.

(** ** Looking an entry up in a list of entries *)

Lemma find_entry_nil k : find_entry [] k = None.
Proof. done. Qed.

Lemma find_entry_cons e s k :
  find_entry (e :: s) k = if decide (entry_key e = k) then Some e else find_entry s k.
Proof.
  unfold find_entry. cbn [list_find]. destruct (decide (entry_key e = k)); [done|].
  destruct (list_find _ s) as [[i x]|]; done.
Qed.

Lemma find_entry_Some s k e : find_entry s k = Some e → e ∈ s ∧ entry_key e = k.
Proof.
  unfold find_entry. rewrite fmap_Some. intros ([i x] & (Hi & Hk & _)%list_find_Some & ->).
  split; [by eapply list_elem_of_lookup_2|done].
Qed.

Lemma find_entry_None s k : find_entry s k = None ↔ k ∉ map entry_key s.
Proof.
  unfold find_entry. rewrite fmap_None, list_find_None, Forall_forall, list_elem_of_fmap.
  naive_solver.
Qed.

(** In a sorted list an entry is found under its key. *)
Lemma find_entry_sorted s e : sorted_entries s → e ∈ s → find_entry s (entry_key e) = Some e.
Proof.
  intros Hs. induction s as [|x s IH]; intros He; [by apply not_elem_of_nil in He|].
  unfold sorted_entries in Hs. apply StronglySorted_cons in Hs as [Hx Hs]. rewrite find_entry_cons.
  apply elem_of_cons in He as [->|He]; [by rewrite decide_True|].
  rewrite Forall_forall in Hx.
  assert (str_lt (entry_key x) (entry_key e)) as Hlt by (apply Hx, list_elem_of_fmap; eauto).
  rewrite decide_False; [by apply IH|]. intros Heq. rewrite Heq in Hlt. by apply (irreflexivity str_lt) in Hlt.
Qed.

(** ** Exact lookups *)

Section exact.
Context (Sum64 : bytes → Z) `{!KeyFilter Sum64}.

Lemma reader_Get_clean r es rest k :
  reader_inv Sum64 r es → sorted_entries es → Forall entry_fits es →
  f_data (r_file r) = data_bytes es ++ rest →
  8 <= len rest → ends_at rest = true → len k < tail_klen rest →
  reader_Get Sum64 r k = Ok (answer es k).
Proof.
  intros Hinv Hs Hfit Hd Hlen Hend Hkl. unfold answer.
  destruct (find_entry es k) as [e|] eqn:Ef.
  { apply find_entry_Some in Ef as [Hin <-]. by eapply reader_Get_present. }
  apply find_entry_None in Ef.
  destruct (filter_total Sum64 (r_filter r) (map entry_key es) k (ri_filter _ _ _ Hinv)) as [[] Hm];
    [|by eapply reader_Get_absent; eauto].
  destruct es as [|e0 es'] eqn:Hes; [by eapply reader_Get_absent; eauto|]. rewrite <-Hes in *.
  destruct (decide (str_le (entry_key e0) k)) as [Hle|Hgt].
  - destruct (reader_Get_scan Sum64 r es e0 es' k Hinv Hs Hes Hle Hm)
      as (pre & x & post & rest' & Hsplit & Hx & Hd' & ->).
    rewrite Hd in Hd'. apply app_inv_head in Hd' as <-.
    pose proof (scan_fuel _ _ _ _ Hsplit). clear Hes. rewrite Hsplit in Hfit, Ef.
    apply Forall_app in Hfit as [_ Hfit]. rewrite map_app, not_elem_of_app in Ef.
    apply scan_absent_clean; try done; [by destruct Ef|]. unfold len in Hlen. simpl in *. lia.
  - eapply reader_Get_absent; try done. right. left. exists e0. rewrite Hes.
    split; [apply elem_of_cons; auto|].
    destruct (trichotomyT str_lt (entry_key e0) k) as [[Hlt|Heq]|Hlt]; [| |done]; destruct Hgt.
    + by apply str_lt_le.
    + by rewrite Heq.
Qed.

(** A table written from sorted entries, when clean, answers every lookup of
    a key shorter than [tail_klen] exactly. *)
Lemma build_clean_get keyCount es T rest :
  keyCount < 2 ^ 60 → sorted_entries es → Forall entry_fits es →
  build_table Sum64 keyCount es = Ok T → T = data_bytes es ++ rest → len T < maxAlloc →
  8 <= len rest → ends_at rest = true →
  ∃ r, OpenSSTable T = Ok r ∧
    ∀ k, len k < tail_klen rest → reader_Get Sum64 r k = Ok (answer es k).
Proof.
  intros Hc Hs Hfit HT Hrest Hlen Hr Hend.
  destruct (build_open Sum64 keyCount es Hc Hfit) as (T' & HT' & Hopen).
  assert (T' = T) as -> by congruence. destruct (Hopen Hlen) as (r & Hor & Hdata & Hinv).
  exists r. split; [done|]. intros k Hk.
  eapply reader_Get_clean; try done. by rewrite Hdata.
Qed.
End exact.

(** A size condition: the first key starts with bytes [c], [c1 <> 0] and has
    fewer than 256 bytes, and index, filter and footer together have at most
    [256 * c + 7] bytes. *)
Lemma index_tail_clean c c1 k' off ix filter footer :
  let key := c :: c1 :: k' in
  let rest := index_bytes (mkIndexEntry key off :: ix) ++ filter ++ footer in
  len key < 256 → c1 ≠ Byte.x00 → len rest <= 256 * byte_to_Z c + 7 →
  ends_at rest = true ∧ tail_klen rest = 256 * byte_to_Z c.
Proof.
  intros key rest Hk Hc1 Hlen. len_pose.
  assert (2 <= len key) as Hk2 by (unfold key; len_lia).
  set (z := len key) in *.
  assert (∃ r, rest = byte_of_Z z :: Byte.x00 :: c :: c1 :: r ∧ 3 <= len r) as (r & Hr & Hr3).
  { exists (k' ++ le_put 8 (u64 off) ++ index_bytes ix ++ filter ++ footer). split; [|len_lia].
    unfold rest, index_bytes. cbn [map concat]. unfold index_entry_bytes. cbn [ie_key ie_Offset].
    fold z. rewrite (uwrap_small 16 z), le_put_2, (Z.div_small z 256) by lia.
    unfold key. by rewrite <-!app_assoc. }
  assert (byte_of_Z z ≠ Byte.x01) as Hz.
  { intros Hb. apply (f_equal byte_to_Z) in Hb. rewrite byte_to_of_Z, Z.mod_small in Hb by lia.
    change (byte_to_Z Byte.x01) with 1 in Hb. lia. }
  assert (0 < byte_to_Z c1) as Hc0.
  { pose proof (byte_to_Z_range c1). destruct (Z.eq_dec (byte_to_Z c1) 0) as [Hb|]; [|lia].
    destruct Hc1. apply byte_to_Z_inj. done. }
  assert (tail_klen rest = 256 * byte_to_Z c) as Ht.
  { unfold tail_klen. rewrite Hr. cbn [drop take]. rewrite !le_get_cons, le_get_nil.
    change (byte_to_Z Byte.x00) with 0. lia. }
  split; [|done]. unfold ends_at. fold (tail_klen rest). rewrite Ht.
  rewrite (proj2 (Z.leb_le _ _)) by lia. rewrite Hr. cbn [drop].
  rewrite andb_true_r. apply andb_true_iff. split.
  - apply negb_true_iff, bool_decide_eq_false. simpl. congruence.
  - apply Z.ltb_lt. destruct r as [|r1 [|r2 [|r3 r]]]; [by vm_compute in Hr3..|].
    cbn [take]. rewrite take_0, !le_get_cons, le_get_nil. pose proof (byte_to_Z_range r1). pose proof (byte_to_Z_range r2).
    pose proof (byte_to_Z_range r3). lia.
Qed.

(** * Properties *)

(** C14. Exact lookups: a table built from strictly sorted entries whose first
    key starts with bytes [c] and [c1 <> 0] (and has fewer than 256 bytes),
    and whose index, filter and footer have at most [256 * c + 7] bytes,
    answers every lookup of a key of fewer than [256 * c] bytes exactly: the
    stored value or tombstone if the key was added, "not found" otherwise,
    with no false positive of the filter visible. *)
Theorem sstable_get_exact Sum64 keyCount es c c1 k' v t es' :
  keyCount < 2 ^ 60 → sorted_entries es → Forall entry_fits es →
  es = (c :: c1 :: k', v, t) :: es' → len (c :: c1 :: k') < 256 → c1 ≠ Byte.x00 →
  ∃ T, build_table Sum64 keyCount es = Ok T ∧
    (len T < maxAlloc → len T - len (data_bytes es) <= 256 * byte_to_Z c + 7 →
     clean_table T es ∧
     ∃ r, OpenSSTable T = Ok r ∧
       ∀ k, len k < 256 * byte_to_Z c → reader_Get Sum64 r k = Ok (answer es k)).
Proof.
  intros Hc Hs Hfit Hes Hk Hc1. destruct (build_spec Sum64 keyCount es Hc) as (b & Hb & HT).
  eexists. split; [exact HT|]. intros Hlen Hsize.
  destruct (bi_first _ _ _ Hb _ _ Hes) as [ix Hix]. simpl in Hix. rewrite Hix in *.
  unfold table_bytes in *.
  set (rest := index_bytes (mkIndexEntry (c :: c1 :: k') 0 :: ix) ++ bloom_Bytes (b_filter b) ++ _) in *.
  assert (8 <= len rest) as Hr8 by (unfold rest, footer_bytes; len_lia).
  rewrite len_app in Hsize.
  destruct (index_tail_clean c c1 k' 0 ix (bloom_Bytes (b_filter b))
    (footer_bytes (len (data_bytes es)) (len (data_bytes es) +
       len (index_bytes (mkIndexEntry (c :: c1 :: k') 0 :: ix))))) as [He Ht];
    [done|done|fold rest; lia|]. fold rest in He, Ht.
  split; [by exists rest|].
  destruct (build_clean_get Sum64 keyCount es _ rest Hc Hs Hfit HT eq_refl Hlen Hr8 He) as (r & Hr & Hget).
  exists r. split; [done|]. by rewrite <-Ht.
Qed.

Definition exact_table : list sst_entry :=
  [([Byte.x61; Byte.x62], [Byte.x31], false); ([Byte.x63], [], true)].

Lemma sstable_get_exact_witness :
  ∃ T, build_table demo_hash 2 exact_table = Ok T ∧
    (len T < maxAlloc → len T - len (data_bytes exact_table) <= 256 * byte_to_Z Byte.x61 + 7 →
     clean_table T exact_table ∧
     ∃ r, OpenSSTable T = Ok r ∧
       ∀ k, len k < 256 * byte_to_Z Byte.x61 → reader_Get demo_hash r k = Ok (answer exact_table k)).
Proof.
  apply (sstable_get_exact demo_hash 2 exact_table Byte.x61 Byte.x62 [] [Byte.x31] false
           [([Byte.x63], [], true)]).
  - lia.
  - apply (bool_decide_unpack _). vm_compute. exact I.
  - repeat constructor.
  - reflexivity.
  - reflexivity.
  - discriminate.
Defined.
