(* ===== verification/GoDir.v ===== *)
(** * Directories, file names and formatting: what the source uses of Go

    A directory is a finite map from file names to contents; [os.ReadDir]
    lists it in increasing name order.  The file names of the store are
    printed with [fmt.Sprintf] and compared as byte strings, so the decimal
    printer is written out.  Nothing here maps to a line of the repository. *)

From stdpp Require Import base list gmap sorting.
From Stdlib Require Import ZArith Lia.
From S2P Require Import Prelude.

Notation dir := (gmap bytes bytes).

(** [sort.Strings] *)
Definition sort_strings (l : list bytes) : list bytes := merge_sort str_le l.

(** [sort.Sort(sort.Reverse(sort.StringSlice(l)))] *)
Definition sort_reverse (l : list bytes) : list bytes := reverse (sort_strings l).

(** The names [os.ReadDir] returns. *)
Definition ReadDir (d : dir) : list bytes := sort_strings (map fst (map_to_list d)).

(** [os.Open], as far as reading goes. *)
Definition Open (d : dir) (name : bytes) : outcome bytes :=
  match d !! name with Some data => Ok data | None => Err ErrNotExist end.

Definition HasPrefix (s prefix : bytes) : bool := bool_decide (take (length prefix) s = prefix).
Definition HasSuffix (s suffix : bytes) : bool :=
  (length suffix <=? length s)%nat &&
  bool_decide (drop (length s - length suffix) s = suffix).

(** Decimal digits of a natural number, most significant first. *)
Definition digit (n : Z) : byte := byte_of_Z (48 + n).
Fixpoint digits (fuel : nat) (n : Z) (acc : bytes) : bytes :=
  match fuel with
  | O => acc
  | S fuel' =>
      let acc := digit (n mod 10) :: acc in
      if n / 10 =? 0 then acc else digits fuel' (n / 10) acc
  end.

(** [%d]: an [int64] has at most 19 digits. *)
Definition itoa (n : Z) : bytes :=
  if n <? 0 then Byte.x2d :: digits 20 (- n) [] else digits 20 n [].

(** [".sst"] *)
Definition sst_suffix : bytes := [Byte.x2e; Byte.x73; Byte.x73; Byte.x74].

(** [fmt.Sprintf("L%d_", level)] *)
Definition level_prefix (level : Z) : bytes := Byte.x4c :: itoa level ++ [Byte.x5f].

(** [fmt.Sprintf("L%d_%d.sst", level, nano)] *)
Definition sst_name (level nano : Z) : bytes := level_prefix level ++ itoa nano ++ sst_suffix.

(** * Lemmas *)

Lemma elem_of_sort_strings l x : x ∈ sort_strings l ↔ x ∈ l.
Proof. unfold sort_strings. by rewrite (merge_sort_Permutation str_le l). Qed.

Lemma elem_of_sort_reverse l x : x ∈ sort_reverse l ↔ x ∈ l.
Proof. unfold sort_reverse. by rewrite elem_of_reverse, elem_of_sort_strings. Qed.

Lemma sort_strings_sorted l : StronglySorted str_le (sort_strings l).
Proof. apply (StronglySorted_merge_sort str_le). Qed.

(** Sorting a duplicate-free list gives a strictly increasing one. *)
Lemma sort_strings_strict l : NoDup l → StronglySorted str_lt (sort_strings l).
Proof.
  intros Hnd. assert (NoDup (sort_strings l)) as Hnd'
    by (unfold sort_strings; by rewrite (merge_sort_Permutation str_le l)).
  pose proof (sort_strings_sorted l) as Hs. revert Hnd' Hs. generalize (sort_strings l).
  induction l0 as [|x l' IH]; [constructor|]. intros [Hx Hnd']%NoDup_cons Hs.
  apply StronglySorted_cons in Hs as [Hle Hs]. constructor; [by apply IH|]. rewrite Forall_forall in Hle |- *. intros y Hy.
  destruct (proj1 (str_le_lt_eq x y) (Hle y Hy)) as [Hlt| ->]; done.
Qed.

Lemma sort_reverse_strict l : NoDup l → StronglySorted (flip str_lt) (sort_reverse l).
Proof.
  intros Hnd. apply Sorted_StronglySorted; [intros x y z Hxy Hyz; unfold flip in *; by transitivity y|].
  apply Sorted_reverse, StronglySorted_Sorted. by apply sort_strings_strict.
Qed.

Lemma elem_of_ReadDir d n : n ∈ ReadDir d ↔ is_Some (d !! n).
Proof.
  unfold ReadDir. rewrite elem_of_sort_strings, list_elem_of_fmap. split.
  - intros ([k v] & -> & H). apply elem_of_map_to_list in H. by eexists.
  - intros [v Hv]. exists (n, v). split; [done|]. by apply elem_of_map_to_list.
Qed.

Lemma NoDup_ReadDir d : NoDup (ReadDir d).
Proof.
  unfold ReadDir, sort_strings. rewrite (merge_sort_Permutation str_le _).
  apply NoDup_fst_map_to_list.
Qed.

Lemma HasPrefix_app p s : HasPrefix (p ++ s) p = true.
Proof. unfold HasPrefix. rewrite take_app_length. by apply bool_decide_eq_true. Qed.

Lemma HasSuffix_app s p : HasSuffix (s ++ p) p = true.
Proof.
  unfold HasSuffix. rewrite length_app, (proj2 (Nat.leb_le _ _)) by lia.
  apply bool_decide_eq_true. rewrite drop_app_length'; [done|lia].
Qed.

(** ** Decimal numerals and the order of names *)

Definition digit_val (b : byte) : Z := byte_to_Z b - 48.
Definition is_digit (b : byte) : Prop := 0 <= digit_val b < 10.

(** The number a string of digits denotes. *)
Fixpoint dec_val (l : bytes) : Z :=
  match l with
  | [] => 0
  | b :: l' => digit_val b * 10 ^ len l' + dec_val l'
  end.

Lemma dec_val_app a b : dec_val (a ++ b) = dec_val a * 10 ^ len b + dec_val b.
Proof.
  induction a as [|x a IH]; simpl; [lia|]. rewrite IH, len_app, Z.pow_add_r by apply len_nonneg. ring.
Qed.

Lemma dec_val_range l : Forall is_digit l → 0 <= dec_val l < 10 ^ len l.
Proof.
  induction 1 as [|b l [Hb1 Hb2] _ IH]; simpl; [change (len (@nil byte)) with 0; lia|].
  rewrite len_cons, Z.pow_add_r by (lia || apply len_nonneg). nia.
Qed.

Lemma digit_val_digit n : 0 <= n < 10 → digit_val (digit n) = n.
Proof. intros. unfold digit_val, digit. rewrite byte_to_of_Z, Z.mod_small by lia. lia. Qed.

Lemma digits_acc fuel n acc : digits fuel n acc = digits fuel n [] ++ acc.
Proof.
  revert n acc. induction fuel as [|fuel IH]; intros n acc; simpl; [done|].
  destruct (n / 10 =? 0); [done|]. rewrite (IH _ (_ :: acc)), (IH _ [_]), <-app_assoc. done.
Qed.

Lemma digits_spec fuel n :
  0 <= n < 10 ^ Z.of_nat fuel →
  Forall is_digit (digits fuel n []) ∧ dec_val (digits fuel n []) = n ∧
  (1 <= fuel → 1 <= length (digits fuel n []))%nat ∧
  (0 < n → 10 ^ (len (digits fuel n []) - 1) <= n).
Proof.
  revert n. induction fuel as [|fuel IH]; intros n Hn.
  { simpl in *. repeat split; constructor || lia. }
  rewrite Nat2Z.inj_succ, Z.pow_succ_r in Hn by lia. cbn [digits].
  pose proof (Z.mod_pos_bound n 10 ltac:(lia)). pose proof (Z.div_mod n 10 ltac:(lia)) as Hdm.
  assert (is_digit (digit (n mod 10))) as Hd by (unfold is_digit; rewrite digit_val_digit; lia).
  assert (0 <= n / 10 < 10 ^ Z.of_nat fuel) as Hq
    by (split; [apply Z.div_pos|apply Z.div_lt_upper_bound]; lia).
  destruct (Z.eqb_spec (n / 10) 0) as [H0|H0].
  - repeat split; [by constructor|simpl; rewrite digit_val_digit by lia; change (len (@nil byte)) with 0; lia|simpl; lia|].
    intros. change (len [digit (n mod 10)]) with 1. simpl. lia.
  - rewrite digits_acc. destruct (IH _ Hq) as (H1 & H2 & H3 & H4).
    split; [by apply Forall_app; split; [|constructor]|].
    split; [rewrite dec_val_app, H2; simpl; rewrite digit_val_digit by lia; change (len [digit (n mod 10)]) with 1; change (len (@nil byte)) with 0; lia|].
    split; [intros; rewrite length_app; simpl; lia|].
    intros _. rewrite len_app. change (len [digit (n mod 10)]) with 1. specialize (H4 ltac:(lia)).
    assert (1 <= len (digits fuel (n / 10) [])) as Hl.
    { destruct fuel; [simpl in Hq; lia|]. specialize (H3 ltac:(lia)). unfold len. lia. }
    replace (len (digits fuel (n / 10) []) + 1 - 1)
      with (Z.succ (len (digits fuel (n / 10) []) - 1)) by lia.
    rewrite Z.pow_succ_r by lia. lia.
Qed.

Definition max_dec : Z := 10 ^ 20.

Lemma itoa_spec n :
  0 <= n < max_dec →
  Forall is_digit (itoa n) ∧ dec_val (itoa n) = n ∧ (0 < n → 10 ^ (len (itoa n) - 1) <= n).
Proof.
  intros Hn. unfold itoa. rewrite (proj2 (Z.ltb_ge _ _)) by lia.
  destruct (digits_spec 20 n) as (? & ? & _ & ?); [done|]. done.
Qed.

Lemma itoa_inj a b : 0 <= a < max_dec → 0 <= b < max_dec → itoa a = itoa b → a = b.
Proof.
  intros Ha Hb H. apply itoa_spec in Ha as (_ & <- & _). apply itoa_spec in Hb as (_ & <- & _).
  by rewrite H.
Qed.

Lemma itoa_len n k : 0 <= k < 20 → 10 ^ k <= n < 10 ^ (k + 1) → len (itoa n) = k + 1.
Proof.
  intros Hk Hn. assert (0 < 10 ^ k) by lia.
  assert (10 ^ (k + 1) <= max_dec) by (apply Z.pow_le_mono_r; lia).
  destruct (itoa_spec n) as (Hd & Hv & Hlow); [lia|]. specialize (Hlow ltac:(lia)).
  apply dec_val_range in Hd. rewrite Hv in Hd. len_pose.
  assert (k < len (itoa n)) by (apply (Z.pow_lt_mono_r_iff 10); lia).
  assert (len (itoa n) - 1 < k + 1) by (apply (Z.pow_lt_mono_r_iff 10); lia). lia.
Qed.

(** Numerals of the same length compare like the numbers they denote. *)
Lemma dec_val_lt a b ra rb :
  Forall is_digit a → Forall is_digit b → length a = length b → dec_val a < dec_val b →
  str_lt (a ++ ra) (b ++ rb).
Proof.
  intros Ha. revert b. induction Ha as [|x a Hx Ha IH]; intros [|y b] Hb Hl Hlt; try discriminate Hl;
    [simpl in Hlt; lia|].
  apply Forall_cons in Hb as [Hy Hb]. simpl in Hl. injection Hl as Hl.
  pose proof (dec_val_range a Ha). pose proof (dec_val_range b Hb). simpl in Hlt.
  assert (len a = len b) as Hlen by (unfold len; by rewrite Hl). rewrite Hlen in *.
  unfold is_digit in *. apply str_lt_cmp. simpl.
  assert (digit_val x <= digit_val y) as Hle by nia. unfold digit_val in *.
  destruct (Z.compare_spec (byte_to_Z x) (byte_to_Z y)) as [Heq|Hc|Hc]; [|done|lia].
  apply str_lt_cmp, IH; [done|done|]. nia.
Qed.

Lemma str_lt_app_same p a b : str_lt (p ++ a) (p ++ b) ↔ str_lt a b.
Proof.
  rewrite !str_lt_cmp. induction p as [|x p IH]; simpl; [done|]. by rewrite Z.compare_refl.
Qed.

(** Unix times in nanoseconds have 19 digits from 2001 to 2286. *)
Definition nano_time (t : Z) : Prop := 10 ^ 18 <= t < 10 ^ 19.

(** Within a level, later tables have greater names. *)
Lemma sst_name_lt level t t' :
  nano_time t → nano_time t' → t < t' → str_lt (sst_name level t) (sst_name level t').
Proof.
  intros Ht Ht' Hlt. unfold sst_name. apply str_lt_app_same. unfold nano_time in *.
  assert (10 ^ 19 < max_dec) by done.
  destruct (itoa_spec t) as (Hd & Hv & _); [lia|]. destruct (itoa_spec t') as (Hd' & Hv' & _); [lia|].
  apply dec_val_lt; [done|done| |lia].
  pose proof (itoa_len t 18 ltac:(lia) Ht). pose proof (itoa_len t' 18 ltac:(lia) Ht').
  unfold len in *. lia.
Qed.

(** Tables of a higher level have greater names, whatever their times. *)
Lemma sst_name_level_lt level level' t t' :
  0 <= level < level' → level' < 10 → str_lt (sst_name level t) (sst_name level' t').
Proof.
  intros Hl Hl'. unfold sst_name, level_prefix.
  assert (level < max_dec ∧ level' < max_dec) as [? ?] by (unfold max_dec; lia).
  destruct (itoa_spec level) as (Hd & Hv & _); [lia|].
  destruct (itoa_spec level') as (Hd' & Hv' & _); [lia|].
  change (Byte.x4c :: ?x) with ([Byte.x4c] ++ x). rewrite <-!app_assoc.
  apply str_lt_app_same, dec_val_lt; [done|done| |lia].
  assert (∀ n, 0 <= n < 10 → length (itoa n) = 1%nat) as H1.
  { intros n Hn. unfold itoa. rewrite (proj2 (Z.ltb_ge _ _)) by lia. cbn [digits].
    by rewrite Z.div_small by lia. }
  by rewrite !H1 by lia.
Qed.

Lemma digits_sep a b ra rb :
  Forall is_digit a → Forall is_digit b → a ++ Byte.x5f :: ra = b ++ Byte.x5f :: rb → a = b.
Proof.
  intros Ha. revert b. induction Ha as [|x a Hx Ha IH]; intros [|y b] Hb Heq; simplify_eq/=.
  - done.
  - apply Forall_inv in Hb as []. by vm_compute in H0.
  - destruct Hx as [_ Hx]. by vm_compute in Hx.
  - apply Forall_cons in Hb as [_ Hb]. f_equal. by apply IH.
Qed.

(** A table's name carries the prefix of its own level only. *)
Lemma sst_name_prefix level level' t :
  0 <= level < max_dec → 0 <= level' < max_dec →
  HasPrefix (sst_name level' t) (level_prefix level) = true → level' = level.
Proof.
  intros Hl Hl' Hp. unfold HasPrefix in Hp. apply bool_decide_eq_true in Hp.
  pose proof (take_drop (length (level_prefix level)) (sst_name level' t)) as Hs. rewrite Hp in Hs.
  unfold sst_name, level_prefix in Hs. simpl in Hs. injection Hs as Hs.
  rewrite <-!app_assoc in Hs. simpl in Hs.
  apply digits_sep in Hs; [|apply itoa_spec; lia..]. symmetry in Hs. by apply itoa_inj in Hs.
Qed.

Lemma sst_name_suffix level t : HasSuffix (sst_name level t) sst_suffix = true.
Proof. unfold sst_name. rewrite app_assoc. apply HasSuffix_app. Qed.
