(* ===== verification/GoText.v ===== *)
(** * strings and fmt: what the source uses of Go on text

    String functions on byte strings: splitting and joining, searching,
    trimming and fields (for ASCII text, where a character is a byte), and
    the number scanner of [fmt.Sscanf].  Nothing here maps to a line of the
    repository. *)

From Stdlib Require Import Strings.String.
From stdpp Require Import base list gmap.
From Stdlib Require Import ZArith Lia.
From S2P Require Import Prelude GoDir.

(** A string literal as bytes. *)
Definition lit (s : string) : bytes := list_byte_of_string s.
#[global] Arguments lit s%_string.

Definition amp : byte := Byte.x26.
Definition eq_sign : byte := Byte.x3d.
Definition semicolon : byte := Byte.x3b.
Definition percent : byte := Byte.x25.
Definition plus : byte := Byte.x2b.
Definition space : byte := Byte.x20.
Definition hash : byte := Byte.x23.
Definition question : byte := Byte.x3f.

(** [strings.Cut] at one byte: before, and after if it was found. *)
Fixpoint cut (sep : byte) (s : bytes) : bytes * option bytes :=
  match s with
  | [] => ([], None)
  | b :: s' =>
      if bool_decide (b = sep) then ([], Some s')
      else let '(before, after) := cut sep s' in (b :: before, after)
  end.

(** The pieces between the [sep] bytes. *)
Fixpoint split_on (sep : byte) (s : bytes) : list bytes :=
  match s with
  | [] => [[]]
  | b :: s' =>
      if bool_decide (b = sep) then [] :: split_on sep s'
      else match split_on sep s' with
           | [] => [[b]]
           | p :: ps => (b :: p) :: ps
           end
  end.

(** [strings.Join] with a one-byte separator. *)
Fixpoint join (sep : byte) (ps : list bytes) : bytes :=
  match ps with
  | [] => []
  | [p] => p
  | p :: ps' => p ++ sep :: join sep ps'
  end.

(** [strings.Contains] *)
Fixpoint Contains (s substr : bytes) : bool :=
  HasPrefix s substr || match s with [] => false | _ :: s' => Contains s' substr end.

Definition between (b : byte) (lo hi : Z) : bool := (lo <=? byte_to_Z b) && (byte_to_Z b <=? hi).

(** ** White space *)

Definition newline : byte := Byte.x0a.
Definition is_space (b : byte) : bool := bool_decide (b = space) || between b 9 13.

Fixpoint TrimLeft (s : bytes) : bytes :=
  match s with b :: s' => if is_space b then TrimLeft s' else s | [] => [] end.
Definition TrimSpace (s : bytes) : bytes := reverse (TrimLeft (reverse (TrimLeft s))).

(** [strings.Fields]: [cur] is the field being read. *)
Fixpoint fields_from (s cur : bytes) : list bytes :=
  match s with
  | [] => if bool_decide (cur = []) then [] else [cur]
  | b :: s' =>
      if is_space b then if bool_decide (cur = []) then fields_from s' [] else cur :: fields_from s' []
      else fields_from s' (cur ++ [b])
  end.
Definition Fields (s : bytes) : list bytes := fields_from s [].

(** [%-30s] *)
Definition pad_right (n : nat) (s : bytes) : bytes := s ++ replicate (n - length s) space.

(** ** Scanning numbers

    Blanks are skipped, and at most [width] digits are read. *)
Fixpoint skip_blanks (s : bytes) : bytes :=
  match s with
  | b :: s' => if bool_decide (b = Byte.x20) || bool_decide (b = Byte.x09) then skip_blanks s' else s
  | [] => []
  end.

Fixpoint scan_digits (width : nat) (s : bytes) : bytes * bytes :=
  match width, s with
  | S w, b :: s' =>
      if between b 48 57 then let '(ds, rest) := scan_digits w s' in (b :: ds, rest) else ([], s)
  | _, _ => ([], s)
  end.

(** [%d] without a width, into an [int] that holds [old]: the new value and
    the rest, or [None] when there is no number or it does not fit. *)
Definition scan_int (s : bytes) : option (Z * bytes) :=
  let s := skip_blanks s in
  let '(neg, s) :=
    match s with
    | b :: r => if bool_decide (b = Byte.x2d) then (true, r) else if bool_decide (b = plus) then (false, r) else (false, s)
    | [] => (false, [])
    end in
  let '(ds, rest) := scan_digits (length s) s in
  let n := if neg : bool then - dec_val ds else dec_val ds in
  if bool_decide (ds = []) || (n <? - 2 ^ 63) || (2 ^ 63 <=? n) then None else Some (n, rest).

(** * Lemmas *)

Lemma cut_app sep a b : sep ∉ a → cut sep (a ++ sep :: b) = (a, Some b).
Proof.
  induction a as [|x a IH]; simpl; [by rewrite bool_decide_eq_true_2|].
  intros [Hx Ha]%not_elem_of_cons. rewrite bool_decide_eq_false_2 by done. by rewrite IH.
Qed.

Lemma cut_none sep a : sep ∉ a → cut sep a = (a, None).
Proof.
  induction a as [|x a IH]; simpl; [done|].
  intros [Hx Ha]%not_elem_of_cons. rewrite bool_decide_eq_false_2 by done. by rewrite IH.
Qed.

Lemma split_on_app sep a b : sep ∉ a → split_on sep (a ++ sep :: b) = a :: split_on sep b.
Proof.
  induction a as [|x a IH]; simpl; [by rewrite bool_decide_eq_true_2|].
  intros [Hx Ha]%not_elem_of_cons. rewrite bool_decide_eq_false_2 by done. by rewrite IH.
Qed.

Lemma split_on_none sep a : sep ∉ a → split_on sep a = [a].
Proof.
  induction a as [|x a IH]; simpl; [done|].
  intros [Hx Ha]%not_elem_of_cons. rewrite bool_decide_eq_false_2 by done. by rewrite IH.
Qed.

Lemma split_on_not_nil sep s : split_on sep s ≠ [].
Proof. destruct s as [|b s]; simpl; [done|]. destruct (bool_decide _); [done|]. by destruct (split_on sep s). Qed.

Lemma join_cons sep p ps : ps ≠ [] → join sep (p :: ps) = p ++ sep :: join sep ps.
Proof. by destruct ps. Qed.

(** Splitting is undone by joining. *)
Lemma join_split sep s : join sep (split_on sep s) = s.
Proof.
  induction s as [|b s IH]; [done|]. simpl. pose proof (split_on_not_nil sep s).
  destruct (bool_decide_reflect (b = sep)) as [->|]; [rewrite join_cons by done; by rewrite IH|].
  destruct (split_on sep s) as [|p ps]; [done|]. by destruct ps; rewrite <-IH.
Qed.

Lemma is_digit_between b : is_digit b → between b 48 57 = true.
Proof. unfold is_digit, digit_val, between. intros. apply andb_true_iff. lia. Qed.

Lemma scan_digits_all ds rest n : Forall is_digit ds → n = List.length ds → scan_digits n (ds ++ rest) = (ds, rest).
Proof.
  intros H ->. induction H as [|b ds Hb _ IH]; [by destruct rest|]. simpl. by rewrite is_digit_between, IH.
Qed.

Lemma HasPrefix_nil s : HasPrefix s [] = true.
Proof. by apply bool_decide_eq_true. Qed.

Lemma Contains_nil s : Contains s [] = true.
Proof. by destruct s. Qed.

Lemma HasPrefix_iff s p : HasPrefix s p = true ↔ p `prefix_of` s.
Proof.
  unfold HasPrefix. rewrite bool_decide_eq_true. split; [intros <-; apply prefix_take|].
  intros [r ->]. apply take_app_length.
Qed.

(** [Contains] finds exactly the substrings. *)
Lemma Contains_iff s p : Contains s p = true ↔ ∃ a b, s = a ++ p ++ b.
Proof.
  induction s as [|x s IH]; simpl; rewrite orb_true_iff, HasPrefix_iff.
  - split; [intros [[r E]|]; [by exists [], r|done]|]. intros (a & b & E). left. destruct a; [|done]. by exists b.
  - rewrite IH. split.
    + intros [[r ->]|(a & b & ->)]; [by exists [], r|by exists (x :: a), b].
    + intros ([|y a] & b & E); [left; by exists b|right]. injection E as -> ->. by exists a, b.
Qed.

Lemma Contains_app_l s t p : Contains s p = true → Contains (s ++ t) p = true.
Proof. rewrite !Contains_iff. intros (a & b & ->). exists a, (b ++ t). by rewrite !(assoc_L (++)). Qed.

(** A byte that is not in the pattern separates the searches. *)
Lemma Contains_sep s c t p : c ∉ p → Contains (s ++ c :: t) p = Contains s p || Contains t p || bool_decide (p = []).
Proof.
  intros Hc. destruct (decide (p = [])) as [->|Hne]; [rewrite !Contains_nil; done|].
  rewrite (bool_decide_eq_false_2 (p = [])), orb_false_r by done. induction s as [|x s IH]; simpl.
  - assert (HasPrefix (c :: t) p = false ∧ HasPrefix [] p = false) as [-> ->]; [|done].
    destruct p as [|y p]; [done|]. split; apply bool_decide_eq_false; simpl; [|done]. intros [= <- _]. apply Hc. by left.
  - rewrite IH, !orb_assoc. f_equal. f_equal. apply eq_true_iff_eq. rewrite !HasPrefix_iff. split.
    + intros [r E]. destruct (decide (length p <= S (length s))%nat) as [|Hlt].
      * exists (take (S (length s) - length p) r). apply (f_equal (take (S (length s)))) in E.
        change (x :: s ++ c :: t) with ((x :: s) ++ c :: t) in E. rewrite (take_app_length' (x :: s)) in E by done.
        by rewrite take_app_ge in E.
      * exfalso. apply Hc. apply (list_elem_of_lookup_2 _ (S (length s))).
        rewrite <-(lookup_app_l p r) by lia. rewrite <-E. simpl.
        rewrite lookup_app_r by lia. by rewrite Nat.sub_diag.
    + intros [r E]. exists (r ++ c :: t). change (x :: s ++ c :: t) with ((x :: s) ++ c :: t). rewrite E.
      by rewrite (assoc_L (++)).
Qed.

Lemma scan_digits_stop ds c rest n :
  Forall is_digit ds → between c 48 57 = false → (List.length ds < n)%nat → scan_digits n (ds ++ c :: rest) = (ds, c :: rest).
Proof.
  intros H Hc. revert n. induction H as [|b ds Hb _ IH]; intros [|n] Hn; simpl in *; try lia; [by rewrite Hc|].
  rewrite is_digit_between by done. rewrite IH by lia. done.
Qed.

(** A printed number is scanned back. *)
Lemma scan_int_itoa n c rest :
  0 <= n < 2 ^ 63 → between c 48 57 = false → scan_int (itoa n ++ c :: rest) = Some (n, c :: rest).
Proof.
  intros Hn Hc. destruct (itoa_spec n) as (Hd & Hv & _); [unfold max_dec; lia|].
  assert (itoa n ≠ []) as Hne.
  { unfold itoa. rewrite (proj2 (Z.ltb_ge _ _)) by lia. destruct (digits_spec 20 n) as (_ & _ & H & _); [lia|].
    intros E. rewrite E in H. simpl in H. lia. }
  destruct (itoa n) as [|b ds] eqn:E; [done|]. pose proof (Forall_inv Hd) as Hb.
  assert (∀ x, digit_val x < 0 → bool_decide (b = x) = false) as Hno.
  { intros x Hx. apply bool_decide_eq_false. intros ->. unfold is_digit in Hb. lia. }
  unfold scan_int. cbn [app skip_blanks]. rewrite (Hno Byte.x20), (Hno Byte.x09) by done. cbn [orb].
  rewrite (Hno Byte.x2d), (Hno plus) by done. change (b :: ds ++ c :: rest) with ((b :: ds) ++ c :: rest).
  rewrite scan_digits_stop by (done || (simpl; rewrite length_app; simpl; lia)).
  rewrite bool_decide_eq_false_2, Hv by done.
  by rewrite (proj2 (Z.ltb_ge n _)), (proj2 (Z.leb_gt _ n)) by lia.
Qed.
