(* ===== verification/GoUrl.v ===== *)
(** * net/url and the request line: what the server and its client use of Go

    Query strings ([QueryEscape], [Request.URL.Query], [Values.Get]) and the
    way a URL given to [http.NewRequest] reaches the server.  [send_url] takes
    the scheme and the host for given: a URL without them, or with an invalid
    escape before its query, is refused by net/http, and no theorem is about
    such addresses.  Nothing here maps to a line of the repository. *)

From Stdlib Require Import Strings.String.
From stdpp Require Import base list gmap.
From Stdlib Require Import ZArith Lia.
From S2P Require Import Prelude GoText.

(** ** Escaping *)

(** Letters, digits and [-_.~] are written as they are. *)
Definition unreserved (b : byte) : bool :=
  between b 48 57 || between b 65 90 || between b 97 122 ||
  bool_decide (b = Byte.x2d) || bool_decide (b = Byte.x5f) || bool_decide (b = Byte.x2e) || bool_decide (b = Byte.x7e).

Definition hex_digit (n : Z) : byte := byte_of_Z (if n <? 10 then 48 + n else 55 + n).

Definition escape_byte (b : byte) : bytes :=
  if unreserved b then [b]
  else if bool_decide (b = space) then [plus]
  else [percent; hex_digit (byte_to_Z b / 16); hex_digit (byte_to_Z b mod 16)].

Definition QueryEscape (s : bytes) : bytes := flat_map escape_byte s.

Definition unhex (b : byte) : option Z :=
  if between b 48 57 then Some (byte_to_Z b - 48)
  else if between b 97 102 then Some (byte_to_Z b - 87)
  else if between b 65 70 then Some (byte_to_Z b - 55)
  else None.

Fixpoint QueryUnescape (s : bytes) : option bytes :=
  match s with
  | [] => Some []
  | b :: s' =>
      if bool_decide (b = percent) then
        match s' with
        | h :: l :: s'' =>
            h ← unhex h; l ← unhex l; r ← QueryUnescape s'';
            Some (byte_of_Z (16 * h + l) :: r)
        | _ => None
        end
      else
        r ← QueryUnescape s';
        Some ((if bool_decide (b = plus) then space else b) :: r)
  end.

(** ** Query strings *)

(** One [key=value] piece; malformed and empty ones are skipped. *)
Definition parse_piece (p : bytes) : option (bytes * bytes) :=
  if bool_decide (p = []) || bool_decide (semicolon ∈ p) then None
  else
    let '(k, v) := cut eq_sign p in
    k ← QueryUnescape k; v ← QueryUnescape (default [] v); Some (k, v).

(** [r.URL.Query().Get(name)]: the first value, or the empty string. *)
Definition query_get (query name : bytes) : bytes :=
  match list_find (λ kv, fst kv = name) (omap parse_piece (split_on amp query)) with
  | Some (_, (_, v)) => v
  | None => []
  end.

(** ** From a URL to the server *)

(** Control characters: [http.NewRequest] refuses them. *)
Definition ctl (b : byte) : bool := (byte_to_Z b <? 32) || (byte_to_Z b =? 127).

(** What a request to [url] meets at the server: a handler with this query,
    a 400 because the space breaks the request line, or nothing is sent. *)
Inductive delivery := Delivered (query : bytes) | BadRequest | NotSent.

Definition send_url (url : bytes) : delivery :=
  if existsb ctl url then NotSent
  else
    let '(u, _) := cut hash url in
    let '(_, q) := cut question u in
    let query := default [] q in
    if bool_decide (space ∈ query) then BadRequest else Delivered query.

(** The path of a URL that starts with a scheme and a host and has no escapes
    in its path; a request always has a path. *)
Definition slash : byte := Byte.x2f.
Definition url_path (url : bytes) : bytes :=
  let '(u, _) := cut hash url in
  let '(u, _) := cut question u in
  let '(_, rest) := cut slash u in
  let '(_, authority) := cut slash (default [] rest) in
  let '(_, path) := cut slash (default [] authority) in
  slash :: default [] path.

(** * Lemmas *)

(** Escaping is undone by unescaping, byte by byte. *)
Lemma unescape_escape_byte b rest :
  QueryUnescape (escape_byte b ++ rest) = r ← QueryUnescape rest; Some (b :: r).
Proof. destruct b; reflexivity. Qed.

Lemma QueryUnescape_escape s rest :
  QueryUnescape (QueryEscape s ++ rest) = r ← QueryUnescape rest; Some (s ++ r).
Proof.
  induction s as [|b s IH]; simpl; [by destruct (QueryUnescape rest)|].
  rewrite <-(assoc_L (++)), unescape_escape_byte, IH. by destruct (QueryUnescape rest).
Qed.

Lemma unescape_escape s : QueryUnescape (QueryEscape s) = Some s.
Proof. rewrite <-(app_nil_r (QueryEscape s)), QueryUnescape_escape. simpl. by rewrite app_nil_r. Qed.

(** Bytes with a meaning of their own in a URL's query, or that break it. *)
Definition special (b : byte) : bool :=
  ctl b || existsb (λ c, bool_decide (b = c)) [amp; eq_sign; semicolon; percent; plus; space; hash].

Definition plain (s : bytes) : Prop := Forall (λ b, special b = false) s.
#[export] Instance plain_dec s : Decision (plain s).
Proof. unfold plain. apply _. Defined.

(** The bytes of an escaped string: none of them ends a piece, a key, the
    query or the request line. *)
Definition inert (b : byte) : bool :=
  negb (ctl b || existsb (λ c, bool_decide (b = c)) [amp; eq_sign; semicolon; space; hash]).

Lemma escape_inert s : Forall (λ b, inert b = true) (QueryEscape s).
Proof.
  unfold QueryEscape. induction s as [|b s IH]; simpl; [by constructor|]. apply Forall_app. split; [|done].
  destruct b; repeat constructor.
Qed.

Lemma plain_inert s : plain s → Forall (λ b, inert b = true) s.
Proof.
  intros Hp. eapply Forall_impl; [exact Hp|]. intros b. unfold special, inert. intros [H1 H2]%orb_false_iff. rewrite H1. simpl in *.
  by repeat case_bool_decide.
Qed.

Lemma unescape_plain s : plain s → QueryUnescape s = Some s.
Proof.
  induction 1 as [|b s Hb _ IH]; [done|]. simpl. unfold special in Hb. apply orb_false_iff in Hb as [_ Hb].
  simpl in Hb. repeat (case_bool_decide; [done|]). by rewrite IH.
Qed.

Lemma inert_not b c : inert b = true → c ∈ [amp; eq_sign; semicolon; space; hash] → b ≠ c.
Proof.
  intros Hb Hc ->. revert Hb. unfold inert. apply elem_of_cons in Hc as [->|Hc]; [done|].
  apply elem_of_cons in Hc as [->|Hc]; [done|]. apply elem_of_cons in Hc as [->|Hc]; [done|].
  apply elem_of_cons in Hc as [->|Hc]; [done|]. apply elem_of_cons in Hc as [->|Hc]; [done|].
  by apply not_elem_of_nil in Hc.
Qed.

Lemma inert_notin s c : Forall (λ b, inert b = true) s → c ∈ [amp; eq_sign; semicolon; space; hash] → c ∉ s.
Proof.
  intros Hs Hc Hin. rewrite Forall_forall in Hs. by destruct (inert_not c c (Hs c Hin) Hc).
Qed.

(** A piece [name=text]. *)
Lemma parse_piece_pair name text v :
  Forall (λ b, inert b = true) name → Forall (λ b, inert b = true) text →
  QueryUnescape name = Some name → QueryUnescape text = Some v →
  parse_piece (name ++ eq_sign :: text) = Some (name, v).
Proof.
  intros Hn Ht Hu Hv. unfold parse_piece.
  assert (semicolon ∈ [amp; eq_sign; semicolon; space; hash]) as Hsc by (do 2 right; by left).
  assert (eq_sign ∈ [amp; eq_sign; semicolon; space; hash]) as Heq by (right; by left).
  rewrite (bool_decide_eq_false_2 (_ = [])) by (by destruct name).
  rewrite (bool_decide_eq_false_2 (semicolon ∈ _)).
  2: { rewrite elem_of_app, elem_of_cons. intros [H|[H|H]]; [by apply (inert_notin name semicolon)|done|].
       by apply (inert_notin text semicolon). }
  simpl. rewrite cut_app by (by apply inert_notin). simpl. by rewrite Hu, Hv.
Qed.
