(* ===== verification/Metrics.v ===== *)
(** * pkg/metrics/metrics.go: the metrics a node reports

    The gauges, counters and histograms with their names and labels.  The
    Prometheus client is not part of the repository: what the code does with
    it is a sequence of calls. *)

From Stdlib Require Import Strings.String.
From stdpp Require Import base list gmap.
From Stdlib Require Import ZArith Lia.
From S2P Require Import Prelude GoDir GoText.

Inductive metric :=
| TermGauge | CommitIndexGauge | StateGauge | LeaderGauge
| LevelFileCount | LevelSize
| HttpRequestsTotal | HttpRequestDuration.

#[export] Instance metric_eq_dec : EqDecision metric.
Proof. solve_decision. Defined.

Definition metric_name (m : metric) : bytes :=
  match m with
  | TermGauge => lit "raft_current_term"
  | CommitIndexGauge => lit "raft_commit_index"
  | StateGauge => lit "raft_state"
  | LeaderGauge => lit "raft_leader"
  | LevelFileCount => lit "kv_level_file_count"
  | LevelSize => lit "kv_level_size_bytes"
  | HttpRequestsTotal => lit "http_requests_total"
  | HttpRequestDuration => lit "http_request_duration_seconds"
  end.

Definition metric_labels (m : metric) : list bytes :=
  match m with
  | TermGauge | CommitIndexGauge | StateGauge | LeaderGauge => [lit "node_id"]
  | LevelFileCount | LevelSize => [lit "node_id"; lit "level"]
  | HttpRequestsTotal => [lit "method"; lit "endpoint"; lit "status"]
  | HttpRequestDuration => [lit "method"; lit "endpoint"]
  end.

(** A call [m.WithLabelValues(labels...)] followed by [Set], [Inc] or
    [Observe]; a duration is in nanoseconds. *)
Inductive metric_call :=
| Gauge_Set (m : metric) (labels : list bytes) (v : Z)
| Counter_Inc (m : metric) (labels : list bytes)
| Histogram_Observe (m : metric) (labels : list bytes) (d : Z).

Definition call_metric (c : metric_call) : metric * list bytes :=
  match c with Gauge_Set m ls _ | Counter_Inc m ls | Histogram_Observe m ls _ => (m, ls) end.

(** [WithLabelValues] panics when the number of values is not that of the
    labels. *)
Definition call_ok (c : metric_call) : Prop := length (call_metric c).2 = length (metric_labels (call_metric c).1).

(** [float64(z)], and the sum of two integral floats after [f64]: rounding
    to 53 bits, ties to even. *)
Definition f64 (z : Z) : Z :=
  let a := Z.abs z in
  if a <? 2 ^ 53 then z
  else
    let u := 2 ^ (Z.log2 a - 52) in
    let q := a / u in
    let r := a mod u in
    let q := if (u <? 2 * r) || ((2 * r =? u) && Z.odd q) then q + 1 else q in
    Z.sgn z * (q * u).

Lemma f64_small z : Z.abs z < 2 ^ 53 → f64 z = z.
Proof. intros H. unfold f64. by rewrite (proj2 (Z.ltb_lt _ _)). Qed.
