(* ===== verification/Compact.v ===== *)
(** * kv/compact.go: merging the tables of one level into the next

    [CheckAndCompact] opens an iterator on every table of a level (newest file
    name first), merges them key by key into one table of the next level, and
    removes the inputs.  The theorems relate the loop to a merge of the
    iterators' entry streams, and show what that merge keeps. *)

From stdpp Require Import base list gmap sorting.
From Stdlib Require Import ZArith Lia.
From S2P Require Import Prelude GoFile Bloom SSTable SSTReader SSTIterator SSTClean GoDir.

Definition maxLevelFiles : Z := 4.

Definition getFilesForLevel (d : dir) (level : Z) : list bytes :=
  let prefix := level_prefix level in
  sort_reverse (filter (λ n, HasPrefix n prefix && HasSuffix n sst_suffix = true) (ReadDir d)).

(** The iterators of the input files; one that is not valid from the start is
    left out, and the first open error ends the compaction. *)
Fixpoint open_iterators (d : dir) (files : list bytes) : outcome (list SSTableIterator) :=
  match files with
  | [] => Ok []
  | filename :: files' =>
      it ← NewIterator (Open d filename);
      its ← open_iterators d files';
      Ok (if it_Valid it then it :: its else its)
  end.

(** The first inner loop: [minKey], [first], [activeCount]. *)
Definition min_step (acc : bytes * bool * Z) (it : SSTableIterator) : bytes * bool * Z :=
  let '(minKey, first, activeCount) := acc in
  if it_Valid it then
    if first || str_ltb (it_Key it) minKey
    then (it_Key it, false, activeCount + 1)
    else (minKey, first, activeCount + 1)
  else acc.

Definition find_min (its : list SSTableIterator) : bytes * bool * Z :=
  foldl min_step ([], true, 0) its.

(** The second inner loop: the first match wins, every match moves on. *)
Fixpoint resolve (its : list SSTableIterator) (minKey : bytes) (winner : option (bytes * bool))
  : list SSTableIterator * option (bytes * bool) :=
  match its with
  | [] => ([], winner)
  | it :: its' =>
      if it_Valid it && str_eqb (it_Key it) minKey then
        let winner :=
          match winner with
          | None => Some (it_Value it, it_IsTombstone it)
          | Some _ => winner
          end in
        let '(rest, w) := resolve its' minKey winner in
        (Next it :: rest, w)
      else
        let '(rest, w) := resolve its' minKey winner in
        (it :: rest, w)
  end.

(** [refreshSSTables]: the readers of all tables that open; a panic while
    opening is a panic of the call. *)
Fixpoint open_readers (d : dir) (files : list bytes) : outcome (list Reader) :=
  match files with
  | [] => Ok []
  | f :: files' =>
      match Open d f ≫= OpenSSTable with
      | Ok r => rs ← open_readers d files'; Ok (r :: rs)
      | Err _ => open_readers d files'
      | Panic => Panic
      end
  end.

Definition sst_files (d : dir) : list bytes :=
  sort_reverse (filter (λ n, HasSuffix n sst_suffix = true) (ReadDir d)).

Definition refreshSSTables (d : dir) : outcome (list Reader) := open_readers d (sst_files d).

Section compact.
Variable Sum64 : bytes → Z.

(** The merge loop; out of fuel would show as [Panic]. *)
Fixpoint merge_loop (fuel : nat) (its : list SSTableIterator) (builder : Builder)
  (isBottomLevel : bool) : Builder * outcome unit :=
  match fuel with
  | O => (builder, Panic)
  | S fuel' =>
      let '(minKey, _, activeCount) := find_min its in
      if activeCount =? 0 then (builder, Ok tt)
      else
        let '(its, w) := resolve its minKey None in
        match w with
        | None => merge_loop fuel' its builder isBottomLevel
        | Some (winnerVal, winnerTomb) =>
            if winnerTomb && isBottomLevel
            then merge_loop fuel' its builder isBottomLevel
            else
              let '(builder, r) := builder_Add Sum64 builder minKey winnerVal winnerTomb in
              match r with
              | Ok _ => merge_loop fuel' its builder isBottomLevel
              | _ => (builder, r)
              end
        end
  end.

(** Rounds that are enough: each one consumes an entry. *)
Definition merge_fuel (its : list SSTableIterator) : nat :=
  S (sum_list_with it_measure its).

(** [CheckAndCompact(level)] on the table directory.  [now] is the clock and
    [created] the outcome of creating the output file, with the faults its
    writes will meet.  When a compaction took place the result is the level
    whose compaction is started next and the refreshed [s.ssTables].  An error
    of [builder.Close()] is dropped by the code. *)
Definition CheckAndCompact (d : dir) (level now : Z) (created : outcome (list (option nat)))
  : dir * outcome (option (Z * list Reader)) :=
  let levelFiles := getFilesForLevel d level in
  if len levelFiles <? maxLevelFiles then (d, Ok None)
  else
    let nextLevel := level + 1 in
    let isBottomLevel := maxLevelFiles <=? nextLevel in
    match open_iterators d levelFiles with
    | Err e => (d, Err e)
    | Panic => (d, Panic)
    | Ok iterators =>
        let newFilename := sst_name nextLevel now in
        match NewBuilder (faults ← created; Ok (mkFile [] 0 faults)) 10000 with
        | Err e => (d, Err e)
        | Panic => (d, Panic)
        | Ok builder =>
            let '(builder, r) := merge_loop (merge_fuel iterators) iterators builder isBottomLevel in
            match r with
            | Err e => (<[newFilename := f_data (b_File builder)]> d, Err e)
            | Panic => (<[newFilename := f_data (b_File builder)]> d, Panic)
            | Ok _ =>
                let '(builder, _) := builder_Close builder in
                let d := foldl (λ d f, delete f d)
                  (<[newFilename := f_data (b_File builder)]> d) levelFiles in
                (d, ssTables ← refreshSSTables d; Ok (Some (nextLevel, ssTables)))
            end
        end
    end.
End compact.

(** * The merge of entry streams *)

(** The smallest head key. *)
Definition smin_step (acc : option bytes) (s : list sst_entry) : option bytes :=
  match s with
  | [] => acc
  | e :: _ =>
      match acc with
      | None => Some (entry_key e)
      | Some m => if str_ltb (entry_key e) m then Some (entry_key e) else Some m
      end
  end.
Definition smin (ss : list (list sst_entry)) : option bytes := foldl smin_step None ss.

(** The head with key [m] of the first stream that has one. *)
Fixpoint winner (ss : list (list sst_entry)) (m : bytes) : option sst_entry :=
  match ss with
  | [] => None
  | (e :: _) :: ss' => if str_eqb (entry_key e) m then Some e else winner ss' m
  | [] :: ss' => winner ss' m
  end.

Definition advance (m : bytes) (s : list sst_entry) : list sst_entry :=
  match s with
  | e :: s' => if str_eqb (entry_key e) m then s' else s
  | [] => []
  end.

Fixpoint smerge (fuel : nat) (ss : list (list sst_entry)) (bottom : bool) : list sst_entry :=
  match fuel with
  | O => []
  | S fuel' =>
      match smin ss with
      | None => []
      | Some m =>
          let rest := smerge fuel' (map (advance m) ss) bottom in
          match winner ss m with
          | Some e => if entry_tomb e && bottom then rest else e :: rest
          | None => rest
          end
      end
  end.

Definition total (ss : list (list sst_entry)) : nat := sum_list_with length ss.

(** What the merge should keep: for each key the entry of the first stream
    (the newest table) that has the key. *)
Fixpoint newest (ss : list (list sst_entry)) (k : bytes) : option sst_entry :=
  match ss with
  | [] => None
  | s :: ss' => match find_entry s k with Some e => Some e | None => newest ss' k end
  end.

(** ** The loop computes the merge of the streams *)

Lemma stream_head it :
  it_wf it →
  if it_Valid it then stream it = it_entry it :: stream (Next it) else stream it = [].
Proof.
  intros Hwf. destruct (it_Valid it) eqn:Hv; [by apply stream_valid|by apply stream_invalid].
Qed.

Lemma find_min_spec its :
  Forall it_wf its →
  match smin (map stream its) with
  | None => find_min its = ([], true, 0)
  | Some m => ∃ n, find_min its = (m, false, n) ∧ 0 < n
  end.
Proof.
  unfold smin, find_min.
  assert (∀ its acc m first n, Forall it_wf its → 0 <= n →
    (acc = None ∧ first = true ∧ m = [] ∧ n = 0 ∨ acc = Some m ∧ first = false ∧ 0 < n) →
    match foldl smin_step acc (map stream its) with
    | None => foldl min_step (m, first, n) its = ([], true, 0)
    | Some m' => ∃ n', foldl min_step (m, first, n) its = (m', false, n') ∧ 0 < n'
    end) as H; [|intros; apply H; [done|lia|by left]].
  clear its. induction its as [|it its IH]; intros acc m first n Hwf Hn Hacc; simpl.
  { destruct Hacc as [(-> & -> & -> & ->)|(-> & -> & ?)]; eauto. }
  apply Forall_cons in Hwf as [Hw Hwf]. pose proof (stream_head it Hw) as Hs.
  destruct (it_Valid it); rewrite Hs; simpl; [|by apply IH].
  destruct Hacc as [(-> & -> & -> & ->)|(-> & -> & ?)]; simpl.
  - apply IH; [done|lia|right; split_and!; done || lia].
  - destruct (str_ltb (it_Key it) m); apply IH; try done; try lia; right; split_and!; done || lia.
Qed.

Lemma resolve_spec its m w :
  Forall it_wf its →
  let '(its', w') := resolve its m w in
  Forall it_wf its' ∧ map stream its' = map (advance m) (map stream its) ∧
  w' = match w with
       | Some _ => w
       | None => (λ e : sst_entry, (e.1.2, e.2)) <$> winner (map stream its) m
       end.
Proof.
  revert w. induction its as [|it its IH]; intros w Hwf; simpl; [by destruct w|].
  apply Forall_cons in Hwf as [Hw Hwf]. pose proof (stream_head it Hw) as Hs.
  destruct (it_Valid it) eqn:Hv; simpl.
  - rewrite Hs. simpl. destruct (str_eqb (it_Key it) m).
    + specialize (IH (match w with None => Some (it_Value it, it_IsTombstone it) | Some _ => w end) Hwf).
      destruct (resolve its m _) as [its' w']. destruct IH as (H1 & H2 & H3).
      destruct (Next_spec it Hw) as (Hw' & _ & _). simpl. rewrite H2. split_and!; [by constructor|done|].
      by destruct w.
    + specialize (IH w Hwf). destruct (resolve its m w) as [its' w']. destruct IH as (H1 & H2 & H3).
      simpl. rewrite H2, Hs. split_and!; [by constructor|done|done].
  - rewrite Hs. simpl. specialize (IH w Hwf). destruct (resolve its m w) as [its' w'].
    destruct IH as (H1 & H2 & H3). simpl. rewrite H2, Hs. split_and!; [by constructor|done|done].
Qed.

Lemma winner_key ss m e : winner ss m = Some e → entry_key e = m.
Proof.
  induction ss as [|[|x s] ss IH]; simpl; [done|done|].
  destruct (str_eqb (entry_key x) m) eqn:E; [|done]. intros [= ->]. by apply str_eqb_eq.
Qed.

Lemma smin_None ss : smin ss = None ↔ Forall (λ s, s = []) ss.
Proof.
  unfold smin. assert (∀ ss m, ∃ m', foldl smin_step (Some m) ss = Some m') as H.
  { clear ss. induction ss as [|[|e s] ss IH]; intros m; simpl; [eauto|apply IH|].
    destruct (str_ltb _ _); apply IH. }
  induction ss as [|[|e s] ss IH]; simpl; [done| |].
  - rewrite IH, Forall_cons. tauto.
  - rewrite Forall_cons. destruct (H ss (entry_key e)) as [m ->]. split; [done|by intros [? _]].
Qed.

(** [smin] is a head key, and no head key is smaller. *)
Lemma smin_Some ss m :
  smin ss = Some m →
  (∃ e s, e :: s ∈ ss ∧ entry_key e = m) ∧ (∀ e s, e :: s ∈ ss → str_le m (entry_key e)).
Proof.
  unfold smin.
  assert (∀ acc, foldl smin_step acc ss = Some m →
    (acc = Some m ∨ ∃ e s, e :: s ∈ ss ∧ entry_key e = m) ∧
    (∀ e s, e :: s ∈ ss → str_le m (entry_key e)) ∧ (∀ a, acc = Some a → str_le m a)) as H.
  { induction ss as [|[|e s] ss IH]; intros acc Hf; simpl in Hf.
    - subst acc. split; [by left|]. split; [by intros ? ? ?%not_elem_of_nil|by intros a [= ->]].
    - destruct (IH _ Hf) as (H1 & H2 & H3). split; [|split; [|done]].
      + destruct H1 as [|(e & s & ? & ?)]; [by left|right]. exists e, s. by rewrite elem_of_cons; auto.
      + intros e s [?|?]%elem_of_cons; [done|]. by eapply H2.
    - destruct (IH _ Hf) as (H1 & H2 & H3).
      assert (str_le m (entry_key e) ∧ (∀ a, acc = Some a → str_le m a)) as [He Ha].
      { destruct acc as [a|]; [|split; [by apply H3|done]].
        destruct (str_ltb (entry_key e) a) eqn:E.
        - split; [by apply H3|]. intros a' [= <-]. etrans; [by apply H3|]. by apply str_lt_le.
        - specialize (H3 a eq_refl). split; [|by intros a' [= <-]].
          etrans; [done|]. done. }
      split_and!; [|by intros e' s' [[= -> ->]|?]%elem_of_cons; [|by eapply H2]|done].
      destruct H1 as [H1|(e' & s' & ? & ?)]; [|right; exists e', s'; by rewrite elem_of_cons; auto].
      destruct acc as [a|]; [destruct (str_ltb (entry_key e) a); [|by left]|];
        right; exists e, s; rewrite elem_of_cons; naive_solver. }
  intros Hf. destruct (H None Hf) as ([|H1] & H2 & _); [done|]. done.
Qed.

Lemma winner_smin ss m : smin ss = Some m → ∃ e, winner ss m = Some e.
Proof.
  intros [(e & s & Hin & He) _]%smin_Some. induction ss as [|[|x s'] ss IH]; simpl.
  - by apply not_elem_of_nil in Hin.
  - apply elem_of_cons in Hin as [?|Hin]; [done|]. by apply IH.
  - destruct (str_eqb (entry_key x) m) eqn:E; [eauto|].
    apply elem_of_cons in Hin as [[= <- <-]|Hin]; [|by apply IH].
    rewrite He, str_eqb_refl in E. done.
Qed.

Lemma length_advance m s : (length (advance m s) <= length s)%nat.
Proof. destruct s as [|e s]; simpl; [done|]. destruct (str_eqb _ _); simpl; lia. Qed.

Lemma total_advance ss m : smin ss = Some m → (total (map (advance m) ss) < total ss)%nat.
Proof.
  intros [(e & s & Hin & He) _]%smin_Some. unfold total.
  assert (∀ ss, (sum_list_with length (map (advance m) ss) <= sum_list_with length ss)%nat) as Hle.
  { clear. induction ss as [|s ss IH]; simpl; [done|]. pose proof (length_advance m s). lia. }
  induction ss as [|s' ss IH]; [by apply not_elem_of_nil in Hin|]. simpl.
  pose proof (length_advance m s'). apply elem_of_cons in Hin as [<-|Hin]; [|specialize (IH Hin); lia].
  specialize (Hle ss). unfold advance in *. simpl in *. rewrite He, str_eqb_refl in *. lia.
Qed.

Lemma length_drain n it : (length (drain n it) <= n)%nat.
Proof.
  revert it. induction n as [|n IH]; intros it; simpl; [lia|].
  destruct (it_Valid it); simpl; [specialize (IH (Next it))|]; lia.
Qed.

Lemma total_measure its : (total (map stream its) <= sum_list_with it_measure its)%nat.
Proof.
  unfold total. induction its as [|it its IH]; simpl; [done|].
  pose proof (length_drain (it_measure it) it). unfold stream in *. lia.
Qed.

(** The loop adds exactly the merged entries, in order, up to the first
    write error; with the fuel [CheckAndCompact] uses it ends. *)
Lemma merge_loop_smerge Sum64 fuel its b bottom :
  Forall it_wf its → (total (map stream its) < fuel)%nat →
  merge_loop Sum64 fuel its b bottom = builder_adds Sum64 b (smerge fuel (map stream its) bottom).
Proof.
  revert its b. induction fuel as [|fuel IH]; intros its b Hwf Hfuel; [lia|]. cbn [merge_loop smerge].
  pose proof (find_min_spec its Hwf) as Hmin. destruct (smin (map stream its)) as [m|] eqn:Em.
  2: { by rewrite Hmin. }
  destruct Hmin as (n & -> & Hn). rewrite (proj2 (Z.eqb_neq n 0)) by lia.
  pose proof (total_advance _ _ Em) as Ht. destruct (winner_smin _ _ Em) as [e He].
  pose proof (resolve_spec its m None Hwf) as Hres. destruct (resolve its m None) as [its' w].
  destruct Hres as (Hwf' & Hss & ->). rewrite He. cbn [fmap option_fmap option_map].
  pose proof (winner_key _ _ _ He) as Hk. destruct e as [[k v] t]. simpl in Hk. subst k.
  rewrite <-Hss in *. cbn [entry_tomb fst snd]. destruct (t && bottom); [apply IH; [done|lia]|].
  cbn [builder_adds]. destruct (builder_Add Sum64 b m v t) as [b' [[]|?|]]; [|done..].
  apply IH; [done|lia].
Qed.

(** ** What the merge keeps *)

(** After one round, the key of the round is gone and no other key moved. *)
Lemma advance_spec m s :
  sorted_entries s → (∀ e s', s = e :: s' → str_le m (entry_key e)) →
  sorted_entries (advance m s) ∧ Forall (λ e, str_lt m (entry_key e)) (advance m s) ∧
  (∀ k, k ≠ m → find_entry (advance m s) k = find_entry s k) ∧
  find_entry s m = match s with e :: _ => if str_eqb (entry_key e) m then Some e else None | [] => None end.
Proof.
  intros Hs Hm. destruct s as [|e s]; [done|]. unfold sorted_entries in *.
  pose proof Hs as Hs'. apply StronglySorted_cons in Hs' as [He Hs'].
  specialize (Hm e s eq_refl). rewrite Forall_forall in He.
  assert (∀ x, x ∈ s → str_lt (entry_key e) (entry_key x)) as Hx
    by (intros x ?; apply He, list_elem_of_fmap; eauto).
  unfold advance. rewrite find_entry_cons. unfold str_eqb.
  destruct (decide (entry_key e = m)) as [Heq|Hne].
  - rewrite bool_decide_eq_true_2 by done. split; [done|]. split; [|split; [|done]].
    + apply Forall_forall. intros x ?. rewrite <-Heq. by apply Hx.
    + intros k Hk. rewrite find_entry_cons, decide_False; congruence.
  - rewrite bool_decide_eq_false_2 by done. split; [done|].
    assert (str_lt m (entry_key e)) as Hlt by (apply str_le_lt_eq in Hm as [?|?]; congruence).
    assert (Forall (λ e, str_lt m (entry_key e)) (e :: s)) as Hall.
    { constructor; [done|]. apply Forall_forall. intros x ?. etrans; [done|]. by apply Hx. }
    split; [done|]. split; [done|].
    apply find_entry_None. intros (x & Hxm & Hin)%list_elem_of_fmap.
    rewrite Forall_forall in Hall. specialize (Hall x ltac:(by apply elem_of_cons; right)).
    rewrite <-Hxm in Hall. by apply (irreflexivity str_lt) in Hall.
Qed.

Lemma newest_advance ss m :
  Forall sorted_entries ss → (∀ e s, e :: s ∈ ss → str_le m (entry_key e)) →
  Forall sorted_entries (map (advance m) ss) ∧
  Forall (Forall (λ e, str_lt m (entry_key e))) (map (advance m) ss) ∧
  newest ss m = winner ss m ∧
  (∀ k, k ≠ m → newest (map (advance m) ss) k = newest ss k).
Proof.
  induction ss as [|s ss IH]; intros Hs Hm; simpl; [done|].
  apply Forall_cons in Hs as [Hs Hss].
  destruct IH as (H1 & H2 & H3 & H4); [done|intros e s' ?; apply (Hm e s'), elem_of_cons; auto|].
  destruct (advance_spec m s Hs) as (A1 & A2 & A3 & A4).
  { intros e s' ->. apply (Hm e s'), elem_of_cons; auto. }
  split_and!; [by constructor|by constructor| |].
  - rewrite A4. destruct s as [|e s]; [done|]. by destruct (str_eqb (entry_key e) m).
  - intros k Hk. by rewrite A3, H4 by done.
Qed.

Lemma elem_of_advance m s e : e ∈ advance m s → e ∈ s.
Proof.
  destruct s as [|x s]; simpl; [done|]. destruct (str_eqb _ _); [|done].
  intros. apply elem_of_cons; auto.
Qed.

Lemma winner_elem ss m e : winner ss m = Some e → ∃ s, s ∈ ss ∧ e ∈ s.
Proof.
  induction ss as [|[|x s] ss IH]; simpl; [done| |].
  - intros (s & ? & ?)%IH. exists s. by rewrite elem_of_cons; auto.
  - destruct (str_eqb _ _).
    + intros [= ->]. exists (e :: s). rewrite !elem_of_cons. auto.
    + intros (s' & ? & ?)%IH. exists s'. by rewrite elem_of_cons; auto.
Qed.

(** The merge invents nothing. *)
Lemma smerge_elem fuel ss bottom e : e ∈ smerge fuel ss bottom → ∃ s, s ∈ ss ∧ e ∈ s.
Proof.
  revert ss. induction fuel as [|fuel IH]; intros ss; simpl; [by intros ?%not_elem_of_nil|].
  destruct (smin ss) as [m|]; [|by intros ?%not_elem_of_nil].
  assert (e ∈ smerge fuel (map (advance m) ss) bottom → ∃ s, s ∈ ss ∧ e ∈ s) as Hrest.
  { intros (s' & (s & -> & Hs)%list_elem_of_fmap & He)%IH. exists s. split; [done|].
    by eapply elem_of_advance. }
  destruct (winner ss m) as [x|] eqn:Ew; [|done]. destruct (entry_tomb x && bottom); [done|].
  intros [->|?]%elem_of_cons; [|by apply Hrest]. by eapply winner_elem.
Qed.

(** Newest entry per key, tombstones dropped at the bottom. *)
Definition kept (bottom : bool) (o : option sst_entry) : option sst_entry :=
  e ← o; if entry_tomb e && bottom then None else Some e.

Lemma smerge_spec fuel ss bottom :
  Forall sorted_entries ss → (total ss < fuel)%nat →
  sorted_entries (smerge fuel ss bottom) ∧
  (∀ k, find_entry (smerge fuel ss bottom) k = kept bottom (newest ss k)).
Proof.
  revert ss. induction fuel as [|fuel IH]; intros ss Hs Hf; [lia|]. cbn [smerge].
  destruct (smin ss) as [m|] eqn:Em.
  2: { split; [constructor|]. intros k. rewrite find_entry_nil. apply smin_None in Em.
       clear Hs Hf. induction Em as [|s ss -> _ IHs]; simpl; [done|]. done. }
  pose proof (total_advance _ _ Em) as Ht. destruct (winner_smin _ _ Em) as [w Hw].
  destruct (smin_Some _ _ Em) as [_ Hmin].
  destruct (newest_advance ss m Hs Hmin) as (A1 & A2 & A3 & A4). rewrite Hw in A3 |- *.
  destruct (IH (map (advance m) ss) A1 ltac:(lia)) as [Hsort Hfind].
  set (rest := smerge fuel (map (advance m) ss) bottom) in *.
  assert (∀ e, e ∈ rest → str_lt m (entry_key e)) as Hgt.
  { intros e (s & Hin & He)%smerge_elem. rewrite Forall_forall in A2. specialize (A2 s Hin).
    rewrite Forall_forall in A2. by apply A2. }
  assert (find_entry rest m = None) as Hnone.
  { apply find_entry_None. intros (x & Hx & Hin)%list_elem_of_fmap. specialize (Hgt x Hin).
    rewrite <-Hx in Hgt. by apply (irreflexivity str_lt) in Hgt. }
  pose proof (winner_key _ _ _ Hw) as Hk.
  destruct (entry_tomb w && bottom) eqn:Et.
  - split; [done|]. intros k. destruct (decide (k = m)) as [->|Hne]; [|by rewrite Hfind, A4].
    rewrite Hnone, A3. simpl. by rewrite Et.
  - split.
    + unfold sorted_entries. simpl. apply StronglySorted_cons. split; [|done].
      rewrite Forall_forall. intros x (e & -> & He)%list_elem_of_fmap. rewrite Hk. by apply Hgt.
    + intros k. rewrite find_entry_cons, Hk. destruct (decide (m = k)) as [<-|Hne].
      * rewrite A3. simpl. by rewrite Et.
      * by rewrite Hfind, A4.
Qed.

(** ** Compaction of a level *)

(** File [n] of the directory is a clean table of the sorted entries [es]. *)
Definition table_of (d : dir) (n : bytes) (es : list sst_entry) : Prop :=
  ∃ T, d !! n = Some T ∧ clean_table T es ∧ Forall entry_fits es ∧ sorted_entries es.

Lemma sorted_presented es : sorted_entries es → sorted_entries (map presented es).
Proof.
  unfold sorted_entries. rewrite map_map. intros Hs. erewrite map_ext; [exact Hs|done].
Qed.

Lemma find_presented es k : find_entry (map presented es) k = presented <$> find_entry es k.
Proof.
  induction es as [|e es IH]; [done|]. cbn [map]. rewrite !find_entry_cons.
  change (entry_key (presented e)) with (entry_key e). by destruct (decide (entry_key e = k)).
Qed.

Lemma entry_fits_presented e : entry_fits e → entry_fits (presented e).
Proof. by destruct e as [[k v] []]. Qed.

(** The iterators of clean tables stream the tables' entries. *)
Lemma open_iterators_spec d files ess :
  Forall2 (table_of d) files ess →
  ∃ its, open_iterators d files = Ok its ∧ Forall it_wf its ∧
    Forall sorted_entries (map stream its) ∧
    Forall (Forall entry_fits) (map stream its) ∧
    ∀ k, newest (map stream its) k = presented <$> newest ess k.
Proof.
  induction 1 as [|n es files ess (T & HT & Hc & Hfit & Hs) _ IH]; [by exists []|].
  destruct IH as (its & Hits & Hwf & Hsort & Hfits & Hn).
  destruct (clean_table_iterator T es Hc Hfit) as (it & Hit & Hw & Hst).
  simpl. unfold Open. rewrite HT, Hit. cbn [mbind outcome_bind]. rewrite Hits. cbn [mbind outcome_bind].
  eexists. split; [done|].
  assert (∀ k, match find_entry (map presented es) k with Some e => Some e | None => newest (map stream its) k end =
    presented <$> match find_entry es k with Some e => Some e | None => newest ess k end) as Hk.
  { intros k. rewrite find_presented, Hn. by destruct (find_entry es k). }
  pose proof (stream_head it Hw) as Hh. destruct (it_Valid it).
  - cbn [map newest]. rewrite Hst. split_and!; [by constructor|constructor; [by apply sorted_presented|done]| |done].
    constructor; [|done]. apply Forall_map. eapply Forall_impl; [done|]. apply entry_fits_presented.
  - split_and!; [done..|]. intros k. specialize (Hk k). rewrite <-Hst, Hh in Hk.
    rewrite find_entry_nil in Hk. done.
Qed.

(** The merged entries of a level's iterators. *)
Definition merged (its : list SSTableIterator) (bottom : bool) : list sst_entry :=
  smerge (merge_fuel its) (map stream its) bottom.

Lemma merge_loop_merged Sum64 its b bottom :
  Forall it_wf its →
  merge_loop Sum64 (merge_fuel its) its b bottom = builder_adds Sum64 b (merged its bottom).
Proof.
  intros Hwf. apply merge_loop_smerge; [done|]. pose proof (total_measure its). unfold merge_fuel. lia.
Qed.

Lemma merged_spec its bottom :
  Forall sorted_entries (map stream its) →
  sorted_entries (merged its bottom) ∧
  (∀ k, find_entry (merged its bottom) k = kept bottom (newest (map stream its) k)).
Proof.
  intros Hs. apply smerge_spec; [done|]. pose proof (total_measure its). unfold merge_fuel. lia.
Qed.

Lemma merged_fits its bottom :
  Forall (Forall entry_fits) (map stream its) → Forall entry_fits (merged its bottom).
Proof.
  intros Hf. apply Forall_forall. intros e (s & Hs & He)%smerge_elem.
  rewrite Forall_forall in Hf. specialize (Hf s Hs). rewrite Forall_forall in Hf. by apply Hf.
Qed.

Lemma kept_presented bottom o : kept bottom (presented <$> o) = presented <$> kept bottom o.
Proof. destruct o as [[[k v] t]|]; simpl; [|done]. by destruct (t && bottom). Qed.

(** The directory after a compaction that met no write error. *)
Lemma CheckAndCompact_ok Sum64 d level now its :
  maxLevelFiles <= len (getFilesForLevel d level) →
  open_iterators d (getFilesForLevel d level) = Ok its → Forall it_wf its →
  ∃ T, build_table Sum64 10000 (merged its (maxLevelFiles <=? level + 1)) = Ok T ∧
    let d' := foldl (λ d f, delete f d) (<[sst_name (level + 1) now := T]> d) (getFilesForLevel d level) in
    CheckAndCompact Sum64 d level now (Ok []) =
      (d', rs ← refreshSSTables d'; Ok (Some (level + 1, rs))).
Proof.
  intros Hlen Hits Hwf. unfold CheckAndCompact, build_table.
  rewrite (proj2 (Z.ltb_ge _ _)) by done. rewrite Hits. cbn [mbind outcome_bind].
  destruct (NewBuilder_inv Sum64 (mkFile [] 0 []) 10000 ltac:(lia) eq_refl) as (b & -> & Hb).
  rewrite merge_loop_merged by done. cbn [mbind outcome_bind].
  destruct (builder_adds_inv Sum64 b [] (merged its (maxLevelFiles <=? level + 1)) Hb) as (b1 & -> & Hb1).
  cbn [mbind outcome_bind].
  destruct (builder_Close_spec Sum64 b1 _ Hb1) as (b2 & -> & Hd). cbn [mbind outcome_bind].
  eexists. split; [done|]. done.
Qed.

Lemma foldl_delete (d : dir) files n :
  foldl (λ d f, delete f d) d files !! n = if decide (n ∈ files) then None else d !! n.
Proof.
  revert d. induction files as [|f files IH]; intros d; cbn [foldl].
  - destruct (decide _) as [H|]; [by apply not_elem_of_nil in H|done].
  - rewrite IH. destruct (decide (n ∈ files)) as [Hin|Hin];
      destruct (decide (n ∈ f :: files)) as [Hin'|Hin']; rewrite elem_of_cons in Hin'; try tauto.
    + destruct (decide (n = f)) as [->|]; [apply lookup_delete_eq|tauto].
    + apply lookup_delete_ne. intros ->. tauto.
Qed.

Lemma elem_of_getFilesForLevel d level n :
  n ∈ getFilesForLevel d level ↔
    is_Some (d !! n) ∧ HasPrefix n (level_prefix level) = true ∧ HasSuffix n sst_suffix = true.
Proof.
  unfold getFilesForLevel. rewrite elem_of_sort_reverse, list_elem_of_filter, elem_of_ReadDir, andb_true_iff.
  tauto.
Qed.

(** An executable check for [table_of]. *)
Definition check_table (d : dir) (n : bytes) (es : list sst_entry) : bool :=
  match d !! n with
  | None => false
  | Some T =>
      let rest := drop (length (data_bytes es)) T in
      bool_decide (take (length (data_bytes es)) T = data_bytes es) &&
      (8 <=? len rest) && ends_at rest &&
      forallb (λ e, (len (entry_key e) <? 2 ^ 16) && (len (entry_value e) <? 2 ^ 32)) es &&
      bool_decide (StronglySorted str_lt (map entry_key es))
  end.

Lemma check_table_sound d n es : check_table d n es = true → table_of d n es.
Proof.
  unfold check_table, table_of. destruct (d !! n) as [T|]; [|done].
  rewrite !andb_true_iff, !bool_decide_eq_true, forallb_forall.
  intros ((((H1 & H2) & H3) & H4) & H5). exists T. split; [done|]. split; [|split].
  - exists (drop (length (data_bytes es)) T). split; [by rewrite <-H1 at 1; rewrite take_drop|].
    split; [by apply Z.leb_le|done].
  - apply Forall_forall. intros e He. apply list_elem_of_In, H4, andb_true_iff in He as [?%Z.ltb_lt ?%Z.ltb_lt].
    done.
  - done.
Qed.

Lemma check_tables_sound d files ess :
  length files = length ess → forallb (λ '(n, es), check_table d n es) (zip files ess) = true →
  Forall2 (table_of d) files ess.
Proof.
  revert ess. induction files as [|n files IH]; intros [|es ess] Hl H; try discriminate Hl;
    [constructor|].
  simpl in *. apply andb_true_iff in H as [H1 H2]. constructor; [by apply check_table_sound|].
  apply IH; [congruence|done].
Qed.

(** * Properties *)


(** Four tables of level 0, newest first: the latest deletes ["user1"]. *)
Definition key_user1 : bytes := [Byte.x75; Byte.x73; Byte.x65; Byte.x72; Byte.x31].
Definition key_user2 : bytes := [Byte.x75; Byte.x73; Byte.x65; Byte.x72; Byte.x32].
Definition demo_level : list (list sst_entry) :=
  [[(key_user1, [], true)];
   [(key_user1, [Byte.x41], false); (key_user2, [Byte.x42], false)];
   [(key_user2, [Byte.x43], false)];
   [(key_user1, [Byte.x44], false)]].
Definition demo_names (level : Z) : list bytes :=
  map (sst_name level) [1700000000000000004; 1700000000000000003; 1700000000000000002; 1700000000000000001].
Definition demo_file (es : list sst_entry) : bytes :=
  match build_table demo_hash (len es) es with Ok T => T | _ => [] end.
Definition demo_dir (level : Z) : dir :=
  list_to_map (zip (demo_names level) (map demo_file demo_level)).


(** The order of the inputs is the order of age: the files of a level,
    when named by 19-digit times, are listed from the latest to the earliest,
    so the entry the merge keeps is the latest written. *)
Theorem level_files_newest_first d level ts :
  getFilesForLevel d level = map (sst_name level) ts → Forall nano_time ts →
  StronglySorted Z.gt ts.
Proof.
  intros Hf Hts.
  assert (StronglySorted (flip str_lt) (map (sst_name level) ts)) as Hs.
  { rewrite <-Hf. unfold getFilesForLevel.
    apply sort_reverse_strict, NoDup_filter, NoDup_ReadDir. }
  clear Hf. induction ts as [|t ts IH]; [constructor|].
  apply Forall_cons in Hts as [Ht Hts]. simpl in Hs. apply StronglySorted_cons in Hs as [Hlt Hs].
  constructor; [by apply IH|]. rewrite Forall_forall in Hlt. rewrite Forall_forall in Hts |- *. intros t' Ht'.
  specialize (Hts t' Ht'). specialize (Hlt (sst_name level t') ltac:(apply list_elem_of_fmap; eauto)).
  unfold flip in Hlt. destruct (Z_lt_le_dec t' t) as [?|Hle]; [lia|].
  exfalso. destruct (Z.eq_dec t t') as [->|]; [by apply (irreflexivity str_lt) in Hlt|].
  apply (irreflexivity str_lt (sst_name level t)). etrans; [|exact Hlt]. apply sst_name_lt; [done..|lia].
Qed.

Lemma level_files_newest_first_witness :
  StronglySorted Z.gt [1700000000000000004; 1700000000000000003; 1700000000000000002; 1700000000000000001].
Proof.
  apply (level_files_newest_first (demo_dir 0) 0).
  - vm_compute. reflexivity.
  - repeat (apply Forall_cons_2; [unfold nano_time; lia|]). apply Forall_nil_2.
Defined.

(** C37. Totality: on any directory, with any contents of its files and any
    write faults of the output file, a compaction ends with a result or an
    error: the merge loop never runs out and nothing in it panics.  A panic
    can only come from opening the tables of the resulting directory again. *)
Theorem compaction_total Sum64 d level now created :
  created ≠ Panic →
  snd (CheckAndCompact Sum64 d level now created) = Panic →
  refreshSSTables (fst (CheckAndCompact Sum64 d level now created)) = Panic.
Proof.
  intros Hc. unfold CheckAndCompact. destruct (_ <? _); [done|].
  assert (∀ files, ∃ r, open_iterators d files = r ∧ r ≠ Panic ∧
    ∀ its, r = Ok its → Forall it_wf its) as Hopen.
  { induction files as [|n files (r & Hr & Hn & Hwf)]; [eexists; split; [done|]; split; [done|by intros ? [= <-]]|].
    simpl. unfold Open. destruct (d !! n) as [T|]; cbn [mbind outcome_bind NewIterator];
      [|eexists; split_and!; done].
    rewrite Hr. clear Hr. destruct r as [its|e|]; cbn [mbind outcome_bind]; [|eexists; split_and!; done|by destruct Hn].
    eexists. split; [done|]. split; [done|]. intros its' [= <-]. specialize (Hwf its eq_refl).
    destruct (it_Valid _); [|done]. constructor; [|done].
    apply Next_spec. unfold it_wf; simpl. len_lia. }
  destruct (Hopen (getFilesForLevel d level)) as (r & -> & Hn & Hwf).
  destruct r as [its|e|]; [|done|by destruct Hn]. specialize (Hwf its eq_refl).
  destruct created as [faults|e|]; [|done|by destruct Hc]. cbn [mbind outcome_bind NewBuilder].
  rewrite merge_loop_merged by done.
  pose proof (builder_adds_no_panic Sum64 (mkBuilder (mkFile [] 0 faults) [] (bloom_New 10000) 0 0)
    (merged its (maxLevelFiles <=? level + 1)) []) as Hnp.
  destruct (builder_adds Sum64 _ _) as [b r]. destruct r as [[]|e|]; [|done|by exfalso; apply Hnp; [apply filter_new|]].
  destruct (builder_Close b) as [b2 r2]. simpl. by destruct (refreshSSTables _).
Qed.

Lemma compaction_total_witness :
  let x := CheckAndCompact demo_hash (demo_dir 0) 0 1700000000000000009
             (Ok (repeat None 7 ++ [Some 0%nat])) in
  snd x = Panic ∧ refreshSSTables (fst x) = Panic.
Proof.
  split; [vm_compute; reflexivity|]. apply (compaction_total demo_hash); [discriminate|].
  vm_compute. reflexivity.
Defined.

(** Four tables that each hold the one-byte key ["a"]. *)
Definition short_dir : dir :=
  list_to_map (zip (demo_names 0) (repeat (demo_file [([Byte.x61], [Byte.x31], false)]) 4)).

(** Compaction of well-formed tables can write entries nobody stored:
    the four inputs hold the one-byte key ["a"] only, the iterators run on
    into the index of each file, and the merged entries contain a tombstone
    with a key of 24832 bytes. *)
Theorem compaction_writes_garbage :
  ∃ its e, open_iterators short_dir (getFilesForLevel short_dir 0) = Ok its ∧
    e ∈ merged its false ∧ entry_tomb e = true ∧ len (entry_key e) = 24832.
Proof.
  set (ok := match open_iterators short_dir (getFilesForLevel short_dir 0) with
             | Ok its => existsb (λ e, entry_tomb e && (len (entry_key e) =? 24832)) (merged its false)
             | _ => false
             end).
  assert (ok = true) as Hok by (vm_compute; reflexivity). unfold ok in Hok. clear ok.
  destruct (open_iterators short_dir (getFilesForLevel short_dir 0)) as [its|e|]; [|discriminate Hok..].
  apply existsb_exists in Hok as (e & He & [Ht Hl]%andb_true_iff).
  exists its, e. split; [reflexivity|]. split; [by apply list_elem_of_In|].
  split; [exact Ht|]. by apply Z.eqb_eq.
Qed.

(** An error while the output table is completed is dropped: here the
    write of the index fails after the data was written.  The inputs are
    removed all the same, the only file left is the incomplete table, and
    opening it panics, during the compaction and at every later start. *)
Theorem compaction_close_error_loses_tables :
  ∃ d' T, CheckAndCompact demo_hash (demo_dir 0) 0 1700000000000000009 (Ok (repeat None 7 ++ [Some 0%nat]))
      = (d', Panic) ∧
    map_to_list d' = [(sst_name 1 1700000000000000009, T)] ∧
    OpenSSTable T = Panic ∧ refreshSSTables d' = Panic.
Proof.
  set (x := CheckAndCompact _ _ _ _ _).
  assert (snd x = Panic) as H1 by (vm_compute; reflexivity).
  assert (map_to_list (fst x) =
    [(sst_name 1 1700000000000000009, data_bytes [(key_user1, [], true); (key_user2, [Byte.x42], false)])])
    as H2 by (vm_compute; reflexivity).
  exists (fst x), (data_bytes [(key_user1, [], true); (key_user2, [Byte.x42], false)]).
  split; [by rewrite <-H1, <-surjective_pairing|]. split; [exact H2|].
  split; vm_compute; reflexivity.
Qed.
