(* ===== verification/Levels.v ===== *)
(** * kv/compact.go: the level metrics

    [reportLevelMetrics], which [refreshSSTables] calls after every flush and
    compaction: it counts the table files of each level and adds up their
    sizes, and sets the two gauges of every level it found. *)

From stdpp Require Import base list gmap sorting.
From Stdlib Require Import ZArith Lia.
From S2P Require Import Prelude GoFile GoDir GoText Metrics SSTable SSTReader SSTIterator Compact.

(** [fmt.Sscanf(name, "L%d_", &level)] with [level] 0 before; what was read
    stays when the rest does not match. *)
Definition scan_level (name : bytes) : Z :=
  if HasPrefix name [Byte.x4c] then
    match scan_int (drop 1 name) with Some (n, _) => n | None => 0 end
  else 0.

Definition add_to (m : gmap Z Z) (k v : Z) : gmap Z Z := <[k := f64 (default 0 (m !! k) + v)]> m.

(** The loop over the directory entries with the size [f.Info()] reports;
    [None]: [Info] failed, and the nil result is used. *)
Fixpoint level_loop (files : list (bytes * option Z)) (levelCounts levelSizes : gmap Z Z) : outcome (gmap Z Z * gmap Z Z) :=
  match files with
  | [] => Ok (levelCounts, levelSizes)
  | (name, info) :: files' =>
      if HasSuffix name sst_suffix then
        let level := scan_level name in
        match info with
        | None => Panic
        | Some size => level_loop files' (add_to levelCounts level 1) (add_to levelSizes level (f64 size))
        end
      else level_loop files' levelCounts levelSizes
  end.

(** Both gauges of one level. *)
Definition level_calls (me : Z) (levelSizes : gmap Z Z) (lc : Z * Z) : list metric_call :=
  [Gauge_Set LevelFileCount [itoa me; itoa lc.1] lc.2;
   Gauge_Set LevelSize [itoa me; itoa lc.1] (default 0 (levelSizes !! lc.1))].

(** The order of the levels is that of a Go map: any. *)
Definition reportLevelMetrics (me : Z) (files : list (bytes * option Z)) (order : gmap Z Z → list (Z * Z))
  : outcome (list metric_call) :=
  '(levelCounts, levelSizes) ← level_loop files ∅ ∅;
  Ok (flat_map (level_calls me levelSizes) (order levelCounts)).

(** An iteration order of a Go map. *)
Definition map_order (order : gmap Z Z → list (Z * Z)) : Prop := ∀ m, Permutation (order m) (map_to_list m).

(** The directory as [os.ReadDir] lists it, with sizes. *)
Definition dir_files (d : dir) : list (bytes * option Z) := map (λ n, (n, len <$> d !! n)) (ReadDir d).

(** ** Lemmas *)

(** The table files of a level. *)
Definition in_level (level : Z) (f : bytes * option Z) : bool := HasSuffix f.1 sst_suffix && (scan_level f.1 =? level).
Definition level_count (level : Z) (files : list (bytes * option Z)) : Z := len (List.filter (in_level level) files).
Definition level_size (level : Z) (files : list (bytes * option Z)) : Z :=
  foldr Z.add 0 (map (λ f, default 0 f.2) (List.filter (in_level level) files)).

Definition sizes_ok (files : list (bytes * option Z)) : Prop :=
  Forall (λ f, ∃ s, f.2 = Some s ∧ 0 <= s) files ∧ foldr Z.add 0 (map (λ f, default 0 f.2) files) < 2 ^ 53 ∧ len files < 2 ^ 53.

Lemma sum_nonneg l : Forall (λ z, 0 <= z) l → 0 <= foldr Z.add 0 l.
Proof. induction 1; simpl; lia. Qed.

Lemma level_size_bound k files :
  Forall (λ f : bytes * option Z, ∃ s, f.2 = Some s ∧ 0 <= s) files →
  0 <= level_size k files <= foldr Z.add 0 (map (λ f, default 0 f.2) files).
Proof.
  unfold level_size. induction 1 as [|[n i] files (s & Hs & H0) _ IH]; simpl in *; [lia|]. subst i.
  destruct (in_level k (n, Some s)); simpl; lia.
Qed.

Lemma add_to_lookup m k v k' :
  add_to m k v !! k' = if decide (k = k') then Some (f64 (default 0 (m !! k) + v)) else m !! k'.
Proof. unfold add_to. destruct (decide (k = k')) as [<-|]; [by rewrite lookup_insert_eq|by rewrite lookup_insert_ne]. Qed.

(** What the loop adds to the two maps, as long as no sum leaves 53 bits. *)
Lemma level_loop_spec files C S :
  Forall (λ f : bytes * option Z, ∃ s, f.2 = Some s ∧ 0 <= s) files →
  (∀ k, 0 <= default 0 (C !! k) ∧ default 0 (C !! k) + len files < 2 ^ 53) →
  (∀ k, 0 <= default 0 (S !! k) ∧ default 0 (S !! k) + foldr Z.add 0 (map (λ f, default 0 f.2) files) < 2 ^ 53) →
  ∃ C' S', level_loop files C S = Ok (C', S') ∧ ∀ k,
    C' !! k = (if level_count k files =? 0 then C !! k else Some (default 0 (C !! k) + level_count k files)) ∧
    default 0 (S' !! k) = default 0 (S !! k) + level_size k files.
Proof.
  intros Hf. revert C S. induction Hf as [|[n i] files (s & Hs & H0) Hf IH]; intros C S HC HS; simpl in *.
  { exists C, S. split; [done|]. intros k. split; [done|]. unfold level_size. simpl. lia. }
  subst i. pose proof (sum_nonneg (map (λ f, default 0 f.2) files)) as Hsum. destruct (HasSuffix n sst_suffix) eqn:Hn.
  2: { destruct (IH C S) as (C' & S' & -> & H).
       - intros k. specialize (HC k). rewrite len_cons in HC. lia.
       - intros k. specialize (HS k). simpl in HS. lia.
       - exists C', S'. split; [done|]. intros k. destruct (H k) as [H1 H2].
         unfold level_count, level_size, in_level in *. simpl. rewrite Hn. done. }
  set (l := scan_level n) in *.
  assert (0 <= foldr Z.add 0 (map (λ f : bytes * option Z, default 0 f.2) files)) as Hs0.
  { apply Hsum, Forall_map. eapply Forall_impl; [done|]. intros [? ?] (s' & Hs' & ?). simpl in *. by subst. }
  pose proof (HC l) as HCl. pose proof (HS l) as HSl. rewrite len_cons in HCl. pose proof (len_nonneg files). simpl in HSl.
  assert (f64 (default 0 (C !! l) + 1) = default 0 (C !! l) + 1) as E1 by (apply f64_small; lia).
  assert (f64 s = s) as E2 by (apply f64_small; lia).
  assert (f64 (default 0 (S !! l) + s) = default 0 (S !! l) + s) as E3 by (apply f64_small; lia).
  destruct (IH (add_to C l 1) (add_to S l (f64 s))) as (C' & S' & -> & HK).
  - intros k. rewrite add_to_lookup. specialize (HC k). rewrite len_cons in HC.
    destruct (decide _) as [<-|]; simpl; lia.
  - intros k. rewrite add_to_lookup, E2. specialize (HS k). simpl in HS. destruct (decide _) as [<-|]; simpl; lia.
  - exists C', S'. split; [done|]. intros k. destruct (HK k) as [H1 H2]. rewrite add_to_lookup in H1.
    rewrite add_to_lookup, E2 in H2. unfold level_count, level_size, in_level in *. simpl. rewrite Hn. fold l. simpl.
    pose proof (len_nonneg (List.filter (λ f : bytes * option Z, HasSuffix f.1 sst_suffix && (scan_level f.1 =? k)) files)).
    rewrite H1, H2. destruct (decide (l = k)) as [<-|Hne]; [|by rewrite (proj2 (Z.eqb_neq l k))].
    rewrite Z.eqb_refl. simpl. rewrite len_cons, E1, E3. split; [|lia].
    repeat match goal with |- context [?x =? 0] => destruct (Z.eqb_spec x 0) end; (lia || f_equal; lia).
Qed.

Definition level_num (level : Z) : Prop := 0 <= level < 2 ^ 63.

Lemma scan_level_name level t : level_num level → scan_level (sst_name level t) = level.
Proof.
  intros Hl. unfold scan_level.
  change (sst_name level t) with (Byte.x4c :: (itoa level ++ [Byte.x5f]) ++ itoa t ++ sst_suffix).
  rewrite <-app_assoc. change (HasPrefix (Byte.x4c :: ?r) [Byte.x4c]) with (HasPrefix ([Byte.x4c] ++ r) [Byte.x4c]).
  rewrite HasPrefix_app. cbn [drop app]. rewrite drop_0. by rewrite scan_int_itoa.
Qed.

Lemma level_prefix_name level t : HasPrefix (sst_name level t) (level_prefix level) = true.
Proof. apply HasPrefix_app. Qed.

(** A directory of the store: its table files are named by [sst_name]. *)
Definition level_dir (d : dir) : Prop :=
  ∀ n, is_Some (d !! n) → HasSuffix n sst_suffix = true → ∃ l t, n = sst_name l t ∧ level_num l.

(** The total size of the files of a level, as [CheckAndCompact] sees it. *)
Definition level_total (d : dir) (level : Z) : Z :=
  foldr Z.add 0 (map (λ n, len (default [] (d !! n))) (getFilesForLevel d level)).

Section levels.
Context (d : dir) (level : Z).
Hypothesis Hd : level_dir d.
Hypothesis Hl : level_num level.

Lemma in_level_name n s : n ∈ ReadDir d → in_level level (n, s) = HasPrefix n (level_prefix level) && HasSuffix n sst_suffix.
Proof.
  intros Hn%elem_of_ReadDir. unfold in_level. simpl. destruct (HasSuffix n sst_suffix) eqn:Hs; [|by rewrite andb_false_r].
  destruct (Hd n Hn Hs) as (l & t & -> & Hl'). rewrite scan_level_name by done. rewrite andb_true_r. simpl.
  destruct (Z.eqb_spec l level) as [->|Hne]; [by rewrite level_prefix_name|]. symmetry. apply not_true_iff_false. intros Hp.
  apply Hne. eapply sst_name_prefix; [..|done]; unfold level_num, max_dec in *; lia.
Qed.

(** Both sides walk through the same names. *)
Lemma level_files : Permutation (map fst (List.filter (in_level level) (dir_files d))) (getFilesForLevel d level).
Proof.
  unfold getFilesForLevel, sort_reverse. rewrite reverse_Permutation. unfold sort_strings. rewrite merge_sort_Permutation.
  unfold dir_files. assert (∀ n, n ∈ ReadDir d → n ∈ ReadDir d) as Hin by done. revert Hin. generalize (ReadDir d) at 1 3 4.
  induction l as [|n l IH]; intros Hin; [done|]. cbn [map List.filter].
  rewrite in_level_name by (apply Hin; by left). rewrite filter_cons.
  specialize (IH ltac:(intros x Hx; apply Hin; by right)).
  destruct (HasPrefix _ _ && HasSuffix _ _); [rewrite decide_True by done|rewrite decide_False by done]; simpl; [by f_equiv|done].
Qed.

Lemma level_count_files : level_count level (dir_files d) = len (getFilesForLevel d level).
Proof. unfold level_count, len. by rewrite <-level_files, length_map. Qed.

Lemma sum_perm l k : Permutation l k → foldr Z.add 0 l = foldr Z.add 0 k.
Proof. induction 1; simpl; lia. Qed.

Lemma level_size_files : level_size level (dir_files d) = level_total d level.
Proof.
  unfold level_size, level_total. rewrite <-(sum_perm _ _ (Permutation_map (λ n, len (default [] (d !! n))) level_files)), map_map.
  f_equal. apply map_ext_in. intros [n s] [Hin _]%filter_In. simpl. unfold dir_files in Hin.
  apply in_map_iff in Hin as (n' & [= -> <-] & _). by destruct (d !! n).
Qed.
End levels.

Lemma level_count_pos level files : level_count level files ≠ 0 → ∃ f, f ∈ files ∧ in_level level f = true.
Proof.
  unfold level_count. intros H. destruct (List.filter (in_level level) files) as [|f l] eqn:E; [done|].
  exists f. rewrite list_elem_of_In, <-(filter_In (in_level level)), E. by left.
Qed.

Lemma dir_levels d level : level_dir d → level_count level (dir_files d) ≠ 0 → level_num level.
Proof.
  intros Hd ([n s] & Hin & Hf)%level_count_pos. unfold in_level in Hf. apply andb_true_iff in Hf as [Hs Hl%Z.eqb_eq].
  unfold dir_files in Hin. apply list_elem_of_fmap in Hin as (n' & [= -> _] & Hn%elem_of_ReadDir).
  simpl in *. destruct (Hd n' Hn Hs) as (l & t & -> & Hl'). rewrite scan_level_name in Hl by done. by subst.
Qed.

(** The loop on a directory. *)
Lemma dir_loop d :
  len (ReadDir d) < 2 ^ 53 → foldr Z.add 0 (map (λ f, default 0 f.2) (dir_files d)) < 2 ^ 53 →
  ∃ C S, level_loop (dir_files d) ∅ ∅ = Ok (C, S) ∧ ∀ k,
    C !! k = (if level_count k (dir_files d) =? 0 then None else Some (level_count k (dir_files d))) ∧
    default 0 (S !! k) = level_size k (dir_files d).
Proof.
  intros Hlen Hsum. destruct (level_loop_spec (dir_files d) ∅ ∅) as (C & S & E & H).
  - unfold dir_files. apply Forall_forall. intros f (n & -> & Hn%elem_of_ReadDir)%list_elem_of_fmap.
    destruct Hn as [T HT]. exists (len T). simpl. rewrite HT. split; [done|apply len_nonneg].
  - intros k. rewrite lookup_empty. simpl. unfold dir_files. rewrite len_map. lia.
  - intros k. rewrite lookup_empty. simpl. lia.
  - exists C, S. split; [done|]. intros k. destruct (H k) as [H1 H2]. by rewrite lookup_empty in H1, H2.
Qed.

(** The calls for one level among those of all levels. *)
Lemma elem_of_level_calls me S lcs level v :
  Forall (λ lc : Z * Z, level_num lc.1) lcs → level_num level →
  (Gauge_Set LevelFileCount [itoa me; itoa level] v ∈ flat_map (level_calls me S) lcs ↔ (level, v) ∈ lcs) ∧
  (Gauge_Set LevelSize [itoa me; itoa level] v ∈ flat_map (level_calls me S) lcs ↔
     ∃ c, (level, c) ∈ lcs ∧ v = default 0 (S !! level)).
Proof.
  intros Hn Hl. rewrite Forall_forall in Hn.
  assert (∀ l c, (l, c) ∈ lcs → itoa l = itoa level → l = level) as Hinj.
  { intros l c Hin Hi. specialize (Hn _ Hin). simpl in Hn. apply itoa_inj in Hi; unfold level_num, max_dec in *; lia. }
  split; rewrite list_elem_of_In, in_flat_map; split.
  - intros ([l c] & Hin%list_elem_of_In & [[= Hi <-]|[[=]|[]]]). by rewrite <-(Hinj l c).
  - intros Hin. exists (level, v). split; [by apply list_elem_of_In|by left].
  - intros ([l c] & Hin%list_elem_of_In & [[=]|[[= Hi <-]|[]]]). exists c. by rewrite <-(Hinj l c).
  - intros (c & Hin & ->). exists (level, c). split; [by apply list_elem_of_In|right; by left].
Qed.

(** Level metrics: for a store directory (tables named by level and time,
    in all less than 2^53 bytes and files), after [reportLevelMetrics] the
    gauges of a level were set if and only if [getFilesForLevel] finds a file
    of the level, once, to the number and to the total size of these files.
    So a level that compaction has emptied keeps the value it had. *)
Theorem level_metrics_exact me d order :
  map_order order → level_dir d → len (ReadDir d) < 2 ^ 53 → foldr Z.add 0 (map (λ f, default 0 f.2) (dir_files d)) < 2 ^ 53 →
  ∃ calls, reportLevelMetrics me (dir_files d) order = Ok calls ∧
    ∀ level v, level_num level →
      (Gauge_Set LevelFileCount [itoa me; itoa level] v ∈ calls ↔
         getFilesForLevel d level ≠ [] ∧ v = len (getFilesForLevel d level)) ∧
      (Gauge_Set LevelSize [itoa me; itoa level] v ∈ calls ↔
         getFilesForLevel d level ≠ [] ∧ v = level_total d level).
Proof.
  intros Ho Hd Hlen Hsum. destruct (dir_loop d Hlen Hsum) as (C & S & E & HC).
  eexists. split; [unfold reportLevelMetrics; by rewrite E|]. intros level v Hl.
  assert (∀ l c, (l, c) ∈ order C ↔ level_count l (dir_files d) ≠ 0 ∧ c = level_count l (dir_files d)) as Hin.
  { intros l c. rewrite (Ho C), elem_of_map_to_list. destruct (HC l) as [-> _].
    destruct (Z.eqb_spec (level_count l (dir_files d)) 0); naive_solver. }
  assert (Forall (λ lc : Z * Z, level_num lc.1) (order C)) as Hn.
  { apply Forall_forall. intros [l c] [? _]%Hin. by eapply dir_levels. }
  assert (level_count level (dir_files d) ≠ 0 ↔ getFilesForLevel d level ≠ []) as Hne.
  { rewrite level_count_files by done. by destruct (getFilesForLevel d level). }
  destruct (HC level) as [_ HS].
  destruct (elem_of_level_calls me S (order C) level v Hn Hl) as [E1 E2].
  rewrite E1, E2, <-Hne, HS, level_size_files by done. setoid_rewrite Hin.
  rewrite level_count_files by done. naive_solver.
Qed.

(** Two tables of level 0 and one of level 1. *)
Definition demo_levels : dir :=
  <[sst_name 0 5 := [Byte.x01; Byte.x02]]> (<[sst_name 0 7 := [Byte.x03]]> (<[sst_name 1 6 := [Byte.x04; Byte.x05]]> ∅)).

Lemma demo_levels_dir : level_dir demo_levels.
Proof.
  intros n [T HT] _. unfold demo_levels in HT.
  apply lookup_insert_Some in HT as [[<- _]|[_ HT]]; [exists 0, 5; split; [done|unfold level_num; lia]|].
  apply lookup_insert_Some in HT as [[<- _]|[_ HT]]; [exists 0, 7; split; [done|unfold level_num; lia]|].
  apply lookup_insert_Some in HT as [[<- _]|[_ HT]]; [exists 1, 6; split; [done|unfold level_num; lia]|].
  by rewrite lookup_empty in HT.
Qed.

Lemma level_metrics_exact_witness :
  ∃ calls, reportLevelMetrics 3 (dir_files demo_levels) map_to_list = Ok calls ∧
    Gauge_Set LevelFileCount [itoa 3; itoa 0] 2 ∈ calls ∧ Gauge_Set LevelSize [itoa 3; itoa 0] 3 ∈ calls.
Proof.
  destruct (level_metrics_exact 3 demo_levels map_to_list) as (calls & E & H).
  - intros m. reflexivity.
  - apply demo_levels_dir.
  - vm_compute. reflexivity.
  - vm_compute. reflexivity.
  - exists calls. split; [exact E|]. split.
    + apply (H 0 2 ltac:(unfold level_num; lia)). split; [vm_compute; discriminate|vm_compute; reflexivity].
    + apply (H 0 3 ltac:(unfold level_num; lia)). split; [vm_compute; discriminate|vm_compute; reflexivity].
Defined.
