(* ===== verification/MemTable.v ===== *)
(** * kv/lib.go: the in-memory table and its flush

    A [MemTable] is a map from keys to arena offsets over an [Arena].
    [checkTable] reads it and [CreateSSTable] writes it out as a table file.
    The lemmas relate a MemTable to the finite map of its cells: a key is
    absent, deleted (tombstone) or bound to a value. *)

From stdpp Require Import base list gmap sorting.
From Stdlib Require Import ZArith Lia.
From S2P Require Import Prelude GoFile Arena Bloom SSTable SSTReader SSTClean GoDir.

Definition mapLimit : Z := 10 * 1024 * 1024.

(** [mt_Wal] is the number of the table's WAL segment. *)
Record MemTable := mkMemTable {
  mt_Index : gmap bytes Z;
  mt_Arena : Arena;
  mt_Size : Z;
  mt_Wal : option Z
}.

Definition NewMemTable (size : Z) (newWal : option Z) : MemTable :=
  mkMemTable ∅ (NewArena size) 0 newWal.

(** Value, tombstone flag, found flag; [None] is the nil table. *)
Definition checkTable (table : option MemTable) (key : bytes) : outcome (bytes * bool * bool) :=
  match table with
  | None => Ok ([], false, false)
  | Some table =>
      match mt_Index table !! key with
      | None => Ok ([], false, false)
      | Some offset =>
          match arena_Get (mt_Arena table) offset with
          | Panic => Panic
          | Err _ => Ok ([], false, false)
          | Ok (valBytes, isTombstone) =>
              if isTombstone then Ok ([], true, true) else Ok (valBytes, false, true)
          end
      end
  end.

Section flush.
Variable Sum64 : bytes → Z.

(** The loop of [CreateSSTable] over the sorted keys; the error of
    [Arena.Get] is dropped, and leaves a nil value. *)
Fixpoint flush_adds (builder : Builder) (frozenMem : MemTable) (keys : list bytes)
  : Builder * outcome unit :=
  match keys with
  | [] => (builder, Ok tt)
  | k :: keys' =>
      let offset := default 0 (mt_Index frozenMem !! k) in
      match arena_Get (mt_Arena frozenMem) offset with
      | Panic => (builder, Panic)
      | r =>
          let '(val, isTombstone) := match r with Ok x => x | _ => ([], false) end in
          let '(builder, r) := builder_Add Sum64 builder k val isTombstone in
          match r with
          | Ok _ => flush_adds builder frozenMem keys'
          | _ => (builder, r)
          end
      end
  end.

Definition sorted_keys (mem : MemTable) : list bytes :=
  sort_strings (map fst (map_to_list (mt_Index mem))).

(** [WAL.Remove]: the segment's file is removed; closing it and a failure to
    remove it only lead to a message. *)
Definition wal_Remove (wals : gmap Z bytes) (id : Z) : gmap Z bytes := delete id wals.

(** [CreateSSTable]: the table directory and the set of WAL segments
    afterwards.  An [Add] error removes the file; a [Close] error leaves it;
    only success removes the WAL segment. *)
Definition CreateSSTable (frozenMem : MemTable) (d : dir) (wals : gmap Z bytes) (level now : Z)
  (created : outcome (list (option nat))) : dir * gmap Z bytes * outcome unit :=
  let keys := sorted_keys frozenMem in
  let filename := sst_name level now in
  match NewBuilder (faults ← created; Ok (mkFile [] 0 faults)) (len keys) with
  | Err e => (d, wals, Err (ErrCreateFailed e))
  | Panic => (d, wals, Panic)
  | Ok builder =>
      let '(builder, r) := flush_adds builder frozenMem keys in
      match r with
      | Err e => (delete filename d, wals, Err (ErrAddFailed e))
      | Panic => (<[filename := f_data (b_File builder)]> d, wals, Panic)
      | Ok _ =>
          let '(builder, r) := builder_Close builder in
          let d := <[filename := f_data (b_File builder)]> d in
          match r with
          | Err e => (d, wals, Err (ErrCloseFailed e))
          | Panic => (d, wals, Panic)
          | Ok _ =>
              (d, match mt_Wal frozenMem with Some id => wal_Remove wals id | None => wals end, Ok tt)
          end
      end
  end.
End flush.

(** * Lemmas *)

(** What a table holds for a key: a value, or [None] for a deleted key. *)
Notation cells := (gmap bytes (option bytes)).

(** [mem] represents the cells [m]. *)
Record mem_rel (mem : MemTable) (m : cells) : Prop := {
  mr_wf : arena_wf (mt_Arena mem);
  mr_cap : a_cap (mt_Arena mem) = mapLimit;
  mr_count : Z.of_nat (size m) <= a_offset (mt_Arena mem);
  mr_none k : m !! k = None → mt_Index mem !! k = None;
  mr_some k c : m !! k = Some c →
    ∃ off v, mt_Index mem !! k = Some off ∧
      stored_at (mt_Arena mem) off k v (match c with None => true | Some _ => false end) ∧
      (∀ v', c = Some v' → v' = v) ∧ len k < 2 ^ 16 ∧ len v < 2 ^ 32
}.

(** The answer of a lookup in the cells. *)
Definition cell_answer (o : option (option bytes)) : bytes * bool * bool :=
  match o with
  | None => ([], false, false)
  | Some None => ([], true, true)
  | Some (Some v) => (v, false, true)
  end.

Lemma NewMemTable_rel w : mem_rel (NewMemTable mapLimit w) ∅.
Proof. split; try done. Qed.

Lemma mem_rel_get mem m k c :
  mem_rel mem m → m !! k = Some c →
  ∃ off, mt_Index mem !! k = Some off ∧
    arena_Get (mt_Arena mem) off = Ok (match c with None => ([], true) | Some v => (v, false) end).
Proof.
  intros Hm Hk. destruct (mr_some _ _ Hm k c Hk) as (off & v & Hi & Hs & Hv & Hlk & Hlv).
  exists off. split; [done|].
  rewrite (arena_Get_stored _ _ _ _ _ (mr_wf _ _ Hm) Hs) by done.
  destruct c as [v'|]; [|done]. by rewrite (Hv v' eq_refl).
Qed.

Lemma checkTable_rel mem m k : mem_rel mem m → checkTable (Some mem) k = Ok (cell_answer (m !! k)).
Proof.
  intros Hm. unfold checkTable. destruct (m !! k) as [c|] eqn:Hk.
  - destruct (mem_rel_get mem m k c Hm Hk) as (off & -> & ->). by destruct c.
  - by rewrite (mr_none _ _ Hm k Hk).
Qed.

Lemma map_size_insert_le (m : cells) k c : (size (<[k := c]> m) <= S (size m))%nat.
Proof. rewrite map_size_insert. destruct (m !! k); simpl; lia. Qed.

(** The cell a command writes. *)
Definition cmd_cell (val : bytes) (isDelete : bool) : option bytes := if isDelete then None else Some val.

Lemma mem_rel_put mem m k v d a off size :
  mem_rel mem m → len k < 2 ^ 16 → len v < 2 ^ 32 →
  arena_Put (mt_Arena mem) k v d = (a, Ok off) →
  mem_rel (mkMemTable (<[k := off]> (mt_Index mem)) a size (mt_Wal mem)) (<[k := cmd_cell v d]> m).
Proof.
  intros [Hwf Hcap Hcnt Hn Hs] Hk Hv HP.
  pose proof (arena_Put_extends (mt_Arena mem) k v d) as Hext.
  pose proof (arena_Put_wf _ k v d Hwf) as Hwf'.
  pose proof (arena_Put_stored _ _ _ _ _ _ Hwf HP) as Hst. rewrite HP in Hext, Hwf'. simpl in *.
  split; simpl; [done| | | |].
  - destruct Hext as [-> _]. done.
  - rewrite arena_Put_eq in HP. destruct (_ >? _); [done|]. injection HP as <- _. simpl.
    assert (7 <= entry_size k v d) by (unfold entry_size; len_pose; destruct d; lia).
    pose proof (map_size_insert_le m k (cmd_cell v d)). lia.
  - intros k'. rewrite !lookup_insert_None. naive_solver.
  - intros k' c. destruct (decide (k = k')) as [<-|Hne].
    + rewrite !lookup_insert_eq. intros [= <-]. exists off, v.
      split; [done|]. unfold cmd_cell. destruct d; split_and!; try done. by intros v' [= <-].
    + rewrite !lookup_insert_ne by done. intros Hc. destruct (Hs k' c Hc) as (o & v' & H1 & H2 & H3).
      exists o, v'. split; [done|]. split; [by eapply stored_at_extends|done].
Qed.

(** ** The entries a flush writes *)

Definition cell_entry (k : bytes) (c : option bytes) : sst_entry :=
  match c with None => (k, [], true) | Some v => (k, v, false) end.

Definition cell_keys (m : cells) : list bytes := sort_strings (map fst (map_to_list m)).

Definition mem_entries (m : cells) : list sst_entry :=
  map (λ k, cell_entry k (default None (m !! k))) (cell_keys m).

Lemma cell_entry_key k c : entry_key (cell_entry k c) = k.
Proof. by destruct c. Qed.

Lemma elem_of_map_keys {A} (m : gmap bytes A) k : k ∈ map fst (map_to_list m) ↔ is_Some (m !! k).
Proof.
  rewrite list_elem_of_fmap. split.
  - intros ([k' x] & -> & H%elem_of_map_to_list). by eexists.
  - intros [x Hx]. exists (k, x). split; [done|]. by apply elem_of_map_to_list.
Qed.

Lemma elem_of_cell_keys m k : k ∈ cell_keys m ↔ is_Some (m !! k).
Proof. unfold cell_keys. by rewrite elem_of_sort_strings, elem_of_map_keys. Qed.

Lemma cell_keys_strict m : StronglySorted str_lt (cell_keys m).
Proof. apply sort_strings_strict, NoDup_fst_map_to_list. Qed.

Lemma mem_rel_dom mem m k : mem_rel mem m → is_Some (mt_Index mem !! k) ↔ is_Some (m !! k).
Proof.
  intros Hm. destruct (m !! k) as [c|] eqn:Hk.
  - destruct (mem_rel_get mem m k c Hm Hk) as (off & -> & _). split; by eexists.
  - by rewrite (mr_none _ _ Hm k Hk).
Qed.

Lemma sorted_keys_rel mem m : mem_rel mem m → sorted_keys mem = cell_keys m.
Proof.
  intros Hm. apply (StronglySorted_unique str_le).
  - apply sort_strings_sorted.
  - apply sort_strings_sorted.
  - unfold sorted_keys, cell_keys, sort_strings. rewrite !(merge_sort_Permutation str_le _).
    apply NoDup_Permutation; [apply NoDup_fst_map_to_list..|].
    intros k. rewrite !elem_of_map_keys. by apply mem_rel_dom.
Qed.

Lemma map_entry_key_mem m : map entry_key (mem_entries m) = cell_keys m.
Proof.
  unfold mem_entries. rewrite map_map. rewrite <-(map_id (cell_keys m)) at 2.
  apply map_ext. intros k. apply cell_entry_key.
Qed.

Lemma mem_entries_sorted m : sorted_entries (mem_entries m).
Proof. unfold sorted_entries. rewrite map_entry_key_mem. apply cell_keys_strict. Qed.

Lemma mem_entries_find m k : find_entry (mem_entries m) k = cell_entry k <$> m !! k.
Proof.
  destruct (m !! k) as [c|] eqn:Hk; simpl.
  - assert (cell_entry k c ∈ mem_entries m) as Hin.
    { unfold mem_entries. apply list_elem_of_fmap. exists k. rewrite Hk. split; [done|].
      apply elem_of_cell_keys. by eexists. }
    apply find_entry_sorted in Hin; [|apply mem_entries_sorted]. by rewrite cell_entry_key in Hin.
  - apply find_entry_None. rewrite map_entry_key_mem, elem_of_cell_keys, Hk. by intros [].
Qed.

Lemma mem_entries_answer m k : answer (mem_entries m) k = cell_answer (m !! k).
Proof.
  unfold answer. rewrite mem_entries_find. destruct (m !! k) as [[v|]|]; done.
Qed.

Lemma mem_entries_fits mem m : mem_rel mem m → Forall entry_fits (mem_entries m).
Proof.
  intros Hm. apply Forall_forall. intros e (k & -> & [c Hc]%elem_of_cell_keys)%list_elem_of_fmap.
  rewrite Hc. simpl. destruct (mr_some _ _ Hm k c Hc) as (off & v & _ & _ & Hv & Hk & Hlv).
  destruct c as [v'|]; [rewrite (Hv v' eq_refl)|]; split; simpl; done.
Qed.

Lemma len_cell_keys mem m : mem_rel mem m → len (cell_keys m) <= mapLimit.
Proof.
  intros Hm. pose proof (mr_count _ _ Hm). pose proof (mr_cap _ _ Hm). destruct (mr_wf _ _ Hm).
  assert (len (cell_keys m) = Z.of_nat (size m)) as ->; [|lia].
  unfold cell_keys, sort_strings, len. rewrite (merge_sort_Permutation str_le _), length_map.
  by rewrite length_map_to_list.
Qed.

Section spec.
Context (Sum64 : bytes → Z) `{!KeyFilter Sum64}.

Lemma flush_adds_rel mem m b keys :
  mem_rel mem m → (∀ k, k ∈ keys → is_Some (m !! k)) →
  flush_adds Sum64 b mem keys =
    builder_adds Sum64 b (map (λ k, cell_entry k (default None (m !! k))) keys).
Proof.
  intros Hm. revert b. induction keys as [|k keys IH]; intros b Hin; [done|].
  cbn [flush_adds map builder_adds].
  destruct (Hin k) as [c Hc]; [apply elem_of_cons; auto|].
  destruct (mem_rel_get mem m k c Hm Hc) as (off & -> & Hg). cbn [from_option id]. rewrite Hg, Hc. cbn [from_option id].
  assert (∀ b, flush_adds Sum64 b mem keys =
    builder_adds Sum64 b (map (λ k, cell_entry k (default None (m !! k))) keys)) as Hrest.
  { intros b'. apply IH. intros k' ?. apply Hin, elem_of_cons; auto. }
  destruct c as [v|]; cbn [cell_entry];
    destruct (builder_Add Sum64 b k _ _) as [b' [[]|?|]]; done || apply Hrest.
Qed.

(** A flush without faults writes the table of the cells' entries. *)
Lemma CreateSSTable_rel mem m d wals level now :
  mem_rel mem m →
  ∃ T, build_table Sum64 (len (cell_keys m)) (mem_entries m) = Ok T ∧
    CreateSSTable Sum64 mem d wals level now (Ok []) =
      (<[sst_name level now := T]> d,
       match mt_Wal mem with Some id => wal_Remove wals id | None => wals end, Ok tt).
Proof.
  intros Hm. assert (len (cell_keys m) < 2 ^ 60) as Hl
    by (pose proof (len_cell_keys mem m Hm); unfold mapLimit in *; lia).
  unfold CreateSSTable, build_table. rewrite (sorted_keys_rel mem m Hm).
  cbn [mbind outcome_bind].
  destruct (NewBuilder_inv Sum64 (mkFile [] 0 []) (len (cell_keys m)) Hl eq_refl) as (b & -> & Hb).
  rewrite (flush_adds_rel mem m b (cell_keys m) Hm) by (intros k; apply elem_of_cell_keys).
  fold (mem_entries m). cbn [mbind outcome_bind].
  destruct (builder_adds_inv Sum64 b [] (mem_entries m) Hb) as (b1 & -> & Hb1).
  cbn [mbind outcome_bind].
  destruct (builder_Close_spec Sum64 b1 _ Hb1) as (b2 & -> & Hd). cbn [mbind outcome_bind].
  by eexists.
Qed.
End spec.
