(* ===== verification/KvStore.v ===== *)
(** * kv/store.go and kv/lib.go: the storage engine

    [Store] keeps an active and at most one frozen MemTable over a directory
    of table files.  [applyInternal] writes, [RotateTable] freezes the active
    table, the flush worker turns the frozen one into a table file, and [Get]
    reads the layers from the newest to the oldest.  The main theorem is a
    refinement: without compaction, every reachable store answers [Get] like
    the finite map of the commands applied so far, as long as the flushed
    tables are clean and no disk fails. *)

From stdpp Require Import base list gmap sorting.
From Stdlib Require Import ZArith Lia.
From S2P Require Import Prelude GoFile Arena Bloom Wal SSTable SSTReader SSTIterator SSTClean GoDir Compact MemTable.

(** [WalDir] maps segment numbers to contents; [FlushChan] tells whether the
    channel of capacity one holds a signal. *)
Record Store := mkStore {
  ActiveMap : MemTable;
  frozenMap : option MemTable;
  ssTables : list Reader;
  SstDir : dir;
  WalDir : gmap Z bytes;
  walSeq : Z;
  FlushChan : bool
}.

Definition set_active (s : Store) (m : MemTable) : Store :=
  mkStore m (frozenMap s) (ssTables s) (SstDir s) (WalDir s) (walSeq s) (FlushChan s).

(** [wal.OpenWAL] with [os.O_CREATE]. *)
Definition create_wal (wals : gmap Z bytes) (id : Z) : gmap Z bytes :=
  match wals !! id with Some _ => wals | None => <[id := []]> wals end.

(** [RotateTable()]: [None] while it waits for the frozen table to go, and
    [openErr] is the error of [OpenWAL], on which it panics. *)
Definition RotateTable (s : Store) (openErr : option error) : option (outcome Store) :=
  match frozenMap s with
  | Some _ => None
  | None =>
      let seq := s64 (walSeq s + 1) in
      match openErr with
      | Some _ => Some Panic
      | None =>
          Some (Ok (mkStore (NewMemTable mapLimit (Some seq)) (Some (ActiveMap s)) (ssTables s)
                      (SstDir s) (create_wal (WalDir s) seq) seq true))
      end
  end.

(** [applyInternal(key, val, isDelete)]. *)
Definition applyInternal (s : Store) (key val : bytes) (isDelete : bool) (openErr : option error)
  : Store * outcome unit :=
  let entrySize := 1 + 2 + 4 + len key + len val in
  let put (s : Store) :=
    let mem := ActiveMap s in
    let '(a, r) := arena_Put (mt_Arena mem) key val isDelete in
    match r with
    | Ok offset =>
        (set_active s (mkMemTable (<[key := offset]> (mt_Index mem)) a
           (u32 (mt_Size mem + u32 entrySize)) (mt_Wal mem)), Ok tt)
    | Err e => (s, Err (ErrPutFailed key e))
    | Panic => (s, Panic)
    end in
  if mt_Size (ActiveMap s) + entrySize >? mapLimit then
    match frozenMap s with
    | Some _ => (s, Err ErrWriteStall)
    | None =>
        match RotateTable s openErr with
        | Some (Ok s) => put s
        | _ => (s, Panic)
        end
    end
  else put s.

(** [Commands] is a byte; values other than 1 and 2 are ignored. *)
Inductive Commands := OpPut | OpDelete | OpOther.
#[export] Instance Commands_eq_dec : EqDecision Commands.
Proof. solve_decision. Defined.

Record raftCmd := mkRaftCmd { c_Op : Commands; c_Key : bytes; c_Value : bytes }.

Section store.
Variable Sum64 : bytes → Z.

(** [Get] after the memory tables: the files named by [files] (a directory
    listing), opened in [d]. *)
Fixpoint get_files (d : dir) (files : list bytes) (key : bytes) : outcome (option bytes) :=
  match files with
  | [] => Ok None
  | file :: files' =>
      match Open d file ≫= OpenSSTable with
      | Panic => Panic
      | Err _ => get_files d files' key
      | Ok reader =>
          match reader_Get Sum64 reader key with
          | Panic => Panic
          | Err _ => get_files d files' key
          | Ok (val, isTomb, found) =>
              if found then if isTomb then Ok None else Ok (Some val)
              else get_files d files' key
          end
      end
  end.

(** [Get(key)]: [Some v] is [(v, true)], [None] is [("", false)].  This is the
    call as a state answers it; the code gives up the lock before it lists the
    directory, and KvGet.v has the parts as separate steps. *)
Definition store_Get (s : Store) (key : bytes) : outcome (option bytes) :=
  x ← checkTable (Some (ActiveMap s)) key;
  let '(val, isTomb, found) := x in
  if found : bool then if isTomb : bool then Ok None else Ok (Some val)
  else
    x ← checkTable (frozenMap s) key;
    let '(val, isTomb, found) := x in
    if found : bool then if isTomb : bool then Ok None else Ok (Some val)
    else get_files (SstDir s) (sst_files (SstDir s)) key.

(** One round of the flush worker, in the parts between which other calls can
    run: writing the file (no lock held), clearing the frozen table under the
    lock, whether or not the write failed, and [refreshSSTables()]. *)
Definition flush_write (s : Store) (now : Z) (created : outcome (list (option nat)))
  : Store * outcome unit :=
  match frozenMap s with
  | None => (s, Ok tt)
  | Some frozenMem =>
      let '(d, wals, r) := CreateSSTable Sum64 frozenMem (SstDir s) (WalDir s) 0 now created in
      (mkStore (ActiveMap s) (frozenMap s) (ssTables s) d wals (walSeq s) (FlushChan s), r)
  end.

Definition flush_clear (s : Store) : Store :=
  mkStore (ActiveMap s) None (ssTables s) (SstDir s) (WalDir s) (walSeq s) (FlushChan s).

Definition flush_refresh (s : Store) : outcome Store :=
  readers ← refreshSSTables (SstDir s);
  Ok (mkStore (ActiveMap s) (frozenMap s) readers (SstDir s) (WalDir s) (walSeq s) (FlushChan s)).

(** The round as a whole; an error of [CreateSSTable] is only printed. *)
Definition flush_round (s : Store) (now : Z) (created : outcome (list (option nat))) : outcome Store :=
  match frozenMap s with
  | None => Ok s
  | Some _ =>
      let '(s, r) := flush_write s now created in
      match r with
      | Panic => Panic
      | _ => flush_refresh (flush_clear s)
      end
  end.

(** [NewKVStore]: replaying the entries of the newest WAL segment.  A command
    that is neither put nor delete leaves [offset] at 0. *)
Definition recover_entry (mem : MemTable) (e : Entry) : outcome MemTable :=
  let k := e_Key e in
  let v := e_Value e in
  let '(a, r) :=
    if bool_decide (e_Cmd e = CmdPut) then arena_Put (mt_Arena mem) k v false
    else if bool_decide (e_Cmd e = CmdDelete) then arena_Put (mt_Arena mem) k v true
    else (mt_Arena mem, Ok 0) in
  offset ← r;
  Ok (mkMemTable (<[k := offset]> (mt_Index mem)) a
        (u32 (mt_Size mem + u32 (len k + len v))) (mt_Wal mem)).

Fixpoint recover_entries (mem : MemTable) (es : list Entry) : outcome MemTable :=
  match es with
  | [] => Ok mem
  | e :: es' => mem ← recover_entry mem e; recover_entries mem es'
  end.

(** [seqId] is the segment number [FindActiveFile] returned; its error and
    that of [Recover] are dropped. *)
Definition NewKVStore (d : dir) (wals : gmap Z bytes) (seqId : Z) : outcome Store :=
  let wals := create_wal wals seqId in
  let '(_, r) := wal_Recover (OpenWAL (default [] (wals !! seqId)) []) in
  let entries := match r with Ok es => es | _ => [] end in
  mem ← recover_entries (NewMemTable mapLimit (Some seqId)) entries;
  readers ← refreshSSTables d;
  Ok (mkStore mem None readers d wals 0 false).

(** [readAppliedLogs]: what one decoded command does to the store. *)
Definition apply_cmd (s : Store) (cmd : raftCmd) (openErr : option error) : Store * outcome unit :=
  match c_Op cmd with
  | OpPut => applyInternal s (c_Key cmd) (c_Value cmd) false openErr
  | OpDelete => applyInternal s (c_Key cmd) [] true openErr
  | OpOther => (s, Ok tt)
  end.
End store.

(** * The system: client commands and the flush worker *)

(** Where the flush worker is: blocked on [FlushChan], about to look at
    [frozenMap], between writing the file and clearing the frozen table, or
    about to open the tables anew. *)
Inductive worker := W_wait | W_check | W_written | W_cleared.

(** [sys_clock] is the time of the last file name. *)
Record System := mkSys { sys_store : Store; sys_worker : worker; sys_clock : Z }.

Definition set_chan (s : Store) (b : bool) : Store :=
  mkStore (ActiveMap s) (frozenMap s) (ssTables s) (SstDir s) (WalDir s) (walSeq s) b.

(** A finished table file whose bytes behind the data stop readers, for keys
    of fewer than [kmax] bytes; the data ends where the footer says the index
    starts. *)
Definition file_clean (kmax : Z) (T : bytes) : bool :=
  let indexOffset := le_get (take 8 (drop (length T - 16) T)) in
  let rest := drop (Z.to_nat indexOffset) T in
  ends_at rest && (kmax <=? tail_klen rest) && (len T <? maxAlloc).

Section system.
Variable Sum64 : bytes → Z.
Variable kmax : Z.

(** One step; the label is the command that took effect, if any.  Commands
    carry keys of fewer than [kmax] bytes; files are created under fresh,
    increasing 19-digit times, written without faults, and come out clean. *)
Inductive step : System → option raftCmd → System → Prop :=
| step_apply s w c cmd s' :
    len (c_Key cmd) < kmax → apply_cmd s cmd None = (s', Ok tt) →
    step (mkSys s w c) (Some cmd) (mkSys s' w c)
| step_apply_error s w c cmd s' e :
    apply_cmd s cmd None = (s', Err e) →
    step (mkSys s w c) None (mkSys s' w c)
| step_wake s c :
    FlushChan s = true → step (mkSys s W_wait c) None (mkSys (set_chan s false) W_check c)
| step_sleep s c :
    frozenMap s = None → step (mkSys s W_check c) None (mkSys s W_wait c)
| step_flush_write s c now mem s' T :
    frozenMap s = Some mem → c < now → nano_time now →
    flush_write Sum64 s now (Ok []) = (s', Ok tt) →
    SstDir s' !! sst_name 0 now = Some T → file_clean kmax T = true →
    step (mkSys s W_check c) None (mkSys s' W_written now)
| step_flush_clear s c : step (mkSys s W_written c) None (mkSys (flush_clear s) W_cleared c)
| step_flush_refresh s c s' :
    flush_refresh s = Ok s' → step (mkSys s W_cleared c) None (mkSys s' W_check c).

(** Runs, with the commands that took effect in order. *)
Inductive steps : System → list raftCmd → System → Prop :=
| steps_refl x : steps x [] x
| steps_trans x cmds y l z :
    steps x cmds y → step y l z →
    steps x (cmds ++ match l with Some c => [c] | None => [] end) z.
End system.

(** ** The abstract specification: a finite map *)

Definition spec_apply (M : gmap bytes bytes) (cmd : raftCmd) : gmap bytes bytes :=
  match c_Op cmd with
  | OpPut => <[c_Key cmd := c_Value cmd]> M
  | OpDelete => delete (c_Key cmd) M
  | OpOther => M
  end.

Definition spec_run (cmds : list raftCmd) : gmap bytes bytes := foldl spec_apply ∅ cmds.

(** * Lemmas *)

(** The first layer that knows a key. *)
Fixpoint first_cell (ls : list cells) (k : bytes) : option (option bytes) :=
  match ls with
  | [] => None
  | m :: ls' => match m !! k with Some c => Some c | None => first_cell ls' k end
  end.

Section refinement.
Context (Sum64 : bytes → Z) `{!KeyFilter Sum64} (kmax : Z).

(** File [n] answers lookups like the cells [m]. *)
Definition file_rel (d : dir) (n : bytes) (m : cells) : Prop :=
  ∃ T r, d !! n = Some T ∧ OpenSSTable T = Ok r ∧
    ∀ k, len k < kmax → reader_Get Sum64 r k = Ok (cell_answer (m !! k)).

Record store_rel (s : Store) (ma : cells) (mf : option cells) (tabs : list cells) : Prop := {
  sr_active : mem_rel (ActiveMap s) ma;
  sr_size : mt_Size (ActiveMap s) = a_offset (mt_Arena (ActiveMap s));
  sr_frozen : match frozenMap s, mf with
              | Some mem, Some m => mem_rel mem m
              | None, None => True
              | _, _ => False
              end;
  sr_files : Forall2 (file_rel (SstDir s)) (sst_files (SstDir s)) tabs
}.

Definition layers (ma : cells) (mf : option cells) (tabs : list cells) : list cells :=
  ma :: match mf with Some m => [m] | None => [] end ++ tabs.

Lemma get_files_rel d files tabs k :
  Forall2 (file_rel d) files tabs → len k < kmax →
  get_files Sum64 d files k = Ok (mjoin (first_cell tabs k)).
Proof.
  intros H Hk. induction H as [|n m files tabs (T & r & HT & Hr & Hg) _ IH]; [done|].
  simpl. unfold Open. rewrite HT. cbn [mbind outcome_bind]. rewrite Hr, Hg by done.
  by destruct (m !! k) as [[v|]|].
Qed.

Lemma store_Get_rel s ma mf tabs k :
  store_rel s ma mf tabs → len k < kmax →
  store_Get Sum64 s k = Ok (mjoin (first_cell (layers ma mf tabs) k)).
Proof.
  intros [Ha _ Hf Ht] Hk. unfold store_Get, layers. rewrite (checkTable_rel _ _ _ Ha).
  cbn [mbind outcome_bind first_cell]. destruct (ma !! k) as [[v|]|]; [done|done|].
  cbn [cell_answer]. pose proof (get_files_rel _ _ _ k Ht Hk) as Hg.
  destruct (frozenMap s) as [mem|], mf as [m|]; try done.
  rewrite (checkTable_rel _ _ _ Hf). cbn [mbind outcome_bind first_cell app].
  by destruct (m !! k) as [[v|]|].
Qed.

(** ** Writing *)

(** Room is left exactly when the size check says so. *)
Lemma put_room mem m key val d :
  mem_rel mem m → mt_Size mem = a_offset (mt_Arena mem) →
  mt_Size mem + (1 + 2 + 4 + len key + len val) <= mapLimit → (d = true → val = []) →
  ∃ a, arena_Put (mt_Arena mem) key val d = (a, Ok (a_offset (mt_Arena mem))) ∧
    u32 (mt_Size mem + u32 (1 + 2 + 4 + len key + len val)) = a_offset a.
Proof.
  intros Hm Hs Hle Hd. rewrite arena_Put_eq, (mr_cap _ _ Hm), Z.gtb_ltb.
  assert (entry_size key val d = 1 + 2 + 4 + len key + len val) as He.
  { unfold entry_size. destruct d; [rewrite (Hd eq_refl), len_nil|]; lia. }
  rewrite He, (proj2 (Z.ltb_ge _ _)) by lia. eexists. split; [done|]. simpl.
  destruct (mr_wf _ _ Hm) as [Ho _]. unfold mapLimit in Hle. len_pose.
  rewrite (uwrap_small 32 (1 + 2 + 4 + len key + len val)), uwrap_small by lia. lia.
Qed.

(** [spec_apply] on the layers. *)
Lemma first_cell_insert ma mf tabs k c k' :
  mjoin (first_cell (layers (<[k := c]> ma) mf tabs) k') =
    if decide (k = k') then c else mjoin (first_cell (layers ma mf tabs) k').
Proof.
  unfold layers. cbn [first_cell]. destruct (decide (k = k')) as [<-|Hne].
  - rewrite lookup_insert_eq. by destruct c.
  - by rewrite lookup_insert_ne.
Qed.

Lemma first_cell_rotate ma tabs k :
  first_cell (layers ∅ (Some ma) tabs) k = first_cell (layers ma None tabs) k.
Proof. unfold layers. cbn [first_cell app]. by rewrite lookup_empty. Qed.

Lemma first_cell_dup ma m tabs k :
  first_cell (layers ma (Some m) (m :: tabs)) k = first_cell (layers ma (Some m) tabs) k.
Proof. unfold layers. cbn [first_cell app]. by destruct (ma !! k), (m !! k). Qed.

(** The tail of [applyInternal] on a table with room for the entry. *)
Definition put_active (s : Store) (key val : bytes) (d : bool) : Store * outcome unit :=
  let mem := ActiveMap s in
  let '(a, r) := arena_Put (mt_Arena mem) key val d in
  match r with
  | Ok offset =>
      (set_active s (mkMemTable (<[key := offset]> (mt_Index mem)) a
         (u32 (mt_Size mem + u32 (1 + 2 + 4 + len key + len val))) (mt_Wal mem)), Ok tt)
  | Err e => (s, Err (ErrPutFailed key e))
  | Panic => (s, Panic)
  end.

Lemma put_active_ok s ma mf tabs key val d :
  store_rel s ma mf tabs → (d = true → val = []) →
  mt_Size (ActiveMap s) + (1 + 2 + 4 + len key + len val) <= mapLimit →
  ∃ s', put_active s key val d = (s', Ok tt) ∧ SstDir s' = SstDir s ∧ FlushChan s' = FlushChan s ∧
    frozenMap s' = frozenMap s ∧
    (len key < 2 ^ 16 → store_rel s' (<[key := cmd_cell val d]> ma) mf tabs).
Proof.
  intros [Ha Hs Hf Ht] Hd Hle. unfold put_active.
  destruct (put_room _ _ key val d Ha Hs Hle Hd) as (a & HP & Hsz). rewrite HP.
  eexists. split; [done|]. do 3 (split; [done|]). intros Hk. split; simpl; try done.
  apply mem_rel_put; try done. destruct (mr_wf _ _ Ha) as [Ho _]. unfold mapLimit in Hle. len_pose. lia.
Qed.

Lemma RotateTable_rel s ma tabs :
  store_rel s ma None tabs →
  ∃ s', RotateTable s None = Some (Ok s') ∧ store_rel s' ∅ (Some ma) tabs ∧
    mt_Size (ActiveMap s') = 0 ∧ SstDir s' = SstDir s ∧ FlushChan s' = true.
Proof.
  intros [Ha Hs Hf Ht]. unfold RotateTable. destruct (frozenMap s) as [|]; [done|].
  eexists. split; [done|]. split; [|done]. split; simpl; done.
Qed.

(** What [applyInternal] does to the layers, in every case. *)
Lemma applyInternal_rel s ma mf tabs key val d :
  store_rel s ma mf tabs → (d = true → val = []) →
  let size := 1 + 2 + 4 + len key + len val in
  ∃ s' r, applyInternal s key val d None = (s', r) ∧ SstDir s' = SstDir s ∧
    (FlushChan s' = true ∨ FlushChan s' = FlushChan s ∧ frozenMap s' = frozenMap s) ∧
    match r with
    | Ok _ => size <= mapLimit ∧
        (len key < 2 ^ 16 → ∃ ma' mf', store_rel s' ma' mf' tabs ∧ (mf ≠ None → mf' = mf) ∧
           ∀ k, mjoin (first_cell (layers ma' mf' tabs) k) =
                if decide (key = k) then cmd_cell val d else mjoin (first_cell (layers ma mf tabs) k))
    | Err e =>
        (∃ ma' mf', store_rel s' ma' mf' tabs ∧ (mf ≠ None → mf' = mf) ∧
           ∀ k, first_cell (layers ma' mf' tabs) k = first_cell (layers ma mf tabs) k) ∧
        (e = ErrWriteStall ∧ s' = s ∧ mf ≠ None ∨ e = ErrPutFailed key ErrArenaFull ∧ mapLimit < size)
    | Panic => False
    end.
Proof.
  intros Hrel Hd size. unfold applyInternal. fold (put_active s key val d). rewrite Z.gtb_ltb.
  destruct (Z.ltb_spec mapLimit (mt_Size (ActiveMap s) + (1 + 2 + 4 + len key + len val))) as [Hgt|Hle].
  - destruct mf as [mf|].
    + pose proof (sr_frozen _ _ _ _ Hrel) as Hf. destruct (frozenMap s) eqn:Efz; [|done].
      exists s, (Err ErrWriteStall). do 2 (split; [done|]). split; [by right|].
      split; [by exists ma, (Some mf)|]. by left.
    + destruct (RotateTable_rel s ma tabs Hrel) as (s1 & -> & Hrel1 & Hz & Hdir & Hch).
      assert (frozenMap s = None) as ->
        by (pose proof (sr_frozen _ _ _ _ Hrel) as Hf; by destruct (frozenMap s)).
      change (let '(a, r) := arena_Put _ _ _ _ in _) with (put_active s1 key val d).
      destruct (Z_le_gt_dec size mapLimit) as [Hfit|Hover].
      * destruct (put_active_ok s1 ∅ (Some ma) tabs key val d Hrel1 Hd) as (s2 & -> & H1 & H2 & _ & H3);
          [rewrite Hz; lia|].
        exists s2, (Ok tt). split; [done|]. split; [congruence|]. split; [left; congruence|].
        split; [done|]. intros Hk. exists (<[key := cmd_cell val d]> ∅), (Some ma).
        split; [by apply H3|]. split; [done|]. intros k. rewrite first_cell_insert.
        by destruct (decide _); [|rewrite first_cell_rotate].
      * unfold put_active. rewrite arena_Put_eq, (mr_cap _ _ (sr_active _ _ _ _ Hrel1)).
        rewrite <-(sr_size _ _ _ _ Hrel1), Hz, Z.gtb_ltb.
        assert (entry_size key val d = size) as ->.
        { unfold entry_size, size. destruct d; [rewrite (Hd eq_refl), len_nil|]; lia. }
        rewrite (proj2 (Z.ltb_lt _ _)) by lia.
        exists s1, (Err (ErrPutFailed key ErrArenaFull)). split; [done|]. split; [done|].
        split; [by left|]. split; [|right; split; [done|lia]].
        exists ∅, (Some ma). split; [done|]. split; [done|]. intros k. apply first_cell_rotate.
  - destruct (put_active_ok s ma mf tabs key val d Hrel Hd Hle) as (s2 & -> & H1 & H2 & H2' & H3).
    exists s2, (Ok tt). split; [done|]. split; [done|]. split; [by right|].
    split. { destruct (mr_wf _ _ (sr_active _ _ _ _ Hrel)) as [Ho _]. pose proof (sr_size _ _ _ _ Hrel).
             pose proof (len_nonneg (a_data (mt_Arena (ActiveMap s)))). unfold size. lia. }
    intros Hk. exists (<[key := cmd_cell val d]> ma), mf. split; [by apply H3|]. split; [done|].
    apply first_cell_insert.
Qed.

(** ** Flushing *)

Lemma elem_of_sst_files d n : n ∈ sst_files d ↔ is_Some (d !! n) ∧ HasSuffix n sst_suffix = true.
Proof.
  unfold sst_files. rewrite elem_of_sort_reverse, list_elem_of_filter, elem_of_ReadDir. tauto.
Qed.

Lemma sst_files_strict d : StronglySorted (flip str_lt) (sst_files d).
Proof. apply sort_reverse_strict, NoDup_filter, NoDup_ReadDir. Qed.

Lemma strict_sorted_weak l : StronglySorted (flip str_lt) l → StronglySorted (flip str_le) l ∧ NoDup l.
Proof.
  induction 1 as [|x l _ [IH1 IH2] Hx]; [split; constructor|]. rewrite Forall_forall in Hx. split.
  - constructor; [done|]. apply Forall_forall. intros y ?. by apply str_lt_le, Hx.
  - constructor; [|done]. intros Hin. specialize (Hx x Hin). by apply (irreflexivity str_lt) in Hx.
Qed.

(** A strictly sorted list is known by its elements. *)
Lemma strict_sorted_eq l l' :
  StronglySorted (flip str_lt) l → StronglySorted (flip str_lt) l' → (∀ n, n ∈ l ↔ n ∈ l') → l = l'.
Proof.
  intros [H1 H2]%strict_sorted_weak [H1' H2']%strict_sorted_weak H.
  apply (StronglySorted_unique (flip str_le)); [done..|]. by apply NoDup_Permutation.
Qed.

(** A new file with the greatest name is read first. *)
Lemma sst_files_insert d name T :
  HasSuffix name sst_suffix = true → (∀ n, n ∈ sst_files d → str_lt n name) →
  sst_files (<[name := T]> d) = name :: sst_files d.
Proof.
  intros Hsuf Hlt.
  assert (StronglySorted (flip str_lt) (name :: sst_files d)) as Hs.
  { constructor; [apply sst_files_strict|]. apply Forall_forall. apply Hlt. }
  apply strict_sorted_eq; [apply sst_files_strict|done|]. intros n.
  rewrite elem_of_cons, !elem_of_sst_files. destruct (decide (n = name)) as [->|Hne].
  - rewrite lookup_insert_eq. split; [by left|]. intros _. split; [by eexists|done].
  - rewrite lookup_insert_ne by done. tauto.
Qed.

Lemma file_rel_insert d name T n m : n ≠ name → file_rel d n m → file_rel (<[name := T]> d) n m.
Proof. intros Hne (T' & r & ? & ?). exists T', r. by rewrite lookup_insert_ne. Qed.

(** The footer of a finished table points behind the data. *)
Lemma file_clean_rest keyCount es T :
  keyCount < 2 ^ 60 → build_table Sum64 keyCount es = Ok T → file_clean kmax T = true →
  ∃ rest, T = data_bytes es ++ rest ∧ 8 <= len rest ∧ ends_at rest = true ∧
    kmax <= tail_klen rest ∧ len T < maxAlloc.
Proof.
  intros Hc HT Hclean. destruct (build_spec Sum64 keyCount es Hc) as (b & _ & HT').
  assert (T = table_bytes (data_bytes es) (b_index b) (bloom_Bytes (b_filter b))) as ET by congruence.
  unfold file_clean in Hclean. apply andb_true_iff in Hclean as [[He Hk%Z.leb_le]%andb_true_iff Hl%Z.ltb_lt].
  set (rest := index_bytes (b_index b) ++ bloom_Bytes (b_filter b) ++
    footer_bytes (len (data_bytes es)) (len (data_bytes es) + len (index_bytes (b_index b)))).
  assert (T = data_bytes es ++ rest) as ET' by done.
  pose proof (table_bytes_len (data_bytes es) (b_index b) (bloom_Bytes (b_filter b))) as Hlen.
  rewrite <-ET in Hlen.
  assert (take 8 (drop (length T - 16) T) = le_put 8 (u64 (len (data_bytes es)))) as Hf.
  { rewrite ET. unfold table_bytes, footer_bytes. rewrite (app_assoc (index_bytes _)), app_assoc.
    rewrite drop_app_length', take_app_length'; [done|by rewrite length_le_put|].
    rewrite !length_app, !length_le_put. lia. }
  rewrite Hf, le_get_put8, uwrap_idemp, uwrap_small in He, Hk
    by (unfold maxAlloc in Hl; len_pose; lia).
  rewrite to_nat_len, ET', drop_app_length in He, Hk.
  exists rest. split_and!; try done. unfold rest, footer_bytes. len_lia.
Qed.

(** A finished, clean table answers like its cells. *)
Lemma built_file_rel d keyCount es T n m :
  keyCount < 2 ^ 60 → sorted_entries es → Forall entry_fits es →
  build_table Sum64 keyCount es = Ok T → file_clean kmax T = true → d !! n = Some T →
  (∀ k, answer es k = cell_answer (m !! k)) → file_rel d n m.
Proof.
  intros Hc Hs Hfit HT Hclean Hn Hm.
  destruct (file_clean_rest _ _ _ Hc HT Hclean) as (rest & ER & Hr & He & Hk & Hl).
  destruct (build_clean_get Sum64 _ _ _ rest Hc Hs Hfit HT ER Hl Hr He) as (r & Hor & Hg).
  exists T, r. split_and!; [done|done|]. intros k Hkl. by rewrite Hg, Hm by lia.
Qed.

(** What the writing of the frozen table's file does to the store. *)
Lemma flush_write_ok s mem m now s' T :
  frozenMap s = Some mem → mem_rel mem m →
  flush_write Sum64 s now (Ok []) = (s', Ok tt) → SstDir s' !! sst_name 0 now = Some T →
  ActiveMap s' = ActiveMap s ∧ frozenMap s' = frozenMap s ∧ FlushChan s' = FlushChan s ∧
  SstDir s' = <[sst_name 0 now := T]> (SstDir s) ∧
  len (cell_keys m) < 2 ^ 60 ∧ build_table Sum64 (len (cell_keys m)) (mem_entries m) = Ok T.
Proof.
  intros Hfz Hf Hw HT. unfold flush_write in Hw. rewrite Hfz in Hw.
  destruct (CreateSSTable_rel Sum64 mem m (SstDir s) (WalDir s) 0 now Hf) as (T' & HT' & HC).
  rewrite HC in Hw. injection Hw as <-. simpl in HT. rewrite lookup_insert_eq in HT. injection HT as ->.
  pose proof (len_cell_keys mem m Hf). unfold mapLimit in *. split_and!; try done. lia.
Qed.

Lemma file_rel_inserts d name T files tabs :
  name ∉ files → Forall2 (file_rel d) files tabs → Forall2 (file_rel (<[name := T]> d)) files tabs.
Proof.
  intros Hn H. apply Forall2_same_length_lookup_2; [by eapply Forall2_length|]. intros i n m Hi Hm.
  apply file_rel_insert; [|by eapply Forall2_lookup_lr].
  intros ->. by apply Hn; eapply list_elem_of_lookup_2.
Qed.

Lemma flush_write_rel s mem ma m tabs now s' T :
  store_rel s ma (Some m) tabs → frozenMap s = Some mem →
  (∀ n, n ∈ sst_files (SstDir s) → str_lt n (sst_name 0 now)) →
  flush_write Sum64 s now (Ok []) = (s', Ok tt) → SstDir s' !! sst_name 0 now = Some T →
  file_clean kmax T = true →
  store_rel s' ma (Some m) (m :: tabs) ∧
  sst_files (SstDir s') = sst_name 0 now :: sst_files (SstDir s) ∧ FlushChan s' = FlushChan s.
Proof.
  intros [Ha Hs Hf Ht] Hfz Hlt Hw HT Hclean. rewrite Hfz in Hf.
  destruct (flush_write_ok s mem m now s' T Hfz Hf Hw HT) as (E1 & E2 & E3 & E4 & Hc & HT').
  assert (sst_files (SstDir s') = sst_name 0 now :: sst_files (SstDir s)) as Hfiles
    by (rewrite E4; apply sst_files_insert; [apply sst_name_suffix|done]).
  split; [|done]. split; [by rewrite E1|by rewrite E1|by rewrite E2, Hfz|].
  rewrite Hfiles. constructor.
  - eapply (built_file_rel _ _ (mem_entries m)); [exact Hc|apply mem_entries_sorted|
      by eapply mem_entries_fits|done|done|done|apply mem_entries_answer].
  - rewrite E4. apply file_rel_inserts; [|done]. intros Hin. by apply (irreflexivity str_lt) in Hlt.
Qed.

(** Clearing the frozen table keeps every answer once its file is written. *)
Lemma flush_clear_rel s ma m tabs : store_rel s ma (Some m) tabs → store_rel (flush_clear s) ma None tabs.
Proof. by intros [Ha Hs Hf Ht]. Qed.

(** The readers play no part in what [Get] does. *)
Lemma flush_refresh_same s s' :
  flush_refresh s = Ok s' →
  ActiveMap s' = ActiveMap s ∧ frozenMap s' = frozenMap s ∧ SstDir s' = SstDir s ∧ FlushChan s' = FlushChan s.
Proof. unfold flush_refresh. destruct (refreshSSTables (SstDir s)) as [rs|e|]; [|done..]. by intros [= <-]. Qed.

(** ** The invariant of the system *)

(** Reading [tabs] finds all that [m] holds. *)
Definition written (m : cells) (tabs : list cells) : Prop :=
  ∀ k c, len k < kmax → m !! k = Some c → mjoin (first_cell tabs k) = c.

Record sys_inv (x : System) (M : gmap bytes bytes) (ma : cells) (mf : option cells)
  (tabs : list cells) : Prop := {
  si_rel : store_rel (sys_store x) ma mf tabs;
  si_map k : len k < kmax → mjoin (first_cell (layers ma mf tabs) k) = M !! k;
  si_written : sys_worker x = W_written → ∃ m, mf = Some m ∧ written m tabs;
  si_wake : frozenMap (sys_store x) ≠ None →
    FlushChan (sys_store x) = true ∨ sys_worker x ≠ W_wait
}.

Lemma spec_apply_lookup M cmd k :
  c_Op cmd ≠ OpOther →
  spec_apply M cmd !! k =
    if decide (c_Key cmd = k)
    then cmd_cell (c_Value cmd) (match c_Op cmd with OpDelete => true | _ => false end)
    else M !! k.
Proof.
  unfold spec_apply. destruct (c_Op cmd); intros Hop; [| |done]; destruct (decide (c_Key cmd = k)) as [->|];
    rewrite ?lookup_insert_eq, ?lookup_delete_eq, ?lookup_insert_ne, ?lookup_delete_ne by done; done.
Qed.

(** Every file is of level 0. *)
Definition flat_names (x : System) : Prop :=
  ∀ n, n ∈ sst_files (SstDir (sys_store x)) →
    ∃ t, n = sst_name 0 t ∧ nano_time t ∧ t <= sys_clock x.

(** A command, applied or refused, keeps the invariant. *)
Lemma sys_inv_apply s w c M ma mf tabs cmd s' r :
  sys_inv (mkSys s w c) M ma mf tabs → apply_cmd s cmd None = (s', r) →
  SstDir s' = SstDir s ∧
  match r with
  | Ok _ => len (c_Key cmd) < 2 ^ 16 →
      ∃ ma' mf', sys_inv (mkSys s' w c) (spec_apply M cmd) ma' mf' tabs
  | Err _ => ∃ ma' mf', sys_inv (mkSys s' w c) M ma' mf' tabs
  | Panic => False
  end.
Proof.
  intros [Hrel Hmap Hwr Hwk] Happ. cbn [sys_store sys_worker sys_clock] in *.
  destruct (decide (c_Op cmd = OpOther)) as [Ho|Ho].
  { unfold apply_cmd, spec_apply in *. rewrite Ho in *. simplify_eq. split; [done|]. intros _. by exists ma, mf. }
  set (d := match c_Op cmd with OpDelete => true | _ => false end).
  set (val := if d then [] else c_Value cmd).
  assert (applyInternal s (c_Key cmd) val d None = (s', r)) as Hint.
  { rewrite <-Happ. unfold apply_cmd, val, d. by destruct (c_Op cmd). }
  assert (∀ mf', (mf ≠ None → mf' = mf) → w = W_written → ∃ m, mf' = Some m ∧ written m tabs) as Hwr'.
  { intros mf' Hmf Hw. destruct (Hwr Hw) as (m & -> & ?). rewrite Hmf by done. eauto. }
  destruct (applyInternal_rel s ma mf tabs (c_Key cmd) val d Hrel) as (s1 & r1 & H1 & Hdir & Hch & Hr);
    [by unfold val; intros ->|].
  rewrite H1 in Hint. simplify_eq. split; [done|].
  assert (frozenMap s' ≠ None → FlushChan s' = true ∨ w ≠ W_wait) as Hwk'.
  { destruct Hch as [->|[-> ->]]; [by left|done]. }
  destruct r as [[]|e|]; [|destruct Hr as [(ma' & mf' & H2 & H3 & H4) _]|done].
  - intros Hk. destruct Hr as [_ Hr]. destruct (Hr Hk) as (ma' & mf' & H2 & H3 & H4).
    exists ma', mf'. split; cbn [sys_store sys_worker sys_clock]; [done| |by apply Hwr'|done].
    intros k Hkl. rewrite H4, spec_apply_lookup, <-Hmap by done. unfold val, cmd_cell, d. by destruct (c_Op cmd).
  - exists ma', mf'. split; cbn [sys_store sys_worker sys_clock]; [done| |by apply Hwr'|done].
    intros k Hkl. rewrite H4. by apply Hmap.
Qed.

(** The steps that leave the directory alone, all but the writing of a file,
    keep the invariant with the same tables. *)
Lemma step_inv_quiet x l y M ma mf tabs :
  kmax <= 2 ^ 16 → step Sum64 kmax x l y → sys_inv x M ma mf tabs →
  (SstDir (sys_store y) = SstDir (sys_store x) ∧ sys_clock y = sys_clock x ∧
   ∃ ma' mf', sys_inv y (match l with Some cmd => spec_apply M cmd | None => M end) ma' mf' tabs) ∨
  ∃ s mem now T, x = mkSys s W_check (sys_clock x) ∧ l = None ∧ frozenMap s = Some mem ∧
    sys_clock x < now ∧ nano_time now ∧ flush_write Sum64 s now (Ok []) = (sys_store y, Ok tt) ∧
    y = mkSys (sys_store y) W_written now ∧
    SstDir (sys_store y) !! sst_name 0 now = Some T ∧ file_clean kmax T = true.
Proof.
  intros Hkm Hstep Hinv. destruct Hstep as [s w c cmd s' Hk Ha|s w c cmd s' e Ha|s c Hch|s c Hfz
    |s c now mem s' T Hfz Hlt Hnow Hw HT Hcl|s c|s c s' Hcl].
  - left. destruct (sys_inv_apply _ _ _ _ _ _ _ _ _ _ Hinv Ha) as [? Hex].
    destruct (Hex ltac:(lia)) as (ma' & mf' & ?). eauto 6.
  - left. destruct (sys_inv_apply _ _ _ _ _ _ _ _ _ _ Hinv Ha) as (? & ma' & mf' & ?). eauto 6.
  - left. do 2 (split; [done|]). exists ma, mf. destruct Hinv as [[? ? ? ?] ? ? ?].
    split; simpl in *; [by split|done..| ]. intros _. by right.
  - left. do 2 (split; [done|]). exists ma, mf. destruct Hinv as [? ? ? ?]. split; simpl in *; try done.
  - right. exists s, mem, now, T. split_and!; done.
  - left. destruct Hinv as [Hrel Hmap Hwr Hwk]. cbn [sys_store sys_worker sys_clock] in *.
    destruct (Hwr eq_refl) as (m & -> & Hm). pose proof (flush_clear_rel s ma m tabs Hrel) as Hrel'.
    do 2 (split; [done|]). exists ma, None.
    split; cbn [sys_store sys_worker sys_clock]; [done| |done|done].
    intros k Hk. rewrite <-Hmap by done. unfold layers. cbn [first_cell app].
    destruct (ma !! k) as [c'|]; [done|]. destruct (m !! k) as [c'|] eqn:Em; [|done]. by apply Hm.
  - left. destruct Hinv as [[Ha Hs Hf Ht] Hmap Hwr Hwk]. cbn [sys_store sys_worker sys_clock] in *.
    destruct (flush_refresh_same s s' Hcl) as (E1 & E2 & E3 & E4).
    do 2 (split; [done|]). exists ma, mf. split; cbn [sys_store sys_worker sys_clock]; [|done|done|].
    + split; rewrite ?E1, ?E2, ?E3; done.
    + intros _. by right.
Qed.

Lemma step_inv x l y M ma mf tabs :
  kmax <= 2 ^ 16 → step Sum64 kmax x l y → sys_inv x M ma mf tabs → flat_names x →
  ∃ ma' mf' tabs', sys_inv y (match l with Some cmd => spec_apply M cmd | None => M end) ma' mf' tabs' ∧
    flat_names y.
Proof.
  intros Hkm Hstep Hinv Hnm. unfold flat_names.
  destruct (step_inv_quiet _ _ _ _ _ _ _ Hkm Hstep Hinv)
    as [(-> & -> & ma' & mf' & ?)|(s & mem & now & T & Hx & -> & Hfz & Hlt & Hnow & Hw & -> & HT & Hcl)];
    [eauto|].
  rewrite Hx in Hinv. destruct Hinv as [Hrel Hmap _ Hwk]. cbn [sys_store sys_worker sys_clock] in *.
  assert (∀ n, n ∈ sst_files (SstDir s) → ∃ t, n = sst_name 0 t ∧ nano_time t ∧ t <= sys_clock x) as Hn'
    by (intros n; rewrite Hx in Hnm at 1; apply Hnm).
  pose proof (sr_frozen _ _ _ _ Hrel) as Hf. rewrite Hfz in Hf. destruct mf as [m|]; [|done].
  destruct (flush_write_rel s mem ma m tabs now (sys_store y) T Hrel Hfz) as (Hrel' & Hfiles & _); try done.
  { intros n Hn. destruct (Hn' n Hn) as (t & -> & ? & ?). apply sst_name_lt; [done|done|lia]. }
  exists ma, (Some m), (m :: tabs). split; [split; cbn [sys_store sys_worker sys_clock]|].
  - done.
  - intros k Hk. rewrite first_cell_dup. by apply Hmap.
  - intros _. exists m. split; [done|]. intros k c _ Hc. cbn [first_cell]. by rewrite Hc; destruct c.
  - intros _. by right.
  - rewrite Hfiles. intros n [->|Hn]%elem_of_cons; [by exists now|].
    destruct (Hn' n Hn) as (t & ? & ? & ?). exists t. split_and!; [done|done|lia].
Qed.

Definition empty_store : Store := mkStore (NewMemTable mapLimit (Some 0)) None [] ∅ {[0 := []]} 0 false.

Lemma empty_inv c0 : sys_inv (mkSys empty_store W_wait c0) ∅ ∅ None [].
Proof. by split. Qed.

Lemma empty_store_new : NewKVStore ∅ ∅ 0 = Ok empty_store.
Proof. reflexivity. Qed.

Lemma steps_inv c0 cmds x :
  kmax <= 2 ^ 16 → steps Sum64 kmax (mkSys empty_store W_wait c0) cmds x →
  ∃ ma mf tabs, sys_inv x (spec_run cmds) ma mf tabs ∧ flat_names x.
Proof.
  intros Hkm Hsteps. remember (mkSys empty_store W_wait c0) as x0 eqn:Ex.
  induction Hsteps as [|x cmds y l z _ IH Hstep]; subst.
  - exists ∅, None, []. split; [by apply empty_inv|].
    intros n [[T HT] _]%elem_of_sst_files. simpl in HT; by rewrite lookup_empty in HT.
  - destruct (IH eq_refl) as (ma & mf & tabs & Hinv & Hn).
    destruct (step_inv _ _ _ _ _ _ _ Hkm Hstep Hinv Hn) as (ma' & mf' & tabs' & Hinv').
    exists ma', mf', tabs'. unfold spec_run in *. rewrite foldl_app. by destruct l.
Qed.
End refinement.

(** [Get] in a reachable state. *)
Lemma steps_Get Sum64 kmax c0 cmds x k :
  kmax <= 2 ^ 16 → steps Sum64 kmax (mkSys empty_store W_wait c0) cmds x → len k < kmax →
  store_Get Sum64 (sys_store x) k = Ok (spec_run cmds !! k).
Proof.
  intros Hkm Hs Hk. destruct (steps_inv Sum64 kmax c0 cmds x Hkm Hs) as (ma & mf & tabs & [[Hrel Hmap _ _] _]).
  rewrite (store_Get_rel Sum64 kmax _ _ _ _ k Hrel Hk). by rewrite Hmap.
Qed.

(** * Properties *)

(** C3. Refinement, without compactions: from an empty store, after any
    interleaving of applied and refused commands, table rotations and flushes
    (file writes, clears and the reopening of the tables as separate steps),
    [Get] of every key of fewer than [kmax] <= 65536 bytes, made in that state,
    returns exactly what the finite map of the applied commands holds: the last
    value put, or nothing if the key was deleted or never put.  Conditions on
    the run: applied commands have keys of fewer than [kmax] bytes, no disk
    fails, and every flushed table is clean for such keys ([file_clean]: the
    bytes behind its data stop its readers), which large tables need not be.
    KvGet.v has the parts of [Get] as steps of their own. *)
Theorem store_refines_map Sum64 kmax c0 cmds x k :
  kmax <= 2 ^ 16 → steps Sum64 kmax (mkSys empty_store W_wait c0) cmds x → len k < kmax →
  store_Get Sum64 (sys_store x) k = Ok (spec_run cmds !! k).
Proof. apply steps_Get. Qed.

(** A run with a flush: the second value fills a table alone, so the first
    table is rotated out, written to a file and dropped. *)
Definition t0 : Z := 1700000000000000000.
Definition put_user1 : raftCmd := mkRaftCmd OpPut key_user1 [Byte.x41].
Definition put_user2 (big : bytes) : raftCmd := mkRaftCmd OpPut key_user2 big.
Definition store1 : Store := fst (apply_cmd empty_store put_user1 None).
Definition flush1 : dir * gmap Z bytes * outcome unit :=
  CreateSSTable demo_hash (ActiveMap store1) ∅ {[0 := []; 1 := []]} 0 t0 (Ok []).
Definition table1 : dir := flush1.1.1.

(** The store after both commands: the second table is full. *)
Definition store2 (a2 : MemTable) : Store :=
  mkStore a2 (Some (ActiveMap store1)) [] ∅ {[0 := []; 1 := []]} 1 true.

Lemma apply_user2 big :
  len big = mapLimit - 12 →
  ∃ a2, apply_cmd store1 (put_user2 big) None = (store2 a2, Ok tt) ∧ mt_Size a2 = mapLimit.
Proof.
  intros Hbig. unfold apply_cmd, put_user2, applyInternal. cbn [c_Op c_Key c_Value].
  change (mt_Size (ActiveMap store1)) with 13. change (len key_user2) with 5.
  rewrite Hbig, Z.gtb_ltb, (proj2 (Z.ltb_lt _ _)) by lia.
  change (frozenMap store1) with (@None MemTable). cbv iota.
  assert (RotateTable store1 None = Some (Ok (store2 (NewMemTable mapLimit (Some 1))))) as -> by reflexivity.
  rewrite arena_Put_eq. cbn [store2 ActiveMap mt_Arena NewMemTable NewArena a_offset a_cap].
  unfold entry_size. change (len key_user2) with 5.
  rewrite Hbig, Z.gtb_ltb, (proj2 (Z.ltb_ge _ _)) by lia.
  eexists. split; [reflexivity|]. reflexivity.
Qed.

Lemma steps_user12 big a2 :
  apply_cmd store1 (put_user2 big) None = (store2 a2, Ok tt) →
  steps demo_hash 100 (mkSys empty_store W_wait 0) [put_user1; put_user2 big] (mkSys (store2 a2) W_wait 0).
Proof.
  intros H2. change [put_user1; put_user2 big] with (([] ++ [put_user1]) ++ [put_user2 big]).
  eapply (steps_trans _ _ _ _ _ (Some _)); [eapply (steps_trans _ _ _ _ _ (Some _)); [apply steps_refl|]|].
  - apply (step_apply demo_hash 100 empty_store W_wait 0 put_user1 store1); [done|].
    vm_compute. reflexivity.
  - apply (step_apply demo_hash 100 store1 W_wait 0 (put_user2 big) (store2 a2)); [reflexivity|exact H2].
Qed.

Lemma flush_run big :
  len big = mapLimit - 12 →
  ∃ x, steps demo_hash 100 (mkSys empty_store W_wait 0) [put_user1; put_user2 big] x ∧
    frozenMap (sys_store x) = None ∧ SstDir (sys_store x) = table1.
Proof.
  intros Hbig. destruct (apply_user2 big Hbig) as (a2 & H2 & _). set (s2 := store2 a2).
  set (s3 := mkStore a2 (Some (ActiveMap store1)) [] table1 flush1.1.2 1 false).
  assert (flush_write demo_hash (set_chan s2 false) t0 (Ok []) = (s3, Ok tt)) as H3.
  { unfold flush_write, s2, store2, set_chan. cbn [frozenMap SstDir WalDir]. fold flush1.
    assert (snd flush1 = Ok tt) as Hr by (vm_compute; reflexivity). unfold s3, table1.
    clearbody s2. revert Hr. generalize flush1. intros [[d w] r] Hr. simpl in Hr. subst r. reflexivity. }
  assert (∃ rs, refreshSSTables table1 = Ok rs) as [rs Hrs]
    by (eexists; vm_compute; reflexivity).
  exists (mkSys (mkStore a2 None rs table1 flush1.1.2 1 false) W_check t0).
  split; [|split; reflexivity].
  change [put_user1; put_user2 big] with (((([put_user1; put_user2 big] ++ []) ++ []) ++ []) ++ []).
  eapply (steps_trans _ _ _ _ _ None); [|apply (step_flush_refresh _ _ (flush_clear s3)); unfold flush_refresh, flush_clear, s3;
    cbn [SstDir ActiveMap frozenMap ssTables WalDir walSeq FlushChan]; rewrite Hrs; reflexivity].
  eapply (steps_trans _ _ _ _ _ None); [eapply (steps_trans _ _ _ _ _ None);
    [eapply (steps_trans _ _ _ _ _ None); [exact (steps_user12 big a2 H2)|]|]|].
  - apply step_wake. reflexivity.
  - assert (∃ T, table1 !! sst_name 0 t0 = Some T ∧ file_clean 100 T = true) as (T & HT & Hc).
    { exists (default [] (table1 !! sst_name 0 t0)). split; vm_compute; reflexivity. }
    apply (step_flush_write demo_hash 100 (set_chan s2 false) 0 t0 (ActiveMap store1) s3 T);
      [reflexivity|reflexivity|unfold nano_time, t0; lia|exact H3|exact HT|exact Hc].
  - apply step_flush_clear.
Qed.

Lemma big_value : ∃ big : bytes, len big = mapLimit - 12.
Proof. exists (zeros (Z.to_nat (mapLimit - 12))). rewrite len_zeros, Z2Nat.id; [done|]. unfold mapLimit. lia. Qed.

Lemma store_refines_map_witness :
  ∃ x, sst_files (SstDir (sys_store x)) = [sst_name 0 t0] ∧ frozenMap (sys_store x) = None ∧
    store_Get demo_hash (sys_store x) key_user1 = Ok (Some [Byte.x41]).
Proof.
  destruct big_value as [big Hbig]. destruct (flush_run big Hbig) as (x & Hs & Hf & Hd).
  exists x. split; [rewrite Hd; vm_compute; reflexivity|]. split; [exact Hf|].
  rewrite (store_refines_map demo_hash 100 0 _ x key_user1 ltac:(lia) Hs ltac:(reflexivity)).
  reflexivity.
Defined.

(** C38. No lost wake-up: in every run from an empty store, in which no disk
    fails and flushed tables are clean, whenever a frozen table waits to be
    flushed, the flush channel holds a signal or the worker is already awake,
    so a full table is never left behind. *)
Theorem flush_no_lost_wakeup Sum64 kmax c0 cmds x :
  kmax <= 2 ^ 16 → steps Sum64 kmax (mkSys empty_store W_wait c0) cmds x →
  frozenMap (sys_store x) ≠ None →
  FlushChan (sys_store x) = true ∨ sys_worker x ≠ W_wait.
Proof.
  intros Hkm Hs. destruct (steps_inv Sum64 kmax c0 cmds x Hkm Hs) as (ma & mf & tabs & [[_ _ _ Hw] _]). done.
Qed.

Lemma flush_no_lost_wakeup_witness :
  ∃ x, frozenMap (sys_store x) = Some (ActiveMap store1) ∧ sys_worker x = W_wait ∧
    (FlushChan (sys_store x) = true ∨ sys_worker x ≠ W_wait).
Proof.
  destruct big_value as [big Hbig]. destruct (apply_user2 big Hbig) as (a2 & H2 & _).
  exists (mkSys (store2 a2) W_wait 0). split; [reflexivity|]. split; [reflexivity|].
  apply (flush_no_lost_wakeup demo_hash 100 0 [put_user1; put_user2 big] (mkSys (store2 a2) W_wait 0));
    [lia|exact (steps_user12 big a2 H2)|discriminate].
Defined.

(** C39. Errors of a write, in a store that started empty: in every run without
    restart, compaction and disk faults, with keys of fewer than [kmax] <= 65536
    bytes and clean flushed tables, a put or delete either takes effect or is
    refused for one of two reasons: both tables are full (write stall, nothing
    changes), or the entry alone is larger than a table.  The arena never runs
    full under the size check; after a recovery it can
    ([recovered_size_short]). *)
Theorem apply_errors Sum64 kmax c0 cmds x cmd s' e :
  kmax <= 2 ^ 16 → steps Sum64 kmax (mkSys empty_store W_wait c0) cmds x →
  c_Op cmd ≠ OpOther → apply_cmd (sys_store x) cmd None = (s', Err e) →
  e = ErrWriteStall ∧ s' = sys_store x ∧ frozenMap s' ≠ None ∨
  e = ErrPutFailed (c_Key cmd) ErrArenaFull ∧ mapLimit < 7 + len (c_Key cmd) + len (c_Value cmd).
Proof.
  intros Hkm Hs Hop Ha. destruct (steps_inv Sum64 kmax c0 cmds x Hkm Hs) as (ma & mf & tabs & [[Hrel _ _ _] _]).
  set (d := match c_Op cmd with OpDelete => true | _ => false end).
  set (val := if d then [] else c_Value cmd).
  assert (applyInternal (sys_store x) (c_Key cmd) val d None = (s', Err e)) as Hint.
  { rewrite <-Ha. unfold apply_cmd, val, d. by destruct (c_Op cmd). }
  destruct (applyInternal_rel Sum64 kmax (sys_store x) ma mf tabs (c_Key cmd) val d Hrel)
    as (s1 & r1 & H1 & _ & _ & Hr); [by unfold val; intros ->|].
  rewrite H1 in Hint. simplify_eq. destruct Hr as [_ [(-> & -> & Hmf)|(-> & Hsz)]]; [left|right].
  - split_and!; [done|done|]. pose proof (sr_frozen _ _ _ _ _ _ Hrel) as Hf.
    destruct (frozenMap (sys_store x)); [done|]. by destruct mf.
  - split; [done|]. assert (len val <= len (c_Value cmd)) by (unfold val; destruct d; len_lia). lia.
Qed.

Definition put_user1_again : raftCmd := mkRaftCmd OpPut key_user1 [Byte.x42].

Lemma stalled_store a2 :
  mt_Size a2 = mapLimit → apply_cmd (store2 a2) put_user1_again None = (store2 a2, Err ErrWriteStall).
Proof.
  intros Hsz. unfold apply_cmd, put_user1_again, applyInternal, store2. cbn [c_Op c_Key c_Value ActiveMap].
  rewrite Hsz. reflexivity.
Qed.

Lemma apply_errors_witness :
  ∃ s e, apply_cmd s put_user1_again None = (s, Err e) ∧
    (e = ErrWriteStall ∧ s = s ∧ frozenMap s ≠ None ∨
     e = ErrPutFailed key_user1 ErrArenaFull ∧ mapLimit < 7 + 5 + 1).
Proof.
  destruct big_value as [big Hbig]. destruct (apply_user2 big Hbig) as (a2 & H2 & Hsz).
  exists (store2 a2), ErrWriteStall. split; [exact (stalled_store a2 Hsz)|].
  apply (apply_errors demo_hash 100 0 [put_user1; put_user2 big] (mkSys (store2 a2) W_wait 0)
           put_user1_again (store2 a2) ErrWriteStall).
  - lia.
  - exact (steps_user12 big a2 H2).
  - discriminate.
  - exact (stalled_store a2 Hsz).
Defined.
