(* ===== verification/KvCompact.v ===== *)
(** * kv/compact.go and kv/store.go together: a store that compacts

    The system of KvStore.v with a background compaction beside the commands
    and the flush worker.  A compaction lists the files of a level under the
    lock, merges them without it, and removes them under the lock again, so
    other calls run between its three parts.  [Get] reads the files by name,
    greatest first, so a table of a higher level hides the newer ones below;
    the invariant shows that this is the only way to a stale state: while no
    table is flushed with a key that a higher level, or the input of a running
    compaction, holds, every state answers like the finite map of the commands.
    The theorem about this system, with the parts of [Get] as steps, is in
    KvGet.v. *)

From stdpp Require Import base functions list gmap sorting.
From Stdlib Require Import ZArith Lia.
From S2P Require Import Prelude GoFile Arena Bloom Wal SSTable SSTReader SSTIterator SSTClean GoDir Compact MemTable KvStore.

(** The parts of [CheckAndCompact]: the listing, [None] when there is nothing
    to do. *)
Definition compact_list (d : dir) (level : Z) : option (list bytes) :=
  let levelFiles := getFilesForLevel d level in
  if len levelFiles <? maxLevelFiles then None else Some levelFiles.

(** The merge into the new file, which an error leaves behind incomplete. *)
Definition compact_merge (Sum64 : bytes → Z) (d : dir) (levelFiles : list bytes) (level now : Z)
  (created : outcome (list (option nat))) : dir * outcome unit :=
  let nextLevel := level + 1 in
  let isBottomLevel := maxLevelFiles <=? nextLevel in
  match open_iterators d levelFiles with
  | Err e => (d, Err e)
  | Panic => (d, Panic)
  | Ok iterators =>
      let newFilename := sst_name nextLevel now in
      match NewBuilder (faults ← created; Ok (mkFile [] 0 faults)) 10000 with
      | Err e => (d, Err e)
      | Panic => (d, Panic)
      | Ok builder =>
          let '(builder, r) := merge_loop Sum64 (merge_fuel iterators) iterators builder isBottomLevel in
          match r with
          | Ok _ => let '(builder, _) := builder_Close builder in (<[newFilename := f_data (b_File builder)]> d, Ok tt)
          | _ => (<[newFilename := f_data (b_File builder)]> d, r)
          end
      end
  end.

(** The removal of the inputs. *)
Definition compact_clear (d : dir) (levelFiles : list bytes) : dir * outcome (list Reader) :=
  let d := foldl (λ d f, delete f d) d levelFiles in
  (d, refreshSSTables d).

(** Where the compaction is; [compactionMu] admits one at a time. *)
Inductive compactor :=
| C_idle
| C_listed (level : Z) (levelFiles : list bytes)
| C_merged (level : Z) (levelFiles : list bytes) (newFilename : bytes).

(** The files a running compaction will remove. *)
Definition inputs (c : compactor) : list bytes :=
  match c with C_idle => [] | C_listed _ fs | C_merged _ fs _ => fs end.

Record CSystem := mkCSys { cs_sys : System; cs_compactor : compactor }.

Definition set_dir (s : Store) (d : dir) (readers : list Reader) : Store :=
  mkStore (ActiveMap s) (frozenMap s) readers d (WalDir s) (walSeq s) (FlushChan s).

Section system.
Variable Sum64 : bytes → Z.
Variable kmax : Z.

(** A reader of file [n] does not find [k]. *)
Definition absent (d : dir) (n k : bytes) : bool :=
  match Open d n ≫= OpenSSTable with
  | Ok r => match reader_Get Sum64 r k with Ok (_, _, found) => negb found | _ => false end
  | _ => false
  end.

(** No key of the table [mem] is in a file of a level above 0 or in an input
    of the running compaction. *)
Definition unshared (d : dir) (running : list bytes) (mem : MemTable) : bool :=
  forallb (λ n, HasPrefix n (level_prefix 0) && bool_decide (n ∉ running) ||
                forallb (absent d n) (sorted_keys mem)) (sst_files d).

(** The steps of KvStore.v, with the restriction on flushes, and those of a
    compaction, which is met by no fault and leaves a clean table. *)
Inductive cstep : CSystem → option raftCmd → CSystem → Prop :=
| cstep_store x l y c :
    step Sum64 kmax x l y →
    (∀ mem, sys_worker x = W_check → sys_worker y = W_written → frozenMap (sys_store x) = Some mem →
       unshared (SstDir (sys_store x)) (inputs c) mem = true) →
    cstep (mkCSys x c) l (mkCSys y c)
| cstep_list x level files :
    0 <= level → level + 1 < max_dec → compact_list (SstDir (sys_store x)) level = Some files →
    cstep (mkCSys x C_idle) None (mkCSys x (C_listed level files))
| cstep_merge s w c level files now d T :
    c < now → nano_time now →
    compact_merge Sum64 (SstDir s) files level now (Ok []) = (d, Ok tt) →
    d !! sst_name (level + 1) now = Some T → file_clean kmax T = true →
    cstep (mkCSys (mkSys s w c) (C_listed level files)) None
      (mkCSys (mkSys (set_dir s d (ssTables s)) w now) (C_merged level files (sst_name (level + 1) now)))
| cstep_clear s w c level files name d rs :
    compact_clear (SstDir s) files = (d, Ok rs) →
    cstep (mkCSys (mkSys s w c) (C_merged level files name)) None
      (mkCSys (mkSys (set_dir s d rs) w c) C_idle).

Inductive csteps : CSystem → list raftCmd → CSystem → Prop :=
| csteps_refl x : csteps x [] x
| csteps_trans x cmds y l z :
    csteps x cmds y → cstep y l z →
    csteps x (cmds ++ match l with Some c => [c] | None => [] end) z.

(** A store opened on the directory [d], nothing running. *)
Definition opened (d : dir) (rs : list Reader) (c0 : Z) : CSystem :=
  mkCSys (mkSys (mkStore (NewMemTable mapLimit (Some 0)) None rs d {[0 := []]} 0 false) W_wait c0) C_idle.

(** File [n] of [d] is the finished, clean table of the entries [es]. *)
Definition file_ok (d : dir) (n : bytes) (es : list sst_entry) : Prop :=
  ∃ T keyCount, d !! n = Some T ∧ keyCount < 2 ^ 60 ∧ build_table Sum64 keyCount es = Ok T ∧
    sorted_entries es ∧ Forall entry_fits es ∧ file_clean kmax T = true.

(** No key of fewer than [kmax] bytes is in tables of two levels. *)
Definition one_level (F : bytes → list sst_entry) (names : list bytes) : Prop :=
  ∀ n n' level k, n ∈ names → n' ∈ names → 0 <= level < max_dec → HasPrefix n (level_prefix level) = true →
    len k < kmax → is_Some (find_entry (F n) k) → is_Some (find_entry (F n') k) →
    HasPrefix n' (level_prefix level) = true.

(** The tables [F] of a directory whose files were named before [c]. *)
Record tables (d : dir) (c : Z) (F : bytes → list sst_entry) : Prop := {
  tb_ok n : n ∈ sst_files d → file_ok d n (F n);
  tb_name n : n ∈ sst_files d →
    ∃ level t, n = sst_name level t ∧ 0 <= level < max_dec ∧ nano_time t ∧ t <= c
}.
End system.

(** * Lemmas *)

(** [CheckAndCompact] is its three parts in a row. *)
Lemma CheckAndCompact_parts Sum64 d level now created :
  CheckAndCompact Sum64 d level now created =
  match compact_list d level with
  | None => (d, Ok None)
  | Some files =>
      match compact_merge Sum64 d files level now created with
      | (d, Ok _) => let '(d, r) := compact_clear d files in (d, rs ← r; Ok (Some (level + 1, rs)))
      | (d, Err e) => (d, Err e)
      | (d, Panic) => (d, Panic)
      end
  end.
Proof.
  unfold CheckAndCompact, compact_list, compact_merge. destruct (_ <? _); [done|].
  destruct (open_iterators d _) as [its|e|]; [|done..]. destruct (NewBuilder _ _) as [b|e|]; [|done..].
  destruct (merge_loop _ _ _ _ _) as [b1 [[]|e|]]; [|done..]. by destruct (builder_Close b1).
Qed.

(** ** Reading a list of tables *)

Definition entry_cell (e : sst_entry) : option bytes := cmd_cell (entry_value e) (entry_tomb e).

(** The cells of a table. *)
Definition cells_of (es : list sst_entry) : cells :=
  foldr (λ e m, <[entry_key e := entry_cell e]> m) ∅ es.

Lemma cells_of_lookup es k : cells_of es !! k = entry_cell <$> find_entry es k.
Proof.
  induction es as [|e es IH]; [done|]. simpl. rewrite find_entry_cons. destruct (decide _) as [<-|Hne].
  - by rewrite lookup_insert_eq.
  - by rewrite lookup_insert_ne.
Qed.

(** Tables built alike answer alike; the value of a tombstone does not count. *)
Lemma entry_cell_presented e : entry_cell (presented e) = entry_cell e.
Proof. by destruct e as [[k v] []]. Qed.

Section reading.
Context (F : bytes → list sst_entry).

Definition read (names : list bytes) (k : bytes) : option bytes :=
  newest (map F names) k ≫= entry_cell.

Lemma read_first_cell names k :
  mjoin (first_cell (map (λ n, cells_of (F n)) names) k) = read names k.
Proof.
  unfold read. induction names as [|n names IH]; [done|]. simpl. rewrite cells_of_lookup.
  by destruct (find_entry (F n) k) as [e|]; [|apply IH].
Qed.

(** The greatest name of a table with the key decides. *)
Lemma newest_None names k :
  newest (map F names) k = None ↔ ∀ n, n ∈ names → find_entry (F n) k = None.
Proof.
  induction names as [|n names IH]; simpl; [split; [by intros _ n ?%not_elem_of_nil|done]|].
  destruct (find_entry (F n) k) as [e|] eqn:E.
  - split; [done|]. intros H. rewrite <-E. apply H, elem_of_cons. by left.
  - rewrite IH. split; [|naive_solver set_solver]. intros H m [->|?]%elem_of_cons; auto.
Qed.

Lemma newest_Some names k e :
  StronglySorted (flip str_lt) names →
  newest (map F names) k = Some e ↔
    ∃ n, n ∈ names ∧ find_entry (F n) k = Some e ∧
      ∀ n', n' ∈ names → str_lt n n' → find_entry (F n') k = None.
Proof.
  induction 1 as [|n names Hs IH Hn]; simpl; [split; [done|by intros (n & ?%not_elem_of_nil & _)]|].
  rewrite Forall_forall in Hn. destruct (find_entry (F n) k) as [x|] eqn:E.
  - split.
    + intros [= ->]. exists n. split; [apply elem_of_cons; by left|]. split; [done|].
      intros n' [->|Hin]%elem_of_cons Hlt; [by apply (irreflexivity str_lt) in Hlt|].
      specialize (Hn n' Hin). exfalso. apply (irreflexivity str_lt n). by etrans.
    + intros (m & [->|Hin]%elem_of_cons & Hm & Hmax); [congruence|].
      specialize (Hmax n ltac:(apply elem_of_cons; by left) (Hn m Hin)). congruence.
  - rewrite IH. split; intros (m & Hin & Hm & Hmax); exists m.
    + split; [apply elem_of_cons; by right|]. split; [done|]. intros n' [->|?]%elem_of_cons; auto.
    + apply elem_of_cons in Hin as [->|Hin]; [congruence|]. split; [done|]. split; [done|].
      intros n' ?. apply Hmax, elem_of_cons. by right.
Qed.
End reading.

(** The answer depends on the tables with the key only. *)
Lemma newest_same F F' names names' k :
  StronglySorted (flip str_lt) names → StronglySorted (flip str_lt) names' →
  (∀ n e, n ∈ names ∧ find_entry (F n) k = Some e ↔ n ∈ names' ∧ find_entry (F' n) k = Some e) →
  newest (map F names) k = newest (map F' names') k.
Proof.
  intros Hs Hs' H.
  assert (∀ n, n ∈ names' → (n ∈ names → find_entry (F n) k = None) → find_entry (F' n) k = None) as Hno.
  { intros n Hn Hx. destruct (find_entry (F' n) k) as [x|] eqn:Ex; [|done].
    destruct (proj2 (H n x) (conj Hn Ex)) as [Hin Hy]. by rewrite Hx in Hy. }
  destruct (newest (map F names) k) as [e|] eqn:E; symmetry.
  - apply newest_Some in E as (n & Hn & He & Hmax); [|done]. apply newest_Some; [done|].
    exists n. destruct (proj1 (H n e) (conj Hn He)) as [? ?]. do 2 (split; [done|]).
    intros n' Hn' Hlt. apply Hno; auto.
  - rewrite newest_None in E. apply newest_None. intros n Hn. apply Hno; auto.
Qed.

(** ** The invariant of a running compaction *)

Section invariant.
Context (Sum64 : bytes → Z) `{!KeyFilter Sum64} (kmax : Z).

(** [files] are tables of one level whose keys no other table has. *)
Record listed (F : bytes → list sst_entry) (names : list bytes) (level : Z) (files : list bytes) : Prop := {
  ls_level : 0 <= level;
  ls_next : level + 1 < max_dec;
  ls_names n : n ∈ files → n ∈ names ∧ HasPrefix n (level_prefix level) = true;
  ls_sorted : StronglySorted (flip str_lt) files;
  ls_apart n n' k : n ∈ files → n' ∈ names → n' ∉ files → len k < kmax →
    is_Some (find_entry (F n) k) → find_entry (F n') k = None
}.

(** The file [name] holds what the merge of [files] keeps. *)
Record merged_to (F : bytes → list sst_entry) (names : list bytes) (level : Z) (files : list bytes)
  (name : bytes) : Prop := {
  mt_in : name ∈ names;
  mt_prefix : HasPrefix name (level_prefix (level + 1)) = true;
  mt_new : name ∉ files;
  mt_find k : find_entry (F name) k =
    presented <$> kept (maxLevelFiles <=? level + 1) (newest (map F files) k)
}.

Definition others (name : bytes) (names : list bytes) : list bytes := filter (λ n, n ≠ name) names.

Definition compactor_ok (F : bytes → list sst_entry) (names : list bytes) (c : compactor) : Prop :=
  match c with
  | C_idle => one_level kmax F names
  | C_listed level files => one_level kmax F names ∧ listed F names level files
  | C_merged level files name =>
      one_level kmax F (others name names) ∧ listed F (others name names) level files ∧
      merged_to F names level files name
  end.

Lemma elem_of_others name names n : n ∈ others name names ↔ n ≠ name ∧ n ∈ names.
Proof. unfold others. by rewrite list_elem_of_filter. Qed.

Lemma others_sorted name names :
  StronglySorted (flip str_lt) names → StronglySorted (flip str_lt) (others name names).
Proof. apply StronglySorted_sublist, sublist_filter. Qed.

(** The inputs decide about their keys. *)
Lemma listed_newest F names level files k e :
  listed F names level files → StronglySorted (flip str_lt) names → len k < kmax →
  newest (map F files) k = Some e → newest (map F names) k = Some e.
Proof.
  intros [_ _ Hn Hs Ha] Hsn Hk (n & Hin & He & Hmax)%newest_Some; [|done]. apply newest_Some; [done|].
  exists n. split; [by apply Hn|]. split; [done|]. intros n' Hn' Hlt.
  destruct (decide (n' ∈ files)) as [|Hno]; [by apply Hmax|]. by eapply Ha.
Qed.

(** A table outside the inputs has no key of theirs. *)
Lemma listed_outside F names level files n k :
  listed F names level files → len k < kmax → n ∈ names → n ∉ files →
  is_Some (newest (map F files) k) → find_entry (F n) k = None.
Proof.
  intros [_ _ _ Hs Ha] Hk Hn Hno [e (n' & Hin & He & _)%newest_Some]; [|done].
  eapply (Ha n' n k); [done..|]. by rewrite He.
Qed.

(** Writing the merged table changes no answer. *)
Lemma merged_read F names level files name k :
  listed F (others name names) level files → merged_to F names level files name →
  StronglySorted (flip str_lt) names → len k < kmax →
  read F names k = read F (others name names) k.
Proof.
  intros Hl [Hin _ Hnew Hfind] Hs Hk. specialize (Hfind k). unfold read.
  destruct (find_entry (F name) k) as [x|] eqn:Ex.
  - destruct (newest (map F files) k) as [e|] eqn:Ef; [|done].
    rewrite (listed_newest _ _ _ _ _ _ Hl (others_sorted _ _ Hs) Hk Ef).
    assert (entry_cell x = entry_cell e) as Hx.
    { simpl in Hfind. destruct (_ && _); [done|]. injection Hfind as ->. apply entry_cell_presented. }
    destruct (newest (map F names) k) as [e2|] eqn:E2.
    2: { rewrite newest_None in E2. by rewrite E2 in Ex. }
    apply newest_Some in E2 as (n2 & Hn2 & He2 & Hmax); [|done]. simpl.
    destruct (decide (n2 = name)) as [->|Hne]; [congruence|].
    assert (n2 ∈ files) as Hf2.
    { destruct (decide (n2 ∈ files)) as [|Hno]; [done|].
      pose proof (listed_outside _ _ _ _ n2 k Hl Hk) as Hout. rewrite He2 in Hout.
      discriminate Hout; [by apply elem_of_others|done|by rewrite Ef]. }
    assert (newest (map F files) k = Some e2) as Ef2; [|congruence].
    apply newest_Some; [by eapply ls_sorted|]. exists n2. do 2 (split; [done|]). intros n' Hn' Hlt.
    apply Hmax; [|done]. by apply (ls_names _ _ _ _ Hl), proj1, elem_of_others in Hn' as [_ ?].
  - f_equal. apply newest_same; [done|by apply others_sorted|]. intros n e. rewrite elem_of_others.
    naive_solver congruence.
Qed.

(** Removing the inputs changes no answer. *)
Lemma cleared_read F names names' level files name k :
  listed F (others name names) level files → merged_to F names level files name →
  StronglySorted (flip str_lt) names → StronglySorted (flip str_lt) names' →
  (∀ n, n ∈ names' ↔ n ∈ names ∧ n ∉ files) → len k < kmax →
  read F names' k = read F names k.
Proof.
  intros Hl Hm Hs Hs' Hn' Hk. rewrite (merged_read _ _ _ _ _ _ Hl Hm Hs Hk).
  destruct Hm as [Hin _ Hnew Hfind]. specialize (Hfind k). unfold read.
  destruct (newest (map F files) k) as [e|] eqn:Ef.
  - rewrite (listed_newest _ _ _ _ _ _ Hl (others_sorted _ _ Hs) Hk Ef).
    assert (∀ n, n ∈ names' → n ≠ name → find_entry (F n) k = None) as Hout.
    { intros n [Hn Hno]%Hn' Hne. eapply (listed_outside _ _ _ _ n k Hl Hk); [by apply elem_of_others|done|].
      by rewrite Ef. }
    simpl in Hfind. destruct (entry_tomb e && _) eqn:Et; simpl in Hfind.
    + assert (newest (map F names') k = None) as ->.
      { apply newest_None. intros n Hn. destruct (decide (n = name)) as [->|]; [done|]. by apply Hout. }
      apply andb_true_iff in Et as [Et _]. simpl. unfold entry_cell. by rewrite Et.
    + assert (newest (map F names') k = Some (presented e)) as ->.
      { apply newest_Some; [done|]. exists name. split; [by apply Hn'|]. split; [done|].
        intros n Hn Hlt. apply Hout; [done|]. intros ->. by apply (irreflexivity str_lt) in Hlt. }
      apply entry_cell_presented.
  - f_equal. rewrite newest_None in Ef. apply newest_same; [done|by apply others_sorted|]. intros n e.
    rewrite elem_of_others, Hn'. simpl in Hfind. split.
    + intros [[Hn Hno] He]. split; [|done]. split; [|done]. intros ->. congruence.
    + intros [[Hne Hn] He]. split; [|done]. split; [done|]. intros Hf. rewrite Ef in He; done.
Qed.

Lemma cleared_one_level F names names' level files name :
  one_level kmax F (others name names) → listed F (others name names) level files →
  merged_to F names level files name → (∀ n, n ∈ names' → n ∈ names ∧ n ∉ files) →
  one_level kmax F names'.
Proof.
  intros Ho Hl Hm Hn'.
  assert (∀ n k, n ∈ names' → n ≠ name → len k < kmax → is_Some (find_entry (F name) k) →
    find_entry (F n) k = None) as Hname.
  { intros n k [Hn Hno]%Hn' Hne Hk [x Hx].
    eapply (listed_outside _ _ _ _ n k Hl Hk); [by apply elem_of_others|done|].
    rewrite (mt_find _ _ _ _ _ Hm) in Hx. by destruct (newest _ _). }
  intros n n' lv k Hn Hin' Hlv Hp Hk Hsome Hsome'.
  destruct (decide (n = name)) as [->|Hne], (decide (n' = name)) as [->|Hne']; [done|..].
  - rewrite (Hname n' k) in Hsome' by done. by destruct Hsome'.
  - rewrite (Hname n k) in Hsome by done. by destruct Hsome.
  - eapply (Ho n n'); try done; apply elem_of_others; (split; [done|]); by apply Hn'.
Qed.

(** Other tables may be added or replaced elsewhere. *)
Lemma one_level_ext F F' (names : list bytes) :
  (∀ n, n ∈ names → F' n = F n) → one_level kmax F names → one_level kmax F' names.
Proof. intros HF H n n' lv k Hn Hn'. rewrite !HF by done. by apply H. Qed.

Lemma listed_ext F F' (names : list bytes) level files :
  (∀ n, n ∈ names → F' n = F n) → listed F names level files → listed F' names level files.
Proof.
  intros HF [? ? Hn ? Ha]. split; [done..|]. intros n n' k Hin Hin'.
  rewrite !HF by (done || by apply Hn). by apply Ha.
Qed.

Lemma newest_ext F F' (names : list bytes) k :
  (∀ n, n ∈ names → F' n = F n) → newest (map F' names) k = newest (map F names) k.
Proof. intros HF. f_equal. apply map_ext_in. intros n Hn. by apply HF, list_elem_of_In. Qed.

(** Adding a table of level 0 without keys of higher levels. *)
Lemma flush_one_level F (names names' : list bytes) n0 es :
  one_level kmax F names → n0 ∉ names → HasPrefix n0 (level_prefix 0) = true →
  (∀ n lv, n ∈ names → 0 <= lv < max_dec → HasPrefix n (level_prefix 0) = true →
     HasPrefix n (level_prefix lv) = true → lv = 0) →
  (∀ lv, 0 <= lv < max_dec → HasPrefix n0 (level_prefix lv) = true → lv = 0) →
  (∀ n, n ∈ names' ↔ n = n0 ∨ n ∈ names) →
  (∀ n k, n ∈ names → len k < kmax → HasPrefix n (level_prefix 0) = false →
     is_Some (find_entry es k) → find_entry (F n) k = None) →
  one_level kmax (<[n0 := es]> F) names'.
Proof.
  intros Ho Hn0 Hp0 Hp Hp0' Hn' Hun n n' lv k Hn Hin Hlv Hpr Hk Hsome Hsome'.
  apply Hn' in Hn, Hin. destruct Hn as [->|Hn], Hin as [->|Hin]; [done|..].
  - rewrite fn_lookup_insert in Hsome. rewrite fn_lookup_insert_ne in Hsome' by congruence.
    apply Hp0' in Hpr as ->; [|done]. destruct (HasPrefix n' (level_prefix 0)) eqn:E; [done|].
    rewrite (Hun n' k Hin Hk E Hsome) in Hsome'. by destruct Hsome'.
  - rewrite fn_lookup_insert in Hsome'. rewrite fn_lookup_insert_ne in Hsome by congruence.
    destruct (HasPrefix n (level_prefix 0)) eqn:E.
    + by rewrite (Hp n lv Hn Hlv E Hpr).
    + rewrite (Hun n k Hn Hk E Hsome') in Hsome. by destruct Hsome.
  - rewrite fn_lookup_insert_ne in Hsome, Hsome' by congruence. by eapply (Ho n n').
Qed.

Lemma flush_listed F (names names' : list bytes) level files n0 es :
  listed F names level files → n0 ∉ names → (∀ n, n ∈ names' ↔ n = n0 ∨ n ∈ names) →
  (∀ n k, n ∈ files → len k < kmax → is_Some (find_entry es k) → find_entry (F n) k = None) →
  listed (<[n0 := es]> F) names' level files.
Proof.
  intros [? ? Hf ? Ha] Hn0 Hn' Hun. split; [done..| |done|].
  - intros n [? ?]%Hf. split; [apply Hn'; by right|done].
  - intros n n' k Hn Hin Hno Hk. assert (n ≠ n0) as Hne by (intros ->; by apply Hn0, Hf).
    rewrite fn_lookup_insert_ne by congruence. apply Hn' in Hin as [->|Hin].
    + rewrite fn_lookup_insert. intros [x Hx]. destruct (find_entry es k) eqn:E; [|done].
      rewrite (Hun n k) in Hx by (done || by rewrite E). done.
    + rewrite fn_lookup_insert_ne by congruence. by apply Ha.
Qed.
End invariant.

(** ** The steps of the directory *)

Section directory.
Context (Sum64 : bytes → Z) `{!KeyFilter Sum64} (kmax : Z).
Notation tables := (tables Sum64 kmax).

Lemma file_ok_rel d n es : file_ok Sum64 kmax d n es → file_rel Sum64 kmax d n (cells_of es).
Proof.
  intros (T & c & Hn & Hc & HT & Hs & Hf & Hclean).
  eapply (built_file_rel Sum64 kmax d c es); [done..|]. intros k. unfold answer. rewrite cells_of_lookup.
  destruct (find_entry es k) as [[[k' v] []]|]; done.
Qed.

Lemma file_ok_table d n es : file_ok Sum64 kmax d n es → table_of d n es.
Proof.
  intros (T & c & Hn & Hc & HT & Hs & Hf & Hclean).
  destruct (file_clean_rest Sum64 kmax c es T Hc HT Hclean) as (rest & HR & Hr & He & _).
  exists T. split; [done|]. split; [|done]. by exists rest.
Qed.

Lemma tables_rel d c F :
  tables d c F → Forall2 (file_rel Sum64 kmax d) (sst_files d) (map (λ n, cells_of (F n)) (sst_files d)).
Proof.
  intros [Hok _]. induction (sst_files d) as [|n names IH]; [constructor|].
  simpl. constructor; [apply file_ok_rel, Hok, elem_of_cons; by left|].
  apply IH. intros m ?. apply Hok, elem_of_cons. by right.
Qed.

Lemma file_level d c F n level :
  tables d c F → n ∈ sst_files d → 0 <= level < max_dec → HasPrefix n (level_prefix level) = true →
  ∃ t, n = sst_name level t ∧ nano_time t ∧ t <= c.
Proof.
  intros [_ Hn] Hin Hl Hp. destruct (Hn n Hin) as (lv & t & -> & Hlv & ?).
  apply sst_name_prefix in Hp as ->; [eauto|done..].
Qed.

Lemma sst_name_level_prefix level t : HasPrefix (sst_name level t) (level_prefix level) = true.
Proof. apply HasPrefix_app. Qed.

Lemma new_name d c F level now :
  tables d c F → 0 <= level < max_dec → c < now → nano_time now → sst_name level now ∉ sst_files d.
Proof.
  intros Ht Hl Hlt Hnow Hin.
  destruct (file_level _ _ _ _ level Ht Hin Hl (sst_name_level_prefix _ _)) as (t & E & Hnt & Hle).
  apply (irreflexivity str_lt (sst_name level t)). rewrite <-E at 2. apply sst_name_lt; [done|done|lia].
Qed.

Lemma elem_of_sst_files_insert d name T n :
  HasSuffix name sst_suffix = true → n ∈ sst_files (<[name := T]> d) ↔ n = name ∨ n ∈ sst_files d.
Proof.
  intros Hs. rewrite !elem_of_sst_files. destruct (decide (n = name)) as [->|Hne].
  - rewrite lookup_insert_eq. split; [by left|]. intros _. split; [by eexists|done].
  - rewrite lookup_insert_ne by done. tauto.
Qed.

(** A new table file beside the others. *)
Lemma tables_insert d c F name T es level now keyCount :
  tables d c F → name = sst_name level now → 0 <= level < max_dec → c < now → nano_time now →
  keyCount < 2 ^ 60 → build_table Sum64 keyCount es = Ok T → sorted_entries es → Forall entry_fits es →
  file_clean kmax T = true →
  tables (<[name := T]> d) now (<[name := es]> F).
Proof.
  intros Ht -> Hl Hlt Hnow Hc HT Hs Hf Hcl.
  pose proof (new_name d c F level now Ht Hl Hlt Hnow) as Hnew. destruct Ht as [Hok Hnm].
  split; intros n [->|Hin]%(elem_of_sst_files_insert d _ T n (sst_name_suffix _ _)).
  - rewrite fn_lookup_insert. exists T, keyCount. by rewrite lookup_insert_eq.
  - rewrite fn_lookup_insert_ne by congruence. destruct (Hok n Hin) as (T' & c' & ?).
    exists T', c'. by rewrite lookup_insert_ne by congruence.
  - exists level, now. split_and!; done || lia.
  - destruct (Hnm n Hin) as (lv & t & ? & ? & ? & ?). exists lv, t. split_and!; done || lia.
Qed.

Lemma sst_files_others d name T :
  name ∉ sst_files d → HasSuffix name sst_suffix = true →
  others name (sst_files (<[name := T]> d)) = sst_files d.
Proof.
  intros Hn Hs. apply strict_sorted_eq; [apply others_sorted, sst_files_strict|apply sst_files_strict|].
  intros n. rewrite elem_of_others, elem_of_sst_files_insert by done. naive_solver.
Qed.

Lemma list_listed d c F level files :
  tables d c F → one_level kmax F (sst_files d) → 0 <= level → level + 1 < max_dec →
  compact_list d level = Some files → listed kmax F (sst_files d) level files.
Proof.
  intros Ht Ho Hl Hl' Hc. unfold compact_list in Hc. destruct (_ <? _); [done|]. injection Hc as <-.
  assert (∀ n, n ∈ getFilesForLevel d level ↔ n ∈ sst_files d ∧ HasPrefix n (level_prefix level) = true) as Hin.
  { intros n. rewrite elem_of_getFilesForLevel, elem_of_sst_files. tauto. }
  split; [done|done|by intros n ?%Hin| |].
  - apply sort_reverse_strict, NoDup_filter, NoDup_ReadDir.
  - intros n n' k [Hn Hp]%Hin Hn' Hno Hk Hsome.
    destruct (find_entry (F n') k) as [x|] eqn:E; [|done]. destruct Hno. apply Hin. split; [done|].
    eapply (Ho n n' level k); [done|done|lia|done|done|done|by rewrite E].
Qed.

Lemma compact_merge_ok d files level now its :
  open_iterators d files = Ok its → Forall it_wf its →
  ∃ T, build_table Sum64 10000 (merged its (maxLevelFiles <=? level + 1)) = Ok T ∧
    compact_merge Sum64 d files level now (Ok []) = (<[sst_name (level + 1) now := T]> d, Ok tt).
Proof.
  intros Hits Hwf. unfold compact_merge, build_table. rewrite Hits. cbn [mbind outcome_bind].
  destruct (NewBuilder_inv Sum64 (mkFile [] 0 []) 10000 ltac:(lia) eq_refl) as (b & -> & Hb).
  rewrite merge_loop_merged by done. cbn [mbind outcome_bind].
  destruct (builder_adds_inv Sum64 b [] (merged its (maxLevelFiles <=? level + 1)) Hb) as (b1 & -> & Hb1).
  cbn [mbind outcome_bind].
  destruct (builder_Close_spec Sum64 b1 _ Hb1) as (b2 & -> & Hd). by eexists.
Qed.

(** The merge adds the table of what it keeps. *)
Lemma merge_tables d c F level files now d' T :
  let name := sst_name (level + 1) now in
  tables d c F → listed kmax F (sst_files d) level files → c < now → nano_time now →
  compact_merge Sum64 d files level now (Ok []) = (d', Ok tt) → d' !! name = Some T →
  file_clean kmax T = true →
  d' = <[name := T]> d ∧ ∃ es, tables d' now (<[name := es]> F) ∧
    ∀ k, find_entry es k = presented <$> kept (maxLevelFiles <=? level + 1) (newest (map F files) k).
Proof.
  intros name Ht Hl Hlt Hnow Hm HT Hcl.
  assert (Forall2 (table_of d) files (map F files)) as Htab.
  { pose proof (ls_names _ _ _ _ _ Hl) as Hn. clear -Ht Hn KeyFilter0.
    induction files as [|n files IH]; [constructor|]. simpl. constructor.
    - eapply file_ok_table, tb_ok, Hn, elem_of_cons; [exact Ht|by left].
    - apply IH. intros m ?. apply Hn, elem_of_cons. by right. }
  destruct (open_iterators_spec d _ _ Htab) as (its & Hits & Hwf & Hsort & Hfits & Hnew).
  destruct (compact_merge_ok d files level now its Hits Hwf) as (T' & HT' & Hc).
  rewrite Hm in Hc. injection Hc as ->. fold name in HT |- *. rewrite lookup_insert_eq in HT. injection HT as ->.
  destruct (merged_spec its (maxLevelFiles <=? level + 1) Hsort) as [Hms Hmf].
  split; [done|]. eexists. split.
  - destruct Hl as [? ? _ _ _]. eapply (tables_insert d c F name T _ (level + 1) now 10000);
      [done|done|lia|done|done|lia|done|done|by apply merged_fits|done].
  - intros k. by rewrite Hmf, Hnew, kept_presented.
Qed.

Lemma merge_compactor d c F level files now d' T :
  let name := sst_name (level + 1) now in
  tables d c F → compactor_ok kmax F (sst_files d) (C_listed level files) → c < now → nano_time now →
  compact_merge Sum64 d files level now (Ok []) = (d', Ok tt) → d' !! name = Some T →
  file_clean kmax T = true →
  ∃ F', tables d' now F' ∧ compactor_ok kmax F' (sst_files d') (C_merged level files name) ∧
    ∀ k, len k < kmax → read F' (sst_files d') k = read F (sst_files d) k.
Proof.
  intros name Ht [Ho Hl] Hlt Hnow Hm HT Hcl.
  destruct (merge_tables d c F level files now d' T Ht Hl Hlt Hnow Hm HT Hcl) as (-> & es & Ht' & Hes).
  pose proof (ls_level _ _ _ _ _ Hl). pose proof (ls_next _ _ _ _ _ Hl).
  assert (name ∉ sst_files d) as Hnew by (apply (new_name d c F); [done|lia|done|done]).
  pose proof (sst_files_others d name T Hnew (sst_name_suffix _ _)) as Hoth. fold name in Ht' |- *.
  assert (∀ n, n ∈ sst_files d → (<[name := es]> F) n = F n) as Hext
    by (intros n Hn; rewrite fn_lookup_insert_ne by congruence; done).
  assert (listed kmax (<[name := es]> F) (sst_files d) level files) as Hl' by (by eapply listed_ext).
  assert (∀ n, n ∈ files → n ∈ sst_files d) as Hin by (intros n ?; by apply (ls_names _ _ _ _ _ Hl)).
  assert (merged_to (<[name := es]> F) (sst_files (<[name := T]> d)) level files name) as Hmt.
  { split; [|apply sst_name_level_prefix|by intros ?%Hin|].
    - apply elem_of_sst_files_insert; [apply sst_name_suffix|by left].
    - intros k. rewrite fn_lookup_insert, Hes. do 2 f_equal. symmetry. apply newest_ext. auto. }
  exists (<[name := es]> F). split; [done|]. split.
  - simpl. rewrite Hoth. split; [by eapply one_level_ext|done].
  - intros k Hk. rewrite (merged_read kmax _ _ level files name) by (rewrite ?Hoth; done || apply sst_files_strict).
    rewrite Hoth. unfold read. f_equal. apply newest_ext. done.
Qed.

(** The removal of the inputs. *)
Lemma elem_of_cleared d files n :
  n ∈ sst_files (foldl (λ d f, delete f d) d files) ↔ n ∈ sst_files d ∧ n ∉ files.
Proof.
  rewrite !elem_of_sst_files, foldl_delete. destruct (decide (n ∈ files)); [|tauto].
  split; [by intros [[] _]|tauto].
Qed.

Lemma clear_compactor d c F level files name d' r :
  tables d c F → compactor_ok kmax F (sst_files d) (C_merged level files name) →
  compact_clear d files = (d', r) →
  tables d' c F ∧ compactor_ok kmax F (sst_files d') C_idle ∧
  ∀ k, len k < kmax → read F (sst_files d') k = read F (sst_files d) k.
Proof.
  intros [Hok Hnm] (Ho & Hl & Hm) [= <- _]. pose proof (elem_of_cleared d files) as Hin. split; [|split].
  - split; intros n [Hn Hno]%Hin; [|by apply Hnm]. destruct (Hok n Hn) as (T & kc & HT & ?).
    exists T, kc. by rewrite foldl_delete, decide_False.
  - eapply cleared_one_level; [done..|]. intros n. by rewrite Hin.
  - intros k Hk. eapply cleared_read; [done|done|apply sst_files_strict..|done|done].
Qed.

(** A flushed table. *)
Lemma unshared_find d c F files mem m n k :
  tables d c F → mem_rel mem m → unshared Sum64 d files mem = true → n ∈ sst_files d → len k < kmax →
  HasPrefix n (level_prefix 0) = false ∨ n ∈ files → is_Some (find_entry (mem_entries m) k) →
  find_entry (F n) k = None.
Proof.
  intros [Hok _] Hm Hun Hn Hk Hor Hsome. unfold unshared in Hun. rewrite forallb_forall in Hun.
  specialize (Hun n ltac:(by apply list_elem_of_In)). apply orb_true_iff in Hun as [[Hp Hno]%andb_true_iff|Hun].
  { apply bool_decide_eq_true in Hno. destruct Hor as [Hor|Hor]; [congruence|done]. }
  rewrite (sorted_keys_rel mem m Hm), forallb_forall in Hun.
  assert (k ∈ cell_keys m) as Hin.
  { rewrite mem_entries_find in Hsome. apply elem_of_cell_keys. by destruct (m !! k), Hsome. }
  specialize (Hun k ltac:(by apply list_elem_of_In)). unfold absent, Open in Hun.
  destruct (file_ok_rel d n (F n) (Hok n Hn)) as (T & r & HT & Hr & Hg).
  rewrite HT in Hun. cbn [mbind outcome_bind] in Hun. rewrite Hr, Hg, cells_of_lookup in Hun by done.
  destruct (find_entry (F n) k) as [[[k' v] []]|]; done.
Qed.

Lemma name_level d c F n lv lv' :
  tables d c F → n ∈ sst_files d → 0 <= lv < max_dec → 0 <= lv' < max_dec →
  HasPrefix n (level_prefix lv) = true → HasPrefix n (level_prefix lv') = true → lv' = lv.
Proof.
  intros Ht Hn Hlv Hlv' Hp Hp'. destruct (file_level _ _ _ _ _ Ht Hn Hlv Hp) as (t & -> & _).
  symmetry. by eapply sst_name_prefix.
Qed.

Section flush.
Context (d : dir) (c now : Z) (F : bytes → list sst_entry) (mem : MemTable) (m : cells) (files : list bytes)
  (Ht : tables d c F) (Hm : mem_rel mem m) (Hun : unshared Sum64 d files mem = true)
  (Hlt : c < now) (Hnow : nano_time now).
Let name := sst_name 0 now.
Let F' : bytes → list sst_entry := <[name := mem_entries m]> F.

Lemma flush_new : name ∉ sst_files d.
Proof. apply (new_name d c F); done. Qed.

Lemma flush_levels names names' :
  (∀ n, n ∈ names → n ∈ sst_files d) → (∀ n, n ∈ names' ↔ n = name ∨ n ∈ names) →
  one_level kmax F names → one_level kmax F' names'.
Proof.
  intros Hsub Hn' Ho. eapply flush_one_level; [exact Ho|by intros ?%Hsub%flush_new| | | |exact Hn'|].
  - apply sst_name_level_prefix.
  - intros n lv ?%Hsub Hlv Hp Hp'. by eapply (name_level d c F n).
  - intros lv Hlv Hp. symmetry. by eapply sst_name_prefix.
  - intros n k Hn Hk Hp Hs. eapply unshared_find; try done; [by apply Hsub|by left].
Qed.

Lemma flush_inputs names names' level :
  (∀ n, n ∈ names → n ∈ sst_files d) → (∀ n, n ∈ names' ↔ n = name ∨ n ∈ names) →
  listed kmax F names level files → listed kmax F' names' level files.
Proof.
  intros Hsub Hn' Hl. eapply flush_listed; [exact Hl|by intros ?%Hsub%flush_new|exact Hn'|].
  intros n k Hn Hk Hs. eapply unshared_find; try done; [|by right].
  by eapply Hsub, (ls_names _ _ _ _ _ Hl).
Qed.

(** A flushed table is read first for its keys. *)
Lemma flush_read names' k :
  StronglySorted (flip str_lt) names' → (∀ n, n ∈ names' ↔ n = name ∨ n ∈ sst_files d) → len k < kmax →
  read F' names' k = match m !! k with Some c => c | None => read F (sst_files d) k end.
Proof.
  intros Hs Hn' Hk. pose proof (mem_entries_find m k) as Hf. unfold read, F'.
  destruct (m !! k) as [cell|]; simpl in Hf.
  - assert (newest (map (<[name := mem_entries m]> F) names') k = Some (cell_entry k cell)) as ->;
      [|by destruct cell].
    apply newest_Some; [done|]. exists name. split; [apply Hn'; by left|]. rewrite fn_lookup_insert.
    split; [done|]. intros n [->|Hn]%Hn' Hgt; [by apply (irreflexivity str_lt) in Hgt|].
    pose proof flush_new as Hnew. rewrite fn_lookup_insert_ne by congruence.
    apply (unshared_find d c F files mem m n k Ht Hm Hun Hn Hk); [left|by rewrite Hf].
    destruct (HasPrefix n (level_prefix 0)) eqn:Hp; [|done].
    destruct (file_level d c F n 0 Ht Hn ltac:(done) Hp) as (t & -> & ? & ?).
    exfalso. apply (irreflexivity str_lt name). etrans; [exact Hgt|]. apply sst_name_lt; [done|done|lia].
  - f_equal. apply newest_same; [done|apply sst_files_strict|]. intros n e. rewrite Hn'.
    pose proof flush_new as Hnew. destruct (decide (n = name)) as [->|Hne].
    + rewrite fn_lookup_insert, Hf. naive_solver.
    + rewrite fn_lookup_insert_ne by congruence. naive_solver.
Qed.
End flush.

Lemma flush_compactor d c now F mem m comp keyCount T :
  tables d c F → mem_rel mem m → unshared Sum64 d (inputs comp) mem = true → c < now → nano_time now →
  compactor_ok kmax F (sst_files d) comp →
  keyCount < 2 ^ 60 → build_table Sum64 keyCount (mem_entries m) = Ok T → file_clean kmax T = true →
  let name := sst_name 0 now in
  let F' := <[name := mem_entries m]> F in
  tables (<[name := T]> d) now F' ∧ compactor_ok kmax F' (sst_files (<[name := T]> d)) comp ∧
  ∀ k, len k < kmax →
    read F' (sst_files (<[name := T]> d)) k = match m !! k with Some c => c | None => read F (sst_files d) k end.
Proof.
  intros Ht Hm Hun Hlt Hnow Hc Hkc HT Hcl name F'.
  pose proof (elem_of_sst_files_insert d name T) as Hin.
  assert (∀ n, n ∈ sst_files (<[name := T]> d) ↔ n = name ∨ n ∈ sst_files d) as Hn'
    by (intros n; apply Hin, sst_name_suffix). clear Hin.
  pose proof (flush_new d c now F Ht Hlt Hnow) as Hnew.
  split; [eapply (tables_insert d c F name T _ 0 now keyCount);
    [done..|apply mem_entries_sorted|by eapply mem_entries_fits|done]|].
  split; [|intros k Hk; by eapply flush_read; try apply sst_files_strict].
  destruct comp as [|level files|level files out].
  - by eapply flush_levels.
  - destruct Hc as [Ho Hl]. split; [by eapply flush_levels|by eapply flush_inputs].
  - destruct Hc as (Ho & Hl & [Hi Hp Hno Hf]). assert (out ≠ name) as Hne by (intros ->; by apply Hnew).
    assert (∀ n, n ∈ others out (sst_files (<[name := T]> d)) ↔ n = name ∨ n ∈ others out (sst_files d)) as Hn2.
    { intros n. rewrite !elem_of_others, Hn'. naive_solver. }
    assert (∀ n, n ∈ others out (sst_files d) → n ∈ sst_files d) as Hsub
      by (intros n; rewrite elem_of_others; tauto).
    split; [by eapply flush_levels|]. split; [by eapply flush_inputs|].
    split; [apply Hn'; by right|done|done|]. intros k. unfold F'. rewrite fn_lookup_insert_ne by congruence.
    rewrite Hf. do 2 f_equal. symmetry. apply newest_ext. intros n Hn. rewrite fn_lookup_insert_ne; [done|].
    intros Heq. apply Hnew, Hsub. change (name ∈ others out (sst_files d)). rewrite Heq. by apply (ls_names _ _ _ _ _ Hl).
Qed.
End directory.

(** ** The invariant of the system *)

Section refinement.
Context (Sum64 : bytes → Z) `{!KeyFilter Sum64} (kmax : Z).

Definition tabs_of (F : bytes → list sst_entry) (d : dir) : list cells :=
  map (λ n, cells_of (F n)) (sst_files d).

Definition csys_inv (x : CSystem) (M : gmap bytes bytes) : Prop :=
  let d := SstDir (sys_store (cs_sys x)) in
  ∃ ma mf F, sys_inv Sum64 kmax (cs_sys x) M ma mf (tabs_of F d) ∧
    tables Sum64 kmax d (sys_clock (cs_sys x)) F ∧
    compactor_ok kmax F (sst_files d) (cs_compactor x).

Lemma first_cell_layers ma mf tabs k :
  mjoin (first_cell (layers ma mf tabs) k) =
    match ma !! k with
    | Some c => c
    | None => match mf ≫= (.!! k) with Some c => c | None => mjoin (first_cell tabs k) end
    end.
Proof.
  unfold layers. simpl. destruct (ma !! k) as [[]|]; [done..|]. destruct mf as [m|]; [|done]. simpl.
  by destruct (m !! k) as [[]|].
Qed.

(** Exchanging the files for others that answer alike. *)
Lemma sys_inv_dir s w c M ma mf tabs d rs c' F :
  sys_inv Sum64 kmax (mkSys s w c) M ma mf tabs → tables Sum64 kmax d c' F →
  (∀ k, len k < kmax → read F (sst_files d) k = mjoin (first_cell tabs k)) →
  sys_inv Sum64 kmax (mkSys (set_dir s d rs) w c') M ma mf (tabs_of F d).
Proof.
  intros [[Ha Hs Hf _] Hmap Hwr Hwk] Ht Hr. cbn [sys_store sys_worker sys_clock] in *.
  split; cbn [sys_store sys_worker sys_clock].
  - split; simpl; [done..|]. by eapply tables_rel.
  - intros k Hk. rewrite first_cell_layers. unfold tabs_of. rewrite read_first_cell, Hr by done.
    rewrite <-first_cell_layers. by apply Hmap.
  - intros Hw. destruct (Hwr Hw) as (m & -> & Hm). exists m. split; [done|]. intros k cell Hk Hc.
    unfold tabs_of. rewrite read_first_cell, Hr by done. by apply Hm.
  - done.
Qed.

(** The worker's write of a table. *)
Lemma flush_inv s c comp M mem now s' T :
  csys_inv (mkCSys (mkSys s W_check c) comp) M → frozenMap s = Some mem → c < now → nano_time now →
  flush_write Sum64 s now (Ok []) = (s', Ok tt) → SstDir s' !! sst_name 0 now = Some T →
  file_clean kmax T = true → unshared Sum64 (SstDir s) (inputs comp) mem = true →
  csys_inv (mkCSys (mkSys s' W_written now) comp) M.
Proof.
  intros (ma & mf & F & [Hrel Hmap _ _] & Ht & Hcomp) Hfz Hlt Hnow Hw HT Hcl Hun.
  cbn [cs_sys cs_compactor sys_store sys_worker sys_clock] in *. destruct Hrel as [Ha Hs Hf _]. rewrite Hfz in Hf.
  destruct mf as [m|]; [|done].
  destruct (flush_write_ok Sum64 s mem m now s' T Hfz Hf Hw HT) as (E1 & E2 & E3 & E4 & Hkc & Hb).
  destruct (flush_compactor Sum64 kmax (SstDir s) c now F mem m comp _ T Ht Hf Hun Hlt Hnow Hcomp Hkc Hb Hcl)
    as (Ht' & Hcomp' & Hread). rewrite <-E4 in Ht', Hcomp', Hread.
  exists ma, (Some m), (<[sst_name 0 now := mem_entries m]> F).
  split; [|done]. split; cbn [cs_sys sys_store sys_worker sys_clock].
  - split; rewrite ?E1, ?E2, ?Hfz; [done..|]. by eapply tables_rel.
  - intros k Hk. rewrite <-Hmap, !first_cell_layers by done. unfold tabs_of.
    rewrite !read_first_cell, Hread by done. simpl. by destruct (ma !! k), (m !! k).
  - intros _. exists m. split; [done|]. intros k cell Hk Hc. unfold tabs_of.
    by rewrite read_first_cell, Hread, Hc by done.
  - intros _. by right.
Qed.

Lemma cstep_inv x l y M :
  kmax <= 2 ^ 16 → cstep Sum64 kmax x l y → csys_inv x M →
  csys_inv y (match l with Some cmd => spec_apply M cmd | None => M end).
Proof.
  intros Hkm Hstep Hinv.
  destruct Hstep as [x l y c Hs Hg|x level files H1 H2 Hl|s w c level files now d T Hlt Hnow Hm HT Hcl
    |s w c level files name d rs Hcl].
  - pose proof Hinv as (ma & mf & F & Hsys & Ht & Hc). cbn [cs_sys cs_compactor] in *.
    destruct (step_inv_quiet Sum64 kmax x l y M ma mf _ Hkm Hs Hsys)
      as [(Hd & Hck & ma' & mf' & Hsys')|(s & mem & now & T & Hx & -> & Hfz & Hlt & Hnow & Hw & Hy & HT & Hcl)].
    + exists ma', mf', F. cbn [cs_sys cs_compactor]. by rewrite Hd, Hck.
    + rewrite Hy, Hx in Hg. rewrite Hx in Hinv. rewrite Hy.
      eapply flush_inv; [exact Hinv|done..|]. by eapply Hg.
  - destruct Hinv as (ma & mf & F & Hsys & Ht & Hc). exists ma, mf, F. split; [done|]. split; [done|].
    cbn [cs_sys cs_compactor compactor_ok] in *. split; [done|]. by eapply list_listed.
  - destruct Hinv as (ma & mf & F & Hsys & Ht & Hc). cbn [cs_sys cs_compactor sys_store sys_clock] in *.
    destruct (merge_compactor Sum64 kmax _ c F level files now d T Ht Hc Hlt Hnow Hm HT Hcl) as (F' & Ht' & Hc' & Hr).
    exists ma, mf, F'. split; [|done]. eapply sys_inv_dir; [done|done|].
    intros k Hk. unfold tabs_of. by rewrite Hr, read_first_cell.
  - destruct Hinv as (ma & mf & F & Hsys & Ht & Hc). cbn [cs_sys cs_compactor sys_store sys_clock] in *.
    destruct (clear_compactor Sum64 kmax _ c F level files name d _ Ht Hc Hcl) as (Ht' & Hc' & Hr).
    exists ma, mf, F. split; [|done]. eapply sys_inv_dir; [done|done|].
    intros k Hk. unfold tabs_of. by rewrite Hr, read_first_cell.
Qed.

Lemma csteps_inv x cmds y M :
  kmax <= 2 ^ 16 → csteps Sum64 kmax x cmds y → csys_inv x M → csys_inv y (foldl spec_apply M cmds).
Proof.
  intros Hkm Hsteps Hinv. induction Hsteps as [|x cmds y l z _ IH Hstep]; [done|].
  rewrite foldl_app. specialize (cstep_inv _ _ _ _ Hkm Hstep (IH Hinv)). by destruct l.
Qed.

Lemma csys_inv_Get x M k :
  csys_inv x M → len k < kmax → store_Get Sum64 (sys_store (cs_sys x)) k = Ok (M !! k).
Proof.
  intros (ma & mf & F & [Hrel Hmap _ _] & _) Hk.
  rewrite (store_Get_rel Sum64 kmax _ _ _ _ k Hrel Hk). by rewrite Hmap.
Qed.

(** ** Opening *)

Lemma read_map F names : ∃ M : gmap bytes bytes, ∀ k, M !! k = read F names k.
Proof.
  exists (omap id (foldr (λ n m, cells_of (F n) ∪ m) ∅ names)). intros k. rewrite lookup_omap.
  rewrite <-read_first_cell. induction names as [|n names IH]; [done|]. simpl. rewrite lookup_union.
  destruct (cells_of (F n) !! k) as [[]|], (foldr _ _ names !! k) as [[]|]; done.
Qed.

Lemma opened_inv d F rs c0 :
  tables Sum64 kmax d c0 F → one_level kmax F (sst_files d) → ∃ M, csys_inv (opened d rs c0) M.
Proof.
  intros Ht Ho. destruct (read_map F (sst_files d)) as [M HM]. exists M, ∅, None, F. split; [|done].
  split; [|intros k Hk|done..].
  - split; simpl; [apply NewMemTable_rel|done|done|by eapply tables_rel].
  - rewrite first_cell_layers, lookup_empty. unfold tabs_of. simpl. by rewrite read_first_cell, HM.
Qed.
End refinement.

(** The map specification works key by key. *)
Lemma spec_run_key (cmds : list raftCmd) (M M' : gmap bytes bytes) k :
  M !! k = M' !! k → foldl spec_apply M cmds !! k = foldl spec_apply M' cmds !! k.
Proof.
  revert M M'. induction cmds as [|cmd cmds IH]; intros M M' H; [done|]. apply IH. unfold spec_apply.
  destruct (c_Op cmd), (decide (c_Key cmd = k)) as [<-|];
    rewrite ?lookup_insert_eq, ?lookup_delete_eq, ?lookup_insert_ne, ?lookup_delete_ne by done; done.
Qed.

(** ** An example *)

(** Four tables of level 0 are merged; then ["user1"], which the newest of
    them deletes, is put again. *)
Definition demo_tables (n : bytes) : list sst_entry :=
  default [] ((list_to_map (zip (demo_names 0) demo_level) : gmap bytes (list sst_entry)) !! n).

Definition check_file (kmax : Z) (d : dir) (n : bytes) (es : list sst_entry) : bool :=
  match d !! n, build_table demo_hash (len es) es with
  | Some T, Ok T' => bool_decide (T = T') && file_clean kmax T && check_table d n es
  | _, _ => false
  end.

Lemma check_file_sound kmax d n es :
  len es < 2 ^ 60 → check_file kmax d n es = true → file_ok demo_hash kmax d n es.
Proof.
  intros Hl Hc. unfold check_file in Hc. destruct (d !! n) as [T|] eqn:E; [|done].
  destruct (build_table demo_hash (len es) es) as [T'|e|] eqn:Eb; [|done..].
  apply andb_true_iff in Hc as [[->%bool_decide_eq_true Hf]%andb_true_iff Hc].
  destruct (check_table_sound d n es Hc) as (T2 & HT2 & _ & Hfit & Hs).
  exists T', (len es). split_and!; done.
Qed.

Lemma demo_tables_ok : tables demo_hash 100 (demo_dir 0) 1700000000000000004 demo_tables.
Proof.
  assert (sst_files (demo_dir 0) = demo_names 0) as Hf by (vm_compute; reflexivity).
  assert (forallb (λ n, check_file 100 (demo_dir 0) n (demo_tables n)) (demo_names 0) = true) as Hc
    by (vm_compute; reflexivity).
  assert (forallb (λ n, len (demo_tables n) <? 2 ^ 60) (demo_names 0) = true) as Hl
    by (vm_compute; reflexivity).
  rewrite forallb_forall in Hc, Hl. split; rewrite Hf; intros n Hn.
  - apply check_file_sound; [apply Z.ltb_lt, Hl|apply Hc]; by apply list_elem_of_In.
  - clear Hc Hl Hf. apply list_elem_of_fmap in Hn as (t & -> & Ht). exists 0, t.
    split; [reflexivity|]. split; [done|]. unfold nano_time. set_unfold in Ht. lia.
Qed.

Lemma demo_one_level : one_level 100 demo_tables (sst_files (demo_dir 0)).
Proof.
  intros n n' lv k Hn Hn' Hlv Hp _ _ _.
  assert (sst_files (demo_dir 0) = demo_names 0) as Hf by (vm_compute; reflexivity). rewrite Hf in Hn, Hn'. clear Hf.
  apply list_elem_of_fmap in Hn as (t & -> & _). apply list_elem_of_fmap in Hn' as (t' & -> & _).
  apply sst_name_prefix in Hp as <-; [apply sst_name_level_prefix|done|done].
Qed.

Definition demo_merge : dir * outcome unit :=
  compact_merge demo_hash (demo_dir 0) (demo_names 0) 0 1700000000000000009 (Ok []).
Definition demo_clear : dir * outcome (list Reader) := compact_clear (fst demo_merge) (demo_names 0).

Definition demo_open : CSystem := opened (demo_dir 0) [] 1700000000000000004.
Definition demo_readers : list Reader := match snd demo_clear with Ok rs => rs | _ => [] end.
Definition demo_put : Store * outcome unit :=
  apply_cmd (set_dir (sys_store (cs_sys demo_open)) (fst demo_merge) []) put_user1_again None.
Definition demo_merged : CSystem :=
  mkCSys (mkSys (set_dir (sys_store (cs_sys demo_open)) (fst demo_merge) []) W_wait 1700000000000000009)
    (C_merged 0 (demo_names 0) (sst_name 1 1700000000000000009)).
Definition demo_done : CSystem :=
  mkCSys (mkSys (set_dir (fst demo_put) (fst demo_clear) demo_readers) W_wait 1700000000000000009) C_idle.

Lemma demo_clear_ok : compact_clear (fst demo_merge) (demo_names 0) = (fst demo_clear, Ok demo_readers).
Proof.
  assert (match snd demo_clear with Ok _ => true | _ => false end = true) as H by (vm_compute; reflexivity).
  unfold demo_readers. change (compact_clear _ _) with demo_clear. rewrite (surjective_pairing demo_clear) at 1.
  by destruct (snd demo_clear).
Qed.

Lemma demo_merge_run : csteps demo_hash 100 demo_open [] demo_merged.
Proof.
  assert (snd demo_merge = Ok tt) as Hm by (vm_compute; reflexivity).
  assert (∃ T, fst demo_merge !! sst_name 1 1700000000000000009 = Some T ∧ file_clean 100 T = true)
    as (T & HT & Hcl).
  { exists (default [] (fst demo_merge !! sst_name 1 1700000000000000009)). split; vm_compute; reflexivity. }
  assert (compact_list (demo_dir 0) 0 = Some (demo_names 0)) as Hl by (vm_compute; reflexivity).
  change (@nil raftCmd) with (([] ++ []) ++ [] : list raftCmd).
  eapply (csteps_trans _ _ _ _ _ None); [eapply (csteps_trans _ _ _ _ _ None); [apply csteps_refl|]|].
  - apply (cstep_list demo_hash 100 _ 0 (demo_names 0)); [lia|unfold max_dec; lia|exact Hl].
  - apply (cstep_merge demo_hash 100 (sys_store (cs_sys demo_open)) W_wait 1700000000000000004 0 (demo_names 0)
             1700000000000000009 (fst demo_merge) T); [lia|unfold nano_time; lia| |exact HT|exact Hcl].
    change (compact_merge _ _ _ _ _ _) with demo_merge. rewrite <-Hm. apply surjective_pairing.
Qed.

(** A put while the merged table waits for the removal of its inputs. *)
Lemma demo_run : csteps demo_hash 100 demo_open [put_user1_again] demo_done.
Proof.
  assert (snd demo_put = Ok tt) as Ha by (vm_compute; reflexivity).
  change [put_user1_again] with (([] ++ [put_user1_again]) ++ []).
  eapply (csteps_trans _ _ _ _ _ None); [eapply (csteps_trans _ _ _ _ _ (Some _)); [apply demo_merge_run|]|].
  - apply cstep_store; [|intros mem H; discriminate H]. apply (step_apply demo_hash 100); [reflexivity|].
    change (apply_cmd _ _ _) with demo_put. rewrite <-Ha. apply surjective_pairing.
  - apply cstep_clear. apply demo_clear_ok.
Qed.
