(* ===== verification/KvGet.v ===== *)
(** * kv/store.go: [Get] beside flushes and compactions

    [Get] holds the lock while it looks in the two tables and gives it up
    before it lists the directory and opens one file after the other, so every
    part of it can be separated by steps of the rest of the store.  Here the
    parts are steps of their own.  As long as no input of a compaction is
    removed after the lock is given up, the answer is the one of a moment
    during the call; if that happens, a stored key can be reported missing. *)

From stdpp Require Import base list gmap.
From Stdlib Require Import ZArith Lia.
From S2P Require Import Prelude GoFile Arena Bloom SSTable SSTReader SSTIterator SSTClean GoDir Compact MemTable KvStore KvCompact.

(** Where a call is: before the lock, between the lock and [ReadDir], before
    opening the next file, done. *)
Inductive get_phase := G_start | G_list | G_files (files : list bytes) | G_done (r : option bytes).

Definition get_value (isTomb : bool) (val : bytes) : option bytes := if isTomb then None else Some val.

(** A compaction removes its inputs. *)
Definition clears (x y : CSystem) : bool :=
  match cs_compactor x, cs_compactor y with C_merged _ _ _, C_idle => true | _, _ => false end.

Section get.
Context (Sum64 : bytes → Z).

(** The next part of the call, on the store as it is then.  An open file
    stays readable when it is removed. *)
Definition get_step (s : Store) (key : bytes) (p : get_phase) : outcome get_phase :=
  match p with
  | G_start =>
      x ← checkTable (Some (ActiveMap s)) key;
      let '(val, isTomb, found) := x in
      if found : bool then Ok (G_done (get_value isTomb val))
      else
        x ← checkTable (frozenMap s) key;
        let '(val, isTomb, found) := x in
        if found : bool then Ok (G_done (get_value isTomb val)) else Ok G_list
  | G_list => Ok (G_files (sst_files (SstDir s)))
  | G_files [] => Ok (G_done None)
  | G_files (file :: files) =>
      match Open (SstDir s) file ≫= OpenSSTable with
      | Panic => Panic
      | Err _ => Ok (G_files files)
      | Ok reader =>
          match reader_Get Sum64 reader key with
          | Panic => Panic
          | Err _ => Ok (G_files files)
          | Ok (val, isTomb, found) => Ok (if found then G_done (get_value isTomb val) else G_files files)
          end
      end
  | G_done r => Ok p
  end.

Fixpoint get_iter (n : nat) (s : Store) (key : bytes) (p : get_phase) : outcome get_phase :=
  match n with O => Ok p | S n' => p ← get_step s key p; get_iter n' s key p end.

(** A call of [Get] that starts in [x]: its parts, and the steps of the store
    in between with the commands they apply; no input of a compaction is
    removed while the call reads the directory. *)
Inductive getting (kmax : Z) (x : CSystem) (key : bytes) : get_phase → list raftCmd → CSystem → Prop :=
| getting_start : getting kmax x key G_start [] x
| getting_system p cmds y l z :
    getting kmax x key p cmds y → cstep Sum64 kmax y l z →
    (match p with G_list | G_files _ => clears y z = false | _ => True end) →
    getting kmax x key p (cmds ++ match l with Some c => [c] | None => [] end) z
| getting_step p cmds y p' :
    getting kmax x key p cmds y → get_step (sys_store (cs_sys y)) key p = Ok p' →
    getting kmax x key p' cmds y.

(** The answer of the files, and of the frozen table and the files. *)
Definition disk (s : Store) (key : bytes) : outcome (option bytes) :=
  get_files Sum64 (SstDir s) (sst_files (SstDir s)) key.
Definition below (s : Store) (key : bytes) : outcome (option bytes) :=
  x ← checkTable (frozenMap s) key;
  let '(val, isTomb, found) := x in
  if found : bool then Ok (get_value isTomb val) else disk s key.

(** * Lemmas *)

(** Without steps in between the parts are [store_Get]. *)
Lemma get_iter_done n s key r : get_iter n s key (G_done r) = Ok (G_done r).
Proof. induction n as [|n IH]; [done|]. exact IH. Qed.

Lemma get_iter_files files s key n :
  get_iter (S (length files) + n) s key (G_files files) = r ← get_files Sum64 (SstDir s) files key; Ok (G_done r).
Proof.
  induction files as [|file files IH]; [apply get_iter_done|].
  change (S (length (file :: files)) + n)%nat with (S (S (length files) + n)).
  cbn [get_iter get_step get_files]. destruct (Open (SstDir s) file ≫= OpenSSTable) as [reader|e|]; [|apply IH|done].
  destruct (reader_Get Sum64 reader key) as [[[val isTomb] []]|e|]; [|apply IH|apply IH|done].
  cbn [mbind outcome_bind]. rewrite get_iter_done. by destruct isTomb.
Qed.

Lemma store_Get_below s key :
  store_Get Sum64 s key =
    x ← checkTable (Some (ActiveMap s)) key;
    let '(val, isTomb, found) := x in
    if found : bool then Ok (get_value isTomb val) else below s key.
Proof.
  unfold store_Get, below, get_value. destruct (checkTable _ key) as [[[val []] []]|e|]; cbn [mbind outcome_bind]; try done;
    destruct (checkTable _ key) as [[[val' []] []]|e'|]; done.
Qed.

Lemma get_iter_atomic s key :
  get_iter (3 + length (sst_files (SstDir s))) s key G_start = r ← store_Get Sum64 s key; Ok (G_done r).
Proof.
  rewrite store_Get_below. unfold below, disk. set (n := length (sst_files (SstDir s))).
  change (get_iter (3 + n) s key G_start) with (p ← get_step s key G_start; get_iter (2 + n) s key p). unfold get_step.
  destruct (checkTable (Some _) key) as [[[val isTomb] []]|e|]; cbn [mbind outcome_bind]; [apply get_iter_done| |done..].
  destruct (checkTable (frozenMap s) key) as [[[val' isTomb'] []]|e|]; cbn [mbind outcome_bind]; [apply get_iter_done| |done..].
  pose proof (get_iter_files (sst_files (SstDir s)) s key 0) as H. by rewrite Nat.add_0_r in H.
Qed.

Lemma get_files_agree d d' files key :
  (∀ n, n ∈ files → d' !! n = d !! n) → get_files Sum64 d' files key = get_files Sum64 d files key.
Proof.
  intros H. induction files as [|file files IH]; [done|]. simpl. unfold Open. rewrite H by (by left).
  rewrite IH; [done|]. intros n Hn. apply H. by right.
Qed.
End get.

(** What a command does to the frozen table. *)
Lemma applyInternal_frozen s key val d s' r :
  applyInternal s key val d None = (s', r) →
  SstDir s' = SstDir s ∧ (frozenMap s' = frozenMap s ∨ frozenMap s = None ∧ frozenMap s' = Some (ActiveMap s)).
Proof.
  unfold applyInternal. destruct (_ >? _).
  - unfold RotateTable. destruct (frozenMap s) eqn:Ef; [intros [= <- <-]; by rewrite Ef; split; [|left]|].
    destruct (arena_Put _ _ _ _) as [a [off|e|]]; intros [= <- <-]; simpl; by split; [|right].
  - destruct (arena_Put _ _ _ _) as [a [off|e|]]; intros [= <- <-]; simpl; by split; [|left].
Qed.

Lemma apply_cmd_frozen s cmd s' r :
  apply_cmd s cmd None = (s', r) →
  SstDir s' = SstDir s ∧ (frozenMap s' = frozenMap s ∨ frozenMap s = None ∧ frozenMap s' = Some (ActiveMap s)).
Proof.
  unfold apply_cmd. destruct (c_Op cmd); [apply applyInternal_frozen..|]. intros [= <- <-]. by split; [|left].
Qed.

Section invariant.
Context (Sum64 : bytes → Z) `{!KeyFilter Sum64} (kmax : Z) (Hkm : kmax <= 2 ^ 16) (key : bytes) (Hkey : len key < kmax).
Notation disk' x := (disk Sum64 (sys_store (cs_sys x)) key).
Notation below' x := (below Sum64 (sys_store (cs_sys x)) key).
Notation full' x := (store_Get Sum64 (sys_store (cs_sys x)) key).

Lemma disk_read d c F : tables Sum64 kmax d c F → get_files Sum64 d (sst_files d) key = Ok (read F (sst_files d) key).
Proof.
  intros Ht. rewrite (get_files_rel Sum64 kmax d _ _ key (tables_rel Sum64 kmax d c F Ht) Hkey). by rewrite read_first_cell.
Qed.

(** What [disk] and [below] are made of changes only within these answers. *)
Definition answers_from (x y : CSystem) : Prop :=
  (disk' y = disk' x ∨ disk' y = below' x) ∧ (below' y = disk' x ∨ below' y = below' x ∨ below' y = full' x).

Lemma answers_same x y :
  SstDir (sys_store (cs_sys y)) = SstDir (sys_store (cs_sys x)) →
  frozenMap (sys_store (cs_sys y)) = frozenMap (sys_store (cs_sys x)) → answers_from x y.
Proof. intros E1 E2. unfold answers_from, below, disk. rewrite E1, E2. auto. Qed.

(** The directory exchanged for one that reads alike. *)
Lemma answers_dir x y :
  disk' y = disk' x → frozenMap (sys_store (cs_sys y)) = frozenMap (sys_store (cs_sys x)) → answers_from x y.
Proof.
  intros E1 E2. split; [by left|]. right. left. unfold below. rewrite E2.
  destruct (checkTable _ key) as [[[val isTomb] []]|e|]; cbn [mbind outcome_bind]; [done|exact E1|done..].
Qed.

Lemma answers_apply x y cmd r :
  apply_cmd (sys_store (cs_sys x)) cmd None = (sys_store (cs_sys y), r) → answers_from x y.
Proof.
  intros (E1 & [E2|[E2 E3]])%apply_cmd_frozen; [by apply answers_same|]. unfold answers_from.
  rewrite store_Get_below. unfold below, disk. rewrite E1, E2, E3. split; [by left|]. right. right.
  by destruct (checkTable (Some _) key) as [[[val isTomb] []]|e|].
Qed.

(** The frozen table is written: its file answers what it did. *)
Lemma answers_flush s c k mem now s' T M :
  csys_inv Sum64 kmax (mkCSys (mkSys s W_check c) k) M → frozenMap s = Some mem → c < now → nano_time now →
  flush_write Sum64 s now (Ok []) = (s', Ok tt) → SstDir s' !! sst_name 0 now = Some T → file_clean kmax T = true →
  unshared Sum64 (SstDir s) (inputs k) mem = true →
  answers_from (mkCSys (mkSys s W_check c) k) (mkCSys (mkSys s' W_written now) k).
Proof.
  intros (ma & mf & F & [Hrel _ _ _] & Ht & Hcomp) Hfz Hlt Hnow Hw HT Hcl Hun.
  cbn [cs_sys cs_compactor sys_store sys_clock] in *. destruct Hrel as [_ _ Hf _]. rewrite Hfz in Hf.
  destruct mf as [m|]; [|done].
  destruct (flush_write_ok Sum64 s mem m now s' T Hfz Hf Hw HT) as (_ & E2 & _ & E4 & Hkc & Hb).
  destruct (flush_compactor Sum64 kmax (SstDir s) c now F mem m k _ T Ht Hf Hun Hlt Hnow Hcomp Hkc Hb Hcl)
    as (Ht' & _ & Hread). rewrite <-E4 in Ht', Hread.
  pose proof (disk_read _ _ _ Ht) as D1. pose proof (disk_read _ _ _ Ht') as D2. rewrite Hread in D2 by done.
  unfold answers_from, below, disk. cbn [cs_sys sys_store]. rewrite E2, Hfz, (checkTable_rel _ _ _ Hf), D1, D2.
  cbn [mbind outcome_bind]. destruct (m !! key) as [[v|]|]; cbn [cell_answer]; auto.
Qed.

Lemma cstep_answers x l y M : cstep Sum64 kmax x l y → csys_inv Sum64 kmax x M → answers_from x y.
Proof.
  intros Hstep Hinv. destruct Hstep as [x l y k Hs Hg|x level files _ _ _|s w c level files now d T Hlt Hnow Hm HT Hcl
    |s w c level files name d rs Hcl].
  - destruct Hs as [s w c cmd s' _ Ha|s w c cmd s' e Ha|s c _|s c _|s c now mem s' T Hfz Hlt Hnow Hw HT Hcl|s c|s c s' Hr].
    + by apply (answers_apply _ _ cmd (Ok tt)).
    + by apply (answers_apply _ _ cmd (Err e)).
    + by apply answers_same.
    + by apply answers_same.
    + eapply answers_flush; try done. by apply Hg.
    + unfold answers_from, below, disk. simpl. auto.
    + apply flush_refresh_same in Hr as (_ & E2 & E3 & _). by apply answers_same.
  - by apply answers_same.
  - destruct Hinv as (ma & mf & F & _ & Ht & Hc). cbn [cs_sys cs_compactor sys_store sys_clock] in *.
    destruct (merge_compactor Sum64 kmax _ c F level files now d T Ht Hc Hlt Hnow Hm HT Hcl) as (F' & Ht' & _ & Hr).
    apply answers_dir; [|done]. unfold disk. simpl. by rewrite (disk_read _ _ _ Ht), (disk_read _ _ _ Ht'), Hr.
  - destruct Hinv as (ma & mf & F & _ & Ht & Hc). cbn [cs_sys cs_compactor sys_store sys_clock] in *.
    destruct (clear_compactor Sum64 kmax _ c F level files name d _ Ht Hc Hcl) as (Ht' & _ & Hr).
    apply answers_dir; [|done]. unfold disk. simpl. by rewrite (disk_read _ _ _ Ht), (disk_read _ _ _ Ht'), Hr.
Qed.

(** Files stay until a compaction removes them. *)
Lemma cstep_files x l y M n :
  cstep Sum64 kmax x l y → csys_inv Sum64 kmax x M → clears x y = false →
  n ∈ sst_files (SstDir (sys_store (cs_sys x))) →
  SstDir (sys_store (cs_sys y)) !! n = SstDir (sys_store (cs_sys x)) !! n.
Proof.
  intros Hstep Hinv Hcl Hn. pose proof Hinv as (ma & mf & F & Hsys & Ht & Hc).
  destruct Hstep as [x l y k Hs _|x level files _ _ _|s w c level files now d T Hlt Hnow Hm HT Hcl'
    |s w c level files name d rs _]; cbn [cs_sys cs_compactor sys_store sys_clock] in *; [|done| |done].
  - destruct (step_inv_quiet Sum64 kmax x l y M ma mf _ Hkm Hs Hsys)
      as [(-> & _)|(s & mem & now & T & Hx & -> & Hfz & Hlt & Hnow & Hw & Hy & HT & _)]; [done|].
    rewrite Hx in Hsys. destruct Hsys as [[_ _ Hf _] _ _ _]. cbn [sys_store] in Hf. rewrite Hfz in Hf.
    destruct mf as [m|]; [|done].
    destruct (flush_write_ok Sum64 s mem m now _ T Hfz Hf Hw HT) as (_ & _ & _ & -> & _).
    assert (SstDir s = SstDir (sys_store x)) as -> by (by rewrite Hx).
    rewrite lookup_insert_ne; [done|]. intros <-. revert Hn. by apply (flush_new Sum64 kmax _ (sys_clock x) now F).
  - destruct (merge_tables Sum64 kmax _ c F level files now d T Ht (proj2 Hc) Hlt Hnow Hm HT Hcl') as (-> & _).
    simpl. rewrite lookup_insert_ne; [done|]. intros <-. revert Hn.
    pose proof (ls_level _ _ _ _ _ (proj2 Hc)). pose proof (ls_next _ _ _ _ _ (proj2 Hc)).
    apply (new_name Sum64 kmax _ c F); [done|lia|done|done].
Qed.

(** [v] is what the map of the commands held at a moment of the call. *)
Definition seen (M : gmap bytes bytes) (cmds : list raftCmd) (v : option bytes) : Prop :=
  ∃ pre suf, cmds = pre ++ suf ∧ foldl spec_apply M pre !! key = v.

Lemma seen_now M cmds : seen M cmds (foldl spec_apply M cmds !! key).
Proof. exists cmds, []. by rewrite app_nil_r. Qed.

Lemma seen_more M cmds cmds' v : seen M cmds v → seen M (cmds ++ cmds') v.
Proof. intros (pre & suf & -> & Hv). exists pre, (suf ++ cmds'). by rewrite app_assoc. Qed.

(** What a call knows about the part of the store it has still to read. *)
Definition get_inv (M : gmap bytes bytes) (p : get_phase) (cmds : list raftCmd) (y : CSystem) : Prop :=
  match p with
  | G_start => True
  | G_list => ∀ v, disk' y = Ok v ∨ below' y = Ok v → seen M cmds v
  | G_files files =>
      (∀ n, n ∈ files → n ∈ sst_files (SstDir (sys_store (cs_sys y)))) ∧
      ∃ v, get_files Sum64 (SstDir (sys_store (cs_sys y))) files key = Ok v ∧ seen M cmds v
  | G_done r => seen M cmds r
  end.

Lemma get_inv_system M p cmds y l z M' :
  csys_inv Sum64 kmax y M' → M' = foldl spec_apply M cmds → cstep Sum64 kmax y l z →
  (match p with G_list | G_files _ => clears y z = false | _ => True end) →
  get_inv M p cmds y → get_inv M p (cmds ++ match l with Some c => [c] | None => [] end) z.
Proof.
  intros Hinv HM Hs Hcl Hp. destruct p as [| |files|r]; [done| | |by apply seen_more].
  - destruct (cstep_answers _ _ _ _ Hs Hinv) as [Hd Hb]. intros v [Hv|Hv]; apply seen_more.
    + apply Hp. destruct Hd as [<-|<-]; auto.
    + destruct Hb as [E|[E|E]]; rewrite E in Hv; [apply Hp; auto..|].
      rewrite (csys_inv_Get Sum64 kmax _ _ key Hinv Hkey) in Hv. injection Hv as <-. rewrite HM. apply seen_now.
  - destruct Hp as (Hin & v & Hv & Hseen).
    assert (∀ n, n ∈ files → SstDir (sys_store (cs_sys z)) !! n = SstDir (sys_store (cs_sys y)) !! n) as Hd
      by (intros n Hn; eapply cstep_files; [done|done|done|by apply Hin]).
    split.
    + intros n Hn. specialize (Hin n Hn). rewrite elem_of_sst_files in *. by rewrite (Hd n Hn).
    + exists v. split; [by rewrite (get_files_agree _ _ _ _ _ Hd)|by apply seen_more].
Qed.

(** A part of the call goes through and keeps what is known. *)
Lemma get_inv_step M p cmds y :
  csys_inv Sum64 kmax y (foldl spec_apply M cmds) → get_inv M p cmds y →
  ∃ p', get_step Sum64 (sys_store (cs_sys y)) key p = Ok p' ∧ get_inv M p' cmds y.
Proof.
  intros Hinv Hp. pose proof (csys_inv_Get Sum64 kmax _ _ key Hinv Hkey) as Hg.
  pose proof (seen_now M cmds) as Hnow. destruct p as [| |[|file files]|r].
  - pose proof Hg as Hg'. rewrite store_Get_below in Hg. unfold below in Hg. unfold get_step.
    destruct (checkTable (Some _) key) as [[[val isTomb] []]|e|]; cbn [mbind outcome_bind] in *; [| |done..].
    { eexists. split; [done|]. simpl. injection Hg as ->. done. }
    destruct (checkTable (frozenMap _) key) as [[[val' isTomb'] []]|e|] eqn:Ef; cbn [mbind outcome_bind] in *; [| |done..].
    { eexists. split; [done|]. simpl. injection Hg as ->. done. }
    eexists. split; [done|]. simpl. unfold below. rewrite Ef. cbn [mbind outcome_bind]. rewrite Hg.
    intros v [[= <-]|[= <-]]; done.
  - eexists. split; [done|]. simpl. split; [done|]. destruct Hinv as (ma & mf & F & _ & Ht & _).
    pose proof (disk_read _ _ _ Ht) as Hd. eexists. split; [exact Hd|]. apply Hp. by left.
  - eexists. split; [done|]. destruct Hp as (_ & v & [= <-] & Hv). exact Hv.
  - destruct Hp as (Hin & v & Hv & Hseen). cbn [get_files] in Hv. unfold get_step.
    assert (∀ n, n ∈ files → n ∈ sst_files (SstDir (sys_store (cs_sys y)))) as Hin' by (intros n Hn; apply Hin; by right).
    assert (get_files Sum64 (SstDir (sys_store (cs_sys y))) files key = Ok v → ∃ p', Ok (G_files files) = Ok p' ∧ get_inv M p' cmds y)
      as Hnext by (intros E; exists (G_files files); split; [reflexivity|]; split; [exact Hin'|]; exists v; split; [exact E|exact Hseen]).
    destruct (Open _ file ≫= OpenSSTable) as [reader|e|]; [|by apply Hnext|done].
    destruct (reader_Get Sum64 reader key) as [[[val isTomb] []]|e|]; [|by apply Hnext|by apply Hnext|done].
    eexists. split; [done|]. by destruct isTomb; injection Hv as <-.
  - by eexists.
Qed.

Lemma getting_inv M x p cmds y :
  csys_inv Sum64 kmax x M → getting Sum64 kmax x key p cmds y →
  csys_inv Sum64 kmax y (foldl spec_apply M cmds) ∧ get_inv M p cmds y.
Proof.
  intros Hx. induction 1 as [|p cmds y l z _ [IH1 IH2] Hs Hcl|p cmds y p' _ [IH1 IH2] Hs]; [done| |].
  - split; [|by eapply get_inv_system]. rewrite foldl_app. pose proof (cstep_inv Sum64 kmax _ _ _ _ Hkm Hs IH1) as H.
    by destruct l.
  - split; [done|]. destruct (get_inv_step M p cmds y IH1 IH2) as (p2 & E & ?). congruence.
Qed.
End invariant.

(** * Properties *)

(** C4. Refinement with compaction: a store opened on any directory of clean
    tables, in which no key is in two levels, runs through any interleaving of
    commands, rotations, flushes and compactions, each compaction listing,
    merging and removing in separate steps.  A [Get] of a key of fewer than
    [kmax] bytes, made of its own parts between which the others go on, never
    fails, and its answer is what the applied commands make of the first
    answer at a moment of the call; a [Get] without steps in between
    ([get_iter_atomic]) answers for the commands so far.  The conditions are
    that no table is flushed with a key that a level above 0 or the input of a
    running compaction holds, that written tables are clean and no disk fails,
    that a table file appears as a whole, and that no input of a compaction is
    removed while the [Get] reads the directory. *)
Theorem compaction_refines_map Sum64 kmax d rs c0 F cmds x key M p cmds' y :
  kmax <= 2 ^ 16 → tables Sum64 kmax d c0 F → one_level kmax F (sst_files d) →
  csteps Sum64 kmax (opened d rs c0) cmds x → len key < kmax →
  store_Get Sum64 (sys_store (cs_sys (opened d rs c0))) key = Ok (M !! key) →
  getting Sum64 kmax x key p cmds' y →
  (∃ p', get_step Sum64 (sys_store (cs_sys y)) key p = Ok p') ∧
  store_Get Sum64 (sys_store (cs_sys y)) key = Ok (foldl spec_apply M (cmds ++ cmds') !! key) ∧
  ∀ r, p = G_done r → ∃ pre suf, cmds' = pre ++ suf ∧ r = foldl spec_apply M (cmds ++ pre) !! key.
Proof.
  intros Hkm Ht Ho Hs Hk H0 Hget. destruct (opened_inv Sum64 kmax d F rs c0 Ht Ho) as [M' Hinv].
  assert (M' !! key = M !! key) as HM by (rewrite (csys_inv_Get Sum64 kmax _ _ key Hinv Hk) in H0; by injection H0).
  pose proof (csteps_inv Sum64 kmax _ _ _ _ Hkm Hs Hinv) as Hx.
  destruct (getting_inv Sum64 kmax Hkm key Hk _ _ _ _ _ Hx Hget) as [Hy Hp].
  assert (∀ l, foldl spec_apply M (cmds ++ l) !! key = foldl spec_apply (foldl spec_apply M' cmds) l !! key) as Hl
    by (intros l; rewrite <-foldl_app; by apply spec_run_key).
  split; [|split].
  - destruct (get_inv_step Sum64 kmax key Hk _ _ _ _ Hy Hp) as (p' & ? & _). by exists p'.
  - rewrite (csys_inv_Get Sum64 kmax _ _ key Hy Hk). by rewrite Hl.
  - intros r ->. destruct Hp as (pre & suf & -> & <-). exists pre, suf. by rewrite Hl.
Qed.

(** ["user2"] is put again after the call has given up the lock: the call
    still finds the value of the merged table. *)
Definition put_user2_new : raftCmd := mkRaftCmd OpPut key_user2 [Byte.x5a].
Definition demo_put2 : Store * outcome unit := apply_cmd (sys_store (cs_sys demo_done)) put_user2_new None.
Definition demo_last : CSystem := mkCSys (mkSys (fst demo_put2) W_wait 1700000000000000009) C_idle.

Lemma demo_getting :
  getting demo_hash 100 demo_done key_user2 (G_done (Some [Byte.x42])) [put_user2_new] demo_last.
Proof.
  assert (snd demo_put2 = Ok tt) as Ha by (vm_compute; reflexivity).
  eapply (getting_step _ _ _ _ (G_files [sst_name 1 1700000000000000009])); [|vm_compute; reflexivity].
  eapply (getting_step _ _ _ _ G_list); [|vm_compute; reflexivity].
  apply (getting_system demo_hash 100 demo_done key_user2 G_list [] demo_done (Some put_user2_new) demo_last);
    [|apply cstep_store; [|intros mem H; discriminate H]|reflexivity].
  - eapply (getting_step _ _ _ _ G_start); [apply getting_start|vm_compute; reflexivity].
  - apply (step_apply demo_hash 100); [reflexivity|]. change (apply_cmd _ _ _) with demo_put2.
    rewrite <-Ha. apply surjective_pairing.
Qed.

Lemma compaction_refines_map_witness :
  csteps demo_hash 100 demo_open [put_user1_again] demo_done ∧
  getting demo_hash 100 demo_done key_user2 (G_done (Some [Byte.x42])) [put_user2_new] demo_last ∧
  store_Get demo_hash (sys_store (cs_sys demo_last)) key_user2 = Ok (Some [Byte.x5a]) ∧
  ∃ pre suf, [put_user2_new] = pre ++ suf ∧
    Some [Byte.x42] = foldl spec_apply {[key_user2 := [Byte.x42]]} ([put_user1_again] ++ pre) !! key_user2.
Proof.
  destruct (compaction_refines_map demo_hash 100 (demo_dir 0) [] 1700000000000000004 demo_tables [put_user1_again]
    demo_done key_user2 {[key_user2 := [Byte.x42]]} (G_done (Some [Byte.x42])) [put_user2_new] demo_last)
    as (_ & Hg & Hr); [lia|apply demo_tables_ok|apply demo_one_level|apply demo_run|reflexivity
    |vm_compute; reflexivity|apply demo_getting|].
  split; [apply demo_run|]. split; [apply demo_getting|]. split; [|by apply Hr]. rewrite Hg. reflexivity.
Defined.

(** What the condition on the removal of compaction inputs is for: ["user2"]
    is stored all the time, the call lists the directory, a compaction merges
    the listed files and removes them, and the call finds nothing. *)
Definition demo_cleared : CSystem :=
  mkCSys (mkSys (set_dir (sys_store (cs_sys demo_merged)) (fst demo_clear) demo_readers) W_wait 1700000000000000009)
    C_idle.

Lemma get_misses_stored_key :
  csteps demo_hash 100 demo_open [] demo_cleared ∧
  store_Get demo_hash (sys_store (cs_sys demo_open)) key_user2 = Ok (Some [Byte.x42]) ∧
  store_Get demo_hash (sys_store (cs_sys demo_cleared)) key_user2 = Ok (Some [Byte.x42]) ∧
  ∃ files, get_iter demo_hash 2 (sys_store (cs_sys demo_open)) key_user2 G_start = Ok (G_files files) ∧
    get_iter demo_hash (S (length files)) (sys_store (cs_sys demo_cleared)) key_user2 (G_files files) = Ok (G_done None).
Proof.
  split.
  - change (@nil raftCmd) with ([] ++ [] : list raftCmd).
    eapply (csteps_trans _ _ _ _ _ None); [apply demo_merge_run|]. apply cstep_clear. apply demo_clear_ok.
  - split_and!; [vm_compute; reflexivity..|]. exists (demo_names 0). split; vm_compute; reflexivity.
Qed.
