(* ===== verification/KvRecovery.v ===== *)
(** * kv/store.go: restart, and what faults do to the store

    [NewKVStore] replays the newest WAL segment into a fresh MemTable.  The
    first theorem is the round trip through the log; the others state what
    the store does where the code departs from it: the size a recovered table
    is given, a failed flush, a stalled write on one replica, and reads after
    a compaction. *)

From stdpp Require Import base list gmap sorting.
From Stdlib Require Import ZArith Lia.
From S2P Require Import Prelude GoFile Arena Bloom Wal SSTable SSTReader SSTIterator SSTClean GoDir Compact MemTable KvStore KvCompact KvGet.

(** A logged operation as a command; the log knows puts and deletes. *)
Definition op_delete (op : write_op) : bool := let '(_, _, _, c) := op in bool_decide (c = CmdDelete).
Definition op_cmd (op : write_op) : raftCmd :=
  let '(_, k, v, _) := op in mkRaftCmd (if op_delete op then OpDelete else OpPut) k v.

(** What the operation takes in the arena, and what recovery counts for it. *)
Definition op_space (op : write_op) : Z := let '(_, k, v, _) := op in entry_size k v (op_delete op).
Definition op_counted (op : write_op) : Z := let '(_, k, v, _) := op in len k + len v.

Fixpoint sumZ (f : write_op → Z) (ops : list write_op) : Z :=
  match ops with [] => 0 | op :: ops' => f op + sumZ f ops' end.

(** A put or delete with lengths that fit. *)
Definition op_ok (op : write_op) : Prop :=
  let '(_, k, v, c) := op in (c = CmdPut ∨ c = CmdDelete) ∧ len k < 2 ^ 16 ∧ len v < 2 ^ 32.

Definition op_cells (m : cells) (op : write_op) : cells :=
  let '(_, k, v, _) := op in <[k := cmd_cell v (op_delete op)]> m.

Lemma sumZ_space_nonneg ops : 0 <= sumZ op_space ops.
Proof.
  induction ops as [|[[[now k] v] c] ops IH]; [done|]. cbn [sumZ op_space].
  unfold entry_size. len_pose. destruct (op_delete _); lia.
Qed.

Lemma recover_entry_rel mem m lsn op :
  mem_rel mem m → op_ok op → a_offset (mt_Arena mem) + op_space op <= mapLimit →
  ∃ mem', recover_entry mem (expected lsn op) = Ok mem' ∧ mem_rel mem' (op_cells m op) ∧
    a_offset (mt_Arena mem') = a_offset (mt_Arena mem) + op_space op ∧
    mt_Size mem' = u32 (mt_Size mem + op_counted op).
Proof.
  destruct op as [[[now k] v] c]. intros Hm (Hc & Hk & Hv) Hroom. unfold recover_entry, expected.
  cbn [e_Key e_Value e_Cmd].
  assert ((if bool_decide (c = CmdPut) then arena_Put (mt_Arena mem) k v false
    else if bool_decide (c = CmdDelete) then arena_Put (mt_Arena mem) k v true
    else (mt_Arena mem, Ok 0)) = arena_Put (mt_Arena mem) k v (op_delete (now, k, v, c))) as ->.
  { unfold op_delete. by destruct Hc as [->| ->]. }
  set (d := op_delete (now, k, v, c)).
  assert (∃ a, arena_Put (mt_Arena mem) k v d = (a, Ok (a_offset (mt_Arena mem))) ∧
    a_offset a = a_offset (mt_Arena mem) + entry_size k v d) as (a & HP & Ho).
  { rewrite arena_Put_eq, (mr_cap _ _ Hm), Z.gtb_ltb. unfold op_space in Hroom. fold d in Hroom.
    rewrite (proj2 (Z.ltb_ge _ _)) by lia. by eexists. }
  rewrite HP. cbn [mbind outcome_bind]. eexists. split; [done|].
  split; [by apply mem_rel_put|]. split; [done|]. simpl.
  unfold uwrap. by rewrite Z.add_mod_idemp_r.
Qed.

Lemma recover_entries_rel mem m lsn ops :
  mem_rel mem m → Forall op_ok ops → a_offset (mt_Arena mem) + sumZ op_space ops <= mapLimit →
  0 <= mt_Size mem < 2 ^ 32 →
  ∃ mem', recover_entries mem (log_entries lsn ops) = Ok mem' ∧ mem_rel mem' (foldl op_cells m ops) ∧
    a_offset (mt_Arena mem') = a_offset (mt_Arena mem) + sumZ op_space ops ∧
    mt_Size mem' = u32 (mt_Size mem + sumZ op_counted ops).
Proof.
  intros Hm Hok. revert mem m lsn Hm. induction Hok as [|op ops Hop _ IH]; intros mem m lsn Hm Hroom Hsz.
  - exists mem. simpl. rewrite uwrap_small, !Z.add_0_r by lia. done.
  - cbn [sumZ] in *. pose proof (sumZ_space_nonneg ops).
    destruct (recover_entry_rel mem m lsn op Hm Hop ltac:(lia)) as (m1 & H1 & H2 & H3 & H4).
    cbn [log_entries recover_entries foldl]. rewrite H1. cbn [mbind outcome_bind].
    destruct (IH m1 (op_cells m op) (lsn + len (record lsn op)) H2) as (m2 & -> & H5 & H6 & H7);
      [lia|rewrite H4; apply uwrap_range; lia|].
    exists m2. split; [done|]. split; [done|]. split; [lia|].
    rewrite H7, H4. unfold uwrap. rewrite Z.add_mod_idemp_l by lia. f_equal. lia.
Qed.

Lemma op_cells_spec m M ops :
  (∀ k, mjoin (m !! k) = M !! k) →
  ∀ k, mjoin (foldl op_cells m ops !! k) = foldl spec_apply M (map op_cmd ops) !! k.
Proof.
  revert m M. induction ops as [|[[[now k] v] c] ops IH]; intros m M Hm k'; [apply Hm|].
  cbn [foldl map]. apply IH. clear k'. intros k'. cbn [op_cells op_cmd].
  rewrite spec_apply_lookup by (cbn [c_Op]; by destruct (op_delete (now, k, v, c))). cbn [c_Key c_Value c_Op].
  destruct (decide (k = k')) as [<-|Hne].
  - rewrite lookup_insert_eq. by destruct (op_delete (now, k, v, c)).
  - by rewrite lookup_insert_ne.
Qed.

(** The table that is built from a log. *)
Lemma log_table ops seqId :
  Forall op_ok ops → sumZ op_space ops <= mapLimit → len (log_bytes 0 ops) < 2 ^ 63 →
  ∃ mem, recover_entries (NewMemTable mapLimit (Some seqId)) (log_entries 0 ops) = Ok mem ∧
    mem_rel mem (foldl op_cells ∅ ops).
Proof.
  intros Hok Hroom Hlen.
  destruct (recover_entries_rel (NewMemTable mapLimit (Some seqId)) ∅ 0 ops (NewMemTable_rel _) Hok)
    as (mem & Hrec & Hrel & _ & _); [done|done|by exists mem].
Qed.

(** A store opened on a log and a directory answers from the log, and from
    the tables for keys the log does not have. *)
Lemma NewKVStore_log Sum64 d wals ops seqId readers :
  Forall op_ok ops → sumZ op_space ops <= mapLimit → len (log_bytes 0 ops) < 2 ^ 63 →
  wals !! seqId = Some (f_data (w_file (wal_writes (OpenWAL [] []) ops))) → refreshSSTables d = Ok readers →
  ∃ s, NewKVStore d wals seqId = Ok s ∧ SstDir s = d ∧ WalDir s = wals ∧
    ∀ k, store_Get Sum64 s k = match foldl op_cells ∅ ops !! k with
                               | Some c => Ok c
                               | None => get_files Sum64 d (sst_files d) k
                               end.
Proof.
  intros Hok Hroom Hlen Hw Hd.
  assert (Forall op_fits ops) as Hfit.
  { eapply Forall_impl; [done|]. intros [[[now k'] v] c] (_ & ? & ?). split; lia. }
  destruct (log_table ops seqId Hok Hroom Hlen) as (mem & Hrec & Hrel).
  unfold NewKVStore, create_wal. cbv zeta. rewrite Hw, Hw. cbn [from_option id].
  rewrite wal_recover_writes by done. rewrite Hrec, Hd. cbn [mbind outcome_bind].
  eexists. split; [done|]. split; [done|]. split; [done|]. intros k.
  unfold store_Get. cbn [ActiveMap frozenMap SstDir]. rewrite (checkTable_rel _ _ _ Hrel).
  cbn [mbind outcome_bind]. by destruct (foldl op_cells ∅ ops !! k) as [[v|]|].
Qed.

(** * Properties *)

(** C22. Restart: whatever puts and deletes were written to a WAL segment, with
    keys below 64 KiB and values below 4 GiB, if they fit one table together
    (recovery does not rotate), a store started on that log and an empty table
    directory answers [Get] of every key like the map of those commands. *)
Theorem recovery_replays_log Sum64 ops seqId k :
  Forall op_ok ops → sumZ op_space ops <= mapLimit → len (log_bytes 0 ops) < 2 ^ 63 →
  let log := f_data (w_file (wal_writes (OpenWAL [] []) ops)) in
  ∃ s, NewKVStore ∅ {[seqId := log]} seqId = Ok s ∧
    store_Get Sum64 s k = Ok (spec_run (map op_cmd ops) !! k).
Proof.
  intros Hok Hroom Hlen log.
  destruct (NewKVStore_log Sum64 ∅ {[seqId := log]} ops seqId []) as (s & Hs & _ & _ & HG);
    [done..|by rewrite lookup_singleton_eq|done|].
  exists s. split; [done|]. rewrite HG.
  pose proof (op_cells_spec ∅ ∅ ops ltac:(done) k) as Hspec. fold (spec_run (map op_cmd ops)) in Hspec.
  rewrite <-Hspec. by destruct (foldl op_cells ∅ ops !! k) as [[v|]|].
Qed.

Lemma recovery_replays_log_witness :
  ∃ s, NewKVStore ∅ {[7 := f_data (w_file (wal_writes (OpenWAL [] []) demo_ops))]} 7 = Ok s ∧
    store_Get demo_hash s [Byte.x61] = Ok None.
Proof.
  apply (recovery_replays_log demo_hash demo_ops 7 [Byte.x61]).
  - apply Forall_cons_2; [split; [left; reflexivity|split; reflexivity]|].
    apply Forall_cons_2; [split; [right; reflexivity|split; reflexivity]|]. apply Forall_nil_2.
  - vm_compute. discriminate.
  - vm_compute. reflexivity.
Defined.

(** A recovered table is larger than its [Size] says: recovery counts
    [len(k) + len(v)] per entry and not the seven header bytes (nor that a
    delete stores no value).  For a log of puts, [Size] is short by seven
    bytes per entry, and a put that passes the size check but does not fit in
    the arena is refused without the table being rotated, so it is refused
    again every time. *)
Theorem recovered_size_short ops w k v s :
  Forall op_ok ops → Forall (λ op, op_delete op = false) ops → sumZ op_space ops <= mapLimit →
  ∃ mem, recover_entries (NewMemTable mapLimit w) (log_entries 0 ops) = Ok mem ∧
    mt_Size mem = a_offset (mt_Arena mem) - 7 * len ops ∧
    (ActiveMap s = mem → mt_Size mem + entry_size k v false <= mapLimit →
     mapLimit < a_offset (mt_Arena mem) + entry_size k v false →
     applyInternal s k v false None = (s, Err (ErrPutFailed k ErrArenaFull))).
Proof.
  intros Hok Hput Hroom.
  destruct (recover_entries_rel (NewMemTable mapLimit w) ∅ 0 ops (NewMemTable_rel _) Hok)
    as (mem & Hrec & Hrel & Ho & Hs); [done|done|].
  exists mem. split; [done|]. simpl in Ho, Hs.
  assert (sumZ op_counted ops = sumZ op_space ops - 7 * len ops ∧ 0 <= sumZ op_counted ops) as [Hsum H0].
  { clear -Hput. induction Hput as [|[[[now k] v] c] ops Hd _ IH]; [done|]. cbn [sumZ op_counted op_space].
    rewrite Hd, len_cons. unfold entry_size. len_pose. lia. }
  split.
  { rewrite Hs, Ho, uwrap_small; unfold mapLimit in Hroom; len_pose; lia. }
  intros Hact Hsz Hfull. unfold applyInternal. rewrite Hact.
  unfold entry_size in Hsz, Hfull. rewrite Z.gtb_ltb, (proj2 (Z.ltb_ge _ _)) by lia.
  rewrite arena_Put_eq, (mr_cap _ _ Hrel), Z.gtb_ltb.
  unfold entry_size. by rewrite (proj2 (Z.ltb_lt _ _)) by lia.
Qed.

Lemma recovered_size_short_witness :
  ∃ s, mt_Size (ActiveMap s) = mapLimit - 7 ∧
    applyInternal s [] [] false None = (s, Err (ErrPutFailed [] ErrArenaFull)).
Proof.
  destruct big_value as [big Hbig]. set (ops := [(0, key_user2, big, CmdPut) : write_op]).
  set (mem := match recover_entries (NewMemTable mapLimit None) (log_entries 0 ops) with
              | Ok mem => mem | _ => NewMemTable mapLimit None end).
  set (s := mkStore mem None [] ∅ ∅ 0 false). exists s.
  assert (sumZ op_space ops = mapLimit) as Hsp.
  { unfold ops. cbn [sumZ op_space]. unfold op_delete, entry_size. rewrite bool_decide_eq_false_2 by done.
    change (len key_user2) with 5. lia. }
  destruct (recovered_size_short ops None [] [] s) as (mem' & Hrec & Hsz & Happ).
  - apply Forall_cons_2; [|apply Forall_nil_2]. split; [left; reflexivity|]. split; [reflexivity|].
    rewrite Hbig. reflexivity.
  - apply Forall_cons_2; [reflexivity|apply Forall_nil_2].
  - lia.
  - assert (mem = mem') as Hmem by (unfold mem; by rewrite Hrec).
    assert (a_offset (mt_Arena mem') = mapLimit) as Ho.
    { destruct (recover_entries_rel (NewMemTable mapLimit None) ∅ 0 ops (NewMemTable_rel _))
        as (m2 & Hr2 & _ & Ho2 & _).
      - apply Forall_cons_2; [|apply Forall_nil_2]. split; [left; reflexivity|]. split; [reflexivity|].
        rewrite Hbig. reflexivity.
      - simpl a_offset. lia.
      - simpl. lia.
      - rewrite Hr2 in Hrec. injection Hrec as <-. rewrite Ho2, Hsp. reflexivity. }
    change (len ops) with 1 in Hsz. change (entry_size [] [] false) with 7 in Happ.
    split; [change (ActiveMap s) with mem; rewrite Hmem; lia|].
    apply Happ; [exact Hmem|lia|lia].
Defined.

(** A flush that cannot create its file drops the table: the round ends
    with no frozen table and an unchanged directory, so keys that were only
    in the frozen table are gone. *)
Theorem flush_error_drops_table Sum64 s now e mem rs :
  frozenMap s = Some mem → refreshSSTables (SstDir s) = Ok rs →
  ∃ s', flush_round Sum64 s now (Err e) = Ok s' ∧ frozenMap s' = None ∧ SstDir s' = SstDir s ∧
    ∀ k, checkTable (Some (ActiveMap s)) k = Ok ([], false, false) →
      get_files Sum64 (SstDir s) (sst_files (SstDir s)) k = Ok None →
      store_Get Sum64 s' k = Ok None.
Proof.
  intros Hf Hrs. unfold flush_round, flush_write. rewrite Hf.
  unfold CreateSSTable. cbn [mbind outcome_bind NewBuilder]. unfold flush_refresh, flush_clear. cbn [SstDir]. rewrite Hrs.
  eexists. split; [done|]. split; [done|]. split; [done|].
  intros k Hk Hg. unfold store_Get. cbn [ActiveMap frozenMap SstDir]. rewrite Hk. cbn. exact Hg.
Qed.


Lemma flush_error_drops_table_witness :
  let s := mkStore (NewMemTable mapLimit None)
             (Some (ActiveMap (fst (apply_cmd empty_store put_user2_new None)))) [] ∅ ∅ 0 true in
  store_Get demo_hash s key_user2 = Ok (Some [Byte.x5a]) ∧
  ∃ s', flush_round demo_hash s t0 (Err ErrIO) = Ok s' ∧ store_Get demo_hash s' key_user2 = Ok None.
Proof.
  intros s. split; [vm_compute; reflexivity|].
  destruct (flush_error_drops_table demo_hash s t0 ErrIO
    (ActiveMap (fst (apply_cmd empty_store put_user2_new None))) []) as (s' & H1 & _ & _ & H2);
    [reflexivity|reflexivity|].
  exists s'. split; [exact H1|]. apply H2; reflexivity.
Defined.

(** Read order across levels: in the order in which [Get] tries the
    files, every table of a higher level comes before every table of a lower
    level (for levels below ten), whatever their times, although higher
    levels hold older data. *)
Theorem higher_level_read_first d l l' t t' i j :
  0 <= l < l' → l' < 10 →
  sst_files d !! i = Some (sst_name l t) → sst_files d !! j = Some (sst_name l' t') → (j < i)%nat.
Proof.
  intros Hl Hl' Hi Hj. pose proof (sst_name_level_lt l l' t t' Hl Hl') as Hlt.
  destruct (Nat.lt_ge_cases j i) as [?|Hge]; [done|]. exfalso.
  destruct (Nat.eq_dec i j) as [->|Hne].
  - assert (sst_name l t = sst_name l' t') as E by congruence. rewrite E in Hlt. by apply (irreflexivity str_lt) in Hlt.
  - assert (flip str_lt (sst_name l t) (sst_name l' t')) as Hgt.
    { eapply StronglySorted_lookup; [apply sst_files_strict| |done|done]. lia. }
    apply (irreflexivity str_lt (sst_name l t)). by transitivity (sst_name l' t').
Qed.

Lemma higher_level_read_first_witness :
  ∃ d i j, sst_files d !! i = Some (sst_name 0 t0) ∧ sst_files d !! j = Some (sst_name 1 1) ∧ (j < i)%nat.
Proof.
  exists {[sst_name 0 t0 := []; sst_name 1 1 := []]}, 1%nat, 0%nat.
  split; [vm_compute; reflexivity|]. split; [vm_compute; reflexivity|].
  apply (higher_level_read_first {[sst_name 0 t0 := []; sst_name 1 1 := []]} 0 1 t0 1);
    [lia|lia|vm_compute; reflexivity|vm_compute; reflexivity].
Defined.

(** Reads go back in time after a compaction: the tables of level 0 are
    compacted into level 1, then ["user2"] is overwritten; the new value is
    returned as long as it is in memory, and the old one again once the new
    one was flushed to a level-0 table. *)
Theorem compaction_makes_reads_stale :
  ∃ d1 r1, CheckAndCompact demo_hash (demo_dir 0) 0 1700000000000000009 (Ok []) = (d1, r1) ∧
    let s := mkStore (NewMemTable mapLimit None)
               (Some (ActiveMap (fst (apply_cmd empty_store put_user2_new None)))) [] d1 ∅ 0 true in
    store_Get demo_hash s key_user2 = Ok (Some [Byte.x5a]) ∧
    ∃ s', flush_round demo_hash s 1700000000000000010 (Ok []) = Ok s' ∧
      store_Get demo_hash s' key_user2 = Ok (Some [Byte.x42]).
Proof.
  set (x := CheckAndCompact _ _ _ _ _). exists (fst x), (snd x).
  split; [apply surjective_pairing|]. cbv zeta. split; [vm_compute; reflexivity|].
  set (s := mkStore _ _ _ _ _ _ _).
  assert (match flush_round demo_hash s 1700000000000000010 (Ok []) with
          | Ok s' => bool_decide (store_Get demo_hash s' key_user2 = Ok (Some [Byte.x42]))
          | _ => false end = true) as H by (vm_compute; reflexivity).
  destruct (flush_round demo_hash s 1700000000000000010 (Ok [])) as [s'|e|]; [|discriminate H..].
  exists s'. split; [reflexivity|]. by apply bool_decide_eq_true in H.
Qed.

Lemma unstalled_store x cmds :
  steps demo_hash 100 (mkSys empty_store W_wait 0) cmds x → frozenMap (sys_store x) = None →
  ∃ y, steps demo_hash 100 (mkSys empty_store W_wait 0) (cmds ++ [put_user1_again]) y.
Proof.
  intros Hs Hf. destruct (steps_inv demo_hash 100 0 cmds x ltac:(lia) Hs) as (ma & mf & tabs & [[Hrel _ _ _] _]).
  destruct (applyInternal_rel demo_hash 100 (sys_store x) ma mf tabs key_user1 [Byte.x42] false Hrel)
    as (s' & r & Happ & _ & _ & Hr); [done|].
  assert (mf = None) as -> by (pose proof (sr_frozen _ _ _ _ _ _ Hrel) as H; rewrite Hf in H; by destruct mf).
  destruct r as [[]|e|]; [|destruct Hr as [_ [(_ & _ & H)|(_ & H)]]; [done|by vm_compute in H]|done].
  exists (mkSys s' (sys_worker x) (sys_clock x)).
  apply (steps_trans _ _ _ cmds x (Some put_user1_again)); [done|]. destruct x as [s w c].
  by apply step_apply.
Qed.

(** Replicas that receive the same commands can diverge: where the first
    table has been flushed in time the third command is applied; where the
    flush is still pending the same command is refused (write stall), which
    the apply loop only reports to a waiting client, and the two replicas
    answer the same read differently from then on. *)
Theorem stalled_replica_diverges :
  ∃ big x y, steps demo_hash 100 (mkSys empty_store W_wait 0) [put_user1; put_user2 big; put_user1_again] x ∧
    steps demo_hash 100 (mkSys empty_store W_wait 0) [put_user1; put_user2 big] y ∧
    apply_cmd (sys_store y) put_user1_again None = (sys_store y, Err ErrWriteStall) ∧
    store_Get demo_hash (sys_store x) key_user1 = Ok (Some [Byte.x42]) ∧
    store_Get demo_hash (sys_store y) key_user1 = Ok (Some [Byte.x41]).
Proof.
  destruct big_value as [big Hbig]. destruct (flush_run big Hbig) as (x0 & Hx0 & Hf & _).
  destruct (unstalled_store x0 _ Hx0 Hf) as (x & Hx). simpl in Hx.
  destruct (apply_user2 big Hbig) as (a2 & H2 & Hsz). pose proof (steps_user12 big a2 H2) as Hy.
  exists big, x, (mkSys (store2 a2) W_wait 0). split; [exact Hx|]. split; [exact Hy|].
  split; [exact (stalled_store a2 Hsz)|].
  rewrite (steps_Get demo_hash 100 0 _ x key_user1 ltac:(lia) Hx ltac:(reflexivity)).
  rewrite (steps_Get demo_hash 100 0 _ _ key_user1 ltac:(lia) Hy ltac:(reflexivity)).
  split; reflexivity.
Qed.
