(* ===== verification/RaftWal.v ===== *)
(** * raft/raft_wal.go: the log file of a Raft node

    Records of two kinds, log entries and hard states, are appended through a
    buffered writer that is flushed after every call; [RecoverEntries] reads
    the file back.  The theorems give the round trip of the record format,
    what [AppendEntries] really writes, and what a torn tail does. *)

From stdpp Require Import base list.
From Stdlib Require Import ZArith Lia.
From S2P Require Import Prelude.

Definition RecordTypeLog : byte := Byte.x00.
Definition RecordTypeHardState : byte := Byte.x01.

Record HardState := mkHardState { hs_Term : Z; hs_Vote : Z; hs_Commit : Z }.

(** [RecordType] of every entry the code builds is [RecordTypeLog]. *)
Record WALEntry := mkWALEntry { we_RecordType : byte; we_Index : Z; we_Term : Z; we_Command : bytes }.

(** The file (opened with [O_APPEND]), the outcomes of its coming writes
    ([Some n]: fails after [n] bytes), whether the buffered writer has failed
    (which is final), and [lastPersisted]. *)
Record RWAL := mkRWAL {
  rw_data : bytes;
  rw_faults : list (option nat);
  rw_failed : bool;
  rw_lastPersisted : Z
}.

Definition createOrOpenRaftWAL (data : bytes) (faults : list (option nat)) : RWAL :=
  mkRWAL data faults false 0.

(** One write that reaches the file. *)
Definition file_append (w : RWAL) (bs : bytes) : RWAL * outcome unit :=
  if rw_failed w then (w, Err ErrIO)
  else
    match rw_faults w with
    | [] => (mkRWAL (rw_data w ++ bs) [] false (rw_lastPersisted w), Ok tt)
    | None :: fs => (mkRWAL (rw_data w ++ bs) fs false (rw_lastPersisted w), Ok tt)
    | Some n :: fs => (mkRWAL (rw_data w ++ take n bs) fs true (rw_lastPersisted w), Err ErrIO)
    end.

Definition set_last (w : RWAL) (n : Z) : RWAL := mkRWAL (rw_data w) (rw_faults w) (rw_failed w) n.

(** [writer.Write(bs)] with an empty buffer of 64 KiB: more bytes than that
    go straight to the file; and [writer.Flush()] for bytes still buffered. *)
Definition bufSize : Z := 64 * 1024.
Definition writer_Write (w : RWAL) (bs : bytes) : RWAL * outcome unit :=
  if bufSize <? len bs then file_append w bs
  else if rw_failed w then (w, Err ErrIO) else (w, Ok tt).
Definition writer_Flush (w : RWAL) (bs : bytes) : RWAL * outcome unit :=
  if bufSize <? len bs then (if rw_failed w then (w, Err ErrIO) else (w, Ok tt))
  else file_append w bs.

(** The bytes of one log record. *)
Definition log_record (e : WALEntry) : bytes :=
  [RecordTypeLog] ++ le_put 4 (we_Index e) ++ le_put 4 (we_Term e) ++
  le_put 4 (u32 (len (we_Command e))) ++ we_Command e.

(** The loop over [newEntries]: the buffer and [highestIndex]. *)
Definition append_step (lastPersisted : Z) (acc : bytes * Z) (entry : WALEntry) : bytes * Z :=
  let '(buf, highestIndex) := acc in
  let idx := we_Index entry in
  if idx <=? lastPersisted then acc else (buf ++ log_record entry, idx).

Definition wal_AppendEntries (w : RWAL) (entries : list WALEntry) (startIndex : Z) : RWAL * outcome unit :=
  let lastLogIdx := u32 (startIndex + len entries - 1) in
  if (lastLogIdx <=? rw_lastPersisted w) || (len entries =? 0) then (w, Ok tt)
  else
    let startOffset :=
      if u32 startIndex <=? rw_lastPersisted w
      then u32 (rw_lastPersisted w - u32 startIndex + 1) else 0 in
    match slice entries startOffset (len entries) with
    | Ok newEntries =>
        let '(buf, highestIndex) :=
          foldl (append_step (rw_lastPersisted w)) ([], rw_lastPersisted w) newEntries in
        if 0 <? len buf then
          let '(w, r) := writer_Write w buf in
          match r with
          | Ok _ => writer_Flush (set_last w highestIndex) buf
          | _ => (w, r)
          end
        else (w, Ok tt)
    | _ => (w, Panic)
    end.

Definition hard_record (term vote commit : Z) : bytes :=
  [RecordTypeHardState] ++ le_put 4 term ++ le_put 4 vote ++ le_put 4 commit.

Definition PersistHardState (w : RWAL) (term vote commit : Z) : RWAL * outcome unit :=
  let buf := hard_record term vote commit in
  let '(w, r) := writer_Write w buf in
  match r with
  | Ok _ => writer_Flush w buf
  | _ => (w, r)
  end.

(** [io.ReadFull] on the rest of the file. *)
Definition read_full (rest : bytes) (n : Z) : outcome (bytes * bytes) :=
  if n <=? 0 then Ok ([], rest)
  else
    match rest with
    | [] => Err ErrEOF
    | _ => if len rest <? n then Err ErrUnexpectedEOF
           else Ok (take (Z.to_nat n) rest, drop (Z.to_nat n) rest)
    end.

(** The loop of [RecoverEntries]; an unknown type byte is skipped.  Out of
    fuel would show as an empty result with [Panic]. *)
Fixpoint recover_records (fuel : nat) (rest : bytes) (entries : list WALEntry) (state : HardState)
  : list WALEntry * HardState * outcome unit :=
  match fuel with
  | O => ([], state, Panic)
  | S fuel' =>
      match rest with
      | [] => (entries, state, Ok tt)
      | typeByte :: rest =>
          if bool_decide (typeByte = RecordTypeLog) then
            match read_full rest 12 with
            | Ok (header, rest) =>
                let idx := le_get (take 4 header) in
                let term := le_get (take 4 (drop 4 header)) in
                let cmdLen := le_get (take 4 (drop 8 header)) in
                match read_full rest cmdLen with
                | Ok (cmd, rest) =>
                    recover_records fuel' rest
                      (entries ++ [mkWALEntry RecordTypeLog idx term cmd]) state
                | Err e => (entries, state, Err e)
                | Panic => (entries, state, Panic)
                end
            | Err e => (entries, state, Err e)
            | Panic => (entries, state, Panic)
            end
          else if bool_decide (typeByte = RecordTypeHardState) then
            match read_full rest 12 with
            | Ok (header, rest) =>
                recover_records fuel' rest entries
                  (mkHardState (le_get (take 4 header)) (le_get (take 4 (drop 4 header)))
                     (le_get (take 4 (drop 8 header))))
            | Err e => (entries, state, Err e)
            | Panic => (entries, state, Panic)
            end
          else recover_records fuel' rest entries state
      end
  end.

Definition RecoverEntries (w : RWAL) : RWAL * (list WALEntry * HardState * outcome unit) :=
  let '(entries, state, r) :=
    recover_records (S (length (rw_data w))) (rw_data w) [] (mkHardState 0 0 0) in
  match r, last entries with
  | Ok _, Some e => (set_last w (we_Index e), (entries, state, r))
  | _, _ => (w, (entries, state, r))
  end.

(** * The record format *)

Inductive wal_record :=
| LogRec (index term : Z) (cmd : bytes)
| HardRec (term vote commit : Z).

Definition record_bytes (r : wal_record) : bytes :=
  match r with
  | LogRec i t c => log_record (mkWALEntry RecordTypeLog i t c)
  | HardRec t v c => hard_record t v c
  end.

Definition records_bytes (rs : list wal_record) : bytes := concat (map record_bytes rs).

Definition is_u32 (z : Z) : Prop := 0 <= z < 2 ^ 32.

Definition record_fits (r : wal_record) : Prop :=
  match r with
  | LogRec i t c => is_u32 i ∧ is_u32 t ∧ len c < 2 ^ 32
  | HardRec t v c => is_u32 t ∧ is_u32 v ∧ is_u32 c
  end.

(** What recovery should return for a sequence of records. *)
Definition rec_entries (rs : list wal_record) : list WALEntry :=
  omap (λ r, match r with LogRec i t c => Some (mkWALEntry RecordTypeLog i t c) | HardRec _ _ _ => None end) rs.
Definition rec_state (s : HardState) (rs : list wal_record) : HardState :=
  foldl (λ s r, match r with HardRec t v c => mkHardState t v c | LogRec _ _ _ => s end) s rs.

(** * Lemmas *)

Lemma read_full_app a rest n : n = len a → read_full (a ++ rest) n = Ok (a, rest).
Proof.
  intros ->. unfold read_full. destruct (Z.leb_spec (len a) 0) as [H|H].
  - destruct a as [|b a]; [done|]. len_lia.
  - destruct (a ++ rest) eqn:E; [apply app_eq_nil in E as [-> _]; by vm_compute in H|].
    rewrite <-E, len_app. len_pose. rewrite (proj2 (Z.ltb_ge _ _)) by lia.
    by rewrite to_nat_len, take_app_length, drop_app_length.
Qed.

(** Three 32-bit fields. *)
Lemma header3 a b c :
  is_u32 a → is_u32 b → is_u32 c →
  let h := le_put 4 a ++ le_put 4 b ++ le_put 4 c in
  len h = 12 ∧ le_get (take 4 h) = a ∧ le_get (take 4 (drop 4 h)) = b ∧ le_get (take 4 (drop 8 h)) = c.
Proof.
  intros Ha Hb Hc h. unfold is_u32 in *.
  assert (take 4 h = le_put 4 a) as H1 by (apply take_app_length'; by rewrite length_le_put).
  assert (drop 4 h = le_put 4 b ++ le_put 4 c) as H2 by (apply drop_app_length'; by rewrite length_le_put).
  assert (drop 8 h = le_put 4 c) as H3.
  { change 8%nat with (4 + 4)%nat. rewrite <-drop_drop, H2. apply drop_app_length'. by rewrite length_le_put. }
  rewrite H1, H2, H3, take_app_length' by (by rewrite length_le_put).
  rewrite take_ge by (by rewrite length_le_put). rewrite !le_get_put4, !uwrap_small by lia.
  split_and!; done.
Qed.

Lemma recover_round fuel r rest entries state :
  record_fits r →
  recover_records (S fuel) (record_bytes r ++ rest) entries state =
    recover_records fuel rest (entries ++ rec_entries [r]) (rec_state state [r]).
Proof.
  destruct r as [i t c|t v c]; intros (H1 & H2 & H3); unfold record_bytes, log_record, hard_record;
    cbn [recover_records app we_Index we_Term we_Command].
  - rewrite bool_decide_eq_true_2 by done. len_pose.
    destruct (header3 i t (len c)) as (Hl & G1 & G2 & G3); [done|done|split; lia|].
    rewrite (uwrap_small 32 (len c)) by lia.
    assert ((le_put 4 i ++ le_put 4 t ++ le_put 4 (len c) ++ c) ++ rest =
      (le_put 4 i ++ le_put 4 t ++ le_put 4 (len c)) ++ c ++ rest) as -> by (by rewrite <-!app_assoc).
    rewrite read_full_app by done. rewrite G1, G2, G3. by rewrite read_full_app.
  - rewrite bool_decide_eq_false_2, bool_decide_eq_true_2 by done.
    destruct (header3 t v c) as (Hl & G1 & G2 & G3); [done..|].
    rewrite read_full_app by done. rewrite G1, G2, G3. simpl. by rewrite app_nil_r.
Qed.

Lemma recover_records_bytes rs rest entries state fuel :
  Forall record_fits rs →
  recover_records (length rs + fuel) (records_bytes rs ++ rest) entries state =
    recover_records fuel rest (entries ++ rec_entries rs) (rec_state state rs).
Proof.
  intros Hf. revert entries state. induction Hf as [|r rs Hr _ IH]; intros entries state.
  - simpl. by rewrite app_nil_r.
  - cbn [length Nat.add]. unfold records_bytes. cbn [map concat]. rewrite <-app_assoc, recover_round by done.
    fold (records_bytes rs). rewrite IH, <-app_assoc. by destruct r.
Qed.

Lemma records_bytes_count rs : (length rs <= length (records_bytes rs))%nat.
Proof.
  induction rs as [|r rs IH]; [done|]. unfold records_bytes in *. cbn [map concat length].
  rewrite length_app. assert (1 <= length (record_bytes r))%nat; [|lia]. destruct r; simpl; lia.
Qed.

Lemma recover_bytes rs :
  Forall record_fits rs →
  recover_records (S (length (records_bytes rs))) (records_bytes rs) [] (mkHardState 0 0 0) =
    (rec_entries rs, rec_state (mkHardState 0 0 0) rs, Ok tt).
Proof.
  intros Hf. pose proof (records_bytes_count rs).
  replace (S (length (records_bytes rs))) with (length rs + S (length (records_bytes rs) - length rs))%nat by lia.
  rewrite <-(app_nil_r (records_bytes rs)) at 2. by rewrite recover_records_bytes.
Qed.

(** A file that ends inside a record: the error is returned. *)
Lemma recover_torn_record rs r cut :
  Forall record_fits rs → record_fits r → (1 <= cut < length (record_bytes r))%nat →
  ∃ e, recover_records (S (length (records_bytes rs ++ take cut (record_bytes r))))
         (records_bytes rs ++ take cut (record_bytes r)) [] (mkHardState 0 0 0) =
       (rec_entries rs, rec_state (mkHardState 0 0 0) rs, Err e).
Proof.
  intros Hf Hr Hcut. pose proof (records_bytes_count rs).
  rewrite length_app. set (n := length (take cut (record_bytes r))).
  replace (S (length (records_bytes rs) + n)) with (length rs + S (length (records_bytes rs) - length rs + n))%nat by lia.
  rewrite recover_records_bytes by done. simpl app.
  assert (∀ l k, (k < length l)%nat → ∃ e, read_full (take k l) (len l) = Err e) as Hshort.
  { intros l k Hk. unfold read_full. rewrite (proj2 (Z.leb_gt _ _)) by (unfold len; lia).
    destruct (take k l) as [|b l'] eqn:E; [by eexists|]. rewrite <-E, len_take.
    rewrite (proj2 (Z.ltb_lt _ _)) by (unfold len; lia). by eexists. }
  destruct cut as [|cut]; [lia|].
  destruct r as [i t c|t v c]; destruct Hr as (H1 & H2 & H3);
    unfold record_bytes, log_record, hard_record in *; cbn [app we_Index we_Term we_Command] in *;
    rewrite firstn_cons; cbn [recover_records].
  - rewrite bool_decide_eq_true_2 by done. len_pose.
    destruct (header3 i t (len c)) as (Hl & G1 & G2 & G3); [done|done|split; lia|].
    rewrite (uwrap_small 32 (len c)) in * by lia. set (h := le_put 4 i ++ le_put 4 t ++ le_put 4 (len c)) in *.
    assert (le_put 4 i ++ le_put 4 t ++ le_put 4 (len c) ++ c = h ++ c) as Eh by (unfold h; by rewrite <-!app_assoc).
    rewrite Eh in *. assert (length h = 12%nat) as Hlh by (unfold len in Hl; lia).
    simpl in Hcut. rewrite length_app in Hcut.
    destruct (decide (cut < 12)%nat) as [Hc|Hc].
    + rewrite take_app_le by lia. destruct (Hshort h cut ltac:(lia)) as [e He]. rewrite Hl in He.
      rewrite He. by eexists.
    + rewrite take_app_ge by lia. rewrite read_full_app by done. rewrite G1, G2, G3.
      destruct (Hshort c (cut - length h)%nat ltac:(lia)) as [e He]. rewrite He. by eexists.
  - rewrite bool_decide_eq_false_2, bool_decide_eq_true_2 by done.
    destruct (header3 t v c) as (Hl & _); [done..|].
    set (h := le_put 4 t ++ le_put 4 v ++ le_put 4 c) in *. simpl in Hcut.
    destruct (Hshort h cut ltac:(lia)) as [e He]. rewrite Hl in He. rewrite He. by eexists.
Qed.

Lemma recover_records_total fuel rest entries state :
  (length rest < fuel)%nat → snd (recover_records fuel rest entries state) ≠ Panic.
Proof.
  assert (∀ l n, read_full l n ≠ Panic ∧
    ∀ a b, read_full l n = Ok (a, b) → (length b <= length l)%nat) as Hrf.
  { intros l n. unfold read_full. destruct (n <=? 0).
    - split; [done|]. intros a b [= <- <-]. lia.
    - destruct l as [|x l]; [done|]. destruct (len (x :: l) <? n); [done|]. split; [done|].
      intros a b [= <- <-]. rewrite length_drop. lia. }
  revert rest entries state. induction fuel as [|fuel IH]; intros rest entries state Hf; [lia|].
  cbn [recover_records]. destruct rest as [|b rest]; [done|]. simpl in Hf.
  destruct (bool_decide _); [|destruct (bool_decide _); [|apply IH; lia]].
  - destruct (read_full rest 12) as [[h r1]|e|] eqn:E1; [|done|by destruct (Hrf rest 12) as [? _]].
    destruct (Hrf rest 12) as [_ Hl1]. specialize (Hl1 _ _ E1).
    destruct (read_full r1 _) as [[cmd r2]|e|] eqn:E2; [|done|by destruct (Hrf r1 (le_get (take 4 (drop 8 h)))) as [? _]].
    destruct (Hrf r1 (le_get (take 4 (drop 8 h)))) as [_ Hl2]. specialize (Hl2 _ _ E2). apply IH. lia.
  - destruct (read_full rest 12) as [[h r1]|e|] eqn:E1; [|done|by destruct (Hrf rest 12) as [? _]].
    destruct (Hrf rest 12) as [_ Hl1]. specialize (Hl1 _ _ E1). apply IH. lia.
Qed.

(** ** What the calls write *)

Definition entry_rec (e : WALEntry) : wal_record := LogRec (we_Index e) (we_Term e) (we_Command e).

(** Entries as [persist] builds them. *)
Definition wal_entry_ok (e : WALEntry) : Prop :=
  we_RecordType e = RecordTypeLog ∧ is_u32 (we_Index e) ∧ is_u32 (we_Term e) ∧ len (we_Command e) < 2 ^ 32.

(** The entries [AppendEntries(entries, 0)] writes: those behind position
    [lastPersisted] whose index is greater than [lastPersisted]. *)
Definition fresh_entries (lastPersisted : Z) (entries : list WALEntry) : list WALEntry :=
  filter (λ e, lastPersisted < we_Index e) (drop (Z.to_nat (lastPersisted + 1)) entries).

Lemma append_step_fold lp buf hi es :
  foldl (append_step lp) (buf, hi) es =
    (buf ++ concat (map log_record (filter (λ e, lp < we_Index e) es)),
     default hi (we_Index <$> last (filter (λ e, lp < we_Index e) es))).
Proof.
  revert buf hi. induction es as [|e es IH]; intros buf hi; [simpl; by rewrite app_nil_r|].
  cbn [foldl]. unfold append_step at 2. destruct (Z.leb_spec (we_Index e) lp) as [Hle|Hgt].
  - rewrite IH, filter_cons_False by lia. done.
  - rewrite IH, filter_cons_True by lia. cbn [map concat]. rewrite <-app_assoc, last_cons.
    by destruct (last (filter _ es)).
Qed.

(** Without faults, write and flush append the bytes. *)
Lemma write_flush w bs n :
  rw_faults w = [] → rw_failed w = false →
  ∃ w1, writer_Write w bs = (w1, Ok tt) ∧
    writer_Flush (set_last w1 n) bs = (mkRWAL (rw_data w ++ bs) [] false n, Ok tt).
Proof.
  intros Hf Hd. unfold writer_Write, writer_Flush, file_append. rewrite Hf, Hd.
  destruct (bufSize <? len bs); eexists; split; try done; simpl; by rewrite ?Hd, ?Hf.
Qed.

(** Writes fail with an error, never with a panic. *)
Lemma writer_no_panic w bs : snd (writer_Write w bs) ≠ Panic ∧ snd (writer_Flush w bs) ≠ Panic.
Proof.
  assert (snd (file_append w bs) ≠ Panic) as H.
  { unfold file_append. destruct (rw_failed w); [discriminate|]. by destruct (rw_faults w) as [|[]]. }
  unfold writer_Write, writer_Flush. by destruct (bufSize <? len bs), (rw_failed w).
Qed.

Lemma PersistHardState_no_panic w term vote commit : snd (PersistHardState w term vote commit) ≠ Panic.
Proof.
  unfold PersistHardState. set (buf := hard_record term vote commit).
  destruct (writer_Write w buf) as [w1 [[]|e|]] eqn:E; [apply writer_no_panic|done|].
  exfalso. apply (proj1 (writer_no_panic w buf)). by rewrite E.
Qed.

(** [entries[startOffset:]] is in range when the whole log is handed over. *)
Lemma wal_AppendEntries_no_panic w entries : snd (wal_AppendEntries w entries 0) ≠ Panic.
Proof.
  unfold wal_AppendEntries. len_pose. change (0 + len entries - 1) with (len entries - 1).
  destruct (Z.leb_spec (u32 (len entries - 1)) (rw_lastPersisted w)) as [|Hl]; [discriminate|].
  destruct (Z.eqb_spec (len entries) 0) as [|Hne]; [discriminate|]. cbn [orb].
  assert (u32 (len entries - 1) <= len entries - 1) as Hu by (apply Z.mod_le; lia).
  pose proof (uwrap_range 32 (len entries - 1) ltac:(lia)). rewrite (uwrap_small 32 0) by lia.
  set (off := if 0 <=? rw_lastPersisted w then _ else 0).
  assert (0 <= off <= len entries) as Hoff.
  { unfold off. destruct (Z.leb_spec 0 (rw_lastPersisted w)); [|lia]. rewrite uwrap_small by lia. lia. }
  unfold slice. rewrite (proj2 (Z.leb_le 0 off)), (proj2 (Z.leb_le off (len entries))), Z.leb_refl by lia. cbn [andb].
  destruct (foldl _ _ _) as [buf h]. destruct (0 <? len buf); [|discriminate].
  destruct (writer_Write w buf) as [w1 [[]|e|]] eqn:E; [apply writer_no_panic|discriminate|].
  exfalso. apply (proj1 (writer_no_panic w buf)). by rewrite E.
Qed.

Lemma wal_AppendEntries_spec w entries :
  rw_faults w = [] → rw_failed w = false → is_u32 (rw_lastPersisted w) → len entries < 2 ^ 31 →
  let new := fresh_entries (rw_lastPersisted w) entries in
  wal_AppendEntries w entries 0 =
    (mkRWAL (rw_data w ++ concat (map log_record new)) [] false
       (default (rw_lastPersisted w) (we_Index <$> last new)), Ok tt).
Proof.
  intros Hf Hd [Hlp Hlp'] Hlen new. unfold wal_AppendEntries. len_pose.
  assert (w = mkRWAL (rw_data w) [] false (rw_lastPersisted w)) as Ew by (destruct w; simpl in *; by subst).
  destruct (Z.eqb_spec (len entries) 0) as [H0|H0]; [|destruct (Z.leb_spec (len entries - 1) (rw_lastPersisted w)) as [Hle|Hgt]].
  1: { rewrite orb_true_r. assert (new = []) as ->; [|simpl; rewrite app_nil_r; congruence].
       destruct entries; [by unfold new, fresh_entries; rewrite drop_nil|len_lia]. }
  { rewrite (uwrap_small 32 (0 + len entries - 1)) by lia. rewrite (proj2 (Z.leb_le _ _)) by lia.
    cbn [orb]. assert (new = []) as ->; [|simpl; rewrite app_nil_r; congruence].
    unfold new, fresh_entries. rewrite drop_ge; [done|]. unfold len in *. lia. }
  rewrite (uwrap_small 32 (0 + len entries - 1)) by lia. rewrite (proj2 (Z.leb_gt _ _)) by lia. cbn [orb].
  change (u32 0) with 0. rewrite (proj2 (Z.leb_le 0 _)) by lia.
  rewrite (uwrap_small 32 (rw_lastPersisted w - 0 + 1)) by lia.
  rewrite slice_ok by lia. rewrite take_ge by (rewrite length_drop; unfold len in *; lia).
  replace (rw_lastPersisted w - 0 + 1) with (rw_lastPersisted w + 1) by lia.
  rewrite append_step_fold. fold (fresh_entries (rw_lastPersisted w) entries). fold new. simpl app.
  destruct new as [|e new'] eqn:En; [simpl; rewrite app_nil_r; congruence|]. rewrite <-En.
  assert (0 < len (concat (map log_record new))) as Hb by (rewrite En; cbn [map concat]; unfold log_record; len_lia).
  rewrite (proj2 (Z.ltb_lt _ _) Hb).
  destruct (write_flush w (concat (map log_record new)) (default (rw_lastPersisted w) (we_Index <$> last new)) Hf Hd)
    as (w1 & -> & ->). done.
Qed.

Lemma PersistHardState_spec w t v c :
  rw_faults w = [] → rw_failed w = false →
  PersistHardState w t v c = (mkRWAL (rw_data w ++ hard_record t v c) [] false (rw_lastPersisted w), Ok tt).
Proof.
  intros Hf Hd. unfold PersistHardState, writer_Write, writer_Flush, file_append. rewrite Hf, Hd.
  assert (len (hard_record t v c) = 13) as -> by (unfold hard_record; len_lia).
  change (bufSize <? 13) with false. cbv iota. by rewrite Hf, Hd.
Qed.

(** A run of calls. *)
Inductive wal_call := CallAppend (entries : list WALEntry) | CallHard (term vote commit : Z).

Definition do_call (w : RWAL) (c : wal_call) : RWAL :=
  match c with
  | CallAppend es => fst (wal_AppendEntries w es 0)
  | CallHard t v c => fst (PersistHardState w t v c)
  end.

Definition call_ok (c : wal_call) : Prop :=
  match c with
  | CallAppend es => len es < 2 ^ 31 ∧ Forall wal_entry_ok es
  | CallHard t v c => is_u32 t ∧ is_u32 v ∧ is_u32 c
  end.

(** The records of a run, from [lastPersisted]. *)
Fixpoint call_records (lp : Z) (calls : list wal_call) : list wal_record :=
  match calls with
  | [] => []
  | CallAppend es :: calls' =>
      let new := fresh_entries lp es in
      map entry_rec new ++ call_records (default lp (we_Index <$> last new)) calls'
  | CallHard t v c :: calls' => HardRec t v c :: call_records lp calls'
  end.

Lemma records_bytes_app a b : records_bytes (a ++ b) = records_bytes a ++ records_bytes b.
Proof. unfold records_bytes. by rewrite map_app, concat_app. Qed.

Lemma records_bytes_entries es : records_bytes (map entry_rec es) = concat (map log_record es).
Proof. unfold records_bytes. by rewrite map_map. Qed.

Lemma fresh_ok lp es : Forall wal_entry_ok es → Forall wal_entry_ok (fresh_entries lp es).
Proof.
  intros H. rewrite Forall_forall in H |- *. intros e [_ He]%list_elem_of_filter.
  apply H. by eapply subseteq_drop.
Qed.

Lemma run_calls_spec w calls :
  rw_faults w = [] → rw_failed w = false → is_u32 (rw_lastPersisted w) → Forall call_ok calls →
  let w' := foldl do_call w calls in
  rw_data w' = rw_data w ++ records_bytes (call_records (rw_lastPersisted w) calls) ∧
  Forall record_fits (call_records (rw_lastPersisted w) calls) ∧
  rw_faults w' = [] ∧ rw_failed w' = false ∧
  rw_lastPersisted w' =
    default (rw_lastPersisted w) (we_Index <$> last (rec_entries (call_records (rw_lastPersisted w) calls))).
Proof.
  intros Hf Hd Hlp Hok. revert w Hf Hd Hlp.
  induction Hok as [|c calls Hc _ IH]; intros w Hf Hd Hlp; [simpl; by rewrite app_nil_r|].
  destruct c as [es|t v c]; cbn [foldl do_call call_records].
  - destruct Hc as [Hlen Hes]. rewrite wal_AppendEntries_spec by done. cbv zeta. cbn [fst].
    set (new := fresh_entries (rw_lastPersisted w) es). pose proof (fresh_ok (rw_lastPersisted w) es Hes) as Hnew.
    fold new in Hnew. set (lp := default _ (we_Index <$> last new)).
    assert (is_u32 lp) as Hlp'.
    { unfold lp. destruct (last new) as [e|] eqn:El; [|done]. rewrite Forall_forall in Hnew.
      apply last_Some_elem_of in El. by destruct (Hnew e El) as (_ & ? & _). }
    specialize (IH (mkRWAL (rw_data w ++ concat (map log_record new)) [] false lp) eq_refl eq_refl Hlp').
    cbv zeta in IH. cbn [rw_data rw_lastPersisted] in IH. destruct IH as (I1 & I2 & I3 & I4 & I5).
    assert (rec_entries (map entry_rec new) = new) as Hre.
    { clear -Hnew. induction Hnew as [|e new' (Ht & _) _ IH]; [done|]. cbn [map].
      transitivity (mkWALEntry RecordTypeLog (we_Index e) (we_Term e) (we_Command e) :: rec_entries (map entry_rec new'));
        [done|]. rewrite IH. destruct e; simpl in *. by subst. }
    split_and!; [|apply Forall_app; split; [|done]|done|done|].
    + by rewrite I1, records_bytes_app, records_bytes_entries, <-app_assoc.
    + apply Forall_map. eapply Forall_impl; [done|]. by intros e (_ & ? & ? & ?).
    + rewrite I5. unfold rec_entries. rewrite omap_app. fold (rec_entries (map entry_rec new)).
      rewrite Hre. fold (rec_entries (call_records lp calls)). rewrite last_app.
      by destruct (last (rec_entries (call_records lp calls))).
  - rewrite PersistHardState_spec by done. cbn [fst].
    specialize (IH (mkRWAL (rw_data w ++ hard_record t v c) [] false (rw_lastPersisted w)) eq_refl eq_refl Hlp).
    cbv zeta in IH. cbn [rw_data rw_lastPersisted] in IH. destruct IH as (I1 & I2 & I3 & I4 & I5).
    split_and!; [|by constructor|done|done|done]. rewrite I1, <-app_assoc. done.
Qed.

(** * Properties *)

(** C24. Round trip of the node's WAL: after any calls of [AppendEntries]
    (with start index 0) and [PersistHardState] on a new file, reopening the
    file and recovering returns every entry that was not skipped as already
    persisted, in order, and the last hard state; and the recovered handle
    equals the one before, [lastPersisted] included. *)
Theorem raft_wal_roundtrip calls :
  Forall call_ok calls →
  let w := foldl do_call (createOrOpenRaftWAL [] []) calls in
  let rs := call_records 0 calls in
  RecoverEntries (createOrOpenRaftWAL (rw_data w) []) =
    (w, (rec_entries rs, rec_state (mkHardState 0 0 0) rs, Ok tt)).
Proof.
  intros Hok w rs.
  destruct (run_calls_spec (createOrOpenRaftWAL [] []) calls eq_refl eq_refl ltac:(done) Hok)
    as (H1 & H2 & H3 & H4 & H5). fold w in H1, H3, H4, H5. simpl in H1, H5. fold rs in H1, H2, H5.
  unfold RecoverEntries. cbn [createOrOpenRaftWAL rw_data]. rewrite H1, recover_bytes by done.
  destruct w as [dt fs fl lp]. simpl in *. subst.
  by destruct (last (rec_entries rs)).
Qed.

Definition demo_calls : list wal_call :=
  [CallHard 1 2 0;
   CallAppend [mkWALEntry RecordTypeLog 0 0 []; mkWALEntry RecordTypeLog 1 1 [Byte.x61]];
   CallAppend [mkWALEntry RecordTypeLog 0 0 []; mkWALEntry RecordTypeLog 1 1 [Byte.x61];
               mkWALEntry RecordTypeLog 2 1 [Byte.x62]]].

Lemma raft_wal_roundtrip_witness :
  ∃ w, RecoverEntries (createOrOpenRaftWAL (rw_data (foldl do_call (createOrOpenRaftWAL [] []) demo_calls)) []) =
    (w, ([mkWALEntry RecordTypeLog 1 1 [Byte.x61]; mkWALEntry RecordTypeLog 2 1 [Byte.x62]],
         mkHardState 1 2 0, Ok tt)).
Proof.
  exists (foldl do_call (createOrOpenRaftWAL [] []) demo_calls).
  apply (raft_wal_roundtrip demo_calls).
  repeat (apply Forall_cons_2; [|]); try apply Forall_nil_2; repeat split; try reflexivity; try discriminate;
    repeat (apply Forall_cons_2; [|]); try apply Forall_nil_2; repeat split; reflexivity || discriminate.
Defined.
