(* ===== verification/RaftSync.v ===== *)
(** * raft/raft_wal.go: the background syncer

    [AppendEntries] and [PersistHardState] flush to the file and leave a
    signal in [triggerCh]; [backgroundSyncer] takes all signals there are and
    asks for one fsync.  The model adds to the WAL how much of the file an
    fsync has reached, and what the calls that returned without an error have
    written. *)

From stdpp Require Import base list.
From Stdlib Require Import ZArith Lia.
From S2P Require Import Prelude RaftWal.

(** Where the syncer is: blocked on [triggerCh], in the drain loop, or about
    to call [sync]. *)
Inductive syncer := Sync_wait | Sync_drain | Sync_now.

(** [sw_done]: the length of the file when the last call that wrote returned
    without an error. *)
Record SyncWAL := mkSyncWAL {
  sw_wal : RWAL;
  sw_trigger : bool;
  sw_syncer : syncer;
  sw_synced : Z;
  sw_done : Z
}.

(** [createOrOpenRaftWAL] on a file that survived: what it holds is synced. *)
Definition open_sync (data : bytes) (faults : list (option nat)) : SyncWAL :=
  mkSyncWAL (createOrOpenRaftWAL data faults) false Sync_wait (len data) (len data).

(** The non-blocking send at the end of both writers: after a flush without
    an error, that is, when the call has added bytes. *)
Definition send_trigger (s : SyncWAL) (w : RWAL) (r : outcome unit) : SyncWAL :=
  match r with
  | Ok _ =>
      if len (rw_data (sw_wal s)) <? len (rw_data w)
      then mkSyncWAL w true (sw_syncer s) (sw_synced s) (len (rw_data w))
      else mkSyncWAL w (sw_trigger s) (sw_syncer s) (sw_synced s) (sw_done s)
  | _ => mkSyncWAL w (sw_trigger s) (sw_syncer s) (sw_synced s) (sw_done s)
  end.

Definition sync_AppendEntries (s : SyncWAL) (entries : list WALEntry) (startIndex : Z) : SyncWAL * outcome unit :=
  let '(w, r) := wal_AppendEntries (sw_wal s) entries startIndex in (send_trigger s w r, r).

Definition sync_PersistHardState (s : SyncWAL) (term vote commit : Z) : SyncWAL * outcome unit :=
  let '(w, r) := PersistHardState (sw_wal s) term vote commit in (send_trigger s w r, r).

(** [sync()]; its error is dropped by the syncer. *)
Definition sync (s : SyncWAL) (ok : bool) : SyncWAL :=
  mkSyncWAL (sw_wal s) (sw_trigger s) (sw_syncer s) (if ok then len (rw_data (sw_wal s)) else sw_synced s) (sw_done s).

Definition set_syncer (s : SyncWAL) (trigger : bool) (p : syncer) : SyncWAL :=
  mkSyncWAL (sw_wal s) trigger p (sw_synced s) (sw_done s).

(** One step of [backgroundSyncer]; [None]: it blocks. *)
Definition backgroundSyncer (s : SyncWAL) (ok : bool) : option SyncWAL :=
  match sw_syncer s with
  | Sync_wait => if sw_trigger s then Some (set_syncer s false Sync_drain) else None
  | Sync_drain => Some (if sw_trigger s then set_syncer s false Sync_drain else set_syncer s false Sync_now)
  | Sync_now => Some (set_syncer (sync s ok) (sw_trigger s) Sync_wait)
  end.

(** Writers and syncer in any order, with every [sync] that is reached
    succeeding; [rw_faults] are the faults of the writes. *)
Inductive sync_reach (data : bytes) (faults : list (option nat)) : SyncWAL → Prop :=
| sync_open : sync_reach data faults (open_sync data faults)
| sync_append s entries startIndex :
    sync_reach data faults s → sync_reach data faults (fst (sync_AppendEntries s entries startIndex))
| sync_hard s term vote commit :
    sync_reach data faults s → sync_reach data faults (fst (sync_PersistHardState s term vote commit))
| sync_step s s' : sync_reach data faults s → backgroundSyncer s true = Some s' → sync_reach data faults s'.

(** The syncer alone, for at most [n] steps. *)
Fixpoint run_syncer (n : nat) (s : SyncWAL) : SyncWAL :=
  match n with
  | O => s
  | S n' => match backgroundSyncer s true with Some s' => run_syncer n' s' | None => s end
  end.

(** ** The file only grows *)

Definition grows (w w' : RWAL) : Prop := rw_data w `prefix_of` rw_data w'.

Lemma file_append_grows w bs : grows w (fst (file_append w bs)).
Proof.
  unfold grows, file_append. destruct (rw_failed w); [done|].
  destruct (rw_faults w) as [|[n|] fs]; simpl; by apply prefix_app_r.
Qed.

Lemma writer_grows w bs : grows w (fst (writer_Write w bs)) ∧ grows w (fst (writer_Flush w bs)).
Proof.
  unfold writer_Write, writer_Flush. pose proof (file_append_grows w bs). unfold grows in *. split; destruct (_ <? _); try done; by destruct (rw_failed w).
Qed.

(** A write followed by a flush. *)
Lemma write_flush_grows w bs f :
  (∀ w, rw_data (f w) = rw_data w) →
  grows w (fst (let '(w, r) := writer_Write w bs in match r with Ok _ => writer_Flush (f w) bs | _ => (w, r) end)).
Proof.
  intros Hf. destruct (writer_grows w bs) as [H1 _]. unfold grows in *. destruct (writer_Write w bs) as [w1 [u|e|]]; simpl in *; try done.
  destruct (writer_grows (f w1) bs) as [_ H2]. unfold grows in H2. rewrite Hf in H2. by trans (rw_data w1).
Qed.

Lemma wal_AppendEntries_grows w es i : grows w (fst (wal_AppendEntries w es i)).
Proof.
  unfold wal_AppendEntries. assert (grows w w) by (unfold grows; done). destruct (_ || _); [done|]. destruct (slice _ _ _) as [l|?|]; [|done..].
  destruct (foldl _ _ l) as [buf highest]. destruct (0 <? len buf); [|done].
  by apply (write_flush_grows w buf (λ w, set_last w highest)).
Qed.

Lemma PersistHardState_grows w t v c : grows w (fst (PersistHardState w t v c)).
Proof. by apply (write_flush_grows w (hard_record t v c) (λ w, w)). Qed.

(** ** The invariant *)

(** What was written is synced, or the syncer will get there. *)
Record sync_inv (s : SyncWAL) : Prop := {
  sy_synced : sw_synced s <= len (rw_data (sw_wal s));
  sy_done : sw_done s <= len (rw_data (sw_wal s));
  sy_pending : sw_done s <= sw_synced s ∨ sw_trigger s = true ∨ sw_syncer s ≠ Sync_wait
}.

Lemma send_trigger_inv s w r : sync_inv s → grows (sw_wal s) w → sync_inv (send_trigger s w r).
Proof.
  intros [] Hg%prefix_length. assert (len (rw_data (sw_wal s)) <= len (rw_data w)) by (unfold len; lia).
  unfold send_trigger. destruct r; [destruct (_ <? _)|..]; split; simpl; try lia; auto.
Qed.

Lemma backgroundSyncer_inv s s' : sync_inv s → backgroundSyncer s true = Some s' → sync_inv s'.
Proof.
  intros []. unfold backgroundSyncer. destruct (sw_syncer s).
  - destruct (sw_trigger s); [|done]. intros [= <-]. split; simpl; try done. auto.
  - intros [= <-]. destruct (sw_trigger s); split; simpl; try done; auto.
  - intros [= <-]. split; simpl; [lia|done|by left].
Qed.

Lemma sync_reach_inv data faults s : sync_reach data faults s → sync_inv s.
Proof.
  induction 1 as [|s es i _ IH|s t v c _ IH|s s' _ IH Hs].
  - split; simpl; try lia.
  - unfold sync_AppendEntries. pose proof (wal_AppendEntries_grows (sw_wal s) es i) as Hg.
    destruct (wal_AppendEntries _ _ _) as [w r]. by apply send_trigger_inv.
  - unfold sync_PersistHardState. pose proof (PersistHardState_grows (sw_wal s) t v c) as Hg.
    destruct (PersistHardState _ _ _ _) as [w r]. by apply send_trigger_inv.
  - by eapply backgroundSyncer_inv.
Qed.

(** C29. The syncer never misses a write, as long as fsync works (its error is
    dropped by the code, and nothing is promised after one): in every
    interleaving of writers and syncer, whatever writes fail, when the syncer
    blocks, everything that calls have reported as written is synced; and left
    alone it blocks after at most four steps, so every write is synced. *)
Theorem syncer_catches_up data faults s :
  sync_reach data faults s →
  (backgroundSyncer s true = None → sw_done s <= sw_synced s) ∧
  let s' := run_syncer 4 s in
  backgroundSyncer s' true = None ∧ sw_wal s' = sw_wal s ∧ sw_done s <= sw_synced s' <= len (rw_data (sw_wal s)).
Proof.
  intros Hr. pose proof (sync_reach_inv _ _ _ Hr) as []. destruct s as [w tr p sy dn]. simpl in *. split.
  - unfold backgroundSyncer. simpl. destruct p; [|done..]. destruct tr; [done|]. intros _. by destruct sy_pending0 as [|[|]].
  - unfold run_syncer, backgroundSyncer. destruct p, tr; simpl; (split; [done|]); (split; [done|]); try lia;
      destruct sy_pending0 as [|[|]]; done || lia.
Qed.

(** A hard state is written to an empty file. *)
Definition demo_sync : SyncWAL := fst (sync_PersistHardState (open_sync [] []) 1 2 0).

Lemma syncer_catches_up_witness : sw_synced demo_sync = 0 ∧ sw_done demo_sync = 13 ∧ 13 <= sw_synced (run_syncer 4 demo_sync).
Proof.
  split; [vm_compute; reflexivity|]. assert (sw_done demo_sync = 13) as E by (vm_compute; reflexivity). split; [exact E|].
  rewrite <-E. apply (syncer_catches_up [] []). apply sync_hard. exact (sync_open [] []).
Defined.
