(* ===== verification/Raft.v ===== *)
(** * raft/raft.go, requestVotes.go, appendEntries.go, persist.go: one node

    The state of a Raft node and every handler of it as a function on that
    state: the two RPC handlers, the two reply handlers, [Start], the applier,
    the replicator, elections and restart.  The theorems are about single
    handlers; RaftCluster.v composes them. *)

From stdpp Require Import base list gmap.
From Stdlib Require Import ZArith Lia.
From S2P Require Import Prelude RaftWal.

Inductive State := Follower | Candidate | Leader.
#[export] Instance State_eq_dec : EqDecision State.
Proof. solve_decision. Defined.

Record LogEntry := mkLogEntry { le_Index : Z; le_Term : Z; le_Command : bytes }.
#[export] Instance LogEntry_eq_dec : EqDecision LogEntry.
Proof. solve_decision. Defined.

(** [rf_peers] is [len(rf.peers)], this node included (its client is nil);
    the two channels of capacity one are booleans; times are integers. *)
Record Raft := mkRaft {
  rf_peers : Z;
  rf_me : Z;
  rf_leaderId : Z;
  rf_triggerCh : bool;
  rf_commitCh : bool;
  rf_currentTerm : Z;
  rf_votedFor : Z;
  rf_log : list LogEntry;
  rf_wal : RWAL;
  rf_commitIndex : Z;
  rf_lastApplied : Z;
  rf_nextIndex : gmap Z Z;
  rf_matchIndex : gmap Z Z;
  rf_state : State;
  rf_lastResetTime : Z
}.

(** A Go map read: the zero value for an absent key. *)
Definition map_get (m : gmap Z Z) (k : Z) : Z := default 0 (m !! k).

(** ** Field updates *)

Definition set_term_state (rf : Raft) (term : Z) (st : State) (voted leader : Z) : Raft :=
  mkRaft (rf_peers rf) (rf_me rf) leader (rf_triggerCh rf) (rf_commitCh rf) term voted (rf_log rf)
    (rf_wal rf) (rf_commitIndex rf) (rf_lastApplied rf) (rf_nextIndex rf) (rf_matchIndex rf) st
    (rf_lastResetTime rf).
Definition set_log (rf : Raft) (l : list LogEntry) : Raft :=
  mkRaft (rf_peers rf) (rf_me rf) (rf_leaderId rf) (rf_triggerCh rf) (rf_commitCh rf)
    (rf_currentTerm rf) (rf_votedFor rf) l (rf_wal rf) (rf_commitIndex rf) (rf_lastApplied rf)
    (rf_nextIndex rf) (rf_matchIndex rf) (rf_state rf) (rf_lastResetTime rf).
Definition set_wal (rf : Raft) (w : RWAL) : Raft :=
  mkRaft (rf_peers rf) (rf_me rf) (rf_leaderId rf) (rf_triggerCh rf) (rf_commitCh rf)
    (rf_currentTerm rf) (rf_votedFor rf) (rf_log rf) w (rf_commitIndex rf) (rf_lastApplied rf)
    (rf_nextIndex rf) (rf_matchIndex rf) (rf_state rf) (rf_lastResetTime rf).
Definition set_reset (rf : Raft) (now : Z) : Raft :=
  mkRaft (rf_peers rf) (rf_me rf) (rf_leaderId rf) (rf_triggerCh rf) (rf_commitCh rf)
    (rf_currentTerm rf) (rf_votedFor rf) (rf_log rf) (rf_wal rf) (rf_commitIndex rf)
    (rf_lastApplied rf) (rf_nextIndex rf) (rf_matchIndex rf) (rf_state rf) now.
Definition set_commit (rf : Raft) (n : Z) (signal : bool) : Raft :=
  mkRaft (rf_peers rf) (rf_me rf) (rf_leaderId rf) (rf_triggerCh rf) signal (rf_currentTerm rf)
    (rf_votedFor rf) (rf_log rf) (rf_wal rf) n (rf_lastApplied rf) (rf_nextIndex rf)
    (rf_matchIndex rf) (rf_state rf) (rf_lastResetTime rf).
Definition set_applied (rf : Raft) (n : Z) : Raft :=
  mkRaft (rf_peers rf) (rf_me rf) (rf_leaderId rf) (rf_triggerCh rf) (rf_commitCh rf)
    (rf_currentTerm rf) (rf_votedFor rf) (rf_log rf) (rf_wal rf) (rf_commitIndex rf) n
    (rf_nextIndex rf) (rf_matchIndex rf) (rf_state rf) (rf_lastResetTime rf).
Definition set_indices (rf : Raft) (next mat : gmap Z Z) : Raft :=
  mkRaft (rf_peers rf) (rf_me rf) (rf_leaderId rf) (rf_triggerCh rf) (rf_commitCh rf)
    (rf_currentTerm rf) (rf_votedFor rf) (rf_log rf) (rf_wal rf) (rf_commitIndex rf)
    (rf_lastApplied rf) next mat (rf_state rf) (rf_lastResetTime rf).
Definition set_trigger (rf : Raft) (b : bool) : Raft :=
  mkRaft (rf_peers rf) (rf_me rf) (rf_leaderId rf) b (rf_commitCh rf) (rf_currentTerm rf)
    (rf_votedFor rf) (rf_log rf) (rf_wal rf) (rf_commitIndex rf) (rf_lastApplied rf)
    (rf_nextIndex rf) (rf_matchIndex rf) (rf_state rf) (rf_lastResetTime rf).

(** ** persist.go *)

(** The entries handed to the WAL: the whole log. *)
Definition wal_entry (e : LogEntry) : WALEntry :=
  mkWALEntry RecordTypeLog (u32 (le_Index e)) (u32 (le_Term e)) (le_Command e).

(** [persist()] and [persistState()]; the WAL's errors are dropped. *)
Definition persist (rf : Raft) : outcome Raft :=
  if 0 <? len (rf_log rf)
  then match wal_AppendEntries (rf_wal rf) (map wal_entry (rf_log rf)) 0 with
       | (_, Panic) => Panic
       | (w, _) => Ok (set_wal rf w)
       end
  else Ok rf.

Definition persistState (rf : Raft) : Raft :=
  set_wal rf (fst (PersistHardState (rf_wal rf) (u32 (rf_currentTerm rf)) (u32 (rf_votedFor rf))
                     (u32 (rf_commitIndex rf)))).

(** [readPersist()]: nothing is restored when recovery reports an error. *)
Definition log_entry (e : WALEntry) : LogEntry := mkLogEntry (we_Index e) (we_Term e) (we_Command e).

Definition readPersist (rf : Raft) : Raft :=
  let '(w, (walEntries, hardState, r)) := RecoverEntries (rf_wal rf) in
  let rf := set_wal rf w in
  match r with
  | Ok _ =>
      let rf :=
        if 0 <? len walEntries
        then set_log rf (map log_entry (filter (λ e, we_RecordType e = RecordTypeLog) walEntries))
        else rf in
      if 0 <? hs_Term hardState
      then set_commit (set_term_state rf (hs_Term hardState) (rf_state rf) (hs_Vote hardState) (rf_leaderId rf))
             (hs_Commit hardState) (rf_commitCh rf)
      else rf
  | _ => rf
  end.

(** [Make]: a node started on the WAL file contents [data]. *)
Definition Make (peers me : Z) (data : bytes) (now : Z) : Raft :=
  set_reset
    (readPersist
       (mkRaft peers me (-1) false false 0 (-1) [mkLogEntry 0 0 []] (createOrOpenRaftWAL data [])
          0 0 ∅ ∅ Follower 0))
    now.

(** ** requestVotes.go *)

Record RequestVoteArgs := mkVoteArgs {
  va_Term : Z; va_CandidateId : Z; va_LastLogIndex : Z; va_LastLogTerm : Z
}.
Record RequestVoteReply := mkVoteReply { vr_Term : Z; vr_VoteGranted : bool }.

Definition RequestVote (rf : Raft) (args : RequestVoteArgs) (now : Z) : outcome (Raft * RequestVoteReply) :=
  if va_Term args <? rf_currentTerm rf then Ok (rf, mkVoteReply (rf_currentTerm rf) false)
  else
    let rf :=
      if rf_currentTerm rf <? va_Term args
      then persistState (set_term_state rf (va_Term args) Follower (-1) (-1))
      else rf in
    let lastLogIndex := len (rf_log rf) - 1 in
    e ← index (rf_log rf) lastLogIndex;
    let logOk :=
      if le_Term e <? va_LastLogTerm args then true
      else (va_LastLogTerm args =? le_Term e) && (lastLogIndex <=? va_LastLogIndex args) in
    if ((rf_votedFor rf =? -1) || (rf_votedFor rf =? va_CandidateId args)) && logOk then
      let rf := set_term_state rf (rf_currentTerm rf) Follower (va_CandidateId args) (rf_leaderId rf) in
      let rf := set_reset (persistState rf) now in
      Ok (rf, mkVoteReply (rf_currentTerm rf) true)
    else Ok (rf, mkVoteReply (rf_currentTerm rf) false).

(** ** appendEntries.go: the follower *)

Record AppendEntriesArgs := mkAppendArgs {
  aa_Term : Z; aa_LeaderId : Z; aa_PrevLogIndex : Z; aa_PrevLogTerm : Z;
  aa_Entries : list LogEntry; aa_LeaderCommit : Z
}.
Record AppendEntriesReply := mkAppendReply {
  ar_Term : Z; ar_Success : bool; ar_ConflictIndex : Z; ar_ConflictTerm : Z
}.

(** The backwards scan for the first index of the conflicting term. *)
Fixpoint conflict_scan (log : list LogEntry) (fuel : nat) (term : Z) (found : Z) (i : Z) : Z :=
  match fuel with
  | O => found
  | S fuel' =>
      if i <? 0 then found
      else
        match index log i with
        | Ok e => if le_Term e =? term then conflict_scan log fuel' term i (i - 1) else found
        | _ => found
        end
  end.

(** One round of the merge loop. *)
Definition merge_entry (log : list LogEntry) (idx : Z) (entry : LogEntry) : outcome (list LogEntry) :=
  if idx <? len log then
    e ← index log idx;
    if negb (le_Term e =? le_Term entry)
    then l ← slice log 0 idx; Ok (l ++ [entry])
    else Ok log
  else Ok (log ++ [entry]).

Fixpoint merge_entries (log : list LogEntry) (idx : Z) (entries : list LogEntry) : outcome (list LogEntry) :=
  match entries with
  | [] => Ok log
  | e :: es => log ← merge_entry log idx e; merge_entries log (idx + 1) es
  end.

Definition AppendEntries (rf : Raft) (args : AppendEntriesArgs) (now : Z) : outcome (Raft * AppendEntriesReply) :=
  if aa_Term args <? rf_currentTerm rf
  then Ok (rf, mkAppendReply (rf_currentTerm rf) false 0 0)
  else
    let rf := set_term_state rf (aa_Term args) Follower (-1) (aa_LeaderId args) in
    let rf := persistState (set_reset rf now) in
    let lastLogIndex := len (rf_log rf) - 1 in
    if lastLogIndex <? aa_PrevLogIndex args
    then Ok (rf, mkAppendReply (rf_currentTerm rf) false (len (rf_log rf)) (-1))
    else
      e ← index (rf_log rf) (aa_PrevLogIndex args);
      if negb (le_Term e =? aa_PrevLogTerm args) then
        let ci := conflict_scan (rf_log rf) (length (rf_log rf)) (le_Term e) 0 (aa_PrevLogIndex args) in
        Ok (rf, mkAppendReply (rf_currentTerm rf) false ci (le_Term e))
      else
        log ← merge_entries (rf_log rf) (aa_PrevLogIndex args + 1) (aa_Entries args);
        let rf := set_log rf log in
        rf ← (if 0 <? len (aa_Entries args) then persist rf else Ok rf);
        let rf :=
          if rf_commitIndex rf <? aa_LeaderCommit args then
            let lastNewIndex := aa_PrevLogIndex args + len (aa_Entries args) in
            if aa_LeaderCommit args <? lastNewIndex
            then set_commit rf (aa_LeaderCommit args) true
            else set_commit rf lastNewIndex true
          else rf in
        Ok (rf, mkAppendReply (rf_currentTerm rf) true 0 0).

(** ** appendEntries.go: the leader *)

(** The body of the goroutine of [sendHeartBeats] for one peer; [term] was
    read when [sendHeartBeats] started.  [None]: no longer leader. *)
Definition append_args (rf : Raft) (term server : Z) : outcome (option AppendEntriesArgs) :=
  if negb (bool_decide (rf_state rf = Leader)) then Ok None
  else
    let nextIdx := map_get (rf_nextIndex rf) server in
    let prevLogIndex := if nextIdx - 1 <? 0 then 0 else nextIdx - 1 in
    let lastIdx := len (rf_log rf) in
    entries ← (if nextIdx <? lastIdx then
                 let endIdx := if lastIdx <? nextIdx + 100 then lastIdx else nextIdx + 100 in
                 slice (rf_log rf) nextIdx endIdx
               else Ok []);
    prevLogTerm ← (if prevLogIndex <? len (rf_log rf)
                   then e ← index (rf_log rf) prevLogIndex; Ok (le_Term e) else Ok 0);
    Ok (Some (mkAppendArgs term (rf_me rf) prevLogIndex prevLogTerm entries (rf_commitIndex rf))).

(** The peers other than this node whose [matchIndex] reaches [N], plus one. *)
Definition match_count (rf : Raft) (N : Z) : Z :=
  1 + len (filter (λ p, p ≠ rf_me rf ∧ N <= map_get (rf_matchIndex rf) p) (seqZ 0 (rf_peers rf))).

(** The commit loop, downwards from [N]; [N] stays above [commitIndex], which
    is never negative, so the index is in range. *)
Fixpoint commit_loop (rf : Raft) (fuel : nat) (N : Z) : Raft :=
  match fuel with
  | O => rf
  | S fuel' =>
      if N <=? rf_commitIndex rf then rf
      else
        match index (rf_log rf) N with
        | Ok e =>
            if (rf_peers rf / 2 <? match_count rf N) && (le_Term e =? rf_currentTerm rf)
            then set_commit rf N true
            else commit_loop rf fuel' (N - 1)
        | _ => commit_loop rf fuel' (N - 1)
        end
  end.

(** The last index of a term in the log, or -1. *)
Fixpoint last_of_term (log : list LogEntry) (fuel : nat) (term i : Z) : Z :=
  match fuel with
  | O => -1
  | S fuel' =>
      if i <? 0 then -1
      else
        match index log i with
        | Ok e => if le_Term e =? term then i else last_of_term log fuel' term (i - 1)
        | _ => -1
        end
  end.

(** The new [nextIndex] after a refusal. *)
Definition backtrack (rf : Raft) (reply : AppendEntriesReply) : Z :=
  let next :=
    if ar_ConflictTerm reply =? -1 then ar_ConflictIndex reply
    else
      let l := last_of_term (rf_log rf) (length (rf_log rf)) (ar_ConflictTerm reply) (len (rf_log rf) - 1) in
      if negb (l =? -1) then l + 1 else ar_ConflictIndex reply in
  if next <? 1 then 1 else next.

(** The reply to an AppendEntries call; neither the node's state nor its
    term is checked against those of the call. *)
Definition on_append_reply (rf : Raft) (server : Z) (args : AppendEntriesArgs) (reply : AppendEntriesReply) : Raft :=
  if rf_currentTerm rf <? ar_Term reply then set_term_state rf (ar_Term reply) Follower (-1) (-1)
  else if ar_Success reply then
    let newMatchIndex := aa_PrevLogIndex args + len (aa_Entries args) in
    let rf :=
      if map_get (rf_matchIndex rf) server <? newMatchIndex
      then set_indices rf (<[server := newMatchIndex + 1]> (rf_nextIndex rf))
             (<[server := newMatchIndex]> (rf_matchIndex rf))
      else rf in
    commit_loop rf (length (rf_log rf)) (len (rf_log rf) - 1)
  else set_indices rf (<[server := backtrack rf reply]> (rf_nextIndex rf)) (rf_matchIndex rf).

(** ** raft.go *)

(** [Start] with a byte slice. *)
Definition Start (rf : Raft) (command : bytes) : Raft * (Z * Z * bool) :=
  if negb (bool_decide (rf_state rf = Leader)) then (rf, (-1, rf_currentTerm rf, false))
  else
    let idx := len (rf_log rf) in
    let term := rf_currentTerm rf in
    (set_trigger (set_log rf (rf_log rf ++ [mkLogEntry idx term command])) true, (idx, term, true)).

(** One signal of [commitCh]: the entries sent to the store. *)
Fixpoint collect (log : list LogEntry) (fuel : nat) (lastApplied commitIndex : Z) : outcome (list LogEntry) :=
  match fuel with
  | O => Ok []
  | S fuel' =>
      if lastApplied <? commitIndex then
        e ← index log (lastApplied + 1);
        es ← collect log fuel' (lastApplied + 1) commitIndex;
        Ok (e :: es)
      else Ok []
  end.

Definition applier (rf : Raft) : outcome (Raft * list LogEntry) :=
  let rf := set_commit rf (rf_commitIndex rf) false in
  if rf_commitIndex rf <=? rf_lastApplied rf then Ok (rf, [])
  else
    es ← collect (rf_log rf) (Z.to_nat (rf_commitIndex rf - rf_lastApplied rf))
           (rf_lastApplied rf) (rf_commitIndex rf);
    Ok (set_applied rf (rf_commitIndex rf), es).

(** [startElection] up to the goroutines: the arguments of the vote requests. *)
Definition startElection (rf : Raft) (now : Z) : outcome (Raft * RequestVoteArgs) :=
  let rf := set_term_state rf (rf_currentTerm rf + 1) Candidate (rf_me rf) (rf_leaderId rf) in
  let rf := persistState (set_reset rf now) in
  let lastLogIndex := len (rf_log rf) - 1 in
  e ← index (rf_log rf) lastLogIndex;
  Ok (rf, mkVoteArgs (rf_currentTerm rf) (rf_me rf) lastLogIndex (le_Term e)).

Definition votesRequired (rf : Raft) : Z := rf_peers rf / 2 + 1.

(** The reply to a vote request of the election for [term]; [votes] is the
    election's [votesReceived].  The last component tells whether heartbeats
    are sent at once. *)
Definition on_vote_reply (rf : Raft) (term votes : Z) (reply : RequestVoteReply) : Raft * Z * bool :=
  if negb (bool_decide (rf_state rf = Candidate)) || negb (rf_currentTerm rf =? term) then (rf, votes, false)
  else if rf_currentTerm rf <? vr_Term reply
  then (persistState (set_term_state rf (vr_Term reply) Follower (-1) (-1)), votes, false)
  else if vr_VoteGranted reply then
    let votes := votes + 1 in
    if votes =? votesRequired rf then
      let rf := set_term_state rf (rf_currentTerm rf) Leader (rf_votedFor rf) (rf_me rf) in
      let peers := seqZ 0 (rf_peers rf) in
      (set_indices rf (foldl (λ m p, <[p := len (rf_log rf)]> m) (rf_nextIndex rf) peers)
         (foldl (λ m p, <[p := 0]> m) (rf_matchIndex rf) peers), votes, true)
    else (rf, votes, false)
  else (rf, votes, false).

(** The ticker's decision: heartbeats, an election, or nothing.  [timeout] is
    the drawn election timeout. *)
Inductive tick_action := TickHeartbeat | TickElection | TickNone.
Definition ticker (rf : Raft) (now timeout : Z) : tick_action :=
  if bool_decide (rf_state rf = Leader) then TickHeartbeat
  else if timeout <? now - rf_lastResetTime rf then TickElection else TickNone.

(** The replicator on a trigger: the log is persisted before it is sent. *)
Definition replicator (rf : Raft) : outcome Raft := persist (set_trigger rf false).

Arguments persist : simpl never.
Arguments replicator : simpl never.

(** * Lemmas *)

(** Persisting changes nothing but the WAL. *)
Lemma persistState_frame rf :
  let rf' := persistState rf in
  rf_currentTerm rf' = rf_currentTerm rf ∧ rf_votedFor rf' = rf_votedFor rf ∧ rf_log rf' = rf_log rf ∧
  rf_state rf' = rf_state rf ∧ rf_commitIndex rf' = rf_commitIndex rf ∧ rf_peers rf' = rf_peers rf ∧
  rf_me rf' = rf_me rf ∧ rf_lastApplied rf' = rf_lastApplied rf.
Proof. done. Qed.

(** [persist] never panics; what it leaves. *)
Definition persisted (rf : Raft) : Raft :=
  if 0 <? len (rf_log rf)
  then set_wal rf (fst (wal_AppendEntries (rf_wal rf) (map wal_entry (rf_log rf)) 0))
  else rf.
Definition replicated (rf : Raft) : Raft := persisted (set_trigger rf false).

Lemma persist_ok rf : persist rf = Ok (persisted rf).
Proof.
  unfold persist, persisted. destruct (0 <? len (rf_log rf)); [|done].
  pose proof (wal_AppendEntries_no_panic (rf_wal rf) (map wal_entry (rf_log rf))) as H.
  by destruct (wal_AppendEntries _ _ _) as [w [[]|e|]].
Qed.

Lemma replicator_ok rf : replicator rf = Ok (replicated rf).
Proof. apply persist_ok. Qed.

Lemma persist_if (b : bool) rf : (if b then persist rf else Ok rf) = Ok (if b then persisted rf else rf).
Proof. destruct b; [apply persist_ok|done]. Qed.

Lemma persist_term rf : rf_currentTerm (persisted rf) = rf_currentTerm rf.
Proof. unfold persisted. by destruct (0 <? len (rf_log rf)). Qed.
Lemma persist_state rf : rf_state (persisted rf) = rf_state rf.
Proof. unfold persisted. by destruct (0 <? len (rf_log rf)). Qed.
Lemma persist_votedFor rf : rf_votedFor (persisted rf) = rf_votedFor rf.
Proof. unfold persisted. by destruct (0 <? len (rf_log rf)). Qed.
Lemma persist_log rf : rf_log (persisted rf) = rf_log rf.
Proof. unfold persisted. by destruct (0 <? len (rf_log rf)). Qed.
Lemma persist_commitIndex rf : rf_commitIndex (persisted rf) = rf_commitIndex rf.
Proof. unfold persisted. by destruct (0 <? len (rf_log rf)). Qed.

(** What the vote handler does to term and vote. *)
Lemma RequestVote_spec rf args now rf' r :
  RequestVote rf args now = Ok (rf', r) →
  rf_currentTerm rf' = Z.max (rf_currentTerm rf) (va_Term args) ∧ vr_Term r = rf_currentTerm rf' ∧
  rf_log rf' = rf_log rf ∧ rf_peers rf' = rf_peers rf ∧ rf_me rf' = rf_me rf ∧
  (if vr_VoteGranted r
   then va_Term args = rf_currentTerm rf' ∧ rf_votedFor rf' = va_CandidateId args ∧ rf_state rf' = Follower ∧
        (rf_currentTerm rf = va_Term args → rf_votedFor rf = -1 ∨ rf_votedFor rf = va_CandidateId args)
   else if va_Term args <=? rf_currentTerm rf
        then rf_votedFor rf' = rf_votedFor rf ∧ rf_state rf' = rf_state rf
        else rf_votedFor rf' = -1 ∧ rf_state rf' = Follower).
Proof.
  unfold RequestVote. destruct (Z.ltb_spec (va_Term args) (rf_currentTerm rf)) as [Hlt|Hge].
  { intros [= <- <-]. simpl. rewrite (proj2 (Z.leb_le _ _)) by lia. repeat split; lia. }
  destruct (Z.ltb_spec (rf_currentTerm rf) (va_Term args)) as [Hgt|Hle].
  - cbv zeta. cbn [persistState set_wal set_term_state rf_log rf_votedFor rf_currentTerm].
    destruct (index _ _) as [e|e|]; cbn [mbind outcome_bind]; [|done..].
    destruct (_ && _); intros [= <- <-]; simpl; repeat split; try lia.
    rewrite (proj2 (Z.leb_gt _ _)) by lia. done.
  - cbv zeta. assert (va_Term args = rf_currentTerm rf) as Heq by lia.
    destruct (index _ _) as [e|e|]; cbn [mbind outcome_bind]; [|done..].
    destruct (((rf_votedFor rf =? -1) || (rf_votedFor rf =? va_CandidateId args)) && _) eqn:E;
      intros [= <- <-]; simpl; repeat split; try lia.
    rewrite (proj2 (Z.leb_le _ _)) by lia. done.
Qed.

(** The follower's handler on term, vote and role. *)
Lemma AppendEntries_spec rf args now rf' r :
  AppendEntries rf args now = Ok (rf', r) →
  ar_Term r = rf_currentTerm rf' ∧ rf_peers rf' = rf_peers rf ∧ rf_me rf' = rf_me rf ∧
  if aa_Term args <? rf_currentTerm rf then rf' = rf ∧ ar_Success r = false
  else rf_currentTerm rf' = aa_Term args ∧ rf_state rf' = Follower ∧ rf_votedFor rf' = -1 ∧
       rf_leaderId rf' = aa_LeaderId args.
Proof.
  unfold AppendEntries. destruct (Z.ltb_spec (aa_Term args) (rf_currentTerm rf)) as [Hlt|Hge].
  { by intros [= <- <-]. }
  cbv zeta. destruct (_ <? _); [by intros [= <- <-]|].
  destruct (index _ _) as [e|e|]; cbn [mbind outcome_bind]; [|done..].
  destruct (negb _); [by intros [= <- <-]|].
  destruct (merge_entries _ _ _) as [l|?|]; cbn [mbind outcome_bind]; [|done..].
  rewrite persist_if. cbn [mbind outcome_bind]. unfold persisted. intros H.
  destruct (0 <? len (aa_Entries args)); cbn [rf_log set_log] in H;
    try destruct (0 <? len l); destruct (_ <? aa_LeaderCommit args);
    try destruct (aa_LeaderCommit args <? _); by injection H as <- <-.
Qed.

Lemma commit_loop_frame rf fuel N :
  let rf' := commit_loop rf fuel N in
  rf_currentTerm rf' = rf_currentTerm rf ∧ rf_state rf' = rf_state rf ∧ rf_votedFor rf' = rf_votedFor rf ∧
  rf_log rf' = rf_log rf ∧ rf_peers rf' = rf_peers rf ∧ rf_me rf' = rf_me rf ∧
  rf_matchIndex rf' = rf_matchIndex rf ∧ rf_nextIndex rf' = rf_nextIndex rf.
Proof.
  revert N. induction fuel as [|fuel IH]; intros N; [done|]. cbn [commit_loop].
  destruct (N <=? rf_commitIndex rf); [done|]. destruct (index _ _); [|apply IH..].
  destruct (_ && _); [done|apply IH].
Qed.

Lemma on_append_reply_term rf server args reply :
  rf_currentTerm (on_append_reply rf server args reply) = Z.max (rf_currentTerm rf) (ar_Term reply) ∨
  rf_currentTerm (on_append_reply rf server args reply) = rf_currentTerm rf ∧ ar_Term reply <= rf_currentTerm rf.
Proof.
  unfold on_append_reply. destruct (Z.ltb_spec (rf_currentTerm rf) (ar_Term reply)); [left; simpl; lia|right].
  split; [|done]. destruct (ar_Success reply); [|done].
  by destruct (_ <? _); rewrite (proj1 (commit_loop_frame _ _ _)).
Qed.

Lemma on_vote_reply_spec rf term votes reply rf' votes' hb :
  on_vote_reply rf term votes reply = (rf', votes', hb) →
  rf_peers rf' = rf_peers rf ∧ rf_me rf' = rf_me rf ∧ rf_currentTerm rf <= rf_currentTerm rf' ∧
  (rf_state rf' = Leader → rf_state rf = Leader ∧ rf' = rf ∧ votes' = votes ∨
     rf_state rf = Candidate ∧ rf_currentTerm rf = term ∧ rf_currentTerm rf' = term ∧
     vr_VoteGranted reply = true ∧ votes' = votes + 1 ∧ votes' = votesRequired rf) ∧
  (votes' = votes ∨ votes' = votes + 1 ∧ vr_VoteGranted reply = true ∧ rf_currentTerm rf = term) ∧
  (rf_currentTerm rf' = rf_currentTerm rf → rf_votedFor rf' = rf_votedFor rf).
Proof.
  unfold on_vote_reply. destruct (bool_decide_reflect (rf_state rf = Candidate)) as [Hs|Hs]; cbn [negb orb].
  2: { intros [= <- <- <-]. split_and!; auto; lia. }
  destruct (Z.eqb_spec (rf_currentTerm rf) term) as [Ht|Ht]; cbn [negb].
  2: { intros [= <- <- <-]. split_and!; auto; lia. }
  destruct (Z.ltb_spec (rf_currentTerm rf) (vr_Term reply)) as [Hlt|Hge].
  { intros [= <- <- <-]. simpl. split_and!; auto; lia || done. }
  destruct (vr_VoteGranted reply); [|intros [= <- <- <-]; split_and!; auto; lia].
  destruct (Z.eqb_spec (votes + 1) (votesRequired rf)); intros [= <- <- <-]; simpl;
    split_and!; auto; try lia; [intros _; right; by auto|congruence].
Qed.

(** ** The merge of the follower's log *)

(** The exact result: the first [k] new entries are already there, by term;
    from there on the log is cut and the remaining entries are appended. *)
Lemma merge_entries_spec log idx es :
  0 <= idx <= len log →
  ∃ log' k, merge_entries log idx es = Ok log' ∧ (k <= length es)%nat ∧
    (∀ j e, (j < k)%nat → es !! j = Some e →
       ∃ e', log !! (Z.to_nat idx + j)%nat = Some e' ∧ le_Term e' = le_Term e) ∧
    (k = length es ∧ log' = log ∨
     (k < length es)%nat ∧ log' = take (Z.to_nat idx + k) log ++ drop k es ∧
     (Z.to_nat idx + k <= length log)%nat ∧
     (∀ e e', es !! k = Some e → log !! (Z.to_nat idx + k)%nat = Some e' → le_Term e' ≠ le_Term e)).
Proof.
  revert log idx. induction es as [|e es IH]; intros log idx Hidx.
  { exists log, 0%nat. split_and!; [done|done|intros j x Hj; lia|by left]. }
  assert (∀ pre, len pre = idx →
    merge_entries (pre ++ [e]) (idx + 1) es = Ok (pre ++ e :: es)) as Happ.
  { clear Hidx IH. revert idx e. induction es as [|e1 es IH]; intros idx e pre Hpre; [done|].
    cbn [merge_entries]. unfold merge_entry. rewrite (proj2 (Z.ltb_ge _ _)) by len_lia.
    cbn [mbind outcome_bind]. rewrite IH by len_lia. by rewrite <-app_assoc. }
  cbn [merge_entries]. unfold merge_entry at 1. destruct (Z.ltb_spec idx (len log)) as [Hlt|Hge].
  - destruct (lookup_lt_is_Some_2 log (Z.to_nat idx)) as [e0 He0]; [unfold len in *; lia|].
    rewrite (proj2 (index_lookup log idx e0 ltac:(lia)) He0). cbn [mbind outcome_bind].
    destruct (Z.eqb_spec (le_Term e0) (le_Term e)) as [Heq|Hne]; cbn [negb].
    + cbn [mbind outcome_bind]. destruct (IH log (idx + 1) ltac:(lia)) as (log' & k & Hm & Hk & Hag & Hr).
      replace (Z.to_nat (idx + 1)) with (S (Z.to_nat idx)) in * by lia.
      exists log', (S k). split; [done|]. split; [simpl; lia|]. split.
      * intros [|j] x Hj Hx; simpl in Hx; [injection Hx as <-; exists e0; by rewrite Nat.add_0_r|].
        rewrite <-Nat.add_succ_comm. apply Hag; [lia|done].
      * rewrite <-Nat.add_succ_comm. destruct Hr as [[-> ->]|(H1 & H2 & H3 & H4)]; [by left|right].
        simpl. split_and!; [lia|done|done|done].
    + assert (slice log 0 idx = Ok (take (Z.to_nat idx) log)) as ->.
      { rewrite slice_ok by lia. by rewrite Z.sub_0_r. }
      cbn [mbind outcome_bind]. rewrite Happ by (rewrite len_take; lia).
      exists (take (Z.to_nat idx) log ++ e :: es), 0%nat. rewrite Nat.add_0_r.
      split_and!; [done|lia|intros; lia|right]. simpl. split_and!; [lia|done|unfold len in *; lia|].
      intros x x' [= <-] Hx'. rewrite He0 in Hx'. by injection Hx' as <-.
  - cbn [mbind outcome_bind]. assert (idx = len log) as -> by lia. rewrite Happ by done.
    exists (log ++ e :: es), 0%nat. rewrite to_nat_len, Nat.add_0_r, take_ge by lia.
    split_and!; [done|lia|intros; lia|right]. simpl. split_and!; [lia|done|lia|].
    intros x x' _ Hx'. apply lookup_lt_Some in Hx'. lia.
Qed.

(** Every entry sent is there afterwards, by term. *)
Lemma merge_entries_covers log idx es log' j e :
  0 <= idx <= len log → merge_entries log idx es = Ok log' → es !! j = Some e →
  ∃ e', log' !! (Z.to_nat idx + j)%nat = Some e' ∧ le_Term e' = le_Term e.
Proof.
  intros Hidx Hm Hj. destruct (merge_entries_spec log idx es Hidx) as (l & k & Hm' & Hk & Hag & Hr).
  assert (l = log') as -> by congruence. destruct Hr as [[Hkl ->]|(Hkl & -> & Hle & _)].
  - apply Hag; [|done]. apply lookup_lt_Some in Hj. lia.
  - destruct (decide (j < k)%nat) as [Hjk|Hjk].
    + destruct (Hag j e Hjk Hj) as (e' & He' & Ht). exists e'. split; [|done].
      rewrite lookup_app_l by (rewrite length_take; lia). rewrite lookup_take_lt; [done|lia].
    + exists e. split; [|done]. rewrite lookup_app_r by (rewrite length_take; lia).
      rewrite length_take, Nat.min_l by lia. rewrite lookup_drop.
      by replace (k + (Z.to_nat idx + j - (Z.to_nat idx + k)))%nat with j by lia.
Qed.

(** Merging the same entries again changes nothing. *)
Lemma merge_entries_idem log idx es log' :
  0 <= idx <= len log → merge_entries log idx es = Ok log' → merge_entries log' idx es = Ok log'.
Proof.
  intros Hidx Hm. pose proof (λ j e, merge_entries_covers log idx es log' j e Hidx Hm) as Hall.
  clear -Hall Hidx. assert (0 <= idx) as H0 by lia. clear Hidx. revert idx H0 Hall.
  induction es as [|e es IH]; intros idx H0 Hall; [done|]. cbn [merge_entries]. unfold merge_entry.
  destruct (Hall 0%nat e eq_refl) as (e' & He' & Ht). rewrite Nat.add_0_r in He'.
  pose proof (lookup_lt_Some _ _ _ He') as Hl. rewrite (proj2 (Z.ltb_lt _ _)) by (unfold len; lia).
  rewrite (proj2 (index_lookup log' idx e' H0) He'). cbn [mbind outcome_bind].
  rewrite Ht, Z.eqb_refl. cbn [negb mbind outcome_bind]. apply IH; [lia|].
  intros j x Hj. destruct (Hall (S j) x Hj) as (x' & Hx' & Htx). exists x'.
  replace (Z.to_nat (idx + 1) + j)%nat with (Z.to_nat idx + S j)%nat by lia. done.
Qed.

(** ** The scans *)

(** The scan stops at the start of the run of the term. *)
Lemma conflict_scan_run log fuel term i :
  (Z.to_nat (i + 1) <= fuel)%nat → i < len log → -1 <= i →
  let c := conflict_scan log fuel term (i + 1) i in
  0 <= c <= i + 1 ∧
  (∀ j, c <= j <= i → ∃ e, log !! Z.to_nat j = Some e ∧ le_Term e = term) ∧
  (0 < c → ∀ e, log !! Z.to_nat (c - 1) = Some e → le_Term e ≠ term).
Proof.
  revert i. induction fuel as [|fuel IH]; intros i Hf Hi Hm; cbn [conflict_scan].
  { split; [lia|]. split; lia. }
  destruct (Z.ltb_spec i 0) as [Hneg|Hpos]; [split; [lia|]; split; lia|].
  destruct (lookup_lt_is_Some_2 log (Z.to_nat i)) as [e He]; [unfold len in *; lia|].
  rewrite (proj2 (index_lookup log i e Hpos) He).
  destruct (Z.eqb_spec (le_Term e) term) as [Heq|Hne].
  - specialize (IH (i - 1) ltac:(lia) ltac:(lia) ltac:(lia)). cbv zeta in IH.
    replace (i - 1 + 1) with i in IH by lia. destruct IH as (H1 & H2 & H3).
    split; [lia|]. split; [|done].
    intros j Hj. destruct (decide (j = i)) as [->|]; [by exists e|]. apply H2. lia.
  - split; [lia|]. split; [lia|].
    intros _ x Hx. replace (i + 1 - 1) with i in Hx by lia. congruence.
Qed.

(** The conflict index of a refusal: the first index of the run of the
    conflicting term that contains [PrevLogIndex]. *)
Lemma conflict_scan_spec log prev e :
  0 <= prev → log !! Z.to_nat prev = Some e →
  let c := conflict_scan log (length log) (le_Term e) 0 prev in
  0 <= c <= prev ∧
  (∀ j, c <= j <= prev → ∃ x, log !! Z.to_nat j = Some x ∧ le_Term x = le_Term e) ∧
  (0 < c → ∀ x, log !! Z.to_nat (c - 1) = Some x → le_Term x ≠ le_Term e).
Proof.
  intros Hp He. pose proof (lookup_lt_Some _ _ _ He) as Hl.
  destruct (length log) as [|n] eqn:En; [lia|]. cbn [conflict_scan].
  rewrite (proj2 (Z.ltb_ge _ _)) by lia. rewrite (proj2 (index_lookup log prev e Hp) He), Z.eqb_refl.
  pose proof (conflict_scan_run log n (le_Term e) (prev - 1) ltac:(lia) ltac:(unfold len; lia) ltac:(lia)) as H.
  cbv zeta in H. replace (prev - 1 + 1) with prev in H by lia. destruct H as (H1 & H2 & H3).
  split; [lia|]. split; [|done]. intros j Hj. destruct (decide (j = prev)) as [->|]; [by exists e|].
  apply H2. lia.
Qed.

Lemma last_of_term_spec log fuel term i :
  (Z.to_nat (i + 1) <= fuel)%nat → i < len log →
  let l := last_of_term log fuel term i in
  (l = -1 ∧ (∀ j e, 0 <= j <= i → log !! Z.to_nat j = Some e → le_Term e ≠ term)) ∨
  (0 <= l <= i ∧ (∃ e, log !! Z.to_nat l = Some e ∧ le_Term e = term) ∧
   ∀ j e, l < j <= i → log !! Z.to_nat j = Some e → le_Term e ≠ term).
Proof.
  revert i. induction fuel as [|fuel IH]; intros i Hf Hi; simpl; [left; split; [done|lia]|].
  destruct (Z.ltb_spec i 0) as [Hneg|Hpos]; [left; split; [done|lia]|].
  destruct (lookup_lt_is_Some_2 log (Z.to_nat i)) as [e He]; [unfold len in *; lia|].
  rewrite (proj2 (index_lookup log i e Hpos) He).
  destruct (Z.eqb_spec (le_Term e) term) as [Heq|Hne].
  - right. split; [lia|]. split; [by exists e|]. lia.
  - destruct (IH (i - 1)) as [[-> H]|(H1 & H2 & H3)]; [lia|lia| |].
    + left. split; [done|]. intros j x Hj Hx. destruct (decide (j = i)) as [->|]; [congruence|].
      apply (H j x); [lia|done].
    + right. split; [lia|]. split; [done|]. intros j x Hj Hx.
      destruct (decide (j = i)) as [->|]; [congruence|]. apply (H3 j x); [lia|done].
Qed.

(** The commit loop finds the greatest committable index above [commitIndex]. *)
Definition committable (rf : Raft) (N : Z) : Prop :=
  rf_commitIndex rf < N ∧ rf_peers rf / 2 < match_count rf N ∧
  ∃ e, rf_log rf !! Z.to_nat N = Some e ∧ le_Term e = rf_currentTerm rf.

Lemma commit_loop_spec rf fuel N :
  0 <= rf_commitIndex rf → N < len (rf_log rf) → (Z.to_nat (N - rf_commitIndex rf) <= fuel)%nat →
  let rf' := commit_loop rf fuel N in
  (rf_commitIndex rf' = rf_commitIndex rf ∧ ∀ M, M <= N → ¬ committable rf M) ∨
  (committable rf (rf_commitIndex rf') ∧ rf_commitIndex rf' <= N ∧ rf_commitCh rf' = true ∧
   ∀ M, rf_commitIndex rf' < M <= N → ¬ committable rf M).
Proof.
  intros H0. revert N. induction fuel as [|fuel IH]; intros N HN Hf; cbn [commit_loop].
  { left. split; [done|]. intros M HM (Hc & _). lia. }
  destruct (Z.leb_spec N (rf_commitIndex rf)) as [Hle|Hgt].
  { left. split; [done|]. intros M HM (Hc & _). lia. }
  destruct (lookup_lt_is_Some_2 (rf_log rf) (Z.to_nat N)) as [e He]; [unfold len in *; lia|].
  rewrite (proj2 (index_lookup (rf_log rf) N e ltac:(lia)) He).
  destruct ((rf_peers rf / 2 <? match_count rf N) && (le_Term e =? rf_currentTerm rf)) eqn:Eb.
  - apply andb_true_iff in Eb as [Hm%Z.ltb_lt Ht%Z.eqb_eq]. right. simpl.
    split; [split; [lia|]; split; [done|]; by exists e|]. split; [lia|]. split; [done|]. lia.
  - assert (¬ committable rf N) as Hn.
    { intros (_ & Hm & x & Hx & Ht). rewrite He in Hx. injection Hx as <-.
      apply andb_false_iff in Eb as [?%Z.ltb_ge|?%Z.eqb_neq]; [lia|congruence]. }
    destruct (IH (N - 1) ltac:(lia) ltac:(lia)) as [[H1 H2]|(H1 & H2 & H3 & H4)]; [left|right].
    + split; [done|]. intros M HM. destruct (decide (M = N)) as [->|]; [done|]. apply H2. lia.
    + split; [done|]. split; [lia|]. split; [done|]. intros M HM.
      destruct (decide (M = N)) as [->|]; [done|]. apply H4. lia.
Qed.

(** ** The applier *)

Lemma collect_spec log fuel a c :
  0 <= a → c < len log → fuel = Z.to_nat (c - a) →
  collect log fuel a c = Ok (take (Z.to_nat (c - a)) (drop (Z.to_nat (a + 1)) log)).
Proof.
  revert a. induction fuel as [|fuel IH]; intros a Ha Hc Hf; cbn [collect].
  { by rewrite <-Hf. }
  rewrite (proj2 (Z.ltb_lt _ _)) by lia.
  destruct (lookup_lt_is_Some_2 log (Z.to_nat (a + 1))) as [e He]; [unfold len in *; lia|].
  rewrite (proj2 (index_lookup log (a + 1) e ltac:(lia)) He). cbn [mbind outcome_bind].
  rewrite IH by lia. cbn [mbind outcome_bind]. rewrite <-Hf.
  rewrite (drop_S log e (Z.to_nat (a + 1)) He). cbn [take].
  replace (Z.to_nat (c - (a + 1))) with fuel by lia.
  by replace (Z.to_nat (a + 1 + 1)) with (S (Z.to_nat (a + 1))) by lia.
Qed.
