(* ===== verification/RaftNode.v ===== *)
(** * Properties of one Raft node

    Voting, log replication, commitment, application and restart of a single
    node, from the handlers of Raft.v. *)

From stdpp Require Import base list gmap.
From Stdlib Require Import ZArith Lia.
From S2P Require Import Prelude RaftWal Raft.

(** ** Voting *)

(** A run of vote requests and the replies given. *)
Fixpoint serve_votes (rf : Raft) (reqs : list (RequestVoteArgs * Z))
  : outcome (Raft * list (RequestVoteArgs * RequestVoteReply)) :=
  match reqs with
  | [] => Ok (rf, [])
  | (args, now) :: reqs' =>
      x ← RequestVote rf args now;
      let '(rf, reply) := x in
      y ← serve_votes rf reqs';
      let '(rf, out) := y in
      Ok (rf, (args, reply) :: out)
  end.

(** The vote of term [t] went to [c]. *)
Definition voted (t c : Z) (rf : Raft) : Prop :=
  t <= rf_currentTerm rf ∧ (rf_currentTerm rf = t → rf_votedFor rf = c).

Lemma voted_RequestVote t c rf args now rf' r :
  voted t c rf → c ≠ -1 → RequestVote rf args now = Ok (rf', r) →
  voted t c rf' ∧ (vr_VoteGranted r = true → vr_Term r = t → va_CandidateId args = c).
Proof.
  intros [Ht Hc] Hne Hr. apply RequestVote_spec in Hr as (H1 & H2 & _ & _ & _ & H3). unfold voted.
  destruct (vr_VoteGranted r).
  - destruct H3 as (H3 & H4 & _ & H5).
    assert (rf_currentTerm rf' = t → va_CandidateId args = c) as Hcand.
    { intros Heq. assert (rf_currentTerm rf = t) as Heq' by lia. specialize (Hc Heq').
      destruct H5 as [H5|H5]; [lia|congruence|congruence]. }
    split; [split; [lia|]|intros _ Hrt; apply Hcand; congruence].
    intros Heq. rewrite H4. by apply Hcand.
  - split; [|done]. split; [lia|]. intros Heq.
    destruct (Z.leb_spec (va_Term args) (rf_currentTerm rf)); destruct H3 as [-> _]; [apply Hc; lia|lia].
Qed.

Lemma voted_serve t c rf reqs rf' out a r :
  voted t c rf → c ≠ -1 → serve_votes rf reqs = Ok (rf', out) → (a, r) ∈ out →
  vr_VoteGranted r = true → vr_Term r = t → va_CandidateId a = c.
Proof.
  intros Hv Hne. revert rf out Hv. induction reqs as [|[args now] reqs IH]; intros rf out Hv Hs Hin Hg Ht.
  { simpl in Hs. injection Hs as <- <-. by apply not_elem_of_nil in Hin. }
  simpl in Hs. destruct (RequestVote rf args now) as [[rf1 r1]|e|] eqn:E; [|done..].
  cbn [mbind outcome_bind] in Hs.
  destruct (voted_RequestVote t c rf args now rf1 r1 Hv Hne E) as [Hv1 Hc1].
  destruct (serve_votes rf1 reqs) as [[rf2 out']|e|] eqn:E2; [|done..].
  cbn [mbind outcome_bind] in Hs. injection Hs as <- <-.
  apply elem_of_cons in Hin as [[= -> ->]|Hin]; [by apply Hc1|]. by eapply IH.
Qed.

(** One vote per term: over any run of vote requests served by a node,
    two granted votes of the same term went to the same candidate (candidate
    numbers are not negative). *)
Theorem one_vote_per_term rf reqs rf' out i j a r a' r' :
  serve_votes rf reqs = Ok (rf', out) → Forall (λ q, 0 <= va_CandidateId q.1) reqs →
  out !! i = Some (a, r) → out !! j = Some (a', r') →
  vr_VoteGranted r = true → vr_VoteGranted r' = true → vr_Term r = vr_Term r' →
  va_CandidateId a = va_CandidateId a'.
Proof.
  revert rf out i j a r a' r'.
  assert (∀ rf out i j a r a' r', (i <= j)%nat →
    serve_votes rf reqs = Ok (rf', out) → Forall (λ q, 0 <= va_CandidateId q.1) reqs →
    out !! i = Some (a, r) → out !! j = Some (a', r') →
    vr_VoteGranted r = true → vr_VoteGranted r' = true → vr_Term r = vr_Term r' →
    va_CandidateId a' = va_CandidateId a) as H.
  { induction reqs as [|[args now] reqs IH]; intros rf out i j a r a' r' Hij Hs Hf Hi Hj Hg Hg' Ht.
    { simpl in Hs. injection Hs as <- <-. done. }
    simpl in Hs. destruct (RequestVote rf args now) as [[rf1 r1]|e|] eqn:E; [|done..].
    cbn [mbind outcome_bind] in Hs. destruct (serve_votes rf1 reqs) as [[rf2 out']|e|] eqn:E2; [|done..].
    cbn [mbind outcome_bind] in Hs. injection Hs as <- <-. apply Forall_cons in Hf as [Hf1 Hf].
    destruct i as [|i], j as [|j]; [congruence| |lia|by eapply (IH rf1 out' i j a r a' r'); [lia|..]].
    simpl in Hi, Hj, Hf1. injection Hi as -> ->.
    apply RequestVote_spec in E as (H1 & H2 & _ & _ & _ & H3). rewrite Hg in H3.
    destruct H3 as (H3 & H4 & _). eapply (voted_serve (vr_Term r) (va_CandidateId a) rf1); [|lia|done| |done|done].
    - split; [lia|done].
    - by eapply list_elem_of_lookup_2. }
  intros rf out i j a r a' r' Hs Hf Hi Hj Hg Hg' Ht.
  destruct (Nat.le_ge_cases i j); [symmetry|]; eapply (H rf out); eauto.
Qed.

(** A fresh node of a three-node cluster. *)
Definition node (me : Z) : Raft := Make 3 me [] 0.
Definition vote_from (c t : Z) : RequestVoteArgs := mkVoteArgs t c 0 0.

Lemma one_vote_per_term_witness :
  ∃ rf' out, serve_votes (node 2) [(vote_from 0 1, 5); (vote_from 1 1, 6); (vote_from 0 1, 7)] = Ok (rf', out) ∧
    map (λ x, vr_VoteGranted x.2) out = [true; false; true] ∧
    va_CandidateId (vote_from 0 1) = va_CandidateId (vote_from 0 1).
Proof.
  eexists _, _. split; [vm_compute; reflexivity|]. split; [reflexivity|].
  eapply (one_vote_per_term (node 2) [(vote_from 0 1, 5); (vote_from 1 1, 6); (vote_from 0 1, 7)] _ _ 0 2).
  - vm_compute. reflexivity.
  - repeat (apply Forall_cons_2; [vm_compute; discriminate|]). apply Forall_nil_2.
  - reflexivity.
  - reflexivity.
  - reflexivity.
  - reflexivity.
  - reflexivity.
Defined.

(** AppendEntries forgets the vote: after any AppendEntries of the
    current term, whoever the node voted for in that term before, it grants
    its vote of the same term to every candidate whose log is up to date. *)
Theorem append_entries_reopens_vote rf args now rf1 r1 vargs now' e :
  AppendEntries rf args now = Ok (rf1, r1) → aa_Term args = rf_currentTerm rf →
  va_Term vargs = rf_currentTerm rf → last (rf_log rf1) = Some e →
  le_Term e < va_LastLogTerm vargs ∨
    le_Term e = va_LastLogTerm vargs ∧ len (rf_log rf1) - 1 <= va_LastLogIndex vargs →
  ∃ rf2, RequestVote rf1 vargs now' = Ok (rf2, mkVoteReply (rf_currentTerm rf) true) ∧
    rf_votedFor rf2 = va_CandidateId vargs.
Proof.
  intros Ha Ht Hv Hlast Hok. apply AppendEntries_spec in Ha as (_ & _ & _ & Ha).
  rewrite Ht, Z.ltb_irrefl in Ha. destruct Ha as (H1 & _ & H2 & _).
  unfold RequestVote. rewrite H1, Hv, Z.ltb_irrefl. cbv zeta.
  assert (index (rf_log rf1) (len (rf_log rf1) - 1) = Ok e) as ->.
  { rewrite last_lookup in Hlast. pose proof (lookup_lt_Some _ _ _ Hlast).
    apply index_lookup; [unfold len; lia|]. rewrite <-Hlast. f_equal. unfold len. lia. }
  cbn [mbind outcome_bind]. rewrite H2, Z.eqb_refl. cbn [orb andb].
  assert ((if le_Term e <? va_LastLogTerm vargs then true
           else (va_LastLogTerm vargs =? le_Term e) && (len (rf_log rf1) - 1 <=? va_LastLogIndex vargs)) = true) as ->.
  { destruct Hok as [Hlt|[Heq Hle]]; [by rewrite (proj2 (Z.ltb_lt _ _))|].
    rewrite Heq, Z.ltb_irrefl, Z.eqb_refl. by apply Z.leb_le. }
  rewrite <-H1. by eexists.
Qed.

Lemma append_entries_reopens_vote_witness :
  ∃ rf0 rf1 r1 rf2,
    RequestVote (node 2) (vote_from 0 1) 5 = Ok (rf0, mkVoteReply 1 true) ∧
    AppendEntries rf0 (mkAppendArgs 1 0 0 0 [] 0) 6 = Ok (rf1, r1) ∧
    RequestVote rf1 (vote_from 1 1) 7 = Ok (rf2, mkVoteReply 1 true) ∧ rf_votedFor rf2 = 1.
Proof.
  eexists _, _, _. destruct (append_entries_reopens_vote
    (match RequestVote (node 2) (vote_from 0 1) 5 with Ok x => fst x | _ => node 2 end)
    (mkAppendArgs 1 0 0 0 [] 0) 6 _ _ (vote_from 1 1) 7 (mkLogEntry 0 0 [])
    ltac:(vm_compute; reflexivity) ltac:(vm_compute; reflexivity) ltac:(vm_compute; reflexivity)
    ltac:(vm_compute; reflexivity) ltac:(right; vm_compute; split; [reflexivity|discriminate])) as (rf2 & H1 & H2).
  exists rf2. split; [vm_compute; reflexivity|]. split; [vm_compute; reflexivity|]. split; [exact H1|exact H2].
Defined.

(** ** Log replication *)

(** What a successful AppendEntries does, step by step. *)
Lemma AppendEntries_success rf args now rf' r :
  AppendEntries rf args now = Ok (rf', r) → ar_Success r = true →
  0 <= aa_PrevLogIndex args < len (rf_log rf) ∧
  (∃ e, rf_log rf !! Z.to_nat (aa_PrevLogIndex args) = Some e ∧ le_Term e = aa_PrevLogTerm args) ∧
  merge_entries (rf_log rf) (aa_PrevLogIndex args + 1) (aa_Entries args) = Ok (rf_log rf') ∧
  rf_commitIndex rf' =
    if rf_commitIndex rf <? aa_LeaderCommit args
    then Z.min (aa_LeaderCommit args) (aa_PrevLogIndex args + len (aa_Entries args))
    else rf_commitIndex rf.
Proof.
  unfold AppendEntries. destruct (_ <? rf_currentTerm rf); [by intros [= <- <-]|]. cbv zeta.
  change (rf_log (persistState _)) with (rf_log rf).
  destruct (Z.ltb_spec (len (rf_log rf) - 1) (aa_PrevLogIndex args)) as [|Hprev]; [by intros [= <- <-]|].
  unfold index. destruct (Z.leb_spec 0 (aa_PrevLogIndex args)) as [Hp|]; [|done].
  destruct (rf_log rf !! Z.to_nat (aa_PrevLogIndex args)) as [e|] eqn:He; [|done]. cbn [mbind outcome_bind].
  destruct (Z.eqb_spec (le_Term e) (aa_PrevLogTerm args)) as [Ht|]; cbn [negb]; [|by intros [= <- <-]].
  destruct (merge_entries _ _ _) as [l|?|]; cbn [mbind outcome_bind]; [|done..].
  rewrite persist_if. cbn [mbind outcome_bind]. intros H _.
  split; [lia|]. split; [by exists e|]. revert H.
  set (rf1 := if 0 <? len (aa_Entries args) then persisted _ else _).
  assert (rf_log rf1 = l ∧ rf_commitIndex rf1 = rf_commitIndex rf) as [Hl Hc]
    by (unfold rf1; destruct (0 <? len (aa_Entries args)); rewrite ?persist_log, ?persist_commitIndex; done).
  rewrite Hc. clearbody rf1. destruct (rf_commitIndex rf <? aa_LeaderCommit args).
  - destruct (Z.ltb_spec (aa_LeaderCommit args) (aa_PrevLogIndex args + len (aa_Entries args)));
      intros [= <- _]; simpl; rewrite Hl; split; [done|lia|done|lia].
  - intros [= <- _]. by rewrite Hl.
Qed.



(** A refused AppendEntries moves the leader back: when the leader's log
    holds no entry of the conflicting term at or after [PrevLogIndex], the
    next index it computes from the refusal is at least 1 and at most
    [PrevLogIndex], so it is strictly smaller than the one it sent from. *)
Theorem refusal_moves_next_back leader term server args f now f' r :
  append_args leader term server = Ok (Some args) → 1 <= map_get (rf_nextIndex leader) server →
  AppendEntries f args now = Ok (f', r) → ar_Success r = false → aa_Term args = rf_currentTerm f' →
  1 <= aa_PrevLogIndex args →
  (∀ j e, aa_PrevLogIndex args <= j → rf_log leader !! Z.to_nat j = Some e → le_Term e ≠ ar_ConflictTerm r) →
  1 <= backtrack leader r <= aa_PrevLogIndex args ∧
  backtrack leader r < map_get (rf_nextIndex leader) server.
Proof.
  intros Hargs Hnext Ha Hs Hterm Hp Hno.
  assert (aa_PrevLogIndex args < map_get (rf_nextIndex leader) server) as Hprev.
  { revert Hargs. unfold append_args. destruct (negb _); [done|]. cbv zeta.
    destruct (Z.ltb_spec (map_get (rf_nextIndex leader) server - 1) 0) as [|H1];
      unfold mbind, outcome_bind; repeat case_match; intros; simplify_eq/=; lia. }
  assert (ar_ConflictIndex r <= aa_PrevLogIndex args) as Hci.
  { revert Ha Hs Hterm. unfold AppendEntries.
    destruct (Z.ltb_spec (aa_Term args) (rf_currentTerm f)); [intros [= <- <-]; simpl; lia|]. cbv zeta.
    change (rf_log (persistState _)) with (rf_log f).
    destruct (Z.ltb_spec (len (rf_log f) - 1) (aa_PrevLogIndex args)) as [|Hle]; [intros [= <- <-]; simpl; lia|].
    unfold index. destruct (Z.leb_spec 0 (aa_PrevLogIndex args)) as [H0|]; [|done].
    destruct (rf_log f !! Z.to_nat (aa_PrevLogIndex args)) as [e|] eqn:He; [|done]. cbn [mbind outcome_bind].
    destruct (negb _).
    - intros [= <- <-] _ _. cbn [ar_ConflictIndex]. by destruct (conflict_scan_spec (rf_log f) _ e H0 He) as [? _]; lia.
    - destruct (merge_entries _ _ _); cbn [mbind outcome_bind]; [|done..]. rewrite persist_if. cbn [mbind outcome_bind]. intros [= <- <-]. done. }
  assert (backtrack leader r <= aa_PrevLogIndex args ∧ 1 <= backtrack leader r) as [? ?]; [|lia].
  unfold backtrack. destruct (ar_ConflictTerm r =? -1); [destruct (Z.ltb_spec (ar_ConflictIndex r) 1); lia|].
  destruct (last_of_term_spec (rf_log leader) (length (rf_log leader)) (ar_ConflictTerm r) (len (rf_log leader) - 1))
    as [[Hl _]|(Hl & (e & He & Ht) & _)]; [unfold len; lia|lia| |]; cbv zeta in Hl.
  - rewrite Hl. cbn. destruct (Z.ltb_spec (ar_ConflictIndex r) 1); lia.
  - cbv zeta in He. set (l := last_of_term _ _ _ _) in *.
    rewrite (proj2 (Z.eqb_neq l (-1))) by lia. cbn [negb].
    assert (l < aa_PrevLogIndex args).
    { destruct (Z_lt_le_dec l (aa_PrevLogIndex args)) as [|Hge]; [done|]. by destruct (Hno l e Hge He). }
    rewrite (proj2 (Z.ltb_ge _ _)) by lia. lia.
Qed.

(** A leader and a follower whose logs differ from index 2 on. *)
Definition demo_leader : Raft :=
  mkRaft 3 0 0 false false 2 0 [mkLogEntry 0 0 []; mkLogEntry 1 1 []; mkLogEntry 2 2 []]
    (createOrOpenRaftWAL [] []) 0 0 {[1 := 3]} ∅ Leader 0.
Definition demo_follower : Raft :=
  set_log (node 1) [mkLogEntry 0 0 []; mkLogEntry 1 1 []; mkLogEntry 2 1 []].

Lemma refusal_moves_next_back_witness :
  ∃ args f' r, append_args demo_leader 2 1 = Ok (Some args) ∧
    AppendEntries demo_follower args 6 = Ok (f', r) ∧ ar_Success r = false ∧
    1 <= backtrack demo_leader r <= 2 ∧ backtrack demo_leader r < 3.
Proof.
  eexists _, _, _. split; [vm_compute; reflexivity|]. split; [vm_compute; reflexivity|].
  split; [reflexivity|].
  apply (refusal_moves_next_back demo_leader 2 1 (mkAppendArgs 2 0 2 2 [] 0) demo_follower 6
    (match AppendEntries demo_follower (mkAppendArgs 2 0 2 2 [] 0) 6 with Ok x => fst x | _ => demo_follower end)
    (mkAppendReply 2 false 1 1)).
  - vm_compute. reflexivity.
  - vm_compute. discriminate.
  - vm_compute. reflexivity.
  - reflexivity.
  - vm_compute. reflexivity.
  - vm_compute. discriminate.
  - intros j e Hj He Ht. simpl in Hj, Ht.
    destruct (Z.to_nat j) as [|[|[|n]]] eqn:En; simpl in He; simplify_eq/=; try lia.
Defined.

(** ** Commitment *)



(** Application: a signal to the applier sends the entries after
    [lastApplied] up to [commitIndex] to the store, each once and in log
    order, and [lastApplied] becomes the commit index; when nothing new is
    committed it sends nothing. *)
Theorem applier_in_order rf :
  0 <= rf_lastApplied rf → rf_commitIndex rf < len (rf_log rf) →
  ∃ rf' es, applier rf = Ok (rf', es) ∧ rf_lastApplied rf' = Z.max (rf_lastApplied rf) (rf_commitIndex rf) ∧
    rf_log rf' = rf_log rf ∧ rf_commitIndex rf' = rf_commitIndex rf ∧
    es = take (Z.to_nat (rf_commitIndex rf - rf_lastApplied rf))
           (drop (Z.to_nat (rf_lastApplied rf + 1)) (rf_log rf)) ∧
    len es = Z.max 0 (rf_commitIndex rf - rf_lastApplied rf).
Proof.
  intros Ha Hc. unfold applier. cbn [set_commit rf_commitIndex rf_lastApplied rf_log].
  destruct (Z.leb_spec (rf_commitIndex rf) (rf_lastApplied rf)) as [Hle|Hlt].
  - eexists _, []. split; [done|]. simpl.
    replace (Z.to_nat (rf_commitIndex rf - rf_lastApplied rf)) with 0%nat by lia.
    split_and!; [lia|done|done|done|unfold len; simpl; lia].
  - rewrite collect_spec by (lia || done). cbn [mbind outcome_bind].
    eexists _, _. split; [done|]. simpl. split_and!; [lia|done|done|done|].
    rewrite len_take, len_drop. lia.
Qed.

Lemma applier_in_order_witness :
  ∃ rf' es, applier (set_commit demo_leader 2 true) = Ok (rf', es) ∧
    rf_lastApplied rf' = 2 ∧ es = [mkLogEntry 1 1 []; mkLogEntry 2 2 []].
Proof.
  destruct (applier_in_order (set_commit demo_leader 2 true)) as (rf' & es & H1 & H2 & _ & _ & H3 & _);
    [vm_compute; discriminate|vm_compute; reflexivity|].
  exists rf', es. split; [exact H1|]. split; [exact H2|exact H3].
Defined.

(** ** Restart *)

(** A log as the code builds it: the sentinel, then entries that carry their
    position, with fields of 32 bits. *)
Definition indexed (es : list LogEntry) : Prop :=
  ∀ i e, es !! i = Some e →
    le_Index e = Z.of_nat i + 1 ∧ is_u32 (le_Index e) ∧ is_u32 (le_Term e) ∧ len (le_Command e) < 2 ^ 32.

Definition log_rec (e : LogEntry) : wal_record := LogRec (le_Index e) (le_Term e) (le_Command e).

Lemma indexed_elem es e :
  indexed es → e ∈ es → 0 < le_Index e ∧ is_u32 (le_Index e) ∧ is_u32 (le_Term e) ∧ len (le_Command e) < 2 ^ 32.
Proof. intros Hi [i He]%list_elem_of_lookup_1. destruct (Hi i e He) as (H1 & H2). split; [lia|done]. Qed.

Lemma indexed_fits es : indexed es → Forall record_fits (map log_rec es).
Proof.
  intros Hi. apply Forall_map, Forall_forall. intros e He.
  destruct (indexed_elem es e Hi He) as (_ & ? & ? & ?). done.
Qed.

Lemma log_record_wal e : is_u32 (le_Index e) → is_u32 (le_Term e) → log_record (wal_entry e) = record_bytes (log_rec e).
Proof.
  intros H1 H2. unfold log_rec, record_bytes, wal_entry. by rewrite !uwrap_small by (unfold is_u32 in *; lia).
Qed.

(** Behind the sentinel nothing was persisted before. *)
Lemma fresh_indexed es : indexed es → fresh_entries 0 (map wal_entry (mkLogEntry 0 0 [] :: es)) = map wal_entry es.
Proof.
  intros Hi. unfold fresh_entries. cbn [map]. change (Z.to_nat (0 + 1)) with 1%nat. cbn [drop]. rewrite drop_0.
  assert (∀ e, e ∈ es → 0 < we_Index (wal_entry e)) as H.
  { intros e He. destruct (indexed_elem es e Hi He) as (H0 & H1 & _). simpl. unfold is_u32 in H1.
    rewrite uwrap_small; lia. }
  clear Hi. induction es as [|e es IH]; [done|]. cbn [map].
  rewrite filter_cons_True by (apply H, elem_of_cons; auto). rewrite IH; [done|].
  intros e' ?. apply H, elem_of_cons; auto.
Qed.

Lemma rec_entries_log es : rec_entries (map log_rec es) = map (λ e, mkWALEntry RecordTypeLog (le_Index e) (le_Term e) (le_Command e)) es.
Proof. induction es as [|e es IH]; [done|]. cbn [map]. rewrite <-IH. done. Qed.

Lemma rec_state_log s es : rec_state s (map log_rec es) = s.
Proof. unfold rec_state. revert s. induction es as [|e es IH]; intros s; [done|]. simpl. apply IH. Qed.

(** A node started on a file of log records. *)
Lemma Make_log peers me es now :
  es ≠ [] → indexed es → rf_log (Make peers me (records_bytes (map log_rec es)) now) = es.
Proof.
  intros Hne Hi. unfold Make, readPersist, RecoverEntries. cbn [rf_wal createOrOpenRaftWAL rw_data set_reset rf_log].
  rewrite recover_bytes by (by apply indexed_fits). rewrite rec_entries_log, rec_state_log.
  assert (0 <? len (map (λ e, mkWALEntry RecordTypeLog (le_Index e) (le_Term e) (le_Command e)) es) = true) as Hl.
  { apply Z.ltb_lt. rewrite len_map. destruct es; [done|len_lia]. }
  assert (∀ es : list LogEntry, map log_entry (filter (λ e, we_RecordType e = RecordTypeLog)
    (map (λ e, mkWALEntry RecordTypeLog (le_Index e) (le_Term e) (le_Command e)) es)) = es) as Hmap.
  { clear. induction es as [|[i t c] es IH]; [done|]. cbn [map]. rewrite filter_cons_True by done.
    cbn [map]. by rewrite IH. }
  destruct (last _); cbn [set_wal rf_log]; rewrite Hl; cbn [set_log rf_log hs_Term];
    change (0 <? 0) with false; cbn [set_log rf_log]; apply Hmap.
Qed.

(** A restart loses the sentinel: a node with a fresh WAL that persists
    its log and is restarted comes back with a log that lacks the entry at
    index 0, so every entry sits one position below its index, and the first
    command is now in the place that is never applied. *)
Theorem restart_shifts_log peers me es now now' :
  es ≠ [] → indexed es → len es < 2 ^ 31 - 1 →
  let rf := set_log (Make peers me [] now) (mkLogEntry 0 0 [] :: es) in
  let rf' := Make peers me (rw_data (rf_wal (persisted rf))) now' in
  rf_log rf' = es ∧ ∀ i, rf_log rf' !! i = rf_log rf !! S i.
Proof.
  intros Hne Hi Hlen rf rf'. assert (rf_log rf' = es) as ->; [|done]. unfold rf'.
  assert (rw_data (rf_wal (persisted rf)) = records_bytes (map log_rec es)) as ->; [|by apply Make_log].
  assert (0 < len es) as Hpos by (destruct es; [done|len_lia]).
  assert (rf_log rf = mkLogEntry 0 0 [] :: es) as Hlog by done.
  assert (rf_wal rf = mkRWAL [] [] false 0) as Hwal by done.
  unfold persisted. rewrite Hlog, Hwal. rewrite (proj2 (Z.ltb_lt _ _)) by len_lia. cbn [set_wal rf_wal].
  rewrite wal_AppendEntries_spec by (done || rewrite len_map, len_cons; lia).
  cbn [rw_lastPersisted rw_data fst]. rewrite fresh_indexed by done. simpl app.
  unfold records_bytes. rewrite !map_map. f_equal. apply map_ext_in. intros e He%list_elem_of_In.
  destruct (indexed_elem es e Hi He) as (_ & ? & ? & _). by apply log_record_wal.
Qed.

Lemma restart_shifts_log_witness :
  let rf := set_log (Make 3 0 [] 1) [mkLogEntry 0 0 []; mkLogEntry 1 1 [Byte.x61]; mkLogEntry 2 1 [Byte.x62]] in
  let rf' := Make 3 0 (rw_data (rf_wal (persisted rf))) 2 in
  rf_log rf' = [mkLogEntry 1 1 [Byte.x61]; mkLogEntry 2 1 [Byte.x62]] ∧ ∀ i, rf_log rf' !! i = rf_log rf !! S i.
Proof.
  apply (restart_shifts_log 3 0 [mkLogEntry 1 1 [Byte.x61]; mkLogEntry 2 1 [Byte.x62]] 1 2).
  - discriminate.
  - intros [|[|i]] e He; simpl in He; simplify_eq/=; repeat split; lia.
  - reflexivity.
Defined.

(** The node and the reply of a handled AppendEntries. *)
Definition after (o : outcome (Raft * AppendEntriesReply)) : Raft * AppendEntriesReply :=
  match o with Ok x => x | _ => (node 2, mkAppendReply 0 false 0 0) end.
Definition first_call (commit : Z) : Raft * AppendEntriesReply :=
  after (AppendEntries (node 2) (mkAppendArgs 1 0 0 0 [mkLogEntry 1 1 [Byte.x61]] commit) 5).
Definition second_call (args : AppendEntriesArgs) (commit : Z) : Raft * AppendEntriesReply :=
  after (AppendEntries (fst (first_call commit)) args 6).

(** An acknowledged entry can be lost by a restart: a follower stores an
    entry of term 1, replaces it by the one of the leader of term 2, answers
    success and learns that it is committed; the WAL already has an entry
    with that index and skips the new one, so after a restart the node has
    the entry of term 1 again. *)
Theorem acknowledged_entry_lost :
  ∃ rf1 r1 rf2 r2,
    AppendEntries (node 2) (mkAppendArgs 1 0 0 0 [mkLogEntry 1 1 [Byte.x61]] 0) 5 = Ok (rf1, r1) ∧
    AppendEntries rf1 (mkAppendArgs 2 1 0 0 [mkLogEntry 1 2 [Byte.x62]] 1) 6 = Ok (rf2, r2) ∧
    ar_Success r2 = true ∧ rf_commitIndex rf2 = 1 ∧
    rf_log rf2 = [mkLogEntry 0 0 []; mkLogEntry 1 2 [Byte.x62]] ∧
    rf_log (Make 3 2 (rw_data (rf_wal rf2)) 7) = [mkLogEntry 1 1 [Byte.x61]].
Proof.
  set (args := mkAppendArgs 2 1 0 0 [mkLogEntry 1 2 [Byte.x62]] 1).
  exists (fst (first_call 0)), (snd (first_call 0)), (fst (second_call args 0)), (snd (second_call args 0)).
  rewrite <-!surjective_pairing. split_and!; vm_compute; reflexivity.
Qed.

(** The stored "no vote" is read back as a vote: a node that persisted
    its state without having voted in its term (votedFor is -1) recovers
    votedFor = 4294967295 in the same term, and refuses every candidate of
    that term. *)
Theorem restart_refuses_votes peers me rs rf now args now' :
  rw_data (rf_wal rf) = records_bytes rs → Forall record_fits rs →
  rw_faults (rf_wal rf) = [] → rw_failed (rf_wal rf) = false →
  rf_votedFor rf = -1 → 0 < rf_currentTerm rf < 2 ^ 32 → is_u32 (rf_commitIndex rf) →
  let rf' := Make peers me (rw_data (rf_wal (persistState rf))) now in
  rf_currentTerm rf' = rf_currentTerm rf ∧ rf_votedFor rf' = 4294967295 ∧
  (va_Term args = rf_currentTerm rf → 0 <= va_CandidateId args < 2 ^ 31 →
   ∀ rf'' r, RequestVote rf' args now' = Ok (rf'', r) → vr_VoteGranted r = false).
Proof.
  intros Hd Hfit Hf Hfl Hv Ht Hc rf'.
  assert (rw_data (rf_wal (persistState rf)) =
    records_bytes (rs ++ [HardRec (rf_currentTerm rf) 4294967295 (rf_commitIndex rf)])) as Hdata.
  { unfold persistState. rewrite PersistHardState_spec by done. cbn [set_wal rf_wal fst rw_data].
    rewrite Hd, records_bytes_app, Hv. unfold is_u32 in Hc. rewrite (uwrap_small 32 (rf_currentTerm rf)),
      (uwrap_small 32 (rf_commitIndex rf)) by lia. done. }
  assert (rf_currentTerm rf' = rf_currentTerm rf ∧ rf_votedFor rf' = 4294967295) as [H1 H2].
  { unfold rf', Make, readPersist, RecoverEntries. cbn [rf_wal createOrOpenRaftWAL rw_data]. rewrite Hdata.
    rewrite recover_bytes by (apply Forall_app; split; [done|]; constructor; [|done]; split_and!; unfold is_u32 in *; lia).
    unfold rec_state. rewrite foldl_app. cbn [foldl].
    destruct (last _); cbn [hs_Term hs_Vote hs_Commit]; rewrite (proj2 (Z.ltb_lt 0 (rf_currentTerm rf))) by lia; done. }
  split; [done|]. split; [done|]. intros Hta Hcand rf'' r Hr.
  apply RequestVote_spec in Hr as (_ & _ & _ & _ & _ & H3). destruct (vr_VoteGranted r); [|done].
  destruct H3 as (_ & _ & _ & H3). destruct H3; [congruence|lia|lia].
Qed.

Lemma restart_refuses_votes_witness :
  ∃ rf'' r, RequestVote (Make 3 2 (rw_data (rf_wal (persistState (set_term_state (node 2) 4 Follower (-1) (-1))))) 9)
      (vote_from 1 4) 10 = Ok (rf'', r) ∧ vr_VoteGranted r = false.
Proof.
  eexists _, _. split; [vm_compute; reflexivity|].
  destruct (restart_refuses_votes 3 2 [] (set_term_state (node 2) 4 Follower (-1) (-1)) 9 (vote_from 1 4) 10)
    as (_ & _ & H); [reflexivity|apply Forall_nil_2|reflexivity|reflexivity|reflexivity|split; reflexivity|
      split; [discriminate|reflexivity]|].
  eapply H; [reflexivity|split; [discriminate|reflexivity]|vm_compute; reflexivity].
Defined.

(** A torn tail erases the node: if the WAL ends in part of a record,
    recovery reports an error and the node starts in term 0 with an empty log
    and without its vote, however much was persisted before. *)
Theorem torn_wal_erases_node peers me rs r cut now :
  Forall record_fits rs → record_fits r → (1 <= cut < length (record_bytes r))%nat →
  let rf := Make peers me (records_bytes rs ++ take cut (record_bytes r)) now in
  rf_log rf = [mkLogEntry 0 0 []] ∧ rf_currentTerm rf = 0 ∧ rf_votedFor rf = -1 ∧ rf_commitIndex rf = 0.
Proof.
  intros Hf Hr Hcut rf. unfold rf, Make, readPersist, RecoverEntries.
  cbn [rf_wal createOrOpenRaftWAL rw_data].
  destruct (recover_torn_record rs r cut Hf Hr Hcut) as [e ->]. done.
Qed.

Lemma torn_wal_erases_node_witness :
  let rf := Make 3 0 (records_bytes [HardRec 7 1 3; LogRec 1 7 [Byte.x61]] ++
                      take 5 (record_bytes (LogRec 2 7 [Byte.x62]))) 1 in
  rf_log rf = [mkLogEntry 0 0 []] ∧ rf_currentTerm rf = 0 ∧ rf_votedFor rf = -1 ∧ rf_commitIndex rf = 0.
Proof.
  apply (torn_wal_erases_node 3 0 [HardRec 7 1 3; LogRec 1 7 [Byte.x61]] (LogRec 2 7 [Byte.x62]) 5 1).
  - repeat (apply Forall_cons_2; [repeat split; reflexivity || discriminate|]). apply Forall_nil_2.
  - repeat split; reflexivity || discriminate.
  - vm_compute. lia.
Defined.

(** A follower's commit index can go back: a heartbeat with a greater
    leader commit but an earlier [PrevLogIndex] sets it to [PrevLogIndex]. *)
Theorem commit_index_goes_back :
  ∃ rf1 r1 rf2 r2,
    AppendEntries (node 2) (mkAppendArgs 1 0 0 0 [mkLogEntry 1 1 [Byte.x61]] 1) 5 = Ok (rf1, r1) ∧
    rf_commitIndex rf1 = 1 ∧
    AppendEntries rf1 (mkAppendArgs 1 0 0 0 [] 2) 6 = Ok (rf2, r2) ∧
    ar_Success r2 = true ∧ rf_commitIndex rf2 = 0.
Proof.
  set (args := mkAppendArgs 1 0 0 0 [] 2).
  exists (fst (first_call 1)), (snd (first_call 1)), (fst (second_call args 1)), (snd (second_call args 1)).
  rewrite <-!surjective_pairing. split_and!; vm_compute; reflexivity.
Qed.
