(* ===== verification/RaftApi.v ===== *)
(** * api/raft_server.go and the two send functions: Raft calls over gRPC

    The RPC client side ([sendRequestVote], [sendAppendEntries]) narrows every
    number to [int32]; the server side ([RaftServer]) widens it again and calls
    the node.  The transport itself (gRPC) delivers a message unchanged or
    fails; the state of the request's context is an argument. *)

From stdpp Require Import base list gmap.
From Stdlib Require Import ZArith Lia.
From S2P Require Import Prelude RaftWal Raft.

(** ** proto/raft.proto: the messages *)

Record PbVoteRequest := mkPbVoteRequest {
  pv_term : Z; pv_candidateId : Z; pv_lastLogIndex : Z; pv_lastLogTerm : Z
}.
Record PbVoteResponse := mkPbVoteResponse { pvr_term : Z; pvr_voteGranted : bool }.
Record PbLogEntry := mkPbLogEntry { pe_term : Z; pe_index : Z; pe_command : bytes }.
Record PbAppendRequest := mkPbAppendRequest {
  pa_term : Z; pa_leaderId : Z; pa_prevLogIndex : Z; pa_prevLogTerm : Z;
  pa_entries : list PbLogEntry; pa_leaderCommit : Z
}.
Record PbAppendResponse := mkPbAppendResponse {
  par_term : Z; par_success : bool; par_conflictIndex : Z; par_conflictTerm : Z
}.

(** ** The client side *)

Definition pb_vote (a : RequestVoteArgs) : PbVoteRequest :=
  mkPbVoteRequest (s32 (va_Term a)) (s32 (va_CandidateId a)) (s32 (va_LastLogIndex a)) (s32 (va_LastLogTerm a)).

Definition pb_entry (e : LogEntry) : PbLogEntry :=
  mkPbLogEntry (s32 (le_Term e)) (s32 (le_Index e)) (le_Command e).

Definition pb_append (a : AppendEntriesArgs) : PbAppendRequest :=
  mkPbAppendRequest (s32 (aa_Term a)) (s32 (aa_LeaderId a)) (s32 (aa_PrevLogIndex a))
    (s32 (aa_PrevLogTerm a)) (map pb_entry (aa_Entries a)) (s32 (aa_LeaderCommit a)).

(** The two send functions, given what the call returned ([None]: an error);
    [peer_nil] tells that there is no client for the peer. *)
Definition sendRequestVote (peer_nil : bool) (answer : option PbVoteResponse) : option RequestVoteReply :=
  if peer_nil then None
  else r ← answer; Some (mkVoteReply (pvr_term r) (pvr_voteGranted r)).

Definition sendAppendEntries (answer : option PbAppendResponse) : option AppendEntriesReply :=
  r ← answer;
  Some (mkAppendReply (par_term r) (par_success r) (par_conflictIndex r) (par_conflictTerm r)).

(** ** The server side *)

Inductive code := Canceled | DeadlineExceeded | Internal | FailedPrecondition | InvalidArgument.
Inductive ctx_error := CtxCanceled | CtxDeadlineExceeded | CtxOther.

(** [ctx.Err()] and the node of the server, which may be missing. *)
Definition ensureReady (ctx : option ctx_error) (rf : option Raft) : code + Raft :=
  match ctx with
  | Some CtxCanceled => inl Canceled
  | Some CtxDeadlineExceeded => inl DeadlineExceeded
  | Some CtxOther => inl Internal
  | None => match rf with None => inl FailedPrecondition | Some rf => inr rf end
  end.

(** The handlers return the node (if there is one) with the answer. *)
Definition api_RequestVote (ctx : option ctx_error) (rf : option Raft) (req : option PbVoteRequest) (now : Z)
  : outcome (option Raft * (code + PbVoteResponse)) :=
  match ensureReady ctx rf with
  | inl c => Ok (rf, inl c)
  | inr node =>
      match req with
      | None => Ok (rf, inl InvalidArgument)
      | Some q =>
          x ← RequestVote node (mkVoteArgs (pv_term q) (pv_candidateId q) (pv_lastLogIndex q) (pv_lastLogTerm q)) now;
          let '(node, reply) := x in
          Ok (Some node, inr (mkPbVoteResponse (s32 (vr_Term reply)) (vr_VoteGranted reply)))
      end
  end.

Definition raft_entry (e : PbLogEntry) : LogEntry := mkLogEntry (pe_index e) (pe_term e) (pe_command e).

(** [ctx_after] is [ctx.Err()] when the node's handler has returned. *)
Definition api_AppendEntries (ctx ctx_after : option ctx_error) (rf : option Raft) (req : option PbAppendRequest)
    (now : Z) : outcome (option Raft * (code + PbAppendResponse)) :=
  match ensureReady ctx rf with
  | inl c => Ok (rf, inl c)
  | inr node =>
      match req with
      | None => Ok (rf, inl InvalidArgument)
      | Some q =>
          x ← AppendEntries node
                (mkAppendArgs (pa_term q) (pa_leaderId q) (pa_prevLogIndex q) (pa_prevLogTerm q)
                   (map raft_entry (pa_entries q)) (pa_leaderCommit q)) now;
          let '(node, reply) := x in
          match ctx_after with
          | Some _ => Ok (Some node, inl Canceled)
          | None =>
              Ok (Some node, inr (mkPbAppendResponse (s32 (ar_Term reply)) (ar_Success reply)
                                    (s32 (ar_ConflictIndex reply)) (s32 (ar_ConflictTerm reply))))
          end
      end
  end.

(** What the receiving node is handed. *)
Definition wire_vote (a : RequestVoteArgs) : RequestVoteArgs :=
  mkVoteArgs (s32 (va_Term a)) (s32 (va_CandidateId a)) (s32 (va_LastLogIndex a)) (s32 (va_LastLogTerm a)).
Definition wire_append (a : AppendEntriesArgs) : AppendEntriesArgs :=
  mkAppendArgs (s32 (aa_Term a)) (s32 (aa_LeaderId a)) (s32 (aa_PrevLogIndex a)) (s32 (aa_PrevLogTerm a))
    (map (λ e, raft_entry (pb_entry e)) (aa_Entries a)) (s32 (aa_LeaderCommit a)).

(** A call in full: the receiver's new state and what the caller gets. *)
Definition vote_rpc (rf : Raft) (a : RequestVoteArgs) (now : Z) : outcome (Raft * option RequestVoteReply) :=
  x ← api_RequestVote None (Some rf) (Some (pb_vote a)) now;
  match x with
  | (Some rf', inr r) => Ok (rf', sendRequestVote false (Some r))
  | (Some rf', inl _) => Ok (rf', None)
  | (None, _) => Ok (rf, None)
  end.

Definition append_rpc (rf : Raft) (a : AppendEntriesArgs) (late : option ctx_error) (now : Z)
  : outcome (Raft * option AppendEntriesReply) :=
  x ← api_AppendEntries None late (Some rf) (Some (pb_append a)) now;
  match x with
  | (Some rf', inr r) => Ok (rf', sendAppendEntries (Some r))
  | (Some rf', inl _) => Ok (rf', None)
  | (None, _) => Ok (rf, None)
  end.

(** * Lemmas *)

Lemma vote_rpc_spec rf a now rf' r :
  vote_rpc rf a now = Ok (rf', r) →
  ∃ reply, RequestVote rf (wire_vote a) now = Ok (rf', reply) ∧
    r = Some (mkVoteReply (s32 (vr_Term reply)) (vr_VoteGranted reply)).
Proof.
  unfold vote_rpc, api_RequestVote. cbn [ensureReady pb_vote pv_term pv_candidateId pv_lastLogIndex pv_lastLogTerm].
  fold (wire_vote a). destruct (RequestVote rf (wire_vote a) now) as [[rf1 reply]|e|];
    cbn [mbind outcome_bind]; [|done..].
  intros [= <- <-]. by exists reply.
Qed.

Lemma append_rpc_spec rf a late now rf' r :
  append_rpc rf a late now = Ok (rf', r) →
  ∃ reply, AppendEntries rf (wire_append a) now = Ok (rf', reply) ∧
    r = if late then None
        else Some (mkAppendReply (s32 (ar_Term reply)) (ar_Success reply) (s32 (ar_ConflictIndex reply))
                     (s32 (ar_ConflictTerm reply))).
Proof.
  unfold append_rpc, api_AppendEntries. cbn [ensureReady].
  replace (mkAppendArgs _ _ _ _ _ _) with (wire_append a)
    by (unfold wire_append, pb_append; cbn; by rewrite map_map).
  destruct (AppendEntries rf (wire_append a) now) as [[rf1 reply]|e|]; cbn [mbind outcome_bind]; [|done..].
  destruct late; intros [= <- <-]; by exists reply.
Qed.

(** Numbers the messages can carry. *)
Definition is_s32 (z : Z) : Prop := - 2 ^ 31 <= z < 2 ^ 31.

Lemma s32_id z : is_s32 z → s32 z = z.
Proof. unfold is_s32. intros. apply swrap_small; lia. Qed.

Lemma s32_range z : is_s32 (s32 z).
Proof. unfold is_s32, swrap. pose proof (Z.mod_pos_bound (z + 2 ^ (32 - 1)) (2 ^ 32)). lia. Qed.

Definition vote_args_fit (a : RequestVoteArgs) : Prop :=
  is_s32 (va_Term a) ∧ is_s32 (va_CandidateId a) ∧ is_s32 (va_LastLogIndex a) ∧ is_s32 (va_LastLogTerm a).
Definition append_args_fit (a : AppendEntriesArgs) : Prop :=
  is_s32 (aa_Term a) ∧ is_s32 (aa_LeaderId a) ∧ is_s32 (aa_PrevLogIndex a) ∧ is_s32 (aa_PrevLogTerm a) ∧
  is_s32 (aa_LeaderCommit a) ∧ Forall (λ e, is_s32 (le_Index e) ∧ is_s32 (le_Term e)) (aa_Entries a).

Lemma wire_vote_id a : vote_args_fit a → wire_vote a = a.
Proof. intros (H1 & H2 & H3 & H4). destruct a. unfold wire_vote. simpl in *. by rewrite !s32_id. Qed.

Lemma wire_append_id a : append_args_fit a → wire_append a = a.
Proof.
  intros (H1 & H2 & H3 & H4 & H5 & H6). destruct a as [t l p pt es c]. unfold wire_append. simpl in *.
  rewrite !s32_id by done. f_equal. induction H6 as [|[i et cmd] es [Hi Ht] _ IH]; [done|].
  simpl in *. f_equal; [|exact IH]. unfold raft_entry, pb_entry. simpl. by rewrite !s32_id.
Qed.

(** The replies of a node whose numbers fit. *)
Lemma RequestVote_reply_fits rf args now rf' r :
  RequestVote rf args now = Ok (rf', r) → is_s32 (rf_currentTerm rf) → is_s32 (va_Term args) → is_s32 (vr_Term r).
Proof. intros (H1 & H2 & _)%RequestVote_spec. unfold is_s32. lia. Qed.

Lemma AppendEntries_reply_fits rf args now rf' r :
  AppendEntries rf args now = Ok (rf', r) → is_s32 (rf_currentTerm rf) → is_s32 (aa_Term args) →
  len (rf_log rf) < 2 ^ 31 → (∀ e, e ∈ rf_log rf → is_s32 (le_Term e)) →
  is_s32 (ar_Term r) ∧ is_s32 (ar_ConflictIndex r) ∧ is_s32 (ar_ConflictTerm r).
Proof.
  intros Ha Ht Hta Hlen Hterms.
  assert (is_s32 (ar_Term r)) as Hrt.
  { apply AppendEntries_spec in Ha as (H1 & _ & _ & H2). rewrite H1.
    destruct (aa_Term args <? rf_currentTerm rf); [by destruct H2 as [-> _]|by destruct H2 as [-> _]]. }
  split; [done|]. revert Ha. unfold AppendEntries. pose proof (len_nonneg (rf_log rf)).
  destruct (_ <? rf_currentTerm rf); [by intros [= <- <-]|]. cbv zeta.
  change (rf_log (persistState _)) with (rf_log rf).
  destruct (_ <? aa_PrevLogIndex args) eqn:Hp; [intros [= <- <-]; simpl; unfold is_s32; lia|].
  unfold index. destruct (Z.leb_spec 0 (aa_PrevLogIndex args)) as [H0|]; [|done].
  destruct (rf_log rf !! Z.to_nat (aa_PrevLogIndex args)) as [e|] eqn:He; [|done]. cbn [mbind outcome_bind].
  destruct (negb _).
  - intros [= <- <-]. cbn [ar_ConflictIndex ar_ConflictTerm].
    destruct (conflict_scan_spec (rf_log rf) _ e H0 He) as [? _]. apply Z.ltb_ge in Hp.
    split; [unfold is_s32; lia|]. apply Hterms. by eapply list_elem_of_lookup_2.
  - destruct (merge_entries _ _ _); cbn [mbind outcome_bind]; [|done..]. rewrite persist_if. cbn [mbind outcome_bind]. intros [= <- <-]. done.
Qed.

(** C27. The bridge is transparent below 2^31: if the numbers of a call and of
    the node fit in 32 bits, a call over gRPC changes the receiving node as
    the handler does when it is called directly, and the caller gets exactly
    the handler's reply. *)
Theorem rpc_transparent rf va aa now rf' vr rf'' ar :
  vote_args_fit va → append_args_fit aa → is_s32 (rf_currentTerm rf) → len (rf_log rf) < 2 ^ 31 →
  (∀ e, e ∈ rf_log rf → is_s32 (le_Term e)) →
  RequestVote rf va now = Ok (rf', vr) → AppendEntries rf aa now = Ok (rf'', ar) →
  vote_rpc rf va now = Ok (rf', Some vr) ∧ append_rpc rf aa None now = Ok (rf'', Some ar).
Proof.
  intros Hva Haa Ht Hlen Hterms Hv Ha.
  pose proof (RequestVote_reply_fits _ _ _ _ _ Hv Ht (proj1 Hva)) as Hvr.
  destruct (AppendEntries_reply_fits _ _ _ _ _ Ha Ht (proj1 Haa) Hlen Hterms) as (H1 & H2 & H3).
  rewrite <-(wire_vote_id va Hva) in Hv. rewrite <-(wire_append_id aa Haa) in Ha. split.
  - unfold vote_rpc, api_RequestVote. cbn [ensureReady pb_vote pv_term pv_candidateId pv_lastLogIndex pv_lastLogTerm].
    fold (wire_vote va). rewrite Hv. cbn. rewrite s32_id by done. by destruct vr.
  - unfold append_rpc, api_AppendEntries. cbn [ensureReady].
    replace (mkAppendArgs _ _ _ _ _ _) with (wire_append aa)
      by (unfold wire_append, pb_append; cbn; by rewrite map_map).
    rewrite Ha. cbn. rewrite !s32_id by done. by destruct ar.
Qed.

Lemma rpc_transparent_witness :
  ∃ rf' vr rf'' ar,
    vote_rpc (Make 3 2 [] 0) (mkVoteArgs 1 0 0 0) 5 = Ok (rf', Some vr) ∧
    append_rpc (Make 3 2 [] 0) (mkAppendArgs 1 0 0 0 [mkLogEntry 1 1 [Byte.x61]] 0) None 5 = Ok (rf'', Some ar).
Proof.
  eexists _, _, _, _.
  apply (rpc_transparent (Make 3 2 [] 0) (mkVoteArgs 1 0 0 0) (mkAppendArgs 1 0 0 0 [mkLogEntry 1 1 [Byte.x61]] 0) 5).
  - repeat split; discriminate || reflexivity.
  - repeat split; try (discriminate || reflexivity).
    apply Forall_cons_2; [repeat split; discriminate || reflexivity|]. apply Forall_nil_2.
  - split; [discriminate|reflexivity].
  - reflexivity.
  - intros e He. apply (list_elem_of_singleton e (mkLogEntry 0 0 [])) in He as ->. split; [discriminate|reflexivity].
  - vm_compute. reflexivity.
  - vm_compute. reflexivity.
Defined.

(** Terms above [int32] cannot win: a vote request for a term from 2^31
    to 2^32 - 1 arrives with a negative term, so every node refuses it and
    stays as it is. *)
Theorem term_overflow_refused rf a now :
  0 <= rf_currentTerm rf → 2 ^ 31 <= va_Term a < 2 ^ 32 →
  va_Term (wire_vote a) = va_Term a - 2 ^ 32 ∧
  vote_rpc rf a now = Ok (rf, Some (mkVoteReply (s32 (rf_currentTerm rf)) false)).
Proof.
  intros Ht Ha. assert (va_Term (wire_vote a) = va_Term a - 2 ^ 32) as Hw.
  { simpl. unfold swrap. rewrite <-(Z_mod_plus_full _ (-1) (2 ^ 32)), Z.mod_small; lia. }
  split; [done|].
  unfold vote_rpc, api_RequestVote. cbn [ensureReady pb_vote pv_term pv_candidateId pv_lastLogIndex pv_lastLogTerm].
  fold (wire_vote a). unfold RequestVote. rewrite (proj2 (Z.ltb_lt _ _)); [done|]. rewrite Hw. lia.
Qed.

Lemma term_overflow_refused_witness :
  vote_rpc (Make 3 2 [] 0) (mkVoteArgs (2 ^ 31) 0 9 9) 5 = Ok (Make 3 2 [] 0, Some (mkVoteReply 0 false)).
Proof.
  apply (term_overflow_refused (Make 3 2 [] 0) (mkVoteArgs (2 ^ 31) 0 9 9) 5);
    [vm_compute; discriminate|split; [discriminate|reflexivity]].
Defined.

(** Errors of the bridge: an AppendEntries call that is answered with an
    error left the node as it was, unless the context ended while the handler
    ran: then the node did everything the call asked for and the leader is
    told [Canceled]. *)
Theorem api_append_errors ctx late rf req now rf' c :
  api_AppendEntries ctx late rf req now = Ok (rf', inl c) →
  (rf' = rf ∧ (ctx ≠ None ∨ rf = None ∨ req = None)) ∨
  (c = Canceled ∧ ctx = None ∧ late ≠ None ∧
   ∃ node q node' reply, rf = Some node ∧ req = Some q ∧ rf' = Some node' ∧
     AppendEntries node (mkAppendArgs (pa_term q) (pa_leaderId q) (pa_prevLogIndex q) (pa_prevLogTerm q)
       (map raft_entry (pa_entries q)) (pa_leaderCommit q)) now = Ok (node', reply)).
Proof.
  unfold api_AppendEntries, ensureReady. destruct ctx as [[]|]; [intros [= <- _]; by auto..|].
  destruct rf as [node|]; [|intros [= <- _]; by auto]. destruct req as [q|]; [|intros [= <- _]; by auto].
  destruct (AppendEntries node _ now) as [[node' reply]|e|] eqn:E; cbn [mbind outcome_bind]; [|done..].
  destruct late; intros [= <- <-]. right. split_and!; [done..|]. by exists node, q, node', reply.
Qed.

Lemma api_append_errors_witness :
  ∃ node', api_AppendEntries None (Some CtxCanceled) (Some (Make 3 2 [] 0))
      (Some (pb_append (mkAppendArgs 1 0 0 0 [mkLogEntry 1 1 [Byte.x61]] 0))) 5 = Ok (Some node', inl Canceled) ∧
    rf_log node' = [mkLogEntry 0 0 []; mkLogEntry 1 1 [Byte.x61]] ∧ (Some node' = Some (Make 3 2 [] 0) ∨ Canceled = Canceled).
Proof.
  eexists. split; [vm_compute; reflexivity|]. split; [reflexivity|].
  destruct (api_append_errors None (Some CtxCanceled) (Some (Make 3 2 [] 0))
    (Some (pb_append (mkAppendArgs 1 0 0 0 [mkLogEntry 1 1 [Byte.x61]] 0))) 5 _ _
    ltac:(vm_compute; reflexivity)) as [[H _]|[H _]]; [left; exact H|right; exact H].
Defined.
