(* ===== verification/RaftCluster.v ===== *)
(** * The nodes of a cluster and the calls between them

    The goroutines of every node as one executable transition function: the
    ticker, the replicator and the applier of a node, each call of
    [sendHeartBeats] and [startElection], one task per peer and call, and the
    handlers at the receiving node, reached through the gRPC bridge.  A task
    advances by one critical section ([rf.mu] held) at a time; between two of
    them anything else may happen.  Calls can be delayed and lost (request or
    reply), but are not repeated.  Restarts are treated in RaftNode.v and RaftRestart.v. *)

From stdpp Require Import base list gmap.
From Stdlib Require Import ZArith Lia.
From S2P Require Import Prelude RaftWal Raft RaftApi.

(** [votesReceived] of one run of [startElection], shared by its goroutines. *)
Record Election := mkElection { el_cand : nat; el_term : Z; el_votes : Z }.

(** A goroutine between two critical sections. *)
Inductive Task :=
| SendHeartBeats (a : nat)
| HeartbeatTo (a server : nat) (term : Z)
| AppendCall (a server : nat) (args : AppendEntriesArgs)
| AppendBack (a server : nat) (args : AppendEntriesArgs) (reply : AppendEntriesReply)
| VoteCall (e server : nat) (args : RequestVoteArgs)
| VoteBack (e server : nat) (reply : RequestVoteReply).

(** The nodes, what each ticker has decided to do next, the elections and
    the running goroutines ([None]: finished). *)
Record Cluster := mkCluster {
  cl_nodes : list Raft;
  cl_ticks : list tick_action;
  cl_elections : list Election;
  cl_tasks : list (option Task)
}.

Definition peer_ids (cl : Cluster) (a : nat) : list nat :=
  filter (λ s, s ≠ a) (seq 0 (length (cl_nodes cl))).

Definition start_cluster (n : nat) : Cluster :=
  mkCluster (map (λ a, Make (Z.of_nat n) (Z.of_nat a) [] 0) (seq 0 n)) (replicate n TickNone) [] [].

(** What a run shows: elections started, votes and AppendEntries calls as the
    receiver got and answered them, leaders, entries given to the store. *)
Inductive event :=
| EvElection (a : nat) (term : Z)
| EvVote (server : nat) (args : RequestVoteArgs) (reply : RequestVoteReply)
| EvLeader (a : nat) (term : Z)
| EvAppend (server : nat) (args : AppendEntriesArgs) (reply : AppendEntriesReply)
| EvApply (a : nat) (es : list LogEntry).

Definition set_node (cl : Cluster) (a : nat) (rf : Raft) : Cluster :=
  mkCluster (<[a := rf]> (cl_nodes cl)) (cl_ticks cl) (cl_elections cl) (cl_tasks cl).
Definition set_tick (cl : Cluster) (a : nat) (t : tick_action) : Cluster :=
  mkCluster (cl_nodes cl) (<[a := t]> (cl_ticks cl)) (cl_elections cl) (cl_tasks cl).
Definition set_task (cl : Cluster) (k : nat) (t : option Task) : Cluster :=
  mkCluster (cl_nodes cl) (cl_ticks cl) (cl_elections cl) (<[k := t]> (cl_tasks cl)).
Definition spawn (cl : Cluster) (ts : list Task) : Cluster :=
  mkCluster (cl_nodes cl) (cl_ticks cl) (cl_elections cl) (cl_tasks cl ++ map Some ts).
Definition set_elections (cl : Cluster) (es : list Election) : Cluster :=
  mkCluster (cl_nodes cl) (cl_ticks cl) es (cl_tasks cl).

Definition value {A} (o : outcome A) : option A := match o with Ok x => Some x | _ => None end.

(** [startElection] at node [a]: a task for every peer with a client. *)
Definition elect (cl : Cluster) (a : nat) (now : Z) : option (Cluster * list event) :=
  rf ← cl_nodes cl !! a;
  '(rf, args) ← value (startElection rf now);
  let e := length (cl_elections cl) in
  let cl := set_elections (set_node cl a rf) (cl_elections cl ++ [mkElection a (rf_currentTerm rf) 1]) in
  Some (spawn cl (map (λ s, VoteCall e s args) (peer_ids cl a)), [EvElection a (rf_currentTerm rf)]).

(** The next critical section of task [k]; [None] when a handler panics. *)
Definition run_task (cl : Cluster) (k : nat) (t : Task) (now : Z) : option (Cluster * list event) :=
  match t with
  | SendHeartBeats a =>
      rf ← cl_nodes cl !! a;
      let cl := set_task cl k None in
      if bool_decide (rf_state rf = Leader)
      then Some (spawn cl (map (λ s, HeartbeatTo a s (rf_currentTerm rf)) (peer_ids cl a)), [])
      else Some (cl, [])
  | HeartbeatTo a server term =>
      rf ← cl_nodes cl !! a;
      args ← value (append_args rf term (Z.of_nat server));
      Some (set_task cl k (args ← args; Some (AppendCall a server args)), [])
  | AppendCall a server args =>
      rf ← cl_nodes cl !! server;
      '(rf, reply) ← value (append_rpc rf args None now);
      reply ← reply;
      Some (set_task (set_node cl server rf) k (Some (AppendBack a server args reply)),
            [EvAppend server (wire_append args) reply])
  | AppendBack a server args reply =>
      rf ← cl_nodes cl !! a;
      Some (set_task (set_node cl a (on_append_reply rf (Z.of_nat server) args reply)) k None, [])
  | VoteCall e server args =>
      rf ← cl_nodes cl !! server;
      '(rf, reply) ← value (vote_rpc rf args now);
      reply ← reply;
      Some (set_task (set_node cl server rf) k (Some (VoteBack e server reply)),
            [EvVote server (wire_vote args) reply])
  | VoteBack e server reply =>
      el ← cl_elections cl !! e;
      rf ← cl_nodes cl !! el_cand el;
      let '(rf, votes, won) := on_vote_reply rf (el_term el) (el_votes el) reply in
      let cl := set_task (set_node cl (el_cand el) rf) k None in
      let cl := set_elections cl (<[e := mkElection (el_cand el) (el_term el) votes]> (cl_elections cl)) in
      Some (if won then (spawn cl [SendHeartBeats (el_cand el)], [EvLeader (el_cand el) (rf_currentTerm rf)])
            else (cl, []))
  end.

Inductive action :=
| ReadTick (a : nat) (now timeout : Z)
| ActTick (a : nat) (now : Z)
| RunTask (k : nat) (now : Z)
| LoseTask (k : nat)
| Submit (a : nat) (command : bytes)
| Replicate (a : nat)
| Apply (a : nat).

Definition do_action (cl : Cluster) (act : action) : option (Cluster * list event) :=
  match act with
  | ReadTick a now timeout =>
      rf ← cl_nodes cl !! a;
      Some (set_tick cl a (ticker rf now timeout), [])
  | ActTick a now =>
      t ← cl_ticks cl !! a;
      let cl := set_tick cl a TickNone in
      match t with
      | TickHeartbeat => Some (spawn cl [SendHeartBeats a], [])
      | TickElection => elect cl a now
      | TickNone => Some (cl, [])
      end
  | RunTask k now =>
      t ← cl_tasks cl !! k;
      t ← t;
      run_task cl k t now
  | LoseTask k => Some (set_task cl k None, [])
  | Submit a command =>
      rf ← cl_nodes cl !! a;
      Some (set_node cl a (fst (Start rf command)), [])
  | Replicate a =>
      rf ← cl_nodes cl !! a;
      if rf_triggerCh rf then
        rf ← value (replicator rf);
        Some (spawn (set_node cl a rf) [SendHeartBeats a], [])
      else None
  | Apply a =>
      rf ← cl_nodes cl !! a;
      if rf_commitCh rf then
        '(rf, es) ← value (applier rf);
        Some (set_node cl a rf, [EvApply a es])
      else None
  end.

Fixpoint run (cl : Cluster) (acts : list action) : option (Cluster * list event) :=
  match acts with
  | [] => Some (cl, [])
  | act :: acts' =>
      '(cl, ev) ← do_action cl act;
      '(cl, evs) ← run cl acts';
      Some (cl, ev ++ evs)
  end.

(** The states a cluster of [n] nodes can reach, with the events so far. *)
Inductive reach (n : nat) : Cluster → list event → Prop :=
| reach_start : reach n (start_cluster n) []
| reach_step cl tr act cl' ev :
    reach n cl tr → do_action cl act = Some (cl', ev) → reach n cl' (tr ++ ev).

Lemma run_reach n acts cl tr cl' ev :
  reach n cl tr → run cl acts = Some (cl', ev) → reach n cl' (tr ++ ev).
Proof.
  revert cl tr ev. induction acts as [|act acts IH]; intros cl tr ev Hr; simpl.
  { intros [= <- <-]. by rewrite app_nil_r. }
  destruct (do_action cl act) as [[cl1 ev1]|] eqn:E; [|done]. simpl.
  destruct (run cl1 acts) as [[cl2 ev2]|] eqn:E2; [|done]. intros [= <- <-].
  rewrite app_assoc. eapply IH; [|done]. by eapply reach_step.
Qed.

(** * Two leaders

    Nodes 0 and 1 time out together and both ask node 2 for its vote of
    term 1; the request of node 1 is slow.  Node 2 elects node 0, gets its
    heartbeat, which clears [votedFor], and then elects node 1 as well. *)

Definition split_vote : list action :=
  [ReadTick 0 1000 900; ReadTick 1 1000 950; ActTick 0 1000; ActTick 1 1000;
   RunTask 1 1005; RunTask 1 1010;                       (* node 2 votes for 0, 0 leads *)
   RunTask 4 1010; RunTask 6 1011; RunTask 6 1015;       (* its heartbeat reaches 2 *)
   RunTask 3 1020; RunTask 3 1025].                      (* node 2 votes for 1, 1 leads *)

(** Each leader then takes a command, replicates it to node 2 and applies it. *)
Definition two_commits : list action :=
  [Submit 0 [Byte.x61]; Replicate 0; RunTask 8 1030; RunTask 10 1031; RunTask 10 1035; RunTask 10 1040; Apply 0;
   Submit 1 [Byte.x62]; Replicate 1; RunTask 11 1030; RunTask 13 1031; RunTask 13 1045; RunTask 13 1050; Apply 1].

Definition leads (cl : Cluster) (a : nat) (t : Z) : bool :=
  match cl_nodes cl !! a with
  | Some rf => bool_decide (rf_state rf = Leader) && (rf_currentTerm rf =? t)
  | None => false
  end.

(** What a run of actions leads to, for runs that go through. *)
Definition after_run (n : nat) (acts : list action) : Cluster * list event :=
  default (start_cluster n, []) (run (start_cluster n) acts).

Lemma after_run_reach n acts : is_Some (run (start_cluster n) acts) → reach n (fst (after_run n acts)) (snd (after_run n acts)).
Proof.
  intros [[cl ev] Hr]. unfold after_run. rewrite Hr. exact (run_reach n acts (start_cluster n) [] cl ev (reach_start n) Hr).
Qed.

(** Two leaders of one term: in a cluster of three nodes, without any
    failure, two nodes can be leader of the same term at the same time. *)
Theorem two_leaders_same_term :
  ∃ cl tr, reach 3 cl tr ∧ leads cl 0 1 = true ∧ leads cl 1 1 = true.
Proof.
  exists (fst (after_run 3 split_vote)), (snd (after_run 3 split_vote)).
  split; [apply after_run_reach; vm_compute; by eexists|]. split; vm_compute; reflexivity.
Qed.

(** State machines diverge: from there, both leaders get their own
    command acknowledged by node 2 at index 1, commit it and apply it, so the
    stores of two nodes apply different commands at the same index. *)
Theorem applied_commands_differ :
  ∃ cl tr x y, reach 3 cl tr ∧ EvApply 0 [x] ∈ tr ∧ EvApply 1 [y] ∈ tr ∧
    le_Index x = le_Index y ∧ le_Command x ≠ le_Command y.
Proof.
  exists (fst (after_run 3 (split_vote ++ two_commits))), (snd (after_run 3 (split_vote ++ two_commits))),
    (mkLogEntry 1 1 [Byte.x61]), (mkLogEntry 1 1 [Byte.x62]).
  split; [apply after_run_reach; vm_compute; by eexists|].
  split; [apply (list_elem_of_lookup_2 _ 8); vm_compute; reflexivity|].
  split; [apply (list_elem_of_lookup_2 _ 10); vm_compute; reflexivity|]. split; [done|]. simpl. congruence.
Qed.
