(* ===== verification/RaftElection.v ===== *)
(** * Elections of a cluster

    What the votes of a run guarantee: unless a node grants a vote of a term
    after it has handled an AppendEntries call of that term (which clears its
    vote), the term has at most one leader.  The proof
    follows the votes: every granted vote stays recorded in the voter, every
    counted vote was granted by a different node, and two majorities share a
    node. *)

From stdpp Require Import base list gmap.
From Stdlib Require Import ZArith Lia.
From S2P Require Import Prelude RaftWal Raft RaftNode RaftApi RaftCluster.

(** ** The shapes of a step

    Seen from the votes, a step is one of five kinds. *)

Definition vote_task (t : option Task) : option (nat * nat) :=
  match t with
  | Some (VoteCall e s _) | Some (VoteBack e s _) => Some (e, s)
  | _ => None
  end.

(** The tasks afterwards hold no vote call that was not there before. *)
Definition no_new_votes (ts ts' : list (option Task)) : Prop :=
  ∀ k t e s, ts' !! k = Some t → vote_task t = Some (e, s) → ts !! k = Some t.

(** A change of a node that keeps its identity and, within a term, its vote. *)
Definition quiet (rf rf' : Raft) : Prop :=
  rf_me rf' = rf_me rf ∧ rf_peers rf' = rf_peers rf ∧ rf_currentTerm rf <= rf_currentTerm rf' ∧
  (rf_currentTerm rf' = rf_currentTerm rf → rf_votedFor rf' = rf_votedFor rf).

#[export] Instance quiet_preorder : PreOrder quiet.
Proof.
  split; [intros rf; split_and!; done || lia|].
  intros x y z (A1 & A2 & A3 & A4) (B1 & B2 & B3 & B4). split_and!; [congruence|congruence|lia|].
  intros H. rewrite B4 by lia. apply A4. lia.
Qed.

Inductive shape (cl : Cluster) : Cluster → list event → Prop :=
| shape_quiet cl' a rf rf' ev :
    cl_nodes cl !! a = Some rf → quiet rf rf' → cl_nodes cl' = <[a := rf']> (cl_nodes cl) →
    cl_elections cl' = cl_elections cl → no_new_votes (cl_tasks cl) (cl_tasks cl') →
    Forall (λ e, match e with EvApply _ _ => True | _ => False end) ev →
    shape cl cl' ev
| shape_idle cl' :
    cl_nodes cl' = cl_nodes cl → cl_elections cl' = cl_elections cl →
    no_new_votes (cl_tasks cl) (cl_tasks cl') → shape cl cl' []
| shape_append cl' s rf rf' args now reply reply' :
    cl_nodes cl !! s = Some rf → AppendEntries rf args now = Ok (rf', reply) →
    ar_Term reply' = s32 (ar_Term reply) →
    cl_nodes cl' = <[s := rf']> (cl_nodes cl) → cl_elections cl' = cl_elections cl →
    no_new_votes (cl_tasks cl) (cl_tasks cl') → shape cl cl' [EvAppend s args reply']
| shape_elect cl' a rf rf' args now :
    cl_nodes cl !! a = Some rf → startElection rf now = Ok (rf', args) →
    cl_nodes cl' = <[a := rf']> (cl_nodes cl) →
    cl_elections cl' = cl_elections cl ++ [mkElection a (rf_currentTerm rf') 1] →
    cl_tasks cl' = cl_tasks cl ++ map (λ s, Some (VoteCall (length (cl_elections cl)) s args)) (peer_ids cl a) →
    shape cl cl' [EvElection a (rf_currentTerm rf')]
| shape_vote cl' k e s args rf rf' now reply reply' :
    cl_tasks cl !! k = Some (Some (VoteCall e s args)) → cl_nodes cl !! s = Some rf →
    RequestVote rf (wire_vote args) now = Ok (rf', reply) → vr_VoteGranted reply' = vr_VoteGranted reply →
    cl_nodes cl' = <[s := rf']> (cl_nodes cl) → cl_elections cl' = cl_elections cl →
    cl_tasks cl' = <[k := Some (VoteBack e s reply')]> (cl_tasks cl) →
    shape cl cl' [EvVote s (wire_vote args) reply']
| shape_count cl' k e s reply el rf rf' votes won ts :
    cl_tasks cl !! k = Some (Some (VoteBack e s reply)) → cl_elections cl !! e = Some el →
    cl_nodes cl !! el_cand el = Some rf →
    on_vote_reply rf (el_term el) (el_votes el) reply = (rf', votes, won) →
    cl_nodes cl' = <[el_cand el := rf']> (cl_nodes cl) →
    cl_elections cl' = <[e := mkElection (el_cand el) (el_term el) votes]> (cl_elections cl) →
    cl_tasks cl' = <[k := None]> (cl_tasks cl) ++ ts → Forall (λ t, vote_task t = None) ts →
    shape cl cl' (if won : bool then [EvLeader (el_cand el) (rf_currentTerm rf')] else []).

Lemma no_new_votes_refl ts : no_new_votes ts ts.
Proof. intros k t e s H _. done. Qed.

Lemma no_new_votes_insert ts k t : vote_task t = None → no_new_votes ts (<[k := t]> ts).
Proof.
  intros Ht k' t' e s Hk Hv. destruct (decide (k = k')) as [->|Hne]; [|by rewrite list_lookup_insert_ne in Hk].
  pose proof (lookup_lt_Some _ _ _ Hk) as Hlt. rewrite length_insert in Hlt.
  rewrite list_lookup_insert_eq in Hk by done. injection Hk as <-. congruence.
Qed.

Lemma no_new_votes_app ts ts' new :
  no_new_votes ts ts' → Forall (λ t, vote_task t = None) new → no_new_votes ts (ts' ++ new).
Proof.
  intros Hn Hf k t e s Hk Hv. apply lookup_app_Some in Hk as [Hk|[_ Hk]]; [by eapply Hn|].
  eapply Forall_lookup_1 in Hf; [|done]. simpl in Hf. congruence.
Qed.

Lemma votes_none_map {A} (f : A → Task) l :
  (∀ x, vote_task (Some (f x)) = None) → Forall (λ t, vote_task t = None) (map Some (map f l)).
Proof. intros H. apply Forall_map, Forall_map, Forall_forall. intros x _. apply H. Qed.

Create HintDb raft.
#[export] Hint Resolve no_new_votes_refl no_new_votes_insert no_new_votes_app : raft.

(** ** The quiet handlers *)

Lemma on_append_reply_quiet rf server args reply : quiet rf (on_append_reply rf server args reply).
Proof.
  unfold on_append_reply. destruct (Z.ltb_spec (rf_currentTerm rf) (ar_Term reply)).
  { split_and!; simpl; done || lia. }
  destruct (ar_Success reply); [|split_and!; done || lia].
  set (rf1 := if _ <? _ then _ else rf). trans rf1; [unfold rf1; destruct (_ <? _); split_and!; done || (simpl; lia)|].
  destruct (commit_loop_frame rf1 (length (rf_log rf1)) (len (rf_log rf1) - 1)) as (H1 & _ & H2 & _ & H3 & H4 & _).
  split_and!; [done|done|by rewrite H1|by rewrite H2].
Qed.

Lemma Start_quiet rf command : quiet rf (fst (Start rf command)).
Proof. unfold Start. destruct (negb _); split_and!; simpl; done || lia. Qed.

Lemma replicator_quiet rf : quiet rf (replicated rf).
Proof. unfold replicated, persisted. destruct (0 <? _); split_and!; simpl; done || lia. Qed.

Lemma applier_quiet rf rf' es : applier rf = Ok (rf', es) → quiet rf rf'.
Proof.
  unfold applier. cbv zeta. destruct (_ <=? _); [intros [= <- <-]; split_and!; simpl; done || lia|].
  destruct (collect _ _ _ _); cbn [mbind outcome_bind]; [|done..].
  intros [= <- <-]. split_and!; simpl; done || lia.
Qed.

Lemma startElection_spec rf now rf' args :
  startElection rf now = Ok (rf', args) →
  rf_me rf' = rf_me rf ∧ rf_peers rf' = rf_peers rf ∧ rf_currentTerm rf' = rf_currentTerm rf + 1 ∧
  rf_votedFor rf' = rf_me rf ∧ rf_state rf' = Candidate ∧ rf_log rf' = rf_log rf ∧
  va_Term args = rf_currentTerm rf' ∧ va_CandidateId args = rf_me rf.
Proof.
  unfold startElection. cbv zeta. destruct (index _ _); cbn [mbind outcome_bind]; [|done..].
  by intros [= <- <-].
Qed.

Lemma value_Some {A} (o : outcome A) x : value o = Some x → o = Ok x.
Proof. destruct o; simpl; congruence. Qed.

(** ** Every step has one of the shapes *)

Lemma elect_shape cl a t now cl' ev : elect (set_tick cl a t) a now = Some (cl', ev) → shape cl cl' ev.
Proof.
  unfold elect. simpl. destruct (cl_nodes cl !! a) as [rf|] eqn:Ha; [|done]. simpl.
  destruct (value _) as [[rf' args]|] eqn:E; [|done]. apply value_Some in E. simpl. intros [= <- <-].
  eapply (shape_elect _ _ a rf rf' args now); try done. simpl. rewrite map_map.
  unfold peer_ids. simpl. by rewrite length_insert.
Qed.

Lemma run_task_shape cl k t now cl' ev :
  cl_tasks cl !! k = Some (Some t) → run_task cl k t now = Some (cl', ev) → shape cl cl' ev.
Proof.
  intros Hk. destruct t as [a|a s term|a s args|a s args reply|e s args|e s reply]; simpl.
  - destruct (cl_nodes cl !! a) as [rf|] eqn:Ha; [|done]. simpl. destruct (bool_decide _); intros [= <- <-];
      apply shape_idle; simpl; auto using votes_none_map with raft.
  - destruct (cl_nodes cl !! a) as [rf|] eqn:Ha; [|done]. simpl. destruct (value _) as [[args|]|]; [..|done];
      intros [= <- <-]; apply shape_idle; simpl; auto with raft.
  - destruct (cl_nodes cl !! s) as [rf|] eqn:Ha; [|done]. simpl.
    destruct (value _) as [[rf' r]|] eqn:E; [|done]. apply value_Some in E. simpl.
    apply append_rpc_spec in E as (reply & E & ->). simpl. intros [= <- <-].
    eapply (shape_append _ _ s rf rf' (wire_append args) now reply); simpl; auto with raft.
  - destruct (cl_nodes cl !! a) as [rf|] eqn:Ha; [|done]. simpl. intros [= <- <-].
    eapply (shape_quiet _ _ a rf); simpl; auto using on_append_reply_quiet with raft.
  - destruct (cl_nodes cl !! s) as [rf|] eqn:Ha; [|done]. simpl.
    destruct (value _) as [[rf' r]|] eqn:E; [|done]. apply value_Some in E. simpl.
    apply vote_rpc_spec in E as (reply & E & ->). simpl. intros [= <- <-].
    by eapply (shape_vote _ _ k e s args rf rf' now reply).
  - destruct (cl_elections cl !! e) as [el|] eqn:He; [|done]. simpl.
    destruct (cl_nodes cl !! el_cand el) as [rf|] eqn:Ha; [|done]. simpl.
    destruct (on_vote_reply _ _ _ _) as [[rf' votes] won] eqn:E. intros H.
    replace ev with (if won then [EvLeader (el_cand el) (rf_currentTerm rf')] else [])
      by (destruct won; by injection H).
    eapply (shape_count _ _ k e s reply el rf rf' votes won (if won then [Some (SendHeartBeats (el_cand el))] else []));
      try done; destruct won; injection H as <- <-; simpl; rewrite ?app_nil_r; auto.
Qed.

Lemma do_action_shape cl act cl' ev : do_action cl act = Some (cl', ev) → shape cl cl' ev.
Proof.
  destruct act as [a now timeout|a now|k now|k|a command|a|a]; simpl.
  - destruct (cl_nodes cl !! a); [|done]. intros [= <- <-]. apply shape_idle; simpl; auto with raft.
  - destruct (cl_ticks cl !! a) as [[| |]|]; simpl; [| | |done].
    + intros [= <- <-]. apply shape_idle; simpl; auto with raft.
    + apply elect_shape.
    + intros [= <- <-]. apply shape_idle; simpl; auto with raft.
  - destruct (cl_tasks cl !! k) as [[t|]|] eqn:Hk; simpl; [|done..]. by apply run_task_shape.
  - intros [= <- <-]. apply shape_idle; simpl; auto with raft.
  - destruct (cl_nodes cl !! a) as [rf|] eqn:Ha; [|done]. simpl. intros [= <- <-].
    eapply (shape_quiet _ _ a rf); simpl; auto using Start_quiet with raft.
  - destruct (cl_nodes cl !! a) as [rf|] eqn:Ha; [|done]. simpl. destruct (rf_triggerCh rf); [|done].
    rewrite replicator_ok. simpl. intros [= <- <-]. eapply (shape_quiet _ _ a rf); simpl; auto using replicator_quiet with raft.
  - destruct (cl_nodes cl !! a) as [rf|] eqn:Ha; [|done]. simpl. destruct (rf_commitCh rf); [|done].
    destruct (value _) as [[rf' es]|] eqn:E; [|done]. apply value_Some in E. simpl. intros [= <- <-].
    eapply (shape_quiet _ _ a rf); simpl; eauto using applier_quiet with raft.
Qed.

(** ** The votes of a run *)

(** Node [v] gave its vote of term [t] to [c], by starting an election of its
    own or by granting a request. *)
Definition granted (tr : list event) (v : nat) (t c : Z) : Prop :=
  (EvElection v t ∈ tr ∧ c = Z.of_nat v) ∨
  ∃ args reply, EvVote v args reply ∈ tr ∧ vr_VoteGranted reply = true ∧ va_Term args = t ∧ va_CandidateId args = c.

(** Node [v] has handled an AppendEntries call of term [t] in that term; the
    refusal of an outdated call, answered with a greater term, does not count. *)
Definition appended (tr : list event) (v : nat) (t : Z) : Prop :=
  ∃ args reply, EvAppend v args reply ∈ tr ∧ aa_Term args = t ∧ ar_Term reply = t.

(** No node has granted a vote request of term [t] after it had handled an
    AppendEntries call of that term. *)
Definition no_late (tr : list event) (t : Z) : Prop :=
  ∀ tr1 tr2 s args reply, tr = tr1 ++ EvVote s args reply :: tr2 →
    vr_VoteGranted reply = true → va_Term args = t → ¬ appended tr1 s t.

Lemma granted_mono tr ev v t c : granted tr v t c → granted (tr ++ ev) v t c.
Proof.
  intros [[H1 H2]|(args & reply & H1 & H2)]; [left|right; exists args, reply]; rewrite elem_of_app; auto.
Qed.

Lemma no_late_app tr ev t : no_late (tr ++ ev) t → no_late tr t.
Proof. intros H tr1 tr2 s args reply ->. apply (H tr1 (tr2 ++ ev) s args reply). by rewrite <-(assoc_L (++)). Qed.

Lemma appended_mono tr ev v t : appended tr v t → appended (tr ++ ev) v t.
Proof. intros (args & reply & H & E). exists args, reply. rewrite elem_of_app. auto. Qed.

(** Events that are no AppendEntries calls. *)
Definition appendless (ev : list event) : Prop := Forall (λ e, match e with EvAppend _ _ _ => False | _ => True end) ev.

Lemma appended_appendless tr ev v t : appendless ev → appended (tr ++ ev) v t → appended tr v t.
Proof.
  intros He (args & reply & [H|H]%elem_of_app & E); [by exists args, reply|].
  unfold appendless in He. rewrite Forall_forall in He. by destruct (He _ H).
Qed.

(** Events that are no votes. *)
Definition voteless (ev : list event) : Prop :=
  Forall (λ e, match e with EvElection _ _ | EvVote _ _ _ => False | _ => True end) ev.

Lemma granted_voteless tr ev v t c : voteless ev → granted (tr ++ ev) v t c → granted tr v t c.
Proof.
  intros Hv. unfold voteless in Hv. rewrite Forall_forall in Hv.
  intros [[[H1|H1]%elem_of_app H2]|(args & reply & [H1|H1]%elem_of_app & H2)];
    [by left|by destruct (Hv _ H1)|by right; exists args, reply|by destruct (Hv _ H1)].
Qed.

Lemma granted_one tr v t c v' t' :
  granted (tr ++ [EvElection v' t']) v t c → granted tr v t c ∨ (v = v' ∧ t = t' ∧ c = Z.of_nat v).
Proof.
  intros [[[H1|H1]%elem_of_app H2]|(args & reply & [H1|H1]%elem_of_app & H2)].
  - left. by left.
  - right. apply list_elem_of_singleton in H1. naive_solver.
  - left. right. by exists args, reply.
  - by apply list_elem_of_singleton in H1.
Qed.

Lemma granted_vote tr v t c v' args reply :
  granted (tr ++ [EvVote v' args reply]) v t c →
  granted tr v t c ∨ (v = v' ∧ vr_VoteGranted reply = true ∧ va_Term args = t ∧ va_CandidateId args = c).
Proof.
  intros [[[H1|H1]%elem_of_app H2]|(args' & reply' & [H1|H1]%elem_of_app & H2)].
  - left. by left.
  - by apply list_elem_of_singleton in H1.
  - left. right. by exists args', reply'.
  - right. apply list_elem_of_singleton in H1. naive_solver.
Qed.

(** ** Quorums *)

(** Two majorities of the same nodes share one. *)
Lemma majorities_meet n (l1 l2 : list nat) :
  NoDup l1 → NoDup l2 → Forall (λ v, v < n)%nat l1 → Forall (λ v, v < n)%nat l2 →
  (n < 2 * length l1)%nat → (n < 2 * length l2)%nat → ∃ v, v ∈ l1 ∧ v ∈ l2.
Proof.
  intros N1 N2 F1 F2 L1 L2. destruct (decide (Exists (λ v, v ∈ l2) l1)) as [H|H].
  { apply Exists_exists in H as (v & H1 & H2). by exists v. }
  exfalso. assert (NoDup (l1 ++ l2)) as Hnd.
  { apply NoDup_app. split_and!; [done| |done]. intros x Hx Hx2. apply H, Exists_exists. by exists x. }
  assert (l1 ++ l2 ⊆+ seq 0 n) as Hsub.
  { apply NoDup_submseteq; [done|]. intros x Hx. rewrite Forall_forall in F1, F2.
    apply elem_of_seq. apply elem_of_app in Hx as [Hx|Hx]; [specialize (F1 x Hx)|specialize (F2 x Hx)]; lia. }
  apply submseteq_length in Hsub. rewrite length_app, length_seq in Hsub. lia.
Qed.

(** ** The invariant of a term *)

Section term.
Context (n : nat) (t : Z).
Hypothesis Hn : Z.of_nat n <= 2 ^ 31.
Hypothesis Ht : 0 <= t < 2 ^ 31.

Record term_inv (cl : Cluster) (tr : list event) : Prop := {
  ti_len : length (cl_nodes cl) = n;
  ti_node a rf : cl_nodes cl !! a = Some rf → rf_me rf = Z.of_nat a ∧ rf_peers rf = Z.of_nat n;
  ti_cand e el : cl_elections cl !! e = Some el → (el_cand el < n)%nat;
  ti_vote v c : granted tr v t c →
    0 <= c ∧ (v < n)%nat ∧ ∀ rf, cl_nodes cl !! v = Some rf → appended tr v t ∨ voted t c rf;
  ti_append v rf : appended tr v t → cl_nodes cl !! v = Some rf → t <= rf_currentTerm rf;
  ti_unique v c c' : no_late tr t → granted tr v t c → granted tr v t c' → c = c';
  ti_call k e s args : cl_tasks cl !! k = Some (Some (VoteCall e s args)) →
    ∃ el, cl_elections cl !! e = Some el ∧ va_Term args = el_term el ∧
      va_CandidateId args = Z.of_nat (el_cand el) ∧ s ≠ el_cand el ∧ (s < n)%nat;
  ti_back k e s reply : cl_tasks cl !! k = Some (Some (VoteBack e s reply)) →
    ∃ el, cl_elections cl !! e = Some el ∧ s ≠ el_cand el ∧ (s < n)%nat ∧
      (vr_VoteGranted reply = true → el_term el = t → granted tr s t (Z.of_nat (el_cand el)));
  ti_once k k' x x' p : cl_tasks cl !! k = Some x → cl_tasks cl !! k' = Some x' →
    vote_task x = Some p → vote_task x' = Some p → k = k';
  ti_count e el : cl_elections cl !! e = Some el → el_term el = t →
    ∃ voters, NoDup voters ∧ Z.of_nat (length voters) = el_votes el ∧
      Forall (λ v, (v < n)%nat ∧ granted tr v t (Z.of_nat (el_cand el))) voters ∧
      ∀ v k x, v ∈ voters → cl_tasks cl !! k = Some x → vote_task x ≠ Some (e, v);
  ti_leader a : EvLeader a t ∈ tr →
    ∃ voters, NoDup voters ∧ Forall (λ v, (v < n)%nat ∧ granted tr v t (Z.of_nat a)) voters ∧
      (n < 2 * length voters)%nat
}.

Lemma start_inv : term_inv (start_cluster n) [].
Proof.
  split; simpl; try (by intros; rewrite ?lookup_nil in *).
  - by rewrite length_map, length_seq.
  - intros a rf. rewrite list_lookup_fmap. intros (i & Hi & ->)%fmap_Some.
    apply lookup_seq in Hi as [-> _]. done.
  - intros v c [[H _]|(? & ? & H & _)]; by apply not_elem_of_nil in H.
  - intros v rf (? & ? & H & _). by apply not_elem_of_nil in H.
  - intros v c c' _ [[H _]|(? & ? & H & _)]; by apply not_elem_of_nil in H.
  - intros a H. by apply not_elem_of_nil in H.
Qed.

(** The majority of an elected leader decides. *)
Lemma term_inv_safe cl tr a b :
  term_inv cl tr → no_late tr t → EvLeader a t ∈ tr → EvLeader b t ∈ tr → a = b.
Proof.
  intros I Hc Ha Hb. destruct (ti_leader _ _ I a Ha) as (l1 & N1 & F1 & L1).
  destruct (ti_leader _ _ I b Hb) as (l2 & N2 & F2 & L2).
  destruct (majorities_meet n l1 l2) as (v & H1 & H2); try done;
    [by eapply Forall_impl; [done|]; intros ? []..|].
  rewrite Forall_forall in F1, F2. apply Nat2Z.inj. eapply (ti_unique _ _ I v); [done|by apply F1|by apply F2].
Qed.

(** The nodes of a step, as far as the invariant needs them. *)
Definition nodes_ok (cl cl' : Cluster) (tr' : list event) : Prop :=
  length (cl_nodes cl') = n ∧
  (∀ a rf, cl_nodes cl' !! a = Some rf → rf_me rf = Z.of_nat a ∧ rf_peers rf = Z.of_nat n) ∧
  (∀ v c rf rf', 0 <= c → cl_nodes cl !! v = Some rf → cl_nodes cl' !! v = Some rf' →
     voted t c rf → appended tr' v t ∨ voted t c rf') ∧
  (∀ v rf, appended tr' v t → cl_nodes cl' !! v = Some rf → t <= rf_currentTerm rf).

Lemma nodes_ok_insert cl tr ev cl' a rf rf' :
  term_inv cl tr → cl_nodes cl !! a = Some rf → cl_nodes cl' = <[a := rf']> (cl_nodes cl) →
  rf_me rf' = rf_me rf → rf_peers rf' = rf_peers rf → rf_currentTerm rf <= rf_currentTerm rf' →
  (∀ c, 0 <= c → voted t c rf → appended (tr ++ ev) a t ∨ voted t c rf') →
  (∀ v, appended (tr ++ ev) v t → appended tr v t ∨ v = a ∧ t <= rf_currentTerm rf') → nodes_ok cl cl' (tr ++ ev).
Proof.
  intros I Ha Hn' Hme Hp Hterm Hv Happ. pose proof (lookup_lt_Some _ _ _ Ha) as Hlt. unfold nodes_ok. rewrite Hn'.
  split; [rewrite length_insert; apply I|]. split_and!.
  - intros b x. destruct (decide (a = b)) as [->|Hne].
    + rewrite list_lookup_insert_eq by done. intros [= <-]. rewrite Hme, Hp. by apply (ti_node _ _ I).
    + rewrite list_lookup_insert_ne by done. apply I.
  - intros v c x x' Hc Hx. destruct (decide (a = v)) as [->|Hne].
    + rewrite list_lookup_insert_eq by done. intros [= <-]. assert (x = rf) as -> by congruence. by apply Hv.
    + rewrite list_lookup_insert_ne by done. intros Hx'. assert (x' = x) as -> by congruence. by right.
  - intros v x Hav Hx. destruct (decide (a = v)) as [->|Hne].
    + rewrite list_lookup_insert_eq in Hx by done. injection Hx as <-. destruct (Happ v Hav) as [H|[_ H]]; [|done].
      pose proof (ti_append _ _ I v rf H Ha). lia.
    + rewrite list_lookup_insert_ne in Hx by done. destruct (Happ v Hav) as [H|[-> _]]; [|done].
      by eapply (ti_append _ _ I).
Qed.

(** For steps that are no AppendEntries calls. *)
Lemma nodes_ok_quiet cl tr ev cl' a rf rf' :
  term_inv cl tr → cl_nodes cl !! a = Some rf → cl_nodes cl' = <[a := rf']> (cl_nodes cl) →
  rf_me rf' = rf_me rf → rf_peers rf' = rf_peers rf → rf_currentTerm rf <= rf_currentTerm rf' →
  (∀ c, 0 <= c → voted t c rf → voted t c rf') → appendless ev → nodes_ok cl cl' (tr ++ ev).
Proof.
  intros I Ha Hn' Hme Hp Hterm Hv Hev. eapply nodes_ok_insert; try done; [intros c Hc ?; right; auto|].
  intros v Hav. left. by eapply appended_appendless.
Qed.

Lemma voted_quiet c rf rf' : quiet rf rf' → voted t c rf → voted t c rf'.
Proof. intros (_ & _ & H1 & H2) [V1 V2]. split; [lia|]. intros Heq. rewrite H2 by lia. apply V2. lia. Qed.

Lemma ti_vote_step cl cl' tr ev v c :
  term_inv cl tr → nodes_ok cl cl' (tr ++ ev) → granted tr v t c →
  0 <= c ∧ (v < n)%nat ∧ ∀ rf, cl_nodes cl' !! v = Some rf → appended (tr ++ ev) v t ∨ voted t c rf.
Proof.
  intros I (Hl & _ & Hk & _) Hg. destruct (ti_vote _ _ I v c Hg) as (Hc & Hv & Hr). split_and!; [done..|].
  intros rf' Hrf'. destruct (lookup_lt_is_Some_2 (cl_nodes cl) v) as [rf Hrf]; [rewrite (ti_len _ _ I); lia|].
  destruct (Hr rf Hrf) as [H|H]; [left; by apply appended_mono|]. by eapply (Hk v c rf rf' Hc Hrf Hrf').
Qed.

(** Steps without votes, in terms of what the votes given leave in the
    nodes. *)
Lemma frame_votes cl tr cl' ev :
  term_inv cl tr → voteless ev → (∀ a, EvLeader a t ∉ ev) →
  length (cl_nodes cl') = n →
  (∀ a rf, cl_nodes cl' !! a = Some rf → rf_me rf = Z.of_nat a ∧ rf_peers rf = Z.of_nat n) →
  (∀ v c, granted tr v t c →
     0 <= c ∧ (v < n)%nat ∧ ∀ rf, cl_nodes cl' !! v = Some rf → appended (tr ++ ev) v t ∨ voted t c rf) →
  (∀ v rf, appended (tr ++ ev) v t → cl_nodes cl' !! v = Some rf → t <= rf_currentTerm rf) →
  cl_elections cl' = cl_elections cl → no_new_votes (cl_tasks cl) (cl_tasks cl') → term_inv cl' (tr ++ ev).
Proof.
  intros I Hev Hlead H1 H2 H3 H4 Hel Htasks. split; rewrite ?Hel; [done|done|apply I|..].
  - intros v c Hg%granted_voteless; [|done]. by apply H3.
  - done.
  - intros v c c' Hcl Hg%granted_voteless Hg'%granted_voteless; [|done..].
    eapply (ti_unique _ _ I v); [by eapply no_late_app|done|done].
  - intros k e s args Hk. eapply (ti_call _ _ I). by eapply Htasks.
  - intros k e s reply Hk. destruct (ti_back _ _ I k e s reply) as (el & E1 & E2 & E3 & E4); [by eapply Htasks|].
    exists el. split_and!; [done..|]. intros. apply granted_mono. auto.
  - intros k k' x x' [e s] Hk Hk' Hx Hx'. eapply (ti_once _ _ I k k' x x' (e, s)); [..|done|done]; by eapply Htasks.
  - intros e el He Het. destruct (ti_count _ _ I e el He Het) as (voters & C1 & C2 & C3 & C4).
    exists voters. split_and!; [done|done| |].
    + eapply Forall_impl; [done|]. intros v [? ?]. split; [done|]. by apply granted_mono.
    + intros v k x Hv Hk Hx. eapply (C4 v k x Hv); [by eapply Htasks|done].
  - intros a [Ha|Ha]%elem_of_app; [|by destruct (Hlead a)].
    destruct (ti_leader _ _ I a Ha) as (voters & L1 & L2 & L3). exists voters. split_and!; [done| |done].
    eapply Forall_impl; [done|]. intros v [? ?]. split; [done|]. by apply granted_mono.
Qed.

Lemma frame_inv cl tr cl' ev :
  term_inv cl tr → voteless ev → (∀ a, EvLeader a t ∉ ev) → nodes_ok cl cl' (tr ++ ev) →
  cl_elections cl' = cl_elections cl → no_new_votes (cl_tasks cl) (cl_tasks cl') → term_inv cl' (tr ++ ev).
Proof.
  intros I Hev Hlead Hnodes Hel Htasks. pose proof Hnodes as (H1 & H2 & _ & H4).
  apply (frame_votes cl); try done. intros v c Hg. by apply (ti_vote_step cl).
Qed.

Lemma append_voted rf args now rf' reply c :
  AppendEntries rf args now = Ok (rf', reply) → rf_currentTerm rf <= rf_currentTerm rf' ∧
  aa_Term args <= rf_currentTerm rf' ∧ (aa_Term args ≠ t → voted t c rf → voted t c rf').
Proof.
  intros (_ & _ & _ & H)%AppendEntries_spec. unfold voted.
  destruct (Z.ltb_spec (aa_Term args) (rf_currentTerm rf)); [destruct H as [-> _]; split_and!; done || lia|].
  destruct H as (H & _). split_and!; [lia|lia|]. intros Hne [V1 V2]. split; [lia|]. intros. lia.
Qed.

Lemma append_handled rf args now rf' reply :
  AppendEntries rf args now = Ok (rf', reply) → rf' = rf ∨ ar_Term reply = aa_Term args.
Proof.
  intros (H1 & _ & _ & H)%AppendEntries_spec. destruct (_ <? _); [left; by destruct H|right].
  destruct H as [<- _]. done.
Qed.

(** Facts shared by the steps that touch votes. *)
Definition voters_of (tr : list event) (c : Z) (voters : list nat) : Prop :=
  Forall (λ v, (v < n)%nat ∧ granted tr v t c) voters.

Lemma voters_mono tr ev c voters : voters_of tr c voters → voters_of (tr ++ ev) c voters.
Proof. intros H. eapply Forall_impl; [done|]. intros v [? ?]. split; [done|]. by apply granted_mono. Qed.

Lemma leader_mono cl tr ev a :
  term_inv cl tr → EvLeader a t ∈ tr →
  ∃ voters, NoDup voters ∧ voters_of (tr ++ ev) (Z.of_nat a) voters ∧ (n < 2 * length voters)%nat.
Proof.
  intros I Ha. destruct (ti_leader _ _ I a Ha) as (voters & L1 & L2 & L3). exists voters.
  split_and!; [done|by apply voters_mono|done].
Qed.

Lemma pending_election cl tr k x e s :
  term_inv cl tr → cl_tasks cl !! k = Some x → vote_task x = Some (e, s) →
  ∃ el, cl_elections cl !! e = Some el ∧ s ≠ el_cand el ∧ (s < n)%nat.
Proof.
  intros I Hk Hx. destruct x as [[]|]; try done; injection Hx as -> ->;
    [destruct (ti_call _ _ I k _ _ _ Hk) as (el & ? & ? & ? & ? & ?)
    |destruct (ti_back _ _ I k _ _ _ Hk) as (el & ? & ? & ? & ?)]; by exists el.
Qed.

Lemma peer_ids_lookup cl a i s : peer_ids cl a !! i = Some s → s ≠ a ∧ (s < length (cl_nodes cl))%nat.
Proof.
  intros Hs%list_elem_of_lookup_2. apply list_elem_of_filter in Hs as [Hs1 Hs2%elem_of_seq]. split; [done|lia].
Qed.

(** The tasks after an election started. *)
Lemma elect_task cl a args ts k x :
  ts = cl_tasks cl ++ map (λ s, Some (VoteCall (length (cl_elections cl)) s args)) (peer_ids cl a) →
  ts !! k = Some x →
  cl_tasks cl !! k = Some x ∨
  ∃ s, peer_ids cl a !! (k - length (cl_tasks cl))%nat = Some s ∧ (length (cl_tasks cl) <= k)%nat ∧
       x = Some (VoteCall (length (cl_elections cl)) s args).
Proof.
  intros -> [Hk|[Hk1 Hk2]]%lookup_app_Some; [by left|right].
  rewrite list_lookup_fmap in Hk2. apply fmap_Some in Hk2 as (s & Hs & ->). by exists s.
Qed.

Section elect.
Context (cl cl' : Cluster) (tr : list event) (a : nat) (rf rf' : Raft) (args : RequestVoteArgs) (now : Z).
Hypothesis I : term_inv cl tr.
Hypothesis Ha : cl_nodes cl !! a = Some rf.
Hypothesis Hstart : startElection rf now = Ok (rf', args).
Hypothesis Hnodes : cl_nodes cl' = <[a := rf']> (cl_nodes cl).
Hypothesis Hel : cl_elections cl' = cl_elections cl ++ [mkElection a (rf_currentTerm rf') 1].
Hypothesis Htasks : cl_tasks cl' =
  cl_tasks cl ++ map (λ s, Some (VoteCall (length (cl_elections cl)) s args)) (peer_ids cl a).

Let ev := [EvElection a (rf_currentTerm rf')].

Lemma elect_nodes : nodes_ok cl cl' (tr ++ ev).
Proof.
  apply startElection_spec in Hstart as (Sme & Sp & Sterm & _).
  eapply nodes_ok_quiet; [done..|lia| |by repeat constructor]. intros c _ [V1 V2]. split; [lia|]. intros. lia.
Qed.

Lemma elect_vote v c : granted (tr ++ ev) v t c →
  0 <= c ∧ (v < n)%nat ∧ ∀ x, cl_nodes cl' !! v = Some x → appended (tr ++ ev) v t ∨ voted t c x.
Proof.
  pose proof (lookup_lt_Some _ _ _ Ha) as Hlt. pose proof (ti_len _ _ I) as Hlen.
  intros [Hg|(-> & Hta & ->)]%granted_one; [eapply (ti_vote_step cl); [done|apply elect_nodes|done]|].
  split_and!; [lia|lia|]. intros x. rewrite Hnodes, list_lookup_insert_eq by done. intros [= <-]. right.
  apply startElection_spec in Hstart as (_ & _ & _ & Svote & _). destruct (ti_node _ _ I a rf Ha).
  split; [lia|]. intros _. lia.
Qed.

(** The candidate had not voted in its new term. *)
Lemma elect_unique v c c' :
  no_late (tr ++ ev) t → granted (tr ++ ev) v t c → granted (tr ++ ev) v t c' → c = c'.
Proof.
  intros Hcl%no_late_app Hg Hg'.
  assert (∀ c, granted tr a t c → rf_currentTerm rf' ≠ t) as Hfresh.
  { intros d Hd. destruct (ti_vote _ _ I a d Hd) as (_ & _ & Hr).
    apply startElection_spec in Hstart as (_ & _ & Sterm & _).
    destruct (Hr rf Ha) as [H|[H _]]; [pose proof (ti_append _ _ I a rf H Ha)|]; lia. }
  apply granted_one in Hg as [Hg|(-> & Hta & ->)]; apply granted_one in Hg' as [Hg'|(? & Hta' & ->)]; simplify_eq.
  - by eapply (ti_unique _ _ I v).
  - by destruct (Hfresh c Hg).
  - by destruct (Hfresh c' Hg').
  - done.
Qed.

Lemma elect_once k k' x x' p :
  cl_tasks cl' !! k = Some x → cl_tasks cl' !! k' = Some x' →
  vote_task x = Some p → vote_task x' = Some p → k = k'.
Proof.
  destruct p as [e s].
  intros [Hk|(s1 & Hs1 & Hk & ->)]%(elect_task _ _ _ _ _ _ Htasks)
    [Hk'|(s2 & Hs2 & Hk' & ->)]%(elect_task _ _ _ _ _ _ Htasks) Hx Hx'.
  - by eapply (ti_once _ _ I k k' x x').
  - injection Hx' as <- <-. destruct (pending_election _ _ _ _ _ _ I Hk Hx) as (el & E & _).
    apply lookup_lt_Some in E. lia.
  - injection Hx as <- <-. destruct (pending_election _ _ _ _ _ _ I Hk' Hx') as (el & E & _).
    apply lookup_lt_Some in E. lia.
  - injection Hx as <- <-. injection Hx' as <-.
    assert (NoDup (peer_ids cl a)) as Hnd by (apply NoDup_filter, NoDup_seq).
    pose proof (NoDup_lookup _ _ _ _ Hnd Hs1 Hs2). lia.
Qed.

Lemma elect_count e el :
  cl_elections cl' !! e = Some el → el_term el = t →
  ∃ voters, NoDup voters ∧ Z.of_nat (length voters) = el_votes el ∧
    voters_of (tr ++ ev) (Z.of_nat (el_cand el)) voters ∧
    ∀ v k x, v ∈ voters → cl_tasks cl' !! k = Some x → vote_task x ≠ Some (e, v).
Proof.
  pose proof (lookup_lt_Some _ _ _ Ha) as Hlt. pose proof (ti_len _ _ I) as Hlen.
  rewrite Hel. intros [H|[H1 H2]]%lookup_app_Some Het.
  - destruct (ti_count _ _ I e el H Het) as (voters & C1 & C2 & C3 & C4). exists voters.
    split_and!; [done|done|by apply voters_mono|].
    intros v k x Hv [Hk|(s' & Hs & _ & ->)]%(elect_task _ _ _ _ _ _ Htasks); [by eapply C4|]. intros [= <- <-].
    apply lookup_lt_Some in H. lia.
  - apply list_lookup_singleton_Some in H2 as [He0 <-]. simpl in *. exists [a].
    split_and!; [apply NoDup_singleton|done| |].
    + apply Forall_singleton. split; [lia|]. left. unfold ev. rewrite elem_of_app, list_elem_of_singleton, Het. auto.
    + intros v k x ->%list_elem_of_singleton [Hk|(s' & Hs & _ & ->)]%(elect_task _ _ _ _ _ _ Htasks).
      * intros Hx. destruct (pending_election _ _ _ _ _ _ I Hk Hx) as (el & E & _). apply lookup_lt_Some in E. lia.
      * intros [= _ <-]. by destruct (peer_ids_lookup _ _ _ _ Hs).
Qed.

Lemma elect_inv : term_inv cl' (tr ++ ev).
Proof.
  pose proof (lookup_lt_Some _ _ _ Ha) as Hlt. pose proof (ti_len _ _ I) as Hlen.
  destruct elect_nodes as (O1 & O2 & _ & O4).
  assert (∀ e el, cl_elections cl !! e = Some el → cl_elections cl' !! e = Some el) as Hold
    by (intros e el He; rewrite Hel; by apply lookup_app_l_Some).
  split; [done|done| |apply elect_vote|done|apply elect_unique| | |apply elect_once|apply elect_count|].
  - intros e el. rewrite Hel. intros [H|[H1 H2]]%lookup_app_Some; [by eapply (ti_cand _ _ I)|].
    apply list_lookup_singleton_Some in H2 as [_ <-]. simpl. lia.
  - intros k e s args' [Hk|(s' & Hs & _ & Hx)]%(elect_task _ _ _ _ _ _ Htasks).
    + destruct (ti_call _ _ I k e s args' Hk) as (el & E1 & E2). exists el. split; [by apply Hold|done].
    + injection Hx as -> -> ->. exists (mkElection a (rf_currentTerm rf') 1).
      destruct (peer_ids_lookup _ _ _ _ Hs). destruct (ti_node _ _ I a rf Ha).
      apply startElection_spec in Hstart as (_ & _ & _ & _ & _ & _ & Sat & Sac).
      split_and!; [|done|simpl; congruence|done|lia]. rewrite Hel. by apply list_lookup_middle.
  - intros k e s reply [Hk|(s' & Hs & _ & Hx)]%(elect_task _ _ _ _ _ _ Htasks); [|done].
    destruct (ti_back _ _ I k e s reply Hk) as (el & E1 & E2 & E3 & E4). exists el.
    split_and!; [by apply Hold|done|done|]. intros. apply granted_mono. auto.
  - intros b [Hb|Hb]%elem_of_app; [by eapply leader_mono|by apply list_elem_of_singleton in Hb].
Qed.
End elect.

(** A vote request is answered. *)
Section vote.
Context (cl cl' : Cluster) (tr : list event) (k e s : nat) (args : RequestVoteArgs).
Context (rf rf' : Raft) (now : Z) (reply reply' : RequestVoteReply).
Hypothesis I : term_inv cl tr.
Hypothesis Hk : cl_tasks cl !! k = Some (Some (VoteCall e s args)).
Hypothesis Hs : cl_nodes cl !! s = Some rf.
Hypothesis Hvote : RequestVote rf (wire_vote args) now = Ok (rf', reply).
Hypothesis Hreply : vr_VoteGranted reply' = vr_VoteGranted reply.
Hypothesis Hnodes : cl_nodes cl' = <[s := rf']> (cl_nodes cl).
Hypothesis Hel : cl_elections cl' = cl_elections cl.
Hypothesis Htasks : cl_tasks cl' = <[k := Some (VoteBack e s reply')]> (cl_tasks cl).

Let ev := [EvVote s (wire_vote args) reply'].

Lemma vote_nodes : nodes_ok cl cl' (tr ++ ev).
Proof.
  pose proof (RequestVote_spec _ _ _ _ _ Hvote) as (V1 & _ & _ & Vp & Vme & _).
  eapply nodes_ok_quiet; [done..|lia| |by repeat constructor]. intros c Hc Hv. eapply voted_RequestVote; [done|lia|done].
Qed.

(** A granted request carries the candidate of its election. *)
Lemma vote_candidate :
  ∃ el, cl_elections cl !! e = Some el ∧ s ≠ el_cand el ∧ (s < n)%nat ∧
    va_CandidateId (wire_vote args) = Z.of_nat (el_cand el) ∧ va_Term (wire_vote args) = s32 (el_term el).
Proof.
  destruct (ti_call _ _ I k e s args Hk) as (el & E1 & E2 & E3 & E4 & E5). exists el.
  split_and!; [done..| |simpl; by rewrite E2]. simpl. rewrite E3.
  pose proof (ti_cand _ _ I e el E1). apply s32_id. unfold is_s32. lia.
Qed.

Lemma vote_vote v c : granted (tr ++ ev) v t c →
  0 <= c ∧ (v < n)%nat ∧ ∀ x, cl_nodes cl' !! v = Some x → appended (tr ++ ev) v t ∨ voted t c x.
Proof.
  intros [Hg|(-> & Hgr & Hta & Hca)]%granted_vote; [eapply (ti_vote_step cl); [done|apply vote_nodes|done]|].
  destruct vote_candidate as (el & _ & _ & Hsn & Hc & _). split_and!; [lia|done|]. intros x.
  rewrite Hnodes, list_lookup_insert_eq by (by eapply lookup_lt_Some). intros [= <-]. right.
  pose proof (RequestVote_spec _ _ _ _ _ Hvote) as (_ & _ & _ & _ & _ & V).
  rewrite <-Hreply, Hgr in V. destruct V as (V1 & V2 & _). split; [lia|]. intros _. congruence.
Qed.

Lemma vote_unique v c c' :
  no_late (tr ++ ev) t → granted (tr ++ ev) v t c → granted (tr ++ ev) v t c' → c = c'.
Proof.
  intros Hlate Hg Hg'. pose proof (no_late_app _ _ _ Hlate) as Hcl.
  assert (∀ c, vr_VoteGranted reply' = true → va_Term (wire_vote args) = t → granted tr s t c →
    c = va_CandidateId (wire_vote args)) as Hsame.
  { intros d Hgr Hta Hd. destruct (ti_vote _ _ I s d Hd) as (H0 & _ & Hr).
    destruct (Hr rf Hs) as [H|Hv]; [by destruct (Hlate tr [] s (wire_vote args) reply' eq_refl Hgr Hta)|].
    destruct (voted_RequestVote t d rf _ _ _ _ Hv ltac:(lia) Hvote) as [_ Hc].
    pose proof (RequestVote_spec _ _ _ _ _ Hvote) as (_ & V0 & _ & _ & _ & V).
    rewrite <-Hreply, Hgr in V, Hc. symmetry. apply Hc; [done|]. destruct V as (V & _). congruence. }
  apply granted_vote in Hg as [Hg|(-> & Hgr & Hta & <-)];
    apply granted_vote in Hg' as [Hg'|(Hv & Hgr' & Hta' & <-)]; subst.
  - by eapply (ti_unique _ _ I v).
  - by apply Hsame.
  - symmetry. by apply Hsame.
  - done.
Qed.

(** The pending calls are the same ones. *)
Lemma vote_task_same j x : cl_tasks cl' !! j = Some x →
  ∃ x', cl_tasks cl !! j = Some x' ∧ vote_task x' = vote_task x ∧ (j ≠ k → x' = x).
Proof.
  rewrite Htasks. destruct (decide (k = j)) as [<-|Hne].
  - rewrite list_lookup_insert_eq by (by eapply lookup_lt_Some). intros [= <-]. by eexists.
  - rewrite list_lookup_insert_ne by done. intros. by exists x.
Qed.

Lemma vote_inv : term_inv cl' (tr ++ ev).
Proof.
  destruct vote_nodes as (O1 & O2 & _ & O4). destruct vote_candidate as (el & E1 & E2 & E3 & E4 & E5).
  assert (cl_tasks cl' !! k = Some (Some (VoteBack e s reply'))) as Hk'
    by (rewrite Htasks; apply list_lookup_insert_eq; by eapply lookup_lt_Some).
  split; rewrite ?Hel; [done|done|apply I|apply vote_vote|done|apply vote_unique|..].
  - intros j e' s' args' Hj. destruct (vote_task_same j _ Hj) as (x' & H1 & _ & H3).
    destruct (decide (j = k)) as [->|Hne]; [congruence|]. rewrite H3 in H1 by done. by apply (ti_call _ _ I j).
  - intros j e' s' r Hj. destruct (vote_task_same j _ Hj) as (x' & H1 & _ & H3).
    destruct (decide (j = k)) as [->|Hne].
    + rewrite Hk' in Hj. injection Hj as <- <- <-. exists el. split_and!; [done..|]. intros Hgr Het. right.
      exists (wire_vote args), reply'. unfold ev. rewrite elem_of_app, list_elem_of_singleton. split_and!; [by right|done| |done].
      rewrite E5, Het. apply s32_id. unfold is_s32. lia.
    + rewrite H3 in H1 by done. destruct (ti_back _ _ I j e' s' r H1) as (el' & F1 & F2 & F3 & F4).
      exists el'. split_and!; [done..|]. intros. apply granted_mono. auto.
  - intros j j' x x' p (y & Y1 & Y2 & _)%vote_task_same (y' & Y1' & Y2' & _)%vote_task_same Hx Hx'.
    eapply (ti_once _ _ I j j' y y' p); congruence.
  - intros e' el' He' Het. destruct (ti_count _ _ I e' el' He' Het) as (voters & C1 & C2 & C3 & C4).
    exists voters. split_and!; [done|done|by apply voters_mono|].
    intros v j x Hv (y & Y1 & Y2 & _)%vote_task_same. rewrite <-Y2. by eapply C4.
  - intros b [Hb|Hb]%elem_of_app; [by eapply leader_mono|by apply list_elem_of_singleton in Hb].
Qed.
End vote.

Lemma on_vote_reply_quiet rf term votes reply rf' votes' won :
  on_vote_reply rf term votes reply = (rf', votes', won) → quiet rf rf'.
Proof. intros (H1 & H2 & H3 & _ & _ & H4)%on_vote_reply_spec. done. Qed.

Lemma on_vote_reply_won rf term votes reply rf' votes' :
  on_vote_reply rf term votes reply = (rf', votes', true) →
  rf_currentTerm rf' = term ∧ votes' = rf_peers rf / 2 + 1.
Proof.
  unfold on_vote_reply. destruct (negb _); [done|]. cbn [orb].
  destruct (Z.eqb_spec (rf_currentTerm rf) term) as [Heq|]; [|done]. cbn [negb].
  destruct (_ <? _); [done|]. destruct (vr_VoteGranted reply); [|done].
  destruct (Z.eqb_spec (votes + 1) (votesRequired rf)) as [Hv|]; [|done]. by intros [= <- <-].
Qed.

(** A vote is counted. *)
Section count.
Context (cl cl' : Cluster) (tr : list event) (k e s : nat) (reply : RequestVoteReply) (el : Election).
Context (rf rf' : Raft) (votes : Z) (won : bool) (ts : list (option Task)).
Hypothesis I : term_inv cl tr.
Hypothesis Hk : cl_tasks cl !! k = Some (Some (VoteBack e s reply)).
Hypothesis He : cl_elections cl !! e = Some el.
Hypothesis Hrf : cl_nodes cl !! el_cand el = Some rf.
Hypothesis Hreply : on_vote_reply rf (el_term el) (el_votes el) reply = (rf', votes, won).
Hypothesis Hnodes : cl_nodes cl' = <[el_cand el := rf']> (cl_nodes cl).
Hypothesis Hel : cl_elections cl' = <[e := mkElection (el_cand el) (el_term el) votes]> (cl_elections cl).
Hypothesis Htasks : cl_tasks cl' = <[k := None]> (cl_tasks cl) ++ ts.
Hypothesis Hts : Forall (λ x, vote_task x = None) ts.

Let ev := if won then [EvLeader (el_cand el) (rf_currentTerm rf')] else [].

Lemma count_tasks : no_new_votes (cl_tasks cl) (cl_tasks cl').
Proof. rewrite Htasks. auto with raft. Qed.

Lemma count_done x : cl_tasks cl' !! k = Some x → vote_task x = None.
Proof.
  rewrite Htasks, lookup_app_l by (rewrite length_insert; by eapply lookup_lt_Some).
  rewrite list_lookup_insert_eq by (by eapply lookup_lt_Some). by intros [= <-].
Qed.

Lemma count_voteless : voteless ev.
Proof. unfold ev. destruct won; repeat constructor. Qed.

(** The elections are the old ones, but for the votes of [e]. *)
Lemma count_election e' el' : cl_elections cl' !! e' = Some el' →
  (e' = e ∧ el' = mkElection (el_cand el) (el_term el) votes) ∨ (e' ≠ e ∧ cl_elections cl !! e' = Some el').
Proof.
  rewrite Hel. destruct (decide (e = e')) as [<-|Hne].
  - rewrite list_lookup_insert_eq by (by eapply lookup_lt_Some). intros [= <-]. by left.
  - rewrite list_lookup_insert_ne by done. by right.
Qed.

Lemma count_election_old e' el0 : cl_elections cl !! e' = Some el0 →
  ∃ el1, cl_elections cl' !! e' = Some el1 ∧ el_cand el1 = el_cand el0 ∧ el_term el1 = el_term el0.
Proof.
  rewrite Hel. destruct (decide (e = e')) as [<-|Hne].
  - rewrite list_lookup_insert_eq by (by eapply lookup_lt_Some). intros. eexists. split; [done|].
    by assert (el0 = el) as -> by congruence.
  - rewrite list_lookup_insert_ne by done. intros. by exists el0.
Qed.

(** The counted vote comes from a node that was not counted before. *)
Lemma count_voters : el_term el = t →
  ∃ voters, NoDup voters ∧ Z.of_nat (length voters) = votes ∧
    voters_of (tr ++ ev) (Z.of_nat (el_cand el)) voters ∧
    ∀ v j x, v ∈ voters → cl_tasks cl' !! j = Some x → vote_task x ≠ Some (e, v).
Proof.
  intros Het. destruct (ti_count _ _ I e el He Het) as (voters & C1 & C2 & C3 & C4).
  pose proof (on_vote_reply_spec _ _ _ _ _ _ _ Hreply) as (_ & _ & _ & _ & Hv & _).
  destruct Hv as [->|(-> & Hgr & _)].
  - exists voters. split_and!; [done|done|by apply voters_mono|]. intros v j x Hv Hj Hx.
    eapply (C4 v j x Hv); [by eapply count_tasks|done].
  - destruct (ti_back _ _ I k e s reply Hk) as (el' & E1 & E2 & E3 & E4).
    assert (el' = el) as -> by congruence. exists (s :: voters). split_and!.
    + apply NoDup_cons. split; [|done]. intros Hs. by eapply (C4 s k _ Hs Hk).
    + simpl. lia.
    + apply Forall_cons. split; [|by apply voters_mono]. split; [done|]. apply granted_mono. auto.
    + intros v j x [->|Hv]%elem_of_cons Hj Hx.
      * assert (j = k) as -> by (eapply (ti_once _ _ I j k x); [by eapply count_tasks|done|done|done]).
        rewrite (count_done x Hj) in Hx. done.
      * eapply (C4 v j x Hv); [by eapply count_tasks|done].
Qed.

Lemma count_leader a : EvLeader a t ∈ tr ++ ev →
  ∃ voters, NoDup voters ∧ voters_of (tr ++ ev) (Z.of_nat a) voters ∧ (n < 2 * length voters)%nat.
Proof.
  intros [Ha|Ha]%elem_of_app; [by eapply leader_mono|].
  assert (won = true) as Hw by (unfold ev in Ha; destruct won; [done|by apply not_elem_of_nil in Ha]).
  assert (a = el_cand el ∧ rf_currentTerm rf' = t) as [-> Hrt]
    by (unfold ev in Ha; rewrite Hw in Ha; apply list_elem_of_singleton in Ha; by injection Ha).
  clear Ha. pose proof Hreply as Hr. rewrite Hw in Hr. destruct (on_vote_reply_won _ _ _ _ _ _ Hr) as [H1 H2].
  destruct count_voters as (voters & V1 & V2 & V3 & _); [congruence|].
  exists voters. split_and!; [done|done|]. destruct (ti_node _ _ I _ _ Hrf) as [_ Hp]. rewrite H2, Hp in V2.
  pose proof (Z.div_mod (Z.of_nat n) 2). pose proof (Z.mod_pos_bound (Z.of_nat n) 2). lia.
Qed.

Lemma count_inv : term_inv cl' (tr ++ ev).
Proof.
  assert (nodes_ok cl cl' (tr ++ ev)) as Hok.
  { pose proof (on_vote_reply_quiet _ _ _ _ _ _ _ Hreply) as Hq. pose proof Hq as (Q1 & Q2 & Q3 & _).
    eapply nodes_ok_quiet; [done..| |unfold ev; destruct won; by repeat constructor]. intros c _. by apply voted_quiet. }
  pose proof Hok as (O1 & O2 & _ & O4). pose proof count_tasks as Hnew.
  split; [done|done|..|apply count_leader].
  - intros e' el' [[_ ->]|[_ H]]%count_election; [exact (ti_cand _ _ I e el He)|by eapply (ti_cand _ _ I)].
  - intros v c Hg%granted_voteless; [|apply count_voteless]. by apply (ti_vote_step cl).
  - done.
  - intros v c c' Hcl Hg%granted_voteless Hg'%granted_voteless; [|apply count_voteless..].
    eapply (ti_unique _ _ I v); [by eapply no_late_app|done|done].
  - intros j e' s' args Hj. destruct (ti_call _ _ I j e' s' args) as (el0 & E1 & E2 & E3 & E4 & E5); [by eapply Hnew|].
    destruct (count_election_old e' el0 E1) as (el1 & F1 & F2 & F3). exists el1. rewrite F2, F3. done.
  - intros j e' s' r Hj. destruct (ti_back _ _ I j e' s' r) as (el0 & E1 & E2 & E3 & E4); [by eapply Hnew|].
    destruct (count_election_old e' el0 E1) as (el1 & F1 & F2 & F3). exists el1. rewrite F2, F3.
    split_and!; [done..|]. intros. apply granted_mono. auto.
  - intros j j' x x' [e' s'] Hj Hj' Hx Hx'. eapply (ti_once _ _ I j j' x x'); [..|done|done]; by eapply Hnew.
  - intros e' el' [[-> ->]|[Hne H]]%count_election Het; [by apply count_voters|].
    destruct (ti_count _ _ I e' el' H Het) as (voters & C1 & C2 & C3 & C4). exists voters.
    split_and!; [done|done|by apply voters_mono|]. intros v j x Hv Hj Hx.
    eapply (C4 v j x Hv); [by eapply Hnew|done].
Qed.
End count.

Lemma cluster_step_inv cl tr act cl' ev : term_inv cl tr → do_action cl act = Some (cl', ev) → term_inv cl' (tr ++ ev).
Proof.
  intros I H%do_action_shape. destruct H as
    [cl' a rf rf' ev Ha Hq Hnodes Hel Hts Hev|cl' Hnodes Hel Hts|cl' s rf rf' args now reply reply' Ha Happ Hrt Hnodes Hel Hts
    |cl' a rf rf' args now Ha Hst Hnodes Hel Hts|cl' k e s args rf rf' now reply reply' Hk Ha Hv Hr Hnodes Hel Hts
    |cl' k e s reply el rf rf' votes won ts Hk He Ha Hr Hnodes Hel Hts Hnew].
  - apply (frame_inv cl); try done.
    + eapply Forall_impl; [done|]. by intros [].
    + intros b Hb. rewrite Forall_forall in Hev. by destruct (Hev _ Hb).
    + pose proof Hq as (Q1 & Q2 & Q3 & _). eapply nodes_ok_quiet; [done..| |].
      * intros c _. by apply voted_quiet.
      * eapply Forall_impl; [done|]. by intros [].
  - apply (frame_inv cl); try done; [apply Forall_nil_2|intros b; apply not_elem_of_nil|].
    rewrite app_nil_r. split_and!; rewrite Hnodes; [apply I|apply I| |apply I]. intros v c rf rf' _ Hrf.
    rewrite Hrf. intros [= <-]. by right.
  - apply (frame_inv cl); try done; [by repeat constructor|intros b Hb; by apply list_elem_of_singleton in Hb|].
    pose proof (AppendEntries_spec _ _ _ _ _ Happ) as (_ & Hp & Hme & _).
    eapply nodes_ok_insert; [done..| | |].
    + by apply (append_voted _ _ _ _ _ 0 Happ).
    + intros c _ Hv. destruct (decide (aa_Term args = t)) as [Heq|Hne];
        [|right; by apply (append_voted _ _ _ _ _ _ Happ)].
      destruct (append_handled _ _ _ _ _ Happ) as [->|Hrep]; [by right|left].
      exists args, reply'. rewrite elem_of_app, list_elem_of_singleton, Hrt, Hrep, Heq.
      split_and!; [by right|done|]. apply s32_id. unfold is_s32. lia.
    + intros v (args' & r' & [H|[= -> -> ->]%list_elem_of_singleton]%elem_of_app & <- & E);
        [left; by exists args', r'|right]. split; [done|]. by apply (append_voted _ _ _ _ _ 0 Happ).
  - by eapply elect_inv.
  - by eapply vote_inv.
  - by eapply count_inv.
Qed.

Lemma reach_inv cl tr : reach n cl tr → term_inv cl tr.
Proof. induction 1; [apply start_inv|by eapply cluster_step_inv]. Qed.

End term.

(** C10. Election safety: in every run of a cluster of up to 2^31 nodes, in
    which no node granted a vote of term [t] (below 2^31) after it had handled
    an AppendEntries call of that term, at most one node has become leader of
    term [t].  ([two_leaders_same_term]: such a late vote can elect a second
    leader.) *)
Theorem election_safety n cl tr t a b :
  reach n cl tr → Z.of_nat n <= 2 ^ 31 → 0 <= t < 2 ^ 31 → no_late tr t →
  EvLeader a t ∈ tr → EvLeader b t ∈ tr → a = b.
Proof. intros Hr Hn Ht. by apply (term_inv_safe n t cl), reach_inv. Qed.

(** Checking a run for late votes; [seen]: who has handled a call. *)
Fixpoint late_check (t : Z) (seen : list nat) (tr : list event) : bool :=
  match tr with
  | [] => true
  | EvVote s args reply :: tr' =>
      negb (vr_VoteGranted reply && (va_Term args =? t) && bool_decide (s ∈ seen)) && late_check t seen tr'
  | EvAppend s args _ :: tr' => late_check t (if aa_Term args =? t then s :: seen else seen) tr'
  | _ :: tr' => late_check t seen tr'
  end.

Lemma late_check_spec t seen tr :
  late_check t seen tr = true → ∀ tr1 tr2 s args reply, tr = tr1 ++ EvVote s args reply :: tr2 →
  vr_VoteGranted reply = true → va_Term args = t → s ∉ seen ∧ ¬ appended tr1 s t.
Proof.
  revert seen. induction tr as [|e tr IH]; intros seen Hc [|x tr1] tr2 s args reply E Hg Ht; try done.
  - injection E as -> ->. simpl in Hc. rewrite Hg, Ht, Z.eqb_refl in Hc. apply andb_true_iff in Hc as [Hs _].
    cbn [andb] in Hs. apply negb_true_iff, bool_decide_eq_false in Hs. split; [done|]. intros (? & ? & H & _). by apply not_elem_of_nil in H.
  - injection E as <- E.
    assert (∃ seen', late_check t seen' tr = true ∧ (∀ x, x ∈ seen → x ∈ seen') ∧
      ∀ v args' r, e = EvAppend v args' r → aa_Term args' = t → v ∈ seen') as (seen' & Hc' & Hs1 & Hs2).
    { destruct e as [| | |v args' r|]; simpl in Hc; try (exists seen; split_and!; done).
      - apply andb_true_iff in Hc as [_ Hc]. exists seen. by split_and!.
      - eexists. split; [exact Hc|]. split.
        + intros y Hy. destruct (_ =? _); [by right|done].
        + intros v0 a0 r0 [= -> -> ->] ->. rewrite Z.eqb_refl. by left. }
    destruct (IH seen' Hc' tr1 tr2 s args reply E Hg Ht) as [H1 H2]. split; [naive_solver|].
    intros (args' & r & [<-|Hin]%elem_of_cons & Ha & Ha'); [by apply H1; eapply Hs2|]. apply H2. by exists args', r.
Qed.

Lemma late_check_sound t tr : late_check t [] tr = true → no_late tr t.
Proof. intros Hc tr1 tr2 s args reply E Hg Ht. by apply (late_check_spec t [] tr Hc tr1 tr2 s args reply). Qed.

(** The first nine steps of the run above: node 0 becomes leader, and node 2,
    which voted for it, handles its heartbeat. *)
Lemma election_safety_witness :
  let x := after_run 3 (take 9 split_vote) in
  EvLeader 0 1 ∈ snd x ∧ appended (snd x) 2 1 ∧ ∀ b, EvLeader b 1 ∈ snd x → 0%nat = b.
Proof.
  assert (EvLeader 0 1 ∈ snd (after_run 3 (take 9 split_vote))) as H0
    by (apply (list_elem_of_lookup_2 _ 3); vm_compute; reflexivity).
  split; [exact H0|]. split.
  { exists (mkAppendArgs 1 0 0 0 [] 0), (mkAppendReply 1 true 0 0).
    split; [apply (list_elem_of_lookup_2 _ 4); vm_compute; reflexivity|split; reflexivity]. }
  intros b. apply (election_safety 3 (fst (after_run 3 (take 9 split_vote))) (snd (after_run 3 (take 9 split_vote))) 1 0 b).
  - apply after_run_reach. vm_compute. by eexists.
  - discriminate.
  - split; [discriminate|reflexivity].
  - apply late_check_sound. vm_compute. reflexivity.
  - exact H0.
Defined.

(** ** Clusters of one node *)

Lemma single_no_votes cl tr :
  reach 1 cl tr → length (cl_nodes cl) = 1%nat ∧ (∀ k x, cl_tasks cl !! k = Some x → vote_task x = None) ∧
  ∀ a t, EvLeader a t ∉ tr.
Proof.
  induction 1 as [|cl tr act cl' ev _ (IH1 & IH2 & IH3) Hs%do_action_shape].
  { split; [done|]. split; [intros k x; simpl; by rewrite lookup_nil|]. intros a t. apply not_elem_of_nil. }
  assert (∀ ts, no_new_votes (cl_tasks cl) ts → ∀ k x, ts !! k = Some x → vote_task x = None) as Hold.
  { intros ts Hn k x Hx. destruct (vote_task x) as [[e s]|] eqn:E; [|done].
    pose proof (Hn k x e s Hx E) as Hx'. by rewrite (IH2 k x Hx') in E. }
  assert (∀ a t, EvLeader a t ∉ tr ++ ev ↔ EvLeader a t ∉ ev) as Hev
    by (intros a t; rewrite not_elem_of_app; naive_solver).
  setoid_rewrite Hev. destruct Hs as
    [cl' a rf rf' ev Ha Hq Hnodes Hel Hts Hev'|cl' Hnodes Hel Hts|cl' s rf rf' args now reply reply' Ha Happ Hrt Hnodes Hel Hts
    |cl' a rf rf' args now Ha Hst Hnodes Hel Hts|cl' k e s args rf rf' now reply reply' Hk Ha Hv Hr Hnodes Hel Hts
    |cl' k e s reply el rf rf' votes won ts Hk He Ha Hr Hnodes Hel Hts Hnew];
    try (by specialize (IH2 k _ Hk)); rewrite Hnodes, ?length_insert; (split; [done|]).
  - split; [by apply Hold|]. intros b t Hb. rewrite Forall_forall in Hev'. by destruct (Hev' _ Hb).
  - split; [by apply Hold|]. intros b t. apply not_elem_of_nil.
  - split; [by apply Hold|]. intros b t Hb. by apply list_elem_of_singleton in Hb.
  - assert (peer_ids cl a = []) as Hp.
    { apply lookup_lt_Some in Ha. assert (a = 0%nat) as -> by lia. unfold peer_ids. by rewrite IH1. }
    rewrite Hts, Hp, app_nil_r. split; [done|]. intros b t Hb. by apply list_elem_of_singleton in Hb.
Qed.

(** A cluster of one node never has a leader: winning takes a vote reply from
    a peer, and the candidate's own vote is only counted with one. *)
Theorem single_node_never_leads cl tr a t : reach 1 cl tr → EvLeader a t ∉ tr.
Proof. intros Hr. by apply single_no_votes in Hr as (_ & _ & ?). Qed.
