(* ===== verification/RaftLog.v ===== *)
(** * Logs of a cluster

    Log matching: as long as every term has one leader and no counter leaves
    32 bits, two logs that hold an entry of the same term at the same index
    are equal up to that index.  The invariant ranges over every log any node
    has had; the entries in flight are parts of such logs, the follower's
    merge only produces prefixes of them, and only a leader adds an entry. *)

From stdpp Require Import base list gmap.
From Stdlib Require Import ZArith Lia.
From S2P Require Import Prelude RaftWal Raft RaftNode RaftApi RaftCluster RaftElection.

(** Runs in which terms and log positions fit in the messages. *)
Definition small (cl : Cluster) : bool :=
  forallb (λ rf, (rf_currentTerm rf <? 2 ^ 31) && (len (rf_log rf) <=? 2 ^ 31)) (cl_nodes cl).

Inductive reach_small (n : nat) : Cluster → list event → Prop :=
| reach_small_start : reach_small n (start_cluster n) []
| reach_small_step cl tr act cl' ev :
    reach_small n cl tr → do_action cl act = Some (cl', ev) → small cl' = true → reach_small n cl' (tr ++ ev).

Lemma reach_small_reach n cl tr : reach_small n cl tr → reach n cl tr.
Proof. induction 1; [constructor|by eapply reach_step]. Qed.

Lemma small_node cl a rf :
  small cl = true → cl_nodes cl !! a = Some rf → rf_currentTerm rf < 2 ^ 31 ∧ len (rf_log rf) <= 2 ^ 31.
Proof.
  unfold small. intros Hs Ha. rewrite forallb_forall in Hs.
  specialize (Hs rf (proj1 (list_elem_of_In _ _) (list_elem_of_lookup_2 _ _ _ Ha))). lia.
Qed.

Definition unique_leaders (tr : list event) : Prop :=
  ∀ a b t, EvLeader a t ∈ tr → EvLeader b t ∈ tr → a = b.

Lemma unique_leaders_app tr ev : unique_leaders (tr ++ ev) → unique_leaders tr.
Proof. intros H a b t Ha Hb. apply (H a b t); rewrite elem_of_app; auto. Qed.

(** ** What a follower's log becomes *)

Lemma AppendEntries_log rf args now rf' r :
  AppendEntries rf args now = Ok (rf', r) →
  rf_log rf' = rf_log rf ∨
  (0 <= aa_PrevLogIndex args < len (rf_log rf) ∧
   (∃ e, rf_log rf !! Z.to_nat (aa_PrevLogIndex args) = Some e ∧ le_Term e = aa_PrevLogTerm args) ∧
   merge_entries (rf_log rf) (aa_PrevLogIndex args + 1) (aa_Entries args) = Ok (rf_log rf')).
Proof.
  intros Ha. destruct (ar_Success r) eqn:Hs.
  - right. destruct (AppendEntries_success _ _ _ _ _ Ha Hs) as (H1 & H2 & H3 & _). done.
  - left. revert Ha Hs. unfold AppendEntries. destruct (_ <? _); [by intros [= <- <-]|]. cbv zeta.
    destruct (_ <? _); [by intros [= <- <-]|]. destruct (index _ _); cbn [mbind outcome_bind]; [|done..].
    destruct (negb _); [by intros [= <- <-]|]. destruct (merge_entries _ _ _); cbn [mbind outcome_bind]; [|done..].
    rewrite persist_if. cbn [mbind outcome_bind]. intros [= <- <-] [=].
Qed.

(** Merging part of a log that agrees with ours at every common term gives
    our log or a prefix of that log. *)
Lemma merge_prefix log L p m log' :
  (∀ i e e', log !! i = Some e → L !! i = Some e' → le_Term e = le_Term e' → take (S i) log = take (S i) L) →
  0 <= p < len log → p < len L →
  (∃ e e', log !! Z.to_nat p = Some e ∧ L !! Z.to_nat p = Some e' ∧ le_Term e = le_Term e') →
  merge_entries log (p + 1) (take m (drop (S (Z.to_nat p)) L)) = Ok log' →
  log' = log ∨ ∃ k, (1 <= k)%nat ∧ log' = take k L.
Proof.
  intros Hmatch Hp HpL (e0 & e0' & He0 & He0' & Ht0) Hm. set (es := take m (drop (S (Z.to_nat p)) L)) in *.
  assert (∀ j e, es !! j = Some e → L !! (S (Z.to_nat p) + j)%nat = Some e) as Hes.
  { intros j e. unfold es. rewrite lookup_take_Some, lookup_drop. by intros []. }
  destruct (merge_entries_spec log (p + 1) es ltac:(lia)) as (l & k & Hm' & Hk & Hag & Hr).
  assert (l = log') as -> by congruence. replace (Z.to_nat (p + 1)) with (S (Z.to_nat p)) in * by lia.
  destruct Hr as [[_ ->]|(Hk' & -> & Hle & _)]; [by left|right].
  exists (S (Z.to_nat p) + length es)%nat. split; [lia|].
  assert (take (S (Z.to_nat p) + k) log = take (S (Z.to_nat p) + k) L) as ->.
  { destruct k as [|k]; [rewrite Nat.add_0_r; by eapply Hmatch|].
    destruct (lookup_lt_is_Some_2 es k ltac:(lia)) as [x Hx].
    destruct (Hag k x ltac:(lia) Hx) as (x' & Hx' & Htx).
    rewrite Nat.add_succ_r. by eapply Hmatch; [done|by apply Hes|]. }
  assert (es = take (length es) (drop (S (Z.to_nat p)) L)) as Hes'.
  { unfold es. rewrite length_take. destruct (Nat.min_spec m (length (drop (S (Z.to_nat p)) L))) as [[_ ->]|[? ->]];
      [done|]. by rewrite !take_ge by lia. }
  rewrite <-!take_take_drop, <-(assoc_L (++)). f_equal. rewrite <-Hes'.
  replace (take k (drop (S (Z.to_nat p)) L)) with (take k es); [apply take_drop|].
  rewrite Hes', take_take. by rewrite Nat.min_l by lia.
Qed.

(** ** The invariant *)

Definition sentinel : LogEntry := mkLogEntry 0 0 [].

(** Parts of known logs, or nothing. *)
Definition entries_of (H : list LogEntry → Prop) (args : AppendEntriesArgs) : Prop :=
  aa_Entries args = [] ∨
  ∃ L e m, H L ∧ 0 <= aa_PrevLogIndex args ∧ L !! Z.to_nat (aa_PrevLogIndex args) = Some e ∧
    le_Term e = aa_PrevLogTerm args ∧ aa_Entries args = take m (drop (S (Z.to_nat (aa_PrevLogIndex args))) L).

Definition task_ok (n : nat) (H : list LogEntry → Prop) (tr : list event) (t : Task) : Prop :=
  match t with
  | HeartbeatTo a s T => EvLeader a T ∈ tr ∧ s ≠ a ∧ (s < n)%nat
  | AppendCall a s args => EvLeader a (aa_Term args) ∈ tr ∧ s ≠ a ∧ 0 <= aa_PrevLogIndex args ∧ entries_of H args
  | AppendBack _ _ args _ => 0 <= aa_PrevLogIndex args
  | _ => True
  end.

(** A log of the program: the sentinel, then entries that carry their
    position and a positive term. *)
Definition log_ok (L : list LogEntry) : Prop :=
  L !! 0%nat = Some sentinel ∧ len L <= 2 ^ 31 ∧
  ∀ i e, L !! i = Some e → le_Index e = Z.of_nat i ∧ 0 <= le_Term e < 2 ^ 31 ∧ (i ≠ 0%nat → 1 <= le_Term e).

(** Node [a] is leader, or past that term. *)
Definition leads_or_past (T : Z) (rf : Raft) : Prop :=
  T < rf_currentTerm rf ∨ (rf_currentTerm rf = T ∧ rf_state rf = Leader).

(** What holds of one node. *)
Record node_ok (n : nat) (H : list LogEntry → Prop) (tr : list event) (a : nat) (rf : Raft) : Prop := {
  no_log : H (rf_log rf);
  no_term : 0 <= rf_currentTerm rf < 2 ^ 31;
  no_vote : rf_state rf ≠ Follower → rf_votedFor rf = rf_me rf;
  no_past T : EvLeader a T ∈ tr → leads_or_past T rf;
  no_event : rf_state rf = Leader → EvLeader a (rf_currentTerm rf) ∈ tr;
  no_next s : rf_state rf = Leader → 0 <= s < Z.of_nat n → 1 <= map_get (rf_nextIndex rf) s;
  no_own L i e : rf_state rf = Leader → H L → L !! i = Some e → i ≠ 0%nat → le_Term e = rf_currentTerm rf →
    (i < length (rf_log rf))%nat
}.

(** [H] are the logs seen so far. *)
Record log_inv (n : nat) (H : list LogEntry → Prop) (cl : Cluster) (tr : list event) : Prop := {
  li_match L1 L2 i e1 e2 : H L1 → H L2 → L1 !! i = Some e1 → L2 !! i = Some e2 → le_Term e1 = le_Term e2 →
    take (S i) L1 = take (S i) L2;
  li_ok L : H L → log_ok L;
  li_origin L i e : H L → L !! i = Some e → i ≠ 0%nat → ∃ a, EvLeader a (le_Term e) ∈ tr;
  li_nodes a rf : cl_nodes cl !! a = Some rf → node_ok n H tr a rf;
  li_node_of a T : EvLeader a T ∈ tr → (a < n)%nat ∧ 1 <= T;
  li_elections e el : cl_elections cl !! e = Some el → 1 <= el_term el;
  li_tasks k t : cl_tasks cl !! k = Some (Some t) → task_ok n H tr t
}.

Lemma len_gt_lookup {A} (l : list A) i x : l !! i = Some x → Z.of_nat i < len l.
Proof. intros H%lookup_lt_Some. unfold len. lia. Qed.

(** Prefixes of known logs may be added to the known logs. *)
Lemma prefix_inv n H cl tr L k :
  log_inv n H cl tr → H L → (1 <= k)%nat → log_inv n (λ X, H X ∨ X = take k L) cl tr.
Proof.
  intros I HL Hk.
  assert (∀ X, H X ∨ X = take k L → ∃ Y, H Y ∧ ∀ i e, X !! i = Some e → Y !! i = Some e ∧ take (S i) X = take (S i) Y) as Hsub.
  { intros X [HX| ->]; [by exists X|]. exists L. split; [done|]. intros i e He.
    apply lookup_take_Some in He as [He Hi]. split; [done|]. rewrite take_take. f_equal. lia. }
  split; try apply I.
  - intros X1 X2 i e1 e2 H1 H2 He1 He2 Ht. destruct (Hsub X1 H1) as (Y1 & HY1 & S1). destruct (Hsub X2 H2) as (Y2 & HY2 & S2).
    destruct (S1 i e1 He1) as [E1 ->]. destruct (S2 i e2 He2) as [E2 ->]. by eapply (li_match _ _ _ _ I).
  - intros X [HX| ->]; [by apply (li_ok _ _ _ _ I)|]. destruct (li_ok _ _ _ _ I L HL) as (O1 & O2 & O3).
    split; [rewrite lookup_take_Some; split; [done|lia]|]. split; [rewrite len_take; lia|].
    intros i e [He _]%lookup_take_Some. by apply O3.
  - intros X i e HX He Hi. destruct (Hsub X HX) as (Y & HY & S1). eapply (li_origin _ _ _ _ I Y i); [done| |done].
    by apply S1.
  - intros a rf Ha. destruct (li_nodes _ _ _ _ I a rf Ha). split; try done; [by left|].
    intros X i e Hl HX He Hi Ht. destruct (Hsub X HX) as (Y & HY & S1). eapply (no_own0 Y i e); try done. by apply S1.
  - intros j t Ht. pose proof (li_tasks _ _ _ _ I j t Ht) as Hok. destruct t; try done. simpl in *.
    destruct Hok as (O1 & O2 & O3 & O4). split_and!; [done|done|done|].
    destruct O4 as [O4|(X & x & m & HX & O4)]; [by left|right].
    exists X, x, m. split; [by left|done].
Qed.

(** Events without leaders. *)
Definition leaderless (ev : list event) : Prop := ∀ a t, EvLeader a t ∉ ev.

Lemma leader_in tr ev a t : leaderless ev → EvLeader a t ∈ tr ++ ev → EvLeader a t ∈ tr.
Proof. intros Hl [H|H]%elem_of_app; [done|by destruct (Hl a t)]. Qed.

Lemma task_ok_mono n H tr ev t : task_ok n H tr t → task_ok n H (tr ++ ev) t.
Proof. destruct t; simpl; rewrite ?elem_of_app; naive_solver. Qed.

Lemma events_inv n H cl tr ev : log_inv n H cl tr → leaderless ev → log_inv n H cl (tr ++ ev).
Proof.
  intros I Hl. split; try apply I.
  - intros L i e HL He Hi. destruct (li_origin _ _ _ _ I L i e HL He Hi) as [a Ha]. exists a. apply elem_of_app. by left.
  - intros a rf Ha. destruct (li_nodes _ _ _ _ I a rf Ha). split; try done.
    + intros T HT. eapply no_past0, leader_in; done.
    + intros Hs. apply elem_of_app. left. auto.
  - intros a T HT. eapply (li_node_of _ _ _ _ I), leader_in; done.
  - intros k t Ht. apply task_ok_mono. by eapply (li_tasks _ _ _ _ I).
Qed.

(** A node changes to a state that is in order. *)
Lemma node_inv_log n H cl tr cl' a rf rf' :
  log_inv n H cl tr → cl_nodes cl !! a = Some rf → node_ok n H tr a rf' →
  cl_nodes cl' = <[a := rf']> (cl_nodes cl) →
  (∀ e el, cl_elections cl' !! e = Some el → 1 <= el_term el) →
  (∀ k t, cl_tasks cl' !! k = Some (Some t) → cl_tasks cl !! k = Some (Some t) ∨ task_ok n H tr t) →
  log_inv n H cl' tr.
Proof.
  intros I Ha Hok Hn He Ht. split; try apply I; [|done|].
  - intros b x. rewrite Hn. destruct (decide (a = b)) as [<-|Hne].
    + rewrite list_lookup_insert_eq by (by eapply lookup_lt_Some). by intros [= <-].
    + rewrite list_lookup_insert_ne by done. apply I.
  - intros k t Hk. destruct (Ht k t Hk) as [Hk'|]; [by eapply (li_tasks _ _ _ _ I)|done].
Qed.

Lemma idle_inv_log n H cl tr cl' :
  log_inv n H cl tr → cl_nodes cl' = cl_nodes cl → cl_elections cl' = cl_elections cl →
  (∀ k t, cl_tasks cl' !! k = Some (Some t) → cl_tasks cl !! k = Some (Some t) ∨ task_ok n H tr t) →
  log_inv n H cl' tr.
Proof.
  intros I Hn He Ht. split; try apply I; rewrite ?Hn, ?He; try apply I.
  intros k t Hk. destruct (Ht k t Hk) as [Hk'|]; [by eapply (li_tasks _ _ _ _ I)|done].
Qed.

(** Changes of a node that make it no leader and leave no leadership. *)
Lemma node_ok_keep n H tr a rf rf' :
  node_ok n H tr a rf → H (rf_log rf') → (rf_state rf' = Leader → rf_log rf' = rf_log rf) →
  rf_me rf' = rf_me rf → rf_currentTerm rf <= rf_currentTerm rf' < 2 ^ 31 →
  (rf_state rf' ≠ Follower → rf_votedFor rf' = rf_me rf') →
  (rf_state rf' = Leader → rf_state rf = Leader ∧ rf_currentTerm rf' = rf_currentTerm rf ∧
     ∀ s, 0 <= s < Z.of_nat n → 1 <= map_get (rf_nextIndex rf') s) →
  (rf_state rf = Leader → rf_currentTerm rf' = rf_currentTerm rf → rf_state rf' = Leader) →
  node_ok n H tr a rf'.
Proof.
  intros [] HL Hlog Hme Ht Hv Hl Hstay. split; [done|lia|done|..].
  - intros T HT. destruct (no_past0 T HT) as [?|[<- ?]]; unfold leads_or_past; [left; lia|].
    destruct (Z.eq_dec (rf_currentTerm rf') (rf_currentTerm rf)); [right; auto|left; lia].
  - intros Hs. destruct (Hl Hs) as (H1 & -> & _). auto.
  - intros s Hs. destruct (Hl Hs) as (_ & _ & H3). auto.
  - intros L i e Hs HL' He Hi Hte. destruct (Hl Hs) as (H1 & H2 & _). rewrite Hlog by done. rewrite H2 in Hte. eauto.
Qed.

Section steps.
Context (n : nat) (H : list LogEntry → Prop) (cl : Cluster) (tr : list event).
Hypothesis Hn : Z.of_nat n <= 2 ^ 31.
Hypothesis I : log_inv n H cl tr.
Hypothesis T : term_inv n 0 cl tr.
Hypothesis U : unique_leaders tr.

Lemma leader_term a t : EvLeader a t ∈ tr → 1 <= t < 2 ^ 31.
Proof.
  intros Ha. destruct (li_node_of _ _ _ _ I a t Ha) as [Han Ht]. split; [done|].
  destruct (lookup_lt_is_Some_2 (cl_nodes cl) a) as [rf Hrf]; [by rewrite (ti_len _ _ _ _ T)|].
  pose proof (li_nodes _ _ _ _ I a rf Hrf) as Hok. pose proof (no_term _ _ _ _ _ Hok).
  destruct (no_past _ _ _ _ _ Hok t Ha) as [|[? _]]; lia.
Qed.

(** Entries of known logs cross the wire unchanged. *)
Lemma wire_entries args :
  entries_of H args → aa_Entries args ≠ [] →
  aa_PrevLogIndex (wire_append args) = aa_PrevLogIndex args ∧ aa_PrevLogTerm (wire_append args) = aa_PrevLogTerm args ∧
  aa_Entries (wire_append args) = aa_Entries args.
Proof.
  intros [He|(L & e & m & HL & Hp & He & Hte & Hes)] Hne; [done|].
  destruct (li_ok _ _ _ _ I L HL) as (_ & Hlen & Hok).
  destruct (Hok _ _ He) as (_ & Ht & _). pose proof (len_gt_lookup _ _ _ He).
  split; [simpl; apply s32_id; unfold is_s32; lia|]. split; [simpl; apply s32_id; unfold is_s32; lia|].
  cbn [wire_append aa_Entries]. rewrite <-(map_id (aa_Entries args)) at 2. apply map_ext_in.
  intros x Hx%list_elem_of_In. rewrite Hes in Hx. apply list_elem_of_lookup_1 in Hx as [j Hj].
  apply lookup_take_Some in Hj as [Hj _]. rewrite lookup_drop in Hj.
  destruct (Hok _ _ Hj) as (Hi & Htx & _). pose proof (len_gt_lookup _ _ _ Hj).
  unfold raft_entry, pb_entry. simpl. rewrite !s32_id by (unfold is_s32; lia). by destruct x.
Qed.

(** The follower's new log is its old one or a prefix of a known one. *)
Lemma follower_log rf args now rf' r :
  H (rf_log rf) → entries_of H args → AppendEntries rf (wire_append args) now = Ok (rf', r) →
  rf_log rf' = rf_log rf ∨ ∃ L k, H L ∧ (1 <= k)%nat ∧ rf_log rf' = take k L.
Proof.
  intros Hlog He Ha. destruct (AppendEntries_log _ _ _ _ _ Ha) as [|(Hp & (e & Hpe & Hte) & Hm)]; [by left|].
  destruct (decide (aa_Entries args = [])) as [Hnil|Hne].
  { left. cbn [wire_append aa_Entries] in Hm. rewrite Hnil in Hm. by injection Hm. }
  destruct (wire_entries args He Hne) as (W1 & W2 & W3). rewrite W1, W2, W3 in *.
  destruct He as [He|(L & e' & m & HL & Hp' & He' & Hte' & Hes)]; [done|]. rewrite Hes in Hm.
  pose proof (len_gt_lookup _ _ _ He').
  destruct (merge_prefix (rf_log rf) L (aa_PrevLogIndex args) m (rf_log rf')) as [Heq|(k & Hk & Heq)]; [..|done| |].
  - intros i x x' Hx Hx' Ht. by eapply (li_match _ _ _ _ I).
  - done.
  - lia.
  - exists e, e'. split_and!; [done|done|congruence].
  - by left.
  - right. by exists L, k.
Qed.

(** AppendEntries at the follower [s]. *)
Lemma append_step_ok H' k a s args rf now rf' r :
  log_inv n H' cl tr → (∀ L, H L → H' L) → H' (rf_log rf') →
  cl_tasks cl !! k = Some (Some (AppendCall a s args)) → cl_nodes cl !! s = Some rf →
  AppendEntries rf (wire_append args) now = Ok (rf', r) → node_ok n H' tr s rf'.
Proof.
  intros I' HH HL Hk Hs Ha. destruct (li_tasks _ _ _ _ I k _ Hk) as (Hlead & Hsa & _ & _).
  pose proof (leader_term a _ Hlead) as Ht.
  pose proof (li_nodes _ _ _ _ I' s rf Hs) as Hok. apply AppendEntries_spec in Ha as (_ & Hp & Hme & Ha).
  assert (aa_Term (wire_append args) = aa_Term args) as HT by (simpl; apply s32_id; unfold is_s32; lia).
  rewrite HT in Ha. destruct (Z.ltb_spec (aa_Term args) (rf_currentTerm rf)) as [Hlt|Hge].
  { destruct Ha as [-> _]. done. }
  destruct Ha as (Hterm & Hst & Hvote & _).
  eapply node_ok_keep; [done|done|congruence|done|lia|congruence|congruence|].
  intros Hl Heq. exfalso. apply Hsa. eapply (U s a (aa_Term args)); [|done].
  rewrite <-Hterm, Heq. by apply (no_event _ _ _ _ _ (li_nodes _ _ _ _ I s rf Hs)).
Qed.
Lemma RequestVote_next rf args now rf' r :
  RequestVote rf args now = Ok (rf', r) → rf_nextIndex rf' = rf_nextIndex rf.
Proof.
  unfold RequestVote. destruct (_ <? _); [by intros [= <- <-]|]. cbv zeta.
  destruct (rf_currentTerm rf <? va_Term args); destruct (index _ _); cbn [mbind outcome_bind];
    try done; destruct (_ && _); by intros [= <- <-].
Qed.

Lemma vote_step_ok k e s args rf now rf' r :
  cl_tasks cl !! k = Some (Some (VoteCall e s args)) → cl_nodes cl !! s = Some rf →
  RequestVote rf (wire_vote args) now = Ok (rf', r) → rf_currentTerm rf' < 2 ^ 31 → node_ok n H tr s rf'.
Proof.
  intros Hk Hs Hv Hsm. pose proof (li_nodes _ _ _ _ I s rf Hs) as Hok. pose proof (no_term _ _ _ _ _ Hok).
  destruct (vote_candidate n 0 Hn cl tr k e s args T Hk) as (el & _ & Hse & _ & Hc & _).
  destruct (ti_node _ _ _ _ T s rf Hs) as [Hme _].
  pose proof (RequestVote_next _ _ _ _ _ Hv) as Hnext.
  apply RequestVote_spec in Hv as (V1 & _ & Vlog & _ & Vme & V).
  assert (rf_state rf' ≠ Follower → vr_VoteGranted r = false ∧ va_Term (wire_vote args) <= rf_currentTerm rf ∧
    rf_votedFor rf' = rf_votedFor rf ∧ rf_state rf' = rf_state rf) as Hst.
  { intros Hf. destruct (vr_VoteGranted r); [by destruct V as (_ & _ & ? & _)|].
    destruct (Z.leb_spec (va_Term (wire_vote args)) (rf_currentTerm rf)); destruct V as [? ?]; done. }
  eapply node_ok_keep; [done|rewrite Vlog; apply Hok|congruence|done|lia|..].
  - intros Hf. destruct (Hst Hf) as (_ & _ & -> & Heq). rewrite Vme. apply (no_vote _ _ _ _ _ Hok). congruence.
  - intros Hl. destruct Hst as (_ & Hle & _ & Heq); [congruence|]. split; [congruence|]. split; [lia|].
    intros i Hi. rewrite Hnext. apply (no_next _ _ _ _ _ Hok); [congruence|done].
  - intros Hl Heq. destruct (vr_VoteGranted r).
    + exfalso. destruct V as (V2 & _ & _ & V3). rewrite (no_vote _ _ _ _ _ Hok), Hme, Hc in V3 by congruence.
      destruct V3; lia.
    + destruct (Z.leb_spec (va_Term (wire_vote args)) (rf_currentTerm rf)); destruct V as [_ ?]; [congruence|lia].
Qed.

Lemma backtrack_pos rf reply : 1 <= backtrack rf reply.
Proof. unfold backtrack. cbv zeta. match goal with |- context [if ?x <? 1 then _ else _] => destruct (Z.ltb_spec x 1) end; lia. Qed.

Lemma map_get_insert m k v j : map_get (<[k := v]> m) j = if decide (k = j) then v else map_get m j.
Proof. unfold map_get. destruct (decide (k = j)) as [<-|]; [by rewrite lookup_insert_eq|by rewrite lookup_insert_ne]. Qed.

Lemma back_step_ok k a s args reply rf :
  cl_tasks cl !! k = Some (Some (AppendBack a s args reply)) → cl_nodes cl !! a = Some rf →
  rf_currentTerm (on_append_reply rf (Z.of_nat s) args reply) < 2 ^ 31 →
  node_ok n H tr a (on_append_reply rf (Z.of_nat s) args reply).
Proof.
  intros Hk Ha Hsm. pose proof (li_tasks _ _ _ _ I k _ Hk) as Hp. simpl in Hp.
  pose proof (li_nodes _ _ _ _ I a rf Ha) as Hok. pose proof (no_term _ _ _ _ _ Hok).
  revert Hsm. unfold on_append_reply. destruct (Z.ltb_spec (rf_currentTerm rf) (ar_Term reply)).
  { intros Hsm. eapply node_ok_keep; simpl in *; try done; [apply Hok|lia|lia]. }
  assert (∀ rf', rf_log rf' = rf_log rf → rf_me rf' = rf_me rf → rf_currentTerm rf' = rf_currentTerm rf →
    rf_state rf' = rf_state rf → rf_votedFor rf' = rf_votedFor rf →
    (∀ i, 1 <= map_get (rf_nextIndex rf) i → 1 <= map_get (rf_nextIndex rf') i) → node_ok n H tr a rf') as Hsame.
  { intros rf' E1 E2 E3 E4 E5 E6. eapply node_ok_keep; [done|rewrite E1; apply Hok|done|done|lia| | |congruence].
    - rewrite E4, E5, E2. apply Hok.
    - rewrite E4. intros Hl. split; [done|]. split; [done|]. intros i Hi. apply E6. by apply (no_next _ _ _ _ _ Hok). }
  intros _. destruct (ar_Success reply).
  - set (m := aa_PrevLogIndex args + len (aa_Entries args)).
    set (rf1 := if map_get (rf_matchIndex rf) (Z.of_nat s) <? m then _ else rf).
    destruct (commit_loop_frame rf1 (length (rf_log rf1)) (len (rf_log rf1) - 1)) as (C1 & C2 & C3 & C4 & _ & C5 & _ & C6).
    assert (rf_log rf1 = rf_log rf ∧ rf_me rf1 = rf_me rf ∧ rf_currentTerm rf1 = rf_currentTerm rf ∧
      rf_state rf1 = rf_state rf ∧ rf_votedFor rf1 = rf_votedFor rf) as (D1 & D2 & D3 & D4 & D5)
      by (unfold rf1; by destruct (_ <? m)).
    apply Hsame; [congruence..|]. intros i Hi. rewrite C6. unfold rf1. destruct (_ <? m); [|done]. simpl.
    rewrite map_get_insert. pose proof (len_nonneg (aa_Entries args)). destruct (decide _); [lia|done].
  - apply Hsame; try done. intros i Hi. simpl. rewrite map_get_insert. pose proof (backtrack_pos rf reply).
    by destruct (decide _).
Qed.

(** What a leader sends is a part of its log. *)
Lemma append_args_spec rf term s args :
  H (rf_log rf) → 1 <= map_get (rf_nextIndex rf) s → append_args rf term s = Ok (Some args) →
  aa_Term args = term ∧ 0 <= aa_PrevLogIndex args ∧ entries_of H args.
Proof.
  intros HL Hnext. unfold append_args. destruct (negb _); [done|]. cbv zeta. set (x := map_get _ s) in *.
  rewrite (proj2 (Z.ltb_ge (x - 1) 0)) by lia.
  destruct (Z.ltb_spec x (len (rf_log rf))) as [Hlt|Hge].
  - unfold slice. destruct (_ && _ && _) eqn:Hb; cbn [mbind outcome_bind]; [|done].
    destruct (Z.ltb_spec (x - 1) (len (rf_log rf))) as [Hlt'|]; [|lia].
    destruct (lookup_lt_is_Some_2 (rf_log rf) (Z.to_nat (x - 1))) as [e He]; [unfold len in *; lia|].
    rewrite (proj2 (index_lookup (rf_log rf) (x - 1) e ltac:(lia)) He). cbn [mbind outcome_bind].
    intros [= <-]. simpl. split; [done|]. split; [lia|]. right. exists (rf_log rf), e. eexists.
    split_and!; [done|simpl; lia|done|done|]. simpl. f_equal. f_equal. lia.
  - cbn [mbind outcome_bind]. destruct (_ <? _); [destruct (index _ _)|]; cbn [mbind outcome_bind]; try done;
      intros [= <-]; simpl; split_and!; try done; try lia; by left.
Qed.
Lemma task_ok_more (H' : list LogEntry → Prop) t : (∀ L, H L → H' L) → task_ok n H tr t → task_ok n H' tr t.
Proof.
  intros HH. destruct t; simpl; try done. intros (O1 & O2 & O3 & [O4|(L & e & m & HL & O4)]);
    (split_and!; [done|done|done|]); [by left|right]. exists L, e, m. auto.
Qed.

(** A leader's new entry: the only way a log grows beyond known ones. *)
Section start.
Context (a : nat) (rf : Raft) (command : bytes).
Hypothesis Ha : cl_nodes cl !! a = Some rf.
Hypothesis Hlead : rf_state rf = Leader.
Hypothesis Hlen : len (rf_log rf) < 2 ^ 31.

Let entry := mkLogEntry (len (rf_log rf)) (rf_currentTerm rf) command.
Let log' := rf_log rf ++ [entry].
Let H' := λ L, H L ∨ L = log'.

Lemma start_own L i e e' : H L → L !! i = Some e → log' !! i = Some e' → le_Term e = le_Term e' →
  rf_log rf !! i = Some e'.
Proof.
  intros HL He [He'|[Hi He']]%lookup_app_Some Ht; [done|]. exfalso.
  apply list_lookup_singleton_Some in He' as [Hi' <-].
  pose proof (li_nodes _ _ _ _ I a rf Ha) as Hok. destruct (li_ok _ _ _ _ I _ (no_log _ _ _ _ _ Hok)) as (H0 & _).
  apply lookup_lt_Some in H0.
  pose proof (no_own _ _ _ _ _ Hok L i e Hlead HL He ltac:(lia) Ht). lia.
Qed.

Lemma start_ok : log_ok log'.
Proof.
  pose proof (li_nodes _ _ _ _ I a rf Ha) as Hok. destruct (li_ok _ _ _ _ I _ (no_log _ _ _ _ _ Hok)) as (H0 & H1 & H2).
  split; [by apply lookup_app_l_Some|]. split; [unfold log'; len_lia|].
  intros i e [He|[Hi He]]%lookup_app_Some; [by apply H2|].
  apply list_lookup_singleton_Some in He as [Hi' <-]. simpl.
  destruct (li_node_of _ _ _ _ I a _ (no_event _ _ _ _ _ Hok Hlead)). pose proof (no_term _ _ _ _ _ Hok).
  unfold len. split_and!; lia.
Qed.

Lemma start_log_inv : log_inv n H' (set_node cl a (fst (Start rf command))) tr.
Proof.
  pose proof (li_nodes _ _ _ _ I a rf Ha) as Hok. pose proof (no_event _ _ _ _ _ Hok Hlead) as Hev.
  assert (fst (Start rf command) = set_trigger (set_log rf log') true) as Hst
    by (unfold Start; rewrite bool_decide_eq_true_2 by done; done).
  assert (∀ L i e, H' L → L !! i = Some e → i ≠ 0%nat → H L ∨ (L = log' ∧ (rf_log rf !! i = Some e ∨ e = entry))) as Hcase.
  { intros L i e [HL| ->] He Hi; [by left|right]. split; [done|].
    apply lookup_app_Some in He as [He|[_ He]]; [by left|right]. by apply list_lookup_singleton_Some in He as [_ <-]. }
  split.
  - assert (∀ L i e e', H L → L !! i = Some e → log' !! i = Some e' → le_Term e = le_Term e' → take (S i) L = take (S i) log') as Hone.
    { intros L i e e' HL He He' Ht. pose proof (start_own L i e e' HL He He' Ht) as Hr.
      unfold log'. rewrite take_app_le by (apply lookup_lt_Some in Hr; lia).
      eapply (li_match _ _ _ _ I); [done|apply Hok|done|done|done]. }
    intros L1 L2 i e1 e2 [H1| ->] [H2| ->] He1 He2 Ht; [by eapply (li_match _ _ _ _ I)|by eapply Hone| |done].
    symmetry. by eapply Hone.
  - intros L [HL| ->]; [by apply (li_ok _ _ _ _ I)|apply start_ok].
  - intros L i e HL He Hi. destruct (Hcase L i e HL He Hi) as [HL'|[-> [He'| ->]]];
      [by eapply (li_origin _ _ _ _ I)|eapply (li_origin _ _ _ _ I); [apply Hok|done|done]|by exists a].
  - intros b x. simpl. destruct (decide (a = b)) as [<-|Hne].
    + rewrite list_lookup_insert_eq by (by eapply lookup_lt_Some). intros [= <-]. rewrite Hst. destruct Hok.
      split; simpl; try done; [by right|].
      intros L i e _ HL He Hi Ht. unfold log'. rewrite length_app. simpl. destruct (Hcase L i e HL He Hi) as [HL'|[-> _]].
      * specialize (no_own0 L i e Hlead HL' He Hi Ht). lia.
      * apply lookup_lt_Some in He. unfold log' in He. rewrite length_app in He. done.
    + rewrite list_lookup_insert_ne by done. intros Hx. pose proof (li_nodes _ _ _ _ I b x Hx) as Hokx.
      pose proof Hokx as []. split; try done; [by left|].
      intros L i e Hl HL He Hi Ht. destruct (Hcase L i e HL He Hi) as [HL'|[-> [He'| ->]]];
        [by eapply no_own0|by eapply no_own0; [done|apply Hok|..]|].
      exfalso. apply Hne. eapply (U a b (rf_currentTerm rf)); [done|]. simpl in Ht. rewrite Ht. auto.
  - apply I.
  - apply I.
  - intros k t Hk. eapply task_ok_more; [|by eapply (li_tasks _ _ _ _ I)]. by left.
Qed.
End start.

(** Starting an election. *)
Lemma elect_step_ok a rf now rf' args :
  cl_nodes cl !! a = Some rf → startElection rf now = Ok (rf', args) → rf_currentTerm rf' < 2 ^ 31 →
  node_ok n H tr a rf' ∧ 1 <= rf_currentTerm rf'.
Proof.
  intros Ha (S1 & S2 & S3 & S4 & S5 & S6 & _)%startElection_spec Hsm.
  pose proof (li_nodes _ _ _ _ I a rf Ha) as Hok. pose proof (no_term _ _ _ _ _ Hok). split; [|lia].
  eapply node_ok_keep; [done|rewrite S6; apply Hok|congruence|done|lia|congruence|congruence|]. intros _ Heq. lia.
Qed.

(** Counting a vote that does not win. *)
Lemma count_step_ok a rf term votes reply rf' votes' :
  cl_nodes cl !! a = Some rf → on_vote_reply rf term votes reply = (rf', votes', false) →
  rf_currentTerm rf' < 2 ^ 31 → node_ok n H tr a rf'.
Proof.
  intros Ha Hr Hsm. pose proof (li_nodes _ _ _ _ I a rf Ha) as Hok. revert Hr. unfold on_vote_reply.
  destruct (negb _ || negb _); [by intros [= <- _]|].
  destruct (Z.ltb_spec (rf_currentTerm rf) (vr_Term reply)).
  - intros [= <- _]. pose proof (no_term _ _ _ _ _ Hok). simpl in Hsm.
    eapply node_ok_keep; simpl; try done; [apply Hok|lia|lia].
  - destruct (vr_VoteGranted reply); [|by intros [= <- _]]. by destruct (_ =? _); [|intros [= <- _]].
Qed.

Lemma map_get_fold (v : Z) (m : gmap Z Z) ps j : j ∈ ps → map_get (foldl (λ m p, <[p := v]> m) m ps) j = v.
Proof.
  assert (∀ ps m, map_get m j = v → map_get (foldl (λ m p, <[p := v]> m) m ps) j = v) as Hkeep.
  { clear. induction ps as [|p ps IH]; intros m Hm; [done|]. simpl. apply IH. rewrite map_get_insert. by destruct (decide _). }
  revert m. induction ps as [|p ps IH]; intros m Hj; [by apply not_elem_of_nil in Hj|]. simpl.
  apply elem_of_cons in Hj as [->|Hj]; [|by apply IH]. apply Hkeep. rewrite map_get_insert. by rewrite decide_True.
Qed.
End steps.

(** Winning an election. *)
Section win.
Context (n : nat) (H : list LogEntry → Prop) (cl cl' : Cluster) (tr : list event).
Context (a : nat) (rf rf' : Raft) (term votes votes' : Z) (reply : RequestVoteReply).
Hypothesis I : log_inv n H cl tr.
Hypothesis T : term_inv n 0 cl tr.
Hypothesis Ha : cl_nodes cl !! a = Some rf.
Hypothesis Hreply : on_vote_reply rf term votes reply = (rf', votes', true).
Hypothesis U : unique_leaders (tr ++ [EvLeader a (rf_currentTerm rf')]).

Lemma won_spec :
  rf_state rf = Candidate ∧ rf_currentTerm rf = term ∧ rf_currentTerm rf' = term ∧ rf_state rf' = Leader ∧
  rf_votedFor rf' = rf_votedFor rf ∧ rf_me rf' = rf_me rf ∧ rf_log rf' = rf_log rf ∧
  rf_nextIndex rf' = foldl (λ m p, <[p := len (rf_log rf)]> m) (rf_nextIndex rf) (seqZ 0 (rf_peers rf)).
Proof.
  pose proof Hreply as Hr. unfold on_vote_reply in Hr.
  destruct (bool_decide_reflect (rf_state rf = Candidate)) as [Hs|]; [|done]. cbn [negb orb] in Hr.
  destruct (Z.eqb_spec (rf_currentTerm rf) term) as [Ht|]; [|done]. cbn [negb] in Hr.
  destruct (_ <? _); [done|]. destruct (vr_VoteGranted reply); [|done]. destruct (_ =? _); [|done].
  injection Hr as <- <-. simpl. split_and!; done.
Qed.

(** Nobody has an entry of the new leader's term. *)
Lemma won_fresh L i e : H L → L !! i = Some e → i ≠ 0%nat → le_Term e ≠ rf_currentTerm rf'.
Proof.
  intros HL He Hi Ht. destruct (li_origin _ _ _ _ I L i e HL He Hi) as [b Hb]. rewrite Ht in Hb.
  destruct won_spec as (W1 & W2 & W3 & _).
  assert (b = a) as -> by (apply (U b a (rf_currentTerm rf')); rewrite elem_of_app, ?list_elem_of_singleton; auto).
  pose proof (li_nodes _ _ _ _ I a rf Ha) as Hok. destruct (no_past _ _ _ _ _ Hok _ Hb) as [|[_ ?]]; [lia|congruence].
Qed.

Lemma win_log_inv :
  1 <= term → cl_nodes cl' = <[a := rf']> (cl_nodes cl) →
  (∀ e el, cl_elections cl' !! e = Some el → 1 <= el_term el) →
  (∀ k t, cl_tasks cl' !! k = Some (Some t) → cl_tasks cl !! k = Some (Some t) ∨ task_ok n H tr t) →
  log_inv n H cl' (tr ++ [EvLeader a (rf_currentTerm rf')]).
Proof.
  intros Hterm Hn He Ht. destruct won_spec as (W1 & W2 & W3 & W4 & W5 & W6 & W7 & W8).
  pose proof (li_nodes _ _ _ _ I a rf Ha) as Hok. destruct (ti_node _ _ _ _ T a rf Ha) as [Hme Hpeers].
  assert (∀ b t, EvLeader b t ∈ tr ++ [EvLeader a (rf_currentTerm rf')] →
    EvLeader b t ∈ tr ∨ (b = a ∧ t = rf_currentTerm rf')) as Hin.
  { intros b t [|Hb%list_elem_of_singleton]%elem_of_app; [by left|right]. by injection Hb as -> ->. }
  split; [apply I|apply I|..].
  - intros L i e HL Hi Hi0. destruct (li_origin _ _ _ _ I L i e HL Hi Hi0) as [b Hb]. exists b. apply elem_of_app. by left.
  - intros b x. rewrite Hn. destruct (decide (a = b)) as [<-|Hne].
    + rewrite list_lookup_insert_eq by (by eapply lookup_lt_Some). intros [= <-]. destruct Hok. split.
      * by rewrite W7.
      * rewrite W3, <-W2. done.
      * intros _. rewrite W5, W6. apply no_vote0. congruence.
      * intros t [Hb|[_ ->]]%Hin; [|right; done]. left. destruct (no_past0 t Hb) as [|[_ ?]]; [lia|congruence].
      * intros _. apply elem_of_app. right. by left.
      * intros s _ Hs. rewrite W8, map_get_fold by (apply elem_of_seqZ; lia).
        destruct (li_ok _ _ _ _ I _ no_log0) as (H0 & _). apply len_gt_lookup in H0. lia.
      * intros L i e _ HL Hi Hi0 Hte. by destruct (won_fresh L i e HL Hi Hi0).
    + rewrite list_lookup_insert_ne by done. intros Hx. destruct (li_nodes _ _ _ _ I b x Hx). split; try done.
      * intros t [Hb|[-> _]]%Hin; [auto|done].
      * intros Hl. apply elem_of_app. left. auto.
  - intros b t [Hb|[-> ->]]%Hin; [by eapply (li_node_of _ _ _ _ I)|]. split; [|lia].
    apply lookup_lt_Some in Ha. by rewrite <-(ti_len _ _ _ _ T).
  - done.
  - intros k t Hk. apply task_ok_mono. destruct (Ht k t Hk) as [Hk'|]; [by eapply (li_tasks _ _ _ _ I)|done].
Qed.
End win.

(** ** Every step *)

Lemma set_task_lookup (ts : list (option Task)) k x j t :
  <[k := x]> ts !! j = Some (Some t) → ts !! j = Some (Some t) ∨ x = Some t.
Proof.
  destruct (decide (k = j)) as [<-|Hne]; [|rewrite list_lookup_insert_ne by done; by left].
  intros Hj. pose proof (lookup_lt_Some _ _ _ Hj) as Hlt. rewrite length_insert in Hlt.
  rewrite list_lookup_insert_eq in Hj by done. right. by injection Hj.
Qed.

Lemma spawn_lookup (ts : list (option Task)) new j t :
  (ts ++ map Some new) !! j = Some (Some t) → ts !! j = Some (Some t) ∨ t ∈ new.
Proof.
  intros [Hj|[_ Hj]]%lookup_app_Some; [by left|right]. rewrite list_lookup_fmap in Hj.
  apply fmap_Some in Hj as (t' & Ht & [= ->]). by eapply list_elem_of_lookup_2.
Qed.

Section cluster_step.
Context (n : nat) (H : list LogEntry → Prop) (cl : Cluster) (tr : list event).
Hypothesis Hn : Z.of_nat n <= 2 ^ 31.
Hypothesis I : log_inv n H cl tr.
Hypothesis T : term_inv n 0 cl tr.

Lemma elect_log_inv a now cl' ev t0 :
  unique_leaders (tr ++ ev) → small cl' = true → elect (set_tick cl a t0) a now = Some (cl', ev) →
  ∃ H', (∀ L, H L → H' L) ∧ log_inv n H' cl' (tr ++ ev).
Proof.
  intros _ Hsm Hs. exists H. split; [done|]. unfold elect in Hs. simpl in Hs.
  destruct (cl_nodes cl !! a) as [rf|] eqn:Ha; [|done]. simpl in Hs.
  destruct (value _) as [[rf' args]|] eqn:E; [|done]. apply value_Some in E. simpl in Hs. injection Hs as <- <-.
  destruct (small_node _ a rf' Hsm) as [Hs1 _];
    [simpl; apply list_lookup_insert_eq; by eapply lookup_lt_Some|].
  destruct (elect_step_ok n H cl tr I a rf now rf' args Ha E Hs1) as [Hok Ht].
  apply events_inv; [|intros b t Hb; by apply list_elem_of_singleton in Hb].
  eapply (node_inv_log n H cl tr _ a rf rf'); [done|done|done|done| |].
  - simpl. intros e el [He|[_ He]]%lookup_app_Some; [by eapply (li_elections _ _ _ _ I)|].
    by apply list_lookup_singleton_Some in He as [_ <-].
  - simpl. intros k t [Hk|Hk]%spawn_lookup; [by left|right]. by apply list_elem_of_fmap in Hk as (s & -> & _).
Qed.

Lemma append_log_inv k a s args now cl' ev :
  unique_leaders (tr ++ ev) → small cl' = true → cl_tasks cl !! k = Some (Some (AppendCall a s args)) →
  run_task cl k (AppendCall a s args) now = Some (cl', ev) → ∃ H', (∀ L, H L → H' L) ∧ log_inv n H' cl' (tr ++ ev).
Proof.
  intros U Hsm Hk Hs. pose proof (unique_leaders_app _ _ U) as U0. simpl in Hs.
  assert (leaderless []) as Hnil by (intros b t0; apply not_elem_of_nil).
  destruct (cl_nodes cl !! s) as [rf|] eqn:Ha; [|done]. simpl in Hs.
  destruct (value _) as [[rf' r]|] eqn:E; [|done]. apply value_Some in E. simpl in Hs.
  apply append_rpc_spec in E as (reply & E & ->). simpl in Hs. injection Hs as <- <-.
  destruct (li_tasks _ _ _ _ I k _ Hk) as (K1 & K2 & K3 & K4).
  pose proof (no_log _ _ _ _ _ (li_nodes _ _ _ _ I s rf Ha)) as HL.
  assert (∃ H', log_inv n H' cl tr ∧ (∀ L, H L → H' L) ∧ H' (rf_log rf')) as (H' & I' & HH & HL').
  { destruct (follower_log n H cl tr I rf args now rf' reply HL K4 E) as [->|(L & j & HL' & Hj & ->)]; [by exists H|].
    exists (λ X, H X ∨ X = take j L). split; [by apply prefix_inv|]. split; [by left|by right]. }
  exists H'. split; [done|]. apply events_inv; [|intros b t Hb; by apply list_elem_of_singleton in Hb].
  eapply (node_inv_log n H' cl tr _ s rf rf'); [done|done| |done|apply I'|].
  - by eapply (append_step_ok n H cl tr I T U0 H' k a s args rf now rf' reply).
  - simpl. intros j t [Hj|[= <-]]%set_task_lookup; [by left|right]. done.
Qed.

Lemma count_log_inv k e s reply now cl' ev :
  unique_leaders (tr ++ ev) → small cl' = true → cl_tasks cl !! k = Some (Some (VoteBack e s reply)) →
  run_task cl k (VoteBack e s reply) now = Some (cl', ev) → ∃ H', (∀ L, H L → H' L) ∧ log_inv n H' cl' (tr ++ ev).
Proof.
  intros U Hsm Hk Hs. pose proof (unique_leaders_app _ _ U) as U0. simpl in Hs.
  assert (leaderless []) as Hnil by (intros b t0; apply not_elem_of_nil).
  destruct (cl_elections cl !! e) as [el|] eqn:He; [|done]. simpl in Hs.
  destruct (cl_nodes cl !! el_cand el) as [rf|] eqn:Ha; [|done]. simpl in Hs.
  destruct (on_vote_reply _ _ _ _) as [[rf' votes] won] eqn:E.
  pose proof (li_elections _ _ _ _ I e el He) as Het.
  assert (∀ j x, <[e := mkElection (el_cand el) (el_term el) votes]> (cl_elections cl) !! j = Some x → 1 <= el_term x) as Hel.
  { intros j x [(_ & <- & _)|[_ Hj]]%list_lookup_insert_Some; [done|by eapply (li_elections _ _ _ _ I)]. }
  exists H. split; [done|]. destruct won; injection Hs as <- <-.
  - eapply (win_log_inv n H cl _ tr (el_cand el) rf rf'); [done|done|done|done|done|done|done|done|].
    simpl. intros j t [[Hj|]%set_task_lookup|Hj]%(spawn_lookup _ [_]); [by left|done|right].
    by apply list_elem_of_singleton in Hj as ->.
  - apply events_inv; [|done].
    destruct (small_node _ (el_cand el) rf' Hsm) as [Hs1 _];
      [simpl; apply list_lookup_insert_eq; by eapply lookup_lt_Some|].
    eapply (node_inv_log n H cl tr _ (el_cand el) rf rf'); [done|done|by eapply count_step_ok|done|done|].
    simpl. intros j t [Hj|]%set_task_lookup; [by left|done].
Qed.

Lemma run_task_log_inv k t now cl' ev :
  unique_leaders (tr ++ ev) → small cl' = true → cl_tasks cl !! k = Some (Some t) →
  run_task cl k t now = Some (cl', ev) → ∃ H', (∀ L, H L → H' L) ∧ log_inv n H' cl' (tr ++ ev).
Proof.
  intros U Hsm Hk Hs. pose proof (unique_leaders_app _ _ U) as U0.
  assert (leaderless []) as Hnil by (intros b t0; apply not_elem_of_nil).
  destruct t as [a|a s term|a s args|a s args reply|e s args|e s reply];
    [simpl in Hs|simpl in Hs| |simpl in Hs|simpl in Hs|].
  - destruct (cl_nodes cl !! a) as [rf|] eqn:Ha; [|done]. simpl in Hs. exists H. split; [done|].
    destruct (bool_decide_reflect (rf_state rf = Leader)) as [Hl|]; injection Hs as <- <-; apply events_inv; try done.
    + eapply idle_inv_log; [done|done|done|]. simpl. intros j t [[Hj|]%set_task_lookup|Hj]%spawn_lookup; [by left|done|right].
      apply list_elem_of_fmap in Hj as (s & -> & Hs). apply list_elem_of_filter in Hs as [Hsa Hs%elem_of_seq]. simpl in *.
      split; [by apply (no_event _ _ _ _ _ (li_nodes _ _ _ _ I a rf Ha))|]. split; [done|].
      rewrite <-(ti_len _ _ _ _ T). lia.
    + eapply idle_inv_log; [done|done|done|]. simpl. intros j t [Hj|]%set_task_lookup; [by left|done].
  - destruct (cl_nodes cl !! a) as [rf|] eqn:Ha; [|done]. simpl in Hs.
    destruct (value _) as [args|] eqn:E; [|done]. apply value_Some in E. simpl in Hs. injection Hs as <- <-.
    exists H. split; [done|]. apply events_inv; [|done]. eapply idle_inv_log; [done|done|done|]. simpl.
    intros j t [Hj|Hj]%set_task_lookup; [by left|right]. destruct args as [args|]; [|done]. injection Hj as <-.
    destruct (li_tasks _ _ _ _ I k _ Hk) as (H1 & H2 & H3).
    pose proof (li_nodes _ _ _ _ I a rf Ha) as Hok.
    assert (rf_state rf = Leader) as Hl
      by (unfold append_args in E; destruct (bool_decide_reflect (rf_state rf = Leader)); done).
    destruct (append_args_spec n H rf term (Z.of_nat s) args) as (A1 & A2 & A3);
      [apply Hok|apply (no_next _ _ _ _ _ Hok); [done|lia]|done|]. simpl. by rewrite A1.
  - by eapply append_log_inv.
  - destruct (cl_nodes cl !! a) as [rf|] eqn:Ha; [|done]. simpl in Hs. injection Hs as <- <-. exists H. split; [done|].
    apply events_inv; [|done].
    destruct (small_node _ a (on_append_reply rf (Z.of_nat s) args reply) Hsm) as [Hs1 _];
      [simpl; apply list_lookup_insert_eq; by eapply lookup_lt_Some|].
    eapply (node_inv_log n H cl tr _ a rf); [done|done|by eapply back_step_ok|done|apply I|].
    simpl. intros j t [Hj|]%set_task_lookup; [by left|done].
  - destruct (cl_nodes cl !! s) as [rf|] eqn:Ha; [|done]. simpl in Hs.
    destruct (value _) as [[rf' r]|] eqn:E; [|done]. apply value_Some in E. simpl in Hs.
    apply vote_rpc_spec in E as (reply & E & ->). simpl in Hs. injection Hs as <- <-. exists H. split; [done|].
    apply events_inv; [|intros b t Hb; by apply list_elem_of_singleton in Hb].
    destruct (small_node _ s rf' Hsm) as [Hs1 _]; [simpl; apply list_lookup_insert_eq; by eapply lookup_lt_Some|].
    eapply (node_inv_log n H cl tr _ s rf rf'); [done|done|by eapply vote_step_ok|done|apply I|].
    simpl. intros j t [Hj|[= <-]]%set_task_lookup; [by left|by right].
  - by eapply count_log_inv.
Qed.
End cluster_step.

Lemma submit_log_inv n H cl tr a command cl' ev :
  log_inv n H cl tr → unique_leaders tr → small cl' = true → do_action cl (Submit a command) = Some (cl', ev) →
  ∃ H', (∀ L, H L → H' L) ∧ log_inv n H' cl' (tr ++ ev).
Proof.
  intros I U0 Hsm. simpl. assert (leaderless []) as Hnil by (intros b t0; apply not_elem_of_nil).
  destruct (cl_nodes cl !! a) as [rf|] eqn:Ha; [|done]. simpl. intros [= <- <-].
  destruct (bool_decide_reflect (rf_state rf = Leader)) as [Hl|Hl].
  - destruct (small_node _ a (fst (Start rf command)) Hsm) as [_ Hs];
      [simpl; apply list_lookup_insert_eq; by eapply lookup_lt_Some|].
    unfold Start in Hs at 1. rewrite bool_decide_eq_true_2 in Hs by done. simpl in Hs. rewrite len_app in Hs.
    exists (λ L, H L ∨ L = rf_log rf ++ [mkLogEntry (len (rf_log rf)) (rf_currentTerm rf) command]).
    split; [by left|]. eapply events_inv; [|done]. apply (start_log_inv n H cl tr I U0 a rf command Ha Hl).
    change (len [mkLogEntry (len (rf_log rf)) (rf_currentTerm rf) command]) with 1 in Hs. lia.
  - exists H. split; [done|]. apply events_inv; [|done].
    assert (fst (Start rf command) = rf) as Heq by (unfold Start; by rewrite bool_decide_eq_false_2).
    eapply (node_inv_log n H cl tr _ a rf rf); [done|done|by apply (li_nodes _ _ _ _ I)|by cbn [set_node cl_nodes]; rewrite Heq|apply I|by left].
Qed.

Lemma action_log_inv n H cl tr act cl' ev :
  Z.of_nat n <= 2 ^ 31 → log_inv n H cl tr → term_inv n 0 cl tr → unique_leaders (tr ++ ev) →
  small cl' = true → do_action cl act = Some (cl', ev) → ∃ H', (∀ L, H L → H' L) ∧ log_inv n H' cl' (tr ++ ev).
Proof.
  intros Hn I T U Hsm. pose proof (unique_leaders_app _ _ U) as U0.
  assert (leaderless []) as Hnil by (intros b t0; apply not_elem_of_nil).
  assert (∀ a rf rf', cl_nodes cl !! a = Some rf → quiet rf rf' → rf_log rf' = rf_log rf → rf_state rf' = rf_state rf →
    rf_currentTerm rf' = rf_currentTerm rf → rf_nextIndex rf' = rf_nextIndex rf → node_ok n H tr a rf') as Hsame.
  { intros a rf rf' Ha (Q1 & _ & _ & Q2) E1 E2 E3 E4. pose proof (li_nodes _ _ _ _ I a rf Ha) as Hok.
    pose proof (no_term _ _ _ _ _ Hok).
    eapply node_ok_keep; [done|rewrite E1; apply Hok|done|done|lia| | |congruence].
    - rewrite E2, Q2, Q1 by done. apply Hok.
    - rewrite E2, E4. intros Hl. split; [done|]. split; [done|]. intros s Hs. by apply (no_next _ _ _ _ _ Hok). }
  destruct act as [a now timeout|a now|k now|k|a command|a|a]; simpl.
  - destruct (cl_nodes cl !! a); [|done]. intros [= <- <-]. exists H. split; [done|]. apply events_inv; [|done].
    eapply idle_inv_log; [done|done|done|by left].
  - destruct (cl_ticks cl !! a) as [[| |]|]; simpl; [| | |done].
    + intros [= <- <-]. exists H. split; [done|]. apply events_inv; [|done]. eapply idle_inv_log; [done|done|done|]. simpl.
      intros j t [Hj|Hj]%(spawn_lookup _ [_]); [by left|right]. by apply list_elem_of_singleton in Hj as ->.
    + by apply (elect_log_inv n H).
    + intros [= <- <-]. exists H. split; [done|]. apply events_inv; [|done]. eapply idle_inv_log; [done|done|done|by left].
  - destruct (cl_tasks cl !! k) as [[t|]|] eqn:Hk; simpl; [|done..]. by apply (run_task_log_inv n H).
  - intros [= <- <-]. exists H. split; [done|]. apply events_inv; [|done]. eapply idle_inv_log; [done|done|done|].
    simpl. intros j t [Hj|]%set_task_lookup; [by left|done].
  - by apply (submit_log_inv n H).
  - destruct (cl_nodes cl !! a) as [rf|] eqn:Ha; [|done]. simpl. destruct (rf_triggerCh rf); [|done].
    rewrite replicator_ok. simpl. intros [= <- <-]. exists H. split; [done|]. apply events_inv; [|done].
    eapply (node_inv_log n H cl tr _ a rf (replicated rf)); [done|done| |done|apply I|].
    + apply (Hsame a rf); [done|apply replicator_quiet|unfold replicated..];
        by rewrite ?persist_log, ?persist_state, ?persist_term || (unfold persisted; by destruct (_ <? _)).
    + simpl. intros j t [Hj|Hj]%(spawn_lookup _ [_]); [by left|right]. by apply list_elem_of_singleton in Hj as ->.
  - destruct (cl_nodes cl !! a) as [rf|] eqn:Ha; [|done]. simpl. destruct (rf_commitCh rf); [|done].
    destruct (value _) as [[rf' es]|] eqn:E; [|done]. apply value_Some in E. simpl. intros [= <- <-]. exists H. split; [done|].
    apply events_inv; [|intros b t Hb; by apply list_elem_of_singleton in Hb].
    eapply (node_inv_log n H cl tr _ a rf rf'); [done|done| |done|apply I|by left].
    pose proof (applier_quiet _ _ _ E) as Hq. revert E. unfold applier. cbv zeta.
    destruct (_ <=? _); [|destruct (collect _ _ _ _); cbn [mbind outcome_bind]; [|done..]];
      intros [= <- _]; by apply (Hsame a rf).
Qed.

Lemma start_log_inv_cluster n : log_inv n (λ L, L = [sentinel]) (start_cluster n) [].
Proof.
  split; simpl; try (by intros; rewrite ?lookup_nil in *).
  - by intros L1 L2 i e1 e2 -> ->.
  - intros L ->. split; [done|]. split; [done|]. intros i e He.
    apply list_lookup_singleton_Some in He as [-> <-]. by split_and!.
  - intros L i e -> He Hi. by apply list_lookup_singleton_Some in He as [-> _].
  - intros a rf. rewrite list_lookup_fmap. intros (i & _ & ->)%fmap_Some.
    split; simpl; try done; [intros T HT; by apply not_elem_of_nil in HT].
  - intros a t Ha. by apply not_elem_of_nil in Ha.
Qed.

Lemma reach_log_inv n cl tr :
  Z.of_nat n <= 2 ^ 31 → reach_small n cl tr → unique_leaders tr → ∃ H, log_inv n H cl tr.
Proof.
  intros Hn. induction 1 as [|cl tr act cl' ev Hr IH Ha Hs]; intros U.
  - eexists. apply start_log_inv_cluster.
  - destruct IH as [H I]; [by eapply unique_leaders_app|].
    pose proof (reach_inv n 0 Hn ltac:(lia) cl tr (reach_small_reach _ _ _ Hr)) as T.
    destruct (action_log_inv n H cl tr act cl' ev Hn I T U Hs Ha) as (H' & _ & I'). by exists H'.
Qed.

(** C9. Log matching: in every run of a cluster in which no term had two
    leaders and no term or log position left 32 bits, two nodes whose logs
    hold entries of the same term at the same index have the same log up to
    that index. *)
Theorem log_matching n cl tr a b rf rf' i e e' :
  reach_small n cl tr → Z.of_nat n <= 2 ^ 31 → unique_leaders tr →
  cl_nodes cl !! a = Some rf → cl_nodes cl !! b = Some rf' →
  rf_log rf !! i = Some e → rf_log rf' !! i = Some e' → le_Term e = le_Term e' →
  take (S i) (rf_log rf) = take (S i) (rf_log rf').
Proof.
  intros Hr Hn U Ha Hb He He' Ht. destruct (reach_log_inv n cl tr Hn Hr U) as [H I].
  eapply (li_match _ _ _ _ I); [..|done|done|done]; by eapply no_log, (li_nodes _ _ _ _ I).
Qed.

(** Runs with the check of every state. *)
Fixpoint run_small (cl : Cluster) (acts : list action) : option (Cluster * list event) :=
  match acts with
  | [] => Some (cl, [])
  | act :: acts' =>
      '(cl, ev) ← do_action cl act;
      if small cl then '(cl, evs) ← run_small cl acts'; Some (cl, ev ++ evs) else None
  end.

Lemma run_small_reach n acts cl tr cl' ev :
  reach_small n cl tr → run_small cl acts = Some (cl', ev) → reach_small n cl' (tr ++ ev).
Proof.
  revert cl tr ev. induction acts as [|act acts IH]; intros cl tr ev Hr; simpl.
  { intros [= <- <-]. by rewrite app_nil_r. }
  destruct (do_action cl act) as [[cl1 ev1]|] eqn:E; [|done]. simpl.
  destruct (small cl1) eqn:Es; [|done].
  destruct (run_small cl1 acts) as [[cl2 ev2]|] eqn:E2; [|done]. intros [= <- <-].
  rewrite app_assoc. eapply IH; [|done]. by eapply reach_small_step.
Qed.

(** Node 0 is elected and sends its first entry to node 2. *)
Definition one_leader_acts : list action :=
  take 6 split_vote ++ [Submit 0 [Byte.x61]; Replicate 0; RunTask 5 1030; RunTask 7 1031; RunTask 7 1035].
Definition one_leader : Cluster * list event :=
  default (start_cluster 3, []) (run_small (start_cluster 3) one_leader_acts).
Definition one_leader_node (a : nat) : Raft := default (Make 3 0 [] 0) (cl_nodes (fst one_leader) !! a).

Lemma one_leader_reach : reach_small 3 (fst one_leader) (snd one_leader).
Proof.
  assert (run_small (start_cluster 3) one_leader_acts = Some (fst one_leader, snd one_leader)) as Hrun.
  { rewrite <-surjective_pairing. unfold one_leader. apply default_Some. vm_compute. reflexivity. }
  rewrite <-(app_nil_l (snd one_leader)).
  exact (run_small_reach 3 one_leader_acts (start_cluster 3) [] (fst one_leader) (snd one_leader) (reach_small_start 3) Hrun).
Qed.

Lemma one_leader_lookup a : (a < 3)%nat → cl_nodes (fst one_leader) !! a = Some (one_leader_node a).
Proof.
  intros Ha. unfold one_leader_node. destruct (cl_nodes (fst one_leader) !! a) eqn:E; [done|].
  apply lookup_ge_None in E. assert (length (cl_nodes (fst one_leader)) = 3%nat) by (vm_compute; reflexivity). lia.
Qed.

(** The leaders of a run, and the check that no term has two. *)
Definition leaders (tr : list event) : list (nat * Z) :=
  omap (λ e, match e with EvLeader a t => Some (a, t) | _ => None end) tr.
Definition unique_check (tr : list event) : bool :=
  forallb (λ x, forallb (λ y, negb (snd x =? snd y) || (fst x =? fst y)%nat) (leaders tr)) (leaders tr).

Lemma unique_check_sound tr : unique_check tr = true → unique_leaders tr.
Proof.
  unfold unique_check. rewrite forallb_forall. intros Hc a b t Ha Hb.
  assert (∀ c, EvLeader c t ∈ tr → In (c, t) (leaders tr)) as Hin.
  { intros c Hc'. apply list_elem_of_In. unfold leaders. apply list_elem_of_omap. by exists (EvLeader c t). }
  specialize (Hc _ (Hin a Ha)). rewrite forallb_forall in Hc. specialize (Hc _ (Hin b Hb)). simpl in Hc.
  rewrite Z.eqb_refl in Hc. cbn [negb orb] in Hc. by apply Nat.eqb_eq in Hc.
Qed.

Lemma one_leader_unique : unique_leaders (snd one_leader).
Proof. apply unique_check_sound. vm_compute. reflexivity. Qed.

Lemma log_matching_witness :
  rf_log (one_leader_node 0) !! 1%nat = Some (mkLogEntry 1 1 [Byte.x61]) ∧
  take 2 (rf_log (one_leader_node 0)) = take 2 (rf_log (one_leader_node 2)).
Proof.
  assert (rf_log (one_leader_node 0) !! 1%nat = Some (mkLogEntry 1 1 [Byte.x61])) as H0 by (vm_compute; reflexivity).
  split; [exact H0|].
  apply (log_matching 3 (fst one_leader) (snd one_leader) 0 2 (one_leader_node 0) (one_leader_node 2) 1
           (mkLogEntry 1 1 [Byte.x61]) (mkLogEntry 1 1 [Byte.x61])).
  - apply one_leader_reach.
  - discriminate.
  - apply one_leader_unique.
  - apply one_leader_lookup. lia.
  - apply one_leader_lookup. lia.
  - exact H0.
  - vm_compute. reflexivity.
  - reflexivity.
Defined.

(** * Stale replies

    Node 0, leader of term 1, sends two entries to node 1 and the goroutine
    that waits for the reply is slow.  Node 2 becomes leader of term 2 and
    overwrites both entries at nodes 0 and 1; node 0 becomes leader of term 3,
    stores a new entry at index 2 and gets it acknowledged by node 3 alone.
    The old reply now counts for the new entry, which is committed on two of
    five nodes; node 2 is elected for term 4 without it. *)
Definition stale_reply_acts : list action :=
  [ReadTick 0 1000 900; ActTick 0 1000; RunTask 0 1001; RunTask 0 1002; RunTask 1 1001; RunTask 1 1003;
   Submit 0 [Byte.x70]; Submit 0 [Byte.x71]; Replicate 0; RunTask 5 1010; RunTask 6 1011; RunTask 6 1012;
   ReadTick 2 2500 900; ActTick 2 2500; RunTask 12 2501; RunTask 12 2502; RunTask 13 2501; RunTask 13 2502;
   Submit 2 [Byte.x7a]; Replicate 2; RunTask 15 2510; RunTask 16 2511; RunTask 16 2512; RunTask 17 2511; RunTask 17 2512;
   ReadTick 0 4000 900; ActTick 0 4000; RunTask 22 4001; RunTask 22 4002; RunTask 23 4001; RunTask 23 4002;
   Submit 0 [Byte.x72]; Replicate 0; RunTask 25 4010; RunTask 28 4011; RunTask 28 4012; RunTask 28 4013;
   ReadTick 0 4100 900; ActTick 0 4100; RunTask 30 4101; RunTask 33 4102; RunTask 33 4103; RunTask 33 4104;
   RunTask 6 4105; Apply 0;                               (* the stale reply commits index 2 *)
   ReadTick 2 4110 900; ActTick 2 4110; RunTask 35 4111; RunTask 39 4112; RunTask 39 4113; RunTask 39 4114;
   ReadTick 2 5600 900; ActTick 2 5600; RunTask 41 5601; RunTask 41 5602; RunTask 43 5601; RunTask 43 5602;
   Submit 2 [Byte.x77]; Replicate 2; RunTask 45 5610; RunTask 47 5611; RunTask 47 5612; RunTask 47 5613;
   RunTask 49 5611; RunTask 49 5612; RunTask 49 5613;
   ReadTick 2 5700 900; ActTick 2 5700; RunTask 50 5701; RunTask 54 5702; RunTask 54 5703; RunTask 54 5704; Apply 2].

(** Replies of an earlier term are counted: there is a run of five nodes
    without failures, in which every term has one leader, and yet two nodes
    apply different commands at the same index, because [on_append_reply]
    does not compare the term of the call with the current one. *)
Theorem stale_reply_breaks_agreement :
  ∃ cl tr x1 x2 y1 y2, reach 5 cl tr ∧ unique_leaders tr ∧
    EvApply 0 [x1; x2] ∈ tr ∧ EvApply 2 [y1; y2] ∈ tr ∧ le_Index x2 = le_Index y2 ∧ le_Command x2 ≠ le_Command y2.
Proof.
  exists (fst (after_run 5 stale_reply_acts)), (snd (after_run 5 stale_reply_acts)),
    (mkLogEntry 1 2 [Byte.x7a]), (mkLogEntry 2 3 [Byte.x72]), (mkLogEntry 1 2 [Byte.x7a]), (mkLogEntry 2 4 [Byte.x77]).
  split; [apply after_run_reach; vm_compute; by eexists|].
  split; [apply unique_check_sound; vm_compute; reflexivity|].
  assert (∀ a es, existsb (λ e, match e with EvApply b es' => bool_decide (a = b ∧ es = es') | _ => false end)
    (snd (after_run 5 stale_reply_acts)) = true → EvApply a es ∈ snd (after_run 5 stale_reply_acts)) as Hin.
  { intros a es (e & He & Hb)%existsb_exists. apply list_elem_of_In in He. destruct e; try done.
    by apply bool_decide_eq_true in Hb as [-> ->]. }
  split; [apply Hin; vm_compute; reflexivity|]. split; [apply Hin; vm_compute; reflexivity|].
  split; [reflexivity|]. simpl. congruence.
Qed.

(** C35. The shape of every log: in every run of a cluster in which no term had
    two leaders, no term or log position left 32 bits and no node restarts (a
    restarted node has lost its sentinel, [restart_shifts_log]), each node's
    log starts with the sentinel, every entry carries its position as index and
    a positive term, and that term had a leader. *)
Theorem logs_well_formed n cl tr a rf i e :
  reach_small n cl tr → Z.of_nat n <= 2 ^ 31 → unique_leaders tr →
  cl_nodes cl !! a = Some rf → rf_log rf !! i = Some e →
  rf_log rf !! 0%nat = Some (mkLogEntry 0 0 []) ∧ le_Index e = Z.of_nat i ∧
  (i ≠ 0%nat → 1 <= le_Term e ∧ ∃ b, (b < n)%nat ∧ EvLeader b (le_Term e) ∈ tr).
Proof.
  intros Hr Hn U Ha He. destruct (reach_log_inv n cl tr Hn Hr U) as [H I].
  pose proof (no_log _ _ _ _ _ (li_nodes _ _ _ _ I a rf Ha)) as HL.
  destruct (li_ok _ _ _ _ I _ HL) as (H0 & _ & H1). destruct (H1 i e He) as (H2 & _ & H3).
  split; [done|]. split; [done|]. intros Hi. split; [auto|].
  destruct (li_origin _ _ _ _ I _ i e HL He Hi) as [b Hb]. exists b. split; [|done].
  by eapply (li_node_of _ _ _ _ I).
Qed.

Lemma logs_well_formed_witness :
  le_Index (mkLogEntry 1 1 [Byte.x61]) = 1 ∧ rf_log (one_leader_node 2) !! 0%nat = Some (mkLogEntry 0 0 []) ∧
  ∃ b, (b < 3)%nat ∧ EvLeader b 1 ∈ snd one_leader.
Proof.
  destruct (logs_well_formed 3 (fst one_leader) (snd one_leader) 2 (one_leader_node 2) 1 (mkLogEntry 1 1 [Byte.x61]))
    as (H1 & H2 & H3).
  - apply one_leader_reach.
  - discriminate.
  - apply one_leader_unique.
  - apply one_leader_lookup. lia.
  - vm_compute. reflexivity.
  - split; [exact H2|]. split; [exact H1|]. apply H3. discriminate.
Defined.
