(* ===== verification/RaftRestart.v ===== *)
(** * Restarts of the nodes of a cluster

    A node can stop at any time and start again from its WAL file: its memory,
    its ticker and its goroutines are gone, and [Make] reads term, vote and
    log back.  What the restart preserves is the vote: every vote a node has
    given is on file before the reply is sent, so election safety holds for
    clusters whose nodes restart.  (The log does not survive: RaftNode.v.) *)

From stdpp Require Import base list gmap.
From Stdlib Require Import ZArith Lia.
From S2P Require Import Prelude RaftWal Raft RaftNode RaftApi RaftCluster RaftElection.

(** ** The cluster with restarts *)

(** The goroutines of node [a].  The requests it has sent go on at their
    receivers; a reply to them may still be counted, which is more than can
    happen. *)
Definition local_task (cl : Cluster) (a : nat) (t : Task) : bool :=
  match t with
  | SendHeartBeats b | HeartbeatTo b _ _ | AppendBack b _ _ _ => bool_decide (b = a)
  | VoteBack e _ _ =>
      match cl_elections cl !! e with Some el => bool_decide (el_cand el = a) | None => false end
  | AppendCall _ _ _ | VoteCall _ _ _ => false
  end.

Definition kill (cl : Cluster) (a : nat) (t : option Task) : option Task :=
  t ← t; if local_task cl a t then None else Some t.

Definition restart (cl : Cluster) (a : nat) (now : Z) : option Cluster :=
  rf ← cl_nodes cl !! a;
  let rf := Make (rf_peers rf) (rf_me rf) (rw_data (rf_wal rf)) now in
  Some (mkCluster (<[a := rf]> (cl_nodes cl)) (<[a := TickNone]> (cl_ticks cl)) (cl_elections cl)
          (map (kill cl a) (cl_tasks cl))).

Inductive raction := Act (act : action) | Restart (a : nat) (now : Z).

Definition do_raction (cl : Cluster) (act : raction) : option (Cluster * list event) :=
  match act with
  | Act act => do_action cl act
  | Restart a now => cl ← restart cl a now; Some (cl, [])
  end.

(** Terms, log positions and command lengths fit in their fields. *)
Definition bounded_node (rf : Raft) : bool :=
  (0 <=? rf_currentTerm rf) && (rf_currentTerm rf <? 2 ^ 31) && (len (rf_log rf) <? 2 ^ 31) &&
  forallb (λ e, len (le_Command e) <? 2 ^ 32) (rf_log rf).
Definition bounded (cl : Cluster) : bool := forallb bounded_node (cl_nodes cl).

Inductive reach_restart (n : nat) : Cluster → list event → Prop :=
| reach_restart_start : reach_restart n (start_cluster n) []
| reach_restart_step cl tr act cl' ev :
    reach_restart n cl tr → do_raction cl act = Some (cl', ev) → bounded cl' = true →
    reach_restart n cl' (tr ++ ev).

Fixpoint run_restart (cl : Cluster) (acts : list raction) : option (Cluster * list event) :=
  match acts with
  | [] => Some (cl, [])
  | act :: acts' =>
      '(cl, ev) ← do_raction cl act;
      if bounded cl then '(cl, evs) ← run_restart cl acts'; Some (cl, ev ++ evs) else None
  end.

Lemma run_restart_reach n acts cl tr cl' ev :
  reach_restart n cl tr → run_restart cl acts = Some (cl', ev) → reach_restart n cl' (tr ++ ev).
Proof.
  revert cl tr ev. induction acts as [|act acts IH]; intros cl tr ev Hr; simpl.
  { intros [= <- <-]. by rewrite app_nil_r. }
  destruct (do_raction cl act) as [[cl1 ev1]|] eqn:E; [|done]. simpl. destruct (bounded cl1) eqn:Eb; [|done].
  destruct (run_restart cl1 acts) as [[cl2 ev2]|] eqn:E2; [|done]. intros [= <- <-].
  rewrite app_assoc. eapply IH; [|done]. by eapply reach_restart_step.
Qed.

(** ** What is on file *)

(** The WAL is a sequence of records whose last hard state is [hs]. *)
Definition durable (w : RWAL) (hs : HardState) : Prop :=
  ∃ rs, rw_data w = records_bytes rs ∧ Forall record_fits rs ∧ rec_state (mkHardState 0 0 0) rs = hs ∧
    rw_faults w = [] ∧ rw_failed w = false ∧ is_u32 (rw_lastPersisted w).

(** The file of a handler that saved nothing of the hard state, and of one
    that saved term and vote. *)
Definition keeps (rf rf' : Raft) : Prop := ∀ hs, durable (rf_wal rf) hs → durable (rf_wal rf') hs.
Definition saves (rf rf' : Raft) : Prop :=
  ∀ hs, durable (rf_wal rf) hs → ∃ hs', durable (rf_wal rf') hs' ∧
    hs_Term hs' = u32 (rf_currentTerm rf') ∧ hs_Vote hs' = u32 (rf_votedFor rf').

#[export] Instance keeps_preorder : PreOrder keeps.
Proof. split; [by intros rf hs|intros x y z H1 H2 hs H; by apply H2, H1]. Qed.

Lemma keeps_wal rf rf' : rf_wal rf' = rf_wal rf → keeps rf rf'.
Proof. intros H hs. by rewrite H. Qed.

(** Reading the file back. *)
Lemma durable_Make peers me w hs now :
  durable w hs →
  let rf := Make peers me (rw_data w) now in
  rf_me rf = me ∧ rf_peers rf = peers ∧ durable (rf_wal rf) hs ∧
  (0 < hs_Term hs → rf_currentTerm rf = hs_Term hs ∧ rf_votedFor rf = hs_Vote hs).
Proof.
  intros (rs & Hd & Hf & Hs & _) rf.
  assert (∃ lp, is_u32 lp ∧ rf_wal rf = mkRWAL (rw_data w) [] false lp) as (lp & Hlp & Hw).
  { unfold rf, Make, readPersist, RecoverEntries. cbn [rf_wal createOrOpenRaftWAL rw_data].
    rewrite Hd, recover_bytes by done. rewrite Hs.
    destruct (last (rec_entries rs)) as [e|] eqn:El; [exists (we_Index e)|exists 0];
      (split; [|destruct (0 <? len _), (0 <? hs_Term hs); done]); [|done].
    apply last_Some_elem_of, list_elem_of_omap in El as (r & Hr & He).
    rewrite Forall_forall in Hf. specialize (Hf r Hr). destruct r; [|done]. injection He as <-. apply Hf. }
  assert (rf_me rf = me ∧ rf_peers rf = peers ∧
    (0 < hs_Term hs → rf_currentTerm rf = hs_Term hs ∧ rf_votedFor rf = hs_Vote hs)) as (H1 & H2 & H3).
  { unfold rf, Make, readPersist, RecoverEntries. cbn [rf_wal createOrOpenRaftWAL rw_data].
    rewrite Hd, recover_bytes by done. rewrite Hs.
    destruct (last (rec_entries rs)), (0 <? len (rec_entries rs)), (Z.ltb_spec 0 (hs_Term hs));
      cbn; split_and!; done || lia. }
  split_and!; [done..| |done]. exists rs. by rewrite Hw.
Qed.

Lemma persistState_saves rf0 rf : rf_wal rf0 = rf_wal rf → saves rf0 (persistState rf).
Proof.
  intros Hw hs. rewrite Hw. intros (rs & Hd & Hf & _ & Hw1 & Hw2 & Hw3). unfold persistState. rewrite PersistHardState_spec by done.
  set (r := HardRec (u32 (rf_currentTerm rf)) (u32 (rf_votedFor rf)) (u32 (rf_commitIndex rf))).
  exists (mkHardState (u32 (rf_currentTerm rf)) (u32 (rf_votedFor rf)) (u32 (rf_commitIndex rf))).
  split; [|done]. exists (rs ++ [r]). cbn [fst set_wal rf_wal rw_data]. rewrite Hd, records_bytes_app.
  split; [f_equal; unfold records_bytes; simpl; by rewrite app_nil_r|]. split.
  - apply Forall_app. split; [done|]. constructor; [|done].
    split_and!; apply uwrap_range; lia.
  - unfold rec_state. by rewrite foldl_app.
Qed.

Lemma persist_keeps rf : bounded_node rf = true → keeps rf (persisted rf).
Proof.
  unfold bounded_node. intros Hb. apply andb_true_iff in Hb as [[_ Hl]%andb_true_iff Hc].
  apply Z.ltb_lt in Hl. rewrite forallb_forall in Hc.
  unfold persisted. destruct (0 <? len (rf_log rf)); [|reflexivity].
  intros hs (rs & Hd & Hf & Hs & Hw1 & Hw2 & Hw3). set (es := map wal_entry (rf_log rf)).
  assert (Forall wal_entry_ok es) as Hok.
  { apply Forall_map, Forall_forall. intros e He%list_elem_of_In. specialize (Hc e He).
    apply Z.ltb_lt in Hc. split_and!; try apply uwrap_range; try lia; done. }
  pose proof (fresh_ok (rw_lastPersisted (rf_wal rf)) es Hok) as Hnew.
  rewrite wal_AppendEntries_spec by (done || unfold es; by rewrite len_map).
  set (new := fresh_entries _ es) in *. cbn [fst set_wal rf_wal].
  exists (rs ++ map entry_rec new). cbn [rw_data rw_faults rw_failed rw_lastPersisted].
  rewrite Hd, records_bytes_app, records_bytes_entries. split; [done|]. split; [|split; [|split_and!; try done]].
  - apply Forall_app. split; [done|]. apply Forall_map. eapply Forall_impl; [exact Hnew|].
    intros e (_ & H1 & H2 & H3). done.
  - unfold rec_state. rewrite foldl_app. fold (rec_state (mkHardState 0 0 0) rs). rewrite Hs.
    clear. induction new as [|e new IH]; [done|]. simpl. exact IH.
  - destruct (last new) as [e|] eqn:El; [|done]. apply last_Some_elem_of in El.
    rewrite Forall_forall in Hnew. by destruct (Hnew e El) as (_ & ? & _).
Qed.

(** ** The handlers *)

Lemma saves_keeps rf rf1 rf2 :
  saves rf rf1 → keeps rf1 rf2 → rf_currentTerm rf2 = rf_currentTerm rf1 → rf_votedFor rf2 = rf_votedFor rf1 →
  saves rf rf2.
Proof.
  intros Hs Hk Ht Hv hs Hd. destruct (Hs hs Hd) as (hs' & Hd' & H1 & H2). exists hs'.
  rewrite Ht, Hv. split; [by apply Hk|done].
Qed.

Lemma startElection_saves rf now rf' args : startElection rf now = Ok (rf', args) → saves rf rf'.
Proof.
  unfold startElection. cbv zeta. destruct (index _ _); cbn [mbind outcome_bind]; [|done..].
  intros [= <- _]. by apply persistState_saves.
Qed.

Lemma RequestVote_saves rf args now rf' r :
  RequestVote rf args now = Ok (rf', r) → (rf' = rf ∧ vr_VoteGranted r = false) ∨ saves rf rf'.
Proof.
  unfold RequestVote. destruct (_ <? _); [intros [= <- <-]; by left|]. cbv zeta.
  set (rf1 := if _ <? _ then _ else rf).
  assert (rf1 = rf ∨ saves rf rf1) as H1.
  { unfold rf1. destruct (_ <? _); [right; by apply persistState_saves|by left]. }
  destruct (index _ _) as [e|?|]; cbn [mbind outcome_bind]; [|done..].
  destruct (_ && _); intros [= <- <-]; [right|].
  - assert (∀ x, saves rf1 x → saves rf x) as H2.
    { intros x Hx. destruct H1 as [H1|H1]; [by rewrite <-H1|]. intros hs Hd.
      destruct (H1 hs Hd) as (hs1 & Hd1 & _). by apply (Hx hs1). }
    set (rf2 := set_term_state rf1 _ _ _ _). apply H2, (saves_keeps _ (persistState rf2));
      [by apply (persistState_saves rf1)|by apply keeps_wal|done|done].
  - destruct H1 as [H1|H1]; [left|right; done]. done.
Qed.

Lemma AppendEntries_saves rf args now rf' r :
  AppendEntries rf args now = Ok (rf', r) → bounded_node rf' = true →
  (rf' = rf ∧ aa_Term args < rf_currentTerm rf ∧ ar_Term r = rf_currentTerm rf) ∨ saves rf rf'.
Proof.
  unfold AppendEntries. destruct (Z.ltb_spec (aa_Term args) (rf_currentTerm rf)); [intros [= <- <-]; by left|]. cbv zeta.
  set (rf1 := persistState _). assert (saves rf rf1) as H1 by by apply persistState_saves.
  destruct (_ <? _); [intros [= <- _] _; by right|].
  destruct (index _ _) as [e|?|]; cbn [mbind outcome_bind]; [|done..].
  destruct (negb _); [intros [= <- _] _; by right|].
  destruct (merge_entries _ _ _) as [l|?|]; cbn [mbind outcome_bind]; [|done..].
  rewrite persist_if. cbn [mbind outcome_bind].
  set (rf2 := if 0 <? len (aa_Entries args) then _ else _).
  assert (∀ rf3, rf_wal rf3 = rf_wal rf2 → rf_currentTerm rf3 = rf_currentTerm rf1 →
    rf_votedFor rf3 = rf_votedFor rf1 → rf_log rf3 = l → bounded_node rf3 = true → saves rf rf3) as Hsv.
  { intros rf3 E1 E2 E3 E4 Hb. eapply (saves_keeps _ (set_log rf1 l)); [exact H1| |done|done].
    trans rf2; [|by apply keeps_wal]. unfold rf2. destruct (_ <? _); [|reflexivity]. apply persist_keeps.
    unfold bounded_node in Hb |- *. by rewrite E2, E4 in Hb. }
  assert (rf_currentTerm rf2 = rf_currentTerm rf1 ∧ rf_votedFor rf2 = rf_votedFor rf1 ∧ rf_log rf2 = l) as (F1 & F2 & F3).
  { unfold rf2. destruct (_ <? _); [|done]. by rewrite persist_term, persist_votedFor, persist_log. }
  intros [= <- _] Hb. right. revert Hb.
  destruct (rf_commitIndex _ <? _); [destruct (aa_LeaderCommit args <? aa_PrevLogIndex args + _)|]; intros Hb; (apply Hsv; [reflexivity|exact F1|exact F2|exact F3|exact Hb]).
Qed.

Lemma on_append_reply_wal rf server args reply : rf_wal (on_append_reply rf server args reply) = rf_wal rf.
Proof.
  unfold on_append_reply. destruct (_ <? _); [done|]. destruct (ar_Success reply); [|done].
  set (rf1 := if _ <? _ then _ else _).
  assert (∀ fuel N, rf_wal (commit_loop rf1 fuel N) = rf_wal rf1) as H.
  { induction fuel as [|fuel IH]; intros N; simpl; [done|]. destruct (N <=? _); [done|].
    destruct (index _ _); [|by rewrite IH..]. destruct (_ && _); [done|by rewrite IH]. }
  rewrite H. unfold rf1. by destruct (_ <? _).
Qed.

Lemma on_vote_reply_saves rf term votes reply rf' votes' won :
  on_vote_reply rf term votes reply = (rf', votes', won) → keeps rf rf' ∨ saves rf rf'.
Proof.
  unfold on_vote_reply. destruct (_ || _); [intros [= <- _ _]; by left|].
  destruct (_ <? _); [intros [= <- _ _]; right; by apply persistState_saves|].
  destruct (vr_VoteGranted reply); [|intros [= <- _ _]; by left].
  destruct (_ =? _); intros [= <- _ _]; left; by apply keeps_wal.
Qed.

Lemma applier_wal rf rf' es : applier rf = Ok (rf', es) → rf_wal rf' = rf_wal rf.
Proof.
  unfold applier. cbv zeta. destruct (_ <=? _); [by intros [= <- _]|].
  destruct (collect _ _ _ _); cbn [mbind outcome_bind]; [|done..]. by intros [= <- _].
Qed.

Lemma Start_wal rf command : rf_wal (fst (Start rf command)) = rf_wal rf.
Proof. unfold Start. by destruct (negb _). Qed.

Lemma replicator_keeps rf : bounded_node (replicated rf) = true → keeps rf (replicated rf).
Proof.
  unfold replicated. intros Hb. trans (set_trigger rf false); [by apply keeps_wal|]. apply persist_keeps.
  unfold bounded_node in *. by rewrite persist_term, persist_log in Hb.
Qed.

(** ** A step of the cluster and the files *)

(** An event in which node [a] gives no vote and takes part in no
    AppendEntries call. *)
Definition silent_event (a : nat) (e : event) : Prop :=
  match e with
  | EvElection b _ => b ≠ a
  | EvVote b _ reply => b ≠ a ∨ vr_VoteGranted reply = false
  | EvAppend b args reply => b ≠ a ∨ ar_Term reply ≠ aa_Term args
  | _ => True
  end.
Definition silent (a : nat) (ev : list event) : Prop := Forall (silent_event a) ev.

Lemma silent_granted a tr ev t c : silent a ev → granted (tr ++ ev) a t c → granted tr a t c.
Proof.
  intros Hs. unfold silent in Hs. rewrite Forall_forall in Hs.
  intros [[[H|H]%elem_of_app E]|(args & r & [H|H]%elem_of_app & Hg & E)].
  - by left.
  - by destruct (Hs _ H).
  - right. by exists args, r.
  - destruct (Hs _ H); [done|congruence].
Qed.

Lemma silent_appended a tr ev t : silent a ev → appended (tr ++ ev) a t → appended tr a t.
Proof.
  intros Hs. unfold silent in Hs. rewrite Forall_forall in Hs.
  intros (args & r & [H|H]%elem_of_app & E & E'); [by exists args, r|]. destruct (Hs _ H); congruence.
Qed.

Definition files_step (a : nat) (rf rf' : Raft) (ev : list event) : Prop :=
  saves rf rf' ∨ keeps rf rf' ∧ silent a ev.

Lemma files_insert cl (nodes : list Raft) b rfb rfb' ev a rf' :
  cl_nodes cl !! b = Some rfb → nodes = <[b := rfb']> (cl_nodes cl) →
  (∀ a, a ≠ b → silent a ev) → (bounded_node rfb' = true → files_step b rfb rfb' ev) →
  nodes !! a = Some rf' → bounded_node rf' = true →
  ∃ rf, cl_nodes cl !! a = Some rf ∧ files_step a rf rf' ev.
Proof.
  intros Hb -> Hs Hst Ha Hbd. destruct (decide (a = b)) as [->|Hne].
  - rewrite list_lookup_insert_eq in Ha by (by eapply lookup_lt_Some). injection Ha as <-. eauto.
  - rewrite list_lookup_insert_ne in Ha by done. exists rf'. split; [done|]. right. split; [reflexivity|auto].
Qed.

(** Steps that leave the nodes alone. *)
Lemma files_same cl (nodes : list Raft) ev a rf' :
  nodes = cl_nodes cl → silent a ev → nodes !! a = Some rf' →
  ∃ rf, cl_nodes cl !! a = Some rf ∧ files_step a rf rf' ev.
Proof. intros -> Hs Ha. exists rf'. split; [done|]. right. by split; [reflexivity|]. Qed.

Lemma silent_nil a : silent a [].
Proof. constructor. Qed.
Lemma silent_other a e : silent_event a e → silent a [e].
Proof. intros H. by repeat constructor. Qed.
#[export] Hint Resolve silent_nil silent_other : raft.

Lemma run_task_files cl k t now cl' ev a rf' :
  run_task cl k t now = Some (cl', ev) → cl_nodes cl' !! a = Some rf' → bounded_node rf' = true →
  ∃ rf, cl_nodes cl !! a = Some rf ∧ files_step a rf rf' ev.
Proof.
  destruct t as [b|b s term|b s args|b s args reply|e s args|e s reply]; simpl.
  - destruct (cl_nodes cl !! b); [|done]. simpl. destruct (bool_decide _); intros [= <- <-] Ha _;
      apply (files_same cl _ _ _ _ eq_refl); auto with raft.
  - destruct (cl_nodes cl !! b); [|done]. simpl. destruct (value _); [|done]. intros [= <- <-] Ha _.
    apply (files_same cl _ _ _ _ eq_refl); auto with raft.
  - destruct (cl_nodes cl !! s) as [rf|] eqn:Hs; [|done]. simpl.
    destruct (value _) as [[rf1 r]|] eqn:E; [|done]. apply value_Some in E. simpl.
    apply append_rpc_spec in E as (reply & E & ->). simpl. intros [= <- <-] Ha Hb.
    eapply files_insert; [exact Hs|reflexivity| | |exact Ha|exact Hb].
    + intros x Hne. apply silent_other. by left.
    + intros Hb1. destruct (AppendEntries_saves _ _ _ _ _ E Hb1) as [(-> & Hlt & Hr)|]; [right|by left].
      split; [reflexivity|]. apply silent_other. right. simpl. rewrite Hr.
      unfold bounded_node in Hb1. rewrite s32_id by (unfold is_s32; lia). cbn in Hlt. lia.
  - destruct (cl_nodes cl !! b) as [rf|] eqn:Hs; [|done]. simpl. intros [= <- <-] Ha Hb.
    eapply files_insert; [exact Hs|reflexivity|auto with raft| |exact Ha|exact Hb].
    intros _. right. split; [apply keeps_wal, on_append_reply_wal|auto with raft].
  - destruct (cl_nodes cl !! s) as [rf|] eqn:Hs; [|done]. simpl.
    destruct (value _) as [[rf1 r]|] eqn:E; [|done]. apply value_Some in E. simpl.
    apply vote_rpc_spec in E as (reply & E & ->). simpl. intros [= <- <-] Ha Hb.
    eapply files_insert; [exact Hs|reflexivity| | |exact Ha|exact Hb].
    + intros x Hne. apply silent_other. by left.
    + intros _. destruct (RequestVote_saves _ _ _ _ _ E) as [[-> Hr]|]; [right|by left].
      split; [reflexivity|]. apply silent_other. by right.
  - destruct (cl_elections cl !! e) as [el|]; [|done]. simpl.
    destruct (cl_nodes cl !! el_cand el) as [rf|] eqn:Hs; [|done]. simpl.
    destruct (on_vote_reply _ _ _ _) as [[rf1 votes] won] eqn:E. intros H Ha Hb.
    eapply (files_insert cl (cl_nodes cl') (el_cand el) rf rf1); [exact Hs| | | |exact Ha|exact Hb];
      destruct won; injection H as <- <-; try reflexivity; try (intros; auto using silent_other with raft; by apply silent_other);
      intros _; destruct (on_vote_reply_saves _ _ _ _ _ _ _ E); [right|left|right|left]; try done;
      split; try done; auto with raft; by apply silent_other.
Qed.

Lemma do_action_files cl act cl' ev a rf' :
  do_action cl act = Some (cl', ev) → cl_nodes cl' !! a = Some rf' → bounded_node rf' = true →
  ∃ rf, cl_nodes cl !! a = Some rf ∧ files_step a rf rf' ev.
Proof.
  destruct act as [b now timeout|b now|k now|k|b command|b|b]; simpl.
  - destruct (cl_nodes cl !! b); [|done]. intros [= <- <-] Ha _. apply (files_same cl _ _ _ _ eq_refl); auto with raft.
  - destruct (cl_ticks cl !! b) as [[| |]|]; simpl; [| | |done].
    + intros [= <- <-] Ha _. apply (files_same cl _ _ _ _ eq_refl); auto with raft.
    + unfold elect. simpl. destruct (cl_nodes cl !! b) as [rf|] eqn:Hs; [|done]. simpl.
      destruct (value _) as [[rf1 args]|] eqn:E; [|done]. apply value_Some in E. simpl. intros [= <- <-] Ha Hb.
      eapply files_insert; [exact Hs|reflexivity| | |exact Ha|exact Hb].
      * intros x Hne. apply silent_other. by apply not_eq_sym.
      * intros _. left. by eapply startElection_saves.
    + intros [= <- <-] Ha _. apply (files_same cl _ _ _ _ eq_refl); auto with raft.
  - destruct (cl_tasks cl !! k) as [[t|]|]; simpl; [|done..]. apply run_task_files.
  - intros [= <- <-] Ha _. apply (files_same cl _ _ _ _ eq_refl); auto with raft.
  - destruct (cl_nodes cl !! b) as [rf|] eqn:Hs; [|done]. simpl. intros [= <- <-] Ha Hb.
    eapply files_insert; [exact Hs|reflexivity|auto with raft| |exact Ha|exact Hb].
    intros _. right. split; [apply keeps_wal, Start_wal|auto with raft].
  - destruct (cl_nodes cl !! b) as [rf|] eqn:Hs; [|done]. simpl. destruct (rf_triggerCh rf); [|done].
    rewrite replicator_ok. simpl. intros [= <- <-] Ha Hb. eapply files_insert; [exact Hs|reflexivity|auto with raft| |exact Ha|exact Hb].
    intros Hb1. right. split; [by apply replicator_keeps|auto with raft].
  - destruct (cl_nodes cl !! b) as [rf|] eqn:Hs; [|done]. simpl. destruct (rf_commitCh rf); [|done].
    destruct (value _) as [[rf1 es]|] eqn:E; [|done]. apply value_Some in E. simpl. intros [= <- <-] Ha Hb.
    eapply files_insert; [exact Hs|reflexivity| | |exact Ha|exact Hb].
    + intros x _. by apply silent_other.
    + intros _. right. split; [apply keeps_wal; by eapply applier_wal|by apply silent_other].
Qed.

(** ** Votes survive *)

Section term.
Context (n : nat) (t : Z).
Hypothesis Hn : Z.of_nat n <= 2 ^ 31.
Hypothesis Ht : 0 < t < 2 ^ 31.

(** The hard state on file knows the vote of term [t]. *)
Definition knows_vote (a : nat) (tr : list event) (hs : HardState) : Prop :=
  (∀ c, granted tr a t c → appended tr a t ∨ (t <= hs_Term hs ∧ (hs_Term hs = t → hs_Vote hs = c))) ∧
  (appended tr a t → t <= hs_Term hs).

Record restart_inv (cl : Cluster) (tr : list event) : Prop := {
  ri_term : term_inv n t cl tr;
  ri_cand v c : granted tr v t c → c < 2 ^ 31;
  ri_file a rf : cl_nodes cl !! a = Some rf → ∃ hs, durable (rf_wal rf) hs ∧ knows_vote a tr hs
}.

Lemma restart_inv_start : restart_inv (start_cluster n) [].
Proof.
  split; [apply start_inv| |].
  - intros v c [[H _]|(? & ? & H & _)]; by apply not_elem_of_nil in H.
  - intros a rf. simpl. rewrite list_lookup_fmap. intros (i & _ & ->)%fmap_Some.
    exists (mkHardState 0 0 0). split; [by exists []|]. split.
    + intros c [[H _]|(? & ? & H & _)]; by apply not_elem_of_nil in H.
    + intros (? & ? & H & _). by apply not_elem_of_nil in H.
Qed.

Lemma candidate_bound cl tr act cl' ev v c :
  term_inv n t cl tr → do_action cl act = Some (cl', ev) →
  (granted tr v t c → c < 2 ^ 31) → granted (tr ++ ev) v t c → c < 2 ^ 31.
Proof.
  intros I Hact Hold Hg. pose proof (ti_vote _ _ _ _ (cluster_step_inv n t Hn ltac:(lia) _ _ _ _ _ I Hact) v c Hg) as (_ & Hv & _).
  destruct Hg as [[H ->]|(args & r & [H|H]%elem_of_app & Hr)]; [lia|apply Hold; right; by exists args, r|].
  apply do_action_shape in Hact. destruct Hr as (_ & _ & <-).
  destruct Hact as [cl' ? ? ? ? ? ? ? ? ? Hev| | | |cl' k e s args' rf rf' now reply reply' _ _ _ _ _ _ _
    |cl' k e s reply el rf rf' votes won ts _ _ _ _ _ _ _ _].
  - rewrite Forall_forall in Hev. by destruct (Hev _ H).
  - by apply not_elem_of_nil in H.
  - by apply list_elem_of_singleton in H.
  - by apply list_elem_of_singleton in H.
  - apply list_elem_of_singleton in H as [= -> -> ->]. simpl. apply s32_range.
  - destruct won; [by apply list_elem_of_singleton in H|by apply not_elem_of_nil in H].
Qed.

Lemma act_inv cl tr act cl' ev :
  restart_inv cl tr → do_action cl act = Some (cl', ev) → bounded cl' = true → restart_inv cl' (tr ++ ev).
Proof.
  intros [I Ic If] Hact Hb. pose proof (cluster_step_inv n t Hn ltac:(lia) _ _ _ _ _ I Hact) as I'.
  assert (∀ v c, granted (tr ++ ev) v t c → c < 2 ^ 31) as Ic'
    by (intros v c; eapply (candidate_bound cl tr act); [done|done|apply Ic]).
  split; [done|done|]. intros a rf' Ha.
  assert (bounded_node rf' = true) as Hb'.
  { unfold bounded in Hb. rewrite forallb_forall in Hb. apply Hb, list_elem_of_In. by eapply list_elem_of_lookup_2. }
  destruct (do_action_files _ _ _ _ _ _ Hact Ha Hb') as (rf & Hrf & Hst).
  destruct (If a rf Hrf) as (hs & Hd & Hk1 & Hk2). destruct Hst as [Hst|[Hst Hsil]].
  - destruct (Hst hs Hd) as (hs' & Hd' & E1 & E2). exists hs'. split; [done|].
    unfold bounded_node in Hb'. rewrite (uwrap_small 32) in E1 by lia. split.
    + intros c Hg. destruct (ti_vote _ _ _ _ I' a c Hg) as (Hc & _ & Hv). specialize (Ic' a c Hg).
      destruct (Hv rf' Ha) as [|[V1 V2]]; [by left|right]. rewrite E1, E2. split; [done|].
      intros Heq. rewrite (V2 Heq). apply uwrap_small. lia.
    + intros Happ. rewrite E1. by apply (ti_append _ _ _ _ I' a rf').
  - exists hs. split; [by apply Hst|]. split.
    + intros c Hg%silent_granted; [|done]. destruct (Hk1 c Hg); [left; by apply appended_mono|by right].
    + intros Happ%silent_appended; [|done]. by apply Hk2.
Qed.

Lemma restart_step_inv cl tr a now cl' :
  restart_inv cl tr → restart cl a now = Some cl' → restart_inv cl' (tr ++ []).
Proof.
  intros [I Ic If] Hr. unfold restart in Hr. destruct (cl_nodes cl !! a) as [rf|] eqn:Ha; [|done].
  cbn [mbind option_bind] in Hr. injection Hr as <-. rewrite app_nil_r.
  destruct (If a rf Ha) as (hs & Hd & Hk1 & Hk2).
  destruct (durable_Make (rf_peers rf) (rf_me rf) _ hs now Hd) as (M1 & M2 & M3 & M4).
  set (rf' := Make _ _ _ _) in *. pose proof (lookup_lt_Some _ _ _ Ha) as Hlt.
  assert (∀ b x, <[a := rf']> (cl_nodes cl) !! b = Some x → b = a ∧ x = rf' ∨ b ≠ a ∧ cl_nodes cl !! b = Some x) as Hnodes.
  { intros b x Hb. destruct (decide (a = b)) as [<-|Hne].
    - rewrite list_lookup_insert_eq in Hb by done. left. by injection Hb.
    - rewrite list_lookup_insert_ne in Hb by done. by right. }
  split; [|done|].
  - rewrite <-(app_nil_r tr). apply (frame_votes n t cl); cbn [cl_nodes cl_elections cl_tasks]; rewrite ?app_nil_r;
      [done|constructor|intros b; apply not_elem_of_nil|rewrite length_insert; apply I| | | |done|].
    + intros b x [[-> ->]|[_ Hb]]%Hnodes; [rewrite M1, M2|]; by apply (ti_node _ _ _ _ I).
    + intros v c Hg. destruct (ti_vote _ _ _ _ I v c Hg) as (Hc & Hv & Hold). split; [done|]. split; [done|].
      intros x [[-> ->]|[_ Hb]]%Hnodes; [|by apply Hold].
      destruct (Hk1 c Hg) as [|[K1 K2]]; [by left|right]. destruct M4 as [M4 M5]; [lia|].
      unfold voted. rewrite M4, M5. done.
    + intros v x Happ [[-> ->]|[_ Hb]]%Hnodes; [|by apply (ti_append _ _ _ _ I v)].
      specialize (Hk2 Happ). destruct M4 as [-> _]; lia.
    + intros k x e s Hk Hx. rewrite list_lookup_fmap in Hk. destruct (cl_tasks cl !! k) as [y|]; [|done].
      simpl in Hk. injection Hk as <-. f_equal. unfold kill in *. destruct y as [y|]; [|done]. simpl in *.
      by destruct (local_task cl a y).
  - intros b x [[-> ->]|[_ Hb]]%Hnodes; [|by apply If]. by exists hs.
Qed.

Lemma reach_restart_inv cl tr : reach_restart n cl tr → restart_inv cl tr.
Proof.
  induction 1 as [|cl tr [act|a now] cl' ev _ IH Hact Hb]; [apply restart_inv_start|by eapply act_inv|].
  simpl in Hact. destruct (restart cl a now) as [cl1|] eqn:E; [|done]. simpl in Hact.
  injection Hact as <- <-. by eapply restart_step_inv.
Qed.
End term.

(** * Properties *)

(** C7. Election safety across restarts: in every run of a cluster whose nodes
    stop and start again from their WAL files at any time, with terms, logs
    and commands that fit in their fields, a positive term in which no node
    granted a vote after it had handled an AppendEntries call of that term has
    at most one leader.  A vote is on file before it is answered, and no
    restart takes it back. *)
Theorem election_safety_restarts n cl tr t a b :
  reach_restart n cl tr → Z.of_nat n <= 2 ^ 31 → 0 < t < 2 ^ 31 → no_late tr t →
  EvLeader a t ∈ tr → EvLeader b t ∈ tr → a = b.
Proof.
  intros Hr Hn Ht. apply (term_inv_safe n t cl). eapply ri_term, reach_restart_inv; done.
Qed.

(** Node 2 votes for node 0 in term 1, restarts, and refuses the same vote to
    node 1, whose request was on its way; node 0 has become leader. *)
Definition restart_vote : list raction :=
  map Act [ReadTick 0 1000 900; ReadTick 1 1000 950; ActTick 0 1000; ActTick 1 1000; RunTask 1 1005; RunTask 1 1010] ++
  [Restart 2 1015] ++ map Act [RunTask 3 1020; RunTask 3 1025].

Definition after_restarts (n : nat) (acts : list raction) : Cluster * list event :=
  default (start_cluster n, []) (run_restart (start_cluster n) acts).

Lemma after_restarts_reach n acts :
  is_Some (run_restart (start_cluster n) acts) →
  reach_restart n (fst (after_restarts n acts)) (snd (after_restarts n acts)).
Proof.
  intros [[cl ev] Hr]. unfold after_restarts. rewrite Hr.
  exact (run_restart_reach n acts (start_cluster n) [] cl ev (reach_restart_start n) Hr).
Qed.

Lemma election_safety_restarts_witness :
  let x := after_restarts 3 restart_vote in
  EvLeader 0 1 ∈ snd x ∧ EvVote 2 (mkVoteArgs 1 1 0 0) (mkVoteReply 1 false) ∈ snd x ∧
  ∀ b, EvLeader b 1 ∈ snd x → 0%nat = b.
Proof.
  assert (EvLeader 0 1 ∈ snd (after_restarts 3 restart_vote)) as H0
    by (apply (list_elem_of_lookup_2 _ 3); vm_compute; reflexivity).
  split; [exact H0|]. split; [apply (list_elem_of_lookup_2 _ 4); vm_compute; reflexivity|].
  intros b. apply (election_safety_restarts 3 (fst (after_restarts 3 restart_vote)) (snd (after_restarts 3 restart_vote)) 1 0 b).
  - apply after_restarts_reach. vm_compute. by eexists.
  - discriminate.
  - split; reflexivity.
  - apply late_check_sound. vm_compute. reflexivity.
  - exact H0.
Defined.
