(* ===== verification/RaftLeader.v ===== *)
(** * Who the leader is

    [GetLeader], [getState] and [reportMetrics] (raft/raft.go), and what their answers mean in
    a cluster: the node named by [GetLeader] won an election, of the current
    term unless the asked node is a candidate.  This is what the HTTP handlers
    rely on when they forward a write. *)

From stdpp Require Import base list gmap.
From Stdlib Require Import ZArith Lia.
From S2P Require Import Prelude GoDir Metrics RaftWal Raft RaftNode RaftApi RaftCluster RaftElection RaftLog.

Definition getState (rf : Raft) : Z * bool := (rf_currentTerm rf, bool_decide (rf_state rf = Leader)).
Definition GetLeader (rf : Raft) : Z := rf_leaderId rf.

(** [reportMetrics]: the four gauges of a node. *)
Definition state_num (s : State) : Z := match s with Follower => 0 | Candidate => 1 | Leader => 2 end.
Definition reportMetrics (rf : Raft) : list metric_call :=
  let id := itoa (rf_me rf) in
  [Gauge_Set TermGauge [id] (f64 (rf_currentTerm rf)); Gauge_Set CommitIndexGauge [id] (f64 (rf_commitIndex rf));
   Gauge_Set StateGauge [id] (f64 (state_num (rf_state rf))); Gauge_Set LeaderGauge [id] (f64 (rf_leaderId rf))].

(** ** The invariant *)

(** [leaderId] is -1 or a winner; [fixed]: of the current term. *)
Definition known_leader (tr : list event) (rf : Raft) : Prop :=
  rf_leaderId rf = -1 ∨
  ∃ l T, rf_leaderId rf = Z.of_nat l ∧ EvLeader l T ∈ tr ∧ T <= rf_currentTerm rf ∧
    (rf_state rf ≠ Candidate → T = rf_currentTerm rf).

Record lead_ok (tr : list event) (a : nat) (rf : Raft) : Prop := {
  lo_term : 0 <= rf_currentTerm rf;
  lo_voted : rf_state rf ≠ Follower → rf_votedFor rf = rf_me rf;
  lo_leader : rf_state rf = Leader → EvLeader a (rf_currentTerm rf) ∈ tr ∧ rf_leaderId rf = Z.of_nat a;
  lo_known : known_leader tr rf
}.

Definition lead_task (tr : list event) (t : Task) : Prop :=
  match t with
  | HeartbeatTo a _ T => EvLeader a T ∈ tr
  | AppendCall a _ args => EvLeader a (aa_Term args) ∈ tr ∧ aa_LeaderId args = Z.of_nat a
  | _ => True
  end.

Record lead_inv (n : nat) (cl : Cluster) (tr : list event) : Prop := {
  le_nodes a rf : cl_nodes cl !! a = Some rf → lead_ok tr a rf;
  le_tasks k t : cl_tasks cl !! k = Some (Some t) → lead_task tr t;
  le_events a T : EvLeader a T ∈ tr → (a < n)%nat ∧ 0 <= T < 2 ^ 31
}.

Lemma lead_ok_mono tr ev a rf : lead_ok tr a rf → lead_ok (tr ++ ev) a rf.
Proof.
  intros []. split; [done|done| |].
  - intros Hl. destruct (lo_leader0 Hl). rewrite elem_of_app. by split; [left|].
  - destruct lo_known0 as [?|(l & T & ? & ? & ?)]; [by left|right]. exists l, T. rewrite elem_of_app. naive_solver.
Qed.

Lemma lead_task_mono tr ev t : lead_task tr t → lead_task (tr ++ ev) t.
Proof. destruct t; simpl; rewrite ?elem_of_app; naive_solver. Qed.

(** ** The handlers *)

(** A change that leaves term, role, vote and leader alone. *)
Definition same_role (rf rf' : Raft) : Prop :=
  rf_currentTerm rf' = rf_currentTerm rf ∧ rf_state rf' = rf_state rf ∧ rf_votedFor rf' = rf_votedFor rf ∧
  rf_leaderId rf' = rf_leaderId rf ∧ rf_me rf' = rf_me rf.

(** A node that follows a higher term and has not heard of its leader. *)
Definition stepped_down (rf rf' : Raft) : Prop :=
  rf_currentTerm rf < rf_currentTerm rf' ∧ rf_state rf' = Follower ∧ rf_leaderId rf' = -1.

Lemma lead_ok_role tr a rf rf' : lead_ok tr a rf → same_role rf rf' ∨ stepped_down rf rf' → lead_ok tr a rf'.
Proof.
  intros [] [(E1 & E2 & E3 & E4 & E5)|(E1 & E2 & E3)].
  - unfold known_leader in *. split; unfold known_leader; rewrite ?E1, ?E2, ?E3, ?E4, ?E5; done.
  - split; [lia|rewrite E2; done|rewrite E2; done|by left].
Qed.

Lemma on_append_reply_role rf s args reply :
  same_role rf (on_append_reply rf s args reply) ∨ stepped_down rf (on_append_reply rf s args reply).
Proof.
  unfold on_append_reply. destruct (Z.ltb_spec (rf_currentTerm rf) (ar_Term reply)); [by right|left].
  destruct (ar_Success reply); [|done].
  set (rf1 := if map_get (rf_matchIndex rf) s <? _ then _ else rf).
  assert (same_role rf rf1) as (A1 & A2 & A3 & A4 & A5) by (unfold rf1; by destruct (_ <? _)).
  generalize (length (rf_log rf1)) (len (rf_log rf1) - 1). intros fuel. clearbody rf1.
  induction fuel as [|fuel IH]; intros N; simpl; [done|]. destruct (_ <=? _); [done|].
  destruct (index _ _); [destruct (_ && _)|..]; try done; apply IH.
Qed.

Lemma applier_role rf rf' es : applier rf = Ok (rf', es) → same_role rf rf'.
Proof.
  unfold applier. destruct (_ <=? _); [by intros [= <- <-]|].
  destruct (collect _ _ _ _); cbn [mbind outcome_bind]; [|done..]. by intros [= <- <-].
Qed.

Lemma Start_role rf c : same_role rf (fst (Start rf c)).
Proof. unfold Start. by destruct (negb _). Qed.

Lemma replicator_role rf : same_role rf (replicated rf).
Proof. unfold replicated, persisted. by destruct (_ <? _). Qed.

(** A vote is never given to somebody else by a candidate or leader. *)
Lemma RequestVote_role rf args now rf' r :
  RequestVote rf args now = Ok (rf', r) →
  same_role rf rf' ∨ stepped_down rf rf' ∨
  (rf_currentTerm rf' = rf_currentTerm rf ∧ rf_state rf' = Follower ∧ rf_leaderId rf' = rf_leaderId rf ∧
   (rf_votedFor rf = -1 ∨ rf_votedFor rf = va_CandidateId args)).
Proof.
  unfold RequestVote. destruct (Z.ltb_spec (va_Term args) (rf_currentTerm rf)); [intros [= <- _]; by left|]. cbv zeta.
  destruct (Z.ltb_spec (rf_currentTerm rf) (va_Term args)); destruct (index _ _); cbn [mbind outcome_bind]; try done.
  - destruct (_ && _); intros [= <- _]; right; left; done.
  - destruct ((_ || _) && _) eqn:Hb; intros [= <- _]; [|by left]. right. right. split_and!; try done.
    apply andb_true_iff in Hb as [[?%Z.eqb_eq|?%Z.eqb_eq]%orb_true_iff _]; auto.
Qed.

Lemma AppendEntries_role rf args now rf' r :
  AppendEntries rf args now = Ok (rf', r) →
  same_role rf rf' ∨
  (rf_currentTerm rf <= aa_Term args ∧ rf_currentTerm rf' = aa_Term args ∧ rf_state rf' = Follower ∧
   rf_leaderId rf' = aa_LeaderId args).
Proof.
  intros Ha. apply AppendEntries_spec in Ha as (_ & _ & _ & Ha).
  destruct (Z.ltb_spec (aa_Term args) (rf_currentTerm rf)); [destruct Ha as [-> _]; by left|right].
  destruct Ha as (? & ? & _ & ?). done.
Qed.

Lemma append_args_lead rf term s args :
  append_args rf term s = Ok (Some args) → aa_Term args = term ∧ aa_LeaderId args = rf_me rf.
Proof.
  unfold append_args. destruct (negb _); [done|]. cbv zeta.
  match goal with |- (?o ≫= _) = _ → _ => destruct o; cbn [mbind outcome_bind]; [|done..] end.
  match goal with |- (?o ≫= _) = _ → _ => destruct o; cbn [mbind outcome_bind]; [|done..] end. by intros [= <-].
Qed.

(** ** Every step *)

Section step.
Context (n : nat) (cl : Cluster) (tr : list event).
Hypothesis Hn : Z.of_nat n <= 2 ^ 31.
Hypothesis I : lead_inv n cl tr.
Hypothesis T : term_inv n 0 cl tr.

(** One node changes, the new tasks and events are right. *)
Lemma lead_step cl' ev a rf' :
  cl_nodes cl' = <[a := rf']> (cl_nodes cl) → lead_ok (tr ++ ev) a rf' →
  (∀ k t, cl_tasks cl' !! k = Some (Some t) → cl_tasks cl !! k = Some (Some t) ∨ lead_task (tr ++ ev) t) →
  (∀ b U, EvLeader b U ∈ ev → (b < n)%nat ∧ 0 <= U < 2 ^ 31) → lead_inv n cl' (tr ++ ev).
Proof.
  intros Hcl Hok Ht Hev. split.
  - intros b rf Hb. rewrite Hcl in Hb. destruct (decide (a = b)) as [<-|Hne].
    + pose proof (lookup_lt_Some _ _ _ Hb) as Hlt. rewrite length_insert in Hlt.
      rewrite list_lookup_insert_eq in Hb by done. by injection Hb as <-.
    + rewrite list_lookup_insert_ne in Hb by done. by apply lead_ok_mono, (le_nodes _ _ _ I).
  - intros k t Hk. destruct (Ht k t Hk) as [Hk'|]; [|done]. by eapply lead_task_mono, (le_tasks _ _ _ I).
  - intros b U [Hin|Hin]%elem_of_app; [by apply (le_events _ _ _ I)|by apply Hev].
Qed.

Lemma lead_idle cl' :
  cl_nodes cl' = cl_nodes cl →
  (∀ k t, cl_tasks cl' !! k = Some (Some t) → cl_tasks cl !! k = Some (Some t) ∨ lead_task tr t) →
  lead_inv n cl' (tr ++ []).
Proof.
  intros Hcl Ht. rewrite app_nil_r. split; [rewrite Hcl; apply I| |apply I].
  intros k t Hk. destruct (Ht k t Hk) as [Hk'|]; [|done]. by eapply (le_tasks _ _ _ I).
Qed.

(** The follower's handler, called by a leader. *)
Lemma lead_append k a s args rf now rf' r :
  cl_tasks cl !! k = Some (Some (AppendCall a s args)) → cl_nodes cl !! s = Some rf →
  AppendEntries rf (wire_append args) now = Ok (rf', r) → lead_ok tr s rf'.
Proof.
  intros Hk Hs Ha. destruct (le_tasks _ _ _ I k _ Hk) as [Hev Hid]. pose proof (le_nodes _ _ _ I s rf Hs) as Hok.
  destruct (le_events _ _ _ I a _ Hev) as [Han HT].
  apply AppendEntries_role in Ha as [Hr|(E1 & E2 & E3 & E4)]; [by eapply lead_ok_role; [|left]|].
  simpl in *. rewrite s32_id in E1, E2 by (unfold is_s32; lia). rewrite s32_id in E4 by (unfold is_s32; lia).
  pose proof (lo_term _ _ _ Hok). split; [lia|by rewrite E3|by rewrite E3|].
  right. exists a, (aa_Term args). split_and!; [congruence|done|lia|lia].
Qed.

Lemma lead_vote k e s args rf now rf' r :
  cl_tasks cl !! k = Some (Some (VoteCall e s args)) → cl_nodes cl !! s = Some rf →
  RequestVote rf (wire_vote args) now = Ok (rf', r) → lead_ok tr s rf'.
Proof.
  intros Hk Hs Hv. pose proof (le_nodes _ _ _ I s rf Hs) as Hok.
  destruct (vote_candidate n 0 Hn cl tr k e s args T Hk) as (el & _ & Hse & _ & Hc & _).
  destruct (ti_node _ _ _ _ T s rf Hs) as [Hme _].
  apply RequestVote_role in Hv as [Hr|[Hr|(E1 & E2 & E3 & E4)]]; [eapply lead_ok_role; [done|by left]|eapply lead_ok_role; [done|by right]|].
  assert (rf_state rf ≠ Candidate) as Hnc.
  { intros Heq. pose proof (lo_voted _ _ _ Hok) as Hvt. rewrite Heq in Hvt. specialize (Hvt ltac:(done)).
    rewrite Hc in E4. destruct E4; lia. }
  split; [rewrite E1; apply Hok|by rewrite E2|by rewrite E2|].
  destruct (lo_known _ _ _ Hok) as [?|(l & U & H1 & H2 & H3 & H4)]; [left; congruence|right].
  exists l, U. rewrite E1, E3. naive_solver.
Qed.

(** Counting a vote. *)
Lemma lead_count a rf term votes reply rf' votes' won :
  (a < n)%nat → cl_nodes cl !! a = Some rf → on_vote_reply rf term votes reply = (rf', votes', won) → rf_currentTerm rf' < 2 ^ 31 →
  let ev := if won : bool then [EvLeader a (rf_currentTerm rf')] else [] in
  lead_ok (tr ++ ev) a rf' ∧ ∀ b U, EvLeader b U ∈ ev → (b < n)%nat ∧ 0 <= U < 2 ^ 31.
Proof.
  intros Han Ha Hr Hs ev. pose proof (le_nodes _ _ _ I a rf Ha) as Hok. pose proof (lo_term _ _ _ Hok) as Ht.
  destruct (ti_node _ _ _ _ T a rf Ha) as [Hme _].
  assert (∀ ev', lead_ok (tr ++ ev') a rf) as Hsame by (intros ev'; by apply lead_ok_mono).
  assert (∀ b U, EvLeader b U ∈ @nil event → (b < n)%nat ∧ 0 <= U < 2 ^ 31) as Hnil by (intros b U H; by apply not_elem_of_nil in H).
  revert Hr. unfold on_vote_reply. destruct (bool_decide_reflect (rf_state rf = Candidate)) as [Hc|];
    cbn [negb orb]; [|intros [= <- _ <-]; by split].
  destruct (negb _); [intros [= <- _ <-]; by split|].
  destruct (Z.ltb_spec (rf_currentTerm rf) (vr_Term reply)).
  { intros [= <- _ <-]. split; [|done]. eapply lead_ok_role; [apply Hsame|by right]. }
  destruct (vr_VoteGranted reply); [|intros [= <- _ <-]; by split].
  destruct (_ =? _); intros [= <- _ <-]; [|by split]. unfold ev. simpl in *.
  assert (EvLeader a (rf_currentTerm rf) ∈ tr ++ [EvLeader a (rf_currentTerm rf)]) as Hin
    by (rewrite elem_of_app, list_elem_of_singleton; by right).
  split; [|intros b U [= -> ->]%list_elem_of_singleton; lia]. split; simpl; [done| |by rewrite Hme|].
  - intros _. apply (lo_voted _ _ _ Hok). by rewrite Hc.
  - right. exists a, (rf_currentTerm rf). by rewrite Hme.
Qed.

Lemma lead_elect a now t0 cl' ev : elect (set_tick cl a t0) a now = Some (cl', ev) → lead_inv n cl' (tr ++ ev).
Proof.
  unfold elect. simpl. destruct (cl_nodes cl !! a) as [rf|] eqn:Ha; [|done]. simpl.
  destruct (value _) as [[rf' args]|] eqn:E; [|done]. apply value_Some in E. simpl. intros [= <- <-].
  pose proof (le_nodes _ _ _ I a rf Ha) as Hok. pose proof (lo_term _ _ _ Hok).
  eapply (lead_step _ _ a rf'); [done| | |intros b U [=]%list_elem_of_singleton].
  - apply lead_ok_mono. revert E. unfold startElection. cbv zeta. destruct (index _ _); cbn [mbind outcome_bind]; [|done..].
    intros [= <- _]. split; simpl; [lia|done|done|].
    destruct (lo_known _ _ _ Hok) as [?|(l & U & H1 & H2 & H3 & H4)]; [by left|right].
    exists l, U. simpl. split_and!; [done|done|lia|done].
  - simpl. intros k t [Hk|Hk]%spawn_lookup; [by left|right]. by apply list_elem_of_fmap in Hk as (s & -> & _).
Qed.

Lemma lead_run_task k t now cl' ev :
  small cl' = true → cl_tasks cl !! k = Some (Some t) → run_task cl k t now = Some (cl', ev) → lead_inv n cl' (tr ++ ev).
Proof.
  intros Hsm Hk. destruct t as [a|a s term|a s args|a s args reply|e s args|e s reply]; simpl.
  - destruct (cl_nodes cl !! a) as [rf|] eqn:Ha; [|done]. simpl.
    destruct (bool_decide_reflect (rf_state rf = Leader)) as [Hl|]; intros [= <- <-]; apply lead_idle; try done; simpl.
    + intros j t [[Hj|]%set_task_lookup|Hj]%spawn_lookup; [by left|done|right].
      apply list_elem_of_fmap in Hj as (s & -> & _). by apply (lo_leader _ _ _ (le_nodes _ _ _ I a rf Ha)).
    + intros j t [Hj|]%set_task_lookup; [by left|done].
  - destruct (cl_nodes cl !! a) as [rf|] eqn:Ha; [|done]. simpl.
    destruct (value _) as [args|] eqn:E; [|done]. apply value_Some in E. simpl. intros [= <- <-]. apply lead_idle; [done|]. simpl.
    intros j t [Hj|Hj]%set_task_lookup; [by left|right]. destruct args as [args|]; [|done]. injection Hj as <-.
    apply append_args_lead in E as [E1 E2]. destruct (ti_node _ _ _ _ T a rf Ha) as [E3 _].
    simpl. rewrite E1, E2, E3. split; [|done]. apply (le_tasks _ _ _ I k _ Hk).
  - destruct (cl_nodes cl !! s) as [rf|] eqn:Ha; [|done]. simpl.
    destruct (value _) as [[rf' r]|] eqn:E; [|done]. apply value_Some in E. simpl.
    apply append_rpc_spec in E as (reply & E & ->). simpl. intros [= <- <-].
    eapply (lead_step _ _ s rf'); [done|by eapply lead_ok_mono, lead_append| |intros b U [=]%list_elem_of_singleton].
    simpl. intros j t [Hj|[= <-]]%set_task_lookup; [by left|by right].
  - destruct (cl_nodes cl !! a) as [rf|] eqn:Ha; [|done]. simpl. intros [= <- <-].
    eapply (lead_step _ _ a); [done| | |intros b U H; by apply not_elem_of_nil in H].
    + apply lead_ok_mono. eapply lead_ok_role; [by apply (le_nodes _ _ _ I)|apply on_append_reply_role].
    + simpl. intros j t [Hj|]%set_task_lookup; [by left|done].
  - destruct (cl_nodes cl !! s) as [rf|] eqn:Ha; [|done]. simpl.
    destruct (value _) as [[rf' r]|] eqn:E; [|done]. apply value_Some in E. simpl.
    apply vote_rpc_spec in E as (reply & E & ->). simpl. intros [= <- <-].
    eapply (lead_step _ _ s rf'); [done|by eapply lead_ok_mono, lead_vote| |intros b U [=]%list_elem_of_singleton].
    simpl. intros j t [Hj|[= <-]]%set_task_lookup; [by left|by right].
  - destruct (cl_elections cl !! e) as [el|] eqn:He; [|done]. simpl.
    destruct (cl_nodes cl !! el_cand el) as [rf|] eqn:Ha; [|done]. simpl.
    destruct (on_vote_reply _ _ _ _) as [[rf' votes] won] eqn:E. intros Hs.
    assert (cl_nodes cl' = <[el_cand el := rf']> (cl_nodes cl)) as Hcl by (destruct won; by injection Hs as <- _).
    destruct (small_node cl' (el_cand el) rf' Hsm) as [Hs1 _];
      [rewrite Hcl; apply list_lookup_insert_eq; by eapply lookup_lt_Some|].
    destruct (lead_count (el_cand el) rf _ _ reply rf' votes won (ti_cand _ _ _ _ T e el He) Ha E Hs1) as [Hok Hev].
    destruct won; injection Hs as <- <-; eapply (lead_step _ _ (el_cand el) rf'); try done; simpl.
    + intros j t [[Hj|]%set_task_lookup|Hj]%(spawn_lookup _ [_]); [by left|done|right].
      by apply list_elem_of_singleton in Hj as ->.
    + intros j t [Hj|]%set_task_lookup; [by left|done].
Qed.

Lemma lead_action act cl' ev : small cl' = true → do_action cl act = Some (cl', ev) → lead_inv n cl' (tr ++ ev).
Proof.
  intros Hsm.
  assert (∀ a rf rf' cl' ev, cl_nodes cl !! a = Some rf → same_role rf rf' → cl_nodes cl' = <[a := rf']> (cl_nodes cl) →
    (∀ k t, cl_tasks cl' !! k = Some (Some t) → cl_tasks cl !! k = Some (Some t) ∨ lead_task (tr ++ ev) t) →
    leaderless ev → lead_inv n cl' (tr ++ ev)) as Hsame.
  { intros a rf rf' cl0 ev0 Ha Hr Hcl Ht Hev. eapply lead_step; [done| |done|by intros b U ?%Hev].
    apply lead_ok_mono. eapply lead_ok_role; [by apply (le_nodes _ _ _ I)|by left]. }
  assert (leaderless []) as Hnil by (intros b t0; apply not_elem_of_nil).
  destruct act as [a now timeout|a now|k now|k|a command|a|a]; simpl.
  - destruct (cl_nodes cl !! a); [|done]. intros [= <- <-]. apply lead_idle; [done|by left].
  - destruct (cl_ticks cl !! a) as [[| |]|]; simpl; [| | |done].
    + intros [= <- <-]. apply lead_idle; [done|]. simpl. intros j t [Hj|Hj]%(spawn_lookup _ [_]); [by left|right].
      by apply list_elem_of_singleton in Hj as ->.
    + apply lead_elect.
    + intros [= <- <-]. apply lead_idle; [done|by left].
  - destruct (cl_tasks cl !! k) as [[t|]|] eqn:Hk; simpl; [|done..]. by apply lead_run_task.
  - intros [= <- <-]. apply lead_idle; [done|]. simpl. intros j t [Hj|]%set_task_lookup; [by left|done].
  - destruct (cl_nodes cl !! a) as [rf|] eqn:Ha; [|done]. simpl. intros [= <- <-].
    eapply Hsame; [done|apply Start_role|done|by left|done].
  - destruct (cl_nodes cl !! a) as [rf|] eqn:Ha; [|done]. simpl. destruct (rf_triggerCh rf); [|done]. rewrite replicator_ok. simpl. intros [= <- <-].
    eapply Hsame; [done|apply replicator_role|done| |done]. simpl.
    intros j t [Hj|Hj]%(spawn_lookup _ [_]); [by left|right]. by apply list_elem_of_singleton in Hj as ->.
  - destruct (cl_nodes cl !! a) as [rf|] eqn:Ha; [|done]. simpl. destruct (rf_commitCh rf); [|done].
    destruct (value _) as [[rf' es]|] eqn:E; [|done]. apply value_Some in E. simpl. intros [= <- <-].
    eapply Hsame; [done|by eapply applier_role|done|by left|intros b t0 [=]%list_elem_of_singleton].
Qed.
End step.

Lemma reach_lead n cl tr : Z.of_nat n <= 2 ^ 31 → reach_small n cl tr → lead_inv n cl tr.
Proof.
  intros Hn. induction 1 as [|cl tr act cl' ev Hr IH Ha Hs].
  - split; simpl; [|by intros k t; rewrite lookup_nil|by intros a T ?%not_elem_of_nil].
    intros a rf. rewrite list_lookup_fmap. intros (i & _ & ->)%fmap_Some. split; simpl; try done. by left.
  - eapply lead_action; [done|done| |done|done].
    apply (reach_inv n 0 Hn ltac:(lia)). by eapply reach_small_reach.
Qed.

(** Without late votes every term has one leader. *)
Lemma reach_unique n cl tr :
  Z.of_nat n <= 2 ^ 31 → reach_small n cl tr → (∀ t, no_late tr t) → unique_leaders tr.
Proof.
  intros Hn Hr Hl a b t Ha Hb. destruct (le_events _ _ _ (reach_lead n cl tr Hn Hr) a t Ha) as [_ Ht].
  eapply (term_inv_safe n t cl); try done. apply reach_inv; [done|done|]. by eapply reach_small_reach.
Qed.

(** The leader a node names: in every run in which terms fit in 31 bits,
    if [GetLeader] of node [a] is not -1, it is the number of a node that won
    an election of a term up to the current one, and of exactly the current
    term unless [a] is a candidate; and a node for which [getState] says that
    it leads names itself. *)
Theorem leader_hint_sound n cl tr a rf :
  reach_small n cl tr → Z.of_nat n <= 2 ^ 31 → cl_nodes cl !! a = Some rf →
  (GetLeader rf ≠ -1 → ∃ l T, GetLeader rf = Z.of_nat l ∧ (l < n)%nat ∧ EvLeader l T ∈ tr ∧
    T <= fst (getState rf) ∧ (rf_state rf ≠ Candidate → T = fst (getState rf))) ∧
  (snd (getState rf) = true → GetLeader rf = Z.of_nat a).
Proof.
  intros Hr Hn Ha. pose proof (reach_lead n cl tr Hn Hr) as I. pose proof (le_nodes _ _ _ I a rf Ha) as Hok.
  split; [|intros ?%bool_decide_eq_true; by apply (lo_leader _ _ _ Hok)].
  intros Hl. destruct (lo_known _ _ _ Hok) as [?|(l & T & H1 & H2 & H3 & H4)]; [done|].
  destruct (le_events _ _ _ I l T H2) as [? _]. by exists l, T.
Qed.

(** Node 2 follows node 0 in the run of [one_leader]. *)
Lemma leader_hint_sound_witness :
  GetLeader (one_leader_node 2) = 0 ∧
  ∃ l T, GetLeader (one_leader_node 2) = Z.of_nat l ∧ EvLeader l T ∈ snd one_leader ∧ T = 1.
Proof.
  assert (GetLeader (one_leader_node 2) = 0) as Hl by (vm_compute; reflexivity). split; [exact Hl|].
  destruct (leader_hint_sound 3 (fst one_leader) (snd one_leader) 2 (one_leader_node 2) one_leader_reach
    ltac:(discriminate) (one_leader_lookup 2 ltac:(lia))) as [H _].
  destruct (H ltac:(rewrite Hl; discriminate)) as (l & T & H1 & _ & H2 & _ & H3). exists l, T.
  split; [exact H1|]. split; [exact H2|]. rewrite H3 by (vm_compute; discriminate). vm_compute. reflexivity.
Defined.
