(* ===== verification/RaftHistory.v ===== *)
(** * The history of a cluster

    Ghost state for the proof of state machine safety: the log of the leader
    of every term, the order in which terms were won, and which node held
    which prefix of a leader's log while it was in the leader's term.  What a
    majority held is in the log of every later leader; every kind of step
    keeps the history in order. *)

From stdpp Require Import base list gmap.
From Stdlib Require Import ZArith Lia.
From S2P Require Import Prelude RaftWal Raft RaftNode RaftApi RaftCluster RaftElection RaftLog.

(** ** The history

    [g_wins] are the terms won, in the order of winning, with the log of the
    winner at that moment; [g_log T] is the log of the leader of term [T];
    [g_ack v T L] tells that node [v], in term [T], had the log prefix [L],
    whose last entry is of term [T]; [g_cand a T] is the log with which node
    [a] started its election for term [T]; [g_known] holds the logs seen. *)
Record Ghost := mkGhost {
  g_wins : list (Z * list LogEntry);
  g_log : Z → list LogEntry;
  g_ack : nat → Z → list LogEntry → Prop;
  g_cand : nat → Z → list LogEntry;
  g_known : list LogEntry → Prop
}.

Definition ends (T : Z) (L : list LogEntry) : Prop := ∃ e, last L = Some e ∧ le_Term e = T ∧ 1 <= T.

(** Some later term was won without [L]. *)
Definition lost (wins : list (Z * list LogEntry)) (T : Z) (L : list LogEntry) : Prop :=
  ∃ W Lw, (W, Lw) ∈ wins ∧ T < W ∧ ¬ L `prefix_of` Lw.

Definition quorum (n : nat) (P : nat → Prop) : Prop :=
  ∃ Q, NoDup Q ∧ (n < 2 * length Q)%nat ∧ Forall (λ q, (q < n)%nat ∧ P q) Q.

Definition chosen (n : nat) (G : Ghost) (T : Z) (L : list LogEntry) : Prop :=
  ends T L ∧ quorum n (λ q, g_ack G q T L).

(** [P] is part of something chosen by term [t]. *)
Definition committed (n : nat) (G : Ghost) (t : Z) (P : list LogEntry) : Prop :=
  P `prefix_of` [sentinel] ∨ ∃ T L, T <= t ∧ P `prefix_of` L ∧ chosen n G T L.

Definition in_term (nodes : list Raft) (v : nat) (t : Z) (P : Raft → Prop) : Prop :=
  ∃ rf, nodes !! v = Some rf ∧ t <= rf_currentTerm rf ∧ P rf.

Record history (n : nat) (H : list LogEntry → Prop) (G : Ghost) (nodes : list Raft) (tr : list event) : Prop := {
  hs_known L : g_known G L → H L;
  hs_event a T : EvLeader a T ∈ tr → ∃ Lw, (T, Lw) ∈ g_wins G;
  hs_win W Lw : (W, Lw) ∈ g_wins G →
    (∃ a, EvLeader a W ∈ tr) ∧ Lw `prefix_of` g_log G W ∧ g_known G (g_log G W) ∧ Lw !! 0%nat = Some sentinel ∧
    ∀ i e, g_log G W !! i = Some e → if decide (i < length Lw)%nat then le_Term e < W else le_Term e = W;
  hs_entry L i e : g_known G L → L !! i = Some e → i ≠ 0%nat → g_log G (le_Term e) !! i = Some e;
  hs_ack v T L : g_ack G v T L →
    in_term nodes v T (λ rf, L `prefix_of` rf_log rf ∨ lost (g_wins G) T L) ∧
    ends T L ∧ L `prefix_of` g_log G T ∧ ∃ Lw, (T, Lw) ∈ g_wins G;
  hs_vote v U c : granted tr v U c →
    in_term nodes v U (λ _, True) ∧ in_term nodes (Z.to_nat c) U (λ _, True) ∧
    ∀ T L, g_ack G v T L → T < U → L `prefix_of` g_cand G (Z.to_nat c) U ∨ lost (g_wins G) T L;
  hs_quorum k W Lw : g_wins G !! k = Some (W, Lw) →
    quorum n (λ q, in_term nodes q W (λ _, True) ∧
      ∀ T L, g_ack G q T L → T < W → L `prefix_of` Lw ∨ lost (take k (g_wins G)) T L)
}.

(** What the history needs of the logs of [H]. *)
Record logs_ok (H : list LogEntry → Prop) (tr : list event) : Prop := {
  lo_match L1 L2 i e1 e2 : H L1 → H L2 → L1 !! i = Some e1 → L2 !! i = Some e2 → le_Term e1 = le_Term e2 →
    take (S i) L1 = take (S i) L2;
  lo_ok L : H L → log_ok L;
  lo_origin L i e : H L → L !! i = Some e → i ≠ 0%nat → ∃ a, EvLeader a (le_Term e) ∈ tr
}.

Lemma log_inv_logs_ok n H cl tr : log_inv n H cl tr → logs_ok H tr.
Proof. intros I. split; apply I. Qed.

Lemma logs_ok_back H tr ev : logs_ok H (tr ++ ev) → leaderless ev → logs_ok H tr.
Proof.
  intros O Hl. split; try apply O. intros L i e HL He Hi.
  destruct (lo_origin _ _ O L i e HL He Hi) as [a Ha]. exists a. by eapply leader_in.
Qed.

(** ** What the history gives *)

Lemma lost_mono wins wins' T L : wins `prefix_of` wins' → lost wins T L → lost wins' T L.
Proof. intros [r ->] (W & Lw & H1 & H2). exists W, Lw. split; [apply elem_of_app; by left|done]. Qed.

Lemma quorum_meet n P Q : quorum n P → quorum n Q → ∃ v, (v < n)%nat ∧ P v ∧ Q v.
Proof.
  intros (l1 & N1 & L1 & F1) (l2 & N2 & L2 & F2).
  destruct (majorities_meet n l1 l2) as (v & H1 & H2); try done; [by eapply Forall_impl; [done|]; intros ? []..|].
  rewrite Forall_forall in F1, F2. destruct (F1 v H1), (F2 v H2). by exists v.
Qed.

Lemma quorum_impl n (P Q : nat → Prop) : (∀ v, P v → Q v) → quorum n P → quorum n Q.
Proof.
  intros HPQ (l & N & L & F). exists l. split_and!; [done|done|]. eapply Forall_impl; [done|].
  intros v [? ?]. auto.
Qed.

Lemma ends_entry T L M : ends T L → L `prefix_of` M →
  ∃ e, M !! (length L - 1)%nat = Some e ∧ le_Term e = T ∧ (length L - 1 < length L)%nat.
Proof.
  intros (e & He & Ht & _) HL. exists e. split; [by apply prefix_last|]. split; [done|].
  destruct L; [done|]. simpl. lia.
Qed.

Section history.
Context (n : nat) (H : list LogEntry → Prop) (G : Ghost) (nodes : list Raft) (tr : list event).
Hypothesis I : logs_ok H tr.
Hypothesis Hh : history n H G nodes tr.

(** A chosen prefix is in the log of every leader of a later term, because
    the first winner without it would have asked one of its holders. *)
Lemma chosen_win T L W Lw : chosen n G T L → (W, Lw) ∈ g_wins G → T < W → L `prefix_of` Lw.
Proof.
  intros [_ Hq] [k Hk]%list_elem_of_lookup. revert W Lw Hk.
  induction (lt_wf k) as [k _ IH]. intros W Lw Hk HT.
  destruct (quorum_meet _ _ _ Hq (hs_quorum _ _ _ _ _ Hh k W Lw Hk)) as (v & _ & Ha & _ & Hv).
  destruct (Hv T L Ha HT) as [|(W' & Lw' & Hin & HT' & Hno)]; [done|].
  apply list_elem_of_lookup in Hin as [k' Hk']. apply lookup_take_Some in Hk' as [Hk' Hlt].
  by destruct Hno; eapply (IH k').
Qed.

Lemma chosen_not_lost T L : chosen n G T L → ¬ lost (g_wins G) T L.
Proof. intros Hc (W & Lw & Hin & HT & Hno). by apply Hno, (chosen_win T L W). Qed.

(** The leader's log of term [W] holds everything chosen up to [W]. *)
Lemma chosen_in_log T L W Lw :
  chosen n G T L → (W, Lw) ∈ g_wins G → T <= W → L `prefix_of` g_log G W.
Proof.
  intros Hc Hw HT. destruct (hs_win _ _ _ _ _ Hh W Lw Hw) as (_ & Hp & _).
  destruct (decide (T = W)) as [<-|Hne]; [|trans Lw; [apply (chosen_win T L W); [done|done|lia]|done]].
  destruct Hc as [_ Hq]. destruct (quorum_meet _ _ _ Hq Hq) as (v & _ & Ha & _).
  by apply (hs_ack _ _ _ _ _ Hh) in Ha as (_ & _ & ? & _).
Qed.

Lemma chosen_won T L : chosen n G T L → ∃ Lw, (T, Lw) ∈ g_wins G.
Proof.
  intros [_ Hq]. destruct (quorum_meet _ _ _ Hq Hq) as (v & _ & Ha & _).
  by apply (hs_ack _ _ _ _ _ Hh) in Ha as (_ & _ & _ & ?).
Qed.

Lemma chosen_agree T1 L1 T2 L2 : chosen n G T1 L1 → chosen n G T2 L2 → agree L1 L2.
Proof.
  intros H1 H2. destruct (chosen_won _ _ H1) as [Lw1 W1]. destruct (chosen_won _ _ H2) as [Lw2 W2].
  assert (∃ Lw, (Z.max T1 T2, Lw) ∈ g_wins G) as [Lw W] by (destruct (Z.max_spec T1 T2) as [[_ ->]|[_ ->]]; eauto).
  apply (prefix_weak_total _ _ (g_log G (Z.max T1 T2))); (eapply chosen_in_log; [done|done|lia]).
Qed.

Lemma known_sentinel L : g_known G L → [sentinel] `prefix_of` L.
Proof.
  intros HL%(hs_known _ _ _ _ _ Hh). destruct (lo_ok _ _ I L HL) as (H0 & _).
  destruct L as [|x L]; [done|]. injection H0 as ->. by exists L.
Qed.

Lemma agree_sentinel P L : P `prefix_of` [sentinel] → g_known G L → agree P L.
Proof. intros HP HL. left. trans [sentinel]; [done|by apply known_sentinel]. Qed.

Lemma committed_agree t P t' P' : committed n G t P → committed n G t' P' → agree P P'.
Proof.
  assert (∀ t P T L, committed n G t P → chosen n G T L → agree P L) as Hone.
  { intros s X T L [HX|(T1 & L1 & _ & HX & H1)] Hc; [|eapply agree_prefix_l; [done|by eapply chosen_agree]].
    destruct (chosen_won _ _ Hc) as [Lw W]. eapply agree_prefix_l; [done|]. left.
    destruct Hc as [(e & He & Ht & HT) Hq]. destruct (quorum_meet _ _ _ Hq Hq) as (v & _ & Ha & _).
    apply (hs_ack _ _ _ _ _ Hh) in Ha as (_ & _ & Hp & _). destruct (hs_win _ _ _ _ _ Hh T Lw W) as (_ & _ & Hk & _).
    destruct (prefix_weak_total [sentinel] L _ (known_sentinel _ Hk) Hp) as [|Hs]; [done|].
    rewrite (prefix_length_eq L [sentinel]); [done|done|]. destruct L; [done|simpl; lia]. }
  intros HP HP'. destruct HP' as [HP'|(T & L & _ & HP' & Hc)].
  - destruct HP as [HP|(T & L & _ & HP & Hc)]; [by apply (prefix_weak_total _ _ [sentinel])|].
    eapply agree_prefix_l; [done|]. destruct (Hone t' P' T L) as [?|?]; [by left|done|by right|by left].
  - destruct (Hone t P T L HP Hc) as [?|?]; [|right; by trans L]. by apply (prefix_weak_total _ _ L).
Qed.

(** A known log up to an entry is the log of that entry's leader. *)
Lemma known_upto L i e :
  g_known G L → L !! i = Some e → i ≠ 0%nat →
  (∃ Lw, (le_Term e, Lw) ∈ g_wins G) ∧ take (S i) L `prefix_of` g_log G (le_Term e).
Proof.
  intros HL Hi Hi0. pose proof (hs_known _ _ _ _ _ Hh L HL) as HL'.
  destruct (lo_origin _ _ I L i e HL' Hi Hi0) as [a Ha].
  destruct (hs_event _ _ _ _ _ Hh a _ Ha) as [Lw Hw]. split; [by exists Lw|].
  destruct (hs_win _ _ _ _ _ Hh _ _ Hw) as (_ & _ & Hk & _).
  rewrite (lo_match _ _ I L (g_log G (le_Term e)) i e e); try done.
  - apply prefix_take.
  - by apply (hs_known _ _ _ _ _ Hh).
  - by apply (hs_entry _ _ _ _ _ Hh L).
Qed.

Lemma known_last L e :
  g_known G L → last L = Some e → 1 <= le_Term e →
  (∃ Lw, (le_Term e, Lw) ∈ g_wins G) ∧ L `prefix_of` g_log G (le_Term e) ∧
  g_log G (le_Term e) !! (length L - 1)%nat = Some e.
Proof.
  intros HL He Ht. pose proof (prefix_last L L e (reflexivity L) He) as Hl.
  destruct (lo_ok _ _ I L) as (H0 & _ & _); [by apply (hs_known _ _ _ _ _ Hh)|].
  assert (length L - 1 ≠ 0)%nat as Hne.
  { intros Hz. rewrite Hz in Hl. rewrite H0 in Hl. injection Hl as <-. simpl in Ht. lia. }
  destruct (known_upto L _ e HL Hl Hne) as [Hw Hp]. split; [done|].
  rewrite take_ge in Hp by lia. split; [done|]. by eapply prefix_lookup_Some.
Qed.

(** Terms do not decrease along a leader's log. *)
Lemma log_term_le W Lw i e : (W, Lw) ∈ g_wins G → g_log G W !! i = Some e → le_Term e <= W.
Proof.
  intros Hw He. destruct (hs_win _ _ _ _ _ Hh W Lw Hw) as (_ & _ & _ & _ & Ht).
  specialize (Ht i e He). destruct (decide _); lia.
Qed.

(** A log at least as up to date as one that holds [L] holds [L] as well. *)
Lemma uptodate T L Lv Lc ev ec :
  g_known G Lv → g_known G Lc → ends T L → L `prefix_of` Lv → L `prefix_of` g_log G T →
  last Lv = Some ev → last Lc = Some ec →
  le_Term ev < le_Term ec ∨ (le_Term ec = le_Term ev ∧ (length Lv <= length Lc)%nat) →
  L `prefix_of` Lc ∨ lost (g_wins G) T L.
Proof.
  intros Kv Kc He Hv HT Hlv Hlc Hup. pose proof He as (e & Hle & Hte & H1).
  destruct (ends_entry T L Lv He Hv) as (x & Hx & Htx & Hlen).
  assert (T <= le_Term ev) as Hge.
  { destruct (Z_lt_le_dec (le_Term ev) 1) as [Hz|Hz].
    - exfalso. pose proof (prefix_last Lv Lv ev (reflexivity Lv) Hlv) as Hl.
      pose proof (lookup_lt_Some _ _ _ Hx) as Hlt.
      destruct (lo_ok _ _ I Lv) as (H0 & _ & Hok); [by apply (hs_known _ _ _ _ _ Hh)|].
      destruct (Hok _ _ Hl) as (_ & _ & Hpos). destruct (decide (length Lv - 1 = 0)%nat) as [Hl0|]; [|lia].
      replace (length L - 1)%nat with 0%nat in Hx by lia. rewrite H0 in Hx. injection Hx as <-. simpl in Htx. lia.
    - destruct (known_last Lv ev Kv Hlv Hz) as ([Lw Hw] & Hp & _).
      rewrite <-Htx. eapply log_term_le; [done|]. by eapply prefix_lookup_Some. }
  destruct (known_last Lc ec Kc Hlc ltac:(lia)) as ([Lw Hw] & Hpc & Hec).
  destruct (decide (T = le_Term ec)) as [Heq|Hne].
  - left. rewrite Heq in HT. destruct Hup as [?|[_ Hlen']]; [lia|]. apply prefix_length in Hv.
    destruct (prefix_weak_total L Lc _ HT Hpc) as [?|Hcl]; [done|].
    rewrite (prefix_length_eq Lc L); [done|done|lia].
  - destruct (decide (L `prefix_of` Lw)) as [Hp|Hp]; [left|right; exists (le_Term ec), Lw; split_and!; [done|lia|done]].
    trans Lw; [done|]. destruct (hs_win _ _ _ _ _ Hh _ _ Hw) as (_ & Hwp & _ & _ & Ht). specialize (Ht _ _ Hec).
    destruct (decide (length Lc - 1 < length Lw)%nat); [lia|].
    destruct (prefix_weak_total Lw Lc _ Hwp Hpc) as [?|Hcl]; [done|]. pose proof (prefix_length _ _ Hcl).
    rewrite (prefix_length_eq Lc Lw); [done|done|]. destruct Lc; [done|]. simpl in *. lia.
Qed.
End history.

(** ** Steps of the history *)

Lemma history_more n (H H' : list LogEntry → Prop) G nodes tr :
  (∀ L, H L → H' L) → history n H G nodes tr → history n H' G nodes tr.
Proof. intros HH []. split; auto. Qed.

Lemma history_events n H G nodes tr ev :
  history n H G nodes tr → voteless ev → leaderless ev → history n H G nodes (tr ++ ev).
Proof.
  intros [] Hv Hl. split; try done.
  - intros a T Ha. eapply hs_event0, leader_in; done.
  - intros W Lw Hw. destruct (hs_win0 W Lw Hw) as ([a Ha] & Hr). split; [|done]. exists a. apply elem_of_app. by left.
  - intros v U c Hg. eapply hs_vote0, granted_voteless; done.
Qed.

(** What node state [rf] holds of the log of its term's leader. *)
Definition holds (rf : Raft) (T : Z) (L : list LogEntry) : Prop :=
  rf_currentTerm rf = T ∧ ends T L ∧ L `prefix_of` rf_log rf.

Definition observe (G : Ghost) (a : nat) (rf : Raft) : Ghost :=
  mkGhost (g_wins G) (g_log G) (λ v T L, g_ack G v T L ∨ (v = a ∧ holds rf T L)) (g_cand G)
    (λ L, g_known G L ∨ L = rf_log rf).

Lemma in_term_insert nodes a rf rf' v t (P Q : Raft → Prop) :
  nodes !! a = Some rf → rf_currentTerm rf <= rf_currentTerm rf' →
  (∀ x, P x → Q x) → (P rf → Q rf') → in_term nodes v t P → in_term (<[a := rf']> nodes) v t Q.
Proof.
  intros Ha Ht HPQ Hpq (x & Hx & Htx & HP). destruct (decide (a = v)) as [<-|Hne].
  - assert (x = rf) as -> by congruence. exists rf'.
    rewrite list_lookup_insert_eq by (by eapply lookup_lt_Some). split_and!; [done|lia|auto].
  - exists x. rewrite list_lookup_insert_ne by done. auto.
Qed.

(** A node changes: terms do not decrease, what it held it still holds or is
    lost, and its log consists of entries of leaders' logs. *)
Lemma history_node n H G nodes tr a rf rf' :
  logs_ok H tr → history n H G nodes tr → nodes !! a = Some rf → rf_currentTerm rf <= rf_currentTerm rf' →
  (∀ T L, g_ack G a T L → T <= rf_currentTerm rf → L `prefix_of` rf_log rf → L `prefix_of` g_log G T →
     L `prefix_of` rf_log rf' ∨ lost (g_wins G) T L) →
  H (rf_log rf') →
  (∀ i e, rf_log rf' !! i = Some e → i ≠ 0%nat → g_log G (le_Term e) !! i = Some e) →
  history n H (observe G a rf') (<[a := rf']> nodes) tr.
Proof.
  intros O Hh Ha Ht Hkeep HH Hent.
  assert (∀ v t (P : Raft → Prop), (∀ x, P x) → in_term nodes v t P → in_term (<[a := rf']> nodes) v t P) as Hin.
  { intros v t P HP. eapply in_term_insert; [done|done|auto..]. }
  assert (in_term (<[a := rf']> nodes) a (rf_currentTerm rf') (λ x, x = rf')) as Hself.
  { exists rf'. rewrite list_lookup_insert_eq by (by eapply lookup_lt_Some). done. }
  assert (∀ v U T L, in_term nodes v U (λ _, True) → g_ack (observe G a rf') v T L → T < U → g_ack G v T L) as Hold.
  { intros v U T L (x & Hx & HUx & _) [Hack|(-> & HT & _)] HTU; [done|]. assert (x = rf) as -> by congruence. lia. }
  split; simpl.
  - intros L [HL| ->]; [by apply (hs_known _ _ _ _ _ Hh)|done].
  - apply Hh.
  - intros W Lw Hw. destruct (hs_win _ _ _ _ _ Hh W Lw Hw) as (H1 & H2 & H3 & H4). auto.
  - intros L i e [HL| ->]; [by apply (hs_entry _ _ _ _ _ Hh)|apply Hent].
  - intros v T L [Hack|(-> & HT & He & HL)].
    + destruct (hs_ack _ _ _ _ _ Hh v T L Hack) as ((x & Hx & HTx & HLx) & H2 & H3 & H4). split; [|done].
      destruct (decide (a = v)) as [<-|Hne].
      * assert (x = rf) as -> by congruence. exists rf'.
        rewrite list_lookup_insert_eq by (by eapply lookup_lt_Some). split_and!; [done|lia|].
        destruct HLx as [HLx|]; [by apply Hkeep|by right].
      * exists x. by rewrite list_lookup_insert_ne.
    + subst T. split; [|split; [done|]].
      * exists rf'. rewrite list_lookup_insert_eq by (by eapply lookup_lt_Some). split_and!; [done|lia|by left].
      * destruct (ends_entry _ _ _ He HL) as (e & Hi & Hte & Hlt). pose proof He as (e' & _ & _ & Hpos).
        assert (length L - 1 ≠ 0)%nat as Hi0.
        { intros Hz. rewrite Hz in Hi. destruct (lo_ok _ _ O _ HH) as (H0 & _). rewrite H0 in Hi. injection Hi as <-.
          simpl in Hte. lia. }
        destruct (lo_origin _ _ O _ _ _ HH Hi Hi0) as [b Hb]. rewrite Hte in Hb.
        destruct (hs_event _ _ _ _ _ Hh b _ Hb) as [Lw Hw]. split; [|by exists Lw].
        destruct (hs_win _ _ _ _ _ Hh _ _ Hw) as (_ & _ & Hk & _).
        pose proof (Hent _ _ Hi Hi0) as Hg. rewrite Hte in Hg.
        pose proof (lo_match _ _ O _ _ _ _ _ HH (hs_known _ _ _ _ _ Hh _ Hk) Hi Hg eq_refl) as Hm.
        replace (S (length L - 1)) with (length L) in Hm by lia.
        rewrite <-(prefix_take_length _ _ HL), Hm. apply prefix_take.
  - intros v U c Hg. destruct (hs_vote _ _ _ _ _ Hh v U c Hg) as (H1 & H2 & H3).
    split; [by apply Hin|]. split; [by apply Hin|]. intros T L Hack HT. apply H3; [by eapply Hold|done].
  - intros k W Lw Hk. eapply quorum_impl; [|by apply (hs_quorum _ _ _ _ _ Hh)]. intros q [H1 H2].
    split; [by apply Hin|]. intros T L Hack HT. apply H2; [by eapply Hold|done].
Qed.

(** Events that are no leaders; new votes come with what the voter held. *)
Lemma history_votes n H G nodes tr ev :
  history n H G nodes tr → leaderless ev →
  (∀ v U c, granted (tr ++ ev) v U c → granted tr v U c ∨
     (in_term nodes v U (λ _, True) ∧ in_term nodes (Z.to_nat c) U (λ _, True) ∧
      ∀ T L, g_ack G v T L → T < U → L `prefix_of` g_cand G (Z.to_nat c) U ∨ lost (g_wins G) T L)) →
  history n H G nodes (tr ++ ev).
Proof.
  intros [] Hl Hv. split; try done.
  - intros a T Ha. eapply hs_event0, leader_in; done.
  - intros W Lw Hw. destruct (hs_win0 W Lw Hw) as ([a Ha] & Hr). split; [|done]. exists a. apply elem_of_app. by left.
  - intros v U c [Hg|Hg]%Hv; [by apply hs_vote0|done].
Qed.

(** A node fixes the log of its next candidacy. *)
Definition set_cand (G : Ghost) (a : nat) (U : Z) (L : list LogEntry) : Ghost :=
  mkGhost (g_wins G) (g_log G) (g_ack G) (λ b T, if decide (b = a ∧ T = U) then L else g_cand G b T) (g_known G).

Lemma history_cand n H G nodes tr a rf U L :
  history n H G nodes tr → nodes !! a = Some rf → rf_currentTerm rf < U →
  history n H (set_cand G a U L) nodes tr.
Proof.
  intros [] Ha HU. split; try done. simpl. intros v U' c Hg. destruct (hs_vote0 v U' c Hg) as (H1 & H2 & H3).
  split; [done|]. split; [done|]. intros T X Hack HT. destruct (decide _) as [[Hc ->]|]; [|by apply H3].
  destruct H2 as (x & Hx & Hle & _). rewrite Hc, Ha in Hx. injection Hx as <-. lia.
Qed.

(** Term [U] is won with log [L]. *)
Definition set_log_of (G : Ghost) (U : Z) (L : list LogEntry) (T : Z) : list LogEntry :=
  if decide (T = U) then L else g_log G T.

Definition win (G : Ghost) (U : Z) (L : list LogEntry) : Ghost :=
  mkGhost (g_wins G ++ [(U, L)]) (set_log_of G U L) (g_ack G) (g_cand G) (g_known G).

Lemma history_win n H G nodes tr a U L :
  logs_ok H tr → history n H G nodes tr → (∀ b, EvLeader b U ∉ tr) → g_known G L →
  (∀ i e, L !! i = Some e → le_Term e < U) →
  quorum n (λ q, in_term nodes q U (λ _, True) ∧
    ∀ T L', g_ack G q T L' → T < U → L' `prefix_of` L ∨ lost (g_wins G) T L') →
  history n H (win G U L) nodes (tr ++ [EvLeader a U]).
Proof.
  intros O Hh Hfresh HL Hlt Hq.
  assert (∀ T Lw, (T, Lw) ∈ g_wins G → set_log_of G U L T = g_log G T) as Hsame.
  { intros T Lw Hw. unfold set_log_of. destruct (decide (T = U)) as [->|]; [|done].
    destruct (hs_win _ _ _ _ _ Hh _ _ Hw) as ([b Hb] & _). by destruct (Hfresh b). }
  assert (g_wins G `prefix_of` g_wins (win G U L)) as Hpre by (by eexists).
  split; cbn [win g_wins g_log g_ack g_cand g_known].
  - apply Hh.
  - intros b T [Hb|Hb%list_elem_of_singleton]%elem_of_app.
    + destruct (hs_event _ _ _ _ _ Hh b T Hb) as [Lw Hw]. exists Lw. apply elem_of_app. by left.
    + injection Hb as _ ->. exists L. apply elem_of_app. right. by apply list_elem_of_singleton.
  - intros W Lw [Hw|[= -> ->]%list_elem_of_singleton]%elem_of_app.
    + rewrite (Hsame _ _ Hw). destruct (hs_win _ _ _ _ _ Hh W Lw Hw) as ([b Hb] & Hr). split; [|done].
      exists b. apply elem_of_app. by left.
    + unfold set_log_of. rewrite decide_True by done.
      split; [exists a; apply elem_of_app; right; by apply list_elem_of_singleton|]. split; [done|]. split; [done|].
      split; [by apply (lo_ok _ _ O), (hs_known _ _ _ _ _ Hh)|]. intros i e He.
      rewrite decide_True by (by eapply lookup_lt_Some). by eapply Hlt.
  - intros X i e HX He Hi. destruct (lo_origin _ _ O X i e) as [b Hb]; [by apply (hs_known _ _ _ _ _ Hh)|done|done|].
    destruct (hs_event _ _ _ _ _ Hh b _ Hb) as [Lw Hw]. rewrite (Hsame _ _ Hw). by apply (hs_entry _ _ _ _ _ Hh X).
  - intros v T X Hack. destruct (hs_ack _ _ _ _ _ Hh v T X Hack) as ((x & Hx & HTx & HX) & H2 & H3 & [Lw Hw]).
    split; [exists x; split_and!; [done..|]; destruct HX; [by left|right; by eapply lost_mono]|].
    split; [done|]. rewrite (Hsame _ _ Hw). split; [done|]. exists Lw. apply elem_of_app. by left.
  - intros v U' c [[[Hg|Hg]%elem_of_app Hc]|(args & reply & [Hg|Hg]%elem_of_app & Hr)];
      [..|by apply list_elem_of_singleton in Hg]; [|by apply list_elem_of_singleton in Hg|];
      (destruct (hs_vote _ _ _ _ _ Hh v U' c) as (H1 & H2 & H3);
         [by (left + (right; exists args, reply))|split; [done|]; split; [done|]];
       intros T X Hack HT; destruct (H3 T X Hack HT); [by left|right; by eapply lost_mono]).
  - intros k W Lw Hk. apply lookup_app_Some in Hk as [Hk|[Hlen Hk]].
    + rewrite take_app_le by (apply lookup_lt_Some in Hk; lia). by apply (hs_quorum _ _ _ _ _ Hh).
    + apply list_lookup_singleton_Some in Hk as [Hk [= -> ->]].
      rewrite take_app_le, take_ge by lia. done.
Qed.

(** The leader of term [T] adds an entry. *)
Definition extend (G : Ghost) (T : Z) (x : LogEntry) : Ghost :=
  mkGhost (g_wins G) (set_log_of G T (g_log G T ++ [x])) (g_ack G) (g_cand G)
    (λ L, g_known G L ∨ L = g_log G T ++ [x]).

Lemma extend_prefix G T x T' : g_log G T' `prefix_of` g_log (extend G T x) T'.
Proof. simpl. unfold set_log_of. destruct (decide (T' = T)) as [->|]; [by eexists|done]. Qed.

Lemma history_extend n H G nodes tr T x Lw :
  history n H G nodes tr → (T, Lw) ∈ g_wins G → le_Term x = T → H (g_log G T ++ [x]) →
  history n H (extend G T x) nodes tr.
Proof.
  intros Hh Hw Hx HH.
  assert (∀ T' i e, g_log G T' !! i = Some e → g_log (extend G T x) T' !! i = Some e) as Hlk
    by (intros T' i e He; eapply prefix_lookup_Some; [done|apply extend_prefix]).
  split; [|apply Hh|..|apply Hh|apply Hh].
  - simpl. intros L [HL| ->]; [by apply (hs_known _ _ _ _ _ Hh)|done].
  - intros W Lw' Hw'. destruct (hs_win _ _ _ _ _ Hh W Lw' Hw') as (H1 & H2 & H3 & H4 & H5).
    split; [done|]. split; [trans (g_log G W); [done|apply extend_prefix]|].
    simpl. unfold set_log_of. destruct (decide (W = T)) as [->|]; [|split; [by left|done]].
    split; [by right|]. split; [done|]. intros i e [He|[Hi He]]%lookup_app_Some; [by apply H5|].
    apply list_lookup_singleton_Some in He as [_ <-]. apply prefix_length in H2. rewrite decide_False by lia. done.
  - intros L i e [HL| ->] He Hi; [by apply Hlk, (hs_entry _ _ _ _ _ Hh L)|].
    apply lookup_app_Some in He as [He|[Hi' He]].
    + apply Hlk. destruct (hs_win _ _ _ _ _ Hh T Lw Hw) as (_ & _ & H3 & _). by apply (hs_entry _ _ _ _ _ Hh (g_log G T)).
    + apply list_lookup_singleton_Some in He as [Hz <-]. simpl. unfold set_log_of.
      rewrite decide_True by done. rewrite lookup_app_r by done. by replace (i - length (g_log G T))%nat with 0%nat by lia.
  - intros v T' L Hack. destruct (hs_ack _ _ _ _ _ Hh v T' L Hack) as (H1 & H2 & H3 & H4).
    split; [done|]. split; [done|]. split; [|done]. trans (g_log G T'); [done|apply extend_prefix].
Qed.
