(* ===== verification/RaftSteps.v ===== *)
(** * The invariant of a cluster without stale goroutines

    What holds of every node and every call in flight when terms have one
    leader, counters fit in 32 bits, and the goroutines of [sendHeartBeats]
    act only in the term in which they were started; and that every step of
    the cluster keeps it.  RaftSafety.v draws the conclusions. *)

From stdpp Require Import base list gmap.
From Stdlib Require Import ZArith Lia.
From S2P Require Import Prelude RaftWal Raft RaftNode RaftApi RaftCluster RaftElection RaftLog RaftHistory.

(** ** Runs without stale goroutines

    [sendHeartBeats] reads the term once; its goroutines later check that the
    node is a leader, but not of which term, and the reply is counted in
    whatever term the node is by then.  A step is fresh when this makes no
    difference. *)
Definition fresh (cl : Cluster) (act : action) : bool :=
  match act with
  | RunTask k _ =>
      match cl_tasks cl !! k with
      | Some (Some (HeartbeatTo a _ term)) =>
          match cl_nodes cl !! a with
          | Some rf => negb (bool_decide (rf_state rf = Leader)) || (rf_currentTerm rf =? term)
          | None => true
          end
      | Some (Some (AppendBack a _ args reply)) =>
          match cl_nodes cl !! a with
          | Some rf => negb (ar_Success reply) || (rf_currentTerm rf =? aa_Term args)
          | None => true
          end
      | _ => true
      end
  | _ => true
  end.

Inductive reach_fresh (n : nat) : Cluster → list event → Prop :=
| reach_fresh_start : reach_fresh n (start_cluster n) []
| reach_fresh_step cl tr act cl' ev :
    reach_fresh n cl tr → do_action cl act = Some (cl', ev) → small cl' = true → fresh cl act = true →
    reach_fresh n cl' (tr ++ ev).

Lemma reach_fresh_small n cl tr : reach_fresh n cl tr → reach_small n cl tr.
Proof. induction 1; [constructor|by eapply reach_small_step]. Qed.

(** What node [a] gave to its store, in order. *)
Definition applied (tr : list event) (a : nat) : list LogEntry :=
  concat (omap (λ e, match e with EvApply b es => if (a =? b)%nat then Some es else None | _ => None end) tr).

Lemma applied_app tr ev a : applied (tr ++ ev) a = applied tr a ++ applied ev a.
Proof. unfold applied. by rewrite omap_app, concat_app. Qed.

(** ** The invariant *)

(** A call sent by the leader of its term from its log [Ls]. *)
Record sent (n : nat) (G : Ghost) (args : AppendEntriesArgs) (Ls : list LogEntry) : Prop := {
  se_log : Ls `prefix_of` g_log G (aa_Term args);
  se_win : ∃ Lw, (aa_Term args, Lw) ∈ g_wins G ∧ Lw `prefix_of` Ls;
  se_known : g_known G Ls;
  se_prev : 0 <= aa_PrevLogIndex args ∧ aa_PrevLogIndex args + len (aa_Entries args) < 2 ^ 31;
  se_part : (∃ e m, Ls !! Z.to_nat (aa_PrevLogIndex args) = Some e ∧ le_Term e = aa_PrevLogTerm args ∧
               aa_Entries args = take m (drop (S (Z.to_nat (aa_PrevLogIndex args))) Ls)) ∨
            (len Ls <= aa_PrevLogIndex args ∧ aa_PrevLogTerm args = 0 ∧ aa_Entries args = []);
  se_commit : 0 <= aa_LeaderCommit args < len Ls ∧
    committed n G (aa_Term args) (take (S (Z.to_nat (aa_LeaderCommit args))) Ls)
}.

(** Node [s] holds the leader's log of term [T] up to index [m]. *)
Definition acked (G : Ghost) (s : nat) (T : Z) (m : Z) : Prop :=
  ∀ L, ends T L → L `prefix_of` g_log G T → len L <= m + 1 → g_ack G s T L.

Definition task_safe (n : nat) (G : Ghost) (els : list Election) (tr : list event) (t : Task) : Prop :=
  match t with
  | SendHeartBeats a => (a < n)%nat
  | AppendCall _ s args => (s < n)%nat ∧ ∃ Ls, sent n G args Ls
  | AppendBack a s args reply =>
      EvLeader a (aa_Term args) ∈ tr ∧ s ≠ a ∧ ar_ConflictIndex reply < 2 ^ 31 ∧
      (ar_Success reply = true →
         0 <= aa_PrevLogIndex args + len (aa_Entries args) < len (g_log G (aa_Term args)) ∧
         acked G s (aa_Term args) (aa_PrevLogIndex args + len (aa_Entries args)))
  | VoteCall e _ args =>
      ∃ el x, els !! e = Some el ∧ g_known G (g_cand G (el_cand el) (el_term el)) ∧
        last (g_cand G (el_cand el) (el_term el)) = Some x ∧ va_LastLogTerm args = le_Term x ∧
        va_LastLogIndex args = len (g_cand G (el_cand el) (el_term el)) - 1
  | _ => True
  end.

(** The last index a node has committed or applied. *)
Definition fixed (rf : Raft) : Z := Z.max (rf_commitIndex rf) (rf_lastApplied rf).

Record node_safe (n : nat) (G : Ghost) (tr : list event) (a : nat) (rf : Raft) : Prop := {
  ns_known : g_known G (rf_log rf);
  ns_terms i e : rf_log rf !! i = Some e → le_Term e <= rf_currentTerm rf;
  ns_ack L : ends (rf_currentTerm rf) L → L `prefix_of` rf_log rf → g_ack G a (rf_currentTerm rf) L;
  ns_cand : rf_state rf = Candidate → rf_log rf = g_cand G a (rf_currentTerm rf);
  ns_lead : rf_state rf = Leader → rf_log rf = g_log G (rf_currentTerm rf);
  ns_match s : rf_state rf = Leader → (s < n)%nat → s ≠ a →
    0 <= map_get (rf_matchIndex rf) (Z.of_nat s) < len (rf_log rf) ∧
    acked G s (rf_currentTerm rf) (map_get (rf_matchIndex rf) (Z.of_nat s));
  ns_bounds : 0 <= rf_commitIndex rf < len (rf_log rf) ∧ 0 <= rf_lastApplied rf < len (rf_log rf);
  ns_commit : committed n G (rf_currentTerm rf) (take (S (Z.to_nat (fixed rf))) (rf_log rf));
  ns_next s : map_get (rf_nextIndex rf) s <= 2 ^ 31;
  ns_applied : applied tr a = take (Z.to_nat (rf_lastApplied rf)) (drop 1 (rf_log rf))
}.

Record safe (n : nat) (G : Ghost) (cl : Cluster) (tr : list event) : Prop := {
  sf_nodes a rf : cl_nodes cl !! a = Some rf → node_safe n G tr a rf;
  sf_elections e el : cl_elections cl !! e = Some el → in_term (cl_nodes cl) (el_cand el) (el_term el) (λ _, True);
  sf_tasks k t : cl_tasks cl !! k = Some (Some t) → task_safe n G (cl_elections cl) tr t
}.

(** ** Growing histories *)

Record ghost_le (G G' : Ghost) : Prop := {
  gl_ack v T L : g_ack G v T L → g_ack G' v T L;
  gl_wins : g_wins G `prefix_of` g_wins G';
  gl_log T Lw : (T, Lw) ∈ g_wins G → g_log G T `prefix_of` g_log G' T;
  gl_known L : g_known G L → g_known G' L
}.

Lemma chosen_mono n G G' T L : ghost_le G G' → chosen n G T L → chosen n G' T L.
Proof. intros Hle [He Hq]. split; [done|]. eapply quorum_impl; [|done]. intros v. apply Hle. Qed.

Lemma committed_mono n G G' t t' P : ghost_le G G' → t <= t' → committed n G t P → committed n G' t' P.
Proof.
  intros Hle Ht [HP|(T & L & HT & HP & Hc)]; [by left|right]. exists T, L. split_and!; [lia|done|by eapply chosen_mono].
Qed.

Lemma committed_prefix n G t P P' : P' `prefix_of` P → committed n G t P → committed n G t P'.
Proof. intros HP [H|(T & L & H1 & H2 & H3)]; [left; by trans P|right]. exists T, L. split_and!; [done|by trans P|done]. Qed.

Lemma wins_mono G G' T Lw : ghost_le G G' → (T, Lw) ∈ g_wins G → (T, Lw) ∈ g_wins G'.
Proof. intros [_ [r ->] _ _] H. apply elem_of_app. by left. Qed.

Lemma sent_mono n G G' args Ls : ghost_le G G' → sent n G args Ls → sent n G' args Ls.
Proof.
  intros Hle []. destruct se_win0 as (Lw & Hw & Hp). split; try done.
  - trans (g_log G (aa_Term args)); [done|by eapply gl_log].
  - exists Lw. split; [by eapply wins_mono|done].
  - by apply (gl_known _ _ Hle).
  - destruct se_commit0 as [? ?]. split; [done|]. by eapply committed_mono.
Qed.

Lemma acked_mono G G' s T m Lw :
  ghost_le G G' → (T, Lw) ∈ g_wins G → m < len (g_log G T) → acked G s T m → acked G' s T m.
Proof.
  intros Hle Hw Hm Ha L He HL Hlen. apply (gl_ack _ _ Hle), Ha; [done| |done].
  destruct (prefix_weak_total L (g_log G T) _ HL (gl_log _ _ Hle T Lw Hw)) as [|Hp]; [done|].
  rewrite (prefix_length_eq _ _ Hp); [done|]. unfold len in *. lia.
Qed.

Lemma task_safe_mono n H G G' nodes els els' tr ev t :
  ghost_le G G' → history n H G nodes tr →
  (∀ e el, els !! e = Some el → ∃ el', els' !! e = Some el' ∧ el_cand el' = el_cand el ∧ el_term el' = el_term el ∧
     g_cand G' (el_cand el) (el_term el) = g_cand G (el_cand el) (el_term el)) →
  task_safe n G els tr t → task_safe n G' els' (tr ++ ev) t.
Proof.
  intros Hle Hh Hels. destruct t; simpl; try done.
  - intros [Hsn [Ls Hs]]. split; [done|]. exists Ls. by eapply sent_mono.
  - intros (H1 & H2 & H3 & H4). split; [apply elem_of_app; by left|]. split; [done|]. split; [done|].
    intros Hs. destruct (H4 Hs) as [H5 H6]. destruct (hs_event _ _ _ _ _ Hh _ _ H1) as [Lw Hw].
    pose proof (prefix_length _ _ (gl_log _ _ Hle _ _ Hw)).
    split; [unfold len in *; lia|]. eapply acked_mono; [done|done|lia|done].
  - intros (el & x & H1 & H2 & H3 & H4 & H5). destruct (Hels e el H1) as (el' & E1 & E2 & E3 & E4).
    exists el', x. rewrite E2, E3, E4. split_and!; [done|by apply (gl_known _ _ Hle)|done..].
Qed.

(** ** Steps of one node *)

Lemma ghost_le_refl G : ghost_le G G.
Proof. by split. Qed.

Lemma observe_le G a rf : ghost_le G (observe G a rf).
Proof. split; simpl; auto. Qed.

(** Another node's step. *)
Lemma node_safe_mono n H G G' nodes tr tr' b rf :
  ghost_le G G' → history n H G nodes tr → node_safe n G tr b rf →
  (rf_state rf = Candidate → g_cand G' b (rf_currentTerm rf) = g_cand G b (rf_currentTerm rf)) →
  (rf_state rf = Leader → g_log G' (rf_currentTerm rf) = g_log G (rf_currentTerm rf)) →
  applied tr' b = applied tr b → node_safe n G' tr' b rf.
Proof.
  intros Hle Hh [] Hc Hl Ha. split; try done.
  - by apply (gl_known _ _ Hle).
  - intros L He HL. by apply (gl_ack _ _ Hle), ns_ack0.
  - intros Hs. rewrite Hc by done. auto.
  - intros Hs. rewrite Hl by done. auto.
  - intros s Hs Hsn Hsb. destruct (ns_match0 s Hs Hsn Hsb) as [H1 H2]. split; [done|].
    intros L He HL Hlen. apply (gl_ack _ _ Hle), H2; [done| |done]. by rewrite <-Hl.
  - eapply committed_mono; [done| |done]. lia.
  - by rewrite Ha.
Qed.

(** A node that keeps its log and what it committed. *)
Lemma node_safe_keep n G tr a rf rf' :
  node_safe n G tr a rf → rf_currentTerm rf <= rf_currentTerm rf' → rf_log rf' = rf_log rf →
  rf_commitIndex rf' = rf_commitIndex rf → rf_lastApplied rf' = rf_lastApplied rf →
  (∀ s, map_get (rf_nextIndex rf') s <= 2 ^ 31) →
  (rf_state rf' = Candidate → rf_log rf = g_cand G a (rf_currentTerm rf')) →
  (rf_state rf' = Leader → rf_state rf = Leader ∧ rf_currentTerm rf' = rf_currentTerm rf ∧
     rf_matchIndex rf' = rf_matchIndex rf) →
  node_safe n G tr a rf'.
Proof.
  intros [] Ht El Ec Ea Hn Hcand Hlead. split; try done; unfold fixed; rewrite ?El, ?Ec, ?Ea; try done.
  - intros i e He. specialize (ns_terms0 i e He). lia.
  - intros L He HL. destruct (ends_entry _ _ _ He HL) as (e & Hi & Hte & _). specialize (ns_terms0 _ _ Hi).
    assert (rf_currentTerm rf' = rf_currentTerm rf) as Heq by lia. rewrite Heq in *. by apply ns_ack0.
  - intros Hs. destruct (Hlead Hs) as (H1 & -> & _). auto.
  - intros s Hs. destruct (Hlead Hs) as (H1 & -> & ->). auto.
  - eapply committed_mono; [apply ghost_le_refl|done|done].
Qed.

(** A step of node [a]. *)
Lemma safe_step n H G G' cl cl' tr ev a rf rf' :
  history n H G (cl_nodes cl) tr → safe n G cl tr → cl_nodes cl !! a = Some rf →
  cl_nodes cl' = <[a := rf']> (cl_nodes cl) → ghost_le G G' →
  (∀ b x, b ≠ a → cl_nodes cl !! b = Some x →
     (rf_state x = Candidate → g_cand G' b (rf_currentTerm x) = g_cand G b (rf_currentTerm x)) ∧
     (rf_state x = Leader → g_log G' (rf_currentTerm x) = g_log G (rf_currentTerm x)) ∧
     applied ev b = []) →
  node_safe n G' (tr ++ ev) a rf' →
  (∀ e el, cl_elections cl' !! e = Some el → in_term (cl_nodes cl') (el_cand el) (el_term el) (λ _, True)) →
  (∀ e el, cl_elections cl !! e = Some el → ∃ el', cl_elections cl' !! e = Some el' ∧ el_cand el' = el_cand el ∧
     el_term el' = el_term el ∧ g_cand G' (el_cand el) (el_term el) = g_cand G (el_cand el) (el_term el)) →
  (∀ k t, cl_tasks cl' !! k = Some (Some t) →
     cl_tasks cl !! k = Some (Some t) ∨ task_safe n G' (cl_elections cl') (tr ++ ev) t) →
  safe n G' cl' (tr ++ ev).
Proof.
  intros Hh S Ha Hn Hle Hother Hnode Hel Hels Ht. split; [|done|].
  - intros b x. rewrite Hn. destruct (decide (a = b)) as [<-|Hne].
    + rewrite list_lookup_insert_eq by (by eapply lookup_lt_Some). by intros [= <-].
    + rewrite list_lookup_insert_ne by done. intros Hx. destruct (Hother b x) as (H1 & H2 & H3); [done|done|].
      eapply node_safe_mono; [done|done|by apply (sf_nodes _ _ _ _ S)|done|done|].
      by rewrite applied_app, H3, app_nil_r.
  - intros k t Hk. destruct (Ht k t Hk) as [Hk'|]; [|done].
    eapply task_safe_mono; [done|done|done|]. by eapply (sf_tasks _ _ _ _ S).
Qed.

(** The common case: the history only gains what the node now holds. *)
Lemma safe_observe n H G cl cl' tr ev a rf rf' :
  history n H G (cl_nodes cl) tr → safe n G cl tr → cl_nodes cl !! a = Some rf →
  cl_nodes cl' = <[a := rf']> (cl_nodes cl) → cl_elections cl' = cl_elections cl →
  rf_currentTerm rf <= rf_currentTerm rf' → (∀ b, b ≠ a → applied ev b = []) →
  node_safe n (observe G a rf') (tr ++ ev) a rf' →
  (∀ k t, cl_tasks cl' !! k = Some (Some t) →
     cl_tasks cl !! k = Some (Some t) ∨ task_safe n (observe G a rf') (cl_elections cl) (tr ++ ev) t) →
  safe n (observe G a rf') cl' (tr ++ ev).
Proof.
  intros Hh S Ha Hn Hel Ht Happ Hnode Htasks.
  eapply (safe_step n H G _ cl cl'); [done|done|done|done|apply observe_le|by auto|done|..]; rewrite Hel.
  - intros e el He. rewrite Hn. eapply in_term_insert; [done|done|auto..|]. by eapply (sf_elections _ _ _ _ S).
  - intros e el He. by exists el.
  - done.
Qed.

(** No node changes. *)
Lemma safe_idle n H G cl cl' tr :
  history n H G (cl_nodes cl) tr → safe n G cl tr → cl_nodes cl' = cl_nodes cl → cl_elections cl' = cl_elections cl →
  (∀ k t, cl_tasks cl' !! k = Some (Some t) →
     cl_tasks cl !! k = Some (Some t) ∨ task_safe n G (cl_elections cl) tr t) →
  safe n G cl' (tr ++ []).
Proof.
  intros Hh S Hn Hel Ht. rewrite app_nil_r. split; rewrite ?Hn, ?Hel; try apply S.
  intros k t Hk. destruct (Ht k t Hk) as [Hk'|]; [by eapply (sf_tasks _ _ _ _ S)|done].
Qed.

(** A node that keeps its log is still in order after it is observed. *)
Lemma keep_observe n H G nodes tr a rf rf' :
  logs_ok H tr → history n H G nodes tr → g_known G (rf_log rf) → nodes !! a = Some rf →
  rf_currentTerm rf <= rf_currentTerm rf' → rf_log rf' = rf_log rf →
  history n H (observe G a rf') (<[a := rf']> nodes) tr.
Proof.
  intros O Hh Hk Ha Ht El. eapply history_node; [done|done|done|done|..]; rewrite El.
  - intros T L _ _ HL _. by left.
  - by apply (hs_known _ _ _ _ _ Hh).
  - intros i e He Hi. by eapply (hs_entry _ _ _ _ _ Hh).
Qed.

(** ** Sending *)

Lemma append_args_sent n H G cl tr a rf s args :
  log_inv n H cl tr → history n H G (cl_nodes cl) tr → safe n G cl tr → cl_nodes cl !! a = Some rf →
  (s < n)%nat → append_args rf (rf_currentTerm rf) (Z.of_nat s) = Ok (Some args) → sent n G args (rf_log rf).
Proof.
  intros I Hh SF Ha Hs. pose proof (li_nodes _ _ _ _ I a rf Ha) as Hok. pose proof (sf_nodes _ _ _ _ SF a rf Ha) as Hns.
  unfold append_args. destruct (bool_decide_reflect (rf_state rf = Leader)) as [Hl|]; [|done]. cbn [negb]. cbv zeta.
  pose proof (no_next _ _ _ _ _ Hok (Z.of_nat s) Hl ltac:(lia)) as Hx1. pose proof (ns_next _ _ _ _ _ Hns (Z.of_nat s)) as Hx2.
  set (x := map_get _ _) in *. rewrite (proj2 (Z.ltb_ge (x - 1) 0)) by lia.
  destruct (li_ok _ _ _ _ I _ (no_log _ _ _ _ _ Hok)) as (H0 & Hlen & _).
  destruct (hs_event _ _ _ _ _ Hh a _ (no_event _ _ _ _ _ Hok Hl)) as [Lw Hw].
  destruct (hs_win _ _ _ _ _ Hh _ _ Hw) as (_ & Hwp & _). rewrite <-(ns_lead _ _ _ _ _ Hns Hl) in Hwp.
  assert (∀ args', aa_Term args' = rf_currentTerm rf → aa_LeaderCommit args' = rf_commitIndex rf →
    0 <= aa_PrevLogIndex args' ∧ aa_PrevLogIndex args' + len (aa_Entries args') < 2 ^ 31 →
    (∃ e m, rf_log rf !! Z.to_nat (aa_PrevLogIndex args') = Some e ∧ le_Term e = aa_PrevLogTerm args' ∧
       aa_Entries args' = take m (drop (S (Z.to_nat (aa_PrevLogIndex args'))) (rf_log rf))) ∨
    (len (rf_log rf) <= aa_PrevLogIndex args' ∧ aa_PrevLogTerm args' = 0 ∧ aa_Entries args' = []) →
    sent n G args' (rf_log rf)) as Hsent.
  { intros args' Et Ec Hp Hpart. split; rewrite ?Et, ?Ec.
    - by rewrite (ns_lead _ _ _ _ _ Hns Hl).
    - by exists Lw.
    - apply Hns.
    - done.
    - done.
    - destruct (ns_bounds _ _ _ _ _ Hns) as [Hb _]. split; [done|].
      eapply committed_prefix; [|apply Hns]. apply take_prefix_le. unfold fixed. lia. }
  destruct (Z.ltb_spec x (len (rf_log rf))) as [Hlt|Hge].
  - set (endIdx := if len (rf_log rf) <? x + 100 then _ else _).
    assert (x <= endIdx <= len (rf_log rf)) as He by (unfold endIdx; destruct (Z.ltb_spec (len (rf_log rf)) (x + 100)); lia).
    rewrite slice_ok by lia. cbn [mbind outcome_bind].
    rewrite (proj2 (Z.ltb_lt (x - 1) (len (rf_log rf)))) by lia.
    destruct (lookup_lt_is_Some_2 (rf_log rf) (Z.to_nat (x - 1))) as [e Hpe]; [unfold len in *; lia|].
    rewrite (proj2 (index_lookup (rf_log rf) (x - 1) e ltac:(lia)) Hpe). cbn [mbind outcome_bind].
    intros [= <-]. apply Hsent; [done|done|simpl; rewrite len_take, len_drop; lia|]. left. exists e. eexists.
    split; [done|]. split; [done|]. simpl. f_equal. f_equal. lia.
  - cbn [mbind outcome_bind]. destruct (Z.ltb_spec (x - 1) (len (rf_log rf))) as [Hlt|Hge'].
    + destruct (lookup_lt_is_Some_2 (rf_log rf) (Z.to_nat (x - 1))) as [e Hpe]; [unfold len in *; lia|].
      rewrite (proj2 (index_lookup (rf_log rf) (x - 1) e ltac:(lia)) Hpe). cbn [mbind outcome_bind].
      intros [= <-]. apply Hsent; [done|done|unfold len; cbn [aa_PrevLogIndex aa_Entries length]; lia|]. left. by exists e, 0%nat.
    + cbn [mbind outcome_bind]. intros [= <-]. apply Hsent; [done|done|unfold len; cbn [aa_PrevLogIndex aa_Entries length]; lia|]. right. split; [done|]. done.
Qed.

(** ** Receiving *)

(** Merging part of a log keeps every prefix that does not contradict it. *)
Lemma merge_keeps log p m log' L Ls :
  0 <= p < len log → merge_entries log (p + 1) (take m (drop (S (Z.to_nat p)) Ls)) = Ok log' →
  L `prefix_of` log → agree L Ls → L `prefix_of` log'.
Proof.
  intros Hp Hm HL Hag. set (es := take m (drop (S (Z.to_nat p)) Ls)) in *.
  destruct (merge_entries_spec log (p + 1) es ltac:(lia)) as (l & k & Hm' & Hk & _ & Hr).
  assert (l = log') as -> by congruence. destruct Hr as [[_ ->]|(Hk' & -> & Hle & Hne)]; [done|].
  destruct (lookup_lt_is_Some_2 es k ltac:(lia)) as [x Hx].
  assert (Ls !! (Z.to_nat (p + 1) + k)%nat = Some x) as HLs.
  { unfold es in Hx. apply lookup_take_Some in Hx as [Hx _]. rewrite lookup_drop in Hx. rewrite <-Hx. f_equal. lia. }
  apply prefix_app_r. destruct (decide (length L <= Z.to_nat (p + 1) + k)%nat) as [|Hlt]; [by apply prefix_of_take|].
  destruct (lookup_lt_is_Some_2 L (Z.to_nat (p + 1) + k)) as [y Hy]; [lia|].
  exfalso. apply (Hne x y Hx); [by eapply prefix_lookup_Some|]. by rewrite (agree_lookup L Ls _ y x Hag Hy HLs).
Qed.

(** The rest of the follower's state. *)
Lemma AppendEntries_frame rf args now rf' r :
  AppendEntries rf args now = Ok (rf', r) →
  rf_lastApplied rf' = rf_lastApplied rf ∧ rf_nextIndex rf' = rf_nextIndex rf ∧
  (ar_Success r = false → rf_log rf' = rf_log rf ∧ rf_commitIndex rf' = rf_commitIndex rf).
Proof.
  unfold AppendEntries. destruct (_ <? rf_currentTerm rf); [by intros [= <- <-]|]. cbv zeta.
  destruct (_ <? aa_PrevLogIndex args); [by intros [= <- <-]|].
  destruct (index _ _); cbn [mbind outcome_bind]; [|done..].
  destruct (negb _); [by intros [= <- <-]|].
  destruct (merge_entries _ _ _) as [l|?|]; cbn [mbind outcome_bind]; [|done..].
  rewrite persist_if. cbn [mbind outcome_bind]. unfold persisted. intros Hr.
  destruct (0 <? len (aa_Entries args)); cbn [rf_log set_log] in Hr;
    try destruct (0 <? len l); destruct (_ <? aa_LeaderCommit args);
    try destruct (aa_LeaderCommit args <? _); by injection Hr as <- <-.
Qed.

(** The messages carry what was sent. *)
Lemma sent_wire n H G tr args Ls :
  logs_ok H tr → (∀ L, g_known G L → H L) → sent n G args Ls → 1 <= aa_Term args < 2 ^ 31 →
  aa_Term (wire_append args) = aa_Term args ∧ aa_PrevLogIndex (wire_append args) = aa_PrevLogIndex args ∧
  aa_PrevLogTerm (wire_append args) = aa_PrevLogTerm args ∧ aa_Entries (wire_append args) = aa_Entries args ∧
  aa_LeaderCommit (wire_append args) = aa_LeaderCommit args.
Proof.
  intros O Hk [] Ht. destruct (lo_ok _ _ O Ls (Hk _ se_known0)) as (_ & Hlen & Hok). pose proof (len_nonneg (aa_Entries args)).
  assert (is_s32 (aa_PrevLogTerm args)) as Hpt.
  { destruct se_part0 as [(e & m & He & <- & _)|(_ & -> & _)]; [|done]. destruct (Hok _ _ He) as (_ & H2 & _). unfold is_s32. lia. }
  split; [simpl; apply s32_id; unfold is_s32; lia|]. split; [simpl; apply s32_id; unfold is_s32; lia|].
  split; [simpl; by apply s32_id|]. split; [|simpl; apply s32_id; unfold is_s32; lia].
  cbn [wire_append aa_Entries]. destruct se_part0 as [(e & m & _ & _ & Hes)|(_ & _ & ->)]; [|done].
  rewrite <-(map_id (aa_Entries args)) at 2. apply map_ext_in. intros x Hx%list_elem_of_In.
  rewrite Hes in Hx. apply list_elem_of_lookup_1 in Hx as [j Hj].
  apply lookup_take_Some in Hj as [Hj _]. rewrite lookup_drop in Hj.
  destruct (Hok _ _ Hj) as (Hi & Htx & _). pose proof (len_gt_lookup _ _ _ Hj).
  unfold raft_entry, pb_entry. simpl. rewrite !s32_id by (unfold is_s32; lia). by destruct x.
Qed.

(** What accepting a call does to the follower's log. *)
Lemma follower_facts H rf args Ls now rf' r n G tr :
  logs_ok H tr → (∀ L, g_known G L → H L) → g_known G (rf_log rf) → H (rf_log rf') → sent n G args Ls →
  AppendEntries rf args now = Ok (rf', r) → ar_Success r = true →
  let q := aa_PrevLogIndex args + len (aa_Entries args) in
  0 <= q < len Ls ∧ take (S (Z.to_nat q)) (rf_log rf') = take (S (Z.to_nat q)) Ls ∧
  (∀ L, L `prefix_of` rf_log rf → agree L Ls → L `prefix_of` rf_log rf') ∧
  (∀ i e, rf_log rf' !! i = Some e → rf_log rf !! i = Some e ∨ Ls !! i = Some e).
Proof.
  intros O Hk Hrf Hrf' [] Ha Hs. set (p := aa_PrevLogIndex args) in *. cbv zeta.
  destruct (AppendEntries_success _ _ _ _ _ Ha Hs) as (Hp & (e & He & Hte) & Hm & _). fold p in Hp, He, Hm.
  pose proof (Hk _ Hrf) as HHrf. pose proof (Hk _ se_known0) as HHs.
  destruct (lo_ok _ _ O _ HHs) as (H0s & _ & _). pose proof (len_gt_lookup _ _ _ H0s) as Hlens.
  destruct (lo_ok _ _ O _ HHrf) as (_ & _ & Hok).
  destruct se_part0 as [(e' & m & He' & Hte' & Hes)|(Hge & Hz & _)].
  2: { exfalso. destruct (Hok _ _ He) as (_ & _ & Hpos). lia. }
  rewrite Hes in Hm. set (es := take m _) in *.
  assert (∀ j x, es !! j = Some x → Ls !! (S (Z.to_nat p) + j)%nat = Some x) as Hlk.
  { intros j x Hj. unfold es in Hj. apply lookup_take_Some in Hj as [Hj _]. by rewrite lookup_drop in Hj. }
  assert (take (S (Z.to_nat p)) (rf_log rf') = take (S (Z.to_nat p)) Ls) as Hp0.
  { pose proof (lo_match _ _ O _ _ _ _ _ HHrf HHs He He' ltac:(congruence)) as Heq.
    assert (take (S (Z.to_nat p)) (rf_log rf) `prefix_of` rf_log rf') as Hpre.
    { eapply merge_keeps; [done|exact Hm|apply prefix_take|]. left. rewrite Heq. apply prefix_take. }
    apply (prefix_take_same (take (S (Z.to_nat p)) (rf_log rf))); [done|rewrite Heq; apply prefix_take|].
    rewrite length_take. unfold len in Hp. lia. }
  assert (0 <= p + len es < len Ls ∧ take (S (Z.to_nat (p + len es))) (rf_log rf') = take (S (Z.to_nat (p + len es))) Ls) as [Hq1 Hq2].
  { destruct (decide (length es = 0)%nat) as [Hl|Hl].
    { assert (len es = 0) as -> by (unfold len; lia). rewrite Z.add_0_r. pose proof (len_gt_lookup _ _ _ He').
      split; [lia|done]. }
    destruct (lookup_lt_is_Some_2 es (length es - 1)) as [x Hx]; [lia|].
    destruct (merge_entries_covers (rf_log rf) (p + 1) es (rf_log rf') _ x ltac:(lia) Hm Hx) as (x' & Hx' & Htx).
    pose proof (Hlk _ _ Hx) as HLx.
    replace (Z.to_nat (p + 1) + (length es - 1))%nat with (Z.to_nat (p + len es)) in Hx' by (unfold len; lia).
    replace (S (Z.to_nat p) + (length es - 1))%nat with (Z.to_nat (p + len es)) in HLx by (unfold len; lia).
    pose proof (len_gt_lookup _ _ _ HLx). pose proof (len_nonneg es). split; [lia|]. exact (lo_match _ _ O _ _ _ _ _ Hrf' HHs Hx' HLx Htx). }
  rewrite Hes. split; [done|]. split; [done|]. split.
  - intros L HL Hag. exact (merge_keeps _ p m _ L Ls Hp Hm HL Hag).
  - intros i x Hx. destruct (merge_entries_spec (rf_log rf) (p + 1) es ltac:(lia)) as (l & k & Hm' & Hk' & _ & Hr).
    assert (l = rf_log rf') as -> by congruence. destruct Hr as [[_ Heq]|(_ & Heq & Hle & _)]; rewrite Heq in Hx; [by left|].
    apply lookup_app_Some in Hx as [Hx|[Hi Hx]]; [left|right].
    + by apply lookup_take_Some in Hx as [Hx _].
    + rewrite lookup_drop in Hx. apply Hlk in Hx. rewrite <-Hx. f_equal. rewrite length_take in Hi |- *. lia.
Qed.

(** ** Steps of the cluster *)

Definition applies_nothing (ev : list event) : Prop := ∀ b, applied ev b = [].

(** A node changes, but keeps its log and what it committed. *)
Lemma keep_step n H G cl cl' tr ev a rf rf' :
  logs_ok H tr → history n H G (cl_nodes cl) tr → safe n G cl tr → cl_nodes cl !! a = Some rf →
  cl_nodes cl' = <[a := rf']> (cl_nodes cl) → cl_elections cl' = cl_elections cl → applies_nothing ev →
  rf_currentTerm rf <= rf_currentTerm rf' → rf_log rf' = rf_log rf →
  rf_commitIndex rf' = rf_commitIndex rf → rf_lastApplied rf' = rf_lastApplied rf →
  (∀ s, map_get (rf_nextIndex rf') s <= 2 ^ 31) →
  (rf_state rf' = Candidate → rf_state rf = Candidate ∧ rf_currentTerm rf' = rf_currentTerm rf) →
  (rf_state rf' = Leader → rf_state rf = Leader ∧ rf_currentTerm rf' = rf_currentTerm rf ∧
     rf_matchIndex rf' = rf_matchIndex rf) →
  (∀ k t, cl_tasks cl' !! k = Some (Some t) →
     cl_tasks cl !! k = Some (Some t) ∨ task_safe n (observe G a rf') (cl_elections cl) (tr ++ ev) t) →
  history n H (observe G a rf') (cl_nodes cl') tr ∧ safe n (observe G a rf') cl' (tr ++ ev).
Proof.
  intros O Hh SF Ha Hn Hel Hev Ht El Ec Eap Hnext Hcand Hlead Htasks. pose proof (sf_nodes _ _ _ _ SF a rf Ha) as Hns.
  split; [rewrite Hn; eapply keep_observe; try done; apply Hns|].
  eapply safe_observe; [done|done|done|done|done|done|by auto| |done].
  eapply node_safe_keep; [|done|done|done|done|done| |done].
  - eapply (node_safe_mono n H G); [apply observe_le|done|done|done|done|]. by rewrite applied_app, Hev, app_nil_r.
  - intros Hc. destruct (Hcand Hc) as [Hc1 ->]. by apply (ns_cand _ _ _ _ _ Hns).
Qed.

(** What was committed by the term of a call does not contradict the call. *)
Lemma committed_sent n H G nodes tr t P args Ls :
  logs_ok H tr → history n H G nodes tr → sent n G args Ls → committed n G t P → t <= aa_Term args → agree P Ls.
Proof.
  intros O Hh [] [HP|(T & L & HT & HP & Hc)] Ht; [by eapply agree_sentinel|].
  destruct se_win0 as (Lw & Hw & _). eapply agree_prefix_l; [done|].
  eapply prefix_weak_total; [|done]. eapply chosen_in_log; [done|done|done|lia].
Qed.

(** Nor does what the node held in an earlier term, unless it is lost. *)
Lemma acks_sent n G T L args Ls :
  sent n G args Ls → L `prefix_of` g_log G T → T <= aa_Term args → agree L Ls ∨ lost (g_wins G) T L.
Proof.
  intros [] HL HT. destruct (decide (T = aa_Term args)) as [->|Hne]; [left; by eapply prefix_weak_total|].
  destruct se_win0 as (Lw & Hw & Hp). destruct (decide (L `prefix_of` Lw)) as [HLw|HLw].
  - left. left. by trans Lw.
  - right. exists (aa_Term args), Lw. split_and!; [done|lia|done].
Qed.

Section follower.
Context (n : nat) (H : list LogEntry → Prop) (G : Ghost) (cl cl' : Cluster) (tr : list event).
Context (s : nat) (args : AppendEntriesArgs) (Ls : list LogEntry) (rf rf' : Raft) (now : Z) (r : AppendEntriesReply).
Hypothesis O : logs_ok H tr.
Hypothesis Hh : history n H G (cl_nodes cl) tr.
Hypothesis SF : safe n G cl tr.
Hypothesis Hs : cl_nodes cl !! s = Some rf.
Hypothesis Hsent : sent n G args Ls.
Hypothesis Ha : AppendEntries rf args now = Ok (rf', r).
Hypothesis HL' : H (rf_log rf').
Hypothesis Hok : ar_Success r = true.

Let Hns := sf_nodes _ _ _ _ SF s rf Hs.

Lemma accept_term :
  rf_currentTerm rf <= aa_Term args ∧ rf_currentTerm rf' = aa_Term args ∧ rf_state rf' = Follower.
Proof.
  pose proof (AppendEntries_spec _ _ _ _ _ Ha) as (_ & _ & _ & Hsp).
  destruct (Z.ltb_spec (aa_Term args) (rf_currentTerm rf)); [destruct Hsp; congruence|].
  by destruct Hsp as (? & ? & _).
Qed.

Lemma accept_facts :
  let q := aa_PrevLogIndex args + len (aa_Entries args) in
  0 <= q < len Ls ∧ take (S (Z.to_nat q)) (rf_log rf') = take (S (Z.to_nat q)) Ls ∧
  (∀ L, L `prefix_of` rf_log rf → agree L Ls → L `prefix_of` rf_log rf') ∧
  (∀ i e, rf_log rf' !! i = Some e → rf_log rf !! i = Some e ∨ Ls !! i = Some e).
Proof.
  eapply (follower_facts H rf args Ls now rf' r n G tr); try done; [apply Hh|apply Hns].
Qed.

Lemma accept_history : history n H (observe G s rf') (<[s := rf']> (cl_nodes cl)) tr.
Proof.
  destruct accept_term as (T1 & T2 & _). destruct accept_facts as (_ & _ & F3 & F4).
  eapply history_node; [done|done|done|lia| |done|].
  - intros T L Hack HT HL HLT. destruct (acks_sent n G T L args Ls) as [?|?]; [done|done|lia|left; auto|by right].
  - intros i e He Hi. destruct (F4 i e He); (eapply (hs_entry _ _ _ _ _ Hh); [|done|done]); [apply Hns|apply Hsent].
Qed.

(** What the follower had committed stays, and what it commits now was
    committed by the leader. *)
Lemma accept_commit :
  (0 <= rf_commitIndex rf' < len (rf_log rf') ∧ 0 <= rf_lastApplied rf' < len (rf_log rf')) ∧
  committed n G (rf_currentTerm rf') (take (S (Z.to_nat (fixed rf'))) (rf_log rf')) ∧
  take (S (Z.to_nat (fixed rf))) (rf_log rf') = take (S (Z.to_nat (fixed rf))) (rf_log rf).
Proof.
  destruct accept_term as (T1 & T2 & _). destruct accept_facts as (F1 & F2 & F3 & _).
  destruct (AppendEntries_success _ _ _ _ _ Ha Hok) as (_ & _ & _ & Hci).
  destruct (AppendEntries_frame _ _ _ _ _ Ha) as (Hla & _ & _).
  destruct (ns_bounds _ _ _ _ _ Hns) as [B1 B2]. set (q := aa_PrevLogIndex args + len (aa_Entries args)) in *.
  set (P := take (S (Z.to_nat (fixed rf))) (rf_log rf)).
  assert (P `prefix_of` rf_log rf') as HP.
  { apply F3; [apply prefix_take|]. eapply committed_sent; [done|done|done|apply Hns|done]. }
  assert (length P = S (Z.to_nat (fixed rf))) as HlP.
  { unfold P. rewrite length_take. unfold fixed, len in *. lia. }
  assert (take (S (Z.to_nat (fixed rf))) (rf_log rf') = P) as HPeq by (rewrite <-HlP; by apply prefix_take_length).
  pose proof (prefix_length _ _ HP) as Hle. rewrite HlP in Hle.
  assert (S (Z.to_nat q) <= length (rf_log rf'))%nat as Hq.
  { apply (f_equal length) in F2. rewrite !length_take in F2. unfold len in F1. lia. }
  destruct (se_commit _ _ _ _ Hsent) as [B3 Hc].
  assert (committed n G (rf_currentTerm rf') P) as HcP.
  { eapply committed_mono; [apply ghost_le_refl| |apply Hns]. lia. }
  split; [|split; [|done]].
  - rewrite Hla, Hci. unfold fixed, len in *. destruct (Z.ltb_spec (rf_commitIndex rf) (aa_LeaderCommit args)); lia.
  - destruct (Z_le_gt_dec (fixed rf') (fixed rf)) as [Hf|Hf].
    + eapply committed_prefix; [|done]. rewrite <-HPeq. apply take_prefix_le. lia.
    + assert (fixed rf' <= q ∧ fixed rf' <= aa_LeaderCommit args) as [Hf1 Hf2].
      { unfold fixed in *. rewrite Hci, Hla in *. destruct (Z.ltb_spec (rf_commitIndex rf) (aa_LeaderCommit args)); lia. }
      rewrite T2. eapply committed_prefix; [|done].
      rewrite (prefix_take_same (take (S (Z.to_nat q)) Ls) (rf_log rf') Ls);
        [apply take_prefix_le; lia|rewrite <-F2; apply prefix_take|apply prefix_take|].
      rewrite length_take. unfold len in F1. lia.
Qed.

Lemma accept_acked : acked (observe G s rf') s (aa_Term args) (aa_PrevLogIndex args + len (aa_Entries args)).
Proof.
  destruct accept_term as (_ & T2 & _). destruct accept_facts as (F1 & F2 & _).
  intros L He HL Hlen. right. split; [done|]. split; [done|]. split; [done|].
  set (q := aa_PrevLogIndex args + len (aa_Entries args)) in *.
  assert (L `prefix_of` take (S (Z.to_nat q)) Ls) as Hp.
  { apply prefix_of_take; [|unfold len in *; lia].
    destruct (prefix_weak_total L Ls _ HL (se_log _ _ _ _ Hsent)) as [|HLs]; [done|].
    rewrite (prefix_length_eq _ _ HLs); [done|]. unfold len in *. lia. }
  trans (take (S (Z.to_nat q)) Ls); [done|]. rewrite <-F2. apply prefix_take.
Qed.

Lemma accept_node ev : applies_nothing ev → node_safe n (observe G s rf') (tr ++ ev) s rf'.
Proof.
  intros Hev. destruct accept_term as (T1 & T2 & T3). destruct accept_facts as (F1 & F2 & F3 & F4).
  destruct accept_commit as (B & C1 & C2). destruct (AppendEntries_frame _ _ _ _ _ Ha) as (Hla & Hni & _).
  destruct (se_win _ _ _ _ Hsent) as (Lw & Hw & _).
  split; try congruence.
  - by right.
  - intros i e He. rewrite T2. destruct (F4 i e He) as [He'|He'].
    + pose proof (ns_terms _ _ _ _ _ Hns i e He'). lia.
    + eapply log_term_le; [done|done|]. eapply prefix_lookup_Some; [done|apply Hsent].
  - intros L He HL. right. by repeat split.
  - eapply committed_mono; [apply observe_le| |done]. lia.
  - intros i. rewrite Hni. apply Hns.
  - rewrite applied_app, Hev, app_nil_r, (ns_applied _ _ _ _ _ Hns), Hla.
    rewrite !take_drop_commute. f_equal.
    assert (S (Z.to_nat (rf_lastApplied rf)) <= S (Z.to_nat (fixed rf)))%nat as Hle by (unfold fixed; lia).
    replace (1 + Z.to_nat (rf_lastApplied rf))%nat with (S (Z.to_nat (rf_lastApplied rf))) by lia.
    apply (f_equal (take (S (Z.to_nat (rf_lastApplied rf))))) in C2. rewrite !take_take in C2.
    by rewrite !Nat.min_l in C2 by lia.
Qed.
End follower.

(** A call is handled at node [s]. *)
Lemma append_step n H G cl cl' tr ev k a s args rf now rf' r reply' :
  logs_ok H tr → history n H G (cl_nodes cl) tr → safe n G cl tr →
  (∀ a T, EvLeader a T ∈ tr → 1 <= T < 2 ^ 31) → EvLeader a (aa_Term args) ∈ tr → s ≠ a →
  cl_tasks cl !! k = Some (Some (AppendCall a s args)) → cl_nodes cl !! s = Some rf →
  AppendEntries rf (wire_append args) now = Ok (rf', r) → H (rf_log rf') →
  reply' = mkAppendReply (s32 (ar_Term r)) (ar_Success r) (s32 (ar_ConflictIndex r)) (s32 (ar_ConflictTerm r)) →
  cl_nodes cl' = <[s := rf']> (cl_nodes cl) → cl_elections cl' = cl_elections cl →
  cl_tasks cl' = <[k := Some (AppendBack a s args reply')]> (cl_tasks cl) → applies_nothing ev →
  history n H (observe G s rf') (cl_nodes cl') tr ∧ safe n (observe G s rf') cl' (tr ++ ev).
Proof.
  intros O Hh SF Hlt Hev Hsa Hk Hs Ha HL -> Hn Hel Hts Happ.
  destruct (sf_tasks _ _ _ _ SF k _ Hk) as (_ & Ls & Hsent). pose proof (sf_nodes _ _ _ _ SF s rf Hs) as Hns.
  destruct (sent_wire n H G tr args Ls O (hs_known _ _ _ _ _ Hh) Hsent (Hlt _ _ Hev)) as (W1 & W2 & W3 & W4 & W5).
  assert (sent n G (wire_append args) Ls) as Hsent' by (destruct Hsent; split; rewrite ?W1, ?W2, ?W3, ?W4, ?W5; done).
  assert (∀ j t, cl_tasks cl' !! j = Some (Some t) → cl_tasks cl !! j = Some (Some t) ∨
    t = AppendBack a s args (mkAppendReply (s32 (ar_Term r)) (ar_Success r) (s32 (ar_ConflictIndex r)) (s32 (ar_ConflictTerm r)))) as Htasks.
  { intros j t. rewrite Hts. intros [Hj|[= <-]]%set_task_lookup; [by left|by right]. }
  pose proof (s32_range (ar_ConflictIndex r)) as Hci. unfold is_s32 in Hci.
  destruct (ar_Success r) eqn:Hok.
  - split; [rewrite Hn; by eapply accept_history|].
    eapply safe_observe; [done|done|done|done|done| |by auto|by eapply accept_node|].
    + destruct (accept_term (wire_append args) rf rf' now r Ha Hok) as (T1 & T2 & _). lia.
    + intros j t Hj. destruct (Htasks j t Hj) as [?| ->]; [by left|right]. simpl.
      destruct (accept_facts n H G cl tr s (wire_append args) Ls rf rf' now r O Hh SF Hs Hsent' Ha HL Hok) as (F1 & _).
      pose proof (accept_acked n H G cl tr s (wire_append args) Ls rf rf' now r O Hh SF Hs Hsent' Ha HL Hok) as Hack.
      rewrite W1, W2, W4 in *.
      split; [apply elem_of_app; by left|]. split; [done|]. split; [lia|]. intros _. split; [|done].
      pose proof (prefix_length _ _ (se_log _ _ _ _ Hsent)). unfold len in *. lia.
  - destruct (AppendEntries_frame _ _ _ _ _ Ha) as (Hla & Hni & Hsame). destruct (Hsame Hok) as [El Ec].
    pose proof (AppendEntries_spec _ _ _ _ _ Ha) as (_ & _ & _ & Hsp).
    assert (rf' = rf ∨ (rf_currentTerm rf <= rf_currentTerm rf' ∧ rf_state rf' = Follower)) as Hcase.
    { destruct (Z.ltb_spec (aa_Term (wire_append args)) (rf_currentTerm rf)); [by left; destruct Hsp|right].
      destruct Hsp as (-> & ? & _). by split. }
    eapply (keep_step n H G cl cl' tr ev s rf rf'); try done.
    + destruct Hcase as [->|[? _]]; lia.
    + intros i. rewrite Hni. apply Hns.
    + intros Hc. destruct Hcase as [->|[_ ?]]; [done|congruence].
    + intros Hc. destruct Hcase as [->|[_ ?]]; [done|congruence].
    + intros j t Hj. destruct (Htasks j t Hj) as [?| ->]; [by left|right]. simpl.
      split; [apply elem_of_app; by left|]. split; [done|]. split; [lia|done].
Qed.

(** ** Counting acknowledgements *)

(** The nodes counted by the commit loop are a quorum. *)
Lemma match_count_quorum n rf a N (P : nat → Prop) :
  rf_peers rf = Z.of_nat n → rf_me rf = Z.of_nat a → (a < n)%nat → rf_peers rf / 2 < match_count rf N → P a →
  (∀ q, (q < n)%nat → q ≠ a → N <= map_get (rf_matchIndex rf) (Z.of_nat q) → P q) → quorum n P.
Proof.
  intros Hp Hme Han Hc Pa Pq. unfold match_count in Hc. rewrite Hp, Hme in Hc.
  set (ps := filter _ _) in Hc.
  assert (∀ p, p ∈ ps → 0 <= p < Z.of_nat n ∧ p ≠ Z.of_nat a ∧ N <= map_get (rf_matchIndex rf) p) as Hps.
  { intros p [[H1 H2] H3%elem_of_seqZ]%list_elem_of_filter. split; [lia|done]. }
  assert (NoDup ps) as Hnd by apply NoDup_filter, NoDup_seqZ.
  exists (a :: map Z.to_nat ps). split; [|split].
  - apply NoDup_cons. split.
    + intros (p & -> & Hin)%list_elem_of_fmap. destruct (Hps p Hin) as (? & ? & _). lia.
    + eapply NoDup_fmap_2_strong; [|done]. intros x y Hx Hy. destruct (Hps x Hx), (Hps y Hy). lia.
  - simpl. rewrite length_map. unfold len in Hc.
    pose proof (Z.div_mod (Z.of_nat n) 2). pose proof (Z.mod_pos_bound (Z.of_nat n) 2). lia.
  - apply Forall_cons. split; [done|]. apply Forall_fmap, Forall_forall. intros p Hin. simpl.
    destruct (Hps p Hin) as (H1 & H2 & H3). split; [lia|]. apply Pq; [lia|lia|]. by rewrite Z2Nat.id by lia.
Qed.

Lemma backtrack_bound rf reply m :
  1 <= m → len (rf_log rf) <= m → ar_ConflictIndex reply <= m → backtrack rf reply <= m.
Proof.
  intros H1 Hl Hc. unfold backtrack. cbv zeta.
  destruct (last_of_term_spec (rf_log rf) (length (rf_log rf)) (ar_ConflictTerm reply) (len (rf_log rf) - 1))
    as [[He _]|(He & _)]; [unfold len; lia|lia|..]; cbv zeta in He;
    destruct (ar_ConflictTerm reply =? -1); try destruct (negb _);
    match goal with |- context [if ?x <? 1 then _ else _] => destruct (Z.ltb_spec x 1) end; lia.
Qed.

Lemma commit_loop_applied rf fuel N : rf_lastApplied (commit_loop rf fuel N) = rf_lastApplied rf.
Proof.
  revert N. induction fuel as [|fuel IH]; intros N; [done|]. cbn [commit_loop].
  destruct (N <=? rf_commitIndex rf); [done|]. destruct (index _ _); [|apply IH..].
  destruct (_ && _); [done|apply IH].
Qed.

(** The follower [s] is known to hold the log up to [m]. *)
Definition advance (rf : Raft) (s : nat) (m : Z) : Raft :=
  if map_get (rf_matchIndex rf) (Z.of_nat s) <? m
  then set_indices rf (<[Z.of_nat s := m + 1]> (rf_nextIndex rf)) (<[Z.of_nat s := m]> (rf_matchIndex rf))
  else rf.

Lemma advance_node n H G cl tr a s m rf :
  log_inv n H cl tr → node_safe n G tr a rf → cl_nodes cl !! a = Some rf → rf_state rf = Leader →
  0 <= m < len (rf_log rf) → acked G s (rf_currentTerm rf) m →
  let rf1 := advance rf s m in
  rf_commitIndex rf1 = rf_commitIndex rf ∧ rf_log rf1 = rf_log rf ∧ rf_currentTerm rf1 = rf_currentTerm rf ∧
  rf_state rf1 = rf_state rf ∧ rf_me rf1 = rf_me rf ∧ rf_peers rf1 = rf_peers rf ∧ rf_lastApplied rf1 = rf_lastApplied rf ∧
  (∀ i, map_get (rf_nextIndex rf1) i <= 2 ^ 31) ∧
  ∀ q, (q < n)%nat → q ≠ a → 0 <= map_get (rf_matchIndex rf1) (Z.of_nat q) < len (rf_log rf) ∧
    acked G q (rf_currentTerm rf) (map_get (rf_matchIndex rf1) (Z.of_nat q)).
Proof.
  intros I Hns Ha Hl Hm Hack. cbv zeta. unfold advance.
  destruct (Z.ltb_spec (map_get (rf_matchIndex rf) (Z.of_nat s)) m) as [Hlt|Hge].
  - split_and!; try done; simpl.
    + intros i. rewrite map_get_insert. destruct (li_ok _ _ _ _ I _ (no_log _ _ _ _ _ (li_nodes _ _ _ _ I a rf Ha))) as (_ & ? & _).
      destruct (decide _); [lia|apply Hns].
    + intros q Hq Hqa. rewrite map_get_insert. destruct (decide (Z.of_nat s = Z.of_nat q)) as [->%Nat2Z.inj|]; [done|].
      by apply Hns.
  - split_and!; try done; [apply Hns|]. intros q Hq Hqa. by apply Hns.
Qed.

(** A successful reply of the node's own term. *)
Lemma reply_node n H G cl tr a s args reply rf :
  log_inv n H cl tr → term_inv n 0 cl tr → history n H G (cl_nodes cl) tr → safe n G cl tr →
  cl_nodes cl !! a = Some rf → EvLeader a (aa_Term args) ∈ tr → rf_currentTerm rf = aa_Term args →
  ar_Success reply = true → ar_Term reply <= rf_currentTerm rf → s ≠ a →
  0 <= aa_PrevLogIndex args + len (aa_Entries args) < len (g_log G (aa_Term args)) →
  acked G s (aa_Term args) (aa_PrevLogIndex args + len (aa_Entries args)) →
  let rf' := on_append_reply rf (Z.of_nat s) args reply in
  node_safe n G tr a rf' ∧ rf_log rf' = rf_log rf ∧ rf_currentTerm rf' = rf_currentTerm rf.
Proof.
  intros I T Hh SF Ha Hev Ht Hok Hrt Hsa Hm Hack. cbv zeta. pose proof (sf_nodes _ _ _ _ SF a rf Ha) as Hns.
  destruct (ti_node _ _ _ _ T a rf Ha) as [Hme Hp].
  assert (a < n)%nat as Han by (rewrite <-(ti_len _ _ _ _ T); by eapply lookup_lt_Some).
  assert (rf_state rf = Leader) as Hl.
  { destruct (no_past _ _ _ _ _ (li_nodes _ _ _ _ I a rf Ha) _ Hev) as [|[_ ?]]; [lia|done]. }
  assert (1 <= rf_currentTerm rf) as H1 by (destruct (li_node_of _ _ _ _ I a _ Hev); lia).
  pose proof (ns_lead _ _ _ _ _ Hns Hl) as Elog. rewrite <-Ht, <-Elog in Hm. rewrite <-Ht in Hack.
  unfold on_append_reply. rewrite (proj2 (Z.ltb_ge _ _)), Hok by done.
  set (m := aa_PrevLogIndex args + len (aa_Entries args)) in *.
  set (rf1 := if map_get (rf_matchIndex rf) (Z.of_nat s) <? m then _ else rf).
  destruct (advance_node n H G cl tr a s m rf I Hns Ha Hl Hm Hack) as (E1 & E2 & E3 & E4 & E5 & E6 & E7 & E8 & E9).
  fold (advance rf s m) in rf1. subst rf1. set (rf1 := advance rf s m) in *.
  clearbody rf1.
  destruct (commit_loop_frame rf1 (length (rf_log rf1)) (len (rf_log rf1) - 1)) as (F1 & F2 & _ & F3 & F4 & F5 & F6 & F7).
  destruct (ns_bounds _ _ _ _ _ Hns) as [B1 B2].
  assert (rf_lastApplied (commit_loop rf1 (length (rf_log rf1)) (len (rf_log rf1) - 1)) = rf_lastApplied rf) as F8.
  { rewrite <-E7. apply commit_loop_applied. }
  pose proof (commit_loop_spec rf1 (length (rf_log rf1)) (len (rf_log rf1) - 1) ltac:(lia) ltac:(lia) ltac:(unfold len; lia)) as Hspec.
  cbv zeta in Hspec. set (rf2 := commit_loop _ _ _) in *. clearbody rf2.
  assert ((0 <= rf_commitIndex rf2 < len (rf_log rf)) ∧
    committed n G (rf_currentTerm rf) (take (S (Z.to_nat (fixed rf2))) (rf_log rf))) as [Hb Hc].
  { destruct Hspec as [[Hci _]|((Hci & Hcnt & e & He & Hte) & Hle & _)].
    - unfold fixed. rewrite Hci, F8, E1. split; [done|]. apply Hns.
    - rewrite E2 in *. split; [unfold len in *; lia|].
      destruct (Z_le_gt_dec (rf_commitIndex rf2) (rf_lastApplied rf)) as [Hf|Hf].
      + eapply committed_prefix; [|apply Hns]. apply take_prefix_le. unfold fixed. lia.
      + replace (fixed rf2) with (rf_commitIndex rf2) by (unfold fixed; lia).
        set (L := take (S (Z.to_nat (rf_commitIndex rf2))) (rf_log rf)).
        assert (ends (rf_currentTerm rf) L) as Hends.
        { exists e. split; [by apply last_take_S|]. split; [congruence|done]. }
        right. exists (rf_currentTerm rf), L. split; [done|]. split; [done|]. split; [done|].
        eapply (match_count_quorum n rf1 a (rf_commitIndex rf2)); [congruence|congruence|done|done|..].
        * apply (ns_ack _ _ _ _ _ Hns); [done|apply prefix_take].
        * intros q Hq Hqa Hmq. destruct (E9 q Hq Hqa) as [_ Hacked]. apply Hacked; [done| |].
          -- rewrite <-Elog. apply prefix_take.
          -- unfold L. rewrite len_take. lia. }
  split; [|split; congruence].
  split; rewrite ?F1, ?F2, ?F3, ?F6, ?F7, ?F8, ?E2, ?E3, ?E4; try apply Hns; try done.
  - intros q Hs0 Hq Hqa. by apply E9.
Qed.

(** A reply to a call is processed at node [a]. *)
Lemma reply_step n H G cl cl' tr k a s args reply rf :
  log_inv n H cl tr → term_inv n 0 cl tr → history n H G (cl_nodes cl) tr → safe n G cl tr →
  cl_tasks cl !! k = Some (Some (AppendBack a s args reply)) → cl_nodes cl !! a = Some rf →
  (ar_Success reply = true → rf_currentTerm rf = aa_Term args) →
  let rf' := on_append_reply rf (Z.of_nat s) args reply in
  cl_nodes cl' = <[a := rf']> (cl_nodes cl) → cl_elections cl' = cl_elections cl →
  cl_tasks cl' = <[k := None]> (cl_tasks cl) →
  history n H (observe G a rf') (cl_nodes cl') tr ∧ safe n (observe G a rf') cl' (tr ++ []).
Proof.
  intros I T Hh SF Hk Ha Hfresh rf' Hn Hel Hts.
  pose proof (log_inv_logs_ok _ _ _ _ I) as O. pose proof (sf_nodes _ _ _ _ SF a rf Ha) as Hns.
  destruct (sf_tasks _ _ _ _ SF k _ Hk) as (Hev & Hsa & Hci & Hsucc).
  assert (∀ j t, cl_tasks cl' !! j = Some (Some t) → cl_tasks cl !! j = Some (Some t)) as Htasks
    by (intros j t; rewrite Hts; by intros [?|?]%set_task_lookup).
  assert (applies_nothing []) as Hnil by done.
  destruct (li_ok _ _ _ _ I _ (no_log _ _ _ _ _ (li_nodes _ _ _ _ I a rf Ha))) as (_ & Hlen & _).
  destruct (Z.ltb_spec (rf_currentTerm rf) (ar_Term reply)) as [Hlt|Hge].
  { assert (rf' = set_term_state rf (ar_Term reply) Follower (-1) (-1)) as Heq
      by (unfold rf', on_append_reply; by rewrite (proj2 (Z.ltb_lt _ _))).
    clearbody rf'. subst rf'. eapply (keep_step n H G cl cl' tr [] a rf); try done; simpl; [lia|apply Hns|auto]. }
  destruct (ar_Success reply) eqn:Hok.
  - destruct (Hsucc eq_refl) as [Hm Hack].
    destruct (reply_node n H G cl tr a s args reply rf) as (Hnode & El & Et); auto.
    fold rf' in Hnode, El, Et. clearbody rf'. split; [rewrite Hn; apply (keep_observe n H G (cl_nodes cl) tr a rf); [done|done|apply Hns|done|lia|done]|].
    eapply safe_observe; [done|done|done|done|done|lia|done| |by auto].
    eapply (node_safe_mono n H G); [apply observe_le|done|done|done|done|]. by rewrite app_nil_r.
  - assert (rf' = set_indices rf (<[Z.of_nat s := backtrack rf reply]> (rf_nextIndex rf)) (rf_matchIndex rf)) as Heq
      by (unfold rf', on_append_reply; by rewrite (proj2 (Z.ltb_ge _ _)), Hok).
    clearbody rf'. subst rf'. eapply (keep_step n H G cl cl' tr [] a rf); try done; simpl; [|by auto].
    intros i. rewrite map_get_insert. destruct (decide _); [|apply Hns]. apply backtrack_bound; lia.
Qed.

(** ** Votes *)

Lemma RequestVote_frame rf args now rf' r :
  RequestVote rf args now = Ok (rf', r) →
  rf_commitIndex rf' = rf_commitIndex rf ∧ rf_lastApplied rf' = rf_lastApplied rf ∧
  rf_nextIndex rf' = rf_nextIndex rf ∧ rf_matchIndex rf' = rf_matchIndex rf.
Proof.
  unfold RequestVote. destruct (_ <? _); [by intros [= <- <-]|]. cbv zeta.
  destruct (rf_currentTerm rf <? va_Term args); destruct (index _ _); cbn [mbind outcome_bind];
    try done; destruct (_ && _); by intros [= <- <-].
Qed.

(** A granted vote goes to a log at least as up to date. *)
Lemma RequestVote_uptodate rf args now rf' r :
  RequestVote rf args now = Ok (rf', r) → vr_VoteGranted r = true →
  ∃ e, last (rf_log rf) = Some e ∧
    (le_Term e < va_LastLogTerm args ∨ (va_LastLogTerm args = le_Term e ∧ len (rf_log rf) - 1 <= va_LastLogIndex args)).
Proof.
  unfold RequestVote. destruct (_ <? _); [by intros [= <- <-]|]. cbv zeta.
  set (rf1 := if rf_currentTerm rf <? va_Term args then _ else rf).
  assert (rf_log rf1 = rf_log rf) as -> by (unfold rf1; by destruct (_ <? _)). clearbody rf1.
  unfold index at 1. destruct (Z.leb_spec 0 (len (rf_log rf) - 1)) as [Hl|]; [|done].
  destruct (rf_log rf !! Z.to_nat (len (rf_log rf) - 1)) as [e|] eqn:He; [|done]. cbn [mbind outcome_bind].
  destruct ((_ || _) && _) eqn:Hb; intros [= <- <-]; [|done]. intros _. exists e. split.
  - rewrite last_lookup, <-He. f_equal. unfold len in *. lia.
  - apply andb_true_iff in Hb as [_ Hb]. destruct (Z.ltb_spec (le_Term e) (va_LastLogTerm args)); [by left|right].
    apply andb_true_iff in Hb as [H1%Z.eqb_eq H2%Z.leb_le]. done.
Qed.

(** A vote request is handled at node [s]. *)
Lemma vote_step n H G cl cl' tr k e s args rf now rf' r reply' :
  Z.of_nat n <= 2 ^ 31 → log_inv n H cl tr → term_inv n 0 cl tr → history n H G (cl_nodes cl) tr → safe n G cl tr →
  cl_tasks cl !! k = Some (Some (VoteCall e s args)) → cl_nodes cl !! s = Some rf →
  RequestVote rf (wire_vote args) now = Ok (rf', r) → vr_VoteGranted reply' = vr_VoteGranted r →
  cl_nodes cl' = <[s := rf']> (cl_nodes cl) → cl_elections cl' = cl_elections cl →
  cl_tasks cl' = <[k := Some (VoteBack e s reply')]> (cl_tasks cl) →
  let ev := [EvVote s (wire_vote args) reply'] in
  history n H (observe G s rf') (cl_nodes cl') (tr ++ ev) ∧ safe n (observe G s rf') cl' (tr ++ ev).
Proof.
  intros Hn I T Hh SF Hk Hs Hv Hrep Hnodes Hel Hts ev.
  pose proof (log_inv_logs_ok _ _ _ _ I) as O. pose proof (sf_nodes _ _ _ _ SF s rf Hs) as Hns.
  destruct (RequestVote_frame _ _ _ _ _ Hv) as (E1 & E2 & E3 & E4).
  pose proof (RequestVote_spec _ _ _ _ _ Hv) as (V1 & _ & Vlog & _ & _ & V).
  destruct (vote_candidate n 0 Hn cl tr k e s args T Hk) as (el & Hele & _ & _ & Hc & HU).
  destruct (sf_tasks _ _ _ _ SF k _ Hk) as (el' & x & Hele' & Hknown & Hlast & Hlt & Hli).
  assert (el' = el) as -> by congruence.
  destruct (keep_step n H G cl cl' tr ev s rf rf') as [Hh' SF']; try done; [lia|by rewrite E3; apply Hns|..].
  - destruct (vr_VoteGranted r); [by destruct V as (_ & _ & -> & _)|].
    destruct (Z.leb_spec (va_Term (wire_vote args)) (rf_currentTerm rf)); destruct V as [_ ->]; [|done]. split; [done|lia].
  - destruct (vr_VoteGranted r); [by destruct V as (_ & _ & -> & _)|].
    destruct (Z.leb_spec (va_Term (wire_vote args)) (rf_currentTerm rf)); destruct V as [_ ->]; [|done]. split; [done|]. split; [lia|done].
  - intros j t. rewrite Hts. intros [?|[= <-]]%set_task_lookup; [by left|by right].
  - split; [|done]. apply history_votes; [done|intros b t Hb; by apply list_elem_of_singleton in Hb|].
    intros v U c [Hg|(-> & Hgr & HtU & Hcc)]%granted_vote; [by left|right].
    rewrite Hgr in Hrep. rewrite <-Hrep in V. destruct V as (V2 & _).
    assert (Z.to_nat c = el_cand el) as Hcand by lia. rewrite Hcand.
    destruct (sf_elections _ _ _ _ SF e el Hele) as (xc & Hxc & Htc & _).
    pose proof (no_term _ _ _ _ _ (li_nodes _ _ _ _ I _ xc Hxc)) as Hsm.
    pose proof (li_elections _ _ _ _ I e el Hele) as Hpos.
    assert (U = el_term el) as -> by (rewrite <-HtU, HU; apply s32_id; unfold is_s32; lia).
    split; [|split].
    + exists rf'. rewrite Hnodes, list_lookup_insert_eq by (by eapply lookup_lt_Some). split_and!; [done|lia|done].
    + rewrite Hnodes. eapply (in_term_insert _ _ _ _ _ _ (λ _, True)); [done|lia|auto|auto|]. by exists xc.
    + intros T0 L Hack HT0. destruct (hs_ack _ _ _ _ _ Hh' s T0 L Hack) as ((y & Hy & _ & HL) & Hends & HLg & _).
      rewrite Hnodes, list_lookup_insert_eq in Hy by (by eapply lookup_lt_Some). injection Hy as <-.
      destruct HL as [HL|]; [|by right]. rewrite Vlog in HL.
      destruct (RequestVote_uptodate _ _ _ _ _ Hv) as (ey & Hey & Hup); [by symmetry|].
      pose proof (hs_known _ _ _ _ _ Hh _ Hknown) as HHk. destruct (lo_ok _ _ O _ HHk) as (_ & Hlenk & Hokk).
      assert (va_LastLogTerm (wire_vote args) = le_Term x ∧ va_LastLogIndex (wire_vote args) = va_LastLogIndex args) as [W1 W2].
      { rewrite last_lookup in Hlast. destruct (Hokk _ _ Hlast) as (_ & ? & _). apply lookup_lt_Some in Hlast.
        simpl. rewrite Hlt. split; apply s32_id; unfold is_s32; [lia|]. rewrite Hli. unfold len in *. lia. }
      rewrite W1, W2, Hli in Hup. apply (uptodate n H G (cl_nodes cl) tr O Hh T0 L (rf_log rf) (g_cand G (el_cand el) (el_term el)) ey x); try done; [apply Hns|].
      unfold len in Hup. destruct Hup as [?|[? ?]]; [by left|right]. split; [done|lia].
Qed.

(** ** Elections *)

Lemma startElection_args rf now rf' args :
  startElection rf now = Ok (rf', args) →
  ∃ e, last (rf_log rf) = Some e ∧ va_LastLogTerm args = le_Term e ∧ va_LastLogIndex args = len (rf_log rf) - 1 ∧
    rf_commitIndex rf' = rf_commitIndex rf ∧ rf_lastApplied rf' = rf_lastApplied rf ∧
    rf_nextIndex rf' = rf_nextIndex rf.
Proof.
  unfold startElection. cbv zeta. cbn [persistState set_wal set_reset set_term_state rf_log].
  unfold index. destruct (Z.leb_spec 0 (len (rf_log rf) - 1)) as [Hl|]; [|done].
  destruct (rf_log rf !! Z.to_nat (len (rf_log rf) - 1)) as [e|] eqn:He; [|done]. cbn [mbind outcome_bind].
  intros [= <- <-]. exists e. split_and!; try done. rewrite last_lookup, <-He. f_equal. unfold len in *. lia.
Qed.

Lemma elect_step n H G cl tr a now cl' ev t0 :
  log_inv n H cl tr → history n H G (cl_nodes cl) tr → safe n G cl tr →
  elect (set_tick cl a t0) a now = Some (cl', ev) →
  ∃ G', history n H G' (cl_nodes cl') (tr ++ ev) ∧ safe n G' cl' (tr ++ ev).
Proof.
  intros I Hh SF Hs. unfold elect in Hs. simpl in Hs. destruct (cl_nodes cl !! a) as [rf|] eqn:Ha; [|done]. simpl in Hs.
  destruct (value _) as [[rf' args]|] eqn:E; [|done]. apply value_Some in E. simpl in Hs.
  injection Hs as <- <-. pose proof (log_inv_logs_ok _ _ _ _ I) as O. pose proof (sf_nodes _ _ _ _ SF a rf Ha) as Hns.
  destruct (startElection_spec _ _ _ _ E) as (_ & _ & Et & _ & Est & El & _).
  destruct (startElection_args _ _ _ _ E) as (x & Hx & Hlt & Hli & Eci & Ela & Eni).
  set (U := rf_currentTerm rf') in *. set (G1 := set_cand G a U (rf_log rf)). set (G' := observe G1 a rf').
  set (ev := [EvElection a U]). assert (applies_nothing ev) as Hnone by done.
  assert (ghost_le G G') as Hle by (split; simpl; auto).
  assert (cl_nodes cl !! a = Some rf) as Ha' by done. apply lookup_lt_Some in Ha'.
  assert (history n H G' (<[a := rf']> (cl_nodes cl)) tr) as Hh'.
  { apply (keep_observe n H G1 (cl_nodes cl) tr a rf); [done| |apply Hns|done|lia|done].
    apply (history_cand n H G (cl_nodes cl) tr a rf); [done|done|lia]. }
  assert (g_cand G' a U = rf_log rf) as Hcand by (simpl; by rewrite decide_True).
  assert (∀ t, t ≠ U → g_cand G' a t = g_cand G a t) as Hcand' by (intros t Ht; simpl; rewrite decide_False; [done|by intros []]).
  exists G'. simpl. split.
  - apply history_votes; [done|intros b t Hb; by apply list_elem_of_singleton in Hb|].
    intros v V c [Hg|(-> & -> & ->)]%granted_one; [by left|right]. rewrite Nat2Z.id.
    assert (in_term (<[a := rf']> (cl_nodes cl)) a U (λ _, True)) as Hin
      by (exists rf'; rewrite list_lookup_insert_eq by done; split_and!; done).
    split; [done|]. split; [done|]. intros T L Hack HT.
    destruct (hs_ack _ _ _ _ _ Hh' a T L Hack) as ((y & Hy & _ & HL) & _).
    rewrite list_lookup_insert_eq in Hy by done. injection Hy as <-. by rewrite Hcand, <-El.
  - eapply (safe_step n H G G' cl _ tr ev a rf rf'); try done; cbn [spawn set_elections set_node cl_elections cl_tasks cl_nodes].
    + intros b y Hb _. split; [|split; [done|done]]. intros _. simpl. rewrite decide_False; [done|by intros []].
    + apply (node_safe_keep n G' _ a rf rf'); [|unfold U in Et; lia|done|done|done|rewrite Eni; apply Hns|by intros _; fold U; rewrite Hcand|congruence].
      eapply (node_safe_mono n H G); [done|done|done|intros _; apply Hcand'; lia|done|].
      by rewrite applied_app, Hnone, app_nil_r.
    + intros e el [He|[_ He]]%lookup_app_Some.
      * eapply (in_term_insert _ _ _ _ _ _ (λ _, True)); [done|unfold U in Et; lia|auto|auto|].
        by eapply (sf_elections _ _ _ _ SF).
      * apply list_lookup_singleton_Some in He as [_ <-]. exists rf'. rewrite list_lookup_insert_eq by done. by split_and!.
    + intros e el He. exists el. split; [by apply lookup_app_l_Some|]. split; [done|]. split; [done|].
      destruct (sf_elections _ _ _ _ SF e el He) as (y & Hy & Hty & _). simpl.
      rewrite decide_False; [done|]. intros [Hc Ht]. rewrite Hc in Hy. assert (y = rf) as -> by congruence. lia.
    + intros k t [Hk|Hk]%spawn_lookup; [by left|right]. apply list_elem_of_fmap in Hk as (s & -> & _).
      exists (mkElection a U 1), x. cbn [el_cand el_term]. rewrite Hcand.
      split; [by apply list_lookup_middle|]. split; [by left; apply Hns|]. split; [done|]. by split.
Qed.

Lemma on_vote_reply_keep rf term votes reply rf' votes' :
  on_vote_reply rf term votes reply = (rf', votes', false) →
  rf' = rf ∨
  rf' = persistState (set_term_state rf (vr_Term reply) Follower (-1) (-1)) ∧ rf_currentTerm rf < vr_Term reply.
Proof.
  unfold on_vote_reply. destruct (negb _ || negb _); [intros [= <- _]; by left|].
  destruct (Z.ltb_spec (rf_currentTerm rf) (vr_Term reply)); [intros [= <- _]; by right|].
  destruct (vr_VoteGranted reply); [|intros [= <- _]; by left]. destruct (_ =? _); [done|intros [= <- _]; by left].
Qed.

(** The elections after a vote was counted. *)
Lemma counted_election (els : list Election) e el votes :
  els !! e = Some el →
  ∀ j x, els !! j = Some x → ∃ x', <[e := mkElection (el_cand el) (el_term el) votes]> els !! j = Some x' ∧
    el_cand x' = el_cand x ∧ el_term x' = el_term x.
Proof.
  intros He j x Hx. destruct (decide (e = j)) as [<-|Hne].
  - eexists. split; [apply list_lookup_insert_eq; by eapply lookup_lt_Some|]. simpl. by assert (x = el) as -> by congruence.
  - exists x. by rewrite list_lookup_insert_ne.
Qed.

(** A vote is counted that does not decide the election. *)
Lemma count_step n H G cl cl' tr k e s reply el rf rf' votes :
  log_inv n H cl tr → history n H G (cl_nodes cl) tr → safe n G cl tr →
  cl_elections cl !! e = Some el → cl_nodes cl !! el_cand el = Some rf →
  on_vote_reply rf (el_term el) (el_votes el) reply = (rf', votes, false) →
  cl_tasks cl !! k = Some (Some (VoteBack e s reply)) →
  cl_nodes cl' = <[el_cand el := rf']> (cl_nodes cl) →
  cl_elections cl' = <[e := mkElection (el_cand el) (el_term el) votes]> (cl_elections cl) →
  cl_tasks cl' = <[k := None]> (cl_tasks cl) →
  history n H (observe G (el_cand el) rf') (cl_nodes cl') tr ∧ safe n (observe G (el_cand el) rf') cl' (tr ++ []).
Proof.
  intros I Hh SF He Ha Hr Hk Hn Hel Hts. set (a := el_cand el) in *.
  pose proof (log_inv_logs_ok _ _ _ _ I) as O. pose proof (sf_nodes _ _ _ _ SF a rf Ha) as Hns.
  apply on_vote_reply_keep in Hr.
  assert (rf_log rf' = rf_log rf ∧ rf_commitIndex rf' = rf_commitIndex rf ∧ rf_lastApplied rf' = rf_lastApplied rf ∧
    rf_nextIndex rf' = rf_nextIndex rf ∧ rf_matchIndex rf' = rf_matchIndex rf ∧ rf_currentTerm rf <= rf_currentTerm rf' ∧
    (rf' = rf ∨ rf_state rf' = Follower)) as (E1 & E2 & E3 & E4 & E5 & E6 & E7)
    by (destruct Hr as [->|[-> ?]]; simpl; split_and!; auto; lia).
  split; [rewrite Hn; apply (keep_observe n H G (cl_nodes cl) tr a rf); [done|done|apply Hns|done..]|].
  eapply (safe_step n H G _ cl cl' tr [] a rf rf'); [done|done|done|done|apply observe_le|done|..].
  - apply (node_safe_keep n _ _ a rf rf'); [|done|done|done|done|rewrite E4; apply Hns|..].
    + eapply (node_safe_mono n H G); [apply observe_le|done|done|done|done|]. by rewrite app_nil_r.
    + intros Hc. destruct E7 as [->|?]; [by apply (ns_cand _ _ _ _ _ Hns)|congruence].
    + intros Hl. destruct E7 as [->|?]; [done|congruence].
  - intros j x. rewrite Hel, Hn. intros Hx. eapply (in_term_insert _ _ _ _ _ _ (λ _, True)); [done|done|auto|auto|].
    apply list_lookup_insert_Some in Hx as [(_ & <- & _)|[_ Hx]];
      [exact (sf_elections _ _ _ _ SF e el He)|by eapply (sf_elections _ _ _ _ SF)].
  - intros j x Hx. rewrite Hel. destruct (counted_election _ e el votes He j x Hx) as (x' & H1 & H2 & H3). by exists x'.
  - intros j t. rewrite Hts. intros [?|?]%set_task_lookup; [by left|done].
Qed.

(** ** Winning *)

Lemma map_get_fold_le (v B : Z) (m : gmap Z Z) ps :
  v <= B → (∀ j, map_get m j <= B) → ∀ j, map_get (foldl (λ m p, <[p := v]> m) m ps) j <= B.
Proof.
  intros Hv. revert m. induction ps as [|p ps IH]; intros m Hm j; [done|]. simpl. apply IH.
  intros i. rewrite map_get_insert. by destruct (decide _).
Qed.

Lemma won_rest rf term votes reply rf' votes' :
  on_vote_reply rf term votes reply = (rf', votes', true) →
  rf_commitIndex rf' = rf_commitIndex rf ∧ rf_lastApplied rf' = rf_lastApplied rf ∧
  rf_matchIndex rf' = foldl (λ m p, <[p := 0]> m) (rf_matchIndex rf) (seqZ 0 (rf_peers rf)).
Proof.
  unfold on_vote_reply. destruct (negb _ || negb _); [done|]. destruct (_ <? _); [done|].
  destruct (vr_VoteGranted reply); [|done]. destruct (_ =? _); [|done]. by intros [= <- <-].
Qed.

Section win.
Context (n : nat) (H H' : list LogEntry → Prop) (G : Ghost) (cl cl' : Cluster) (tr : list event).
Context (k e s : nat) (reply : RequestVoteReply) (el : Election) (rf rf' : Raft) (votes : Z).
Let a := el_cand el.
Let U := el_term el.
Hypothesis I : log_inv n H cl tr.
Hypothesis T0 : term_inv n 0 cl tr.
Hypothesis Hh : history n H G (cl_nodes cl) tr.
Hypothesis SF : safe n G cl tr.
Hypothesis Hu : unique_leaders (tr ++ [EvLeader a U]).
Hypothesis HH : ∀ L, H L → H' L.
Hypothesis O' : logs_ok H' (tr ++ [EvLeader a U]).
Hypothesis TU : term_inv n U cl' (tr ++ [EvLeader a U]).
Hypothesis He : cl_elections cl !! e = Some el.
Hypothesis Ha : cl_nodes cl !! a = Some rf.
Hypothesis Hreply : on_vote_reply rf U (el_votes el) reply = (rf', votes, true).
Hypothesis Hn : cl_nodes cl' = <[a := rf']> (cl_nodes cl).
Hypothesis Hel : cl_elections cl' = <[e := mkElection a U votes]> (cl_elections cl).
Hypothesis Hts : cl_tasks cl' = <[k := None]> (cl_tasks cl) ++ [Some (SendHeartBeats a)].

Let G' := observe (win G U (rf_log rf)) a rf'.
Let ev := [EvLeader a U].

Lemma winner : rf_state rf = Candidate ∧ rf_currentTerm rf = U ∧ rf_currentTerm rf' = U ∧ rf_state rf' = Leader ∧
  rf_log rf' = rf_log rf ∧
  rf_nextIndex rf' = foldl (λ m p, <[p := len (rf_log rf)]> m) (rf_nextIndex rf) (seqZ 0 (rf_peers rf)).
Proof.
  destruct (on_vote_reply_won _ _ _ _ _ _ Hreply) as [Eu _].
  destruct (won_spec tr a rf rf' U _ _ _ Hreply) as (W1 & W2 & W3 & W4 & _ & _ & W7 & W8); [by rewrite Eu|done].
Qed.

Lemma win_new b : EvLeader b U ∉ tr.
Proof.
  intros Hb. destruct winner as (W1 & W2 & _).
  assert (b = a) as -> by (apply (Hu b a U); rewrite elem_of_app, ?list_elem_of_singleton; auto).
  destruct (no_past _ _ _ _ _ (li_nodes _ _ _ _ I a rf Ha) U Hb) as [|[_ ?]]; [lia|congruence].
Qed.

Lemma win_terms i x : rf_log rf !! i = Some x → le_Term x < U.
Proof.
  intros Hx. destruct winner as (_ & W2 & _). pose proof (sf_nodes _ _ _ _ SF a rf Ha) as Hns.
  pose proof (ns_terms _ _ _ _ _ Hns i x Hx) as Hle. pose proof (no_log _ _ _ _ _ (li_nodes _ _ _ _ I a rf Ha)) as HL.
  pose proof (li_elections _ _ _ _ I e el He) as H1. fold U in H1.
  destruct (decide (i = 0%nat)) as [->|Hi].
  - destruct (li_ok _ _ _ _ I _ HL) as (H0 & _). rewrite H0 in Hx. injection Hx as <-. simpl. lia.
  - destruct (decide (le_Term x = U)) as [Heq|]; [|lia].
    destruct (li_origin _ _ _ _ I _ i x HL Hx Hi) as [b Hb]. rewrite Heq in Hb. by destruct (win_new b).
Qed.

Lemma win_none L : ends U L → ¬ L `prefix_of` rf_log rf.
Proof. intros Hends HL. destruct (ends_entry _ _ _ Hends HL) as (x & Hx & Htx & _). pose proof (win_terms _ _ Hx). lia. Qed.

Lemma win_history : history n H' G' (cl_nodes cl') (tr ++ ev).
Proof.
  destruct winner as (W1 & W2 & W3 & W4 & W5 & _). pose proof (sf_nodes _ _ _ _ SF a rf Ha) as Hns.
  rewrite Hn. apply (keep_observe n H' _ (cl_nodes cl) (tr ++ ev) a rf); [done| |apply Hns|done|lia|done].
  eapply history_more; [done|]. apply history_win; [by eapply log_inv_logs_ok|done|apply win_new|apply Hns|apply win_terms|].
  destruct (ti_leader _ _ _ _ TU a) as (voters & L1 & L2 & L3); [apply elem_of_app; right; by apply list_elem_of_singleton|].
  exists voters. split; [done|]. split; [done|]. eapply Forall_impl; [done|]. intros v [Hv Hg]. split; [done|].
  apply granted_voteless in Hg; [|by repeat constructor]. destruct (hs_vote _ _ _ _ _ Hh v U _ Hg) as (V1 & _ & V3).
  split; [done|]. rewrite Nat2Z.id in V3. by rewrite (ns_cand _ _ _ _ _ Hns W1), W2.
Qed.

Lemma win_node : node_safe n G' (tr ++ ev) a rf'.
Proof.
  destruct winner as (W1 & W2 & W3 & W4 & W5 & W6). pose proof (sf_nodes _ _ _ _ SF a rf Ha) as Hns.
  destruct (won_rest _ _ _ _ _ _ Hreply) as (R1 & R2 & R3). destruct (ti_node _ _ _ _ T0 a rf Ha) as [_ Hp].
  destruct (li_ok _ _ _ _ I _ (no_log _ _ _ _ _ (li_nodes _ _ _ _ I a rf Ha))) as (H0 & Hlen & _).
  assert (g_log G' U = rf_log rf) as Hlog by (simpl; unfold set_log_of; by rewrite decide_True).
  split; rewrite ?W3, ?W4, ?W5; unfold fixed; rewrite ?R1, ?R2; try done.
  - by right.
  - intros i x Hx. pose proof (win_terms _ _ Hx). lia.
  - intros L Hends HL. by destruct (win_none L Hends).
  - intros q _ Hq Hqa. rewrite R3, map_get_fold by (apply elem_of_seqZ; lia). split; [split; [done|by eapply (len_gt_lookup _ 0)]|].
    intros L Hends HL _. rewrite Hlog in HL. by destruct (win_none L Hends).
  - apply Hns.
  - eapply committed_mono; [| |apply Hns]; [|lia]. split; simpl; auto; [by eexists|].
    intros T Lw Hw. unfold set_log_of. destruct (decide (T = U)) as [->|]; [|done].
    destruct (hs_win _ _ _ _ _ Hh _ _ Hw) as ([b Hb] & _). by destruct (win_new b).
  - intros i. rewrite W6. apply map_get_fold_le; [done|apply Hns].
  - rewrite applied_app, app_nil_r. apply Hns.
Qed.

Lemma win_le : ghost_le G G'.
Proof.
  split; simpl; auto; [by eexists|]. intros T Lw Hw. unfold set_log_of. destruct (decide (T = U)) as [->|]; [|done].
  destruct (hs_win _ _ _ _ _ Hh _ _ Hw) as ([b Hb] & _). by destruct (win_new b).
Qed.

Lemma win_safe : safe n G' cl' (tr ++ ev).
Proof.
  destruct winner as (W1 & W2 & W3 & W4 & W5 & W6).
  eapply (safe_step n H G G' cl cl' tr ev a rf rf'); try done; [apply win_le| |apply win_node|..].
  - intros b x Hb Hx. split; [done|]. split; [|done]. intros Hl. simpl. unfold set_log_of.
    destruct (decide (rf_currentTerm x = U)) as [Heq|]; [|done].
    pose proof (no_event _ _ _ _ _ (li_nodes _ _ _ _ I b x Hx) Hl) as Hb'. rewrite Heq in Hb'. by destruct (win_new b).
  - intros j x. rewrite Hel, Hn. intros Hx. eapply (in_term_insert _ _ _ _ _ _ (λ _, True)); [done|lia|auto|auto|].
    apply list_lookup_insert_Some in Hx as [(_ & <- & _)|[_ Hx]];
      [exact (sf_elections _ _ _ _ SF e el He)|by eapply (sf_elections _ _ _ _ SF)].
  - intros j x Hx. rewrite Hel. destruct (counted_election _ e el votes He j x Hx) as (x' & H1 & H2 & H3). by exists x'.
  - intros j t. rewrite Hts. intros [[?|?]%set_task_lookup|Hj]%(spawn_lookup _ [_]); [by left|done|right].
    apply list_elem_of_singleton in Hj as ->. simpl. rewrite <-(ti_len _ _ _ _ T0). by eapply lookup_lt_Some.
Qed.
End win.

(** ** Commands and application *)

Section command.
Context (n : nat) (H H' : list LogEntry → Prop) (G : Ghost) (cl : Cluster) (tr : list event).
Context (a : nat) (rf : Raft) (command : bytes).
Hypothesis I : log_inv n H cl tr.
Hypothesis Hh : history n H G (cl_nodes cl) tr.
Hypothesis SF : safe n G cl tr.
Hypothesis Hu : unique_leaders tr.
Hypothesis HH : ∀ L, H L → H' L.
Hypothesis O' : logs_ok H' tr.
Hypothesis Ha : cl_nodes cl !! a = Some rf.
Hypothesis Hl : rf_state rf = Leader.

Let T := rf_currentTerm rf.
Let x := mkLogEntry (len (rf_log rf)) T command.
Let rf' := set_trigger (set_log rf (rf_log rf ++ [x])) true.
Let G1 := extend G T x.
Let G' := observe G1 a rf'.
Let Hns := sf_nodes _ _ _ _ SF a rf Ha.
Hypothesis HL : H' (rf_log rf ++ [x]).

Lemma command_event : EvLeader a T ∈ tr.
Proof. by apply (no_event _ _ _ _ _ (li_nodes _ _ _ _ I a rf Ha)). Qed.

Lemma command_log : g_log G T = rf_log rf.
Proof. symmetry. by apply (ns_lead _ _ _ _ _ Hns). Qed.

Lemma command_le : ghost_le G G'.
Proof. split; simpl; auto. intros T' Lw _. apply (extend_prefix G T x). Qed.

Lemma command_history : history n H' G' (<[a := rf']> (cl_nodes cl)) tr.
Proof.
  destruct (hs_event _ _ _ _ _ Hh a T command_event) as [Lw Hw].
  assert (history n H' G1 (cl_nodes cl) tr) as Hh1.
  { eapply history_extend; [by eapply history_more|done|done|]. by rewrite command_log. }
  apply (history_node n H' G1 (cl_nodes cl) tr a rf); [done|done|done|done| |done|].
  - intros T' L _ _ HL' _. left. simpl. by apply prefix_app_r.
  - intros i e He Hi. eapply (hs_entry _ _ _ _ _ Hh1); [|done|done]. right. simpl. by rewrite command_log.
Qed.

Lemma command_node : node_safe n G' tr a rf'.
Proof.
  destruct (hs_event _ _ _ _ _ Hh a T command_event) as [Lw Hw]. destruct (ns_bounds _ _ _ _ _ Hns) as [B1 B2].
  assert (g_log G' T = rf_log rf ++ [x]) as Hlog
    by (simpl; unfold set_log_of; rewrite decide_True by done; by rewrite command_log).
  split; cbn [rf' set_trigger set_log rf_log rf_currentTerm rf_state rf_matchIndex rf_nextIndex rf_commitIndex rf_lastApplied];
    fold T; rewrite ?len_app; try done.
  - by right.
  - intros i e [He|[_ He]]%lookup_app_Some; [by apply (ns_terms _ _ _ _ _ Hns i)|].
    apply list_lookup_singleton_Some in He as [_ <-]. simpl. lia.
  - intros L Hends HL'. right. by repeat split.
  - congruence.
  - intros q _ Hq Hqa. destruct (ns_match _ _ _ _ _ Hns q Hl Hq Hqa) as [Hm Hack]. pose proof (len_nonneg [x]).
    split; [lia|]. eapply acked_mono; [apply command_le|done| |done]. rewrite command_log. lia.
  - pose proof (len_nonneg [x]). lia.
  - rewrite take_app_le by (unfold fixed, len in *; simpl; lia). eapply committed_mono; [apply command_le| |apply Hns].
    unfold T. lia.
  - apply Hns.
  - rewrite (ns_applied _ _ _ _ _ Hns). unfold len in *. rewrite !take_drop_commute, take_app_le by lia. done.
Qed.

Lemma command_safe : safe n G' (set_node cl a rf') (tr ++ []).
Proof.
  eapply (safe_step n H G G' cl _ tr [] a rf rf'); try done; [apply command_le| |rewrite app_nil_r; apply command_node|..].
  - intros b y Hb Hy. split; [done|]. split; [|done]. intros Hly. simpl. unfold set_log_of.
    destruct (decide (rf_currentTerm y = T)) as [Heq|]; [|done]. exfalso. apply Hb.
    apply (Hu b a T); [|apply command_event]. rewrite <-Heq.
    by apply (no_event _ _ _ _ _ (li_nodes _ _ _ _ I b y Hy)).
  - intros e el He. simpl. eapply (in_term_insert _ _ _ _ _ _ (λ _, True)); [done|done|auto|auto|].
    by eapply (sf_elections _ _ _ _ SF).
  - intros e el He. by exists el.
  - intros k t Hk. by left.
Qed.
End command.

Lemma applier_node n G tr a rf rf' es :
  node_safe n G tr a rf → applier rf = Ok (rf', es) → node_safe n G (tr ++ [EvApply a es]) a rf'.
Proof.
  intros Hns. destruct (ns_bounds _ _ _ _ _ Hns) as [B1 B2].
  assert (applied [EvApply a es] a = es) as Hes by (unfold applied; simpl; rewrite Nat.eqb_refl; apply app_nil_r).
  unfold applier. cbn [set_commit rf_commitIndex rf_lastApplied rf_log].
  destruct (Z.leb_spec (rf_commitIndex rf) (rf_lastApplied rf)) as [Hle|Hgt].
  { intros [= <- <-]. split; try apply Hns. rewrite applied_app, Hes, app_nil_r. apply Hns. }
  rewrite collect_spec by lia. cbn [mbind outcome_bind]. intros [= <- <-].
  split; try apply Hns; cbn [set_applied set_commit rf_commitIndex rf_lastApplied rf_log rf_currentTerm].
  - done.
  - eapply committed_prefix; [|apply Hns]. apply take_prefix_le. unfold fixed. simpl. lia.
  - rewrite applied_app, Hes, (ns_applied _ _ _ _ _ Hns).
    replace (drop (Z.to_nat (rf_lastApplied rf + 1)) (rf_log rf))
      with (drop (Z.to_nat (rf_lastApplied rf)) (drop 1 (rf_log rf))) by (rewrite drop_drop; f_equal; lia).
    rewrite take_take_drop. f_equal. lia.
Qed.

(** ** Every fresh step *)

Definition safe_inv (n : nat) (cl : Cluster) (tr : list event) : Prop :=
  ∃ H G, log_inv n H cl tr ∧ history n H G (cl_nodes cl) tr ∧ safe n G cl tr.

Lemma start_safe n : safe_inv n (start_cluster n) [].
Proof.
  exists (λ L, L = [sentinel]), (mkGhost [] (λ _, []) (λ _ _ _, False) (λ _ _, []) (λ L, L = [sentinel])).
  split; [apply start_log_inv_cluster|].
  assert (∀ v U c, ¬ granted [] v U c) as Hg
    by (intros v U c [[Hin _]|(? & ? & Hin & _)]; by apply not_elem_of_nil in Hin).
  split.
  - split; simpl; try done.
    + intros a T Ha. by apply not_elem_of_nil in Ha.
    + intros W Lw Hw. by apply not_elem_of_nil in Hw.
    + intros L i e -> He Hi. by apply list_lookup_singleton_Some in He as [-> _].
    + intros v U c Hv. by destruct (Hg v U c).
  - split; simpl; try (by intros; rewrite ?lookup_nil in * ).
    intros a rf. rewrite list_lookup_fmap. intros (i & Hi & ->)%fmap_Some.
    split; simpl; try done.
    + intros j e He. apply list_lookup_singleton_Some in He as [_ <-]. done.
    + intros L (e & He & Ht & H1) HL. simpl in *. lia.
    + by left.
Qed.

(** Every node has a ticker. *)
Lemma ticks_step cl act cl' ev :
  do_action cl act = Some (cl', ev) → length (cl_ticks cl') = length (cl_ticks cl).
Proof.
  intros Ha. destruct act as [a now timeout|a now|k now|k|a command|a|a]; simpl in Ha.
  - destruct (cl_nodes cl !! a); [|done]. injection Ha as <- _. simpl. by rewrite length_insert.
  - destruct (cl_ticks cl !! a) as [[| |]|]; simpl in Ha; [| | |done].
    + injection Ha as <- _. simpl. by rewrite length_insert.
    + unfold elect in Ha. simpl in Ha. destruct (cl_nodes cl !! a); [|done]. simpl in Ha.
      destruct (value _) as [[]|]; [|done]. injection Ha as <- _. simpl. by rewrite length_insert.
    + injection Ha as <- _. simpl. by rewrite length_insert.
  - destruct (cl_tasks cl !! k) as [[t|]|]; [|done..]. simpl in Ha. destruct t; simpl in Ha;
      repeat match type of Ha with
      | (match ?x with _ => _ end) = _ => destruct x; simpl in Ha; try done
      end; unfold mbind, option_bind in Ha; repeat case_match; simplify_eq/=; done.
  - by injection Ha as <- _.
  - destruct (cl_nodes cl !! a); [|done]. by injection Ha as <- _.
  - destruct (cl_nodes cl !! a) as [rf|]; [|done]. simpl in Ha. destruct (rf_triggerCh rf); [|done]. 
    rewrite replicator_ok in Ha. by injection Ha as <- _.
  - destruct (cl_nodes cl !! a) as [rf|]; [|done]. simpl in Ha. destruct (rf_commitCh rf); [|done].
    destruct (value _) as [[]|]; [|done]. by injection Ha as <- _.
Qed.

Section cluster_step.
Context (n : nat) (H H' : list LogEntry → Prop) (G : Ghost) (cl cl' : Cluster) (tr ev : list event).
Hypothesis Hn : Z.of_nat n <= 2 ^ 31.
Hypothesis I : log_inv n H cl tr.
Hypothesis T : ∀ t, 0 <= t < 2 ^ 31 → term_inv n t cl tr.
Hypothesis Hh : history n H G (cl_nodes cl) tr.
Hypothesis SF : safe n G cl tr.
Hypothesis Hu : unique_leaders (tr ++ ev).
Hypothesis HH : ∀ L, H L → H' L.
Hypothesis I' : log_inv n H' cl' (tr ++ ev).
Hypothesis T' : ∀ t, 0 <= t < 2 ^ 31 → term_inv n t cl' (tr ++ ev).
Hypothesis Hticks : length (cl_ticks cl) = n.

Definition next_safe : Prop :=
  ∃ G', history n H' G' (cl_nodes cl') (tr ++ ev) ∧ safe n G' cl' (tr ++ ev).

Lemma next_quiet G' :
  history n H G' (cl_nodes cl') tr → safe n G' cl' (tr ++ ev) → voteless ev → leaderless ev → next_safe.
Proof. intros Hh' SF' Hv Hl. exists G'. split; [|done]. apply history_events; [by eapply history_more|done|done]. Qed.

Lemma next_idle :
  ev = [] → cl_nodes cl' = cl_nodes cl → cl_elections cl' = cl_elections cl →
  (∀ k t, cl_tasks cl' !! k = Some (Some t) →
     cl_tasks cl !! k = Some (Some t) ∨ task_safe n G (cl_elections cl) tr t) → next_safe.
Proof.
  intros Hev En Ee Ht. apply (next_quiet G); [by rewrite En| |rewrite Hev; apply Forall_nil_2|rewrite Hev; intros b t; apply not_elem_of_nil].
  rewrite Hev. by eapply safe_idle.
Qed.

(** The state of a node after the step is in order. *)
Lemma new_log a rf' : cl_nodes cl' !! a = Some rf' → H' (rf_log rf').
Proof. intros Ha. by apply (no_log _ _ _ _ _ (li_nodes _ _ _ _ I' a rf' Ha)). Qed.

Lemma next_heartbeat k a s term now :
  cl_tasks cl !! k = Some (Some (HeartbeatTo a s term)) → run_task cl k (HeartbeatTo a s term) now = Some (cl', ev) → fresh cl (RunTask k now) = true → next_safe.
Proof.
  intros Hk Hs Hfresh. simpl in Hs.
  simpl in Hfresh. rewrite Hk in Hfresh.
  pose proof (log_inv_logs_ok _ _ _ _ I) as O. pose proof (log_inv_logs_ok _ _ _ _ I') as O'.
  pose proof (T 0 ltac:(lia)) as T0. pose proof (unique_leaders_app _ _ Hu) as Hu0.
  destruct (cl_nodes cl !! a) as [rf|] eqn:Ha; [|done]. simpl in Hs.
  destruct (value _) as [args|] eqn:E; [|done]. apply value_Some in E. simpl in Hs. injection Hs as Hcl Hev.
  apply next_idle; rewrite <-?Hcl; try done. simpl. intros j t [Hj|Hj]%set_task_lookup; [by left|right].
  destruct args as [args|]; [|done]. injection Hj as <-.
  assert (rf_state rf = Leader) as Hl
    by (unfold append_args in E; destruct (bool_decide_reflect (rf_state rf = Leader)); done).
  rewrite bool_decide_eq_true_2 in Hfresh by done. cbn [negb orb] in Hfresh. apply Z.eqb_eq in Hfresh as <-.
  destruct (li_tasks _ _ _ _ I k _ Hk) as (_ & _ & Hsn).
  split; [done|]. exists (rf_log rf). by apply (append_args_sent n H G cl tr a rf s).
Qed.

Lemma next_append k a s args now :
  cl_tasks cl !! k = Some (Some (AppendCall a s args)) → run_task cl k (AppendCall a s args) now = Some (cl', ev) → next_safe.
Proof.
  intros Hk Hs. simpl in Hs.
  pose proof (log_inv_logs_ok _ _ _ _ I) as O. pose proof (log_inv_logs_ok _ _ _ _ I') as O'.
  pose proof (T 0 ltac:(lia)) as T0. pose proof (unique_leaders_app _ _ Hu) as Hu0.
  destruct (cl_nodes cl !! s) as [rf|] eqn:Ha; [|done]. simpl in Hs.
  destruct (value _) as [[rf' r]|] eqn:E; [|done]. apply value_Some in E. simpl in Hs.
  apply append_rpc_spec in E as (reply & E & ->). simpl in Hs. injection Hs as Hcl Hev.
  destruct (li_tasks _ _ _ _ I k _ Hk) as (K1 & K2 & _).
  assert (leaderless ev) as Hl by (rewrite <-Hev; intros b t Hb; by apply list_elem_of_singleton in Hb).
  destruct (append_step n H' G cl cl' tr ev k a s args rf now rf' reply
    (mkAppendReply (s32 (ar_Term reply)) (ar_Success reply) (s32 (ar_ConflictIndex reply)) (s32 (ar_ConflictTerm reply))))
    as [Hh' SF']; try (by rewrite <-Hcl); try done.
  - by eapply logs_ok_back.
  - by eapply history_more.
  - intros b t. by apply (leader_term n H cl tr I T0).
  - apply (new_log s). rewrite <-Hcl. simpl. apply list_lookup_insert_eq. by eapply lookup_lt_Some.
  - by rewrite <-Hev.
  - exists (observe G s rf'). split; [|done]. apply history_events; [done| |done]. rewrite <-Hev. by repeat constructor.
Qed.

Lemma next_reply k a s args reply now :
  cl_tasks cl !! k = Some (Some (AppendBack a s args reply)) → run_task cl k (AppendBack a s args reply) now = Some (cl', ev) → fresh cl (RunTask k now) = true → next_safe.
Proof.
  intros Hk Hs Hfresh. simpl in Hs.
  simpl in Hfresh. rewrite Hk in Hfresh.
  pose proof (log_inv_logs_ok _ _ _ _ I) as O. pose proof (log_inv_logs_ok _ _ _ _ I') as O'.
  pose proof (T 0 ltac:(lia)) as T0. pose proof (unique_leaders_app _ _ Hu) as Hu0.
  destruct (cl_nodes cl !! a) as [rf|] eqn:Ha; [|done]. simpl in Hs. injection Hs as Hcl Hev.
  destruct (reply_step n H G cl cl' tr k a s args reply rf) as [Hh' SF']; try (by rewrite <-Hcl); try done.
  - intros Hok. rewrite Hok in Hfresh. by apply Z.eqb_eq in Hfresh.
  - apply (next_quiet _ Hh'); rewrite <-Hev; [done|apply Forall_nil_2|intros b t; apply not_elem_of_nil].
Qed.

Lemma next_vote k e s args now :
  cl_tasks cl !! k = Some (Some (VoteCall e s args)) → run_task cl k (VoteCall e s args) now = Some (cl', ev) → next_safe.
Proof.
  intros Hk Hs. simpl in Hs.
  pose proof (log_inv_logs_ok _ _ _ _ I) as O. pose proof (log_inv_logs_ok _ _ _ _ I') as O'.
  pose proof (T 0 ltac:(lia)) as T0. pose proof (unique_leaders_app _ _ Hu) as Hu0.
  destruct (cl_nodes cl !! s) as [rf|] eqn:Ha; [|done]. simpl in Hs.
  destruct (value _) as [[rf' r]|] eqn:E; [|done]. apply value_Some in E. simpl in Hs.
  apply vote_rpc_spec in E as (reply & E & ->). simpl in Hs. injection Hs as Hcl Hev.
  destruct (vote_step n H G cl cl' tr k e s args rf now rf' reply
    (mkVoteReply (s32 (vr_Term reply)) (vr_VoteGranted reply))) as [Hh' SF']; try (by rewrite <-Hcl); try done.
  exists (observe G s rf'). rewrite <-Hev. split; [by eapply history_more|done].
Qed.

Lemma next_count k e s reply now :
  cl_tasks cl !! k = Some (Some (VoteBack e s reply)) → run_task cl k (VoteBack e s reply) now = Some (cl', ev) → next_safe.
Proof.
  intros Hk Hs. simpl in Hs.
  pose proof (log_inv_logs_ok _ _ _ _ I) as O. pose proof (log_inv_logs_ok _ _ _ _ I') as O'.
  pose proof (T 0 ltac:(lia)) as T0. pose proof (unique_leaders_app _ _ Hu) as Hu0.
  destruct (cl_elections cl !! e) as [el|] eqn:He; [|done]. simpl in Hs.
  destruct (cl_nodes cl !! el_cand el) as [rf|] eqn:Ha; [|done]. simpl in Hs.
  destruct (on_vote_reply _ _ _ _) as [[rf' votes] won] eqn:E. destruct won; injection Hs as Hcl Hev.
  - destruct (on_vote_reply_won _ _ _ _ _ _ E) as [Eu _]. rewrite Eu in Hev.
    pose proof (li_elections _ _ _ _ I e el He) as H1.
    destruct (on_vote_reply_spec _ _ _ _ _ _ _ E) as (_ & _ & Hle & _).
    assert (0 <= el_term el < 2 ^ 31) as Hsm.
    { assert (cl_nodes cl' !! el_cand el = Some rf') as Hx
        by (rewrite <-Hcl; simpl; apply list_lookup_insert_eq; by eapply lookup_lt_Some).
      pose proof (no_term _ _ _ _ _ (li_nodes _ _ _ _ I' _ _ Hx)). lia. }
    pose proof I' as J. pose proof (T' _ Hsm) as TU. pose proof Hu as Hu'. rewrite <-Hev in TU, Hu', O'.
    exists (observe (win G (el_term el) (rf_log rf)) (el_cand el) rf'). rewrite <-Hev. split.
    + apply (win_history n H H' G cl cl' tr e reply el rf rf' votes I Hh SF Hu' HH O' TU He Ha E). by rewrite <-Hcl.
    + by apply (win_safe n H G cl cl' tr k e reply el rf rf' votes I T0 Hh SF Hu' He Ha E); rewrite <-Hcl.
  - destruct (count_step n H G cl cl' tr k e s reply el rf rf' votes) as [Hh' SF']; try (by rewrite <-Hcl); try done.
    apply (next_quiet _ Hh'); rewrite <-Hev; [done|apply Forall_nil_2|intros b t; apply not_elem_of_nil].
Qed.

Lemma run_task_safe k t now :
  cl_tasks cl !! k = Some (Some t) → run_task cl k t now = Some (cl', ev) → fresh cl (RunTask k now) = true → next_safe.
Proof.
  intros Hk Hs Hfresh. destruct t as [a|a s term|a s args|a s args reply|e s args|e s reply].
  - simpl in Hs. destruct (cl_nodes cl !! a) as [rf|] eqn:Ha; [|done]. simpl in Hs.
    destruct (bool_decide _); injection Hs as Hcl Hev; apply next_idle; rewrite <-?Hcl; try done; simpl.
    + intros j t [[Hj|]%set_task_lookup|Hj]%spawn_lookup; [by left|done|right].
      by apply list_elem_of_fmap in Hj as (x & -> & _).
    + intros j t [Hj|]%set_task_lookup; [by left|done].
  - by eapply next_heartbeat.
  - by eapply next_append.
  - by eapply next_reply.
  - by eapply next_vote.
  - by eapply next_count.
Qed.

Lemma next_submit a command : do_action cl (Submit a command) = Some (cl', ev) → next_safe.
Proof.
  intros Hs. simpl in Hs. assert (leaderless []) as Hnil by (intros b t; apply not_elem_of_nil).
  pose proof (log_inv_logs_ok _ _ _ _ I) as O. pose proof (log_inv_logs_ok _ _ _ _ I') as O'.
  pose proof (T 0 ltac:(lia)) as T0. pose proof (unique_leaders_app _ _ Hu) as Hu0.
  destruct (cl_nodes cl !! a) as [rf|] eqn:Ha; [|done]. simpl in Hs. injection Hs as Hcl Hev.
  destruct (bool_decide_reflect (rf_state rf = Leader)) as [Hl|Hl].
  - assert (fst (Start rf command) = set_trigger (set_log rf (rf_log rf ++ [mkLogEntry (len (rf_log rf)) (rf_currentTerm rf) command])) true)
      as Hst by (unfold Start; by rewrite bool_decide_eq_true_2).
    rewrite Hst in Hcl. rewrite <-Hev, app_nil_r in O'.
    assert (H' (rf_log rf ++ [mkLogEntry (len (rf_log rf)) (rf_currentTerm rf) command])) as HL.
    { eapply (new_log a (set_trigger (set_log rf _) true)). rewrite <-Hcl. simpl.
      apply list_lookup_insert_eq. by eapply lookup_lt_Some. }
    eexists. rewrite <-Hev. split.
    + rewrite app_nil_r, <-Hcl. by apply (command_history n H H' G cl tr a rf command I Hh SF).
    + rewrite <-Hcl. by apply (command_safe n H G cl tr a rf command I Hh SF).
  - assert (fst (Start rf command) = rf) as Hst by (unfold Start; by rewrite bool_decide_eq_false_2).
    rewrite Hst in Hcl. pose proof (sf_nodes _ _ _ _ SF a rf Ha) as Hns.
    destruct (keep_step n H G cl cl' tr ev a rf rf) as [Hh' SF']; try (by rewrite <-Hcl); try done;
      [by rewrite <-Hev|apply Hns|rewrite <-Hcl; by left|]. apply (next_quiet _ Hh' SF'); rewrite <-Hev; [apply Forall_nil_2|done].
Qed.

Lemma next_replicate a : do_action cl (Replicate a) = Some (cl', ev) → next_safe.
Proof.
  intros Hs. simpl in Hs. assert (leaderless []) as Hnil by (intros b t; apply not_elem_of_nil).
  pose proof (log_inv_logs_ok _ _ _ _ I) as O. pose proof (log_inv_logs_ok _ _ _ _ I') as O'.
  pose proof (T 0 ltac:(lia)) as T0. pose proof (unique_leaders_app _ _ Hu) as Hu0.
  destruct (cl_nodes cl !! a) as [rf|] eqn:Ha; [|done]. simpl in Hs. destruct (rf_triggerCh rf); [|done].
  rewrite replicator_ok in Hs. simpl in Hs. injection Hs as Hcl Hev. pose proof (sf_nodes _ _ _ _ SF a rf Ha) as Hns.
  assert (rf_log (replicated rf) = rf_log rf ∧ rf_commitIndex (replicated rf) = rf_commitIndex rf ∧
    rf_lastApplied (replicated rf) = rf_lastApplied rf ∧ rf_nextIndex (replicated rf) = rf_nextIndex rf ∧
    rf_matchIndex (replicated rf) = rf_matchIndex rf ∧ rf_currentTerm (replicated rf) = rf_currentTerm rf ∧
    rf_state (replicated rf) = rf_state rf) as (E1 & E2 & E3 & E4 & E5 & E6 & E7)
    by (unfold replicated, persisted; by destruct (0 <? _)).
  destruct (keep_step n H G cl cl' tr ev a rf (replicated rf)) as [Hh' SF']; try (by rewrite <-Hcl); try done;
    rewrite ?E4, ?E5, ?E6, ?E7; try done; [by rewrite <-Hev|apply Hns| |].
  - rewrite <-Hcl. simpl. intros j t [Hj|Hj]%(spawn_lookup _ [_]); [by left|right]. apply list_elem_of_singleton in Hj as ->.
    simpl. rewrite <-(ti_len _ _ _ _ T0). by eapply lookup_lt_Some.
  - apply (next_quiet _ Hh' SF'); rewrite <-Hev; [apply Forall_nil_2|done].
Qed.

Lemma next_apply a : do_action cl (Apply a) = Some (cl', ev) → next_safe.
Proof.
  intros Hs. simpl in Hs. assert (leaderless []) as Hnil by (intros b t; apply not_elem_of_nil).
  pose proof (log_inv_logs_ok _ _ _ _ I) as O. pose proof (log_inv_logs_ok _ _ _ _ I') as O'.
  pose proof (T 0 ltac:(lia)) as T0. pose proof (unique_leaders_app _ _ Hu) as Hu0.
  destruct (cl_nodes cl !! a) as [rf|] eqn:Ha; [|done]. simpl in Hs. destruct (rf_commitCh rf); [|done].
  destruct (value _) as [[rf' es]|] eqn:E; [|done]. apply value_Some in E. simpl in Hs. injection Hs as Hcl Hev.
  pose proof (sf_nodes _ _ _ _ SF a rf Ha) as Hns.
  assert (rf_log rf' = rf_log rf ∧ rf_currentTerm rf' = rf_currentTerm rf) as [E1 E2].
  { revert E. unfold applier. cbv zeta. destruct (_ <=? _); [|destruct (collect _ _ _ _); cbn [mbind outcome_bind]; [|done..]];
      by intros [= <- _]. }
  apply (next_quiet (observe G a rf')).
  - rewrite <-Hcl. apply (keep_observe n H G (cl_nodes cl) tr a rf); [done|done|apply Hns|done|lia|done].
  - eapply (safe_observe n H G cl cl' tr ev a rf rf'); try (by rewrite <-Hcl); try done; [lia| |..].
    + intros b Hb. rewrite <-Hev. unfold applied. simpl. by rewrite (proj2 (Nat.eqb_neq b a)).
    + rewrite <-Hev. eapply applier_node; [|done]. eapply (node_safe_mono n H G); [apply observe_le|done..].
    + rewrite <-Hcl. by left.
  - rewrite <-Hev. by repeat constructor.
  - rewrite <-Hev. intros b t Hb. by apply list_elem_of_singleton in Hb.
Qed.

Lemma action_safe act : do_action cl act = Some (cl', ev) → fresh cl act = true → next_safe.
Proof.
  intros Hs Hfresh. pose proof (log_inv_logs_ok _ _ _ _ I) as O. pose proof (log_inv_logs_ok _ _ _ _ I') as O'.
  pose proof (unique_leaders_app _ _ Hu) as Hu0. pose proof (T 0 ltac:(lia)) as T0.
  assert (leaderless []) as Hnil by (intros b t; apply not_elem_of_nil).
  destruct act as [a now timeout|a now|k now|k|a command|a|a]; simpl in Hs.
  - destruct (cl_nodes cl !! a); [|done]. injection Hs as Hcl Hev. apply next_idle; rewrite <-?Hcl; try done. by left.
  - destruct (cl_ticks cl !! a) as [[| |]|] eqn:Hta; simpl in Hs; [| | |done].
    + injection Hs as Hcl Hev. apply next_idle; rewrite <-?Hcl; try done. simpl.
      intros j t [Hj|Hj]%(spawn_lookup _ [_]); [by left|right]. apply list_elem_of_singleton in Hj as ->. simpl.
      rewrite <-Hticks. by eapply lookup_lt_Some.
    + destruct (elect_step n H G cl tr a now cl' ev TickNone I Hh SF Hs) as (G' & Hh' & SF').
      exists G'. split; [by eapply history_more|done].
    + injection Hs as Hcl Hev. apply next_idle; rewrite <-?Hcl; try done. by left.
  - destruct (cl_tasks cl !! k) as [[t|]|] eqn:Hk; simpl in Hs; [|done..]. by apply (run_task_safe k t now).
  - injection Hs as Hcl Hev. apply next_idle; rewrite <-?Hcl; try done. simpl. intros j t [?|?]%set_task_lookup; [by left|done].
  - by apply (next_submit a command).
  - by apply (next_replicate a).
  - by apply (next_apply a).
Qed.
End cluster_step.
