(* ===== verification/RaftSafety.v ===== *)
(** * State machine safety

    What the cluster guarantees when terms have one leader, counters fit in
    32 bits, and the goroutines of [sendHeartBeats] act only in the term in
    which they were started: no two nodes apply different entries at the same
    index, what is committed is in the log of every later leader, what a node
    applied stays in its log, and no handler panics. *)

From stdpp Require Import base list gmap.
From Stdlib Require Import ZArith Lia.
From S2P Require Import Prelude RaftWal Raft RaftNode RaftApi RaftCluster RaftElection RaftLog RaftHistory RaftSteps.

Lemma reach_ticks n cl tr : reach n cl tr → length (cl_ticks cl) = n.
Proof.
  induction 1 as [|cl tr act cl' ev _ IH Ha]; [apply length_replicate|]. by rewrite (ticks_step _ _ _ _ Ha).
Qed.

Lemma reach_safe n cl tr :
  Z.of_nat n <= 2 ^ 31 → reach_fresh n cl tr → unique_leaders tr → safe_inv n cl tr.
Proof.
  intros Hn. induction 1 as [|cl tr act cl' ev Hr IH Ha Hs Hf]; intros U; [apply start_safe|].
  destruct IH as (H & G & I & Hh & SF); [by eapply unique_leaders_app|].
  pose proof (reach_small_reach _ _ _ (reach_fresh_small _ _ _ Hr)) as Hreach.
  assert (∀ t, 0 <= t < 2 ^ 31 → term_inv n t cl tr) as T by (intros t Ht; by apply reach_inv).
  destruct (action_log_inv n H cl tr act cl' ev Hn I (T 0 ltac:(lia)) U Hs Ha) as (H' & HH & I').
  destruct (action_safe n H H' G cl cl' tr ev Hn I T Hh SF U HH I') with (act := act) as (G' & Hh' & SF'); try done.
  - intros t Ht. eapply cluster_step_inv; [done|done|by apply T|done].
  - by eapply reach_ticks.
  - by exists H', G'.
Qed.

(** The nodes of a reachable cluster. *)
Lemma reach_node n cl tr a :
  Z.of_nat n <= 2 ^ 31 → reach_fresh n cl tr → (a < n)%nat → ∃ rf, cl_nodes cl !! a = Some rf.
Proof.
  intros Hn Hr Ha. apply lookup_lt_is_Some_2. pose proof (reach_small_reach _ _ _ (reach_fresh_small _ _ _ Hr)) as Hreach.
  by rewrite (ti_len _ _ _ _ (reach_inv n 0 Hn ltac:(lia) _ _ Hreach)).
Qed.

Lemma agree_drop {A} (l k : list A) i : agree l k → agree (drop i l) (drop i k).
Proof.
  assert (∀ x y : list A, x `prefix_of` y → drop i x `prefix_of` drop i y) as Hp.
  { intros x y [r ->]. rewrite drop_app. by eexists. }
  intros [?|?]; [left|right]; auto.
Qed.

(** What a node applied is committed. *)
Lemma applied_committed n G tr a rf :
  node_safe n G tr a rf →
  applied tr a = drop 1 (take (S (Z.to_nat (rf_lastApplied rf))) (rf_log rf)) ∧
  committed n G (rf_currentTerm rf) (take (S (Z.to_nat (rf_lastApplied rf))) (rf_log rf)).
Proof.
  intros Hns. split; [rewrite (ns_applied _ _ _ _ _ Hns); by rewrite take_drop_commute|].
  eapply committed_prefix; [|apply Hns]. apply take_prefix_le. unfold fixed. lia.
Qed.

(** Two nodes apply the same entries in the same order. *)
Lemma applied_agree n cl tr a b :
  reach_fresh n cl tr → Z.of_nat n <= 2 ^ 31 → unique_leaders tr → (a < n)%nat → (b < n)%nat →
  agree (applied tr a) (applied tr b).
Proof.
  intros Hr Hn U Ha Hb. destruct (reach_safe n cl tr Hn Hr U) as (H & G & I & Hh & SF).
  destruct (reach_node n cl tr a Hn Hr Ha) as [rfa Hrfa]. destruct (reach_node n cl tr b Hn Hr Hb) as [rfb Hrfb].
  pose proof (log_inv_logs_ok _ _ _ _ I) as O.
  destruct (applied_committed _ _ _ _ _ (sf_nodes _ _ _ _ SF a rfa Hrfa)) as [-> Ca].
  destruct (applied_committed _ _ _ _ _ (sf_nodes _ _ _ _ SF b rfb Hrfb)) as [-> Cb].
  apply (agree_drop _ _ 1). by eapply committed_agree.
Qed.


(** C6. Leader completeness: in every run of a cluster in which no term had two
    leaders, terms and positions fit in 32 bits, goroutines of [sendHeartBeats]
    act only in their own term and no node restarts, what a node has committed
    (the entries up to its commit index, which is within its log) is in the
    log of every leader of the same or a later term. *)
Theorem leader_completeness n cl tr a b rfa rfb :
  reach_fresh n cl tr → Z.of_nat n <= 2 ^ 31 → unique_leaders tr →
  cl_nodes cl !! a = Some rfa → cl_nodes cl !! b = Some rfb →
  rf_state rfb = Leader → rf_currentTerm rfa <= rf_currentTerm rfb →
  0 <= rf_commitIndex rfa < len (rf_log rfa) ∧
  take (S (Z.to_nat (rf_commitIndex rfa))) (rf_log rfa) `prefix_of` rf_log rfb.
Proof.
  intros Hr Hn U Ha Hb Hl Ht. destruct (reach_safe n cl tr Hn Hr U) as (H & G & I & Hh & SF).
  pose proof (log_inv_logs_ok _ _ _ _ I) as O.
  pose proof (sf_nodes _ _ _ _ SF a rfa Ha) as Na. pose proof (sf_nodes _ _ _ _ SF b rfb Hb) as Nb.
  destruct (ns_bounds _ _ _ _ _ Na) as [B1 _]. split; [done|].
  destruct (hs_event _ _ _ _ _ Hh b _ (no_event _ _ _ _ _ (li_nodes _ _ _ _ I b rfb Hb) Hl)) as [Lw Hw].
  trans (take (S (Z.to_nat (fixed rfa))) (rf_log rfa)); [apply take_prefix_le; unfold fixed; lia|].
  destruct (ns_commit _ _ _ _ _ Na) as [Hp|(T & L & HT & Hp & Hc)].
  - trans [sentinel]; [done|]. eapply known_sentinel; [done|done|apply Nb].
  - trans L; [done|]. rewrite (ns_lead _ _ _ _ _ Nb Hl). eapply chosen_in_log; [done|done|exact Hw|lia].
Qed.

(** C18. Applied entries stay: in every run of a cluster in which no term had two
    leaders, terms and positions fit in 32 bits, goroutines of [sendHeartBeats]
    act only in their own term and no node restarts (a restarted node has lost
    its sentinel, [restart_shifts_log]), the log of a node always starts with
    the sentinel and the entries it has applied, in order, so an entry given to
    the store is never removed from the log or replaced. *)
Theorem applied_stays n cl tr a rf :
  reach_fresh n cl tr → Z.of_nat n <= 2 ^ 31 → unique_leaders tr → cl_nodes cl !! a = Some rf →
  mkLogEntry 0 0 [] :: applied tr a `prefix_of` rf_log rf ∧ len (applied tr a) = rf_lastApplied rf.
Proof.
  intros Hr Hn U Ha. destruct (reach_safe n cl tr Hn Hr U) as (H & G & I & Hh & SF).
  pose proof (sf_nodes _ _ _ _ SF a rf Ha) as Ns. destruct (ns_bounds _ _ _ _ _ Ns) as [_ B].
  destruct (li_ok _ _ _ _ I _ (no_log _ _ _ _ _ (li_nodes _ _ _ _ I a rf Ha))) as (H0 & _).
  rewrite (ns_applied _ _ _ _ _ Ns). destruct (rf_log rf) as [|x l]; [done|]. injection H0 as ->. simpl. split.
  - apply prefix_cons, prefix_take.
  - rewrite len_take. rewrite len_cons in B. change (drop 0 l) with l. lia.
Qed.

(** ** No handler panics *)

Lemma append_args_ok rf term s :
  rf_log rf ≠ [] → (rf_state rf = Leader → 1 <= map_get (rf_nextIndex rf) s) → ∃ r, append_args rf term s = Ok r.
Proof.
  intros Hne Hx. unfold append_args. destruct (bool_decide_reflect (rf_state rf = Leader)) as [Hl|]; [|by eexists].
  cbn [negb]. cbv zeta. specialize (Hx Hl). set (x := map_get _ _) in *. rewrite (proj2 (Z.ltb_ge (x - 1) 0)) by lia.
  assert (∃ r, (if x - 1 <? len (rf_log rf) then e ← index (rf_log rf) (x - 1); Ok (le_Term e) else Ok 0) = Ok r) as [t ->].
  { destruct (Z.ltb_spec (x - 1) (len (rf_log rf))); [|by eexists].
    destruct (lookup_lt_is_Some_2 (rf_log rf) (Z.to_nat (x - 1))) as [e He]; [unfold len in *; lia|].
    rewrite (proj2 (index_lookup (rf_log rf) (x - 1) e ltac:(lia)) He). by eexists. }
  destruct (Z.ltb_spec x (len (rf_log rf))); [|by eexists].
  rewrite slice_ok; [by eexists|lia|..]; destruct (Z.ltb_spec (len (rf_log rf)) (x + 100)); lia.
Qed.

Lemma AppendEntries_ok rf args now : 0 <= aa_PrevLogIndex args → ∃ x, AppendEntries rf args now = Ok x.
Proof.
  intros Hp. unfold AppendEntries. destruct (_ <? _); [by eexists|]. cbv zeta.
  change (rf_log (persistState _)) with (rf_log rf).
  destruct (Z.ltb_spec (len (rf_log rf) - 1) (aa_PrevLogIndex args)) as [|Hle]; [by eexists|].
  destruct (lookup_lt_is_Some_2 (rf_log rf) (Z.to_nat (aa_PrevLogIndex args))) as [e He]; [unfold len in *; lia|].
  rewrite (proj2 (index_lookup _ _ e Hp) He). cbn [mbind outcome_bind]. destruct (negb _); [by eexists|].
  destruct (merge_entries_spec (rf_log rf) (aa_PrevLogIndex args + 1) (aa_Entries args) ltac:(lia)) as (l & _ & -> & _).
  cbn [mbind outcome_bind]. rewrite persist_if. by eexists.
Qed.

Lemma last_index_ok {A} (l : list A) : l ≠ [] → ∃ e, index l (len l - 1) = Ok e.
Proof.
  intros Hl. destruct (lookup_lt_is_Some_2 l (Z.to_nat (len l - 1))) as [e He];
    [destruct l; [done|unfold len; simpl; lia]|].
  exists e. apply index_lookup; [|done]. destruct l; [done|unfold len; simpl; lia].
Qed.

Lemma RequestVote_ok rf args now : rf_log rf ≠ [] → ∃ x, RequestVote rf args now = Ok x.
Proof.
  intros Hl. unfold RequestVote. destruct (_ <? _); [by eexists|]. cbv zeta.
  set (rf1 := if rf_currentTerm rf <? va_Term args then _ else rf).
  assert (rf_log rf1 = rf_log rf) as -> by (unfold rf1; by destruct (_ <? _)).
  destruct (last_index_ok (rf_log rf) Hl) as [e ->]. cbn [mbind outcome_bind]. destruct (_ && _); by eexists.
Qed.

Lemma startElection_ok rf now : rf_log rf ≠ [] → ∃ x, startElection rf now = Ok x.
Proof.
  intros Hl. unfold startElection. cbv zeta. cbn [persistState set_wal set_reset set_term_state rf_log].
  destruct (last_index_ok (rf_log rf) Hl) as [e ->]. by eexists.
Qed.

Lemma applier_ok rf :
  0 <= rf_lastApplied rf → rf_commitIndex rf < len (rf_log rf) → ∃ x, applier rf = Ok x.
Proof.
  intros H1 H2. unfold applier. cbn [set_commit rf_commitIndex rf_lastApplied rf_log].
  destruct (Z.leb_spec (rf_commitIndex rf) (rf_lastApplied rf)); [by eexists|].
  rewrite collect_spec by lia. by eexists.
Qed.


(** ** A run that commits and applies *)

Fixpoint run_fresh (cl : Cluster) (acts : list action) : option (Cluster * list event) :=
  match acts with
  | [] => Some (cl, [])
  | act :: acts' =>
      if fresh cl act then
        '(cl, ev) ← do_action cl act;
        if small cl then '(cl, evs) ← run_fresh cl acts'; Some (cl, ev ++ evs) else None
      else None
  end.

Lemma run_fresh_reach n acts cl tr cl' ev :
  reach_fresh n cl tr → run_fresh cl acts = Some (cl', ev) → reach_fresh n cl' (tr ++ ev).
Proof.
  revert cl tr ev. induction acts as [|act acts IH]; intros cl tr ev Hr; simpl.
  { intros [= <- <-]. by rewrite app_nil_r. }
  destruct (fresh cl act) eqn:Ef; [|done]. destruct (do_action cl act) as [[cl1 ev1]|] eqn:E; [|done]. simpl.
  destruct (small cl1) eqn:Es; [|done].
  destruct (run_fresh cl1 acts) as [[cl2 ev2]|] eqn:E2; [|done]. intros [= <- <-].
  rewrite app_assoc. eapply IH; [|done]. by eapply reach_fresh_step.
Qed.

(** Node 0 is elected, replicates an entry to node 2, commits and applies it;
    its next heartbeat lets node 2 apply it too. *)
Definition commit_acts : list action :=
  one_leader_acts ++ [RunTask 7 1040; Apply 0; ReadTick 0 1100 900; ActTick 0 1100; RunTask 8 1101;
    RunTask 10 1102; RunTask 10 1103; Apply 2].
Definition commit_run : Cluster * list event :=
  default (start_cluster 3, []) (run_fresh (start_cluster 3) commit_acts).
Definition commit_node (a : nat) : Raft := default (Make 3 0 [] 0) (cl_nodes (fst commit_run) !! a).

Lemma commit_run_reach : reach_fresh 3 (fst commit_run) (snd commit_run).
Proof.
  assert (run_fresh (start_cluster 3) commit_acts = Some (fst commit_run, snd commit_run)) as Hrun.
  { rewrite <-surjective_pairing. unfold commit_run. apply default_Some. vm_compute. reflexivity. }
  rewrite <-(app_nil_l (snd commit_run)).
  exact (run_fresh_reach 3 commit_acts (start_cluster 3) [] (fst commit_run) (snd commit_run) (reach_fresh_start 3) Hrun).
Qed.

Lemma commit_run_unique : unique_leaders (snd commit_run).
Proof. apply unique_check_sound. vm_compute. reflexivity. Qed.

Lemma commit_run_lookup a : (a < 3)%nat → cl_nodes (fst commit_run) !! a = Some (commit_node a).
Proof.
  intros Ha. unfold commit_node. destruct (cl_nodes (fst commit_run) !! a) eqn:E; [done|].
  apply lookup_ge_None in E. assert (length (cl_nodes (fst commit_run)) = 3%nat) by (vm_compute; reflexivity). lia.
Qed.


Lemma leader_completeness_witness :
  rf_commitIndex (commit_node 2) = 1 ∧ take 2 (rf_log (commit_node 2)) `prefix_of` rf_log (commit_node 0).
Proof.
  assert (rf_commitIndex (commit_node 2) = 1) as Hc by (vm_compute; reflexivity). split; [exact Hc|].
  change 2%nat with (S (Z.to_nat 1)). rewrite <-Hc at 1.
  apply (leader_completeness 3 (fst commit_run) (snd commit_run) 2 0 (commit_node 2) (commit_node 0)).
  - apply commit_run_reach.
  - discriminate.
  - apply commit_run_unique.
  - apply commit_run_lookup. lia.
  - apply commit_run_lookup. lia.
  - vm_compute. reflexivity.
  - vm_compute. discriminate.
Defined.

Lemma applied_stays_witness : len (applied (snd commit_run) 2) = rf_lastApplied (commit_node 2) ∧ rf_lastApplied (commit_node 2) = 1.
Proof.
  split; [|vm_compute; reflexivity].
  apply (applied_stays 3 (fst commit_run) (snd commit_run) 2 (commit_node 2));
    [apply commit_run_reach|discriminate|apply commit_run_unique|apply commit_run_lookup; lia].
Defined.

