(* ===== verification/KvClient.v ===== *)
(** * kv/store.go: clients of a node

    One node in full: the Raft state, the storage engine, the loop that
    applies committed entries ([readAppliedLogs]) and the goroutines of
    [Store.Put], which share the map [notifyChans] and a pool of result
    channels.  Every step is one critical section or one channel operation.
    [json.Marshal] and [json.Unmarshal] are parameters. *)

From stdpp Require Import base list gmap.
From Stdlib Require Import ZArith Lia.
From S2P Require Import Prelude GoFile Arena Wal GoDir Compact MemTable KvStore RaftWal Raft.

Record OpResult := mkOpResult { or_Value : bytes; or_Err : option error }.

(** Where a call of [Put] is; channels are numbers. *)
Inductive put_phase :=
| Put_started (index : Z)
| Put_waiting (index : Z) (ch : nat)
| Put_timeout (index : Z) (ch : nat)
| Put_drain (ch : nat) (result : option error)
| Put_pool (ch : nat) (result : option error)
| Put_done (result : option error).

(** [readAppliedLogs]: waiting for an entry, or about to tell its client. *)
Inductive log_phase := Log_idle | Log_notify (index : Z) (res : OpResult).

(** [nd_apply] are the entries the applier still has to send on [applyCh];
    [nd_chans] holds the buffer (of capacity one) of every channel made, and
    [nd_pool] the channels in [opResultPool]. *)
Record Node := mkNode {
  nd_raft : Raft;
  nd_store : Store;
  nd_apply : list LogEntry;
  nd_logs : log_phase;
  nd_notify : gmap Z nat;
  nd_chans : list (option OpResult);
  nd_pool : list nat;
  nd_clients : list put_phase
}.

Definition with_raft (nd : Node) (rf : Raft) : Node :=
  mkNode rf (nd_store nd) (nd_apply nd) (nd_logs nd) (nd_notify nd) (nd_chans nd) (nd_pool nd) (nd_clients nd).
Definition with_client (nd : Node) (c : nat) (p : put_phase) : Node :=
  mkNode (nd_raft nd) (nd_store nd) (nd_apply nd) (nd_logs nd) (nd_notify nd) (nd_chans nd) (nd_pool nd)
    (<[c := p]> (nd_clients nd)).
Definition with_chans (nd : Node) (chans : list (option OpResult)) : Node :=
  mkNode (nd_raft nd) (nd_store nd) (nd_apply nd) (nd_logs nd) (nd_notify nd) chans (nd_pool nd) (nd_clients nd).
Definition with_notify (nd : Node) (m : gmap Z nat) : Node :=
  mkNode (nd_raft nd) (nd_store nd) (nd_apply nd) (nd_logs nd) m (nd_chans nd) (nd_pool nd) (nd_clients nd).
Definition with_pool (nd : Node) (pool : list nat) : Node :=
  mkNode (nd_raft nd) (nd_store nd) (nd_apply nd) (nd_logs nd) (nd_notify nd) (nd_chans nd) pool (nd_clients nd).

(** What a run shows: calls that got an index, entries applied with the
    result of [applyInternal], calls that returned. *)
Inductive node_event :=
| NE_start (c : nat) (index : Z) (cmd : raftCmd)
| NE_applied (index : Z) (cmd : raftCmd) (err : option error)
| NE_done (c : nat) (result : option error).

(** The inputs of the node's Raft part. *)
Inductive raft_input :=
| In_vote (args : RequestVoteArgs) (now : Z)
| In_append (args : AppendEntriesArgs) (now : Z)
| In_append_reply (server : Z) (args : AppendEntriesArgs) (reply : AppendEntriesReply)
| In_vote_reply (term votes : Z) (reply : RequestVoteReply)
| In_elect (now : Z)
| In_replicate.

Definition raft_handle (rf : Raft) (i : raft_input) : option Raft :=
  match i with
  | In_vote args now => match RequestVote rf args now with Ok (rf, _) => Some rf | _ => None end
  | In_append args now => match AppendEntries rf args now with Ok (rf, _) => Some rf | _ => None end
  | In_append_reply server args reply => Some (on_append_reply rf server args reply)
  | In_vote_reply term votes reply => let '(rf, _, _) := on_vote_reply rf term votes reply in Some rf
  | In_elect now => match startElection rf now with Ok (rf, _) => Some rf | _ => None end
  | In_replicate => match replicator rf with Ok rf => Some rf | _ => None end
  end.

Inductive node_action :=
| A_raft (i : raft_input)
| A_apply                          (* the applier on a signal *)
| A_deliver (openErr : option error)  (* readAppliedLogs takes an entry *)
| A_notify                         (* ... and tells the client *)
| A_put (cmd : raftCmd)            (* a new call of Put *)
| A_register (c : nat) (reuse : option nat)
| A_receive (c : nat)
| A_timeout (c : nat)
| A_unregister (c : nat)
| A_drain (c : nat)
| A_return (c : nat).

Section node.
Context (json_Marshal : raftCmd → bytes) (json_Unmarshal : bytes → option raftCmd).

(** [readAppliedLogs] on one entry; a command that does not parse is skipped. *)
Definition deliver (nd : Node) (openErr : option error) : option (Node * list node_event) :=
  match nd_logs nd, nd_apply nd with
  | Log_idle, e :: es =>
      match json_Unmarshal (le_Command e) with
      | None =>
          Some (mkNode (nd_raft nd) (nd_store nd) es Log_idle (nd_notify nd) (nd_chans nd) (nd_pool nd)
                  (nd_clients nd), [])
      | Some cmd =>
          let '(s, r) := apply_cmd (nd_store nd) cmd openErr in
          err ← match r with Ok _ => Some None | Err er => Some (Some er) | Panic => None end;
          Some (mkNode (nd_raft nd) s es (Log_notify (le_Index e) (mkOpResult (c_Value cmd) err))
                  (nd_notify nd) (nd_chans nd) (nd_pool nd) (nd_clients nd),
                [NE_applied (le_Index e) cmd err])
      end
  | _, _ => None
  end.

(** The client of the index, if there is one, gets the result; the send
    blocks when the channel's buffer is full. *)
Definition notify (nd : Node) : option (Node * list node_event) :=
  match nd_logs nd with
  | Log_idle => None
  | Log_notify index res =>
      let idle (nd : Node) := mkNode (nd_raft nd) (nd_store nd) (nd_apply nd) Log_idle (nd_notify nd)
                                (nd_chans nd) (nd_pool nd) (nd_clients nd) in
      match nd_notify nd !! index with
      | None => Some (idle nd, [])
      | Some ch =>
          match nd_chans nd !! ch with
          | Some None =>
              Some (idle (with_notify (with_chans nd (<[ch := Some res]> (nd_chans nd)))
                            (delete index (nd_notify nd))), [])
          | _ => None
          end
      end
  end.

(** [Put] up to the answer of [Start]. *)
Definition put_call (nd : Node) (cmd : raftCmd) : Node * list node_event :=
  let c := length (nd_clients nd) in
  let '(rf, (index, _, isLeader)) := Start (nd_raft nd) (json_Marshal cmd) in
  let nd := mkNode rf (nd_store nd) (nd_apply nd) (nd_logs nd) (nd_notify nd) (nd_chans nd) (nd_pool nd)
              (nd_clients nd ++ [if isLeader : bool then Put_started index else Put_done (Some ErrNotLeader)]) in
  (nd, if isLeader then [NE_start c index cmd] else [NE_done c (Some ErrNotLeader)]).

(** A channel from the pool, or a new one. *)
Definition take_chan (nd : Node) (reuse : option nat) : option (Node * nat) :=
  match reuse with
  | None => Some (with_chans nd (nd_chans nd ++ [None]), length (nd_chans nd))
  | Some i => ch ← nd_pool nd !! i; Some (with_pool nd (delete i (nd_pool nd)), ch)
  end.

Definition client_step (nd : Node) (act : node_action) (c : nat) (p : put_phase)
  : option (Node * list node_event) :=
  match act, p with
  | A_register _ reuse, Put_started index =>
      '(nd, ch) ← take_chan nd reuse;
      Some (with_client (with_notify nd (<[index := ch]> (nd_notify nd))) c (Put_waiting index ch), [])
  | A_receive _, Put_waiting index ch =>
      match nd_chans nd !! ch with
      | Some (Some res) =>
          Some (with_client (with_chans nd (<[ch := None]> (nd_chans nd))) c (Put_drain ch (or_Err res)), [])
      | _ => None
      end
  | A_timeout _, Put_waiting index ch => Some (with_client nd c (Put_timeout index ch), [])
  | A_unregister _, Put_timeout index ch =>
      Some (with_client (with_notify nd (delete index (nd_notify nd))) c (Put_drain ch (Some ErrTimeout)), [])
  | A_drain _, Put_drain ch r =>
      Some (with_client (with_chans nd (<[ch := None]> (nd_chans nd))) c (Put_pool ch r), [])
  | A_return _, Put_pool ch r =>
      Some (with_client (with_pool nd (ch :: nd_pool nd)) c (Put_done r), [NE_done c r])
  | _, _ => None
  end.

Definition node_step (nd : Node) (act : node_action) : option (Node * list node_event) :=
  match act with
  | A_raft i => rf ← raft_handle (nd_raft nd) i; Some (with_raft nd rf, [])
  | A_apply =>
      match nd_apply nd with
      | [] =>
          if rf_commitCh (nd_raft nd) then
            match applier (nd_raft nd) with
            | Ok (rf, es) =>
                Some (mkNode rf (nd_store nd) es (nd_logs nd) (nd_notify nd) (nd_chans nd) (nd_pool nd)
                        (nd_clients nd), [])
            | _ => None
            end
          else None
      | _ => None
      end
  | A_deliver openErr => deliver nd openErr
  | A_notify => notify nd
  | A_put cmd => Some (put_call nd cmd)
  | A_register c _ | A_receive c | A_timeout c | A_unregister c | A_drain c | A_return c =>
      p ← nd_clients nd !! c; client_step nd act c p
  end.

Definition start_node (rf : Raft) (s : Store) : Node := mkNode rf s [] Log_idle ∅ [] [] [].

Fixpoint node_run (nd : Node) (acts : list node_action) : option (Node * list node_event) :=
  match acts with
  | [] => Some (nd, [])
  | act :: acts' =>
      '(nd, ev) ← node_step nd act;
      '(nd, evs) ← node_run nd acts';
      Some (nd, ev ++ evs)
  end.

(** What a node can reach, with the events so far. *)
Inductive node_reach (rf : Raft) (s : Store) : Node → list node_event → Prop :=
| node_reach_start : node_reach rf s (start_node rf s) []
| node_reach_step nd tr act nd' ev :
    node_reach rf s nd tr → node_step nd act = Some (nd', ev) → node_reach rf s nd' (tr ++ ev).
End node.

(** * The invariant *)

Definition phase_chan (p : put_phase) : option nat :=
  match p with
  | Put_waiting _ ch | Put_timeout _ ch | Put_drain ch _ | Put_pool ch _ => Some ch
  | _ => None
  end.

Definition phase_index (p : put_phase) : option Z :=
  match p with Put_started i | Put_waiting i _ | Put_timeout i _ => Some i | _ => None end.

(** The channel a call may be registered under, with its index. *)
Definition phase_registered (p : put_phase) : option (Z * nat) :=
  match p with Put_waiting i ch | Put_timeout i ch => Some (i, ch) | _ => None end.

Definition phase_result (p : put_phase) : option (option error) :=
  match p with Put_drain _ r | Put_pool _ r | Put_done r => Some r | _ => None end.

(** Every channel has one owner, and one that is registered, in the pool or
    about to return there is empty; every result comes from an entry applied
    at the index the call got. *)
Record node_inv (nd : Node) (tr : list node_event) : Prop := {
  ni_clients c c' p p' ch : nd_clients nd !! c = Some p → nd_clients nd !! c' = Some p' →
    phase_chan p = Some ch → phase_chan p' = Some ch → c = c';
  ni_nodup : NoDup (nd_pool nd);
  ni_pool ch : ch ∈ nd_pool nd → nd_chans nd !! ch = Some None ∧
    ∀ c p, nd_clients nd !! c = Some p → phase_chan p ≠ Some ch;
  ni_made c p ch : nd_clients nd !! c = Some p → phase_chan p = Some ch → (ch < length (nd_chans nd))%nat;
  ni_notify i ch : nd_notify nd !! i = Some ch → nd_chans nd !! ch = Some None ∧
    ∃ c p, nd_clients nd !! c = Some p ∧ phase_registered p = Some (i, ch);
  ni_return c ch r : nd_clients nd !! c = Some (Put_pool ch r) → nd_chans nd !! ch = Some None;
  ni_logs i res : nd_logs nd = Log_notify i res → ∃ cmd, NE_applied i cmd (or_Err res) ∈ tr;
  ni_full c p i ch res : nd_clients nd !! c = Some p → phase_registered p = Some (i, ch) →
    nd_chans nd !! ch = Some (Some res) → ∃ cmd, NE_applied i cmd (or_Err res) ∈ tr;
  ni_start c p i : nd_clients nd !! c = Some p → phase_index p = Some i → ∃ cmd, NE_start c i cmd ∈ tr;
  ni_result c p : nd_clients nd !! c = Some p → phase_result p = Some None →
    ∃ i cmd cmd', NE_start c i cmd ∈ tr ∧ NE_applied i cmd' None ∈ tr
}.

Lemma node_inv_mono nd tr ev : node_inv nd tr → node_inv nd (tr ++ ev).
Proof.
  intros []. split; try done.
  - intros i res H. destruct (ni_logs0 i res H) as [cmd ?]. exists cmd. rewrite elem_of_app. by left.
  - intros c p i ch res H1 H2 H3. destruct (ni_full0 c p i ch res H1 H2 H3) as [cmd ?]. exists cmd.
    rewrite elem_of_app. by left.
  - intros c p i H1 H2. destruct (ni_start0 c p i H1 H2) as [cmd ?]. exists cmd. rewrite elem_of_app. by left.
  - intros c p H1 H2. destruct (ni_result0 c p H1 H2) as (i & cmd & cmd' & ? & ?). exists i, cmd, cmd'.
    rewrite !elem_of_app. auto.
Qed.

Lemma lookup_insert_client (cs : list put_phase) c p' c' q :
  <[c := p']> cs !! c' = Some q → (c' = c ∧ q = p') ∨ (c' ≠ c ∧ cs !! c' = Some q).
Proof.
  intros H. destruct (decide (c = c')) as [<-|Hne]; [left|right].
  - pose proof (lookup_lt_Some _ _ _ H) as Hlt. rewrite length_insert in Hlt.
    rewrite list_lookup_insert_eq in H by done. by injection H.
  - by rewrite list_lookup_insert_ne in H.
Qed.

Lemma registered_chan p i ch : phase_registered p = Some (i, ch) → phase_chan p = Some ch ∧ phase_index p = Some i.
Proof. destruct p; simpl; naive_solver. Qed.

(** A client moves on, keeping its channel and index; results come with a
    justification. *)
Lemma with_client_inv nd tr c p p' :
  node_inv nd tr → nd_clients nd !! c = Some p → phase_chan p' = phase_chan p →
  (phase_registered p' = None ∨ phase_registered p' = phase_registered p) →
  (phase_registered p' = None → ∀ i ch, phase_registered p = Some (i, ch) → nd_notify nd !! i ≠ Some ch) →
  (phase_index p' = None ∨ phase_index p' = phase_index p) →
  (∀ ch r, p' = Put_pool ch r → nd_chans nd !! ch = Some None) →
  (phase_result p' = Some None → ∃ i cmd cmd', NE_start c i cmd ∈ tr ∧ NE_applied i cmd' None ∈ tr) →
  node_inv (with_client nd c p') tr.
Proof.
  intros [] Hc Hch Hreg Hun Hidx Hpool Hres. split; simpl; try done.
  - intros c1 c2 p1 p2 ch [[-> ->]|[H1 H1']]%lookup_insert_client [[-> ->]|[H2 H2']]%lookup_insert_client;
      rewrite ?Hch; eauto.
  - intros ch Hin. destruct (ni_pool0 ch Hin) as [H1 H2]. split; [done|].
    intros c1 p1 [[-> ->]|[? ?]]%lookup_insert_client; rewrite ?Hch; eauto.
  - intros c1 p1 ch [[-> ->]|[? ?]]%lookup_insert_client; rewrite ?Hch; eauto.
  - intros i ch Hn. destruct (ni_notify0 i ch Hn) as (H1 & c1 & p1 & H2 & H3). split; [done|].
    destruct (decide (c = c1)) as [<-|Hne].
    + assert (p1 = p) as -> by congruence. exists c, p'.
      rewrite list_lookup_insert_eq by (by eapply lookup_lt_Some). split; [done|].
      destruct Hreg as [Hreg|Hreg]; [by destruct (Hun Hreg i ch H3)|congruence].
    + exists c1, p1. by rewrite list_lookup_insert_ne.
  - intros c1 ch r [[-> H]|[? ?]]%lookup_insert_client; eauto.
  - intros c1 p1 i ch res [[-> ->]|[? ?]]%lookup_insert_client; [|eauto].
    destruct Hreg as [->| ->]; [done|eauto].
  - intros c1 p1 i [[-> ->]|[? ?]]%lookup_insert_client; [|eauto].
    destruct Hidx as [->| ->]; [done|eauto].
  - intros c1 p1 [[-> ->]|[? ?]]%lookup_insert_client; eauto.
Qed.

(** The channel of a call that registers is empty and belongs to nobody. *)
Lemma take_chan_inv nd tr reuse nd' ch :
  node_inv nd tr → take_chan nd reuse = Some (nd', ch) →
  node_inv nd' tr ∧ nd_clients nd' = nd_clients nd ∧ nd_chans nd' !! ch = Some None ∧ ch ∉ nd_pool nd' ∧
  ∀ c p, nd_clients nd !! c = Some p → phase_chan p ≠ Some ch.
Proof.
  intros [] Ht. destruct reuse as [i|]; simpl in Ht.
  - destruct (nd_pool nd !! i) as [ch'|] eqn:Hi; [|done]. injection Ht as <- <-. simpl.
    assert (ch' ∈ nd_pool nd) as Hin by (by eapply list_elem_of_lookup_2).
    destruct (ni_pool0 ch' Hin) as [H1 H2].
    pose proof (delete_Permutation _ _ _ Hi) as Hp. pose proof ni_nodup0 as Hnd. rewrite Hp in Hnd.
    apply NoDup_cons in Hnd as [Hnot Hnd].
    split_and!; [|done|done|done|done]. split; simpl; try done.
    intros ch Hch. apply ni_pool0. rewrite Hp. by right.
  - injection Ht as <- <-. simpl.
    assert (∀ ch x, nd_chans nd !! ch = Some x → (nd_chans nd ++ [None]) !! ch = Some x) as Hold
      by (intros; by apply lookup_app_l_Some).
    assert (∀ c p, nd_clients nd !! c = Some p → phase_chan p ≠ Some (length (nd_chans nd))) as Hno.
    { intros c p Hc Hch. specialize (ni_made0 c p _ Hc Hch). lia. }
    split_and!; [|done|by apply list_lookup_middle| |done].
    + split; simpl; try done.
      * intros ch Hin. destruct (ni_pool0 ch Hin). eauto.
      * intros c p ch Hc Hch. rewrite length_app. specialize (ni_made0 c p ch Hc Hch). simpl. lia.
      * intros i ch Hn. destruct (ni_notify0 i ch Hn). eauto.
      * eauto.
      * intros c p i ch res Hc Hr Hch. eapply ni_full0; [done..|].
        rewrite lookup_app_l in Hch; [done|]. eapply ni_made0; [done|]. by eapply registered_chan.
    + intros Hin. destruct (ni_pool0 _ Hin) as [H _]. apply lookup_lt_Some in H. lia.
Qed.

Lemma register_inv nd tr c index ch :
  node_inv nd tr → nd_clients nd !! c = Some (Put_started index) → nd_chans nd !! ch = Some None →
  ch ∉ nd_pool nd → (∀ c p, nd_clients nd !! c = Some p → phase_chan p ≠ Some ch) →
  node_inv (with_client (with_notify nd (<[index := ch]> (nd_notify nd))) c (Put_waiting index ch)) tr.
Proof.
  intros [] Hc Hch Hpool Hno. split; simpl; try done.
  - intros c1 c2 p1 p2 ch0 [[-> ->]|[H1 H1']]%lookup_insert_client [[-> ->]|[H2 H2']]%lookup_insert_client; simpl;
      intros E1 E2; simplify_eq; [done|by destruct (Hno _ _ H2')|by destruct (Hno _ _ H1')|eauto].
  - intros ch0 Hin. destruct (ni_pool0 ch0 Hin) as [H1 H2]. split; [done|].
    intros c1 p1 [[-> ->]|[? ?]]%lookup_insert_client; simpl; [naive_solver|eauto].
  - intros c1 p1 ch0 [[-> ->]|[? ?]]%lookup_insert_client; simpl; [|eauto].
    intros [= <-]. by eapply lookup_lt_Some.
  - intros i ch0 [[-> <-]|[Hi Hn]]%lookup_insert_Some.
    + split; [done|]. exists c, (Put_waiting i ch). by rewrite list_lookup_insert_eq by (by eapply lookup_lt_Some).
    + destruct (ni_notify0 i ch0 Hn) as (H1 & c1 & p1 & H2 & H3). split; [done|]. exists c1, p1.
      rewrite list_lookup_insert_ne; [done|]. intros <-. by assert (p1 = Put_started index) as -> by congruence.
  - intros c1 ch0 r [[-> H]|[? ?]]%lookup_insert_client; [done|eauto].
  - intros c1 p1 i ch0 res [[-> ->]|[? ?]]%lookup_insert_client; simpl; [|eauto]. intros [= -> ->]. congruence.
  - intros c1 p1 i [[-> ->]|[? ?]]%lookup_insert_client; simpl; [|eauto]. intros [= ->]. eauto.
  - intros c1 p1 [[-> ->]|[? ?]]%lookup_insert_client; [done|eauto].
Qed.

(** Emptying the channel of a call. *)
Lemma empty_chan_inv nd tr ch : node_inv nd tr → (ch < length (nd_chans nd))%nat →
  node_inv (with_chans nd (<[ch := None]> (nd_chans nd))) tr.
Proof.
  intros [] Hlt.
  assert (∀ ch0, nd_chans nd !! ch0 = Some None → <[ch := None]> (nd_chans nd) !! ch0 = Some None) as Hkeep.
  { intros ch0 H. destruct (decide (ch = ch0)) as [<-|]; [by apply list_lookup_insert_eq|by rewrite list_lookup_insert_ne]. }
  split; simpl; try done.
  - intros ch0 Hin. destruct (ni_pool0 ch0 Hin). eauto.
  - intros c p ch0. rewrite length_insert. eauto.
  - intros i ch0 Hn. destruct (ni_notify0 i ch0 Hn). eauto.
  - eauto.
  - intros c p i ch0 res Hc Hr Hf. eapply ni_full0; [done..|].
    destruct (decide (ch = ch0)) as [<-|]; [by rewrite list_lookup_insert_eq in Hf|by rewrite list_lookup_insert_ne in Hf].
Qed.

(** A registered channel gets its result and is no longer registered. *)
Lemma notify_inv nd tr nd' ev : node_inv nd tr → notify nd = Some (nd', ev) → node_inv nd' (tr ++ ev).
Proof.
  intros I Hn. unfold notify in Hn. destruct (nd_logs nd) as [|index res] eqn:Hl; [done|].
  destruct (nd_notify nd !! index) as [ch|] eqn:Hi.
  2: { injection Hn as <- <-. rewrite app_nil_r. destruct I. split; done. }
  destruct (nd_chans nd !! ch) as [[|]|] eqn:Hc; [done| |done]. injection Hn as <- <-. rewrite app_nil_r.
  pose proof (lookup_lt_Some _ _ _ Hc) as Hlt. destruct I.
  destruct (ni_notify0 index ch Hi) as (_ & c0 & p0 & Hc0 & Hp0).
  assert (∀ ch0, ch0 ≠ ch → <[ch := Some res]> (nd_chans nd) !! ch0 = nd_chans nd !! ch0) as Hne
    by (intros; by apply list_lookup_insert_ne).
  assert (∀ c p, nd_clients nd !! c = Some p → phase_chan p = Some ch → c = c0 ∧ p = p0) as Hown.
  { intros c p Hcp Hch. assert (c = c0) as -> by (eapply ni_clients0; [done..|by eapply registered_chan]).
    by simplify_eq. }
  split; simpl; try done.
  - intros ch0 Hin. destruct (ni_pool0 ch0 Hin) as [H1 H2]. split; [|done]. rewrite Hne; [done|].
    intros ->. eapply H2; [done|]. by eapply registered_chan.
  - intros c p ch0. rewrite length_insert. eauto.
  - intros i ch0 [Hii Hno]%lookup_delete_Some. destruct (ni_notify0 i ch0 Hno) as (H1 & c1 & p1 & H2 & H3).
    split; [|by exists c1, p1]. rewrite Hne; [done|]. intros ->.
    destruct (Hown c1 p1 H2) as [-> ->]; [by eapply registered_chan|]. congruence.
  - intros c ch0 r Hcl. rewrite Hne; [by eapply ni_return0|]. intros ->. destruct (Hown _ _ Hcl eq_refl) as [-> <-]. done.
  - intros c p i ch0 res0 Hcl Hr. destruct (decide (ch0 = ch)) as [->|Hd].
    + rewrite list_lookup_insert_eq by done. intros [= <-].
      destruct (Hown c p Hcl) as [-> ->]; [by eapply registered_chan|].
      assert (i = index) as -> by congruence. by apply ni_logs0.
    + rewrite Hne by done. by eapply ni_full0.
Qed.

Lemma delete_notify_inv nd tr i : node_inv nd tr → node_inv (with_notify nd (delete i (nd_notify nd))) tr.
Proof. intros []. split; simpl; try done. intros j ch [_ H]%lookup_delete_Some. by apply ni_notify0. Qed.

(** The channel goes back to the pool. *)
Lemma return_inv nd tr c ch r :
  node_inv nd tr → nd_clients nd !! c = Some (Put_pool ch r) →
  node_inv (with_client (with_pool nd (ch :: nd_pool nd)) c (Put_done r)) tr.
Proof.
  intros [] Hc. split; simpl; try done.
  - intros c1 c2 p1 p2 ch0 [[-> ->]|[H1 H1']]%lookup_insert_client [[-> ->]|[H2 H2']]%lookup_insert_client; simpl;
      [done..|eauto].
  - apply NoDup_cons. split; [|done]. intros Hin. destruct (ni_pool0 ch Hin) as [_ H]. by eapply H.
  - intros ch0 [->|Hin]%elem_of_cons.
    + split; [by eapply ni_return0|]. intros c1 p1 [[-> ->]|[H1 H2]]%lookup_insert_client; [done|].
      intros Hch. by destruct (ni_clients0 c1 c p1 (Put_pool ch r) ch H2 Hc Hch eq_refl).
    + destruct (ni_pool0 ch0 Hin) as [H1 H2]. split; [done|].
      intros c1 p1 [[-> ->]|[? ?]]%lookup_insert_client; [done|eauto].
  - intros c1 p1 ch0 [[-> ->]|[? ?]]%lookup_insert_client; [done|eauto].
  - intros i ch0 Hn. destruct (ni_notify0 i ch0 Hn) as (H1 & c1 & p1 & H2 & H3). split; [done|]. exists c1, p1.
    rewrite list_lookup_insert_ne; [done|]. intros <-. simplify_eq.
  - intros c1 ch0 r0 [[-> H]|[? ?]]%lookup_insert_client; [done|eauto].
  - intros c1 p1 i ch0 res [[-> ->]|[? ?]]%lookup_insert_client; [done|eauto].
  - intros c1 p1 i [[-> ->]|[? ?]]%lookup_insert_client; [done|eauto].
  - intros c1 p1 [[-> ->]|[? ?]]%lookup_insert_client; [|eauto]. intros Hr. by apply (ni_result0 c _ Hc).
Qed.

(** A new call without a channel. *)
Lemma new_client_inv nd tr p rf :
  node_inv nd tr → phase_chan p = None → phase_result p ≠ Some None →
  (∀ i, phase_index p = Some i → ∃ cmd, NE_start (length (nd_clients nd)) i cmd ∈ tr) →
  node_inv (mkNode rf (nd_store nd) (nd_apply nd) (nd_logs nd) (nd_notify nd) (nd_chans nd) (nd_pool nd)
              (nd_clients nd ++ [p])) tr.
Proof.
  intros [] Hch Hres Hidx.
  assert (∀ c q, (nd_clients nd ++ [p]) !! c = Some q →
    nd_clients nd !! c = Some q ∨ (c = length (nd_clients nd) ∧ q = p)) as Hl.
  { intros c q [H|[H1 H2]]%lookup_app_Some; [by left|right].
    apply list_lookup_singleton_Some in H2 as [H2 <-]. split; [lia|done]. }
  split; simpl; try done.
  - intros c1 c2 p1 p2 ch [H1|[-> ->]]%Hl [H2|[-> ->]]%Hl; [eauto|congruence..].
  - intros ch Hin. destruct (ni_pool0 ch Hin) as [H1 H2]. split; [done|].
    intros c q [H|[-> ->]]%Hl; [eauto|congruence].
  - intros c q ch [H|[-> ->]]%Hl; [eauto|congruence].
  - intros i ch Hn. destruct (ni_notify0 i ch Hn) as (H1 & c & q & H2 & H3). split; [done|]. exists c, q.
    split; [by apply lookup_app_l_Some|done].
  - intros c ch r [H|[-> <-]]%Hl; [eauto|done].
  - intros c q i ch res [H|[-> ->]]%Hl; [eauto|]. intros [? _]%registered_chan. congruence.
  - intros c q i [H|[-> ->]]%Hl; eauto.
  - intros c q [H|[-> ->]]%Hl; [eauto|done].
Qed.

Lemma client_step_inv nd tr act c p nd' ev :
  node_inv nd tr → nd_clients nd !! c = Some p → client_step nd act c p = Some (nd', ev) →
  node_inv nd' (tr ++ ev).
Proof.
  intros I Hc Hs. apply node_inv_mono.
  destruct act, p as [index|index ch|index ch|ch r|ch r|r]; simpl in Hs; try done.
  - destruct (take_chan nd reuse) as [[nd1 ch]|] eqn:E; [|done]. injection Hs as <- <-.
    destruct (take_chan_inv _ _ _ _ _ I E) as (I1 & Hcl & H1 & H2 & H3).
    apply register_inv; rewrite ?Hcl; done.
  - destruct (nd_chans nd !! ch) as [[res|]|] eqn:Hch; [|done..]. injection Hs as <- <-.
    change (node_inv (with_chans (with_client nd c (Put_drain ch (or_Err res))) (<[ch:=None]> (nd_chans nd))) tr).
    apply (empty_chan_inv (with_client nd c _)); [|by eapply lookup_lt_Some].
    eapply with_client_inv; [done|done|done|by left| |by left|done|].
    + intros _ i ch0 [= <- <-] Hn. destruct (ni_notify _ _ I _ _ Hn) as [H _]. congruence.
    + intros [= Hr]. destruct (ni_start _ _ I c _ index Hc eq_refl) as [cmd Hcmd].
      destruct (ni_full _ _ I c _ index ch res Hc eq_refl Hch) as [cmd' Hcmd'].
      exists index, cmd, cmd'. by rewrite Hr in Hcmd'.
  - injection Hs as <- <-. eapply with_client_inv; [done|done|done|by right|done|by right|done|done].
  - injection Hs as <- <-. eapply with_client_inv; [by apply delete_notify_inv|done|done|by left| |by left|done|done].
    intros _ i ch0 [= <- <-]. simpl. by rewrite lookup_delete_eq.
  - injection Hs as <- <-. pose proof (ni_made _ _ I c _ ch Hc eq_refl) as Hlt.
    eapply with_client_inv; [by apply empty_chan_inv|done|done|by left|done|by left| |].
    + intros ch0 r0 [= <- <-]. by apply list_lookup_insert_eq.
    + intros Hr. by apply (ni_result _ _ I c _ Hc).
  - injection Hs as <- <-. by apply return_inv.
Qed.

Section node_theorems.
Context (json_Marshal : raftCmd → bytes) (json_Unmarshal : bytes → option raftCmd).
Local Abbreviation node_step := (node_step json_Marshal json_Unmarshal).
Local Abbreviation node_reach := (node_reach json_Marshal json_Unmarshal).

Lemma deliver_inv nd tr openErr nd' ev :
  node_inv nd tr → deliver json_Unmarshal nd openErr = Some (nd', ev) → node_inv nd' (tr ++ ev).
Proof.
  intros I Hd. unfold deliver in Hd. destruct (nd_logs nd) eqn:Hl; [|done].
  destruct (nd_apply nd) as [|e es]; [done|]. destruct (json_Unmarshal _) as [cmd|].
  2: { injection Hd as <- <-. rewrite app_nil_r. destruct I. split; done. }
  destruct (apply_cmd _ _ _) as [s r].
  destruct (match r with Ok _ => Some None | Err er => Some (Some er) | Panic => None end) as [err|]; [|done].
  cbn [mbind option_bind] in Hd. injection Hd as <- <-. apply (node_inv_mono _ _ [NE_applied (le_Index e) cmd err]) in I.
  destruct I. split; try done. simpl. intros i res [= <- <-]. exists cmd. simpl.
  rewrite elem_of_app, list_elem_of_singleton. by right.
Qed.

Lemma node_step_inv nd tr act nd' ev : node_inv nd tr → node_step nd act = Some (nd', ev) → node_inv nd' (tr ++ ev).
Proof.
  intros I.
  assert (∀ c, match nd_clients nd !! c with Some p => client_step nd act c p | None => None end = Some (nd', ev) →
    node_inv nd' (tr ++ ev)) as Hclient.
  { intros c. destruct (nd_clients nd !! c) as [p|] eqn:Hc; [|done]. by apply client_step_inv. }
  destruct act as [i| |openErr| |cmd|c reuse|c|c|c|c|c]; try exact (Hclient c); clear Hclient; simpl.
  - destruct (raft_handle _ _); [|done]. intros [= <- <-]. rewrite app_nil_r. destruct I. split; done.
  - destruct (nd_apply nd); [|done]. destruct (rf_commitCh _); [|done]. destruct (applier _) as [[rf es]| |]; [|done..].
    intros [= <- <-]. rewrite app_nil_r. destruct I. split; done.
  - by apply deliver_inv.
  - by apply notify_inv.
  - unfold put_call. destruct (Start _ _) as [rf [[index term] isLeader]]. intros [= <- <-].
    apply new_client_inv; [by apply node_inv_mono|by destruct isLeader|by destruct isLeader|].
    destruct isLeader; [|done]. simpl. intros i [= <-]. exists cmd. rewrite elem_of_app, list_elem_of_singleton. by right.
Qed.

Lemma node_reach_inv rf s nd tr : node_reach rf s nd tr → node_inv nd tr.
Proof.
  induction 1 as [|nd tr act nd' ev _ IH Hs]; [|by eapply node_step_inv].
  split; simpl; try done; try (by intros; rewrite ?lookup_nil in *; try done).
  - apply NoDup_nil_2.
  - intros ch H. by apply not_elem_of_nil in H.
Qed.

(** C16. [Put] only reports success for an applied entry: whenever a call has
    the result nil, the call got an index from [Start], and an entry with
    that index was applied to the store of this node without an error. *)
Theorem put_success_applied rf s nd tr c p :
  node_reach rf s nd tr → nd_clients nd !! c = Some p → phase_result p = Some None →
  ∃ i cmd cmd', NE_start c i cmd ∈ tr ∧ NE_applied i cmd' None ∈ tr.
Proof. intros H%node_reach_inv. by apply (ni_result _ _ H). Qed.

(** C17. The apply loop never waits for a client: in every reachable state in
    which it is about to send a result (holding the store's lock), the send
    goes through, since a registered channel is always empty; the pool never
    holds a channel with a stale result. *)
Theorem notify_never_blocks rf s nd tr :
  node_reach rf s nd tr →
  (nd_logs nd ≠ Log_idle → ∃ nd', node_step nd A_notify = Some (nd', []) ∧ nd_logs nd' = Log_idle) ∧
  (∀ ch, ch ∈ nd_pool nd → nd_chans nd !! ch = Some None).
Proof.
  intros I%node_reach_inv. split; [|intros ch Hin; by apply (ni_pool _ _ I)].
  intros Hl. simpl. unfold notify. destruct (nd_logs nd) as [|index res]; [done|].
  destruct (nd_notify nd !! index) as [ch|] eqn:Hn; [|by eexists].
  destruct (ni_notify _ _ I _ _ Hn) as [-> _]. by eexists.
Qed.

Lemma node_run_reach rf s nd tr acts nd' ev :
  node_reach rf s nd tr → node_run json_Marshal json_Unmarshal nd acts = Some (nd', ev) →
  node_reach rf s nd' (tr ++ ev).
Proof.
  revert nd tr ev. induction acts as [|act acts IH]; intros nd tr ev Hr; simpl.
  { intros [= <- <-]. by rewrite app_nil_r. }
  destruct (node_step nd act) as [[nd1 ev1]|] eqn:E; [|done]. cbn [mbind option_bind].
  destruct (node_run _ _ nd1 acts) as [[nd2 ev2]|] eqn:E2; [|done]. intros [= <- <-].
  rewrite app_assoc. eapply IH; [|done]. by eapply node_reach_step.
Qed.

(** The entry of index [i] reaches the call that waits for it. *)
Definition answer_call : list node_action := [A_deliver None; A_notify; A_receive 0; A_drain 0; A_return 0].

Lemma answer_call_run nd i term cmd s :
  nd_logs nd = Log_idle → nd_apply nd = [mkLogEntry i term (json_Marshal cmd)] → nd_notify nd = {[i := 0%nat]} →
  nd_chans nd = [None] → nd_clients nd = [Put_waiting i 0] → json_Unmarshal (json_Marshal cmd) = Some cmd →
  apply_cmd (nd_store nd) cmd None = (s, Ok tt) →
  ∃ nd', node_run json_Marshal json_Unmarshal nd answer_call = Some (nd', [NE_applied i cmd None; NE_done 0 None]) ∧
    nd_clients nd' = [Put_done None].
Proof.
  destruct nd as [rf st es lg nt ch pool cls]. cbn [nd_logs nd_apply nd_notify nd_chans nd_clients nd_store].
  intros -> -> -> -> -> Hu Ha. eexists. unfold answer_call, node_run, node_step.
  unfold deliver at 1. cbn [nd_logs nd_apply le_Command le_Index nd_store]. rewrite Hu, Ha.
  cbn [mbind option_bind]. unfold notify at 1. cbn [nd_logs nd_notify nd_chans]. rewrite lookup_singleton_eq.
  split; reflexivity.
Qed.

(** [Put] acknowledges by index only: a leader's call of [Put] for one
    command can return nil although only another command was applied, namely
    when a new leader replaced the entry at that index; the command itself is
    lost. *)
Theorem put_acknowledges_other_command :
  let x := mkRaftCmd OpPut [Byte.x6b] [Byte.x61] in
  let y := mkRaftCmd OpPut [Byte.x6b] [Byte.x62] in
  json_Unmarshal (json_Marshal y) = Some y →
  ∃ nd tr, node_reach (Make 3 0 [] 0) empty_store nd tr ∧ NE_start 0 1 x ∈ tr ∧ NE_done 0 None ∈ tr ∧
    nd_clients nd !! 0%nat = Some (Put_done None) ∧ ∀ i cmd err, NE_applied i cmd err ∈ tr → cmd = y.
Proof.
  intros x y Hu.
  set (call := mkAppendArgs 2 1 0 0 [mkLogEntry 1 2 (json_Marshal y)] 1).
  set (led := default (start_node (Make 3 0 [] 0) empty_store, [])
    (node_run json_Marshal json_Unmarshal (start_node (Make 3 0 [] 0) empty_store)
       [A_raft (In_elect 1); A_raft (In_vote_reply 1 1 (mkVoteReply 1 true)); A_put x; A_register 0 None])).
  assert (node_reach (Make 3 0 [] 0) empty_store (fst led) [NE_start 0 1 x]) as Hled.
  { apply (node_run_reach _ _ (start_node (Make 3 0 [] 0) empty_store) []
      [A_raft (In_elect 1); A_raft (In_vote_reply 1 1 (mkVoteReply 1 true)); A_put x; A_register 0 None]); [constructor|].
    replace [NE_start 0 1 x] with (snd led) by reflexivity. rewrite <-surjective_pairing.
    apply default_Some. reflexivity. }
  assert (∃ rf, AppendEntries (nd_raft (fst led)) call 9 = Ok (rf, mkAppendReply 2 true 0 0) ∧
    rf_commitCh rf = true ∧ ∃ rf', applier rf = Ok (rf', [mkLogEntry 1 2 (json_Marshal y)])) as (rf & Ha & Hc & rf' & Hp).
  { lazy -[persist persisted applier]. rewrite persist_ok. eexists. split; [reflexivity|]. split; [reflexivity|].
    eexists. reflexivity. }
  set (r := (mkNode rf' empty_store [mkLogEntry 1 2 (json_Marshal y)] Log_idle {[1 := 0%nat]} [None] [] [Put_waiting 1 0])).
  assert (node_reach (Make 3 0 [] 0) empty_store r [NE_start 0 1 x]) as Hr.
  { change [NE_start 0 1 x] with (([NE_start 0 1 x] ++ []) ++ []).
    eapply (node_reach_step _ _ _ _ (with_raft (fst led) rf) _ A_apply); [eapply (node_reach_step _ _ _ _ (fst led) _ (A_raft (In_append call 9))); [exact Hled|]|].
    - change (match (match AppendEntries (nd_raft (fst led)) call 9 with Ok (rf, _) => Some rf | _ => None end) with
              | Some rf => Some (with_raft (fst led) rf, @nil node_event) | None => None end = Some (with_raft (fst led) rf, [])).
      by rewrite Ha.
    - change ((if rf_commitCh rf then match applier rf with
                 | Ok (rf, es) => Some (mkNode rf empty_store es Log_idle {[1 := 0%nat]} [None] [] [Put_waiting 1 0], @nil node_event)
                 | _ => None end else None) = Some (r, [])).
      by rewrite Hc, Hp. }
  destruct (answer_call_run r 1 2 y (fst (apply_cmd empty_store y None))) as (nd' & Hrun & Hcl);
    [reflexivity|reflexivity|reflexivity|reflexivity|reflexivity|exact Hu|reflexivity|].
  exists nd', ([NE_start 0 1 x] ++ [NE_applied 1 y None; NE_done 0 None]).
  split; [by eapply node_run_reach|]. rewrite Hcl.
  split; [by apply elem_of_app; left; apply list_elem_of_singleton|].
  split; [apply (list_elem_of_lookup_2 _ 2); reflexivity|]. split; [reflexivity|].
  intros i cmd err Hin. apply elem_of_cons in Hin as [|Hin]; [done|].
  apply elem_of_cons in Hin as [[= _ <- _]|Hin]; [done|].
  apply elem_of_cons in Hin as [Hin|Hin]; [discriminate|]. by apply not_elem_of_nil in Hin.
Qed.
End node_theorems.

(** ** Concrete runs

    A marshalling for the examples: operation, key length, key, value. *)
Definition demo_marshal (c : raftCmd) : bytes :=
  byte_of_Z (match c_Op c with OpPut => 1 | OpDelete => 2 | OpOther => 0 end) ::
  byte_of_Z (len (c_Key c)) :: c_Key c ++ c_Value c.
Definition demo_unmarshal (bs : bytes) : option raftCmd :=
  match bs with
  | op :: n :: rest =>
      let k := Z.to_nat (byte_to_Z n) in
      Some (mkRaftCmd (if bool_decide (op = Byte.x01) then OpPut
                       else if bool_decide (op = Byte.x02) then OpDelete else OpOther) (take k rest) (drop k rest))
  | _ => None
  end.

Definition put_k_a : raftCmd := mkRaftCmd OpPut [Byte.x6b] [Byte.x61].

(** Node 0 is elected, takes a command, node 1 acknowledges it, it is
    committed and handed to the store; the first [n] steps of that. *)
Definition good_run (n : nat) : Node * list node_event :=
  default (start_node (Make 3 0 [] 0) empty_store, [])
    (node_run demo_marshal demo_unmarshal (start_node (Make 3 0 [] 0) empty_store)
       (take n ([A_raft (In_elect 1); A_raft (In_vote_reply 1 1 (mkVoteReply 1 true)); A_put put_k_a;
          A_register 0 None;
          A_raft (In_append_reply 1 (mkAppendArgs 1 0 0 0 [mkLogEntry 1 1 (demo_marshal put_k_a)] 0)
                    (mkAppendReply 1 true 0 0));
          A_apply] ++ answer_call))).

Lemma good_run_reach n :
  match node_run demo_marshal demo_unmarshal (start_node (Make 3 0 [] 0) empty_store)
       (take n ([A_raft (In_elect 1); A_raft (In_vote_reply 1 1 (mkVoteReply 1 true)); A_put put_k_a;
          A_register 0 None;
          A_raft (In_append_reply 1 (mkAppendArgs 1 0 0 0 [mkLogEntry 1 1 (demo_marshal put_k_a)] 0)
                    (mkAppendReply 1 true 0 0));
          A_apply] ++ answer_call)) with Some _ => true | None => false end = true →
  node_reach demo_marshal demo_unmarshal (Make 3 0 [] 0) empty_store (fst (good_run n)) (snd (good_run n)).
Proof.
  intros H. eapply (node_run_reach _ _ _ _ _ []); [constructor|]. rewrite <-surjective_pairing. by apply default_Some.
Qed.

Lemma put_success_applied_witness :
  ∃ i cmd cmd', NE_start 0 i cmd ∈ snd (good_run 11) ∧ NE_applied i cmd' None ∈ snd (good_run 11).
Proof.
  apply (put_success_applied demo_marshal demo_unmarshal (Make 3 0 [] 0) empty_store (fst (good_run 11))
           (snd (good_run 11)) 0 (Put_done None)).
  - apply good_run_reach. vm_compute. reflexivity.
  - vm_compute. reflexivity.
  - reflexivity.
Defined.

Lemma notify_never_blocks_witness :
  nd_logs (fst (good_run 7)) = Log_notify 1 (mkOpResult [Byte.x61] None) ∧
  ∃ nd', node_step demo_marshal demo_unmarshal (fst (good_run 7)) A_notify = Some (nd', []) ∧ nd_logs nd' = Log_idle.
Proof.
  split; [vm_compute; reflexivity|].
  apply (notify_never_blocks demo_marshal demo_unmarshal (Make 3 0 [] 0) empty_store (fst (good_run 7))
           (snd (good_run 7))).
  - apply good_run_reach. vm_compute. reflexivity.
  - vm_compute. discriminate.
Defined.

Lemma put_acknowledges_other_command_witness :
  ∃ nd tr, node_reach demo_marshal demo_unmarshal (Make 3 0 [] 0) empty_store nd tr ∧
    nd_clients nd !! 0%nat = Some (Put_done None) ∧ NE_done 0 None ∈ tr.
Proof.
  destruct (put_acknowledges_other_command demo_marshal demo_unmarshal ltac:(vm_compute; reflexivity))
    as (nd & tr & H1 & _ & H2 & H3 & _).
  exists nd, tr. split; [exact H1|]. split; [exact H3|exact H2].
Defined.
