(* ===== verification/KvLive.v ===== *)
(** * A whole node: client calls, Raft and the storage engine

    KvClient.v has the calls of [Store.Put] over a Raft node and a store that
    only applies commands; KvCompact.v has the store with its flushes and
    compactions.  Here they are one system: every step is a step of the node
    (a call, the Raft part, the apply loop) or of the flush worker and the
    compaction on the same store.

    KvClient.v shows that a call that succeeds had some command applied at its
    index.  Here the command is its own, in runs in which no entry of the
    node's log is replaced, as it is the case while the node leads. *)

From stdpp Require Import base list gmap.
From Stdlib Require Import ZArith Lia.
From S2P Require Import Prelude GoFile Bloom SSTable SSTReader GoDir Compact MemTable KvStore KvCompact KvGet RaftWal Raft RaftElection KvClient.

(** Entries carry their positions. *)
Definition positions (log : list LogEntry) : Prop := ∀ i e, log !! i = Some e → le_Index e = Z.of_nat i.

(** A step that does not replace entries of the log. *)
Definition keeps_log (act : node_action) (nd nd' : Node) : Prop :=
  match act with
  | A_raft (In_append _ _) =>
      rf_log (nd_raft nd) `prefix_of` rf_log (nd_raft nd') ∧ positions (rf_log (nd_raft nd'))
  | _ => True
  end.

(** The state: the node with its store, the flush worker, the time of the last
    file name, and the compaction. *)
Record Live := mkLive { lv_node : Node; lv_worker : worker; lv_clock : Z; lv_compactor : compactor }.

Definition with_store (nd : Node) (s : Store) : Node :=
  mkNode (nd_raft nd) s (nd_apply nd) (nd_logs nd) (nd_notify nd) (nd_chans nd) (nd_pool nd) (nd_clients nd).

(** The storage engine in it. *)
Definition live_csys (x : Live) : CSystem :=
  mkCSys (mkSys (nd_store (lv_node x)) (lv_worker x) (lv_clock x)) (lv_compactor x).

(** The commands that took effect, in order. *)
Definition applied_cmds (tr : list node_event) : list raftCmd :=
  omap (λ ev, match ev with NE_applied _ cmd None => Some cmd | _ => None end) tr.

(** The keys of the entries applied in a step. *)
Definition applied_keys (tr : list node_event) : list bytes :=
  omap (λ ev, match ev with NE_applied _ cmd _ => Some (c_Key cmd) | _ => None end) tr.

Section live.
Context (json_Marshal : raftCmd → bytes) (json_Unmarshal : bytes → option raftCmd).
Context (Sum64 : bytes → Z) (kmax : Z).

(** The node moves, with no fault of the disk when a table is rotated and
    keys of fewer than [kmax] bytes; or a flush or compaction does, which
    leaves the active table alone. *)
Inductive live_step : Live → list node_event → Live → Prop :=
| live_node nd w c k act nd' ev :
    node_step json_Marshal json_Unmarshal nd act = Some (nd', ev) →
    (∀ openErr, act = A_deliver openErr → openErr = None) → keeps_log act nd nd' →
    Forall (λ key, len key < kmax) (applied_keys ev) →
    live_step (mkLive nd w c k) ev (mkLive nd' w c k)
| live_storage x s w c k :
    cstep Sum64 kmax (live_csys x) None (mkCSys (mkSys s w c) k) →
    ActiveMap s = ActiveMap (nd_store (lv_node x)) →
    live_step x [] (mkLive (with_store (lv_node x) s) w c k).

Inductive live_steps : Live → list node_event → Live → Prop :=
| live_refl x : live_steps x [] x
| live_trans x tr y ev z : live_steps x tr y → live_step y ev z → live_steps x (tr ++ ev) z.

(** A call of [Get] that starts in [x] (KvGet.v), with what the node does
    between its parts; no input of a compaction is removed while the call
    reads the directory. *)
Inductive live_getting (x : Live) (key : bytes) : get_phase → list node_event → Live → Prop :=
| lgetting_start : live_getting x key G_start [] x
| lgetting_live p evs y ev z :
    live_getting x key p evs y → live_step y ev z →
    (match p with G_list | G_files _ => clears (live_csys y) (live_csys z) = false | _ => True end) →
    live_getting x key p (evs ++ ev) z
| lgetting_step p evs y p' :
    live_getting x key p evs y → get_step Sum64 (nd_store (lv_node y)) key p = Ok p' →
    live_getting x key p' evs y.
End live.

(** A call of [Put] that began and ended during [ev]: refused at once, or with
    the result of the command it started. *)
Definition answered (ev : list node_event) (cmd : raftCmd) (r : option error) : Prop :=
  r = Some ErrNotLeader ∨ ∃ c i, NE_start c i cmd ∈ ev ∧ NE_done c r ∈ ev.

(** * Lemmas *)

(** Only AppendEntries changes the log of the Raft part. *)
Lemma raft_handle_log rf i rf' :
  raft_handle rf i = Some rf' → (∀ args now, i ≠ In_append args now) → rf_log rf' = rf_log rf.
Proof.
  intros H Hi. destruct i as [args now|args now|server args reply|term votes reply|now|]; simpl in H.
  - destruct (RequestVote rf args now) as [[rf1 r]| |] eqn:E; [|done..]. injection H as <-.
    by apply RequestVote_spec in E as (_ & _ & ? & _).
  - by destruct (Hi args now).
  - injection H as <-. unfold on_append_reply. destruct (_ <? _); [done|]. destruct (ar_Success reply); [|done].
    destruct (_ <? _); apply (commit_loop_frame (set_indices _ _ _)) || apply (commit_loop_frame rf).
  - revert H. unfold on_vote_reply. destruct (_ || _); [by intros [= <-]|]. destruct (_ <? _); [by intros [= <-]|].
    destruct (vr_VoteGranted reply); [|by intros [= <-]]. cbv zeta. destruct (_ =? _); by intros [= <-].
  - destruct (startElection rf now) as [[rf1 r]| |] eqn:E; [|done..]. injection H as <-.
    by apply startElection_spec in E as (_ & _ & _ & _ & _ & ? & _).
  - rewrite replicator_ok in H. injection H as <-. unfold replicated. by rewrite persist_log.
Qed.

(** What the applier takes is in the log. *)
Lemma collect_in log fuel a c es : collect log fuel a c = Ok es → Forall (λ e, e ∈ log) es.
Proof.
  revert a es. induction fuel as [|fuel IH]; intros a es; simpl; [by intros [= <-]|].
  destruct (a <? c); [|by intros [= <-]]. destruct (index log (a + 1)) as [e| |] eqn:E; [|done..]. cbn [mbind outcome_bind].
  destruct (collect log fuel (a + 1) c) as [es'| |] eqn:Ec; [|done..]. cbn [mbind outcome_bind]. intros [= <-].
  apply Forall_cons. split; [|by eapply IH]. unfold index in E. destruct (0 <=? _); [|done].
  destruct (log !! _) eqn:El; [|done]. injection E as <-. by eapply list_elem_of_lookup_2.
Qed.

Lemma applier_in rf rf' es : applier rf = Ok (rf', es) → rf_log rf' = rf_log rf ∧ Forall (λ e, e ∈ rf_log rf) es.
Proof.
  unfold applier. cbv zeta. destruct (_ <=? _); [by intros [= <- <-]|].
  destruct (collect _ _ _ _) as [es'| |] eqn:E; [|done..]. cbn [mbind outcome_bind]. intros [= <- <-].
  split; [done|]. by eapply collect_in.
Qed.

Lemma positions_elem log e : positions log → e ∈ log → log !! Z.to_nat (le_Index e) = Some e ∧ 0 <= le_Index e.
Proof.
  intros Hp [i Hi]%list_elem_of_lookup_1. rewrite (Hp i e Hi). by rewrite Nat2Z.id; split; [|lia].
Qed.

Lemma positions_snoc log term cmd : positions log → positions (log ++ [mkLogEntry (len log) term cmd]).
Proof.
  intros Hp i e [H|[Hi H]]%lookup_app_Some; [by apply Hp|].
  apply list_lookup_singleton_Some in H as [Hi' <-]. unfold len. simpl. lia.
Qed.

(** [Start] at a node that leads. *)
Lemma Start_log rf cmd rf' i term lead :
  Start rf cmd = (rf', (i, term, lead)) →
  if lead : bool then i = len (rf_log rf) ∧ rf_log rf' = rf_log rf ++ [mkLogEntry i term cmd] else rf' = rf.
Proof. unfold Start. destruct (negb _); by intros [= <- <- <- <-]. Qed.

(** What the events say about the log and the clients. *)
Section own.
Context (json_Marshal : raftCmd → bytes) (json_Unmarshal : bytes → option raftCmd).
Local Abbreviation node_step := (node_step json_Marshal json_Unmarshal).

Record own_inv (nd : Node) (tr : list node_event) : Prop := {
  oi_pos : positions (rf_log (nd_raft nd));
  oi_apply : Forall (λ e, e ∈ rf_log (nd_raft nd)) (nd_apply nd);
  oi_applied i cmd r : NE_applied i cmd r ∈ tr →
    ∃ e, rf_log (nd_raft nd) !! Z.to_nat i = Some e ∧ json_Unmarshal (le_Command e) = Some cmd;
  oi_start c i cmd : NE_start c i cmd ∈ tr →
    ∃ e, rf_log (nd_raft nd) !! Z.to_nat i = Some e ∧ le_Command e = json_Marshal cmd;
  oi_client c i cmd : NE_start c i cmd ∈ tr → (c < length (nd_clients nd))%nat;
  oi_unique c i cmd i' cmd' : NE_start c i cmd ∈ tr → NE_start c i' cmd' ∈ tr → i = i' ∧ cmd = cmd';
  oi_done c r : NE_done c r ∈ tr → nd_clients nd !! c = Some (Put_done r)
}.

(** A step that emits at most one event. *)
Lemma own_inv_step nd tr nd' ev :
  own_inv nd tr → rf_log (nd_raft nd) `prefix_of` rf_log (nd_raft nd') → positions (rf_log (nd_raft nd')) →
  Forall (λ e, e ∈ rf_log (nd_raft nd')) (nd_apply nd') →
  (length (nd_clients nd) <= length (nd_clients nd'))%nat →
  (∀ c r, nd_clients nd !! c = Some (Put_done r) → nd_clients nd' !! c = Some (Put_done r)) →
  match ev with
  | [] => True
  | [NE_applied i cmd r] => ∃ e, rf_log (nd_raft nd') !! Z.to_nat i = Some e ∧ json_Unmarshal (le_Command e) = Some cmd
  | [NE_start c i cmd] => c = length (nd_clients nd) ∧ (c < length (nd_clients nd'))%nat ∧
      ∃ e, rf_log (nd_raft nd') !! Z.to_nat i = Some e ∧ le_Command e = json_Marshal cmd
  | [NE_done c r] => nd_clients nd' !! c = Some (Put_done r)
  | _ => False
  end →
  own_inv nd' (tr ++ ev).
Proof.
  intros [] Hpre Hpos Hap Hlen Hdone Hev.
  assert (∀ i e, rf_log (nd_raft nd) !! i = Some e → rf_log (nd_raft nd') !! i = Some e) as Hold
    by (intros; by eapply prefix_lookup_Some).
  assert (∀ x, x ∈ tr ++ ev → x ∈ tr ∨ ev = [x]) as Hin.
  { intros x [?|H]%elem_of_app; [by left|right]. destruct ev as [|y [|]]; [by apply elem_of_nil in H| |by destruct y].
    by apply list_elem_of_singleton in H as ->. }
  split; try done.
  - intros i cmd r [H| ->]%Hin; [|done]. destruct (oi_applied0 i cmd r H) as (e & ? & ?). eauto.
  - intros c i cmd [H| ->]%Hin; [|by destruct Hev as (_ & _ & ?)]. destruct (oi_start0 c i cmd H) as (e & ? & ?). eauto.
  - intros c i cmd [H| ->]%Hin; [|by destruct Hev as (_ & ? & _)]. specialize (oi_client0 c i cmd H). lia.
  - intros c i cmd i' cmd' [H| ->]%Hin [H'|E']%Hin; [by eapply oi_unique0| |..].
    + rewrite E' in Hev. destruct Hev as (-> & _). apply oi_client0 in H. lia.
    + destruct Hev as (-> & _). apply oi_client0 in H'. lia.
    + by injection E' as -> ->.
  - intros c r [H| ->]%Hin; [|done]. by apply Hdone, oi_done0.
Qed.

Lemma client_step_own nd tr act c p nd' ev :
  own_inv nd tr → nd_clients nd !! c = Some p → client_step nd act c p = Some (nd', ev) → own_inv nd' (tr ++ ev).
Proof.
  intros I Hc Hs.
  assert (∀ nd1 p', nd_raft nd1 = nd_raft nd → nd_apply nd1 = nd_apply nd → nd_clients nd1 = nd_clients nd →
    (∀ r, p ≠ Put_done r) → ev = [] ∨ (∃ r, ev = [NE_done c r] ∧ p' = Put_done r) →
    own_inv (with_client nd1 c p') (tr ++ ev)) as Hgo.
  { intros nd1 p' H1 H2 H3 Hp Hev. apply (own_inv_step nd); simpl; rewrite ?H1, ?H2, ?H3; [done| | | | | |].
    - done.
    - apply I.
    - apply I.
    - by rewrite length_insert.
    - intros c0 r0 H0. rewrite list_lookup_insert_ne; [done|]. intros <-. rewrite Hc in H0. injection H0 as ->. by eapply Hp.
    - destruct Hev as [->|(r & -> & ->)]; [done|]. apply list_lookup_insert_eq. by eapply lookup_lt_Some. }
  destruct act, p as [index|index ch|index ch|ch r|ch r|r]; simpl in Hs; try done.
  - destruct (take_chan nd reuse) as [[nd1 ch]|] eqn:E; [|done]. injection Hs as <- <-.
    assert (nd_raft nd1 = nd_raft nd ∧ nd_apply nd1 = nd_apply nd ∧ nd_clients nd1 = nd_clients nd) as (? & ? & ?).
    { revert E. unfold take_chan. destruct reuse as [j|]; [|by intros [= <- <-]].
      destruct (nd_pool nd !! j); [by intros [= <- <-]|done]. }
    apply Hgo; auto; done.
  - destruct (nd_chans nd !! ch) as [[res|]|]; [|done..]. injection Hs as <- <-.
    apply (Hgo (with_chans nd _)); auto; done.
  - injection Hs as <- <-. apply Hgo; auto; done.
  - injection Hs as <- <-. apply (Hgo (with_notify nd _)); auto; done.
  - injection Hs as <- <-. apply (Hgo (with_chans nd _)); auto; done.
  - injection Hs as <- <-. apply (Hgo (with_pool nd _)); [done..|]. right. by eexists.
Qed.

Lemma node_step_own nd tr act nd' ev :
  own_inv nd tr → node_step nd act = Some (nd', ev) → keeps_log act nd nd' → own_inv nd' (tr ++ ev).
Proof.
  intros I Hs Hk.
  assert (∀ c, match nd_clients nd !! c with Some p => client_step nd act c p | None => None end = Some (nd', ev) →
    own_inv nd' (tr ++ ev)) as Hclient.
  { intros c. destruct (nd_clients nd !! c) as [p|] eqn:Hc; [|done]. by apply client_step_own. }
  destruct act as [i| |openErr| |cmd|c reuse|c|c|c|c|c]; try exact (Hclient c Hs); clear Hclient; simpl in Hs.
  - destruct (raft_handle (nd_raft nd) i) as [rf|] eqn:E; [|done]. injection Hs as <- <-.
    assert (rf_log (nd_raft nd) `prefix_of` rf_log rf ∧ positions (rf_log rf)) as [Hp1 Hp2].
    { destruct i; try exact Hk; rewrite (raft_handle_log _ _ _ E) by done; split; [done|apply I|done|apply I|done|apply I|done|apply I|done|apply I]. }
    apply (own_inv_step nd); simpl; try done.
    eapply Forall_impl; [apply I|]. intros e He. destruct Hp1 as [l ->]. simpl in He. apply elem_of_app. by left.
  - destruct (nd_apply nd) eqn:Ha; [|done]. destruct (rf_commitCh _); [|done].
    destruct (applier (nd_raft nd)) as [[rf es]| |] eqn:E; [|done..]. injection Hs as <- <-.
    destruct (applier_in _ _ _ E) as [Hl Hes]. apply (own_inv_step nd); simpl; rewrite ?Hl; try done. apply I.
  - unfold deliver in Hs. destruct (nd_logs nd); [|done]. destruct (nd_apply nd) as [|e es] eqn:Ha; [done|].
    pose proof (oi_apply _ _ I) as Hap. rewrite Ha in Hap. apply Forall_cons in Hap as [He Hes].
    destruct (json_Unmarshal (le_Command e)) as [cmd|] eqn:Ej.
    2: { injection Hs as <- <-. by apply (own_inv_step nd); [|..|apply I| | | |]. }
    destruct (apply_cmd _ _ _) as [s r].
    destruct (match r with Ok _ => Some None | Err er => Some (Some er) | Panic => None end) as [err|]; [|done].
    injection Hs as <- <-. apply (own_inv_step nd); simpl; try done; [apply I|].
    exists e. split; [|done]. by apply (positions_elem _ _ (oi_pos _ _ I) He).
  - unfold notify in Hs. destruct (nd_logs nd) as [|index res]; [done|].
    destruct (nd_notify nd !! index) as [ch|]; [destruct (nd_chans nd !! ch) as [[|]|]; [done| |done]|];
      injection Hs as <- <-; apply (own_inv_step nd); simpl; try done; apply I.
  - unfold put_call in Hs. destruct (Start _ _) as [rf [[index term] lead]] eqn:E. injection Hs as <- <-.
    apply Start_log in E. destruct lead; [destruct E as [-> E]|subst rf]; apply (own_inv_step nd); simpl; try done.
    all: rewrite ?E, ?length_app; simpl; try lia; try apply I.
    all: try (intros c r H; by apply lookup_app_l_Some).
    + by eexists.
    + apply positions_snoc, I.
    + eapply Forall_impl; [apply I|]. intros e He. apply elem_of_app. by left.
    + split_and!; [done|lia|]. eexists. unfold len. rewrite Nat2Z.id. by split; [apply list_lookup_middle|].
    + by apply list_lookup_middle.
Qed.
End own.

(** ** The whole node *)

Section whole.
Context (json_Marshal : raftCmd → bytes) (json_Unmarshal : bytes → option raftCmd).
Context (Sum64 : bytes → Z) (kmax : Z).
Local Abbreviation node_step := (node_step json_Marshal json_Unmarshal).
Local Abbreviation live_step := (live_step json_Marshal json_Unmarshal Sum64 kmax).
Local Abbreviation live_steps := (live_steps json_Marshal json_Unmarshal Sum64 kmax).

Definition live_inv (x : Live) (tr : list node_event) : Prop :=
  node_inv (lv_node x) tr ∧ own_inv json_Marshal json_Unmarshal (lv_node x) tr.

Lemma live_step_inv x tr ev y : live_inv x tr → live_step x ev y → live_inv y (tr ++ ev).
Proof.
  intros I H. revert I. destruct H as [nd w c k act nd' ev' Hs _ Hk _|x s w c k _ _]; intros [I O].
  - split; [by eapply node_step_inv|by eapply node_step_own].
  - rewrite app_nil_r. split; [destruct I; split; assumption|destruct O; split; assumption].
Qed.

Lemma live_steps_inv x tr ev y : live_inv x tr → live_steps x ev y → live_inv y (tr ++ ev).
Proof.
  intros I H. revert I. induction H as [x|x ev y ev' z _ IH Hs]; intros I; [by rewrite app_nil_r|].
  rewrite app_assoc. eapply live_step_inv; [by apply IH|done].
Qed.

Lemma live_steps_app x ev y ev' z : live_steps x ev y → live_steps y ev' z → live_steps x (ev ++ ev') z.
Proof.
  intros H1 H2. induction H2 as [|y ev' z ev'' u _ IH Hs]; [by rewrite app_nil_r|].
  rewrite app_assoc. eapply live_trans; [by apply IH|done].
Qed.

(** A node that just started. *)
Lemma live_start_inv rf s w c k : positions (rf_log rf) → live_inv (mkLive (start_node rf s) w c k) [].
Proof.
  intros Hp. split.
  - apply (node_reach_inv json_Marshal json_Unmarshal rf s). constructor.
  - split; simpl; [done|by apply Forall_nil_2|intros; exfalso; by eapply not_elem_of_nil..].
Qed.

(** What a step does to the log and the store, and what it shows. *)
Inductive step_shape (nd : Node) : node_action → Node → list node_event → Prop :=
| shape_quiet act nd' :
    nd_store nd' = nd_store nd → rf_log (nd_raft nd') = rf_log (nd_raft nd) → step_shape nd act nd' []
| shape_append args now nd' : nd_store nd' = nd_store nd → step_shape nd (A_raft (In_append args now)) nd' []
| shape_apply openErr cmd i r s nd' err :
    apply_cmd (nd_store nd) cmd openErr = (s, r) → nd_store nd' = s → rf_log (nd_raft nd') = rf_log (nd_raft nd) →
    match r with Ok _ => err = None | Err er => err = Some er | Panic => False end →
    step_shape nd (A_deliver openErr) nd' [NE_applied i cmd err]
| shape_start act nd' c cmd term :
    nd_store nd' = nd_store nd →
    rf_log (nd_raft nd') = rf_log (nd_raft nd) ++ [mkLogEntry (len (rf_log (nd_raft nd))) term (json_Marshal cmd)] →
    step_shape nd act nd' [NE_start c (len (rf_log (nd_raft nd))) cmd]
| shape_done act nd' c r :
    nd_store nd' = nd_store nd → rf_log (nd_raft nd') = rf_log (nd_raft nd) → step_shape nd act nd' [NE_done c r].

Lemma client_step_shape nd act c p nd' ev : client_step nd act c p = Some (nd', ev) → step_shape nd act nd' ev.
Proof.
  intros Hs. destruct act, p; simpl in Hs; try done; try (injection Hs as <- <-; by constructor).
  - revert Hs. unfold take_chan. destruct reuse as [j|]; [destruct (nd_pool nd !! j); [|done]|]; intros [= <- <-]; by constructor.
  - destruct (nd_chans nd !! ch) as [[|]|]; [|done..]. injection Hs as <- <-. by constructor.
Qed.

Lemma node_step_shape nd act nd' ev : node_step nd act = Some (nd', ev) → step_shape nd act nd' ev.
Proof.
  intros Hs.
  assert (∀ c, match nd_clients nd !! c with Some p => client_step nd act c p | None => None end = Some (nd', ev) →
    step_shape nd act nd' ev) as Hclient.
  { intros c. destruct (nd_clients nd !! c) as [p|]; [|done]. apply client_step_shape. }
  destruct act as [i| |openErr| |cmd|c reuse|c|c|c|c|c]; try exact (Hclient c Hs); clear Hclient; simpl in Hs.
  - destruct (raft_handle (nd_raft nd) i) as [rf|] eqn:E; [|done]. injection Hs as <- <-.
    destruct i; try (apply shape_quiet; [done|by apply (raft_handle_log _ _ _ E)]). by apply shape_append.
  - destruct (nd_apply nd); [|done]. destruct (rf_commitCh _); [|done].
    destruct (applier _) as [[rf es]| |] eqn:E; [|done..]. injection Hs as <- <-.
    by apply shape_quiet; [|apply (applier_in _ _ _ E)].
  - unfold deliver in Hs. destruct (nd_logs nd); [|done]. destruct (nd_apply nd) as [|e es]; [done|].
    destruct (json_Unmarshal _) as [cmd|]; [|injection Hs as <- <-; by constructor].
    destruct (apply_cmd (nd_store nd) cmd openErr) as [s [[]|er|]] eqn:Ea; [| |done];
      injection Hs as <- <-; by eapply shape_apply.
  - revert Hs. unfold notify. destruct (nd_logs nd); [done|].
    destruct (nd_notify nd !! _) as [ch|]; [destruct (nd_chans nd !! ch) as [[|]|]; [done| |done]|];
      intros [= <- <-]; by constructor.
  - unfold put_call in Hs. destruct (Start _ _) as [rf [[i term] lead]] eqn:E. injection Hs as <- <-.
    apply Start_log in E. destruct lead; [destruct E as [-> E]; by eapply shape_start|subst rf; by apply shape_done].
Qed.

(** Seen from the storage engine, a step of the whole node is one of its steps
    or does nothing. *)
Lemma node_step_store nd act nd' ev w c k :
  node_step nd act = Some (nd', ev) → (∀ openErr, act = A_deliver openErr → openErr = None) →
  Forall (λ key, len key < kmax) (applied_keys ev) →
  let x := live_csys (mkLive nd w c k) in let y := live_csys (mkLive nd' w c k) in
  applied_cmds ev = [] ∧ y = x ∨
  ∃ l, cstep Sum64 kmax x l y ∧ applied_cmds ev = match l with Some cmd => [cmd] | None => [] end.
Proof.
  intros Hs%node_step_shape Hopen Hkeys. unfold live_csys. cbn [lv_node lv_worker lv_clock lv_compactor].
  destruct Hs as [act nd' ->|args now nd' ->|openErr cmd i r s nd' err Ea Es _ Hr|act nd' c' cmd term ->|act nd' c' r ->];
    [by left|by left| |by left|by left].
  rewrite (Hopen _ eq_refl) in Ea. subst s. apply (Forall_singleton _ (c_Key cmd)) in Hkeys. right.
  destruct r as [[]|er|]; [| |done]; subst err; [exists (Some cmd)|exists None]; (split; [|done]);
    (apply cstep_store; [|intros mem H1 H2; cbn in H1, H2; congruence]); [by apply step_apply|by eapply step_apply_error].
Qed.

Lemma live_step_cstep x ev y :
  live_step x ev y →
  applied_cmds ev = [] ∧ live_csys y = live_csys x ∨
  ∃ l, cstep Sum64 kmax (live_csys x) l (live_csys y) ∧ applied_cmds ev = match l with Some cmd => [cmd] | None => [] end.
Proof.
  intros [nd w c k act nd' ev' Hs Ho _ Hk|y' s w c k Hs _]; [by eapply node_step_store|]. right. by exists None.
Qed.

Lemma csteps_app x cmds y cmds' z :
  csteps Sum64 kmax x cmds y → csteps Sum64 kmax y cmds' z → csteps Sum64 kmax x (cmds ++ cmds') z.
Proof.
  intros H1 H2. induction H2 as [|y cmds' z l u _ IH Hs]; [by rewrite app_nil_r|].
  rewrite app_assoc. eapply csteps_trans; [by apply IH|done].
Qed.

(** A run of the node is a run of the storage engine. *)
Lemma live_steps_csteps x ev y :
  live_steps x ev y → csteps Sum64 kmax (live_csys x) (applied_cmds ev) (live_csys y).
Proof.
  induction 1 as [x|x ev y ev' z _ IH Hs]; [constructor|]. unfold applied_cmds in *. rewrite omap_app.
  destruct (live_step_cstep _ _ _ Hs) as [[E ->]|(l & Hc & E)]; unfold applied_cmds in E; rewrite E; [by rewrite app_nil_r|].
  by eapply csteps_trans.
Qed.

(** A [Get] beside the node is one beside the storage engine, and leaves the
    node to itself. *)
Lemma live_getting_getting x key p evs y :
  live_getting json_Marshal json_Unmarshal Sum64 kmax x key p evs y →
  live_steps x evs y ∧ getting Sum64 kmax (live_csys x) key p (applied_cmds evs) (live_csys y).
Proof.
  induction 1 as [|p evs y ev z _ [IH1 IH2] Hs Hcl|p evs y p' _ [IH1 IH2] Hs].
  - split; constructor.
  - split; [by eapply live_trans|]. unfold applied_cmds in *. rewrite omap_app.
    destruct (live_step_cstep _ _ _ Hs) as [[E ->]|(l & Hc & E)]; unfold applied_cmds in E; rewrite E; [by rewrite app_nil_r|].
    by apply (getting_system _ _ _ _ p _ (live_csys y) l (live_csys z)).
  - split; [done|]. by eapply getting_step.
Qed.

(** The parts without steps in between. *)
Lemma get_iter_live x key n p evs y p' :
  get_iter Sum64 n (nd_store (lv_node y)) key p = Ok p' →
  live_getting json_Marshal json_Unmarshal Sum64 kmax x key p evs y →
  live_getting json_Marshal json_Unmarshal Sum64 kmax x key p' evs y.
Proof.
  revert p. induction n as [|n IH]; intros p; cbn [get_iter]; [by intros [= <-]|].
  destruct (get_step _ _ _ p) as [p1|e|] eqn:E; [|done..]. cbn [mbind outcome_bind]. intros H1 H2.
  apply (IH p1 H1). by eapply lgetting_step.
Qed.

(** The log only grows, and a call that starts gets an index behind it. *)
Lemma live_step_grows x ev y :
  live_step x ev y →
  len (rf_log (nd_raft (lv_node x))) <= len (rf_log (nd_raft (lv_node y))) ∧
  ∀ c i cmd, NE_start c i cmd ∈ ev → len (rf_log (nd_raft (lv_node x))) <= i.
Proof.
  intros [nd w c k act nd' ev' Hs%node_step_shape _ Hk _|x' s w c k _ _]; cbn [lv_node].
  2: { split; [done|]. by intros c0 i cmd ?%elem_of_nil. }
  destruct Hs as [act nd' _ ->|args now nd' _|openErr cmd i r s nd' err _ _ -> _|act nd' c' cmd term _ ->|act nd' c' r _ ->].
  - split; [done|]. by intros c0 i cmd ?%elem_of_nil.
  - split; [|by intros c0 i cmd ?%elem_of_nil]. destruct Hk as [Hk%prefix_length _]. unfold len. lia.
  - split; [done|]. by intros c0 i0 cmd0 ?%list_elem_of_singleton.
  - split; [rewrite len_app; unfold len; simpl; lia|]. by intros c0 i cmd0 [= _ -> _]%list_elem_of_singleton.
  - split; [done|]. by intros c0 i0 cmd0 ?%list_elem_of_singleton.
Qed.

Lemma live_steps_grow x ev y :
  live_steps x ev y →
  len (rf_log (nd_raft (lv_node x))) <= len (rf_log (nd_raft (lv_node y))) ∧
  ∀ c i cmd, NE_start c i cmd ∈ ev → len (rf_log (nd_raft (lv_node x))) <= i.
Proof.
  induction 1 as [x|x ev y ev' z _ [IH1 IH2] [H1 H2]%live_step_grows].
  - split; [done|]. by intros c i cmd ?%elem_of_nil.
  - split; [lia|]. intros c i cmd [?|H]%elem_of_app; [by eapply IH2|]. specialize (H2 c i cmd H). lia.
Qed.

(** A call of [Put] that reports success had its own command applied while it
    ran. *)
Lemma put_own x tr ev y cmd :
  live_inv x tr → live_steps x ev y → answered ev cmd None → json_Unmarshal (json_Marshal cmd) = Some cmd →
  cmd ∈ applied_cmds ev.
Proof.
  intros Hx Hs [?|(c & i & Hi & Hd)] Hj; [done|]. destruct (live_steps_inv _ _ _ _ Hx Hs) as [I O]. destruct Hx as [_ Ox].
  assert (NE_start c i cmd ∈ tr ++ ev ∧ NE_done c None ∈ tr ++ ev) as [Hi' Hd'] by (rewrite !elem_of_app; auto).
  destruct (ni_result _ _ I c (Put_done None)) as (i0 & cmd0 & cmd' & H1 & H2); [by apply (oi_done _ _ _ _ O)|done|].
  destruct (oi_unique _ _ _ _ O c i cmd i0 cmd0 Hi' H1) as [<- <-].
  destruct (oi_applied _ _ _ _ O i cmd' None H2) as (e & He & Hu).
  destruct (oi_start _ _ _ _ O c i cmd Hi') as (e' & He' & Hm).
  assert (cmd' = cmd) as -> by congruence. apply elem_of_app in H2 as [H2|H2].
  - exfalso. destruct (oi_applied _ _ _ _ Ox i cmd None H2) as (e0 & Hl%lookup_lt_Some & _).
    destruct (live_steps_grow _ _ _ Hs) as [_ Hge]. specialize (Hge c i cmd Hi). unfold len in Hge. lia.
  - unfold applied_cmds. apply list_elem_of_omap. by exists (NE_applied i cmd None).
Qed.

(** Runs of the node alone, by evaluation. *)
Definition plain_action (act : node_action) : bool :=
  match act with A_raft (In_append _ _) | A_deliver (Some _) => false | _ => true end.

Lemma node_run_live nd acts nd' ev w c k :
  forallb plain_action acts = true → node_run json_Marshal json_Unmarshal nd acts = Some (nd', ev) →
  Forall (λ key, len key < kmax) (applied_keys ev) →
  live_steps (mkLive nd w c k) ev (mkLive nd' w c k).
Proof.
  revert nd ev. induction acts as [|act acts IH]; intros nd ev; simpl; [intros _ [= <- <-] _; constructor|].
  intros [Ha Hacts]%andb_true_iff. destruct (node_step nd act) as [[nd1 ev1]|] eqn:E; [|done]. cbn [mbind option_bind].
  destruct (node_run _ _ nd1 acts) as [[nd2 ev2]|] eqn:E2; [|done]. intros [= <- <-] Hk.
  unfold applied_keys in Hk. rewrite omap_app in Hk. apply Forall_app in Hk as [Hk1 Hk2].
  eapply live_steps_app; [|by apply IH].
  change ev1 with ([] ++ ev1). eapply live_trans; [constructor|]. eapply live_node; [exact E| | |exact Hk1].
  - intros openErr ->. by destruct openErr.
  - by destruct act as [[]| | | | | | | | | |].
Qed.
End whole.
