(* ===== verification/Server.v ===== *)
(** * cmd/server and cmd/cli: HTTP requests

    The HTTP handlers of a node, the forwarding of writes to the leader, and
    the command line client that builds the requests.  What the store and the
    network answer are arguments; the handlers are functions of the query
    string. *)

From Stdlib Require Import Strings.String.
From stdpp Require Import base list gmap.
From Stdlib Require Import ZArith Lia.
From S2P Require Import Prelude GoText GoUrl KvStore.

Record response := mkResponse { status : Z; body : bytes }.

(** [http.Error] ends the message with a newline. *)
Definition http_Error (msg : bytes) (code : Z) : response := mkResponse code (msg ++ [Byte.x0a]).

(** A handler answers, or passes the request on to a URL. *)
Inductive result := Reply (r : response) | ForwardTo (url : bytes).

(** [Store.Put(key, val, isDelete)] as a command. *)
Definition put_cmd (key val : bytes) (isDelete : bool) : raftCmd :=
  mkRaftCmd (if isDelete then OpDelete else OpPut) key val.

(** ** The handlers

    [put] is what [Store.Put] returns for a command, [leaderID] what
    [GetLeader] returns, [peer_url] formats the peer template, [error_text]
    is [err.Error()]. *)
Section handlers.
Context (nodeID : Z) (peer_url : Z → bytes) (error_text : error → bytes).

Definition handleGet (get : bytes → outcome (option bytes)) (query : bytes) : outcome response :=
  r ← get (query_get query (lit "key"));
  Ok match r with
     | None => http_Error (lit "Key not found") 404
     | Some val => mkResponse 200 val
     end.

(** Both write handlers on the error of [Put]. *)
Definition write_failed (leaderID : Z) (url : bytes → bytes) (e : error) : result :=
  if decide (e = ErrNotLeader) then
    if leaderID =? -1 then Reply (http_Error (lit "Leader not found") 404)
    else if leaderID =? nodeID then Reply (http_Error (lit "Cluster in leadership transition") 503)
    else ForwardTo (url (peer_url leaderID))
  else Reply (http_Error (error_text e) 500).

(** The URL a put is forwarded to: key and value as they were decoded. *)
Definition put_url (leaderURL key val : bytes) : bytes :=
  leaderURL ++ lit "/put?key=" ++ key ++ lit "&val=" ++ val.
Definition delete_url (leaderURL key : bytes) : bytes := leaderURL ++ lit "/delete?key=" ++ key.

Definition handlePut (put : raftCmd → option error) (leaderID : Z) (query : bytes) : result :=
  let key := query_get query (lit "key") in
  let val := query_get query (lit "val") in
  match put (put_cmd key val false) with
  | Some e => write_failed leaderID (λ leaderURL, put_url leaderURL key val) e
  | None => Reply (mkResponse 200 (lit "Success"))
  end.

Definition handleDelete (put : raftCmd → option error) (leaderID : Z) (query : bytes) : result :=
  let key := query_get query (lit "key") in
  if bool_decide (key = []) then Reply (http_Error (lit "key is required") 400)
  else
    match put (put_cmd key [] true) with
    | Some e => write_failed leaderID (λ leaderURL, delete_url leaderURL key) e
    | None => Reply (mkResponse 204 [])
    end.

(** [forwardToLeader]: [answer] is what the leader's server answers to a
    query ([None]: the request failed); the headers are passed on as well. *)
Definition forwardToLeader (url : bytes) (answer : bytes → option response) : response :=
  match send_url url with
  | NotSent => http_Error (lit "Failed to create forwarding request") 500
  | BadRequest => mkResponse 400 (lit "400 Bad Request")
  | Delivered query =>
      match answer query with
      | None => http_Error (lit "Failed to forward request to leader") 503
      | Some r => r
      end
  end.
End handlers.

(** ** The command line client *)

Definition cli_put (baseURL key value : bytes) : bytes :=
  baseURL ++ lit "/put?key=" ++ QueryEscape key ++ lit "&val=" ++ QueryEscape value.
Definition cli_get (baseURL key : bytes) : bytes := baseURL ++ lit "/get?key=" ++ QueryEscape key.
Definition cli_delete (baseURL key : bytes) : bytes := baseURL ++ lit "/delete?key=" ++ QueryEscape key.

Inductive cli_error := CliCreate | CliRequest | CliRead | CliServer (code : Z) (body : bytes).

(** [doRequest]: [answer] is the response to a query, with a body that can
    fail to be read. *)
Definition doRequest (url : bytes) (answer : delivery → option (Z * option bytes)) : cli_error + bytes :=
  match send_url url with
  | NotSent => inl CliCreate
  | d =>
      match answer d with
      | None => inl CliRequest
      | Some (_, None) => inl CliRead
      | Some (code, Some b) => if 400 <=? code then inl (CliServer code b) else inr b
      end
  end.

Record Config := mkConfig { ServerURL : bytes; Timeout : Z }.
Definition default_config : Config := mkConfig (lit "http://localhost:8080") (30 * 10 ^ 9).

(** [getConfigPath]: the flag, or a file in the home directory, if there is
    one. *)
Definition getConfigPath (configFile : bytes) (home : option bytes) : bytes :=
  if negb (bool_decide (configFile = [])) then configFile
  else match home with
       | None => lit ".sicli-config.json"
       | Some h => h ++ lit "/.sicli-config.json"
       end.

Section config.
Context (encode : Config → bytes) (decode : bytes → option Config).

Definition loadConfig (files : gmap bytes bytes) (path : bytes) : option Config := files !! path ≫= decode.

(** [writable] tells whether the directory could be made and the file written. *)
Definition saveConfig (files : gmap bytes bytes) (path : bytes) (config : Config) (writable : bool)
  : option (gmap bytes bytes) :=
  if writable then Some (<[path := encode config]> files) else None.

(** [config set]: empty and non-positive settings are left alone. *)
Definition configSet (files : gmap bytes bytes) (path setServerURL : bytes) (setTimeout : Z) (writable : bool)
  : option (gmap bytes bytes) :=
  let config := default default_config (loadConfig files path) in
  let config := if negb (bool_decide (setServerURL = [])) then mkConfig setServerURL (Timeout config) else config in
  let config := if 0 <? setTimeout then mkConfig (ServerURL config) setTimeout else config in
  saveConfig files path config writable.

(** [PersistentPreRun]: the flags win over the file, the file over the
    defaults. *)
Definition preRun (files : gmap bytes bytes) (path : bytes) (addr : option bytes) (timeout : option Z) : bytes * Z :=
  let config := default default_config (loadConfig files path) in
  (default (ServerURL config) addr, default (Timeout config) timeout).
End config.

(** * Properties *)

(** A server address: nothing in it ends the path or the request line. *)
Definition base_ok (base : bytes) : Prop :=
  Forall (λ b, ctl b = false ∧ b ≠ hash ∧ b ≠ question ∧ b ≠ space) base.

Definition key_part (k : bytes) : bytes := lit "key=" ++ k.
Definition two_parts (k v : bytes) : bytes := key_part k ++ amp :: lit "val=" ++ v.

Lemma inert_ctl s : Forall (λ b, inert b = true) s → existsb ctl s = false.
Proof.
  induction 1 as [|b s Hb _ IH]; [done|]. simpl. rewrite IH. unfold inert in Hb.
  by destruct (ctl b).
Qed.

Lemma base_ctl base : base_ok base → existsb ctl base = false.
Proof. induction 1 as [|b s (Hb & _) _ IH]; [done|]. simpl. by rewrite IH, Hb. Qed.

(** A URL with inert parameters is delivered as it is. *)
Lemma send_params base path query :
  base_ok (base ++ path) → existsb ctl query = false → hash ∉ query → space ∉ query →
  send_url (base ++ path ++ question :: query) = Delivered query.
Proof.
  intros Hb Hq Hh Hs. rewrite (assoc_L (++)). unfold send_url. rewrite existsb_app. simpl.
  rewrite base_ctl, Hq by done. cbn [orb].
  assert (∀ c, c = hash ∨ c = question → c ∉ base ++ path) as Hnot.
  { intros c Hc Hin. unfold base_ok in Hb. rewrite Forall_forall in Hb. destruct (Hb c Hin) as (_ & ? & ? & _). naive_solver. }
  rewrite cut_none.
  - rewrite cut_app by auto. simpl. by rewrite bool_decide_eq_false_2.
  - rewrite elem_of_app, elem_of_cons. intros [H|[H|H]]; [by apply (Hnot hash); [left|]|done|done].
Qed.

Lemma inert_param k c : Forall (λ b, inert b = true) k → c ∈ [hash; space] → c ∉ k.
Proof.
  intros Hk Hc. apply inert_notin; [done|]. apply elem_of_cons in Hc as [->|Hc].
  - do 4 right. by left.
  - apply list_elem_of_singleton in Hc as ->. do 3 right. by left.
Qed.

Lemma lit_inert s : forallb inert s = true → Forall (λ b, inert b = true) s.
Proof. induction s as [|b s IH]; simpl; [by constructor|]. intros [? ?]%andb_true_iff. constructor; auto. Qed.

Lemma lit_notin (c : byte) (s : bytes) : forallb (λ b, negb (bool_decide (b = c))) s = true → c ∉ s.
Proof.
  induction s as [|b s IH]; simpl; [intros _; apply not_elem_of_nil|].
  intros [H1 H2]%andb_true_iff. apply not_elem_of_cons. split; [|by apply IH].
  intros ->. by rewrite bool_decide_eq_true_2 in H1.
Qed.

(** Reading the parameters back. *)
Lemma query_get_two k v k' v' :
  Forall (λ b, inert b = true) k → Forall (λ b, inert b = true) v →
  QueryUnescape k = Some k' → QueryUnescape v = Some v' →
  query_get (two_parts k v) (lit "key") = k' ∧ query_get (two_parts k v) (lit "val") = v'.
Proof.
  intros Hk Hv Uk Uv.
  assert (amp ∈ [amp; eq_sign; semicolon; space; hash]) as Hamp by (by left).
  assert (omap parse_piece (split_on amp (two_parts k v)) = [(lit "key", k'); (lit "val", v')]) as Hp.
  { unfold two_parts, key_part. rewrite split_on_app.
    2: { apply not_elem_of_app. split; [by apply lit_notin|by apply inert_notin]. }
    rewrite split_on_none.
    2: { apply not_elem_of_app. split; [by apply lit_notin|by apply inert_notin]. }
    pose proof (parse_piece_pair (lit "key") k k' (lit_inert (lit "key") eq_refl) Hk eq_refl Uk) as P1.
    pose proof (parse_piece_pair (lit "val") v v' (lit_inert (lit "val") eq_refl) Hv eq_refl Uv) as P2.
    change (lit "key=" ++ k) with (lit "key" ++ eq_sign :: k). change (lit "val=" ++ v) with (lit "val" ++ eq_sign :: v).
    unfold omap, list_omap. by rewrite P1, P2. }
  unfold query_get. rewrite Hp. done.
Qed.

(** A put URL with inert parameters, at the server. *)
Lemma put_url_delivered base k v k' v' :
  base_ok base → Forall (λ b, inert b = true) k → Forall (λ b, inert b = true) v →
  QueryUnescape k = Some k' → QueryUnescape v = Some v' →
  ∃ q, send_url (put_url base k v) = Delivered q ∧ query_get q (lit "key") = k' ∧ query_get q (lit "val") = v'.
Proof.
  intros Hb Hk Hv Uk Uv. exists (two_parts k v). split; [|by apply query_get_two].
  change (put_url base k v) with (base ++ lit "/put" ++ question :: two_parts k v).
  assert (existsb ctl (two_parts k v) = false) as Hc.
  { unfold two_parts, key_part. rewrite existsb_app. simpl. by rewrite !inert_ctl. }
  assert (∀ c, c ∈ [hash; space] → c ∉ two_parts k v) as Hno.
  { intros c Hc'. unfold two_parts, key_part. rewrite not_elem_of_app, not_elem_of_cons, !not_elem_of_app.
    assert (c ≠ amp ∧ c ∉ lit "key=" ∧ c ∉ lit "val=") as (H1 & H2 & H3).
    { apply elem_of_cons in Hc' as [->|Hc']; [|apply list_elem_of_singleton in Hc' as ->]; split_and!; done || by apply lit_notin. }
    split_and!; try done; by apply inert_param. }
  apply send_params; [|done|apply Hno; by left|apply Hno; right; by left].
  apply Forall_app. split; [done|]. repeat constructor; done.
Qed.

(** C31. Forwarding keeps plain requests: when a follower forwards a put whose
    key and value contain none of the bytes that mean something in a query
    string, the leader's handler does with the forwarded request exactly what
    it would have done with the original one. *)
Theorem forwarded_put_same nodeID peer_url error_text put leaderID q :
  let key := query_get q (lit "key") in
  let val := query_get q (lit "val") in
  plain key → plain val → put (put_cmd key val false) = Some ErrNotLeader →
  leaderID ≠ -1 → leaderID ≠ nodeID → base_ok (peer_url leaderID) →
  ∃ url q', handlePut nodeID peer_url error_text put leaderID q = ForwardTo url ∧ send_url url = Delivered q' ∧
    ∀ nodeID' put' leaderID', handlePut nodeID' peer_url error_text put' leaderID' q' =
                              handlePut nodeID' peer_url error_text put' leaderID' q.
Proof.
  intros key val Hk Hv Hput H1 H2 Hb.
  destruct (put_url_delivered (peer_url leaderID) key val key val) as (q' & Hq & Qk & Qv);
    [done|by apply plain_inert|by apply plain_inert|by apply unescape_plain|by apply unescape_plain|].
  exists (put_url (peer_url leaderID) key val), q'. split; [|split; [done|]].
  - unfold handlePut. fold key val. rewrite Hput. unfold write_failed.
    rewrite decide_True by done. rewrite (proj2 (Z.eqb_neq _ _)), (proj2 (Z.eqb_neq _ _)) by done. done.
  - intros nodeID' put' leaderID'. unfold handlePut. by rewrite Qk, Qv.
Qed.

(** The peers of the default template, for node numbers below ten. *)
Definition demo_peer (n : Z) : bytes := lit "http://kv-" ++ [byte_of_Z (48 + n)] ++ lit ":8001".
Definition not_leader (_ : raftCmd) : option error := Some ErrNotLeader.

Lemma base_ok_bool base :
  forallb (λ b, negb (ctl b) && negb (bool_decide (b ∈ [hash; question; space]))) base = true → base_ok base.
Proof.
  induction base as [|b s IH]; simpl; [by constructor|]. intros [[H1 H2]%andb_true_iff H3]%andb_true_iff.
  constructor; [|by apply IH]. apply negb_true_iff in H1, H2. apply bool_decide_eq_false in H2.
  rewrite !not_elem_of_cons in H2. naive_solver.
Qed.

Lemma forwarded_put_same_witness :
  ∃ url q', handlePut 1 demo_peer (λ _, []) not_leader 2 (lit "key=user%2f7&val=x-1") = ForwardTo url ∧
    send_url url = Delivered q' ∧
    ∀ nodeID' put' leaderID', handlePut nodeID' demo_peer (λ _, []) put' leaderID' q' =
                              handlePut nodeID' demo_peer (λ _, []) put' leaderID' (lit "key=user%2f7&val=x-1").
Proof.
  apply (forwarded_put_same 1 demo_peer (λ _, []) not_leader 2 (lit "key=user%2f7&val=x-1")).
  - apply (bool_decide_unpack _). vm_compute. exact I.
  - apply (bool_decide_unpack _). vm_compute. exact I.
  - reflexivity.
  - discriminate.
  - discriminate.
  - apply base_ok_bool. vm_compute. reflexivity.
Defined.

(** C30. The command line client can put anything: for every key and value the
    request of [sicli put] makes the handler call [Put] with exactly this key
    and value, and the command reports success when [Put] does. *)
Theorem cli_put_exact base key value nodeID peer_url error_text leaderID :
  base_ok base →
  ∃ q, send_url (cli_put base key value) = Delivered q ∧
    query_get q (lit "key") = key ∧ query_get q (lit "val") = value ∧
    ∀ put, put (put_cmd key value false) = None →
      doRequest (cli_put base key value)
        (λ d, match d with
              | Delivered q => match handlePut nodeID peer_url error_text put leaderID q with
                               | Reply r => Some (status r, Some (body r))
                               | ForwardTo _ => None
                               end
              | _ => None
              end) = inr (lit "Success").
Proof.
  intros Hb. destruct (put_url_delivered base (QueryEscape key) (QueryEscape value) key value) as (q & Hq & Qk & Qv);
    [done|apply escape_inert|apply escape_inert|apply unescape_escape|apply unescape_escape|].
  exists q. split; [done|]. split; [done|]. split; [done|]. intros put Hp. unfold doRequest.
  change (send_url (cli_put base key value)) with (send_url (put_url base (QueryEscape key) (QueryEscape value))).
  rewrite Hq. unfold handlePut. rewrite Qk, Qv, Hp. reflexivity.
Qed.

Lemma cli_put_exact_witness :
  ∃ q, send_url (cli_put (lit "http://localhost:8080") (lit "my key&co") (lit "100%")) = Delivered q ∧
    query_get q (lit "key") = lit "my key&co" ∧ query_get q (lit "val") = lit "100%".
Proof.
  destruct (cli_put_exact (lit "http://localhost:8080") (lit "my key&co") (lit "100%") 0 demo_peer (λ _, []) 0
    ltac:(apply base_ok_bool; vm_compute; reflexivity)) as (q & H1 & H2 & H3 & _).
  exists q. split; [exact H1|]. split; [exact H2|exact H3].
Defined.

(** What the leader is asked to store when a follower gets the client's put. *)
Definition forwarded_cmd (key value : bytes) : option (option raftCmd) :=
  match send_url (cli_put (lit "http://localhost:8080") key value) with
  | Delivered q =>
      match handlePut 1 demo_peer (λ _, []) not_leader 2 q with
      | ForwardTo url =>
          Some (match send_url url with
                | Delivered q' => Some (put_cmd (query_get q' (lit "key")) (query_get q' (lit "val")) false)
                | _ => None
                end)
      | Reply _ => None
      end
  | _ => None
  end.

(** Forwarding changes other requests: a follower writes key and value
    unescaped into the URL for the leader, so ["a+b"] arrives as ["a b"], the
    rest of ["a&val=b"] replaces the value, and a key with a space (the
    example of the client's help text) is refused. *)
Theorem forwarded_put_garbled :
  forwarded_cmd (lit "a+b") (lit "1") = Some (Some (put_cmd (lit "a b") (lit "1") false)) ∧
  forwarded_cmd (lit "a&val=b") (lit "1") = Some (Some (put_cmd (lit "a") (lit "b") false)) ∧
  forwarded_cmd (lit "my key") (lit "my value") = Some None.
Proof. split_and!; vm_compute; reflexivity. Qed.

(** Settings stick: after [config set] with a server and a timeout, a
    command without flags uses both; setting the server alone keeps the
    timeout of before ([encode] and [decode] are the JSON functions). *)
Theorem config_set_used encode decode files path url t addr files' :
  let old := snd (preRun decode files path None None) in
  decode (encode (mkConfig url t)) = Some (mkConfig url t) →
  decode (encode (mkConfig url old)) = Some (mkConfig url old) → url ≠ [] → 0 < t →
  configSet encode decode files path url t true = Some files' →
  preRun decode files' path None None = (url, t) ∧ preRun decode files' path (Some addr) None = (addr, t) ∧
  ∀ files'', configSet encode decode files path url 0 true = Some files'' →
    preRun decode files'' path None None = (url, old).
Proof.
  intros old Hd Hd' Hu Ht. unfold old in *. unfold configSet, preRun, saveConfig, loadConfig in *.
  rewrite bool_decide_eq_false_2 by done. rewrite (proj2 (Z.ltb_lt 0 t)) by done. simpl in *.
  intros [= <-]. rewrite lookup_insert_eq. cbn [mbind option_bind]. rewrite Hd. split; [done|]. split; [done|].
  intros files'' [= <-]. rewrite lookup_insert_eq. cbn [mbind option_bind]. by rewrite Hd'.
Qed.

Definition demo_encode (c : Config) : bytes := le_put 8 (Timeout c) ++ ServerURL c.
Definition demo_decode (bs : bytes) : option Config := Some (mkConfig (drop 8 bs) (le_get (take 8 bs))).

Lemma config_set_used_witness :
  ∃ files', configSet demo_encode demo_decode ∅ (lit "f") (lit "http://kv-1:8001") 5 true = Some files' ∧
    preRun demo_decode files' (lit "f") None None = (lit "http://kv-1:8001", 5).
Proof.
  eexists. split; [reflexivity|].
  apply (config_set_used demo_encode demo_decode ∅ (lit "f") (lit "http://kv-1:8001") 5 []);
    [vm_compute; reflexivity|vm_compute; reflexivity|discriminate|reflexivity|reflexivity].
Defined.
