(* ===== verification/Http.v ===== *)
(** * cmd/server: middleware.go and main.go

    What surrounds the handlers of Server.v: the two wrappers that record the
    status of an answer, the log line and the metrics made of it, the routes,
    and the clients a node makes for its peers.  A handler acts on the
    response writer by a sequence of calls. *)

From Stdlib Require Import Strings.String.
From stdpp Require Import base list gmap.
From Stdlib Require Import ZArith Lia.
From S2P Require Import Prelude GoDir GoText GoUrl Metrics KvStore RaftWal Raft RaftCluster RaftElection RaftLog RaftLeader Server.

(** ** [http.ResponseWriter]

    The server's own writer: the status of the header once it is sent, and
    the body so far. *)
Record conn := mkConn { sent_status : option Z; sent_body : bytes }.
Definition new_conn : conn := mkConn None [].

(** A second header is ignored; an invalid code panics; 1xx codes other than
    101 are sent in advance of the header. *)
Definition conn_WriteHeader (c : conn) (code : Z) : outcome conn :=
  match sent_status c with
  | Some _ => Ok c
  | None =>
      if (code <? 100) || (999 <? code) then Panic
      else if (code <=? 199) && negb (code =? 101) then Ok c
      else Ok (mkConn (Some code) (sent_body c))
  end.

(** No body is allowed after 1xx, 204 and 304. *)
Definition body_allowed (code : Z) : bool := negb ((code <=? 199) || (code =? 204) || (code =? 304)).

Definition conn_Write (c : conn) (bs : bytes) : conn :=
  let c := match sent_status c with Some _ => c | None => mkConn (Some 200) (sent_body c) end in
  match sent_status c with
  | Some code => if body_allowed code then mkConn (sent_status c) (sent_body c ++ bs) else c
  | None => c
  end.

(** The status the client sees when the handler has returned. *)
Definition conn_status (c : conn) : Z := default 200 (sent_status c).

(** [responseWriterWrapper]: the embedded writer is the server's or another
    wrapper. *)
Inductive writer :=
| Direct (c : conn)
| Wrapped (statusCode : Z) (inner : writer).

Fixpoint WriteHeader (ww : writer) (code : Z) : outcome writer :=
  match ww with
  | Direct c => c ← conn_WriteHeader c code; Ok (Direct c)
  | Wrapped _ inner => inner ← WriteHeader inner code; Ok (Wrapped code inner)
  end.

(** [Write] is promoted from the embedded writer. *)
Fixpoint ww_Write (ww : writer) (bs : bytes) : writer :=
  match ww with
  | Direct c => Direct (conn_Write c bs)
  | Wrapped code inner => Wrapped code (ww_Write inner bs)
  end.

Fixpoint writer_conn (ww : writer) : conn :=
  match ww with Direct c => c | Wrapped _ inner => writer_conn inner end.

(** What a handler does to its writer. *)
Inductive write_op := OpHeader (code : Z) | OpWrite (bs : bytes).

Fixpoint run_ops (ww : writer) (ops : list write_op) : outcome writer :=
  match ops with
  | [] => Ok ww
  | OpHeader code :: ops' => ww ← WriteHeader ww code; run_ops ww ops'
  | OpWrite bs :: ops' => run_ops (ww_Write ww bs) ops'
  end.

(** ** The wrappers

    A handler as the writes it makes, given the request. *)
Record request := mkRequest { rq_Method : bytes; rq_Path : bytes; rq_RawQuery : bytes }.

(** What a wrapped handler leaves behind besides the answer. *)
Inductive http_effect := Log_line (line : bytes) | Metric (c : metric_call).

(** A [http.HandlerFunc]: the writer and request to the writer afterwards and
    the effects. *)
Definition HandlerFunc : Type := writer → request → outcome (writer * list http_effect).

Definition plain_handler (h : request → list write_op) : HandlerFunc :=
  λ w r, ww ← run_ops w (h r); Ok (ww, []).

(** The code of a wrapper and the writer in it. *)
Definition unwrap (ww : writer) : Z * writer :=
  match ww with Wrapped code inner => (code, inner) | Direct c => (200, Direct c) end.

Section wrappers.
(** [http.StatusText]; what [time.Since] gives in the logger and, by itself, in
    the metrics wrapper inside it, in nanoseconds. *)
Context (StatusText : Z → bytes) (duration elapsed : Z).

Definition log_line (r : request) (code : Z) : bytes :=
  let fullPath := if bool_decide (rq_RawQuery r = []) then rq_Path r else rq_Path r ++ question :: rq_RawQuery r in
  lit "[HTTP] " ++ rq_Method r ++ space :: fullPath ++ space :: itoa code ++ space :: StatusText code ++
  space :: itoa (Z.quot duration 1000000) ++ lit "ms".

Definition httpLogger (handler : HandlerFunc) : HandlerFunc := λ w r,
  '(ww, effects) ← handler (Wrapped 200 w) r;
  let '(statusCode, w) := unwrap ww in
  Ok (w, effects ++ [Log_line (log_line r statusCode)]).

Definition withMetrics (handler : HandlerFunc) (method endpoint : bytes) : HandlerFunc := λ w r,
  '(ww, effects) ← handler (Wrapped 200 w) r;
  let '(statusCode, w) := unwrap ww in
  Ok (w, effects ++ [Metric (Histogram_Observe HttpRequestDuration [method; endpoint] elapsed);
                     Metric (Counter_Inc HttpRequestsTotal [method; endpoint; itoa statusCode])]).

(** ** main.go: the routes *)
Context (get put delete : request → list write_op).

(** [None]: not one of the three, so it is served by the metrics handler or
    answered with 404 by the mux. *)
Definition route (path : bytes) : option HandlerFunc :=
  if bool_decide (path = lit "/get") then Some (httpLogger (withMetrics (plain_handler get) (lit "GET") (lit "/get")))
  else if bool_decide (path = lit "/put") then Some (httpLogger (withMetrics (plain_handler put) (lit "PUT") (lit "/put")))
  else if bool_decide (path = lit "/delete")
  then Some (httpLogger (withMetrics (plain_handler delete) (lit "DELETE") (lit "/delete")))
  else None.
End wrappers.

(** [raftClients]: a client for every address but the one at the node's own
    place; [NewClient] can fail, which ends the program. *)
Definition comma : byte := Byte.x2c.
Fixpoint dial_peers {client} (NewClient : bytes → option client) (id i : Z) (peerList : list bytes) : option (list (option client)) :=
  match peerList with
  | [] => Some []
  | addr :: peerList' =>
      if i =? id then rest ← dial_peers NewClient id (i + 1) peerList'; Some (None :: rest)
      else conn ← NewClient addr; rest ← dial_peers NewClient id (i + 1) peerList'; Some (Some conn :: rest)
  end.
Definition raftClients {client} (NewClient : bytes → option client) (id : Z) (peerAddrs : bytes) : option (list (option client)) :=
  dial_peers NewClient id 0 (split_on comma peerAddrs).

(** ** The handlers of Server.v as writes

    [http.Error] writes the header and then the message; the plain answers of
    [handleGet] and [handlePut] are only written, [handleDelete] only sends a
    header, and a forwarded answer is copied with its status. *)
Definition error_ops (r : response) : list write_op := [OpHeader (status r); OpWrite (body r)].
Definition get_ops (r : response) : list write_op :=
  if status r =? 200 then [OpWrite (body r)] else error_ops r.
Definition put_ops (forward : bytes → response) (res : result) : list write_op :=
  match res with
  | Reply r => if status r =? 200 then [OpWrite (body r)] else if status r =? 204 then [OpHeader 204] else error_ops r
  | ForwardTo url => error_ops (forward url)
  end.

(** What a node does with a request: [get] and [put] are its store's calls,
    [answer] is what the server of a URL answers. *)
Section serve.
Context (nodeID : Z) (peer_url : Z → bytes) (error_text : error → bytes).
Context (get : bytes → option bytes) (put : raftCmd → option error) (leaderID : Z).
Context (answer : bytes → bytes → option response).

Definition forward_ops (url : bytes) : response := forwardToLeader url (answer url).
Definition serve_get (r : request) : list write_op :=
  match handleGet (λ k, Ok (get k)) (rq_RawQuery r) with Ok x => get_ops x | _ => [] end.
Definition serve_put (r : request) : list write_op :=
  put_ops forward_ops (handlePut nodeID peer_url error_text put leaderID (rq_RawQuery r)).
Definition serve_delete (r : request) : list write_op :=
  put_ops forward_ops (handleDelete nodeID peer_url error_text put leaderID (rq_RawQuery r)).
End serve.

(** * Lemmas *)

(** The status a wrapper ends up with. *)
Definition track (code : Z) (ops : list write_op) : Z :=
  foldl (λ code op, match op with OpHeader code' => code' | OpWrite _ => code end) code ops.

(** A wrapper passes every call on. *)
Lemma run_ops_wrapped a w ops : run_ops (Wrapped a w) ops = w' ← run_ops w ops; Ok (Wrapped (track a ops) w').
Proof.
  revert a w. induction ops as [|[code|bs] ops IH]; intros a w; simpl; [done| |apply IH].
  destruct (WriteHeader w code) as [w'|e|]; cbn [mbind outcome_bind]; [apply IH|done..].
Qed.

Lemma run_ops_direct c ops w : run_ops (Direct c) ops = Ok w → ∃ c', w = Direct c'.
Proof.
  revert c. induction ops as [|[code|bs] ops IH]; intros c; simpl; [intros [= <-]; by eexists| |apply IH].
  destruct (conn_WriteHeader c code); cbn [mbind outcome_bind]; [apply IH|done..].
Qed.

(** A final status is decided first, or left to the first write. *)
Definition final_code (code : Z) : Prop := 200 <= code <= 999.
Definition decides_first (ops : list write_op) : Prop :=
  ∃ bss, ops = map OpWrite bss ∨ ∃ code, final_code code ∧ ops = OpHeader code :: map OpWrite bss.

Lemma track_writes code bss : track code (map OpWrite bss) = code.
Proof. by induction bss. Qed.

Lemma run_writes c bss :
  ∃ c', run_ops (Direct c) (map OpWrite bss) = Ok (Direct c') ∧ conn_status c' = conn_status c.
Proof.
  revert c. induction bss as [|bs bss IH]; intros c; [by exists c|]. simpl.
  destruct (IH (conn_Write c bs)) as (c' & -> & E). exists c'. split; [done|]. rewrite E.
  destruct c as [[code|] out]; unfold conn_Write, conn_status; simpl; [by destruct (body_allowed _)|done].
Qed.

Lemma decides_first_status ops :
  decides_first ops → ∃ c, run_ops (Direct new_conn) ops = Ok (Direct c) ∧ conn_status c = track 200 ops.
Proof.
  intros (bss & [->|(code & Hc & ->)]).
  - rewrite track_writes. apply (run_writes new_conn).
  - simpl. unfold conn_WriteHeader, final_code in *. simpl.
    rewrite (proj2 (Z.ltb_ge code 100)), (proj2 (Z.ltb_ge 999 code)), (proj2 (Z.leb_gt code 199)) by lia.
    cbn [orb andb mbind outcome_bind]. rewrite track_writes. destruct (run_writes (mkConn (Some code) []) bss) as (c & -> & E).
    by exists c.
Qed.

Lemma error_ops_decide r : final_code (status r) → decides_first (error_ops r).
Proof. intros H. exists [body r]. right. by exists (status r). Qed.

(** The handlers decide the status first. *)
Lemma get_ops_decide r : final_code (status r) → decides_first (get_ops r).
Proof. intros H. unfold get_ops. destruct (_ =? _); [exists [body r]; by left|by apply error_ops_decide]. Qed.

Lemma put_ops_decide forward res :
  match res with Reply r => final_code (status r) | ForwardTo url => final_code (status (forward url)) end →
  decides_first (put_ops forward res).
Proof.
  destruct res as [r|url]; simpl; [|apply error_ops_decide]. intros H. destruct (_ =? _); [exists [body r]; by left|].
  destruct (_ =? _); [|by apply error_ops_decide]. exists []. right. by exists 204.
Qed.

Lemma serve_get_decides get r : decides_first (serve_get get r).
Proof. unfold serve_get, handleGet. destruct (get _); apply get_ops_decide; unfold final_code; simpl; lia. Qed.

Section serve_lemmas.
Context (nodeID : Z) (peer_url : Z → bytes) (error_text : error → bytes) (put : raftCmd → option error) (leaderID : Z).
Context (answer : bytes → bytes → option response).
Hypothesis Ha : ∀ url q x, answer url q = Some x → final_code (status x).

Lemma forward_final url : final_code (status (forward_ops answer url)).
Proof.
  unfold forward_ops, forwardToLeader. destruct (send_url url) as [q| |]; try (unfold final_code; simpl; lia).
  destruct (answer url q) as [x|] eqn:E; [by eapply Ha|unfold final_code; simpl; lia].
Qed.

Lemma write_failed_decides url e : decides_first (put_ops (forward_ops answer) (write_failed nodeID peer_url error_text leaderID url e)).
Proof.
  apply put_ops_decide. unfold write_failed. destruct (decide _); [destruct (_ =? _); [|destruct (_ =? _)]|];
    try apply forward_final; unfold final_code; simpl; lia.
Qed.

Lemma serve_put_decides r : decides_first (serve_put nodeID peer_url error_text put leaderID answer r).
Proof.
  unfold serve_put, handlePut. destruct (put _); [apply write_failed_decides|].
  apply put_ops_decide. unfold final_code. simpl. lia.
Qed.

Lemma serve_delete_decides r : decides_first (serve_delete nodeID peer_url error_text put leaderID answer r).
Proof.
  unfold serve_delete, handleDelete. destruct (bool_decide _); [|destruct (put _); [apply write_failed_decides|]];
    apply put_ops_decide; unfold final_code; simpl; lia.
Qed.
End serve_lemmas.

(** * Properties *)

(** C40. The middleware does not change an answer: whatever a handler does to
    its writer, the connection behind the logger and the metrics wrapper ends
    in the same state as without them, and panics when it would have; one
    duration, one request count and one log line are produced, with the last
    status the handler asked for. *)
Theorem middleware_transparent StatusText duration elapsed h method endpoint c r :
  httpLogger StatusText duration (withMetrics elapsed (plain_handler h) method endpoint) (Direct c) r =
    w ← run_ops (Direct c) (h r);
    Ok (w, [Metric (Histogram_Observe HttpRequestDuration [method; endpoint] elapsed);
            Metric (Counter_Inc HttpRequestsTotal [method; endpoint; itoa (track 200 (h r))]);
            Log_line (log_line StatusText duration r (track 200 (h r)))]).
Proof.
  unfold httpLogger, withMetrics, plain_handler. rewrite !run_ops_wrapped.
  by destruct (run_ops (Direct c) (h r)) as [w|e|].
Qed.

(** C32. Status codes are recorded as sent: for a request to one of the three
    routes of a node, whatever its store and the network do, as long as the
    leader's server answers a forwarded request with a final status, the
    client gets exactly the status that is counted and logged. *)
Theorem recorded_status StatusText duration elapsed nodeID peer_url error_text get put leaderID answer path f r :
  (∀ url q x, answer url q = Some x → final_code (status x)) →
  route StatusText duration elapsed (serve_get get) (serve_put nodeID peer_url error_text put leaderID answer)
    (serve_delete nodeID peer_url error_text put leaderID answer) path = Some f →
  ∃ c method, f (Direct new_conn) r = Ok (Direct c,
    [Metric (Histogram_Observe HttpRequestDuration [method; path] elapsed);
     Metric (Counter_Inc HttpRequestsTotal [method; path; itoa (conn_status c)]);
     Log_line (log_line StatusText duration r (conn_status c))]).
Proof.
  intros Ha Hr.
  assert (∀ h method endpoint, decides_first (h r) →
    f = httpLogger StatusText duration (withMetrics elapsed (plain_handler h) method endpoint) → endpoint = path →
    ∃ c method, f (Direct new_conn) r = Ok (Direct c,
      [Metric (Histogram_Observe HttpRequestDuration [method; path] elapsed);
       Metric (Counter_Inc HttpRequestsTotal [method; path; itoa (conn_status c)]);
       Log_line (log_line StatusText duration r (conn_status c))])) as Hall.
  { intros h method endpoint H -> ->. destruct (decides_first_status _ H) as (c & E & Ec). exists c, method.
    unfold httpLogger, withMetrics, plain_handler. rewrite !run_ops_wrapped, E. cbn. by rewrite Ec. }
  unfold route in Hr. destruct (bool_decide_reflect (path = lit "/get")) as [->|].
  { injection Hr as <-. eapply (Hall (serve_get get)); [apply serve_get_decides|done..]. }
  destruct (bool_decide_reflect (path = lit "/put")) as [->|].
  { injection Hr as <-. eapply (Hall (serve_put nodeID peer_url error_text put leaderID answer)); [by apply serve_put_decides|done..]. }
  destruct (bool_decide_reflect (path = lit "/delete")) as [->|]; [|done].
  injection Hr as <-. eapply (Hall (serve_delete nodeID peer_url error_text put leaderID answer)); [by apply serve_delete_decides|done..].
Qed.

(** A read of a missing key at a follower, and its log line. *)
Definition demo_text (code : Z) : bytes := if code =? 404 then lit "Not Found" else lit "OK".
Definition demo_request : request := mkRequest (lit "GET") (lit "/get") (lit "key=x").
Definition demo_handler : HandlerFunc :=
  httpLogger demo_text 2500000 (withMetrics 2400000 (plain_handler (serve_get (λ _, None))) (lit "GET") (lit "/get")).

Lemma recorded_status_witness :
  ∃ c method, demo_handler (Direct new_conn) demo_request = Ok (Direct c,
    [Metric (Histogram_Observe HttpRequestDuration [method; lit "/get"] 2400000);
     Metric (Counter_Inc HttpRequestsTotal [method; lit "/get"; itoa (conn_status c)]);
     Log_line (log_line demo_text 2500000 demo_request (conn_status c))]) ∧
  log_line demo_text 2500000 demo_request 404 = lit "[HTTP] GET /get?key=x 404 Not Found 2ms".
Proof.
  destruct (recorded_status demo_text 2500000 2400000 1 demo_peer (λ _, []) (λ _, None) not_leader 2 (λ _ _, None) (lit "/get")
    demo_handler demo_request) as (c & method & E).
  - intros url q x [=].
  - unfold route. rewrite bool_decide_eq_true_2 by reflexivity. reflexivity.
  - exists c, method. split; [exact E|vm_compute; reflexivity].
Defined.

(** ** Where a write is forwarded *)

(** C28. Writes are forwarded to a leader: in a cluster (terms and positions in
    31 bits), when the put or delete handler of node [a] forwards a request,
    it goes to another node that won an election of a term up to the current
    one, the current one unless [a] is a candidate. *)
Theorem forwards_to_leader n cl tr a rf peer_url error_text put q url :
  reach_small n cl tr → Z.of_nat n <= 2 ^ 31 → cl_nodes cl !! a = Some rf →
  handlePut (Z.of_nat a) peer_url error_text put (GetLeader rf) q = ForwardTo url ∨
  handleDelete (Z.of_nat a) peer_url error_text put (GetLeader rf) q = ForwardTo url →
  ∃ l T, l ≠ a ∧ (l < n)%nat ∧ EvLeader l T ∈ tr ∧ T <= rf_currentTerm rf ∧
    (rf_state rf ≠ Candidate → T = rf_currentTerm rf) ∧
    (url = put_url (peer_url (Z.of_nat l)) (query_get q (lit "key")) (query_get q (lit "val")) ∨
     url = delete_url (peer_url (Z.of_nat l)) (query_get q (lit "key"))).
Proof.
  intros Hr Hn Ha Hf. pose proof (reach_lead n cl tr Hn Hr) as I. pose proof (le_nodes _ _ _ I a rf Ha) as Hok.
  assert (∀ u e, write_failed (Z.of_nat a) peer_url error_text (GetLeader rf) u e = ForwardTo url →
    GetLeader rf ≠ -1 ∧ GetLeader rf ≠ Z.of_nat a ∧ url = u (peer_url (GetLeader rf))) as Hw.
  { intros u e. unfold write_failed. destruct (decide _); [|done].
    destruct (Z.eqb_spec (GetLeader rf) (-1)); [done|]. destruct (Z.eqb_spec (GetLeader rf) (Z.of_nat a)); [done|].
    by intros [= <-]. }
  assert (GetLeader rf ≠ -1 ∧ GetLeader rf ≠ Z.of_nat a ∧
    (url = put_url (peer_url (GetLeader rf)) (query_get q (lit "key")) (query_get q (lit "val")) ∨
     url = delete_url (peer_url (GetLeader rf)) (query_get q (lit "key")))) as (H1 & H2 & H3).
  { destruct Hf as [Hf|Hf].
    - unfold handlePut in Hf. destruct (put _); [|done]. apply Hw in Hf as (? & ? & ->). auto.
    - unfold handleDelete in Hf. destruct (bool_decide _); [done|]. destruct (put _); [|done].
      apply Hw in Hf as (? & ? & ->). auto. }
  unfold GetLeader in *. destruct (lo_known _ _ _ Hok) as [?|(l & T & E & HT & HT1 & HT2)]; [done|].
  destruct (le_events _ _ _ I l T HT) as [Hl _]. exists l, T. rewrite E in *. split_and!; try done. by intros ->.
Qed.

Lemma forwards_to_leader_witness :
  ∃ l T, l ≠ 2%nat ∧ EvLeader l T ∈ snd one_leader ∧
    handlePut 2 demo_peer (λ _, []) not_leader (GetLeader (one_leader_node 2)) (lit "key=k&val=v") =
      ForwardTo (lit "http://kv-0:8001/put?key=k&val=v").
Proof.
  assert (handlePut 2 demo_peer (λ _, []) not_leader (GetLeader (one_leader_node 2)) (lit "key=k&val=v") =
    ForwardTo (lit "http://kv-0:8001/put?key=k&val=v")) as E by (vm_compute; reflexivity).
  destruct (forwards_to_leader 3 (fst one_leader) (snd one_leader) 2 (one_leader_node 2) demo_peer (λ _, []) not_leader
    (lit "key=k&val=v") _ one_leader_reach ltac:(discriminate) (one_leader_lookup 2 ltac:(lia)) (or_introl E))
    as (l & T & H1 & _ & H2 & _).
  exists l, T. split; [exact H1|]. split; [exact H2|exact E].
Defined.

(** The peers of a node: [raftClients] has one entry per address of the
    list, and the entry without a client is the node's own, and no other. *)
Theorem raftClients_spec {client} (NewClient : bytes → option client) id peerAddrs clients :
  raftClients NewClient id peerAddrs = Some clients →
  len clients = len (split_on comma peerAddrs) ∧
  ∀ i x, clients !! i = Some x → (x = None ↔ Z.of_nat i = id).
Proof.
  unfold raftClients. assert (∀ l b out, dial_peers NewClient id b l = Some out → len out = len l ∧
    ∀ i x, out !! i = Some x → (x = None ↔ b + Z.of_nat i = id)) as H.
  2: { intros Hr. destruct (H _ _ _ Hr) as [H1 H2]. split; [done|]. intros i x Hx. by rewrite <-(H2 i x Hx). }
  induction l as [|addr l IH]; intros b out; simpl; [intros [= <-]; split; [done|by intros i x]|].
  destruct (Z.eqb_spec b id) as [->|Hne]; [|destruct (NewClient addr) as [conn|]; [|done]]; cbn [mbind option_bind];
    (destruct (dial_peers _ _ _ _) as [rest|] eqn:E; [|done]); cbn [mbind option_bind]; intros [= <-];
    destruct (IH _ _ E) as [H1 H2]; (split; [by rewrite !len_cons, H1|]); intros [|i] x; simpl.
  - intros [= <-]. split; [lia|done].
  - intros Hx. rewrite (H2 i x Hx). lia.
  - intros [= <-]. split; [done|lia].
  - intros Hx. rewrite (H2 i x Hx). lia.
Qed.

Lemma raftClients_spec_witness :
  ∃ clients, raftClients (λ a, Some a) 1 (lit "kv-0:5001,kv-1:5001,kv-2:5001") = Some clients ∧ len clients = 3 ∧
    (clients !! 1%nat = Some None).
Proof.
  eexists. split; [vm_compute; reflexivity|]. split; [|reflexivity].
  exact (proj1 (raftClients_spec (λ a, Some a) 1 (lit "kv-0:5001,kv-1:5001,kv-2:5001") _ ltac:(vm_compute; reflexivity))).
Defined.
