(* ===== verification/CliTools.v ===== *)
(** * cmd/cli/cmd: sicliMetrics.go, sicliConfig.go (show), test.go

    What the client prints of a node's metrics, raw and formatted, what
    [config show] prints, and the requests of the load test.  Text is ASCII:
    a character is a byte. *)

From Stdlib Require Import Strings.String.
From stdpp Require Import base list gmap.
From Stdlib Require Import ZArith Lia.
From S2P Require Import Prelude GoDir GoText GoUrl Metrics KvStore Server.

(** ** sicliMetrics.go *)

Inductive category := RaftMetrics | KVStoreMetrics | HTTPMetrics | SystemMetrics.
#[export] Instance category_eq_dec : EqDecision category.
Proof. solve_decision. Defined.

Definition category_title (c : category) : bytes :=
  match c with
  | RaftMetrics => lit "Raft Metrics"
  | KVStoreMetrics => lit "KV Store Metrics"
  | HTTPMetrics => lit "HTTP Metrics"
  | SystemMetrics => lit "System Metrics"
  end.

(** The switch of [displayFormattedMetrics]. *)
Definition categorize (line : bytes) : category :=
  if Contains line (lit "raft_") then RaftMetrics
  else if Contains line (lit "kv_") then KVStoreMetrics
  else if Contains line (lit "http_") then HTTPMetrics
  else SystemMetrics.

(** One round of the loop over the lines; the map always has the four keys. *)
Definition sort_line (filter : bytes) (categories : category → list bytes) (line : bytes) : category → list bytes :=
  let line := TrimSpace line in
  if bool_decide (line = []) || HasPrefix line [hash] then categories
  else if negb (bool_decide (filter = [])) && negb (Contains line filter) then categories
  else λ c, if decide (categorize line = c) then categories c ++ [line] else categories c.

Definition print_metric (metric : bytes) : bytes :=
  match Fields metric with
  | name :: value :: _ => lit "  " ++ pad_right 30 name ++ space :: value ++ [newline]
  | _ => []
  end.

Definition print_category (categories : category → list bytes) (c : category) : bytes :=
  match categories c with
  | [] => []
  | metricLines => category_title c ++ lit ":" ++ newline :: flat_map print_metric metricLines ++ [newline]
  end.

(** [order] is the iteration order of the map of categories. *)
Definition displayFormattedMetrics (metrics filter : bytes) (order : list category) : bytes :=
  let lines := split_on newline metrics in
  let categories := foldl (sort_line filter) (λ _, []) lines in
  lit "=== KV-Store Cluster Metrics ===" ++ newline :: newline :: flat_map (print_category categories) order.

(** The command after the request: what it prints of the answer. *)
Definition metricsCmd (metricsFormat metricsFilter metrics : bytes) (order : list category) : bytes :=
  if bool_decide (metricsFormat = lit "raw") then
    if negb (bool_decide (metricsFilter = [])) then
      join newline (List.filter (λ line, Contains line metricsFilter) (split_on newline metrics)) ++ [newline]
    else metrics ++ [newline]
  else displayFormattedMetrics metrics metricsFilter order.

(** ** sicliConfig.go *)

(** [config show]; [show_duration] is [time.Duration.String]. *)
Definition configShow (decode : bytes → option Config) (show_duration : Z → bytes) (files : gmap bytes bytes) (path : bytes) : bytes :=
  let '(notice, config) :=
    match loadConfig decode files path with
    | Some config => ([], config)
    | None => (lit "No configuration found, using defaults:" ++ [newline], default_config)
    end in
  notice ++ lit "Server URL: " ++ ServerURL config ++ newline :: lit "Timeout: " ++ show_duration (Timeout config) ++
  newline :: lit "Config file: " ++ path ++ [newline].

(** ** test.go *)

(** The method and URL of the load test. *)
Definition vegeta_target (baseURL testType : bytes) : bytes * bytes :=
  if bool_decide (testType = lit "put") then (lit "PUT", baseURL ++ lit "/put?key=testkey&val=testvalue")
  else if bool_decide (testType = lit "delete") then (lit "DELETE", baseURL ++ lit "/delete?key=testkey")
  else (lit "GET", baseURL ++ lit "/get?key=testkey").

(** * Lemmas *)

Lemma TrimLeft_id b s : is_space b = false → TrimLeft (b :: s) = b :: s.
Proof. intros H. simpl. by rewrite H. Qed.

(** Nothing is trimmed between two characters that are not white space. *)
Lemma TrimSpace_id a s b : is_space a = false → is_space b = false → TrimSpace (a :: s ++ [b]) = a :: s ++ [b].
Proof.
  intros Ha Hb. unfold TrimSpace. rewrite TrimLeft_id by done.
  change (a :: s ++ [b]) with ((a :: s) ++ [b]). rewrite reverse_snoc, TrimLeft_id by done.
  by rewrite reverse_cons, reverse_involutive.
Qed.

Lemma TrimLeft_suffix s : ∃ p, s = p ++ TrimLeft s.
Proof.
  induction s as [|b s [p E]]; [by exists []|]. simpl. destruct (is_space b); [|by exists []].
  exists (b :: p). simpl. by f_equal.
Qed.

(** Trimming keeps a first character that is not white space. *)
Lemma TrimSpace_head a s : is_space a = false → ∃ s', TrimSpace (a :: s) = a :: s'.
Proof.
  intros Ha. unfold TrimSpace. rewrite TrimLeft_id by done.
  destruct (TrimLeft_suffix (reverse (a :: s))) as [p E]. apply (f_equal reverse) in E.
  rewrite reverse_involutive, reverse_app in E.
  destruct (reverse (TrimLeft (reverse (a :: s)))) as [|x l] eqn:El; [|injection E as -> _; by eexists].
  exfalso. apply (f_equal reverse) in El. rewrite reverse_involutive in El. simpl in El.
  rewrite reverse_cons in El. clear E p. revert El. induction (reverse s) as [|x l IH]; simpl.
  - by rewrite Ha.
  - by destruct (is_space x).
Qed.

(** A line that is kept goes to the end of its category. *)
Definition kept (filter line : bytes) : bool :=
  let line := TrimSpace line in
  negb (bool_decide (line = []) || HasPrefix line [hash]) && (bool_decide (filter = []) || Contains line filter).

Lemma sort_lines filter lines cats c :
  foldl (sort_line filter) cats lines c =
    cats c ++ List.filter (λ l, bool_decide (categorize l = c)) (map TrimSpace (List.filter (kept filter) lines)).
Proof.
  revert cats. induction lines as [|line lines IH]; intros cats; simpl; [by rewrite app_nil_r|].
  rewrite IH. unfold sort_line, kept at 2. cbv zeta.
  destruct (bool_decide (TrimSpace line = []) || HasPrefix (TrimSpace line) [hash]); cbn [negb andb]; [done|].
  destruct (bool_decide (filter = [])), (Contains (TrimSpace line) filter); cbn [negb andb orb map List.filter]; try done;
    (destruct (decide _) as [->|]; [rewrite bool_decide_eq_true_2 by done; by rewrite <-(assoc_L (++))
                                   |by rewrite bool_decide_eq_false_2]).
Qed.

Lemma split_lines ls : Forall (λ l, newline ∉ l) ls → split_on newline (flat_map (λ l, l ++ [newline]) ls) = ls ++ [[]].
Proof.
  induction 1 as [|l ls Hl _ IH]; [done|]. simpl. rewrite <-(assoc_L (++)). simpl.
  rewrite split_on_app by done. by rewrite IH.
Qed.

Definition word (s : bytes) : Prop := s ≠ [] ∧ Forall (λ b, is_space b = false) s.

Lemma fields_word s cur rest : Forall (λ b, is_space b = false) s → fields_from (s ++ rest) cur = fields_from rest (cur ++ s).
Proof.
  intros Hs. revert cur. induction Hs as [|b s Hb _ IH]; intros cur; simpl; [by rewrite app_nil_r|].
  rewrite Hb, IH. by rewrite <-(assoc_L (++)).
Qed.

Lemma Fields_two w v : word w → word v → Fields (w ++ space :: v) = [w; v].
Proof.
  intros [Hw1 Hw2] [Hv1 Hv2]. unfold Fields. rewrite fields_word by done. cbn [app fields_from].
  change (is_space space) with true. cbv iota. rewrite bool_decide_eq_false_2 by done. f_equal.
  rewrite <-(app_nil_r v) at 1. rewrite fields_word by done. simpl. by rewrite bool_decide_eq_false_2.
Qed.

(** ** What a node's metrics look like *)

Definition brace : byte := Byte.x7b.

(** A line of the Prometheus text: a comment, or a sample of a declared
    metric; [labels] is the text between the braces and the closing one. *)
Inductive metric_line := Comment (text : bytes) | Sample (m : metric) (labels value : bytes).

Definition sample_name (m : metric) (labels : bytes) : bytes := metric_name m ++ brace :: labels.
Definition line_text (l : metric_line) : bytes :=
  match l with
  | Comment text => hash :: text
  | Sample m labels value => sample_name m labels ++ space :: value
  end.
Definition prom_text (ls : list metric_line) : bytes := flat_map (λ l, line_text l ++ [newline]) ls.

(** No white space in the labels, no category prefix behind the name. *)
Definition line_ok (l : metric_line) : Prop :=
  match l with
  | Comment text => newline ∉ text
  | Sample m labels value =>
      Forall (λ b, is_space b = false) labels ∧ word value ∧
      Forall (λ p, Contains (labels ++ space :: value) p = false) [lit "raft_"; lit "kv_"; lit "http_"]
  end.

(** The section of a metric. *)
Definition section_of (m : metric) : category :=
  match m with
  | TermGauge | CommitIndexGauge | StateGauge | LeaderGauge => RaftMetrics
  | LevelFileCount | LevelSize => KVStoreMetrics
  | HttpRequestsTotal | HttpRequestDuration => HTTPMetrics
  end.

Definition shown (filter : bytes) (l : metric_line) : bool :=
  match l with
  | Comment _ => false
  | Sample _ _ _ => bool_decide (filter = []) || Contains (line_text l) filter
  end.
Definition in_section (c : category) (l : metric_line) : bool :=
  match l with Comment _ => false | Sample m _ _ => bool_decide (section_of m = c) end.
Definition sample_output (l : metric_line) : bytes :=
  match l with
  | Comment _ => []
  | Sample m labels value => lit "  " ++ pad_right 30 (sample_name m labels) ++ space :: value ++ [newline]
  end.

Lemma name_word m labels : Forall (λ b, is_space b = false) labels → word (sample_name m labels).
Proof.
  intros Hl. split; [by destruct m|]. apply Forall_app. split; [by destruct m; repeat constructor|].
  by constructor.
Qed.

Lemma categorize_sample m labels value : line_ok (Sample m labels value) → categorize (line_text (Sample m labels value)) = section_of m.
Proof.
  intros (_ & _ & Hp). rewrite Forall_cons, Forall_cons, Forall_cons in Hp. destruct Hp as (H1 & H2 & H3 & _).
  unfold categorize, line_text, sample_name. rewrite <-(assoc_L (++)). cbn [app].
  assert (∀ p, p ∈ [lit "raft_"; lit "kv_"; lit "http_"] → brace ∉ p ∧ p ≠ []) as Hb.
  { intros p Hin. apply elem_of_cons in Hin as [->|Hin]; [|apply elem_of_cons in Hin as [->|Hin];
      [|apply list_elem_of_singleton in Hin as ->]]; (split; [|done]); apply (bool_decide_unpack _); vm_compute; exact I. }
  assert (∀ p, p ∈ [lit "raft_"; lit "kv_"; lit "http_"] → Contains (labels ++ space :: value) p = false →
    Contains (metric_name m ++ brace :: labels ++ space :: value) p = Contains (metric_name m) p) as Hc.
  { intros p Hin H. destruct (Hb p Hin) as [Hb1 Hb2]. rewrite Contains_sep by done.
    by rewrite H, bool_decide_eq_false_2, !orb_false_r. }
  rewrite !Hc by (done || rewrite !elem_of_cons; auto). by destruct m.
Qed.

(** A sample is not trimmed. *)
Lemma sample_trim m labels value : word value → TrimSpace (line_text (Sample m labels value)) = line_text (Sample m labels value).
Proof.
  intros [Hv1 Hv2]. destruct (exists_last Hv1) as (v & b & ->). apply Forall_app in Hv2 as [_ Hb%Forall_inv].
  assert (∃ a s, metric_name m = a :: s ∧ is_space a = false) as (a & s & E & Ha) by (destruct m; by eexists _, _).
  unfold line_text, sample_name. rewrite E.
  replace (((a :: s) ++ brace :: labels) ++ space :: v ++ [b]) with (a :: (s ++ brace :: labels ++ space :: v) ++ [b])
    by (by simplify_list_eq).
  by apply TrimSpace_id.
Qed.

Lemma kept_line filter l : line_ok l → kept filter (line_text l) = shown filter l.
Proof.
  destruct l as [text|m labels value]; intros Hok.
  - destruct (TrimSpace_head hash text) as [s' E]; [done|]. unfold kept. cbn [line_text]. rewrite E.
    change (HasPrefix (hash :: s') [hash]) with (HasPrefix ([hash] ++ s') [hash]). by rewrite HasPrefix_app, orb_true_r.
  - destruct Hok as (_ & Hv & _). unfold kept, shown. rewrite sample_trim by done.
    assert (∃ a s, line_text (Sample m labels value) = a :: s ∧ a ≠ hash) as (a & s & -> & Ha) by (destruct m; by eexists _, _).
    rewrite (bool_decide_eq_false_2 (_ = [])) by done. unfold HasPrefix. simpl.
    rewrite (bool_decide_eq_false_2 ([a] = _)) by congruence. done.
Qed.

Lemma line_no_newline l : line_ok l → newline ∉ line_text l.
Proof.
  assert (∀ s, Forall (λ b, is_space b = false) s → newline ∉ s) as Hs.
  { intros s Hs Hin. rewrite Forall_forall in Hs. by specialize (Hs _ Hin). }
  destruct l as [text|m labels value]; simpl.
  - intros H [?|?]%elem_of_cons; done.
  - intros (Hl & [_ Hv] & _). rewrite elem_of_app, elem_of_cons. intros [H|[?|H]]; [|done|by apply (Hs value)].
    by apply (Hs (sample_name m labels)); [apply name_word|].
Qed.

Lemma shown_lines filter ls :
  Forall line_ok ls →
  map TrimSpace (List.filter (kept filter) (map line_text ls)) = map line_text (List.filter (shown filter) ls).
Proof.
  induction 1 as [|l ls Hl _ IH]; [done|]. simpl. rewrite kept_line by done.
  destruct (shown filter l) eqn:E; [|done]. simpl. rewrite IH. f_equal.
  destruct l as [text|m labels value]; [done|]. by apply sample_trim, Hl.
Qed.

Lemma section_lines filter c ls :
  Forall line_ok ls →
  List.filter (λ l, bool_decide (categorize l = c)) (map line_text (List.filter (shown filter) ls)) =
    map line_text (List.filter (λ l, shown filter l && in_section c l) ls).
Proof.
  induction 1 as [|l ls Hl _ IH]; [done|]. simpl. destruct (shown filter l) eqn:E; [|done]. simpl. rewrite IH.
  destruct l as [text|m labels value]; [done|]. rewrite categorize_sample by done. simpl. by destruct (bool_decide _).
Qed.

Lemma print_samples filter c ls :
  Forall line_ok ls →
  flat_map print_metric (map line_text (List.filter (λ l, shown filter l && in_section c l) ls)) =
    flat_map sample_output (List.filter (λ l, shown filter l && in_section c l) ls).
Proof.
  induction 1 as [|l ls Hl _ IH]; [done|]. simpl. destruct (shown filter l && in_section c l) eqn:E; [|done]. simpl. rewrite IH. f_equal.
  destruct l as [text|m labels value]; [done|]. destruct Hl as (Hn & Hv & _).
  unfold print_metric, line_text. by rewrite Fields_two by (done || by apply name_word).
Qed.

(** * Properties *)

(** The formatted metrics: for the text a node serves (comments, and
    samples of the declared metrics), [sicli metrics] prints, for every
    section with a sample that contains the filter, the title and exactly
    these samples, with name and value and in the order of the text; the
    sections are those of the metrics' names. *)
Theorem formatted_output ls filter order :
  Forall line_ok ls →
  metricsCmd (lit "formatted") filter (prom_text ls) order =
    lit "=== KV-Store Cluster Metrics ===" ++ newline :: newline ::
    flat_map (λ c,
      match List.filter (λ l, shown filter l && in_section c l) ls with
      | [] => []
      | ss => category_title c ++ lit ":" ++ newline :: flat_map sample_output ss ++ [newline]
      end) order.
Proof.
  intros Hls. change (metricsCmd _ _ _ _) with (displayFormattedMetrics (prom_text ls) filter order).
  unfold displayFormattedMetrics. f_equal. f_equal. f_equal. apply flat_map_ext. intros c.
  unfold print_category. rewrite sort_lines. cbn [app].
  assert (split_on newline (prom_text ls) = map line_text ls ++ [[]]) as ->.
  { rewrite <-split_lines; [f_equal; unfold prom_text; induction ls as [|l ls IH]; [done|]; simpl; f_equal; apply IH; by inversion Hls|].
    apply Forall_map. eapply Forall_impl; [done|]. apply line_no_newline. }
  rewrite List.filter_app. change (List.filter (kept filter) [[]]) with (@nil bytes). rewrite app_nil_r.
  rewrite shown_lines, section_lines by done. pose proof (print_samples filter c ls Hls) as P. revert P.
  destruct (List.filter _ ls) as [|l0 l]; [done|]. cbn [map]. by intros ->.
Qed.

Definition demo_lines : list metric_line :=
  [Comment (lit " HELP kv_level_file_count Number of SSTables at each level");
   Sample LevelFileCount (lit "level=0,node_id=1}") (lit "2"); Sample TermGauge (lit "node_id=1}") (lit "7")].

Lemma formatted_output_witness :
  metricsCmd (lit "formatted") (lit "node_id=1") (prom_text demo_lines) [SystemMetrics; KVStoreMetrics; RaftMetrics; HTTPMetrics] =
    lit "=== KV-Store Cluster Metrics ===" ++ [newline; newline] ++
    lit "KV Store Metrics:" ++ [newline] ++ lit "  kv_level_file_count{level=0,node_id=1} 2" ++ [newline; newline] ++
    lit "Raft Metrics:" ++ [newline] ++ lit "  raft_current_term{node_id=1}   7" ++ [newline; newline].
Proof.
  rewrite (formatted_output demo_lines); [vm_compute; reflexivity|].
  repeat constructor; try (vm_compute; reflexivity); try discriminate.
  apply (bool_decide_unpack _). vm_compute. exact I.
Defined.

(** Raw output: with an empty filter the text is printed as it came; with
    a filter, the lines that contain it, and a filter every line contains
    changes nothing. *)
Theorem raw_output text filter order :
  metricsCmd (lit "raw") filter text order = join newline (List.filter (λ line, Contains line filter) (split_on newline text)) ++ [newline] ∧
  (Forall (λ line, Contains line filter = true) (split_on newline text) → metricsCmd (lit "raw") filter text order = text ++ [newline]).
Proof.
  assert (∀ l, Forall (λ line, Contains line filter = true) l → List.filter (λ line, Contains line filter) l = l) as Hall
    by (induction 1 as [|x l Hx _ IH]; simpl; [done|]; by rewrite Hx, IH).
  assert (metricsCmd (lit "raw") filter text order =
    join newline (List.filter (λ line, Contains line filter) (split_on newline text)) ++ [newline]) as E.
  { unfold metricsCmd. rewrite bool_decide_eq_true_2 by done. destruct (decide (filter = [])) as [->|Hne].
    - rewrite bool_decide_eq_true_2 by done. cbn [negb]. rewrite Hall, join_split; [done|]. apply Forall_forall. intros ? _. apply Contains_nil.
    - by rewrite bool_decide_eq_false_2. }
  split; [done|]. intros H. by rewrite E, Hall, join_split.
Qed.

Lemma raw_output_witness : metricsCmd (lit "raw") (lit "a") (lit "ab") [] = lit "ab" ++ [newline].
Proof. apply (raw_output (lit "ab") (lit "a") []). repeat constructor. Defined.

(** [config show] shows what commands use: the server and timeout it
    prints are those a command without flags works with. *)
Theorem config_show_used decode show_duration files path :
  ∃ notice, configShow decode show_duration files path =
    notice ++ lit "Server URL: " ++ fst (preRun decode files path None None) ++ newline ::
    lit "Timeout: " ++ show_duration (snd (preRun decode files path None None)) ++ newline :: lit "Config file: " ++ path ++ [newline].
Proof. unfold configShow, preRun. destruct (loadConfig _ _ _) as [config|];
  [by exists []|by exists (lit "No configuration found, using defaults:" ++ [newline])]. Qed.
