(* ===== verification/Cli.v ===== *)
(** * cmd/cli: the program sicli

    The commands of the client with their arguments and flags, the settings
    they start with, what each [RunE] does, and the exit status of
    [Execute].  The parsing of the command line is done by cobra: an
    invocation is what cobra hands over, and its [ExactArgs] is an argument.
    The servers, the file system and the programs sicli starts, which may
    change files, are a [world]. *)

From Stdlib Require Import Strings.String.
From stdpp Require Import base list gmap.
From Stdlib Require Import ZArith Lia.
From S2P Require Import Prelude GoDir GoText GoUrl Metrics KvStore Server CliTools.

(** ** Commands and flags *)

Inductive command := C_put | C_get | C_delete | C_metrics | C_config_set | C_config_show | C_vegeta | C_chaos.

(** The words that name a command, below [sicli]: the [Use] fields along
    [AddCommand]. *)
Definition command_path (c : command) : list bytes :=
  match c with
  | C_put => [lit "put"]
  | C_get => [lit "get"]
  | C_delete => [lit "delete"]
  | C_metrics => [lit "metrics"]
  | C_config_set => [lit "config"; lit "set"]
  | C_config_show => [lit "config"; lit "show"]
  | C_vegeta => [lit "test"; lit "vegeta"]
  | C_chaos => [lit "test"; lit "chaos"]
  end.

(** The [Args] field: a number for [cobra.ExactArgs]. *)
Definition command_args (c : command) : option nat :=
  match c with
  | C_put => Some 2%nat
  | C_get | C_delete => Some 1%nat
  | _ => None
  end.

(** The flags; [None]: an inherited flag that was not given ([Changed]). *)
Record flags := mkFlags {
  fl_addr : option bytes;
  fl_timeout : option Z;
  fl_format : bytes;
  fl_filter : bytes;
  fl_server_url : bytes;
  fl_set_timeout : Z;
  fl_duration : bytes;
  fl_rate : bytes;
  fl_type : bytes;
  fl_workers : Z
}.

(** The defaults given in the [init] functions. *)
Definition default_flags : flags :=
  mkFlags None None (lit "formatted") [] [] 0 (lit "30s") (lit "50") (lit "get") 3.

(** ** The world *)

(** What sicli does with other programs. *)
Inductive proc_step :=
| LookPath (name : bytes)
| StatFile (path : bytes)
| StdoutPipe
| StartProc (argv : list bytes) (stdin : bytes)
| WaitProc (argv : list bytes)
| RunProc (argv : list bytes).

(** Files, the home directory, whether the configuration can be written, the
    answer to a request (method, URL, timeout; [None]: the request fails), and
    what a step leaves of the files and whether it succeeds (for [StatFile]:
    [os.IsNotExist] is false).  [go test -c] writes a file, and the other
    programs may. *)
Record world := mkWorld {
  wd_files : gmap bytes bytes;
  wd_home : option bytes;
  wd_writable : bool;
  wd_server : bytes → bytes → Z → delivery → option (Z * option bytes);
  wd_proc : gmap bytes bytes → proc_step → gmap bytes bytes * bool
}.

(** The steps that run a program; the others leave the files alone. *)
Definition runs_program (p : proc_step) : bool :=
  match p with StartProc _ _ | WaitProc _ | RunProc _ => true | LookPath _ | StatFile _ | StdoutPipe => false end.
Definition proc (w : world) (files : gmap bytes bytes) (p : proc_step) : gmap bytes bytes * bool :=
  let '(files', ok) := wd_proc w files p in (if runs_program p then files' else files, ok).

(** What is seen of a command: output, requests, and programs. *)
Inductive cli_event := Out (bs : bytes) | Sent (method url : bytes) | Proc (p : proc_step).

(** Why a command ended early. *)
Inductive failure := UsageError | RequestError (e : cli_error) | ConfigError | ProcError (prefix : bytes).

Definition println (s : bytes) : list cli_event := [Out (s ++ [newline])].

(** The outcome of a [RunE]: the files, the events and the error. *)
Definition cli_run : Type := outcome (gmap bytes bytes * list cli_event * option failure).

Section commands.
(** [json.MarshalIndent], [json.Unmarshal], [time.Duration.String], the order
    in which the map of categories is walked. *)
Context (encode : Config → bytes) (decode : bytes → option Config) (show_duration : Z → bytes).
Context (order : list category).
Context (w : world) (baseURL : bytes) (timeout : Z).

Definition finished (events : list cli_event) : cli_run := Ok (wd_files w, events, None).
Definition failed (events : list cli_event) (e : failure) : cli_run := Ok (wd_files w, events, Some e).

(** [doRequest], and what to do with the body; a URL that [NewRequest] refuses
    is not sent. *)
Definition sent (method url : bytes) : list cli_event :=
  match send_url url with NotSent => [] | _ => [Sent method url] end.
Definition request (method url : bytes) (k : bytes → list cli_event) : cli_run :=
  match doRequest url (wd_server w method url timeout) with
  | inl e => failed (sent method url) (RequestError e)
  | inr body => finished (sent method url ++ k body)
  end.

Definition putRunE (args : list bytes) : cli_run :=
  key ← index args 0;
  value ← index args 1;
  request (lit "POST") (cli_put baseURL key value) (λ _, println (lit "---Success---")).

Definition getRunE (args : list bytes) : cli_run :=
  key ← index args 0;
  request (lit "GET") (cli_get baseURL key) println.

Definition deleteRunE (args : list bytes) : cli_run :=
  key ← index args 0;
  request (lit "DELETE") (cli_delete baseURL key) (λ _, println (lit "----Deleted---")).

Definition metricsRunE (fl : flags) : cli_run :=
  request (lit "GET") (baseURL ++ lit "/metrics") (λ metrics, [Out (metricsCmd (fl_format fl) (fl_filter fl) metrics order)]).

(** [configFile] has no flag, so the path is the one in the home directory. *)
Definition config_path : bytes := getConfigPath [] (wd_home w).

Definition configSetRunE (fl : flags) : cli_run :=
  match configSet encode decode (wd_files w) config_path (fl_server_url fl) (fl_set_timeout fl) (wd_writable w) with
  | None => failed [] ConfigError
  | Some files => Ok (files, println (lit "Configuration updated"), None)
  end.

Definition configShowRunE : cli_run := finished [Out (configShow decode show_duration (wd_files w) config_path)].

(** Steps until one fails. *)
Fixpoint script (files : gmap bytes bytes) (steps : list (proc_step * bytes))
  : gmap bytes bytes * list cli_event * option failure :=
  match steps with
  | [] => (files, [], None)
  | (p, prefix) :: steps' =>
      let '(files, ok) := proc w files p in
      if ok : bool then let '(files, evs, r) := script files steps' in (files, Proc p :: evs, r)
      else (files, [Proc p], Some (ProcError prefix))
  end.

Definition run_script (before : list cli_event) (steps : list (proc_step * bytes)) : cli_run :=
  let '(files, evs, r) := script (wd_files w) steps in Ok (files, before ++ evs, r).

Definition attack_argv (fl : flags) : list bytes :=
  [lit "vegeta"; lit "attack"; lit "-duration"; fl_duration fl; lit "-rate"; fl_rate fl; lit "-targets"; lit "-"].
Definition report_argv : list bytes := [lit "vegeta"; lit "report"].

Definition vegetaRunE (fl : flags) : cli_run :=
  if negb (snd (proc w (wd_files w) (LookPath (lit "vegeta")))) then failed [Proc (LookPath (lit "vegeta"))] (ProcError (lit "vegeta is not installed"))
  else
    let '(httpMethod, targetURL) := vegeta_target baseURL (fl_type fl) in
    run_script
      (Proc (LookPath (lit "vegeta")) :: println (lit "Running Vegeta load test...") ++
       println (lit "Target: " ++ httpMethod ++ space :: targetURL) ++ println (lit "Duration: " ++ fl_duration fl) ++
       println (lit "Rate: " ++ fl_rate fl ++ lit " requests/second") ++ println [])
      [(StdoutPipe, lit "failed to create pipe");
       (StartProc (attack_argv fl) (httpMethod ++ space :: targetURL ++ [newline]), lit "failed to start attack");
       (StartProc report_argv [], lit "failed to start report");
       (WaitProc (attack_argv fl), lit "attack failed");
       (WaitProc report_argv, lit "report failed")].

Definition chaos_path : bytes := lit "tests/chaos/chaos.test".
Definition build_argv : list bytes := [lit "go"; lit "test"; lit "-c"; lit "./tests/chaos"].

Definition chaosRunE (fl : flags) : cli_run :=
  let head := println (lit "Running chaos tests with " ++ itoa (fl_workers fl) ++ lit " workers...") ++
    println (lit "Target cluster: " ++ baseURL) ++ println [] in
  let run := [(RunProc [lit "./tests/chaos/chaos.test"; lit "-test.v"; lit "-workers"; itoa (fl_workers fl); lit "-addr"; baseURL],
               lit "chaos test failed")] in
  if snd (proc w (wd_files w) (StatFile chaos_path)) then run_script (head ++ [Proc (StatFile chaos_path)]) run
  else run_script (head ++ Proc (StatFile chaos_path) :: println (lit "Building chaos test binary..."))
         ((RunProc build_argv, lit "failed to build chaos test") :: run).

Definition runE (c : command) (fl : flags) (args : list bytes) : cli_run :=
  match c with
  | C_put => putRunE args
  | C_get => getRunE args
  | C_delete => deleteRunE args
  | C_metrics => metricsRunE fl
  | C_config_set => configSetRunE fl
  | C_config_show => configShowRunE
  | C_vegeta => vegetaRunE fl
  | C_chaos => chaosRunE fl
  end.
End commands.

(** ** [Execute] *)

Section execute.
Context (encode : Config → bytes) (decode : bytes → option Config) (show_duration : Z → bytes).
Context (order : list category).
(** [cobra.ExactArgs(n)] on the arguments. *)
Context (ExactArgs : nat → list bytes → bool).

Definition args_ok (c : command) (args : list bytes) : bool :=
  match command_args c with Some n => ExactArgs n args | None => true end.

(** Arguments first, then [PersistentPreRun], then [RunE]. *)
Definition execute (w : world) (c : command) (fl : flags) (args : list bytes) : cli_run :=
  if args_ok c args then
    let '(baseURL, timeout) := preRun decode (wd_files w) (config_path w) (fl_addr fl) (fl_timeout fl) in
    runE encode decode show_duration order w baseURL timeout c fl args
  else failed w [] UsageError.

(** The exit status; an error is [os.Exit(1)], a panic of Go is 2. *)
Definition Execute (w : world) (c : command) (fl : flags) (args : list bytes) : Z :=
  match execute w c fl args with
  | Ok (_, _, None) => 0
  | Ok (_, _, Some _) => 1
  | _ => 2
  end.
End execute.

(** * Lemmas *)

Lemma putRunE_args w base timeout k v :
  putRunE w base timeout [k; v] =
    request w timeout (lit "POST") (cli_put base k v) (λ _, println (lit "---Success---")).
Proof. reflexivity. Qed.

Lemma getRunE_args w base timeout k :
  getRunE w base timeout [k] = request w timeout (lit "GET") (cli_get base k) println.
Proof. reflexivity. Qed.

Lemma deleteRunE_args w base timeout k :
  deleteRunE w base timeout [k] =
    request w timeout (lit "DELETE") (cli_delete base k) (λ _, println (lit "----Deleted---")).
Proof. reflexivity. Qed.

(** ** What an invocation should do *)

Definition args_fit (c : command) (args : list bytes) : bool :=
  match command_args c with Some n => (length args =? n)%nat | None => true end.

(** The request of a command. *)
Definition asks (base : bytes) (c : command) (args : list bytes) : option (bytes * bytes) :=
  match c, args with
  | C_put, [k; v] => Some (lit "POST", cli_put base k v)
  | C_get, [k] => Some (lit "GET", cli_get base k)
  | C_delete, [k] => Some (lit "DELETE", cli_delete base k)
  | C_metrics, _ => Some (lit "GET", base ++ lit "/metrics")
  | _, _ => None
  end.

(** The server answered with a status below 400 and a readable body. *)
Definition succeeds (w : world) (timeout : Z) (method url : bytes) : Prop :=
  send_url url ≠ NotSent ∧
  ∃ code b, wd_server w method url timeout (send_url url) = Some (code, Some b) ∧ code < 400.

(** The requests among the events. *)
Definition requests (evs : list cli_event) : list (bytes * bytes) :=
  omap (λ ev, match ev with Sent method url => Some (method, url) | _ => None end) evs.

(** The files after the programs among the events, and whether all steps went
    well; a missing file is no failure. *)
Definition replay_step (w : world) (st : gmap bytes bytes * bool) (ev : cli_event) : gmap bytes bytes * bool :=
  match ev with
  | Proc p =>
      let '(files, ok) := proc w (fst st) p in
      (files, snd st && (ok || match p with StatFile _ => true | _ => false end))
  | _ => st
  end.
Definition replay (w : world) (files : gmap bytes bytes) (evs : list cli_event) : gmap bytes bytes * bool :=
  foldl (replay_step w) (files, true) evs.

Definition succeeded (r : option failure) : bool := match r with None => true | Some _ => false end.

(** What the run of a command with the right arguments looks like. *)
Definition run_ok (w : world) (base : bytes) (timeout : Z) (c : command) (args : list bytes)
    (files : gmap bytes bytes) (evs : list cli_event) (r : option failure) : Prop :=
  match asks base c args with
  | Some (method, url) =>
      requests evs = match send_url url with NotSent => [] | _ => [(method, url)] end ∧
      replay w (wd_files w) evs = (files, true) ∧ files = wd_files w ∧
      (r = None ↔ succeeds w timeout method url)
  | None =>
      requests evs = [] ∧
      match c with
      | C_config_set =>
          (∀ path, path ≠ config_path w → files !! path = wd_files w !! path) ∧ (r = None ↔ wd_writable w = true)
      | _ => replay w (wd_files w) evs = (files, succeeded r)
      end
  end.

Lemma doRequest_succeeds w timeout method url :
  match doRequest url (wd_server w method url timeout) with
  | inl _ => ¬ succeeds w timeout method url
  | inr _ => succeeds w timeout method url
  end.
Proof.
  unfold doRequest, succeeds. destruct (send_url url) as [q| |] eqn:E; [| |by intros [? _]].
  all: destruct (wd_server w method url timeout _) as [[code [b|]]|]; [|by intros (_ & ? & ? & [=] & _)..].
  all: destruct (Z.leb_spec 400 code); [intros (_ & ? & ? & [= <- <-] & ?); lia|split; [done|by eexists _, _]].
Qed.

Definition outs (evs : list cli_event) : Prop := Forall (λ ev, ∃ bs, ev = Out bs) evs.

Lemma foldl_outs w st evs : outs evs → foldl (replay_step w) st evs = st.
Proof. intros H. revert st. induction H as [|ev evs [bs ->] _ IH]; intros st; [done|]. apply IH. Qed.

Lemma replay_outs w files evs : outs evs → replay w files evs = (files, true) ∧ requests evs = [].
Proof. intros H. split; [by apply foldl_outs|]. by induction H as [|ev evs [bs ->] _ IH]. Qed.

(** Commands that send one request and print. *)
Lemma request_ok w base timeout c args method url k :
  asks base c args = Some (method, url) → (∀ b, outs (k b)) →
  ∃ files evs r, request w timeout method url k = Ok (files, evs, r) ∧ run_ok w base timeout c args files evs r.
Proof.
  intros Ha Hk. unfold request, run_ok. rewrite Ha. pose proof (doRequest_succeeds w timeout method url) as H.
  assert (requests (sent method url) = match send_url url with NotSent => [] | _ => [(method, url)] end ∧
    replay w (wd_files w) (sent method url) = (wd_files w, true)) as [Hs Hr]
    by (unfold sent; by destruct (send_url url)).
  destruct (doRequest url _) as [e|b]; [by eexists _, _, _|].
  destruct (replay_outs w (wd_files w) (k b) (Hk b)) as [H1 H2].
  eexists _, _, _. split; [done|]. split; [|split; [|done]].
  - unfold requests in *. by rewrite omap_app, Hs, H2, app_nil_r.
  - unfold replay in *. by rewrite foldl_app, Hr.
Qed.

Lemma script_replay w files steps ok :
  Forall (λ s, match fst s with StatFile _ => False | _ => True end) steps →
  let '(files', evs, r) := script w files steps in
  requests evs = [] ∧ foldl (replay_step w) (files, ok) evs = (files', ok && succeeded r).
Proof.
  intros H. revert files ok. induction H as [|[p prefix] steps Hp _ IH]; intros files ok; simpl; [by rewrite andb_true_r|].
  destruct (proc w files p) as [files1 []] eqn:E.
  - specialize (IH files1 ok). destruct (script w files1 steps) as [[files2 evs] r]. destruct IH as [H1 H2].
    split; [done|]. simpl. by rewrite E, orb_true_l, andb_true_r.
  - split; [done|]. simpl. rewrite E. by destruct p.
Qed.

(** Commands that run programs. *)
Lemma run_script_ok w base timeout c args before steps :
  asks base c args = None → c ≠ C_config_set → requests before = [] ∧ replay w (wd_files w) before = (wd_files w, true) →
  Forall (λ s, match fst s with StatFile _ => False | _ => True end) steps →
  ∃ files evs r, run_script w before steps = Ok (files, evs, r) ∧ run_ok w base timeout c args files evs r.
Proof.
  intros Ha Hc [Hq Hb] Hs. unfold run_script, run_ok. rewrite Ha. pose proof (script_replay w (wd_files w) steps true Hs) as H.
  destruct (script w (wd_files w) steps) as [[files evs] r]. destruct H as [H1 H2].
  eexists _, _, _. split; [done|]. split; [unfold requests in *; by rewrite omap_app, Hq, H1|].
  assert (replay w (wd_files w) (before ++ evs) = (files, succeeded r)) as HR
    by (unfold replay in *; by rewrite foldl_app, Hb).
  by destruct c.
Qed.

(** A check before, which runs no program. *)
Lemma replay_check w before p after ok :
  outs before → outs after → runs_program p = false →
  snd (proc w (wd_files w) p) || match p with StatFile _ => true | _ => false end = ok →
  let evs := before ++ Proc p :: after in requests evs = [] ∧ replay w (wd_files w) evs = (wd_files w, ok).
Proof.
  intros H1 H2 Hp Hok evs. destruct (replay_outs w (wd_files w) before H1) as [R1 Q1]. split.
  - unfold evs, requests in *. rewrite omap_app, Q1. simpl. by apply (replay_outs w (wd_files w)).
  - unfold evs, replay in *. rewrite foldl_app, R1. simpl.
    assert (fst (proc w (wd_files w) p) = wd_files w) as Hf by (unfold proc; destruct (wd_proc w _ p); by rewrite Hp).
    rewrite (surjective_pairing (proc w (wd_files w) p)), Hf, Hok. by apply foldl_outs.
Qed.
Section runs.
Context (encode : Config → bytes) (decode : bytes → option Config) (show_duration : Z → bytes).
Context (order : list category) (w : world) (base : bytes) (timeout : Z) (fl : flags).
Notation run_done c args := (∃ files evs r,
  runE encode decode show_duration order w base timeout c fl args = Ok (files, evs, r) ∧
  run_ok w base timeout c args files evs r).

Lemma out_line bs : outs (println bs).
Proof. apply Forall_singleton. by eexists. Qed.

Lemma runE_args_ok c args n : command_args c = Some n → length args = n → run_done c args.
Proof.
  intros Hc Hl. destruct c; try discriminate Hc; injection Hc as <-; cbn [runE].
  - destruct args as [|k [|v [|]]]; try discriminate Hl. rewrite putRunE_args. apply request_ok; [done|]. intros b. apply out_line.
  - destruct args as [|k [|]]; try discriminate Hl. rewrite getRunE_args. apply request_ok; [done|]. apply out_line.
  - destruct args as [|k [|]]; try discriminate Hl. rewrite deleteRunE_args. apply request_ok; [done|]. intros b. apply out_line.
Qed.

Lemma configSetRunE_ok args : run_done C_config_set args.
Proof.
  cbn [runE]. unfold configSetRunE, configSet, saveConfig, run_ok. destruct (wd_writable w).
  - eexists _, _, _. split; [done|]. split; [done|]. split; [|done]. intros path Hne. by rewrite lookup_insert_ne.
  - by eexists _, _, _.
Qed.

Lemma outs_app evs evs' : outs evs → outs evs' → outs (evs ++ evs').
Proof. apply Forall_app_2. Qed.

Lemma vegetaRunE_ok args : run_done C_vegeta args.
Proof.
  cbn [runE]. unfold vegetaRunE. destruct (snd (proc w _ _)) eqn:E; cbn [negb].
  - destruct (vegeta_target base (fl_type fl)) as [m u]. apply run_script_ok; [done|done| |by repeat constructor].
    apply (replay_check w []); [constructor| |done|by rewrite E].
    repeat apply outs_app; apply out_line.
  - eexists _, _, _. split; [done|]. split; [done|].
    apply (replay_check w [] (LookPath (lit "vegeta")) [] false); [constructor|constructor|done|by rewrite E].
Qed.

Lemma chaosRunE_ok args : run_done C_chaos args.
Proof.
  cbn [runE]. unfold chaosRunE. cbv zeta.
  destruct (snd (proc w _ _)); (apply run_script_ok; [done|done| |by repeat constructor]);
    (apply replay_check; [|first [apply out_line|constructor]|done|apply orb_true_r]);
    repeat apply outs_app; apply out_line.
Qed.

Lemma runE_free_ok c args : command_args c = None → run_done c args.
Proof.
  intros Hc. destruct c; try discriminate Hc.
  - apply request_ok; [done|]. intros b. apply Forall_singleton. by eexists.
  - apply configSetRunE_ok.
  - by eexists _, _, _.
  - apply vegetaRunE_ok.
  - apply chaosRunE_ok.
Qed.
End runs.

(** * Properties *)

(** C34. What an invocation of sicli comes to: given cobra's promise about
    [ExactArgs], no invocation with any arguments, flags, files, servers or
    programs panics.  With a wrong number of arguments nothing is sent, printed
    or started, the status is 1 and the files are as before.  Otherwise [put],
    [get], [delete] and [metrics] send their one request, leave the files
    alone, and end with status 0 exactly when the server answered that request
    with a status below 400 and a readable body; [config set] changes no file
    but the configuration, and ends with 0 exactly when that could be written;
    the other commands send nothing, change files only through the programs
    they run, and end with 0 exactly when every step of theirs went well (the
    test binary that is not there is no failure). *)
Theorem cli_ends encode decode show_duration order ExactArgs w c fl args base timeout :
  (∀ n args, ExactArgs n args = true ↔ length args = n) →
  preRun decode (wd_files w) (config_path w) (fl_addr fl) (fl_timeout fl) = (base, timeout) →
  ∃ files events r,
    execute encode decode show_duration order ExactArgs w c fl args = Ok (files, events, r) ∧
    Execute encode decode show_duration order ExactArgs w c fl args = (if succeeded r then 0 else 1) ∧
    if args_fit c args then run_ok w base timeout c args files events r
    else files = wd_files w ∧ events = [] ∧ r = Some UsageError.
Proof.
  intros HE Hp. cut (∃ files events r,
    execute encode decode show_duration order ExactArgs w c fl args = Ok (files, events, r) ∧
    if args_fit c args then run_ok w base timeout c args files events r
    else files = wd_files w ∧ events = [] ∧ r = Some UsageError).
  { intros (files & evs & r & H1 & H2). exists files, evs, r. split; [done|]. split; [|done].
    unfold Execute. rewrite H1. by destruct r. }
  unfold execute. rewrite Hp. unfold args_ok, args_fit. destruct (command_args c) as [n|] eqn:Ec; [|by apply runE_free_ok].
  destruct (Nat.eqb_spec (length args) n) as [Hn|Hn].
  - rewrite (proj2 (HE n args) Hn). by eapply runE_args_ok.
  - destruct (ExactArgs n args) eqn:Ea; [by apply HE in Ea|]. by eexists _, _, _.
Qed.

Definition demo_world : world :=
  mkWorld ∅ (Some (lit "/home/me")) true (λ _ _ _ _, Some (200, Some (lit "v"))) (λ files _, (files, false)).

Lemma cli_ends_witness :
  let run := execute demo_encode demo_decode (λ _, []) [] (λ n args, Nat.eqb (length args) n) demo_world in
  let url := lit "http://localhost:8080/get?key=k" in
  run C_get default_flags [lit "k"] = Ok (∅, [Sent (lit "GET") url; Out (lit "v" ++ [newline])], None) ∧
  ∃ files events r, run C_get default_flags [lit "k"] = Ok (files, events, r) ∧
    requests events = [(lit "GET", url)] ∧ files = ∅ ∧
    (r = None ↔ succeeds demo_world (30 * 10 ^ 9) (lit "GET") url).
Proof.
  split; [vm_compute; reflexivity|].
  destruct (cli_ends demo_encode demo_decode (λ _, []) [] (λ n args, Nat.eqb (length args) n) demo_world C_get default_flags
    [lit "k"] (lit "http://localhost:8080") (30 * 10 ^ 9)) as (files & events & r & H1 & _ & H2);
    [intros n args; apply Nat.eqb_eq|vm_compute; reflexivity|].
  destruct H2 as (Hq & _ & Hf & Hr). exists files, events, r. split; [exact H1|]. split; [exact Hq|]. split; [exact Hf|exact Hr].
Defined.
