(* ===== verification/WalFiles.v ===== *)
(** * pkg/wal/wal.go: FindActiveFile, and starting a store on its directories

    Segment files are named by a number printed with at least five digits;
    the newest one is found by sorting the names and scanning the last one
    back.  Start-up replays that segment. *)

From Stdlib Require Import Strings.String.
From stdpp Require Import base list gmap sorting.
From Stdlib Require Import ZArith Lia.
From S2P Require Import Prelude GoFile GoDir GoText GoUrl Arena Wal MemTable KvStore.

Definition wal_prefix : bytes := lit "wal-".
Definition wal_suffix : bytes := lit ".log".

(** [%05d] *)
Definition pad5 (n : Z) : bytes := replicate (5 - List.length (itoa n)) Byte.x30 ++ itoa n.

(** [fmt.Sprintf("wal-%05d.log", id)] *)
Definition wal_name (id : Z) : bytes := wal_prefix ++ pad5 id ++ wal_suffix.

(** [fmt.Sscanf(name, "wal-%05d.log", &id)]: at most five characters are read
    for the number, a sign included; blanks before it are skipped. *)
Definition scan_wal_name (name : bytes) : outcome Z :=
  if HasPrefix name wal_prefix then
    let rest := skip_blanks (drop 4 name) in
    let '(neg, width, rest) :=
      match rest with
      | b :: r => if bool_decide (b = Byte.x2d) then (true, 4%nat, r)
                  else if bool_decide (b = Byte.x2b) then (false, 4%nat, r) else (false, 5%nat, rest)
      | [] => (false, 5%nat, [])
      end in
    let '(ds, rest) := scan_digits width rest in
    if bool_decide (ds = []) || negb (HasPrefix rest wal_suffix) then Err ErrUnexpectedEOF
    else Ok (if neg : bool then - dec_val ds else dec_val ds)
  else Err ErrUnexpectedEOF.

(** [FindActiveFile]; [None] for a directory that cannot be read. *)
Definition FindActiveFile (d : option dir) : outcome (bytes * Z) :=
  match d with
  | None => Err ErrIO
  | Some d =>
      let walFiles := sort_strings (filter (λ n, HasPrefix n wal_prefix && HasSuffix n wal_suffix) (ReadDir d)) in
      match last walFiles with
      | None => Ok (wal_name 0, 0)
      | Some lastFile => id ← scan_wal_name lastFile; Ok (lastFile, id)
      end
  end.

(** The WAL directory of a store as the operating system shows it. *)
Definition wal_dir (wals : gmap Z bytes) : dir := list_to_map (map (λ '(id, data), (wal_name id, data)) (map_to_list wals)).

(** [NewKVStore] from its two directories; an error of [FindActiveFile] is
    dropped and leaves segment 0. *)
Definition open_store (d : dir) (wals : gmap Z bytes) : outcome Store :=
  NewKVStore d wals (match FindActiveFile (Some (wal_dir wals)) with Ok (_, id) => id | _ => 0 end).

(** * Lemmas *)

Definition seg_id (id : Z) : Prop := 0 <= id < 100000.

Lemma dec_val_zeros n l : dec_val (replicate n Byte.x30 ++ l) = dec_val l.
Proof. rewrite dec_val_app. replace (dec_val (replicate n Byte.x30)) with 0; [lia|]. induction n; simpl; [done|]. rewrite <-IHn. change (digit_val Byte.x30) with 0. lia. Qed.

Lemma zeros_digits n : Forall is_digit (replicate n Byte.x30).
Proof. apply Forall_replicate. done. Qed.

Lemma itoa_length5 id : seg_id id → (1 <= List.length (itoa id) <= 5)%nat.
Proof.
  intros Hid. unfold itoa, seg_id in *. rewrite (proj2 (Z.ltb_ge _ _)) by lia.
  destruct (digits_spec 20 id) as (Hd & Hv & Hl & Hlow); [lia|]. split; [apply Hl; lia|].
  destruct (Z.eq_dec id 0) as [->|Hne]; [vm_compute; lia|]. specialize (Hlow ltac:(lia)).
  assert (len (digits 20 id []) - 1 < 5); [|unfold len in *; lia].
  apply (Z.pow_lt_mono_r_iff 10); [lia|lia|]. change (10 ^ 5) with 100000. lia.
Qed.

(** Five digits that denote the number. *)
Lemma pad5_spec id : seg_id id → Forall is_digit (pad5 id) ∧ dec_val (pad5 id) = id ∧ List.length (pad5 id) = 5%nat.
Proof.
  intros Hid. pose proof (itoa_length5 id Hid) as Hl. unfold pad5, seg_id in *.
  destruct (itoa_spec id) as (Hd & Hv & _); [unfold max_dec; lia|].
  split; [apply Forall_app; split; [apply zeros_digits|done]|]. split; [by rewrite dec_val_zeros|].
  rewrite length_app, length_replicate. lia.
Qed.

Lemma wal_name_lt a b : seg_id a → seg_id b → a < b → str_lt (wal_name a) (wal_name b).
Proof.
  intros Ha Hb Hlt. unfold wal_name. apply str_lt_app_same.
  destruct (pad5_spec a Ha) as (A1 & A2 & A3). destruct (pad5_spec b Hb) as (B1 & B2 & B3).
  apply dec_val_lt; [done|done|congruence|lia].
Qed.

Lemma wal_name_le a b : seg_id a → seg_id b → str_le (wal_name a) (wal_name b) → a <= b.
Proof.
  intros Ha Hb Hle. destruct (Z_lt_le_dec b a) as [Hlt|]; [|done]. exfalso.
  pose proof (wal_name_lt b a Hb Ha Hlt) as H. pose proof (str_le_lt_trans _ _ _ Hle H) as Hn.
  apply str_lt_cmp in Hn. by rewrite str_cmp_refl in Hn.
Qed.

(** The scanner reads a name back. *)
Lemma scan_wal_name_back id : seg_id id → scan_wal_name (wal_name id) = Ok id.
Proof.
  intros Hid. unfold scan_wal_name, wal_name. rewrite HasPrefix_app.
  change (drop 4 (wal_prefix ++ pad5 id ++ wal_suffix)) with (pad5 id ++ wal_suffix).
  destruct (pad5_spec id Hid) as (Hd & Hv & Hl).
  destruct (pad5 id) as [|b ds] eqn:E; [done|]. pose proof (Forall_inv Hd) as Hb.
  assert (∀ c, digit_val c < 0 → bool_decide (b = c) = false) as Hne.
  { intros c Hc. apply bool_decide_eq_false. intros ->. unfold is_digit in Hb. lia. }
  cbn [app skip_blanks]. rewrite (Hne Byte.x20), (Hne Byte.x09) by done. cbn [orb].
  rewrite (Hne Byte.x2d), (Hne Byte.x2b) by done. cbn [orb].
  change (b :: ds ++ wal_suffix) with ((b :: ds) ++ wal_suffix).
  rewrite scan_digits_all by done. rewrite bool_decide_eq_false_2 by done.
  rewrite <-(app_nil_r wal_suffix) at 1. rewrite HasPrefix_app. cbn [orb negb]. by rewrite Hv.
Qed.

Lemma elem_of_wal_dir wals n : is_Some (wal_dir wals !! n) ↔ ∃ id, is_Some (wals !! id) ∧ n = wal_name id.
Proof.
  unfold wal_dir. rewrite <-not_eq_None_Some, <-not_elem_of_list_to_map. split.
  - intros H. apply dec_stable in H. apply list_elem_of_fmap in H as ([n' v] & -> & H).
    apply list_elem_of_fmap in H as ([id v'] & [= -> ->] & H). apply elem_of_map_to_list in H. by exists id.
  - intros (id & [v Hv] & ->) H. apply H, list_elem_of_fmap. exists (wal_name id, v). split; [done|].
    apply list_elem_of_fmap. exists (id, v). split; [done|]. by apply elem_of_map_to_list.
Qed.

(** Start-up uses the newest segment: if the WAL directory holds segments
    numbered below 100000, the store starts on the one with the greatest
    number. *)
Theorem open_store_newest d wals m :
  (∀ id, is_Some (wals !! id) → seg_id id ∧ id <= m) → is_Some (wals !! m) →
  open_store d wals = NewKVStore d wals m.
Proof.
  intros Hids Hm. unfold open_store, FindActiveFile.
  set (files := sort_strings _).
  assert (∀ n, n ∈ files ↔ ∃ id, is_Some (wals !! id) ∧ n = wal_name id) as Hin.
  { intros n. unfold files. rewrite elem_of_sort_strings, list_elem_of_filter, elem_of_ReadDir, elem_of_wal_dir.
    split; [by intros [_ ?]|]. intros (id & Hid & ->). split; [|by exists id].
    unfold wal_name. rewrite HasPrefix_app, (assoc_L (++)), HasSuffix_app. done. }
  destruct (last files) as [n|] eqn:E.
  2: { apply last_None in E. exfalso. apply (not_elem_of_nil (wal_name m)). rewrite <-E. apply Hin. by exists m. }
  apply last_Some in E as [pre E].
  assert (n ∈ files) as Hn by (rewrite E; apply elem_of_app; right; by left).
  apply Hin in Hn as (id & Hid & ->). destruct (Hids id Hid) as [Hseg Hle].
  rewrite (scan_wal_name_back id Hseg). cbn [mbind outcome_bind]. f_equal.
  destruct (Hids m Hm) as [Hsm _]. apply Z.le_antisymm; [done|].
  assert (wal_name m ∈ files) as Hmf by (apply Hin; by exists m).
  rewrite E in Hmf. apply elem_of_app in Hmf as [Hmf|Hmf].
  - apply wal_name_le; [done|done|]. pose proof (sort_strings_sorted
      (filter (λ n, HasPrefix n wal_prefix && HasSuffix n wal_suffix) (ReadDir (wal_dir wals)))) as Hs.
    fold files in Hs. rewrite E in Hs. eapply (StronglySorted_app_1_elem_of str_le pre [wal_name id]); [done|done|by left].
  - apply list_elem_of_singleton in Hmf. by apply wal_name_le; [..|rewrite Hmf].
Qed.

Lemma open_store_newest_witness :
  open_store ∅ (<[3 := []]> {[12 := []]}) = NewKVStore ∅ (<[3 := []]> {[12 := []]}) 12.
Proof.
  apply (open_store_newest ∅ (<[3 := []]> {[12 := []]}) 12).
  - intros id [v Hv]. apply lookup_insert_Some in Hv as [[<- _]|[_ Hv]]; [unfold seg_id; lia|].
    apply lookup_singleton_Some in Hv as [<- _]. unfold seg_id. lia.
  - by eexists.
Defined.

(** Six digits break the order and the scanner: segment 100000 is passed over
    for 99999, and alone it is not recognised at all. *)
Theorem wal_names_wrap :
  FindActiveFile (Some {[wal_name 99999 := []; wal_name 100000 := []]}) = Ok (wal_name 99999, 99999) ∧
  FindActiveFile (Some {[wal_name 100000 := []]}) = Err ErrUnexpectedEOF.
Proof. split; vm_compute; reflexivity. Qed.
