(* ===== verification/Session.v ===== *)
(** * The whole path of a request: sicli, server, storage engine

    A user runs sicli commands against the node that leads: each builds a URL,
    the node's mux hands the request through the logger and the metrics
    wrapper to a handler, the handler reads the store or puts a command, and
    sicli prints the answer.  Meanwhile the node of KvLive.v goes on: other
    clients write, Raft appends and commits, commands are applied, tables
    rotate and are flushed, and levels are compacted.  The theorem: what the
    user sees is what a single finite map would have shown. *)

From Stdlib Require Import Strings.String.
From stdpp Require Import base list gmap.
From Stdlib Require Import ZArith Lia.
From S2P Require Import Prelude GoFile Bloom SSTable SSTReader SSTIterator SSTClean GoDir GoText GoUrl Metrics Compact MemTable KvStore KvCompact KvGet RaftWal Raft RaftNode RaftLeader KvClient KvLive Server Http CliTools Cli.

(** ** The calls *)

Inductive cli_call := Call_put (key value : bytes) | Call_get (key : bytes) | Call_delete (key : bytes).

Definition call_command (call : cli_call) : command :=
  match call with Call_put _ _ => C_put | Call_get _ => C_get | Call_delete _ => C_delete end.
Definition call_args (call : cli_call) : list bytes :=
  match call with Call_put k v => [k; v] | Call_get k | Call_delete k => [k] end.
Definition call_key (call : cli_call) : bytes :=
  match call with Call_put k _ | Call_get k | Call_delete k => k end.
(** The command the handler of the call gives to [Put], if any. *)
Definition call_cmd (call : cli_call) : option raftCmd :=
  match call with
  | Call_put k v => Some (put_cmd k v false)
  | Call_get _ | Call_delete [] => None
  | Call_delete k => Some (put_cmd k [] true)
  end.
(** What the user sees: the output and the error. *)
Definition shown : Type := list bytes * option failure.
Definition printed (evs : list cli_event) : list bytes :=
  omap (λ ev, match ev with Out bs => Some bs | _ => None end) evs.

(** ** The abstract session: one finite map *)

(** [M] is the map when the call begins, [cmds] are the commands that take
    effect during the call.  A get shows the map of a moment in between. *)
Definition call_spec (M : gmap bytes bytes) (cmds : list raftCmd) (call : cli_call) (res : shown) : Prop :=
  match call with
  | Call_get k =>
      ∃ pre suf, cmds = pre ++ suf ∧
        res = match foldl spec_apply M pre !! k with
              | Some v => ([v ++ [newline]], None)
              | None => ([], Some (RequestError (CliServer 404 (lit "Key not found" ++ [newline]))))
              end
  | Call_put k v =>
      res = ([lit "---Success---" ++ [newline]], None) ∧ mkRaftCmd OpPut k v ∈ cmds ∨
      ∃ e, res = ([], Some (RequestError e))
  | Call_delete k =>
      res = ([lit "----Deleted---" ++ [newline]], None) ∧ k ≠ [] ∧ mkRaftCmd OpDelete k [] ∈ cmds ∨
      ∃ e, res = ([], Some (RequestError e))
  end.

(** What happens in a session: commands take effect, whoever sent them; and a
    call, with the commands that take effect while it runs. *)
Inductive sevent :=
| Applied (cmds : list raftCmd)
| Called (call : cli_call) (cmds : list raftCmd) (res : shown).

Definition event_cmds (e : sevent) : list raftCmd :=
  match e with Applied cmds => cmds | Called _ cmds _ => cmds end.

(** A session is explained by a map, changed by the commands in order, when
    every call shows what the map says. *)
Definition event_ok (M : gmap bytes bytes) (e : sevent) : Prop :=
  match e with Applied _ => True | Called call cmds res => call_spec M cmds call res end.
Fixpoint explained (M : gmap bytes bytes) (tr : list sevent) : Prop :=
  match tr with
  | [] => True
  | e :: tr' => event_ok M e ∧ explained (foldl spec_apply M (event_cmds e)) tr'
  end.

(** The map after a session. *)
Definition session_map (M : gmap bytes bytes) (tr : list sevent) : gmap bytes bytes :=
  foldl spec_apply M (flat_map event_cmds tr).

(** ** The concrete session *)

(** The host of a server address: a name or an IPv4 address, and a port. *)
Definition host_ok (host : bytes) : Prop :=
  ∃ name port, host = name ++ port ∧ name ≠ [] ∧ forallb unreserved name = true ∧
    (port = [] ∨ ∃ digits, port = Byte.x3a :: digits ∧ forallb (λ b, between b 48 57) digits = true).

Section session.
Context (Sum64 : bytes → Z) (kmax : Z).
Context (encode : Config → bytes) (decode : bytes → option Config) (show_duration : Z → bytes).
Context (order : list category) (ExactArgs : nat → list bytes → bool).
Context (StatusText : Z → bytes) (duration elapsed : Z).
Context (nodeID : Z) (peer_url : Z → bytes) (error_text : error → bytes).
Context (forward : bytes → bytes → option response).
Context (json_Marshal : raftCmd → bytes) (json_Unmarshal : bytes → option raftCmd).

(** A node started on the Raft state [rf] and the directory [d]. *)
Definition live_start (rf : Raft) (d : dir) (rs : list Reader) (c0 : Z) : Live :=
  mkLive (start_node rf (sys_store (cs_sys (opened d rs c0)))) W_wait c0 C_idle.

(** The server of the node on a request that was sent: [get] is what
    [Store.Get] returns, [put] what [Store.Put] returns. *)
Definition node_answer (leaderID : Z) (get : bytes → option bytes) (put : raftCmd → option error)
    (method path : bytes) (d : delivery) : option (Z * option bytes) :=
  match d with
  | NotSent => None
  | BadRequest => Some (400, Some (lit "400 Bad Request"))
  | Delivered query =>
      match route StatusText duration elapsed (serve_get get)
              (serve_put nodeID peer_url error_text put leaderID forward)
              (serve_delete nodeID peer_url error_text put leaderID forward) path with
      | None => Some (404, Some (lit "404 page not found" ++ [newline]))
      | Some f =>
          match f (Direct new_conn) (mkRequest method path query) with
          | Ok (ww, _) => Some (conn_status (writer_conn ww), Some (sent_body (writer_conn ww)))
          | _ => None
          end
      end
  end.

(** A call of sicli that shows [res], with a server of which this is the
    answer to a method, the path of the URL, and what becomes of the query. *)
Definition sicli (server : bytes → bytes → delivery → option (Z * option bytes)) (call : cli_call) (res : shown) : Prop :=
  ∃ w fl host timeout files evs r,
    preRun decode (wd_files w) (config_path w) (fl_addr fl) (fl_timeout fl) = (lit "http://" ++ host, timeout) ∧
    host_ok host ∧ wd_server w = (λ method url _, server method (url_path url)) ∧
    execute encode decode show_duration order ExactArgs w (call_command call) fl (call_args call) = Ok (files, evs, r) ∧
    res = (printed evs, r).

(** The events and calls so far.  A call runs while the node goes on: a get
    while [Store.Get] goes through its parts; a put or delete while the call of
    [Put] starts and ends, and the handler reads the leader's number in state
    [m].  A command comes back from its JSON text (json replaces bytes that are
    not UTF-8), and the node knows of no other leader. *)
Inductive session (x : Live) : list sevent → Live → Prop :=
| session_refl : session x [] x
| session_other tr y ev z :
    session x tr y → live_steps json_Marshal json_Unmarshal Sum64 kmax y ev z →
    session x (tr ++ [Applied (applied_cmds ev)]) z
| session_read tr y ev z k leaderID get put res :
    session x tr y → len k < kmax →
    live_getting json_Marshal json_Unmarshal Sum64 kmax y k (G_done (get k)) ev z →
    sicli (node_answer leaderID get put) (Call_get k) res →
    session x (tr ++ [Called (Call_get k) (applied_cmds ev) res]) z
| session_write tr y ev m ev' z call get put res :
    session x tr y → (∀ k, call ≠ Call_get k) →
    live_steps json_Marshal json_Unmarshal Sum64 kmax y ev m →
    live_steps json_Marshal json_Unmarshal Sum64 kmax m ev' z →
    (∀ cmd, call_cmd call = Some cmd →
      json_Unmarshal (json_Marshal cmd) = Some cmd ∧ answered (ev ++ ev') cmd (put cmd)) →
    GetLeader (nd_raft (lv_node m)) = -1 ∨ GetLeader (nd_raft (lv_node m)) = nodeID →
    sicli (node_answer (GetLeader (nd_raft (lv_node m))) get put) call res →
    session x (tr ++ [Called call (applied_cmds (ev ++ ev')) res]) z.
End session.

(** * Lemmas *)

(** A URL with one parameter, at the server. *)
Lemma key_url_delivered base path k :
  base_ok base → base_ok path →
  let q := key_part (QueryEscape k) in
  send_url (base ++ path ++ question :: q) = Delivered q ∧ query_get q (lit "key") = k.
Proof.
  intros Hb Hp q. pose proof (escape_inert k) as Hk. split.
  - apply send_params; [by apply Forall_app| | |]; unfold q, key_part.
    + simpl. by apply inert_ctl.
    + apply not_elem_of_app. split; [by apply lit_notin|]. apply inert_param; [done|by left].
    + apply not_elem_of_app. split; [by apply lit_notin|]. apply inert_param; [done|right; by left].
  - unfold query_get, q. rewrite split_on_none.
    + pose proof (parse_piece_pair (lit "key") (QueryEscape k) k (lit_inert (lit "key") eq_refl) Hk eq_refl (unescape_escape k)) as P.
      change (key_part (QueryEscape k)) with (lit "key" ++ eq_sign :: QueryEscape k). unfold omap, list_omap. by rewrite P.
    + unfold key_part. apply not_elem_of_app. split; [by apply lit_notin|]. apply inert_notin; [done|by left].
Qed.

Lemma path_ok (path : bytes) :
  forallb (λ b, negb (ctl b) && negb (bool_decide (b ∈ [hash; question; space]))) path = true → base_ok path.
Proof. apply base_ok_bool. Qed.

(** ** Addresses *)

Lemma host_bytes host : host_ok host → Forall (λ b, inert b = true ∧ b ≠ slash ∧ b ≠ question) host.
Proof.
  assert (∀ b, unreserved b = true → inert b = true ∧ b ≠ slash ∧ b ≠ question) as Hun
    by (intros b; destruct b; by (discriminate || (intros _; split_and!))).
  intros (name & port & -> & _ & Hn & Hp). apply Forall_app. split.
  - apply Is_true_eq_left, forallb_True in Hn. eapply Forall_impl; [exact Hn|]. intros b Hb%Is_true_true. by apply Hun.
  - destruct Hp as [->|(digits & -> & Hd)]; [done|]. constructor; [by split_and!|].
    apply Is_true_eq_left, forallb_True in Hd. eapply Forall_impl; [exact Hd|]. intros b Hb%Is_true_true.
    apply Hun. unfold unreserved. by rewrite Hb.
Qed.

Lemma host_base_ok host : host_ok host → base_ok (lit "http://" ++ host).
Proof.
  intros H%host_bytes. apply Forall_app. split; [apply base_ok_bool; reflexivity|].
  eapply Forall_impl; [exact H|]. intros b (Hi & _ & Hq).
  split_and!; try done; [|by apply inert_not; [|do 4 right; left]|by apply inert_not; [|do 3 right; left]].
  unfold inert in Hi. by destruct (ctl b).
Qed.

(** The path of a request to such a server. *)
Lemma host_path host path query :
  host_ok host → hash ∉ path → question ∉ path → hash ∉ query →
  url_path ((lit "http://" ++ host) ++ slash :: path ++ question :: query) = slash :: path.
Proof.
  intros H%host_bytes Hp1 Hp2 Hq.
  assert (hash ∉ host ∧ question ∉ host ∧ slash ∉ host) as (H1 & H2 & H3).
  { rewrite Forall_forall in H. split_and!; intros Hin; by destruct (H _ Hin) as (? & ? & ?). }
  unfold url_path. rewrite cut_none.
  2: { rewrite !elem_of_app, elem_of_cons, elem_of_app, elem_of_cons. intros [[?|?]|[?|[?|[?|?]]]]; try done. by revert H0; apply lit_notin. }
  rewrite (app_comm_cons path), (assoc_L (++)), cut_app.
  2: { rewrite !elem_of_app, elem_of_cons. intros [[?|?]|[?|?]]; try done. by revert H0; apply lit_notin. }
  change ((lit "http://" ++ host) ++ slash :: path) with (lit "http:" ++ slash :: slash :: host ++ slash :: path).
  rewrite cut_app by (by apply lit_notin). simpl. by rewrite cut_app.
Qed.

Section answers.
Context (StatusText : Z → bytes) (duration elapsed : Z).
Context (nodeID : Z) (peer_url : Z → bytes) (error_text : error → bytes) (leaderID : Z).
Context (forward : bytes → bytes → option response).
Notation node_answer := (node_answer StatusText duration elapsed nodeID peer_url error_text forward leaderID).
Notation route' get put := (route StatusText duration elapsed (serve_get get)
  (serve_put nodeID peer_url error_text put leaderID forward)
  (serve_delete nodeID peer_url error_text put leaderID forward)).

(** The wrappers change nothing in the answer. *)
Lemma wrapped_answer h method endpoint r c :
  run_ops (Direct new_conn) (h r) = Ok (Direct c) →
  ∃ eff, httpLogger StatusText duration (withMetrics elapsed (plain_handler h) method endpoint) (Direct new_conn) r =
    Ok (Direct c, eff).
Proof.
  intros E. unfold httpLogger, withMetrics, plain_handler. rewrite !run_ops_wrapped, E. cbn. by eexists.
Qed.

Definition conn_answer (c : conn) : option (Z * option bytes) := Some (conn_status c, Some (sent_body c)).

Lemma routed_answer get put method path q h m endpoint c :
  route' get put path = Some (httpLogger StatusText duration (withMetrics elapsed (plain_handler h) m endpoint)) →
  run_ops (Direct new_conn) (h (mkRequest method path q)) = Ok (Direct c) →
  node_answer get put method path (Delivered q) = conn_answer c.
Proof.
  intros Hr Hc. unfold Session.node_answer. rewrite Hr.
  destruct (wrapped_answer h m endpoint _ c Hc) as [eff ->]. done.
Qed.

(** What the three handlers make of the connection. *)
Lemma get_answer get put method q :
  node_answer get put method (lit "/get") (Delivered q) =
    Some match get (query_get q (lit "key")) with
         | Some v => (200, Some v)
         | None => (404, Some (lit "Key not found" ++ [newline]))
         end.
Proof.
  destruct (get (query_get q (lit "key"))) as [v|] eqn:E.
  - rewrite (routed_answer _ _ _ _ _ (serve_get get) (lit "GET") (lit "/get") (mkConn (Some 200) v)); [done|done|].
    unfold serve_get, handleGet. cbn [rq_RawQuery mbind outcome_bind]. by rewrite E.
  - rewrite (routed_answer _ _ _ _ _ (serve_get get) (lit "GET") (lit "/get")
      (mkConn (Some 404) (lit "Key not found" ++ [newline]))); [done|done|].
    unfold serve_get, handleGet. cbn [rq_RawQuery mbind outcome_bind]. by rewrite E.
Qed.

(** A failed write at a node that knows of no other leader. *)
Lemma failed_reply url e :
  leaderID = -1 ∨ leaderID = nodeID →
  ∃ code text, 400 <= code <= 599 ∧
    write_failed nodeID peer_url error_text leaderID url e = Reply (http_Error text code).
Proof.
  intros Hl. unfold write_failed. destruct (decide _); [|by exists 500; eexists].
  destruct (Z.eqb_spec leaderID (-1)); [by exists 404; eexists|]. rewrite (proj2 (Z.eqb_eq _ _)) by lia.
  by exists 503; eexists.
Qed.

Lemma error_conn code text :
  400 <= code <= 599 →
  run_ops (Direct new_conn) (put_ops (forward_ops forward) (Reply (http_Error text code))) =
    Ok (Direct (mkConn (Some code) (text ++ [newline]))).
Proof.
  intros H. unfold put_ops, http_Error, error_ops. cbn [status body].
  rewrite (proj2 (Z.eqb_neq code 200)), (proj2 (Z.eqb_neq code 204)) by lia. cbn [run_ops WriteHeader].
  unfold conn_WriteHeader. cbn [sent_status new_conn].
  rewrite (proj2 (Z.ltb_ge code 100)), (proj2 (Z.ltb_ge 999 code)), (proj2 (Z.leb_gt code 199)) by lia.
  cbn [orb andb mbind outcome_bind ww_Write]. unfold conn_Write. cbn [sent_status sent_body].
  unfold body_allowed. rewrite (proj2 (Z.leb_gt code 199)), (proj2 (Z.eqb_neq code 204)), (proj2 (Z.eqb_neq code 304)) by lia.
  done.
Qed.

(** An answer that sicli takes for an error. *)
Definition error_answer (a : option (Z * option bytes)) : Prop := ∃ code b, 400 <= code ∧ a = Some (code, Some b).

Lemma put_answer get put method q :
  leaderID = -1 ∨ leaderID = nodeID →
  let a := node_answer get put method (lit "/put") (Delivered q) in
  match put (put_cmd (query_get q (lit "key")) (query_get q (lit "val")) false) with
  | None => a = Some (200, Some (lit "Success"))
  | Some _ => error_answer a
  end.
Proof.
  intros Hl a. unfold a. destruct (put (put_cmd _ _ false)) as [e|] eqn:E.
  - destruct (failed_reply (λ u, put_url u (query_get q (lit "key")) (query_get q (lit "val"))) e Hl) as (code & text & Hc & Hw).
    exists code, (text ++ [newline]). split; [lia|].
    apply (routed_answer _ _ _ _ _ (serve_put nodeID peer_url error_text put leaderID forward) (lit "PUT") (lit "/put")
      (mkConn (Some code) (text ++ [newline]))); [done|].
    unfold serve_put, handlePut. cbn [rq_RawQuery]. rewrite E, Hw. by apply error_conn.
  - rewrite (routed_answer _ _ _ _ _ (serve_put nodeID peer_url error_text put leaderID forward) (lit "PUT") (lit "/put")
      (mkConn (Some 200) (lit "Success"))); [done|done|].
    unfold serve_put, handlePut. cbn [rq_RawQuery]. by rewrite E.
Qed.

Lemma delete_answer get put method q :
  leaderID = -1 ∨ leaderID = nodeID →
  let a := node_answer get put method (lit "/delete") (Delivered q) in
  if bool_decide (query_get q (lit "key") = []) then error_answer a
  else match put (put_cmd (query_get q (lit "key")) [] true) with
       | None => a = Some (204, Some [])
       | Some _ => error_answer a
       end.
Proof.
  intros Hl a. unfold a. set (h := serve_delete nodeID peer_url error_text put leaderID forward).
  assert (∀ c, run_ops (Direct new_conn) (h (mkRequest method (lit "/delete") q)) = Ok (Direct c) →
    node_answer get put method (lit "/delete") (Delivered q) = conn_answer c) as H.
  { intros c Hc. by apply (routed_answer _ _ _ _ _ h (lit "DELETE") (lit "/delete")). }
  unfold h, serve_delete, handleDelete in H. cbn [rq_RawQuery] in H.
  destruct (bool_decide (query_get q (lit "key") = [])).
  { exists 400, (lit "key is required" ++ [newline]). split; [lia|].
    by apply (H (mkConn (Some 400) (lit "key is required" ++ [newline]))). }
  destruct (put (put_cmd _ _ true)) as [e|] eqn:E.
  - destruct (failed_reply (λ u, delete_url u (query_get q (lit "key"))) e Hl) as (code & text & Hc & Hw).
    exists code, (text ++ [newline]). split; [lia|]. apply (H (mkConn (Some code) (text ++ [newline]))).
    rewrite Hw. by apply error_conn.
  - by rewrite (H (mkConn (Some 204) [])).
Qed.
End answers.

Section refinement.
Context (Sum64 : bytes → Z) `{!KeyFilter Sum64} (kmax : Z).
Context (encode : Config → bytes) (decode : bytes → option Config) (show_duration : Z → bytes).
Context (order : list category) (ExactArgs : nat → list bytes → bool).
Context (StatusText : Z → bytes) (duration elapsed : Z).
Context (nodeID : Z) (peer_url : Z → bytes) (error_text : error → bytes).
Context (forward : bytes → bytes → option response).
Context (json_Marshal : raftCmd → bytes) (json_Unmarshal : bytes → option raftCmd).
Hypothesis HE : ∀ n args, ExactArgs n args = true ↔ length args = n.
Notation node_answer := (node_answer StatusText duration elapsed nodeID peer_url error_text forward).
Notation execute := (execute encode decode show_duration order ExactArgs).
Notation sicli := (sicli encode decode show_duration order ExactArgs).

(** A call of sicli sends one request. *)
Lemma execute_call w call fl base timeout :
  preRun decode (wd_files w) (config_path w) (fl_addr fl) (fl_timeout fl) = (base, timeout) →
  execute w (call_command call) fl (call_args call) =
    match call with
    | Call_put k v => request w timeout (lit "POST") (cli_put base k v) (λ _, println (lit "---Success---"))
    | Call_get k => request w timeout (lit "GET") (cli_get base k) println
    | Call_delete k => request w timeout (lit "DELETE") (cli_delete base k) (λ _, println (lit "----Deleted---"))
    end.
Proof.
  intros Hp. unfold Cli.execute, args_ok. rewrite Hp.
  destruct call as [k v|k|k]; cbn [call_command call_args command_args]; rewrite (proj2 (HE _ _)) by done; reflexivity.
Qed.

(** A request that was delivered, its answer, and what is shown of it. *)
Lemma request_shows w timeout method url k q code b files evs r :
  send_url url = Delivered q → wd_server w method url timeout (Delivered q) = Some (code, Some b) →
  request w timeout method url k = Ok (files, evs, r) →
  (printed evs, r) = if 400 <=? code then ([], Some (RequestError (CliServer code b))) else (printed (k b), None).
Proof.
  intros Hs Ha. unfold request, doRequest, sent. rewrite Hs, Ha. by destruct (400 <=? code); intros [= _ <- <-].
Qed.

Lemma request_error w timeout method url k q files evs r :
  send_url url = Delivered q → error_answer (wd_server w method url timeout (Delivered q)) →
  request w timeout method url k = Ok (files, evs, r) → ∃ e, (printed evs, r) = ([], Some (RequestError e)).
Proof.
  intros Hs (code & b & Hc & Ha) Hr. rewrite (request_shows w timeout method url k q code b files evs r Hs Ha Hr).
  rewrite (proj2 (Z.leb_le 400 code)) by done. by eexists.
Qed.

Lemma escaped_hash k : hash ∉ key_part (QueryEscape k).
Proof.
  unfold key_part. apply not_elem_of_app. split; [by apply lit_notin|].
  apply inert_param; [apply escape_inert|by left].
Qed.

(** A get shows what [Store.Get] returned. *)
Lemma get_shows leaderID get put k res :
  sicli (node_answer leaderID get put) (Call_get k) res →
  res = match get k with
        | Some v => ([v ++ [newline]], None)
        | None => ([], Some (RequestError (CliServer 404 (lit "Key not found" ++ [newline]))))
        end.
Proof.
  intros (w & fl & host & timeout & files & evs & r & Hp & Hh & Hw & He & ->). rewrite (execute_call _ _ _ _ _ Hp) in He.
  destruct (key_url_delivered (lit "http://" ++ host) (lit "/get") k (host_base_ok _ Hh) (path_ok (lit "/get") eq_refl)) as [Hq Qk].
  pose proof (get_answer StatusText duration elapsed nodeID peer_url error_text leaderID forward get put (lit "GET")
    (key_part (QueryEscape k))) as Ha. rewrite Qk in Ha.
  assert (url_path (cli_get (lit "http://" ++ host) k) = lit "/get") as Hu
    by (apply (host_path host (lit "get")); [done|by apply lit_notin|by apply lit_notin|apply escaped_hash]).
  destruct (get k) as [v|]; (eapply request_shows in He; [|exact Hq|rewrite Hw, Hu; exact Ha]); done.
Qed.

Lemma put_shows leaderID get put k v res :
  leaderID = -1 ∨ leaderID = nodeID → sicli (node_answer leaderID get put) (Call_put k v) res →
  res = ([lit "---Success---" ++ [newline]], None) ∧ put (put_cmd k v false) = None ∨ ∃ e, res = ([], Some (RequestError e)).
Proof.
  intros Hl (w & fl & host & timeout & files & evs & r & Hp & Hh & Hw & He & ->). rewrite (execute_call _ _ _ _ _ Hp) in He.
  destruct (put_url_delivered (lit "http://" ++ host) (QueryEscape k) (QueryEscape v) k v) as (q & Hq & Qk & Qv);
    [by apply host_base_ok|apply escape_inert|apply escape_inert|apply unescape_escape|apply unescape_escape|].
  assert (url_path (cli_put (lit "http://" ++ host) k v) = lit "/put") as Hu.
  { apply (host_path host (lit "put") (two_parts (QueryEscape k) (QueryEscape v))); [done|by apply lit_notin|by apply lit_notin|].
    unfold two_parts. rewrite not_elem_of_app, not_elem_of_cons, not_elem_of_app.
    split_and!; [apply escaped_hash|done|by apply lit_notin|apply inert_param; [apply escape_inert|by left]]. }
  change (put_url (lit "http://" ++ host) (QueryEscape k) (QueryEscape v)) with (cli_put (lit "http://" ++ host) k v) in Hq.
  pose proof (put_answer StatusText duration elapsed nodeID peer_url error_text leaderID forward get put (lit "POST") q Hl) as Ha.
  cbv zeta in Ha. rewrite Qk, Qv in Ha. destruct (put (put_cmd k v false)) as [e|].
  - right. by eapply request_error; [exact Hq|rewrite Hw, Hu; exact Ha|exact He].
  - left. split; [|done]. by eapply request_shows in He; [|exact Hq|rewrite Hw, Hu; exact Ha].
Qed.

Lemma delete_shows leaderID get put k res :
  leaderID = -1 ∨ leaderID = nodeID → sicli (node_answer leaderID get put) (Call_delete k) res →
  res = ([lit "----Deleted---" ++ [newline]], None) ∧ k ≠ [] ∧ put (put_cmd k [] true) = None ∨
  ∃ e, res = ([], Some (RequestError e)).
Proof.
  intros Hl (w & fl & host & timeout & files & evs & r & Hp & Hh & Hw & He & ->). rewrite (execute_call _ _ _ _ _ Hp) in He.
  destruct (key_url_delivered (lit "http://" ++ host) (lit "/delete") k (host_base_ok _ Hh) (path_ok (lit "/delete") eq_refl)) as [Hq Qk].
  assert (url_path (cli_delete (lit "http://" ++ host) k) = lit "/delete") as Hu
    by (apply (host_path host (lit "delete")); [done|by apply lit_notin|by apply lit_notin|apply escaped_hash]).
  pose proof (delete_answer StatusText duration elapsed nodeID peer_url error_text leaderID forward get put (lit "DELETE")
    (key_part (QueryEscape k)) Hl) as Ha. cbv zeta in Ha. rewrite Qk in Ha.
  change (send_url (cli_delete (lit "http://" ++ host) k) = Delivered (key_part (QueryEscape k))) in Hq.
  destruct (bool_decide_reflect (k = [])); [|destruct (put (put_cmd k [] true)) as [e|]].
  - right. by eapply request_error; [exact Hq|rewrite Hw, Hu; exact Ha|exact He].
  - right. by eapply request_error; [exact Hq|rewrite Hw, Hu; exact Ha|exact He].
  - left. split; [|done]. by eapply request_shows in He; [|exact Hq|rewrite Hw, Hu; exact Ha].
Qed.

(** A write shows what the map says. *)
Lemma write_shows leaderID get put call M cmds res :
  (∀ k, call ≠ Call_get k) → (∀ cmd, call_cmd call = Some cmd → put cmd = None → cmd ∈ cmds) →
  leaderID = -1 ∨ leaderID = nodeID → sicli (node_answer leaderID get put) call res → call_spec M cmds call res.
Proof.
  intros Hg Hput Hl Hs. destruct call as [k v|k|k]; [|by destruct (Hg k)|].
  - destruct (put_shows _ _ _ _ _ _ Hl Hs) as [[-> Hn]|He]; [left|by right]. split; [done|]. by apply Hput.
  - destruct (delete_shows _ _ _ _ _ Hl Hs) as [(-> & Hne & Hn)|He]; [left|by right]. split; [done|]. split; [done|].
    apply Hput; [by destruct k|done].
Qed.

Notation session := (session Sum64 kmax encode decode show_duration order ExactArgs StatusText duration elapsed
  nodeID peer_url error_text forward json_Marshal json_Unmarshal).
Notation live_inv := (live_inv json_Marshal json_Unmarshal).

Lemma explained_snoc M tr e :
  explained M tr → event_ok (session_map M tr) e → explained M (tr ++ [e]).
Proof.
  revert M. induction tr as [|e' tr IH]; intros M; simpl; [done|]. intros [H1 H2] He. split; [done|].
  apply IH; [done|]. unfold session_map in *. simpl in He. by rewrite foldl_app in He.
Qed.

Lemma session_map_snoc M tr e :
  session_map M (tr ++ [e]) = foldl spec_apply (session_map M tr) (event_cmds e).
Proof. unfold session_map. rewrite flat_map_app, foldl_app. simpl. by rewrite app_nil_r. Qed.

(** The store stays in step with the map, and the map explains the calls. *)
Lemma session_explained x tr z M :
  kmax <= 2 ^ 16 → session x tr z → live_inv x [] → csys_inv Sum64 kmax (live_csys x) M →
  explained M tr ∧ csys_inv Sum64 kmax (live_csys z) (session_map M tr) ∧ ∃ evs, live_inv z evs.
Proof.
  intros Hkm Hs Hx Hinv. induction Hs as [|tr y ev z _ (IH1 & IH2 & TR & IH3) Hst
    |tr y ev z k l get put res _ (IH1 & IH2 & TR & IH3) Hk Hget Hres
    |tr y ev m ev' z call get put res _ (IH1 & IH2 & TR & IH3) Hc H1 H2 Hput Hl Hres];
    rewrite ?session_map_snoc; [by split; [|split; [|eexists]]|..].
  - split; [by apply explained_snoc|]. split; [|eexists; by eapply live_steps_inv].
    exact (csteps_inv Sum64 kmax _ _ _ _ Hkm (live_steps_csteps _ _ _ _ _ _ _ Hst) IH2).
  - apply live_getting_getting in Hget as [Hst Hget].
    destruct (getting_inv Sum64 kmax Hkm k Hk _ _ _ _ _ IH2 Hget) as [Hi (pre & suf & E & Hg)].
    split; [|split; [done|eexists; by eapply live_steps_inv]]. apply explained_snoc; [done|].
    exists pre, suf. split; [done|]. rewrite Hg. by eapply get_shows.
  - pose proof (live_steps_app _ _ _ _ _ _ _ _ _ H1 H2) as H12.
    split; [|split; [|eexists; by eapply live_steps_inv]].
    + apply explained_snoc; [done|]. eapply write_shows; [done| |done|done].
      intros cmd Hcmd Hn. destruct (Hput cmd Hcmd) as [Hj Ha]. rewrite Hn in Ha. by eapply put_own.
    + exact (csteps_inv Sum64 kmax _ _ _ _ Hkm (live_steps_csteps _ _ _ _ _ _ _ H12) IH2).
Qed.
End refinement.

(** * Properties *)

(** C2. What a user of sicli sees, under the conditions below: for any session
    of put, get and delete commands against a node, with any interleaving of
    other clients' calls, messages of the other nodes, applied commands,
    rotations, flushes, compactions and the parts of [Store.Get]: if the store
    answers like the map [M] at the start, then every get prints the value that
    its key has, at a moment of the call, in the map that the commands applied
    so far make of [M], or the server's 404 when there is none; a put or delete
    that reports success was applied during the call, or it reports an error;
    and the store answers like that map at the end.  The conditions: the node
    starts on a directory of clean tables in which no key is in two levels; no
    entry of its log is replaced and it knows of no other leader (it leads);
    keys have fewer than [kmax] <= 65536 bytes and commands survive JSON; every
    written table is clean and no disk fails; no table is flushed with a key
    that a level above 0 or the input of a running compaction holds; no input
    of a compaction is removed while a [Get] reads the directory; table files
    appear as a whole; and the address is "http://" with a host and a port. *)
Theorem session_refines_map Sum64 kmax encode decode show_duration order ExactArgs StatusText duration elapsed
    nodeID peer_url error_text forward json_Marshal json_Unmarshal rf d rs c0 F tr z :
  (∀ n args, ExactArgs n args = true ↔ length args = n) →
  kmax <= 2 ^ 16 → positions (rf_log rf) → tables Sum64 kmax d c0 F → one_level kmax F (sst_files d) →
  let x := live_start rf d rs c0 in
  session Sum64 kmax encode decode show_duration order ExactArgs StatusText duration elapsed
    nodeID peer_url error_text forward json_Marshal json_Unmarshal x tr z →
  ∃ M, (∀ k, len k < kmax → store_Get Sum64 (nd_store (lv_node x)) k = Ok (M !! k)) ∧
    explained M tr ∧
    ∀ k, len k < kmax → store_Get Sum64 (nd_store (lv_node z)) k = Ok (session_map M tr !! k).
Proof.
  intros HE Hkm Hpos Ht Ho x Hs. destruct (opened_inv Sum64 kmax d F rs c0 Ht Ho) as [M Hinv].
  assert (live_inv json_Marshal json_Unmarshal x []) as Hx by (by apply live_start_inv).
  destruct (session_explained Sum64 kmax _ _ _ _ _ _ _ _ _ _ _ _ _ _ HE _ _ _ M Hkm Hs Hx Hinv) as (Hex & Hinv' & _).
  exists M. split; [|split; [done|]]; intros k Hk;
    [by apply (csys_inv_Get Sum64 kmax (live_csys x))|by apply (csys_inv_Get Sum64 kmax (live_csys z))].
Qed.

(** A put and a get on the directory of KvCompact.v's example: node 0 of three
    is elected, takes the command of the put, and node 1 acknowledges it. *)
Definition demo_elect : list node_action := [A_raft (In_elect 1); A_raft (In_vote_reply 1 1 (mkVoteReply 1 true))].
Definition demo_call : list node_action :=
  [A_put put_user1_again; A_register 0 None;
   A_raft (In_append_reply 1 (mkAppendArgs 1 0 0 0 [mkLogEntry 1 1 (demo_marshal put_user1_again)] 0)
             (mkAppendReply 1 true 0 0));
   A_apply] ++ answer_call.
Definition demo_start : Live := live_start (Make 3 0 [] 0) (demo_dir 0) [] 1700000000000000004.
Definition demo_runs (x : Live) (acts : list node_action) : Live * list node_event :=
  let r := default (lv_node x, []) (node_run demo_marshal demo_unmarshal (lv_node x) acts) in
  (mkLive (fst r) (lv_worker x) (lv_clock x) (lv_compactor x), snd r).
Definition demo_led : Live := fst (demo_runs demo_start demo_elect).
Definition demo_written : Live := fst (demo_runs demo_led demo_call).

Lemma demo_runs_live x acts :
  forallb plain_action acts = true → is_Some (node_run demo_marshal demo_unmarshal (lv_node x) acts) →
  forallb (λ k, len k <? 100) (applied_keys (snd (demo_runs x acts))) = true →
  live_steps demo_marshal demo_unmarshal demo_hash 100 x (snd (demo_runs x acts)) (fst (demo_runs x acts)).
Proof.
  intros Hp [[nd ev] Hr] Hk. unfold demo_runs in *. rewrite Hr in *. cbn [default from_option id fst snd] in *.
  destruct x as [nd0 w c k]. eapply node_run_live; [done|exact Hr|].
  apply Is_true_eq_left, forallb_True in Hk. eapply Forall_impl; [exact Hk|]. intros key H%Is_true_true. by apply Z.ltb_lt.
Qed.

Definition demo_server (get : bytes → option bytes) : bytes → bytes → delivery → option (Z * option bytes) :=
  node_answer demo_text 2500000 2400000 0 demo_peer (λ _, []) (λ _ _, None) 0 get (λ _, None).
Definition demo_world_at (get : bytes → option bytes) : world :=
  mkWorld ∅ None true (λ method url _, demo_server get method (url_path url)) (λ files _, (files, false)).
Notation demo_sicli := (sicli demo_encode demo_decode (λ _, []) [] (λ n args, Nat.eqb (length args) n)).

Definition demo_events : list node_event := [NE_start 0 1 put_user1_again; NE_applied 1 put_user1_again None; NE_done 0 None].
Definition demo_put : sevent :=
  Called (Call_put key_user1 [Byte.x42]) (applied_cmds ([] ++ demo_events)) ([lit "---Success---" ++ [newline]], None).
Definition demo_get : sevent := Called (Call_get key_user2) (applied_cmds []) ([[Byte.x42] ++ [newline]], None).
Definition demo_calls : list sevent := [Applied []; demo_put; demo_get].

Lemma demo_host : host_ok (lit "localhost:8080").
Proof.
  exists (lit "localhost"), (lit ":8080"). split; [done|]. split; [done|]. split; [done|]. right. by exists (lit "8080").
Qed.

Lemma demo_sicli_ok get call res :
  match execute demo_encode demo_decode (λ _, []) [] (λ n args, Nat.eqb (length args) n) (demo_world_at get)
    (call_command call) default_flags (call_args call) with
  | Ok (_, evs, r) => (printed evs, r) = res
  | _ => False
  end → demo_sicli (demo_server get) call res.
Proof.
  intros H. destruct (Cli.execute _ _ _ _ _ _ _ _ _) as [[[files evs] r]|e|] eqn:E; [|done..].
  exists (demo_world_at get), default_flags, (lit "localhost:8080"), (Timeout default_config), files, evs, r.
  split; [done|]. split; [apply demo_host|]. by split.
Qed.

(** A [Get] of ["user2"], which goes to the disk, between other steps. *)
Definition demo_store_get (_ : bytes) : option bytes := Some [Byte.x42].
Lemma demo_getting_run :
  live_getting demo_marshal demo_unmarshal demo_hash 100 demo_written key_user2 (G_done (demo_store_get key_user2)) [] demo_written.
Proof.
  apply (get_iter_live _ _ _ _ _ key_user2 7 G_start); [vm_compute; reflexivity|constructor].
Qed.

Lemma demo_session :
  session demo_hash 100 demo_encode demo_decode (λ _, []) [] (λ n args, Nat.eqb (length args) n) demo_text 2500000 2400000
    0 demo_peer (λ _, []) (λ _ _, None) demo_marshal demo_unmarshal demo_start demo_calls demo_written.
Proof.
  assert (live_steps demo_marshal demo_unmarshal demo_hash 100 demo_start (snd (demo_runs demo_start demo_elect)) demo_led) as H1.
  { apply demo_runs_live; [reflexivity|vm_compute; by eexists|vm_compute; reflexivity]. }
  assert (live_steps demo_marshal demo_unmarshal demo_hash 100 demo_led (snd (demo_runs demo_led demo_call)) demo_written) as H2.
  { apply demo_runs_live; [reflexivity|vm_compute; by eexists|vm_compute; reflexivity]. }
  assert (snd (demo_runs demo_start demo_elect) = []) as E1 by (vm_compute; reflexivity).
  assert (snd (demo_runs demo_led demo_call) = demo_events) as E2 by (vm_compute; reflexivity).
  assert (GetLeader (nd_raft (lv_node demo_led)) = 0) as E3 by (vm_compute; reflexivity).
  rewrite E1 in H1. rewrite E2 in H2.
  change demo_calls with ((([] ++ [Applied (applied_cmds [])]) ++ [demo_put]) ++ [demo_get]).
  eapply (session_read _ _ _ _ _ _ _ _ _ _ _ _ _ _ _ _ _ _ demo_written [] demo_written key_user2 0 demo_store_get (λ _, None));
    [|reflexivity|exact demo_getting_run|].
  - eapply (session_write _ _ _ _ _ _ _ _ _ _ _ _ _ _ _ _ _ _ demo_led [] demo_led demo_events demo_written
      (Call_put key_user1 [Byte.x42]) demo_store_get (λ _, None)).
    + eapply session_other; [constructor|exact H1].
    + discriminate.
    + constructor.
    + exact H2.
    + intros cmd [= <-]. split; [vm_compute; reflexivity|]. right. exists 0%nat, 1.
      split; [by left|right; right; by left].
    + right. exact E3.
    + rewrite E3. apply demo_sicli_ok. vm_compute. reflexivity.
  - apply demo_sicli_ok. vm_compute. reflexivity.
Qed.

Lemma session_refines_map_witness :
  ∃ M, (∀ k, len k < 100 → store_Get demo_hash (nd_store (lv_node demo_start)) k = Ok (M !! k)) ∧
    explained M demo_calls ∧
    ∀ k, len k < 100 → store_Get demo_hash (nd_store (lv_node demo_written)) k = Ok (session_map M demo_calls !! k).
Proof.
  apply (session_refines_map demo_hash 100 demo_encode demo_decode (λ _, []) [] (λ n args, Nat.eqb (length args) n)
    demo_text 2500000 2400000 0 demo_peer (λ _, []) (λ _ _, None) demo_marshal demo_unmarshal (Make 3 0 [] 0) (demo_dir 0) []
    1700000000000000004 demo_tables demo_calls demo_written).
  - intros n args. apply Nat.eqb_eq.
  - lia.
  - intros [|i] e H; [injection H as <-; reflexivity|discriminate H].
  - exact demo_tables_ok.
  - exact demo_one_level.
  - exact demo_session.
Defined.
