(* ===== verification/ServerMain.v ===== *)
(** * cmd/server/main.go: the start of a node

    [main]: the clients of the peers, the store with its Raft node from what
    is on disk, the goroutine of the gRPC server, the routes, and the HTTP
    server.  The theorem says what a node that starts, or starts again,
    serves, and that it refuses writes as long as it has heard of no leader.  The parsing of the command
    line is the library's: [main] is given the values of the flags. *)

From Stdlib Require Import Strings.String.
From stdpp Require Import base list gmap.
From Stdlib Require Import ZArith Lia.
From S2P Require Import Prelude GoFile Bloom Wal SSTable SSTReader GoDir GoText GoUrl Metrics Compact MemTable KvStore KvCompact KvGet KvRecovery RaftWal Raft RaftNode RaftElection RaftLeader KvClient Server Http WalFiles Session.

(** The flags with their defaults. *)
Record server_flags := mkServerFlags {
  sf_id : Z;
  sf_peers : bytes;
  sf_port : bytes;
  sf_http : bytes;
  sf_peer_template : bytes
}.
Definition default_server_flags : server_flags :=
  mkServerFlags 0 [] (lit "5001") (lit "8001") (lit "http://kv-%d:8001").

(** What a node finds on its disk: tables, WAL segments, Raft's WAL. *)
Record disk := mkDisk { dk_sst : dir; dk_wals : gmap Z bytes; dk_raft : option bytes }.

(** What the program does besides building its store. *)
Inductive main_event :=
| Go_grpc (port : bytes)            (* go startGRPCServer *)
| Handle (pattern : bytes)          (* http.HandleFunc, http.Handle *)
| Printed (line : bytes)
| RegisterRaftService
| Serve (addr : bytes)              (* accepting, until it fails *)
| Fatal (prefix : bytes).           (* log.Fatal: the process ends *)

Section server_main.
(** [grpc.NewClient]; whether a directory can be made, Raft's WAL opened, an
    address listened on; [serves]: whether an accepting server goes on. *)
Context {client : Type} (NewClient : bytes → option client).
Context (MkdirAll : bytes → bool) (wal_opens : bool) (Listen serves : bytes → bool).

(** The directories of [NewKVStore], the store, and [raft.Make], which panics
    when it cannot open its WAL. *)
Definition new_store (clients : list (option client)) (me : Z) (dk : disk) (now : Z) : outcome Node :=
  if negb (MkdirAll (lit "Storage/wal/wal_" ++ itoa me)) then Err ErrIO
  else if negb (MkdirAll (lit "Storage/data/data_" ++ itoa me)) then Err ErrIO
  else
    store ← open_store (dk_sst dk) (dk_wals dk);
    if wal_opens then Ok (start_node (Make (len clients) me (default [] (dk_raft dk)) now) store) else Panic.

(** A server on an address. *)
Definition serve_on (addr prefix : bytes) : list main_event :=
  Serve addr :: if serves addr then [] else [Fatal prefix].

(** [startGRPCServer(port, store)], which runs on its own. *)
Definition startGRPCServer (port : bytes) : list main_event :=
  let addr := lit ":" ++ port in
  if negb (Listen addr) then [Fatal (lit "Failed to listen")]
  else [RegisterRaftService; Printed (lit "gRPC server listening on :" ++ port)] ++
       serve_on addr (lit "gRPC serve failed").

(** The patterns registered, in order. *)
Definition patterns : list bytes := [lit "/get"; lit "/put"; lit "/delete"; lit "/metrics"].

(** [main()]: the node, if it was built, with its clients, and the events. *)
Definition main (fl : server_flags) (dk : disk) (now : Z)
  : outcome (option (list (option client) * Node) * list main_event) :=
  match raftClients NewClient (sf_id fl) (sf_peers fl) with
  | None => Ok (None, [Fatal (lit "Failed to connect to peer")])
  | Some clients =>
      match new_store clients (sf_id fl) dk now with
      | Panic => Panic
      | Err _ => Ok (None, [Fatal (lit "Failed to initialize store")])
      | Ok nd =>
          let addr := lit ":" ++ sf_http fl in
          Ok (Some (clients, nd),
              Go_grpc (sf_port fl) :: map Handle patterns ++ Printed (lit "HTTP server listening on :" ++ sf_http fl) ::
              if Listen addr then serve_on addr [] else [Fatal []])
      end
  end.
End server_main.

(** What a key has in the log of operations: the value of its last put, or
    the mark of a delete. *)
Definition last_op (ops : list Wal.write_op) (k : bytes) : option (option bytes) := foldl op_cells ∅ ops !! k.

(** * Lemmas *)

(** A Raft node that was just made is a follower that knows of no leader. *)
Lemma readPersist_role rf :
  rf_state (readPersist rf) = rf_state rf ∧ rf_leaderId (readPersist rf) = rf_leaderId rf ∧
  rf_me (readPersist rf) = rf_me rf.
Proof.
  unfold readPersist. destruct (RecoverEntries _) as [w [[es hs] [[]|e|]]]; [|done..].
  by destruct (0 <? len es), (0 <? hs_Term hs).
Qed.

(** A node that has heard of no other leader. *)
Definition unled (me : Z) (rf : Raft) : Prop := rf_me rf = me ∧ (GetLeader rf = -1 ∨ GetLeader rf = me).

Lemma Make_role peers me data now :
  rf_state (Make peers me data now) = Follower ∧ GetLeader (Make peers me data now) = -1 ∧
  unled me (Make peers me data now).
Proof.
  assert (∀ rf, rf_state rf = Follower → rf_leaderId rf = -1 → rf_me rf = me →
    rf_state (readPersist rf) = Follower ∧ GetLeader (readPersist rf) = -1 ∧ unled me (readPersist rf)) as H.
  { intros rf E1 E2 E3. destruct (readPersist_role rf) as (H1 & H2 & H3). unfold unled, GetLeader.
    rewrite H1, H2, H3. split_and!; auto. }
  by apply H.
Qed.

(** Only AppendEntries tells a node of another leader. *)
Definition unheard (act : node_action) : bool := match act with A_raft (In_append _ _) => false | _ => true end.

Lemma same_role_unled me rf rf' : same_role rf rf' → unled me rf → unled me rf'.
Proof. intros (_ & _ & _ & E1 & E2). unfold unled, GetLeader. by rewrite E1, E2. Qed.

Lemma raft_handle_unled me rf i rf' :
  raft_handle rf i = Some rf' → unheard (A_raft i) = true → unled me rf → unled me rf'.
Proof.
  intros H Hi [Hme Hl]. destruct i as [args now|args now|server args reply|term votes reply|now|]; simpl in H; [|done|..].
  - destruct (RequestVote rf args now) as [[rf1 r]| |] eqn:E; [|done..]. injection H as <-.
    pose proof (RequestVote_role _ _ _ _ _ E) as Hr. apply RequestVote_spec in E as (_ & _ & _ & _ & Em & _).
    unfold unled, GetLeader in *. rewrite Em. split; [done|]. destruct Hr as [(_ & _ & _ & -> & _)|[(_ & _ & ->)|(_ & _ & -> & _)]]; auto.
  - injection H as <-. pose proof (on_append_reply_quiet rf server args reply) as Hq.
    destruct (on_append_reply_role rf server args reply) as [Hr|(_ & _ & Hr)]; [by eapply same_role_unled|].
    split; [|by left]. unfold quiet in Hq. destruct Hq as (H1 & H2 & _). congruence.
  - destruct (on_vote_reply rf term votes reply) as [[rf1 v] hb] eqn:E. injection H as <-.
    revert E. unfold on_vote_reply. destruct (_ || _); [by intros [= <- _ _]|]. destruct (_ <? _).
    { intros [= <- _ _]. split; [done|by left]. }
    destruct (vr_VoteGranted reply); [|by intros [= <- _ _]]. cbv zeta. destruct (_ =? _); intros [= <- _ _]; [|done].
    split; [done|by right].
  - unfold startElection in H. cbv zeta in H. destruct (index _ _); cbn [mbind outcome_bind] in H; [|done..]. by injection H as <-.
  - rewrite replicator_ok in H. injection H as <-. eapply same_role_unled; [apply replicator_role|done].
Qed.

Section unheard.
Context (json : raftCmd → bytes) (unjson : bytes → option raftCmd) (me : Z).

Lemma client_step_raft nd act c p nd' ev : client_step nd act c p = Some (nd', ev) → nd_raft nd' = nd_raft nd.
Proof.
  intros Hs. destruct act, p; simpl in Hs; try done; try (by injection Hs as <- <-).
  - revert Hs. unfold take_chan. destruct reuse as [j|]; [destruct (nd_pool nd !! j); [|done]|]; by intros [= <- <-].
  - destruct (nd_chans nd !! ch) as [[|]|]; [|done..]. by injection Hs as <- <-.
Qed.

Lemma node_step_unled nd act nd' ev :
  node_step json unjson nd act = Some (nd', ev) → unheard act = true → unled me (nd_raft nd) → unled me (nd_raft nd').
Proof.
  intros Hs Hu Hi.
  assert (∀ c, match nd_clients nd !! c with Some p => client_step nd act c p | None => None end = Some (nd', ev) →
    unled me (nd_raft nd')) as Hclient.
  { intros c. destruct (nd_clients nd !! c) as [p|]; [|done]. intros H%client_step_raft. by rewrite H. }
  destruct act as [i| |openErr| |cmd|c reuse|c|c|c|c|c]; try exact (Hclient c Hs); clear Hclient; simpl in Hs.
  - destruct (raft_handle (nd_raft nd) i) as [rf|] eqn:E; [|done]. injection Hs as <- _. by eapply raft_handle_unled.
  - destruct (nd_apply nd); [|done]. destruct (rf_commitCh _); [|done].
    destruct (applier _) as [[rf es]| |] eqn:E; [|done..]. injection Hs as <- _. by eapply same_role_unled; [eapply applier_role|].
  - unfold deliver in Hs. destruct (nd_logs nd); [|done]. destruct (nd_apply nd) as [|e es]; [done|].
    destruct (unjson _) as [cmd|]; [|by injection Hs as <- _].
    destruct (apply_cmd (nd_store nd) cmd openErr) as [s [[]|er|]]; [| |done]; by injection Hs as <- _.
  - revert Hs. unfold notify. destruct (nd_logs nd); [done|].
    destruct (nd_notify nd !! _) as [ch|]; [destruct (nd_chans nd !! ch) as [[|]|]; [done| |done]|]; by intros [= <- _].
  - unfold put_call in Hs. pose proof (Start_role (nd_raft nd) (json cmd)) as Hr.
    destruct (Start _ _) as [rf [[i term] lead]]. injection Hs as <- _. by eapply same_role_unled.
Qed.

Lemma node_run_unled nd acts nd' ev :
  node_run json unjson nd acts = Some (nd', ev) → forallb unheard acts = true → unled me (nd_raft nd) → unled me (nd_raft nd').
Proof.
  revert nd ev. induction acts as [|act acts IH]; intros nd ev; cbn [node_run forallb]; [by intros [= <- _]|].
  destruct (node_step _ _ nd act) as [[nd1 ev1]|] eqn:E; [|done]. cbn [mbind option_bind].
  destruct (node_run _ _ nd1 acts) as [[nd2 ev2]|] eqn:E2; [|done]. intros [= <- _] [Hu Hus]%andb_true_iff Hi.
  apply (IH nd1 ev2 E2 Hus). by eapply node_step_unled.
Qed.
End unheard.

(** What a client of [Put] is told by a node that does not lead. *)
Lemma refused_put json nd cmd :
  rf_state (nd_raft nd) ≠ Leader →
  snd (put_call json nd cmd) = [NE_done (length (nd_clients nd)) (Some ErrNotLeader)].
Proof. intros H. unfold put_call, Start. by rewrite bool_decide_eq_false_2. Qed.

Section answers.
Context (StatusText : Z → bytes) (duration elapsed : Z) (nodeID : Z) (peer_url : Z → bytes).
Context (error_text : error → bytes) (forward : bytes → bytes → option response).
Notation node_answer := (node_answer StatusText duration elapsed nodeID peer_url error_text forward).

(** The answer to a write at a node that knows of no leader, or takes itself
    for the leader although it does not lead any more. *)
Definition no_leader (leaderID : Z) : option (Z * option bytes) :=
  Some (if leaderID =? -1 then (404, Some (lit "Leader not found" ++ [newline]))
        else (503, Some (lit "Cluster in leadership transition" ++ [newline]))).

Lemma refused_ops leaderID url :
  leaderID = -1 ∨ leaderID = nodeID →
  ∃ c, run_ops (Direct new_conn) (put_ops (forward_ops forward)
      (write_failed nodeID peer_url error_text leaderID url ErrNotLeader)) = Ok (Direct c) ∧ conn_answer c = no_leader leaderID.
Proof.
  intros H. unfold write_failed, no_leader. rewrite decide_True by done.
  destruct (Z.eqb_spec leaderID (-1)); [|rewrite (proj2 (Z.eqb_eq leaderID nodeID)) by lia]; eexists; by (split; [apply error_conn; lia|]).
Qed.

Lemma early_put leaderID get put method q :
  leaderID = -1 ∨ leaderID = nodeID → (∀ cmd, put cmd = Some ErrNotLeader) →
  node_answer leaderID get put method (lit "/put") (Delivered q) = no_leader leaderID.
Proof.
  intros Hl Hput. edestruct (refused_ops leaderID) as (c & Hc & <-); [done|].
  apply (routed_answer _ _ _ _ _ _ _ _ get put method (lit "/put") q
    (serve_put nodeID peer_url error_text put leaderID forward) (lit "PUT") (lit "/put") c); [done|].
  unfold serve_put, handlePut. rewrite Hput. exact Hc.
Qed.

Lemma early_delete leaderID get put method q :
  leaderID = -1 ∨ leaderID = nodeID → (∀ cmd, put cmd = Some ErrNotLeader) → query_get q (lit "key") ≠ [] →
  node_answer leaderID get put method (lit "/delete") (Delivered q) = no_leader leaderID.
Proof.
  intros Hl Hput Hk. edestruct (refused_ops leaderID) as (c & Hc & <-); [done|].
  apply (routed_answer _ _ _ _ _ _ _ _ get put method (lit "/delete") q
    (serve_delete nodeID peer_url error_text put leaderID forward) (lit "DELETE") (lit "/delete") c); [done|].
  unfold serve_delete, handleDelete. cbn [rq_RawQuery]. rewrite bool_decide_eq_false_2, Hput by done. exact Hc.
Qed.
End answers.

(** The store is built when the directories can be made and the newest log
    fits a table. *)
Lemma new_store_log {client} MkdirAll Sum64 (clients : list (option client)) me dk now ops m readers :
  (∀ p, MkdirAll p = true) →
  (∀ id, is_Some (dk_wals dk !! id) → seg_id id ∧ id <= m) →
  dk_wals dk !! m = Some (f_data (w_file (wal_writes (OpenWAL [] []) ops))) →
  Forall op_ok ops → sumZ op_space ops <= mapLimit → len (log_bytes 0 ops) < 2 ^ 63 →
  refreshSSTables (dk_sst dk) = Ok readers →
  ∃ s, new_store MkdirAll true clients me dk now =
      Ok (start_node (Make (len clients) me (default [] (dk_raft dk)) now) s) ∧
    ∀ k, store_Get Sum64 s k = match last_op ops k with
                               | Some c => Ok c
                               | None => get_files Sum64 (dk_sst dk) (sst_files (dk_sst dk)) k
                               end.
Proof.
  intros Hdir Hids Hm Hok Hroom Hlen Hd.
  destruct (NewKVStore_log Sum64 (dk_sst dk) (dk_wals dk) ops m readers) as (s & Hs & _ & _ & HG); [done..|].
  exists s. split; [|done]. unfold new_store. rewrite !Hdir. cbn [negb].
  rewrite (open_store_newest _ _ m Hids (ex_intro _ _ Hm)), Hs. done.
Qed.

(** * Properties *)


(** Node 1 of three, with two log segments. *)
Definition demo_server : server_flags :=
  mkServerFlags 1 (lit "kv-0:5001,kv-1:5001,kv-2:5001") (lit "5001") (lit "8001") (lit "http://kv-%d:8001").
Definition demo_log : bytes := f_data (w_file (wal_writes (OpenWAL [] []) [(5, lit "k", lit "v", CmdPut)])).
Definition demo_disk : disk := mkDisk ∅ (<[3 := []]> {[12 := demo_log]}) None.

